(* ===== verification/_CoqProject ===== *)
-Q . S2P
Prelude.v
Bytes.v
Floats.v
Dyadic.v
Ranks.v
Rounding.v
LongDouble.v
Telemetry.v
Validation.v
BoundedQueue.v
QueuedSink.v
Collector.v
Crc32c.v
Streams.v
LogFormat.v
LogWriter.v
LogReader.v
LogRecovery.v
Recording.v
Fnv.v
Replay.v
ReplaySafety.v
Pacing.v
Random.v
Generator.v
Workload.v
OrderedMap.v
Publisher.v
Publishing.v
Analyzer.v
Analysis.v
Options.v
Commands.v
Program.v
Serving.v
Reactors.v
Fuzz.v
