(* ===== verification/Prelude.v ===== *)
(** * TraceForge: a verification library

    TraceForge collects telemetry of sensors, records it in a log file, replays
    and analyses such files, and generates synthetic telemetry. This library
    translates the C++ sources under [src/] into executable definitions and
    proves what makes them correct. Names are those of the sources where Rocq
    allows it; a record field of a class keeps its trailing underscore.

    ** The program and the files

    A producer streams [TelemetryEvent]s by gRPC to the collector. For every
    stream the service ([src/telemetry/collector_service.cpp]) validates each
    event ([src/telemetry/validation.cpp]) and hands it to a sink
    ([src/telemetry/queued_sink.cpp]), which puts it in a bounded queue
    ([include/traceforge/concurrency/bounded_queue.hpp]). A consumer thread takes
    the events out and gives them to a consumer, normally the log writer
    ([src/recording/log_consumer.cpp], [src/recording/log.cpp]). The log reader,
    the recovery, the replay engine ([src/replay/replay.cpp]) and the analyzer
    ([src/analysis/analyzer.cpp]) work on the files; the generator and the
    publisher ([src/generator/]) make events and stream them to a collector;
    [app/main.cpp] is the command line over all of it.

    Foundations:
    - [Prelude] (this file): machine integers as [Z] with explicit wrap-around,
      early returns, tactics and hints, generic list lemmas.
    - [Bytes]: bytes and little-endian fields. [Floats], [Dyadic], [Ranks]: IEEE
      doubles as [SpecFloat] data, exact arithmetic on dyadic numbers, and the
      rounding of a product up to [ceil]. [Rounding], [LongDouble]: what one rounding
      of an integer, a quotient or a product may change, for any format, and the
      operations on [long double] the sources use.
    - [Streams]: the parts of [<fstream>] and [<filesystem>] in use, with faults.
    - [OrderedMap]: [std::map] as a sorted association list over the class
      [KeyOrder] of key orders.

    Collection:
    - [Telemetry]: the messages of [telemetry.proto]; the Protobuf library is the
      class [EventCodec], its contract the class [EventCodecLaws].
    - [Validation]: [validate_payload], [StreamValidator].
    - [BoundedQueue]: [try_push], [wait_pop], [close], [stats], as critical
      sections.
    - [QueuedSink]: [try_accept], the consumer loop and [shutdown] as program
      counters; a step is one atomic access or critical section. The consumer is
      the class [TelemetryConsumer]; the class [TelemetrySink] of [Collector] is
      what the service needs of a sink.
    - [Collector]: [OnReadDone] and the run of one client stream.

    Recording:
    - [Crc32c], [LogFormat]: checksum, headers and the image of a log.
    - [LogWriter], [LogReader], [LogRecovery]: [src/recording/log.cpp].
    - [Recording]: writer and reader together, crashes, and the writer as the
      consumer behind the queue.
    - [Fnv], [Replay]: [src/replay/replay.cpp]; [ReplaySafety]: replaying a file
      that changed after it was indexed; [Pacing]: the deadlines of a paced replay.

    Generation:
    - [Random]: [PortableRandom] over the class [RandomEngine], and the standard
      library's 64-bit Mersenne Twister.
    - [Generator]: the data and operations of [workload_generator.cpp];
      [Workload]: their theorems.
    - [Publisher]: [workload_publisher.cpp], its threads interleaved over the
      class [GrpcChannel]; [Publishing]: generator, publisher, collector and queued
      sink composed. The class [CollectorChannel] says what gRPC carries between
      them: calls may be lost, and the sink answers as the sink of [QueuedSink]
      does, shared, draining and shut down at any moment.

    Analysis and command line:
    - [Analyzer], [Analysis]: [analyze_log] and its theorems.
    - [Options]: [std::from_chars], [std::stod] and the option loops;
      [Commands]: every command of [app/main.cpp] and [main]; [Program]: their
      theorems.
    - [Serving]: the threads of [run_collector] while it serves - main thread, signal
      handler, signal monitor, consumer thread, streams - as interleaved steps; gRPC
      is the class [GrpcServer], its contract [GrpcServerLaws], the clients'
      share in a shutdown [ClientsFinish].
    - [Reactors]: the stream reactors as the callbacks of that server; the class
      [ReactorServer] says how gRPC drives them, and a server that does is an
      instance of all four classes.
    - [Fuzz]: [fuzz/recording_parser_fuzz.cpp], a client of writer, reader and
      recovery.

    ** What the theorems show

    - Nothing is lost between acceptance and disk: the interleaved pipeline keeps
      order and content ([sink_keeps_events], with [shutdown_drains]), loses no
      wake-up ([sink_always_settles]); whatever the faults, a crash leaves a log that
      reads as the first records, at most one flush period short
      ([pipeline_survives_crash], [crash_keeps_flushed_records]); a clean end
      leaves all of them if the last flush, which is checked, succeeds, and a readable
      log short of its end if it does not ([pipeline_records_every_event],
      [fault_free_session_round_trips]). Existing files are never touched
      ([existing_recording_untouched]).
    - The collector process: whatever the interleaving of its threads and of signals,
      it is taken down in order ([collector_taken_down_in_order]), a signal ends it
      if the clients end their streams ([collector_stops_on_signal]), and exit code
      0 means that the file is an interleaving, in order, of the validated first
      messages of the clients' streams ([recording_traced_to_clients], on top of
      [collect_records_accepted] and [collector_exit_vouches]).
    - What is read is what was written: [read_log_sound],
      [cut_log_keeps_whole_records], [changed_byte_detected] on top of
      [crc32c_detects_bursts], [recovery_keeps_every_whole_record]; the tools agree
      on what a recording is ([tools_agree]).
    - Validation accepts exactly the admissible events and counts exactly
      ([accept_iff_admissible], [stream_summary_exact],
      [collector_stream_outcome]); the queue is a bounded FIFO.
    - Replay delivers exactly a window in a total order ([replay_delivers_window],
      [replay_result_exact], [replay_windows_compose]) and never hands out a
      record of a changed file it cannot vouch for ([changed_file_never_trusted]).
      Its pauses end in the order of the records and where the recorded times and
      the speed put them: to within a nanosecond and a quarter with the 64 bits of
      precision of x86; with the 53 bits of platforms whose [long double] is
      [double], to within 513 ns of an elapsed time that is itself up to 4096 ns off
      ([paced_replay_deadlines]).
    - The generator terminates ([generator_terminates]), its configuration check is
      exact, its counters, swaps, schedule and streams are what they say, and its
      random numbers are unbiased.
      A quiet workload passes the validator; published, every producer is accepted
      completely and without gaps unless a call is lost or the sink is full or
      stopped ([quiet_workload_published]); the publisher terminates and reports
      what its threads did.
    - The analyzer computes the statistics of its contract, nearest-rank
      percentiles included, and agrees with the collector's summaries.
    - The command line parses exactly the numerals of its types, its options stay in
      range, and [generate] ends for every command line, with the publisher's threads
      under any schedule, and with the exit code of its outcome
      ([generate_command_outcome]).
    - The fuzz harness: every call returns 0 - or ends in the exception of a missing
      temporary directory -, recovers exactly the truncated logs, finds a complete
      log after a recovery, and leaves no file behind that can be removed
      ([fuzz_run_contract]); its mutations are judged right
      ([fuzz_mutations_judged]).

    ** Bounds and fuel

    Loops over data are structural. Three functions take fuel: the loop of
    [read_log], for which the size of the file is enough ([read_log_returns]);
    [std::lower_bound], for which the number of entries is enough
    ([lower_bound_spec]); and the rejection loop of [bounded], where the fuel
    counts the draws allowed: for an engine that keeps drawing values of the upper
    half some amount is enough and more changes nothing ([generator_terminates]).
    Interleavings carry a measure that every step of the code decreases - in
    [Serving] from the call of [Shutdown] on, which after a signal is at most five
    steps of two threads away. Counters wrap at 64 bits; theorems that need them not to wrap say so (logs below 2^63 or 2^64
    bytes, fewer than 2^31 records to analyse, where the tools' limit is a
    million). [long double] is a binary format of any precision and range; the
    deadlines of [Pacing] are for at least 53 bits of precision.

    ** Not modelled

    - Protobuf and gRPC, generated or external: parameters with their contract.
    - Time: clocks are arguments of the functions that read them; the deadline of a
      pause is computed, waiting for it is not modelled, and a sleep of the signal
      monitor is a step.
    - The text the output streams make of a printed value: a command returns the
      values it inserts.
    - The start of the gRPC server: its success and its port are arguments of
      [collector_start].
    - [benchmarks/], which measures the wall-clock time of the components modelled here;
      the clients under [clients/], in other languages; tests and build files.

    Next: the publisher as the client of [Reactors], so that [generate --target] and
    [collect] are one system. *)
From Stdlib Require Import ZArith Lia.
From stdpp Require Import base gmap strings list sorting.

Declare Scope tf_scope.
Delimit Scope tf_scope with tf.

(** An early [return] of a C++ function: [return_if c with r ;; k] leaves with
    [r] when the guard [c] holds and goes on with [k] otherwise. *)
Notation "'return_if' c 'with' r ;; k" := (if c then r else k)
  (at level 10, c at level 99, r at level 99, k at level 200,
   only parsing) : tf_scope.

(** ** Machine integers: [uint8_t] .. [uint64_t] and [int64_t] as ranges of [Z] *)

Definition u8 (z : Z) : Z := (z mod 2 ^ 8)%Z.
Definition u16 (z : Z) : Z := (z mod 2 ^ 16)%Z.
Definition u32 (z : Z) : Z := (z mod 2 ^ 32)%Z.
Definition u64 (z : Z) : Z := (z mod 2 ^ 64)%Z.

(** [static_cast] to a signed type of [w] bits (two's complement since C++20). *)
Definition to_signed (w z : Z) : Z :=
  ((z + 2 ^ (w - 1)) mod 2 ^ w - 2 ^ (w - 1))%Z.
Definition s64 (z : Z) : Z := to_signed 64 z.

Definition in_u32 (z : Z) : Prop := (0 <= z < 2 ^ 32)%Z.
Definition in_u64 (z : Z) : Prop := (0 <= z < 2 ^ 64)%Z.
Definition in_s64 (z : Z) : Prop := (- 2 ^ 63 <= z < 2 ^ 63)%Z.

Create HintDb tf.
Create Rewrite HintDb tf.
#[export] Hint Unfold u8 u16 u32 u64 s64 to_signed in_u32 in_u64 in_s64 : tf.

(** Opens the ranges, names the powers of two as numerals, then [lia]. *)
Ltac tf_arith :=
  autounfold with tf in *;
  change (2 ^ 8)%Z with 256%Z in *; change (2 ^ 16)%Z with 65536%Z in *;
  change (2 ^ 32)%Z with 4294967296%Z in *;
  change (2 ^ 63)%Z with 9223372036854775808%Z in *;
  change (2 ^ (64 - 1))%Z with 9223372036854775808%Z in *;
  change (2 ^ 64)%Z with 18446744073709551616%Z in *;
  try lia.

(** Closes the range conditions of concrete values by evaluation. *)
Ltac solve_range := repeat split; vm_compute; congruence.

(** Splits conjunctions of the goal and closes each part with [tac]. *)
Tactic Notation "splits" "by" tactic(tac) := repeat split; tac.

(** Case analysis on the innermost [if] or [match] scrutinee of the goal. *)
Ltac case_if :=
  match goal with
  | |- context [if ?c then _ else _] =>
      lazymatch c with
      | context [if _ then _ else _] => fail
      | context [match _ with _ => _ end] => fail
      | _ => destruct c eqn:?
      end
  end.

(** Turns boolean comparisons of the context into propositions. *)
Ltac reflect_bools :=
  repeat match goal with
  | H : (_ && _)%bool = true |- _ => apply andb_true_iff in H as [??]
  | H : (_ || _)%bool = false |- _ => apply orb_false_iff in H as [??]
  | H : negb _ = true |- _ => apply negb_true_iff in H
  | H : negb _ = false |- _ => apply negb_false_iff in H
  | H : (_ <? _)%Z = true |- _ => apply Z.ltb_lt in H
  | H : (_ <? _)%Z = false |- _ => apply Z.ltb_ge in H
  | H : (_ <=? _)%Z = true |- _ => apply Z.leb_le in H
  | H : (_ <=? _)%Z = false |- _ => apply Z.leb_gt in H
  | H : (_ =? _)%Z = true |- _ => apply Z.eqb_eq in H
  | H : (_ =? _)%Z = false |- _ => apply Z.eqb_neq in H
  | H : bool_decide _ = true |- _ => apply bool_decide_eq_true in H
  | H : bool_decide _ = false |- _ => apply bool_decide_eq_false in H
  end.

Section machine_integers.
Local Open Scope Z_scope.

Lemma u8_small z : 0 <= z < 256 -> u8 z = z.
Proof. intros; apply Z.mod_small; tf_arith. Qed.
Lemma u16_small z : 0 <= z < 65536 -> u16 z = z.
Proof. intros; apply Z.mod_small; tf_arith. Qed.
Lemma u32_small z : in_u32 z -> u32 z = z.
Proof. intros; apply Z.mod_small; tf_arith. Qed.
Lemma u64_small z : in_u64 z -> u64 z = z.
Proof. intros; apply Z.mod_small; tf_arith. Qed.
Lemma u64_range z : in_u64 (u64 z).
Proof. apply Z.mod_pos_bound; lia. Qed.
Lemma u32_range z : in_u32 (u32 z).
Proof. apply Z.mod_pos_bound; lia. Qed.
Lemma s64_range z : in_s64 (s64 z).
Proof.
  unfold in_s64, s64, to_signed; change (2 ^ (64 - 1)) with (2 ^ 63).
  pose proof (Z.mod_pos_bound (z + 2 ^ 63) (2 ^ 64)); lia.
Qed.
Lemma s64_u64 z : in_s64 z -> s64 (u64 z) = z.
Proof.
  intros H. unfold s64, to_signed, u64.
  rewrite Zplus_mod_idemp_l, Z.mod_small; tf_arith.
Qed.
Lemma s64_small z : in_s64 z -> s64 z = z.
Proof. intros H. unfold s64, to_signed. rewrite Z.mod_small; tf_arith. Qed.
Lemma u64_s64 z : u64 (s64 z) = u64 z.
Proof.
  unfold s64, to_signed, u64. rewrite Zminus_mod_idemp_l. f_equal. lia.
Qed.
Lemma u64_add_l a b : u64 (u64 a + b) = u64 (a + b).
Proof. apply Zplus_mod_idemp_l. Qed.
Lemma u64_idemp z : u64 (u64 z) = u64 z.
Proof. apply Z.mod_mod; lia. Qed.
End machine_integers.

#[export] Hint Resolve u64_range u32_range s64_range : tf.
#[export] Hint Rewrite u64_idemp u64_add_l : tf.

(** ** Lists *)

Section lists.
Context {A : Type}.
Implicit Types l k : list A.

Lemma drop_take_cat n m l : drop n l = take m (drop n l) ++ drop (n + m) l.
Proof. by rewrite <- drop_drop, take_drop. Qed.

(** A prefix of [l ++ k] is a prefix of [l], or all of [l] and a prefix of [k]. *)
Lemma take_app_cases n l k :
  (n < length l)%nat /\ take n (l ++ k) = take n l \/
  (length l <= n)%nat /\ take n (l ++ k) = l ++ take (n - length l) k.
Proof.
  destruct (decide (n < length l)%nat); [left|right]; (split; [lia|]).
  - by rewrite take_app_le by lia.
  - by rewrite take_app_ge by lia.
Qed.

Lemma drop_app_len l k n : n = length l -> drop n (l ++ k) = k.
Proof. intros ->. apply drop_app_length. Qed.

Lemma take_app_len l k n : n = length l -> take n (l ++ k) = l.
Proof. intros ->. apply take_app_length. Qed.

Lemma snoc_eq_inv l k x y : l ++ [x] = k ++ [y] -> l = k /\ x = y.
Proof. intros [? [= ->]]%app_inj_2; done. Qed.

Lemma filter_all (P : A -> Prop) `{!forall x, Decision (P x)} l :
  (forall x, x ∈ l -> P x) -> filter P l = l.
Proof.
  induction l as [|x l IH]; intros Hp; [done|].
  rewrite filter_cons_True by (apply Hp; left). f_equal.
  apply IH; intros; apply Hp; by right.
Qed.

Lemma filter_ext_elem (P Q : A -> Prop) `{!forall x, Decision (P x)}
    `{!forall x, Decision (Q x)} l :
  (forall x, x ∈ l -> P x <-> Q x) -> filter P l = filter Q l.
Proof.
  induction l as [|x l IH]; intros Hpq; [done|].
  rewrite !filter_cons, IH by (intros; apply Hpq; by right).
  assert (P x <-> Q x) by (apply Hpq; left).
  do 2 case_decide; done || tauto.
Qed.

Lemma filter_nothing (P : A -> Prop) `{!forall x, Decision (P x)} l :
  (forall x, x ∈ l -> ~ P x) -> filter P l = [].
Proof.
  induction l as [|x l IH]; intros Hn; [done|].
  rewrite filter_cons_False by (apply Hn; left). apply IH. intros y Hy. apply Hn. by right.
Qed.

(** A filter that keeps exactly the positions from [k] on, or those before. *)
Lemma filter_drop (P : A -> Prop) `{!forall x, Decision (P x)} l n :
  (forall i x, l !! i = Some x -> (i < n)%nat -> ~ P x) ->
  (forall i x, l !! i = Some x -> (n <= i)%nat -> P x) ->
  filter P l = drop n l.
Proof.
  revert n; induction l as [|x l IH]; intros n Hlo Hhi; [by destruct n|].
  destruct n as [|n].
  - rewrite drop_0. apply filter_all. intros y [i Hi]%list_elem_of_lookup_1.
    apply (Hhi i y Hi). lia.
  - rewrite filter_cons_False by (apply (Hlo 0%nat); [done|lia]). apply IH.
    + intros i y Hi Hlt. apply (Hlo (S i)); [done|lia].
    + intros i y Hi Hle. apply (Hhi (S i)); [done|lia].
Qed.
End lists.

Lemma omap_cons_list {A B} (f : A -> option B) x l :
  omap f (x :: l) = option_list (f x) ++ omap f l.
Proof. cbn. by destruct (f x). Qed.

Lemma omap_snoc {A B} (f : A -> option B) l x :
  omap f (l ++ [x]) = omap f l ++ option_list (f x).
Proof. rewrite omap_app. cbn. by destruct (f x). Qed.

Lemma list_filter_fmap {A B} (f : A -> B) (P : B -> Prop) `{!forall y, Decision (P y)} (l : list A) :
  filter P (f <$> l) = f <$> filter (fun x => P (f x)) l.
Proof.
  induction l as [|x l IH]; [done|]. rewrite fmap_cons, !filter_cons, IH.
  by case_decide.
Qed.

Lemma filter_sorted {A} (R : A -> A -> Prop) (P : A -> Prop) `{!forall x, Decision (P x)} l :
  StronglySorted R l -> StronglySorted R (filter P l).
Proof.
  induction 1 as [|a l Hl IH Ha]; [constructor|]. rewrite filter_cons.
  case_decide; [|done]. constructor; [done|]. rewrite Forall_forall in Ha |- *.
  intros x [_ Hx]%list_elem_of_filter. auto.
Qed.

Lemma filter_Forall {A} (Q P : A -> Prop) `{!forall x, Decision (P x)} (l : list A) :
  Forall Q l -> Forall Q (filter P l).
Proof.
  rewrite !Forall_forall. intros Hl x [_ Hx]%list_elem_of_filter. auto.
Qed.

(** The sum of a weight over the values of a map. *)
Definition map_weight {A} (f : A -> nat) (m : gmap nat A) : nat :=
  sum_list ((fun p => f p.2) <$> map_to_list m).

Lemma sum_list_permutation (l k : list nat) : l ≡ₚ k -> sum_list l = sum_list k.
Proof. induction 1; cbn; lia. Qed.

Lemma map_weight_insert {A} (f : A -> nat) m i x :
  map_weight f (<[i := x]> m) = (f x + map_weight f (delete i m))%nat.
Proof.
  unfold map_weight. rewrite <- insert_delete_eq.
  by rewrite (sum_list_permutation _ _ (fmap_Permutation _ _ _
    (map_to_list_insert _ _ _ (lookup_delete_eq m i)))).
Qed.

Lemma map_weight_lookup {A} (f : A -> nat) m i x : m !! i = Some x ->
  map_weight f m = (f x + map_weight f (delete i m))%nat.
Proof. intros H. by rewrite <- map_weight_insert, insert_id. Qed.

Lemma fold_left_cons {A B} (f : A -> B -> A) x l a :
  fold_left f (x :: l) a = fold_left f l (f a x).
Proof. done. Qed.

(** [Z]-valued length, the [size()] of a container. *)
Abbreviation Zlength l := (Z.of_nat (length l)).
