(* ===== verification/Bytes.v ===== *)
(** * Bytes: [std::uint8_t] buffers and the little-endian codecs of
    [src/recording/log.cpp] *)
From Stdlib Require Import ZArith Lia.
From Stdlib Require Import Strings.Byte.
From stdpp Require Import base gmap strings list.
From S2P Require Import Prelude.
Local Open Scope Z_scope.

Abbreviation byte := Byte.byte.
Abbreviation bytes := (list Byte.byte).

#[export] Instance byte_eq_dec : EqDecision byte.
Proof. intros a b; apply Byte.byte_eq_dec. Defined.

(** The value of a [std::uint8_t] and the conversion [static_cast<std::uint8_t>]. *)
Definition byte_val (b : byte) : Z := Z.of_N (Byte.to_N b).
Definition byte_of (z : Z) : byte :=
  default x00 (Byte.of_N (Z.to_N (u8 z))).

Lemma byte_val_range b : 0 <= byte_val b < 256.
Proof.
  unfold byte_val. pose proof (Byte.to_N_bounded b). lia.
Qed.
#[export] Hint Resolve byte_val_range : tf.

Lemma byte_val_of z : byte_val (byte_of z) = u8 z.
Proof.
  unfold byte_val, byte_of.
  assert (Hr : 0 <= u8 z < 256) by (apply Z.mod_pos_bound; lia).
  destruct (Byte.of_N (Z.to_N (u8 z))) as [b|] eqn:E; simpl.
  - apply Byte.to_of_N in E. rewrite E. lia.
  - apply Byte.of_N_None_iff in E. lia.
Qed.

Lemma byte_val_inj a b : byte_val a = byte_val b -> a = b.
Proof.
  unfold byte_val; intros H%N2Z.inj.
  pose proof (Byte.of_to_N a) as Ha. pose proof (Byte.of_to_N b) as Hb.
  rewrite H in Ha. congruence.
Qed.

Lemma byte_of_val b : byte_of (byte_val b) = b.
Proof. apply byte_val_inj. rewrite byte_val_of. apply u8_small, byte_val_range. Qed.
#[export] Hint Rewrite byte_val_of byte_of_val : tf.

Module LittleEndian.
(** ** The C++ loops of log.cpp *)

(** [encode_little_endian]: the loop over [byte] from [i] on, with
    [remaining] the part of the unsigned value still to store; [n] is
    [sizeof(Integer)] minus [i]. *)
Fixpoint encode_loop (n : nat) (destination : bytes) (at_ : nat)
    (remaining : Z) : bytes :=
  match n with
  | O => destination
  | S n' =>
      encode_loop n' (<[at_ := byte_of (Z.land remaining 255)]> destination)
        (S at_) (Z.shiftr remaining 8)
  end.

(** [encode_little_endian<Integer>(destination, offset, value)] with
    [size = sizeof(Integer)]; the value is first cast to the unsigned type. *)
Definition encode_little_endian (size : nat) (destination : bytes)
    (offset : nat) (value : Z) : bytes :=
  encode_loop size destination offset (value mod 2 ^ (8 * Z.of_nat size)).

(** [decode_little_endian]: the loop that ors the shifted bytes together. *)
Fixpoint decode_loop (n : nat) (byte_ : nat) (source : bytes) (offset : nat)
    (value : Z) : Z :=
  match n with
  | O => value
  | S n' =>
      let shifted :=
        Z.shiftl (byte_val (default x00 (source !! (offset + byte_)%nat)))
                 (Z.of_nat byte_ * 8) in
      decode_loop n' (S byte_) source offset (Z.lor value shifted)
  end.

Definition decode_little_endian (size : nat) (source : bytes)
    (offset : nat) : Z :=
  decode_loop size 0 source offset 0.

(** ** Reference codec: the [n] low-order bytes of an integer *)

Fixpoint le_split (n : nat) (z : Z) : bytes :=
  match n with
  | O => []
  | S n' => byte_of z :: le_split n' (z / 256)
  end.

Fixpoint le_combine (bs : bytes) : Z :=
  match bs with
  | [] => 0
  | b :: bs' => byte_val b + 256 * le_combine bs'
  end.

(** ** The loops compute the reference codec *)

Lemma le_split_length n z : length (le_split n z) = n.
Proof. revert z; induction n; simpl; auto. Qed.

Lemma byte_of_land z : byte_of (Z.land z 255) = byte_of z.
Proof.
  change 255 with (Z.ones 8). rewrite Z.land_ones by lia.
  apply byte_val_inj. rewrite !byte_val_of. apply Z.mod_mod; lia.
Qed.

Lemma encode_loop_spec n : forall d off z,
  (off + n <= length d)%nat ->
  encode_loop n d off z = take off d ++ le_split n z ++ drop (off + n) d.
Proof.
  induction n as [|n IH]; intros d off z H; simpl.
  - by rewrite Nat.add_0_r, take_drop.
  - rewrite IH by (rewrite length_insert; lia).
    rewrite byte_of_land, Z.shiftr_div_pow2 by lia. change (2 ^ 8) with 256.
    rewrite (take_S_r _ _ (byte_of z)) by (apply list_lookup_insert_eq; lia).
    rewrite take_insert_ge, drop_insert_lt by lia.
    rewrite <- app_assoc. by replace (off + S n)%nat with (S off + n)%nat by lia.
Qed.

Lemma land_shiftl_low k v b :
  0 <= k -> 0 <= v < 2 ^ k -> Z.land v (Z.shiftl b k) = 0.
Proof.
  intros Hk Hv. apply Z.bits_inj'; intros i Hi. rewrite Z.land_spec, Z.bits_0.
  destruct (Z_lt_le_dec i k).
  - rewrite Z.shiftl_spec_low by lia. apply andb_false_r.
  - rewrite (proj1 (Z.bounded_iff_bits_nonneg k v ltac:(lia) ltac:(lia))) by lia.
    done.
Qed.

Lemma lxor_shiftl_add k v b :
  0 <= k -> 0 <= v < 2 ^ k -> Z.lxor v (Z.shiftl b k) = v + b * 2 ^ k.
Proof.
  intros Hk Hv. rewrite <- Z.shiftl_mul_pow2 by lia.
  by rewrite Z.add_nocarry_lxor by (by apply land_shiftl_low).
Qed.

Lemma lor_shiftl_add k v b :
  0 <= k -> 0 <= v < 2 ^ k -> Z.lor v (Z.shiftl b k) = v + b * 2 ^ k.
Proof.
  intros Hk Hv. rewrite <- Z.lxor_lor by (by apply land_shiftl_low).
  by apply lxor_shiftl_add.
Qed.

Lemma le_combine_range bs : 0 <= le_combine bs < 2 ^ (8 * Zlength bs).
Proof.
  induction bs as [|b bs IH]; cbn [le_combine length]; [done|].
  replace (8 * Z.of_nat (S (length bs))) with (8 + 8 * Zlength bs) by lia.
  rewrite Z.pow_add_r by lia. change (2 ^ 8) with 256.
  pose proof (byte_val_range b). nia.
Qed.

Lemma decode_loop_spec n : forall i src off v,
  (off + i + n <= length src)%nat -> 0 <= v < 2 ^ (8 * Z.of_nat i) ->
  decode_loop n i src off v =
    v + 2 ^ (8 * Z.of_nat i) * le_combine (take n (drop (off + i) src)).
Proof.
  induction n as [|n IH]; intros i src off v H Hv; cbn [decode_loop].
  - change (take 0 (drop (off + i) src)) with (@nil byte). cbn [le_combine]. lia.
  - destruct (lookup_lt_is_Some_2 src (off + i)%nat) as [b Hb]; [lia|].
    rewrite Hb; cbn [default from_option].
    rewrite lor_shiftl_add by (rewrite 1?Z.mul_comm; lia).
    rewrite (drop_S _ _ _ Hb), firstn_cons. cbn [le_combine id].
    replace (Z.of_nat i * 8) with (8 * Z.of_nat i) by lia.
    pose proof (byte_val_range b).
    assert (Hp : 2 ^ (8 * Z.of_nat (S i)) = 256 * 2 ^ (8 * Z.of_nat i)).
    { replace (8 * Z.of_nat (S i)) with (8 + 8 * Z.of_nat i) by lia.
      by rewrite Z.pow_add_r by lia. }
    assert (0 < 2 ^ (8 * Z.of_nat i)) by (apply Z.pow_pos_nonneg; lia).
    unfold id. rewrite IH; [|lia|rewrite Hp; nia].
    rewrite Hp. replace (off + S i)%nat with (S (off + i)) by lia. ring.
Qed.

Lemma encode_spec n d off z :
  (off + n <= length d)%nat ->
  encode_little_endian n d off z =
    take off d ++ le_split n (z mod 2 ^ (8 * Z.of_nat n)) ++ drop (off + n) d.
Proof. apply encode_loop_spec. Qed.

Lemma decode_spec n src off :
  (off + n <= length src)%nat ->
  decode_little_endian n src off = le_combine (take n (drop off src)).
Proof.
  intros H. unfold decode_little_endian. rewrite decode_loop_spec by (cbn; lia).
  rewrite Nat.add_0_r. change (2 ^ (8 * Z.of_nat 0)) with 1. lia.
Qed.

(** ** Round trips of the reference codec *)

Lemma le_combine_split n z : le_combine (le_split n z) = z mod 2 ^ (8 * Z.of_nat n).
Proof.
  revert z; induction n as [|n IH]; intros z; cbn [le_split le_combine].
  - by rewrite Z.mod_1_r.
  - rewrite IH, byte_val_of. unfold u8. change (2 ^ 8) with 256.
    replace (8 * Z.of_nat (S n)) with (8 + 8 * Z.of_nat n) by lia.
    rewrite Z.pow_add_r by lia. change (2 ^ 8) with 256.
    rewrite Z.rem_mul_r; try lia.
Qed.

Lemma le_combine_inj bs cs :
  length bs = length cs -> le_combine bs = le_combine cs -> bs = cs.
Proof.
  revert cs; induction bs as [|b bs IH]; intros [|c cs] Hlen H; try done.
  cbn [le_combine] in H.
  pose proof (byte_val_range b); pose proof (byte_val_range c).
  f_equal; [apply byte_val_inj; lia|apply IH; [by injection Hlen|lia]].
Qed.

Lemma le_split_combine bs : le_split (length bs) (le_combine bs) = bs.
Proof.
  apply le_combine_inj; [apply le_split_length|].
  rewrite le_combine_split. apply Z.mod_small, le_combine_range.
Qed.

Lemma le_split_mod n z : le_split n (z mod 2 ^ (8 * Z.of_nat n)) = le_split n z.
Proof.
  apply le_combine_inj; [by rewrite !le_split_length|].
  rewrite !le_combine_split. apply Z.mod_mod. pose proof (Z.pow_pos_nonneg 2 (8 * Z.of_nat n)); lia.
Qed.

(** Reading an encoded field back, wherever it sits. *)
Lemma decode_field n pre z post :
  decode_little_endian n (pre ++ le_split n z ++ post) (length pre) =
    z mod 2 ^ (8 * Z.of_nat n).
Proof.
  rewrite decode_spec by (rewrite !length_app, le_split_length; lia).
  rewrite drop_app_length, take_app_len by (by rewrite le_split_length).
  apply le_combine_split.
Qed.

(** The bytes of a field are those its value encodes to. *)
Lemma field_bytes n src off : (off + n <= length src)%nat ->
  take n (drop off src) = le_split n (decode_little_endian n src off).
Proof.
  intros H. rewrite decode_spec by done.
  rewrite <- (le_split_combine (take n (drop off src))) at 1. f_equal.
  rewrite length_take, length_drop. lia.
Qed.
End LittleEndian.
