(* ===== verification/Floats.v ===== *)
(** * Floats: the [double] values of the telemetry messages

    A [double] is an IEEE 754 binary64 datum of the Standard Library's
    [SpecFloat]; comparison follows the C++ operators (a NaN compares false).
    [dval] gives a finite double its exact value, as an integer multiple of
    [2^-1074], so that range checks of the code can be read as ranges of
    numbers. *)
From Stdlib Require Import ZArith Lia SpecFloat.
From stdpp Require Import base tactics decidable list.
From S2P Require Import Prelude.
Local Open Scope Z_scope.

Abbreviation double := spec_float.
Definition dbl_prec : Z := 53.
Definition dbl_emax : Z := 1024.

#[export] Instance double_eq_dec : EqDecision double.
Proof. solve_decision. Defined.

(** [static_cast<double>(z)] for an integer (round to nearest even). *)
Definition double_of_Z (z : Z) : double :=
  binary_normalize dbl_prec dbl_emax z 0 false.

(** [std::isfinite] *)
Definition isfinite (x : double) : bool :=
  match x with S754_zero _ | S754_finite _ _ _ => true | _ => false end.

(** The operators [<] and [>] on doubles. *)
Definition dlt (x y : double) : bool := SFltb x y.
Definition dgt (x y : double) : bool := dlt y x.

(** Arithmetic, rounded to nearest even. *)
Definition dadd (x y : double) : double := SFadd dbl_prec dbl_emax x y.
Definition dsub (x y : double) : double := SFsub dbl_prec dbl_emax x y.
Definition dmul (x y : double) : double := SFmul dbl_prec dbl_emax x y.
Definition ddiv (x y : double) : double := SFdiv dbl_prec dbl_emax x y.
Definition dopp (x : double) : double := SFopp x.

(** Every bit pattern of a [double] is a canonical binary64 datum. *)
Definition double_wf (x : double) : Prop := valid_binary dbl_prec dbl_emax x = true.

(** The value of a finite double in units of [2^-1074]. *)
Definition dval (x : double) : Z :=
  match x with
  | S754_finite s m e => (if s then -1 else 1) * (Zpos m * 2 ^ (e + 1074))
  | _ => 0
  end.
Definition dval_of_Z (z : Z) : Z := z * 2 ^ 1074.

Section comparison.
Lemma digits2_pos_bounds m :
  2 ^ (Zpos (digits2_pos m) - 1) <= Zpos m < 2 ^ Zpos (digits2_pos m).
Proof.
  induction m as [m IH|m IH|]; cbn [digits2_pos]; [| |done].
  all: rewrite Pos2Z.inj_succ.
  all: replace (Z.succ (Zpos (digits2_pos m)) - 1)
         with (Z.succ (Zpos (digits2_pos m) - 1)) by lia.
  all: rewrite !Z.pow_succ_r by lia; lia.
Qed.

(** What canonicity says of a finite double. *)
Lemma double_wf_finite s m e :
  double_wf (S754_finite s m e) ->
  -1074 <= e /\ Zpos m < 2 ^ 53 /\ (-1074 < e -> 2 ^ 52 <= Zpos m).
Proof.
  unfold double_wf, valid_binary, bounded, canonical_mantissa, fexp, emin.
  intros [H _]%andb_true_iff. apply Z.eqb_eq in H.
  change (3 - dbl_emax - dbl_prec) with (-1074) in H. unfold dbl_prec in H.
  pose proof (digits2_pos_bounds m) as Hm.
  set (d := Zpos (digits2_pos m)) in *.
  assert (Hd : d <= 53) by lia. split; [lia|]. split.
  - pose proof (Z.pow_le_mono_r 2 d 53); lia.
  - intros. replace d with 53 in * by lia. lia.
Qed.

Lemma finite_lt_exp m1 e1 m2 e2 s1 s2 :
  double_wf (S754_finite s1 m1 e1) -> double_wf (S754_finite s2 m2 e2) ->
  e1 < e2 -> Zpos m1 * 2 ^ (e1 + 1074) < Zpos m2 * 2 ^ (e2 + 1074).
Proof.
  intros H1%double_wf_finite H2%double_wf_finite He.
  assert (Hp : 2 ^ (e2 + 1074) = 2 ^ (e2 - e1) * 2 ^ (e1 + 1074)).
  { rewrite <- Z.pow_add_r by lia. f_equal; lia. }
  assert (2 <= 2 ^ (e2 - e1)).
  { change 2 with (2 ^ 1) at 1. apply Z.pow_le_mono_r; lia. }
  assert (0 < 2 ^ (e1 + 1074)) by (apply Z.pow_pos_nonneg; lia).
  rewrite Hp, Z.mul_assoc. apply Z.mul_lt_mono_pos_r; [lia|].
  change (2 ^ 53) with (2 * 2 ^ 52) in *. nia.
Qed.

(** On finite doubles [<] is the order of the values. *)
Lemma dlt_spec x y :
  double_wf x -> double_wf y -> isfinite x = true -> isfinite y = true ->
  dlt x y = true <-> dval x < dval y.
Proof.
  intros Wx Wy Fx Fy. unfold dlt, SFltb, SFcompare, dval.
  assert (Hpos : forall s m e, double_wf (S754_finite s m e) ->
            0 < Zpos m * 2 ^ (e + 1074)).
  { intros s m e H%double_wf_finite. pose proof (Z.pow_pos_nonneg 2 (e + 1074)). nia. }
  destruct x as [sx|sx| |sx mx ex], y as [sy|sy| |sy my ey]; try done.
  - destruct sy; specialize (Hpos _ _ _ Wy); split; intros; (done || lia).
  - destruct sx; specialize (Hpos _ _ _ Wx); split; intros; (done || lia).
  - pose proof (Hpos _ _ _ Wx) as Px. pose proof (Hpos _ _ _ Wy) as Py.
    assert (Heq : forall m m' e, 0 < Zpos m * 2 ^ (e + 1074) ->
              Zpos m * 2 ^ (e + 1074) < Zpos m' * 2 ^ (e + 1074) <-> Zpos m < Zpos m').
    { intros m m' e ?. rewrite <- Z.mul_lt_mono_pos_r; [done|].
      destruct (Z.le_gt_cases (2 ^ (e + 1074)) 0); nia. }
    destruct (Z.compare_spec ex ey) as [->|Hlt|Hlt].
    + destruct sx, sy; try (split; intros; (done || lia)).
      * pose proof (Heq my mx ey Py). change (PosDef.Pos.compare_cont Eq mx my) with (mx ?= my)%positive.
        destruct (Pos.compare_spec mx my); cbn [CompOpp]; subst;
          split; intros; (done || lia).
      * pose proof (Heq mx my ey Px). change (PosDef.Pos.compare_cont Eq mx my) with (mx ?= my)%positive.
        destruct (Pos.compare_spec mx my); subst; split; intros; (done || lia).
    + pose proof (finite_lt_exp _ _ _ _ _ _ Wx Wy Hlt).
      destruct sx, sy; split; intros; (done || lia).
    + pose proof (finite_lt_exp _ _ _ _ _ _ Wy Wx Hlt).
      destruct sx, sy; split; intros; (done || lia).
Qed.

Lemma dlt_false x y :
  double_wf x -> double_wf y -> isfinite x = true -> isfinite y = true ->
  dlt x y = false <-> dval y <= dval x.
Proof.
  intros. rewrite <- not_true_iff_false, dlt_spec by done. lia.
Qed.
End comparison.
