(* ===== verification/Dyadic.v ===== *)
(** * Dyadic: exact arithmetic on small dyadic doubles

    The doubles the generator computes are integers of few bits times a power of
    two. On them the rounding of [SpecFloat] is the identity: [dyadic m e] is the
    double of value [m * 2^e], and sums and quotients by powers of two are
    computed on the integers. *)
From Stdlib Require Import ZArith Lia SpecFloat.
From stdpp Require Import base tactics decidable list.
From S2P Require Import Prelude Floats.
Local Open Scope Z_scope.

Definition dyadic (m e : Z) : double := binary_normalize dbl_prec dbl_emax m e false.

(** ** Shifted mantissas *)

Definition shl (q : positive) (n : nat) : positive := Nat.iter n xO q.

Section rounding.
Lemma shl_value q n : Zpos (shl q n) = Zpos q * 2 ^ Z.of_nat n.
Proof.
  induction n as [|n IH]; [cbn; lia|]. change (shl q (S n)) with (xO (shl q n)).
  rewrite Nat2Z.inj_succ, Z.pow_succ_r by lia. lia.
Qed.

Lemma shl_digits q n : Zpos (digits2_pos (shl q n)) = Zpos (digits2_pos q) + Z.of_nat n.
Proof.
  induction n as [|n IH]; [cbn; lia|]. change (shl q (S n)) with (xO (shl q n)).
  cbn [digits2_pos]. lia.
Qed.

Lemma shl_shl q n k : shl (shl q n) k = shl q (k + n).
Proof. unfold shl. by rewrite Nat.iter_add. Qed.

Lemma shl_iter q p : Pos.iter xO q p = shl q (Pos.to_nat p).
Proof. apply Pos2Nat.inj_iter. Qed.

Lemma iter_pos_nat {A} (f : A -> A) p : forall x, SpecFloat.iter_pos f p x = Nat.iter (Pos.to_nat p) f x.
Proof.
  induction p as [p IH|p IH|]; intros x; cbn [SpecFloat.iter_pos]; [| |done].
  - rewrite !IH, <- Nat.iter_add, Pos2Nat.inj_xI.
    rewrite Nat.iter_succ_r. f_equal. lia.
  - rewrite !IH, <- Nat.iter_add, Pos2Nat.inj_xO. f_equal. lia.
Qed.

Lemma shr_exact q n :
  Nat.iter n shr_1 {| shr_m := Zpos (shl q n); shr_r := false; shr_s := false |} =
  {| shr_m := Zpos q; shr_r := false; shr_s := false |}.
Proof. induction n as [|n IH]; [done|]. rewrite Nat.iter_succ_r. exact IH. Qed.

Lemma fexp_normal z : -1021 <= z -> fexp dbl_prec dbl_emax z = z - 53.
Proof. unfold fexp, emin, dbl_prec, dbl_emax. lia. Qed.

(** Rounding a mantissa of 53 bits followed by zeros. *)
Lemma round_aux_exact s q j e :
  Zpos (digits2_pos q) = 53 -> -1074 <= e + Z.of_nat j <= 971 ->
  binary_round_aux dbl_prec dbl_emax s (Zpos (shl q j)) e loc_Exact =
  S754_finite s q (e + Z.of_nat j).
Proof.
  intros Hd He. unfold binary_round_aux, shr_fexp. cbn [Zdigits2].
  rewrite shl_digits, Hd, fexp_normal by lia.
  replace (53 + Z.of_nat j + e - 53 - e) with (Z.of_nat j) by lia.
  assert (Hshr : shr (shr_record_of_loc (Zpos (shl q j)) loc_Exact) e (Z.of_nat j) =
    ({| shr_m := Zpos q; shr_r := false; shr_s := false |}, e + Z.of_nat j)).
  { unfold shr. destruct (Z.of_nat j) as [|p|p] eqn:Ej; [|..|lia].
    - replace j with 0%nat by lia. by rewrite Z.add_0_r.
    - rewrite iter_pos_nat. replace (Pos.to_nat p) with j by lia.
      cbn [shr_record_of_loc]. by rewrite (shr_exact q j), <- Ej. }
  rewrite Hshr. cbn [shr_m loc_of_shr_record round_nearest_even Zdigits2].
  rewrite Hd, fexp_normal by lia.
  replace (53 + (e + Z.of_nat j) - 53 - (e + Z.of_nat j)) with 0 by lia.
  cbn [shr shr_record_of_loc shr_m].
  change (dbl_emax - dbl_prec) with 971. by destruct (Z.leb_spec (e + Z.of_nat j) 971); [|lia].
Qed.

(** The width of a mantissa, and what is missing to 53 bits. *)
Definition pad (m : positive) : nat := Z.to_nat (53 - Zpos (digits2_pos m)).

Lemma pad_digits m : Zpos m < 2 ^ 53 ->
  Zpos (digits2_pos m) + Z.of_nat (pad m) = 53 /\ (pad m <= 52)%nat.
Proof.
  intros Hm. unfold pad. pose proof (digits2_pos_bounds m) as Hb.
  assert (Zpos (digits2_pos m) <= 53); [|lia].
  destruct (Z.le_gt_cases (Zpos (digits2_pos m)) 53) as [|Hgt]; [done|].
  pose proof (Z.pow_le_mono_r 2 53 (Zpos (digits2_pos m) - 1)). lia.
Qed.

(** Zeros at the end of the mantissa do not matter. *)
Lemma binary_round_exact s m k e : Zpos m < 2 ^ 53 -> -800 <= e <= 800 ->
  binary_round dbl_prec dbl_emax s (shl m k) (e - Z.of_nat k) =
  S754_finite s (shl m (pad m)) (e - Z.of_nat (pad m)).
Proof.
  intros Hm He. destruct (pad_digits m Hm) as [Hp Hp'].
  unfold binary_round. rewrite shl_digits.
  replace (Zpos (digits2_pos m) + Z.of_nat k + (e - Z.of_nat k))
    with (Zpos (digits2_pos m) + e) by lia.
  rewrite fexp_normal by lia. unfold shl_align.
  assert (H53 : Zpos (digits2_pos (shl m (pad m))) = 53) by (rewrite shl_digits; lia).
  destruct (Zpos (digits2_pos m) + e - 53 - (e - Z.of_nat k)) as [|p|p] eqn:Ed.
  3: { rewrite shl_iter, shl_shl.
       replace (Pos.to_nat p + k)%nat with (0 + pad m)%nat by lia. rewrite <- shl_shl.
       rewrite round_aux_exact by (rewrite ?H53; lia). f_equal. lia. }
  all: replace k with ((k - pad m) + pad m)%nat by lia; rewrite <- shl_shl;
    rewrite round_aux_exact by (rewrite ?H53; lia); f_equal; lia.
Qed.
End rounding.

(** ** The dyadic doubles *)

(** Sign and magnitude of a dyadic double. *)
Lemma dyadic_pos m e : Zpos m < 2 ^ 53 -> -800 <= e <= 800 ->
  dyadic (Zpos m) e = S754_finite false (shl m (pad m)) (e - Z.of_nat (pad m)).
Proof.
  intros Hm He. rewrite <- (binary_round_exact false m 0 e) by done.
  unfold dyadic. cbn [binary_normalize]. f_equal. cbn. lia.
Qed.

Lemma dyadic_neg m e : Zpos m < 2 ^ 53 -> -800 <= e <= 800 ->
  dyadic (Zneg m) e = S754_finite true (shl m (pad m)) (e - Z.of_nat (pad m)).
Proof.
  intros Hm He. rewrite <- (binary_round_exact true m 0 e) by done.
  unfold dyadic. cbn [binary_normalize]. f_equal. cbn. lia.
Qed.

Lemma dyadic_shift m e k : Z.abs m < 2 ^ 53 -> -800 <= e <= 800 ->
  dyadic (m * 2 ^ Z.of_nat k) (e - Z.of_nat k) = dyadic m e.
Proof.
  intros Hm He. destruct m as [|m|m]; [done| |].
  - rewrite <- shl_value, (dyadic_pos m e) by lia. by apply binary_round_exact.
  - change (Zneg m) with (- Zpos m). rewrite Z.mul_opp_l, <- shl_value.
    change (- Zpos m) with (Zneg m). rewrite (dyadic_neg m e) by lia.
    by apply binary_round_exact.
Qed.

Section dyadic_lemmas.
Implicit Types (m a b e : Z).

Lemma dyadic_of_Z z : double_of_Z z = dyadic z 0.
Proof. done. Qed.

Lemma dyadic_shape m e : Z.abs m < 2 ^ 53 -> -800 <= e <= 800 ->
  m = 0 /\ dyadic m e = S754_zero false \/
  exists p, Z.abs m = Zpos p /\
    dyadic m e = S754_finite (m <? 0) (shl p (pad p)) (e - Z.of_nat (pad p)).
Proof.
  intros Hm He. destruct m as [|p|p]; [by left| |]; right; exists p; split; try done.
  - by rewrite dyadic_pos.
  - by rewrite dyadic_neg.
Qed.

Lemma dyadic_finite m e : Z.abs m < 2 ^ 53 -> -800 <= e <= 800 ->
  isfinite (dyadic m e) = true.
Proof. intros Hm He. by destruct (dyadic_shape m e Hm He) as [[_ ->]|(p & _ & ->)]. Qed.

Lemma dyadic_wf m e : Z.abs m < 2 ^ 53 -> -800 <= e <= 800 -> double_wf (dyadic m e).
Proof.
  intros Hm He. destruct (dyadic_shape m e Hm He) as [[_ ->]|(p & Hp & ->)]; [done|].
  rewrite Hp in Hm. destruct (pad_digits p Hm) as [Hd Hd'].
  unfold double_wf, valid_binary, bounded, canonical_mantissa.
  rewrite shl_digits, fexp_normal by lia. apply andb_true_iff. split; [apply Z.eqb_eq; lia|].
  change (dbl_emax - dbl_prec) with 971. apply Z.leb_le. lia.
Qed.

(** The value, in units of [2^-1074]. *)
Lemma dyadic_dval m e : Z.abs m < 2 ^ 53 -> -800 <= e <= 800 ->
  dval (dyadic m e) = m * 2 ^ (e + 1074).
Proof.
  intros Hm He. destruct (dyadic_shape m e Hm He) as [[-> ->]|(p & Hp & ->)]; [done|].
  rewrite Hp in Hm. destruct (pad_digits p Hm) as [Hd Hd']. cbn [dval].
  rewrite shl_value, <- Z.mul_assoc, <- Z.pow_add_r by lia.
  replace (Z.of_nat (pad p) + (e - Z.of_nat (pad p) + 1074)) with (e + 1074) by lia.
  destruct (Z.ltb_spec m 0); lia.
Qed.

Lemma dyadic_opp m e : Z.abs m < 2 ^ 53 -> -800 <= e <= 800 -> m <> 0 ->
  dopp (dyadic m e) = dyadic (- m) e.
Proof.
  intros Hm He Hne. destruct m as [|p|p]; [done| |].
  - change (- Zpos p) with (Zneg p). by rewrite dyadic_pos, dyadic_neg by done.
  - change (- Zneg p) with (Zpos p). by rewrite dyadic_pos, dyadic_neg by done.
Qed.

(** Both mantissas brought to the smaller exponent. *)
Lemma shl_align_value p e e' : e' <= e ->
  Zpos (fst (shl_align p e e')) = Zpos p * 2 ^ (e - e').
Proof.
  intros He. unfold shl_align. destruct (e' - e) as [|q|q] eqn:E; [|lia|]; cbn [fst].
  - replace (e - e') with 0 by lia. lia.
  - rewrite shl_iter, shl_value. do 2 f_equal. lia.
Qed.

Lemma cond_Zopp_abs m p : Z.abs m = Zpos p -> cond_Zopp (m <? 0) (Zpos p) = m.
Proof. intros Hp. unfold cond_Zopp. destruct (Z.ltb_spec m 0); lia. Qed.

Lemma cond_Zopp_mul s x y : cond_Zopp s x * y = cond_Zopp s (x * y).
Proof. destruct s; cbn; lia. Qed.

Lemma dyadic_add a b e : Z.abs a < 2 ^ 53 -> Z.abs b < 2 ^ 53 -> Z.abs (a + b) < 2 ^ 53 ->
  -700 <= e <= 700 -> a <> 0 -> dadd (dyadic a e) (dyadic b e) = dyadic (a + b) e.
Proof.
  intros Ha Hb Hab He Hne.
  destruct (dyadic_shape a e Ha ltac:(lia)) as [[-> _]|(p & Hp & Ea)]; [done|].
  destruct (dyadic_shape b e Hb ltac:(lia)) as [[-> Eb]|(q & Hq & Eb)].
  { rewrite Eb, Z.add_0_r, Ea. done. }
  rewrite Ea, Eb. unfold dadd, SFadd. rewrite Hp in Ha. rewrite Hq in Hb.
  destruct (pad_digits p Ha) as [_ Hpp]. destruct (pad_digits q Hb) as [_ Hpq].
  set (k := Nat.max (pad p) (pad q)).
  replace (Z.min (e - Z.of_nat (pad p)) (e - Z.of_nat (pad q))) with (e - Z.of_nat k) by lia.
  rewrite !shl_align_value, !shl_value by lia.
  rewrite <- !Z.mul_assoc, <- !Z.pow_add_r by lia.
  replace (Z.of_nat (pad p) + (e - Z.of_nat (pad p) - (e - Z.of_nat k))) with (Z.of_nat k) by lia.
  replace (Z.of_nat (pad q) + (e - Z.of_nat (pad q) - (e - Z.of_nat k))) with (Z.of_nat k) by lia.
  rewrite <- !cond_Zopp_mul, !cond_Zopp_abs by done. rewrite <- Z.mul_add_distr_r.
  apply dyadic_shift; [done|lia].
Qed.

(** Division by a power of two. *)
Lemma dyadic_div m e (k : nat) : 0 <= m < 2 ^ 53 -> -700 <= e <= 700 -> (k <= 52)%nat ->
  ddiv (dyadic m e) (dyadic (2 ^ Z.of_nat k) 0) = dyadic m (e - Z.of_nat k).
Proof.
  intros Hm He Hk.
  assert (E2 : dyadic (2 ^ Z.of_nat k) 0 = S754_finite false (shl 1 52) (Z.of_nat k - 52)).
  { rewrite <- (Z.mul_1_l (2 ^ _)). replace 0 with (Z.of_nat k - Z.of_nat k) at 1 by lia.
    rewrite dyadic_shift by (cbn; lia). rewrite dyadic_pos by lia. done. }
  rewrite E2. destruct (dyadic_shape m e ltac:(lia) ltac:(lia)) as [[-> ->]|(p & Hp & ->)]; [done|].
  assert (Hm' : Zpos p < 2 ^ 53) by lia. destruct (pad_digits p Hm') as [Hd Hd'].
  assert (m = Zpos p) as -> by lia. rewrite dyadic_pos by lia.
  set (q := shl p (pad p)). unfold ddiv, SFdiv, SFdiv_core_binary. cbn [Zdigits2].
  assert (Hq : Zpos (digits2_pos q) = 53) by (unfold q; rewrite shl_digits; lia).
  rewrite Hq, shl_digits. change (Zpos (digits2_pos 1)) with 1.
  rewrite fexp_normal by lia.
  match goal with |- context [Z.min ?x ?y] =>
    replace (Z.min x y) with (e - Z.of_nat (pad p) - (Z.of_nat k - 52) - 53) by lia end.
  match goal with |- context [match ?x with 0 => _ | _ => _ end] => replace x with 53 by lia end.
  rewrite Z.shiftl_mul_pow2 by lia.
  assert (Hdiv : Z.div_eucl (Zpos q * 2 ^ 53) (Zpos (shl 1 52)) = (Zpos (shl q 1), 0)).
  { pose proof (Z.div_mod (Zpos q * 2 ^ 53) (Zpos (shl 1 52)) ltac:(lia)) as Hdm.
    pose proof (Z.mod_pos_bound (Zpos q * 2 ^ 53) (Zpos (shl 1 52)) ltac:(lia)) as Hmod.
    unfold Z.div, Z.modulo in *. destruct (Z.div_eucl _ _) as [x r].
    rewrite shl_value in Hdm, Hmod. rewrite shl_value. f_equal; lia. }
  rewrite Hdiv. change (new_location _ 0) with loc_Exact.
  rewrite round_aux_exact by (rewrite ?Hq; lia). f_equal. lia.
Qed.
End dyadic_lemmas.
