(* ===== verification/Ranks.v ===== *)
(** * Ranks: rounded products of the percentile computation

    [ceil(fraction * size)] is computed in doubles. The fractions are not exact,
    the product is rounded, and still the result is the rank it should be: the
    rounding of [SpecFloat] is to nearest, and the errors are too small to cross
    an integer. *)
From Stdlib Require Import ZArith Lia SpecFloat.
From stdpp Require Import base tactics decidable list.
From S2P Require Import Prelude Floats Dyadic.
Local Open Scope Z_scope.

(** [std::ceil], as the integer it is cast to. *)
Definition dceil (x : double) : Z :=
  match x with
  | S754_finite s m e =>
      let z := if s then Zneg m else Zpos m in
      if 0 <=? e then z * 2 ^ e else - (- z / 2 ^ (- e))
  | _ => 0
  end.

Section shifting.
Lemma shr_1_spec m r s : 0 <= m ->
  shr_1 {| shr_m := m; shr_r := r; shr_s := s |} =
  {| shr_m := m / 2; shr_r := Z.odd m; shr_s := r || s |}.
Proof.
  intros Hm. destruct m as [|p|p]; [done| |lia]. rewrite <- Z.div2_div.
  by destruct p.
Qed.

(** A right shift keeps the last bit shifted out and whether more were set. *)
Lemma shr_iter x k : 0 <= x ->
  Nat.iter (S k) shr_1 {| shr_m := x; shr_r := false; shr_s := false |} =
  {| shr_m := x / 2 ^ Z.of_nat (S k); shr_r := Z.odd (x / 2 ^ Z.of_nat k);
     shr_s := negb (x mod 2 ^ Z.of_nat k =? 0) |}.
Proof.
  intros Hx. induction k as [|k IH].
  - cbn [Nat.iter]. rewrite shr_1_spec by done. f_equal; cbn.
    + by rewrite Z.div_1_r.
    + by rewrite Z.mod_1_r.
  - change (Nat.iter (S (S k)) ?f ?y) with (f (Nat.iter (S k) f y)). rewrite IH.
    assert (Hp : 0 < 2 ^ Z.of_nat k) by (apply Z.pow_pos_nonneg; lia).
    assert (Hs : 2 ^ Z.of_nat (S k) = 2 ^ Z.of_nat k * 2)
      by (rewrite Nat2Z.inj_succ, Z.pow_succ_r by lia; lia).
    rewrite shr_1_spec by (apply Z.div_pos; lia). f_equal.
    + rewrite Z.div_div by lia. f_equal. rewrite !Nat2Z.inj_succ, !Z.pow_succ_r by lia. lia.
    + rewrite Hs, Z.rem_mul_r by lia.
      pose proof (Zmod_odd (x / 2 ^ Z.of_nat k)) as Ho.
      pose proof (Z.mod_pos_bound x (2 ^ Z.of_nat k) Hp).
      destruct (Z.odd (x / 2 ^ Z.of_nat k)); rewrite Ho; cbn [orb].
      * symmetry. apply negb_true_iff, Z.eqb_neq. lia.
      * by rewrite Z.mul_0_r, Z.add_0_r.
Qed.

(** The rounded quotient is a nearest integer. *)
Lemma round_nearest x k : 0 <= x ->
  let mrs := Nat.iter (S k) shr_1 {| shr_m := x; shr_r := false; shr_s := false |} in
  let r := round_nearest_even (shr_m mrs) (loc_of_shr_record mrs) in
  x / 2 ^ Z.of_nat (S k) <= r <= x / 2 ^ Z.of_nat (S k) + 1 /\
  2 * x - 2 ^ Z.of_nat (S k) <= 2 * (r * 2 ^ Z.of_nat (S k)) <= 2 * x + 2 ^ Z.of_nat (S k).
Proof.
  intros Hx. rewrite shr_iter by done. cbn [shr_m loc_of_shr_record].
  assert (Hp : 0 < 2 ^ Z.of_nat k) by (apply Z.pow_pos_nonneg; lia).
  assert (Hs : 2 ^ Z.of_nat (S k) = 2 ^ Z.of_nat k * 2)
    by (rewrite Nat2Z.inj_succ, Z.pow_succ_r by lia; lia).
  rewrite Hs. set (h := 2 ^ Z.of_nat k) in *.
  pose proof (Z.div_mod x h ltac:(lia)) as Hdm.
  pose proof (Z.mod_pos_bound x h Hp) as Hm.
  pose proof (Z.div_mod (x / h) 2 ltac:(lia)) as Hdm2. rewrite Zmod_odd in Hdm2.
  rewrite Z.div_div in Hdm2 by lia.
  set (q := x / (h * 2)) in *. set (u := x / h) in *. set (lo := x mod h) in *.
  assert (Hround : forall loc, q <= round_nearest_even q loc <= q + 1)
    by (intros []; cbn; [lia|]; destruct c; cbn; try lia; destruct (Z.even q); lia).
  split; [apply Hround|].
  destruct (Z.odd u), (Z.eqb_spec lo 0); cbn [negb loc_of_shr_record round_nearest_even].
  - destruct (Z.even q); nia.
  - nia.
  - nia.
  - nia.
Qed.
End shifting.

(** The digits of a product of two mantissas. *)
Lemma product_digits x : 2 ^ 104 <= x < 2 ^ 106 ->
  exists j, (52 <= j <= 53)%nat /\ Zdigits2 x = 53 + Z.of_nat j /\
    2 ^ 52 <= x / 2 ^ Z.of_nat j < 2 ^ 53.
Proof.
  intros Hx.
  destruct x as [|p|p]; [lia| |lia]. cbn [Zdigits2]. pose proof (digits2_pos_bounds p) as Hb.
  set (d := Zpos (digits2_pos p)) in *.
  assert (Hd : 105 <= d <= 106).
  { split.
    - destruct (Z.le_gt_cases 105 d) as [|Hlt]; [done|].
      pose proof (Z.pow_le_mono_r 2 d 104 ltac:(lia) ltac:(lia)). lia.
    - destruct (Z.le_gt_cases d 106) as [|Hlt]; [done|].
      pose proof (Z.pow_le_mono_r 2 106 (d - 1) ltac:(lia) ltac:(lia)). lia. }
  exists (Z.to_nat (d - 53)). split; [lia|]. split; [lia|].
  rewrite Z2Nat.id by lia. assert (Hc : d = 105 \/ d = 106) by lia. destruct Hc as [->| ->].
  - split; [apply Z.div_le_lower_bound|apply Z.div_lt_upper_bound]; lia.
  - split; [apply Z.div_le_lower_bound|apply Z.div_lt_upper_bound]; lia.
Qed.

(** A rounded mantissa of 53 bits, or the next power of two. *)
Lemma rounded_value r e' : 2 ^ 52 <= r <= 2 ^ 53 -> -400 <= e' < 0 ->
  dceil (let '(shr', e'') := shr_fexp dbl_prec dbl_emax r e' loc_Exact in
         match shr_m shr' with
         | 0 => S754_zero false
         | Zpos m => if e'' <=? dbl_emax - dbl_prec then S754_finite false m e''
                     else S754_infinity false
         | _ => S754_nan
         end) = - (- r / 2 ^ (- e')).
Proof.
  intros Hr2 Hneg. unfold shr_fexp.
  destruct (Z.eq_dec r (2 ^ 53)) as [->|Hne].
  - change (Zdigits2 (2 ^ 53)) with 54. rewrite fexp_normal by lia.
    replace (54 + e' - 53 - e') with 1 by lia.
    change (shr (shr_record_of_loc (2 ^ 53) loc_Exact) e' 1)
      with ({| shr_m := 2 ^ 52; shr_r := false; shr_s := false |}, e' + 1).
    cbn [shr_m]. change (2 ^ 52) with (Zpos 4503599627370496).
    change (dbl_emax - dbl_prec) with 971. destruct (Z.leb_spec (e' + 1) 971); [|lia].
    cbn [dceil]. change (- 2 ^ 53) with (- 4503599627370496 * 2).
    assert (Hc : e' = -1 \/ e' + 1 < 0) by lia. destruct Hc as [->|Hlt]; [done|].
    destruct (Z.leb_spec 0 (e' + 1)); [lia|]. f_equal.
    replace (- e') with (Z.succ (- (e' + 1))) by lia. rewrite Z.pow_succ_r by lia.
    rewrite (Z.mul_comm 2), Z.div_mul_cancel_r; [done|apply Z.pow_nonzero; lia|lia].
  - destruct r as [|p|p]; [lia| |lia]. cbn [Zdigits2].
    assert (Hdig : Zpos (digits2_pos p) = 53).
    { pose proof (digits2_pos_bounds p) as Hb. set (d := Zpos (digits2_pos p)) in *.
      assert (~ d <= 52) by (intros Hle; pose proof (Z.pow_le_mono_r 2 d 52); lia).
      assert (~ 54 <= d) by (intros Hle; pose proof (Z.pow_le_mono_r 2 53 (d - 1)); lia). lia. }
    rewrite Hdig, fexp_normal by lia. replace (53 + e' - 53 - e') with 0 by lia.
    cbn [shr shr_record_of_loc shr_m]. change (dbl_emax - dbl_prec) with 971.
    destruct (Z.leb_spec e' 971); [|lia]. cbn [dceil]. by destruct (Z.leb_spec 0 e'); [lia|].
Qed.

(** The value of a rounded mantissa of 105 or 106 bits. *)
Lemma round_aux_nearest x e :
  2 ^ 104 <= x < 2 ^ 106 -> -400 <= e <= 400 ->
  exists j r, (52 <= j <= 53)%nat /\
    2 * x - 2 ^ Z.of_nat j <= 2 * (r * 2 ^ Z.of_nat j) <= 2 * x + 2 ^ Z.of_nat j /\ 0 < r /\
    (e + Z.of_nat j < 0 -> dceil (binary_round_aux dbl_prec dbl_emax false x e loc_Exact) =
       - (- r / 2 ^ (- (e + Z.of_nat j)))).
Proof.
  intros Hx He.
  destruct (product_digits x Hx) as (j & Hj & Hd & Hq). destruct j as [|k]; [lia|].
  destruct (round_nearest x k ltac:(lia)) as [Hr Hnear].
  set (mrs := Nat.iter (S k) shr_1 {| shr_m := x; shr_r := false; shr_s := false |}) in *.
  set (r := round_nearest_even (shr_m mrs) (loc_of_shr_record mrs)) in *.
  exists (S k), r. split; [done|]. split; [done|]. split; [lia|].
  intros Hneg. unfold binary_round_aux, shr_fexp. rewrite Hd, fexp_normal by lia.
  replace (53 + Z.of_nat (S k) + e - 53 - e) with (Z.of_nat (S k)) by lia.
  assert (Hshr : shr (shr_record_of_loc x loc_Exact) e (Z.of_nat (S k)) =
    (mrs, e + Z.of_nat (S k))).
  { unfold shr. rewrite Nat2Z.inj_succ. destruct (Z.succ (Z.of_nat k)) as [|p|p] eqn:Ep; [lia| |lia].
    rewrite iter_pos_nat. replace (Pos.to_nat p) with (S k) by lia. done. }
  rewrite Hshr. fold r. clearbody r. clear Hshr Hnear mrs.
  assert (Hr2 : 2 ^ 52 <= r <= 2 ^ 53) by lia. clear Hr Hq Hd.
  apply rounded_value; lia.
Qed.

(** The arithmetic of a rank: [X / (T * J)] is below [a q / b] by less than the
    distance of [r / T], a multiple of [1 / T] next to it, from [k - 1] and [k]. *)
Lemma rank_between (a b m q P T J r k : Z) :
  0 < b <= 100 -> 0 < q < 2 ^ 31 -> 2 ^ 22 <= P -> 0 < T -> 0 < J <= 2 ^ 53 ->
  T * J = 2 ^ 53 * P ->
  b * m <= a * 2 ^ 53 -> 2 * (a * 2 ^ 53 - b * m) <= b ->
  b * (k - 1) + 1 <= a * q <= b * k ->
  2 * (m * (q * P)) - J <= 2 * (r * J) <= 2 * (m * (q * P)) + J ->
  (k - 1) * T < r <= k * T.
Proof.
  intros Hb Hq HP HTp HJ HT Hlo Hhi Hk Hnear. set (X := m * (q * P)) in *.
  split.
  - destruct (Z.lt_ge_cases ((k - 1) * T) r) as [|Hge]; [done|exfalso].
    assert (H1 : 2 * (b * X) <= 2 * (b * ((k - 1) * (T * J))) + b * J).
    { assert (Hx : 2 * X <= 2 * ((k - 1) * (T * J)) + J).
      { assert (r * J <= (k - 1) * T * J) by (apply Z.mul_le_mono_nonneg_r; lia). lia. }
      apply (Z.mul_le_mono_nonneg_l _ _ b) in Hx; lia. }
    assert (H2 : 2 * (a * q * (2 ^ 53 * P)) - b * (q * P) <= 2 * (b * X)).
    { assert ((2 * (a * 2 ^ 53) - b) * (q * P) <= 2 * (b * m) * (q * P))
        by (apply Z.mul_le_mono_nonneg_r; lia). unfold X. lia. }
    assert (H3 : (b * (k - 1) + 1) * (2 ^ 53 * P) <= a * q * (2 ^ 53 * P))
      by (apply Z.mul_le_mono_nonneg_r; lia).
    rewrite HT in H1.
    assert (H4 : b * (q * P) <= 100 * (2 ^ 31 * P))
      by (apply Z.mul_le_mono_nonneg; [lia|lia|lia|apply Z.mul_le_mono_nonneg_r; lia]).
    assert (H5 : b * J <= 100 * 2 ^ 53) by (apply Z.mul_le_mono_nonneg; lia).
    clear -H1 H2 H3 H4 H5 HP. lia.
  - assert (HX1 : b * X <= b * (k * T * J)).
    { unfold X. replace (k * T * J) with (k * (2 ^ 53 * P)) by (rewrite <- HT; ring).
      assert (b * m * (q * P) <= a * 2 ^ 53 * (q * P)) by (apply Z.mul_le_mono_nonneg_r; lia).
      assert (a * q * (2 ^ 53 * P) <= b * k * (2 ^ 53 * P)) by (apply Z.mul_le_mono_nonneg_r; lia).
      lia. }
    assert (HX1' : X <= k * T * J) by (apply Z.mul_le_mono_pos_l in HX1; lia).
    destruct (Z.le_gt_cases r (k * T)) as [|Hgt]; [done|exfalso].
    assert ((k * T + 1) * J <= r * J) by (apply Z.mul_le_mono_nonneg_r; lia). lia.
Qed.

(** The rank of [a / b]: for a fraction of 53 bits just below [a / b]. *)
Lemma rank_exact (m : positive) (a b n : Z) :
  2 ^ 52 <= Zpos m < 2 ^ 53 -> 0 < a -> 0 < b <= 100 -> 0 < n < 2 ^ 31 ->
  b * Zpos m <= a * 2 ^ 53 -> 2 * (a * 2 ^ 53 - b * Zpos m) <= b ->
  dceil (dmul (S754_finite false m (-53)) (double_of_Z n)) = (a * n + b - 1) / b.
Proof.
  intros Hm Ha Hb Hn Hlo Hhi.
  destruct n as [|q|q]; [lia| |lia]. rewrite dyadic_of_Z, dyadic_pos by lia.
  destruct (pad_digits q ltac:(lia)) as [Hpd Hpd'].
  assert (Hp22 : (22 <= pad q)%nat).
  { pose proof (digits2_pos_bounds q) as Hq. set (d := Zpos (digits2_pos q)) in *.
    assert (~ 32 <= d) by (intros Hle; pose proof (Z.pow_le_mono_r 2 31 (d - 1)); lia). lia. }
  unfold dmul, SFmul. cbn [xorb]. rewrite Pos2Z.inj_mul, shl_value.
  set (P := 2 ^ Z.of_nat (pad q)).
  assert (HP : 2 ^ 22 <= P) by (unfold P; apply Z.pow_le_mono_r; lia).
  assert (HqP : 2 ^ 52 <= Zpos q * P < 2 ^ 53).
  { unfold P. rewrite <- shl_value. pose proof (digits2_pos_bounds (shl q (pad q))) as Hb'.
    rewrite shl_digits, Hpd in Hb'. lia. }
  destruct (round_aux_nearest (Zpos m * (Zpos q * P)) (-53 + (0 - Z.of_nat (pad q))))
    as (j & r & Hj & Hnear & Hr & Hval); [nia|lia|]. rewrite Hval by lia. clear Hval.
  set (t := - (-53 + (0 - Z.of_nat (pad q)) + Z.of_nat j)).
  assert (HT : 2 ^ t * 2 ^ Z.of_nat j = 2 ^ 53 * P).
  { unfold P. rewrite <- !Z.pow_add_r by lia. f_equal. lia. }
  assert (HTp : 0 < 2 ^ t) by (apply Z.pow_pos_nonneg; lia).
  assert (HJ : 0 < 2 ^ Z.of_nat j <= 2 ^ 53).
  { split; [apply Z.pow_pos_nonneg; lia|apply Z.pow_le_mono_r; lia]. }
  pose proof (Z.div_mod (a * Zpos q + b - 1) b ltac:(lia)) as Hk.
  pose proof (Z.mod_pos_bound (a * Zpos q + b - 1) b ltac:(lia)) as Hkm.
  set (k := (a * Zpos q + b - 1) / b) in *.
  pose proof (rank_between a b (Zpos m) (Zpos q) P (2 ^ t) (2 ^ Z.of_nat j) r k Hb ltac:(lia) HP HTp HJ
    HT Hlo Hhi ltac:(lia) Hnear) as Hbetween.
  assert (Hdiv : - r / 2 ^ t = - k); [|lia].
  symmetry. apply (Z.div_unique_pos _ _ _ (k * 2 ^ t - r)); lia.
Qed.
