(* ===== verification/Rounding.v ===== *)
(** * Rounding: correct rounding in any binary format

    [SpecFloat] rounds by shifting a mantissa with two sticky bits. Here those
    bits are related to the exact value, a quotient [N / D] of integers: the
    rounded mantissa is [rne N D], the nearest integer, ties to even. Precision
    and exponent range are parameters, as they are for [long double]. *)
From Stdlib Require Import ZArith Lia SpecFloat.
From stdpp Require Import base tactics decidable list.
From S2P Require Import Prelude Floats Dyadic.
Local Open Scope Z_scope.

(** The integer nearest to [N / D], ties to even. *)
Definition rne (N D : Z) : Z :=
  let q := N / D in
  let twice := 2 * (N mod D) in
  if twice <? D then q else if D <? twice then q + 1 else if Z.even q then q else q + 1.

Section nearest.
Implicit Types N D k : Z.

Lemma rne_bounds N D : 0 < D ->
  2 * N - D <= 2 * (rne N D * D) <= 2 * N + D /\ N / D <= rne N D <= N / D + 1.
Proof.
  intros HD. unfold rne. pose proof (Z.div_mod N D ltac:(lia)).
  pose proof (Z.mod_pos_bound N D HD). set (q := N / D) in *. set (r := N mod D) in *.
  destruct (Z.ltb_spec (2 * r) D), (Z.ltb_spec D (2 * r)), (Z.even q); nia.
Qed.

Lemma rne_exact k D : 0 < D -> rne (k * D) D = k.
Proof.
  intros HD. unfold rne. rewrite Z.div_mul, Z.mod_mul by lia.
  rewrite Z.mul_0_r. by destruct (Z.ltb_spec 0 D); [|lia].
Qed.

(** A common factor does not matter. *)
Lemma rne_scale N D c : 0 < D -> 0 < c -> rne (N * c) (D * c) = rne N D.
Proof.
  intros HD Hc. unfold rne. rewrite Z.div_mul_cancel_r, Zmult_mod_distr_r by lia.
  set (r := N mod D). set (q := N / D).
  destruct (Z.ltb_spec (2 * (r * c)) (D * c)), (Z.ltb_spec (2 * r) D),
    (Z.ltb_spec (D * c) (2 * (r * c))), (Z.ltb_spec D (2 * r)); done || nia.
Qed.

(** Rounding keeps the order. *)
Lemma rne_mono N N' D : 0 < D -> N <= N' -> rne N D <= rne N' D.
Proof.
  intros HD HN. destruct (Z.eq_dec N N') as [->|Hne]; [lia|].
  destruct (rne_bounds N D HD) as [H1 H2], (rne_bounds N' D HD) as [H1' H2'].
  destruct (Z.le_gt_cases (rne N D) (rne N' D)) as [|Hgt]; [done|exfalso].
  assert (rne N' D * D + D <= rne N D * D) by nia. lia.
Qed.

(** ** Sticky bits *)

(** The record stands for the quotient [N / D]. *)
Definition stands_for N D (r : shr_record) : Prop :=
  shr_m r = N / D /\ shr_r r = (D <=? 2 * (N mod D)) /\
  shr_s r = negb (N mod D =? 0) && negb (2 * (N mod D) =? D).

Lemma stands_for_round N D r : 0 < D -> stands_for N D r ->
  round_nearest_even (shr_m r) (loc_of_shr_record r) = rne N D.
Proof.
  intros HD (Hm & Hr & Hs). destruct r as [m rb sb]. cbn in *. subst m rb sb. unfold rne.
  pose proof (Z.mod_pos_bound N D HD). set (r := N mod D) in *. set (q := N / D) in *.
  destruct (Z.leb_spec D (2 * r)), (Z.eqb_spec r 0), (Z.eqb_spec (2 * r) D);
    cbn [negb andb]; cbn [round_nearest_even];
    destruct (Z.ltb_spec (2 * r) D), (Z.ltb_spec D (2 * r)); try lia; reflexivity.
Qed.

Lemma stands_for_integer N : stands_for N 1 (shr_record_of_loc N loc_Exact).
Proof. unfold stands_for. cbn. rewrite Z.div_1_r, Z.mod_1_r. done. Qed.

Lemma stands_for_quotient N D : 0 < D ->
  stands_for N D (shr_record_of_loc (N / D) (new_location D (N mod D))).
Proof.
  intros HD. pose proof (Z.mod_pos_bound N D HD). unfold stands_for. set (r := N mod D) in *.
  unfold new_location, new_location_even, new_location_odd.
  destruct (Z.even D) eqn:Hev, (Z.eqb_spec r 0) as [->|Hr].
  1,3: cbn [shr_record_of_loc shr_m shr_r shr_s]; rewrite Z.mul_0_r;
    by destruct (Z.leb_spec D 0); [lia|].
  - destruct (Z.compare_spec (2 * r) D); cbn; destruct (Z.leb_spec D (2 * r)),
      (Z.eqb_spec (2 * r) D); done || lia.
  - assert (2 * r <> D).
    { intros Heq. rewrite <- Heq, Z.even_mul in Hev. done. }
    destruct (Z.compare_spec (2 * r + 1) D); cbn; destruct (Z.leb_spec D (2 * r)),
      (Z.eqb_spec (2 * r) D); done || lia.
Qed.

Lemma shr_1_halves m r s : 0 <= m ->
  shr_1 {| shr_m := m; shr_r := r; shr_s := s |} =
  {| shr_m := m / 2; shr_r := Z.odd m; shr_s := r || s |}.
Proof.
  intros Hm. destruct m as [|p|p]; [done| |lia]. rewrite <- Z.div2_div. by destruct p.
Qed.

Lemma stands_for_shift N D r : 0 <= N -> 0 < D -> stands_for N D r ->
  stands_for N (D * 2) (shr_1 r).
Proof.
  intros HN HD (Hm & Hr & Hs). destruct r as [m rb sb]. cbn in Hm, Hr, Hs. subst m rb sb.
  rewrite shr_1_halves by (by apply Z.div_pos).
  assert (Hmod : N mod (D * 2) = N mod D + D * ((N / D) mod 2)) by (apply Z.rem_mul_r; lia).
  pose proof (Z.mod_pos_bound N D HD). rewrite Zmod_odd in Hmod.
  unfold stands_for. cbn [shr_m shr_r shr_s]. rewrite Z.div_div, Hmod by lia.
  set (r := N mod D) in *. split; [done|].
  destruct (Z.odd (N / D)).
  all: split; [symmetry|].
  1: apply Z.leb_le; lia.
  2: apply Z.leb_gt; lia.
  all: destruct (Z.leb_spec D (2 * r)), (Z.eqb_spec r 0), (Z.eqb_spec (2 * r) D);
    cbn [negb andb orb]; symmetry; try lia.
  all: repeat match goal with |- context [?a =? ?b] => destruct (Z.eqb_spec a b) end;
    done || lia.
Qed.

Lemma stands_for_shifts N D r (n : nat) : 0 <= N -> 0 < D -> stands_for N D r ->
  stands_for N (D * 2 ^ Z.of_nat n) (Nat.iter n shr_1 r).
Proof.
  intros HN HD Hr. induction n as [|n IH]; [by rewrite Z.mul_1_r|].
  rewrite Nat2Z.inj_succ, Z.pow_succ_r, (Z.mul_comm 2), Z.mul_assoc by lia.
  apply stands_for_shift; [done| |done].
  assert (0 < 2 ^ Z.of_nat n) by (apply Z.pow_pos_nonneg; lia). lia.
Qed.

(** ** Digits *)

Lemma digits_bounds m : 0 < m -> 2 ^ (Zdigits2 m - 1) <= m < 2 ^ Zdigits2 m /\ 0 < Zdigits2 m.
Proof. destruct m as [|p|p]; [lia| |lia]. intros _. split; [apply digits2_pos_bounds|done]. Qed.

Lemma digits_unique m d : 2 ^ (d - 1) <= m < 2 ^ d -> 0 < d -> Zdigits2 m = d.
Proof.
  intros Hm Hd. assert (Hpos : 0 < m) by (assert (0 < 2 ^ (d - 1)) by (apply Z.pow_pos_nonneg; lia); lia).
  destruct (digits_bounds m Hpos) as [Hb Hb0]. set (d' := Zdigits2 m) in *.
  destruct (Z.lt_trichotomy d' d) as [Hlt|[->|Hgt]]; [|done|].
  - pose proof (Z.pow_le_mono_r 2 d' (d - 1)). lia.
  - pose proof (Z.pow_le_mono_r 2 d (d' - 1)). lia.
Qed.

Lemma digits_mono m m' : 0 < m <= m' -> Zdigits2 m <= Zdigits2 m'.
Proof.
  intros Hm. destruct (digits_bounds m), (digits_bounds m'); [lia..|].
  destruct (Z.le_gt_cases (Zdigits2 m) (Zdigits2 m')) as [|Hgt]; [done|].
  pose proof (Z.pow_le_mono_r 2 (Zdigits2 m') (Zdigits2 m - 1)). lia.
Qed.
End nearest.

(** ** The format *)

Section format.
Context (prec emax : Z) (Hprec : 1 < prec).

Lemma fexp_above z : 3 - emax <= z -> fexp prec emax z = z - prec.
Proof. unfold fexp, emin. lia. Qed.

(** A second normalisation, of a rounded mantissa. *)
Lemma renormalize s R e : 2 ^ (prec - 1) <= R <= 2 ^ prec -> 3 - emax <= prec + e ->
  prec + e + 1 <= emax ->
  exists m e', (let '(r, e'') := shr_fexp prec emax R e loc_Exact in
     match shr_m r with
     | 0 => S754_zero s
     | Zpos m => if e'' <=? emax - prec then S754_finite s m e'' else S754_infinity s
     | _ => S754_nan
     end) = S754_finite s m e' /\ e <= e' /\ Zpos m * 2 ^ (e' - e) = R /\
    2 ^ (prec - 1) <= Zpos m < 2 ^ prec.
Proof.
  intros HR He1 He2. unfold shr_fexp.
  assert (Hpp : 2 ^ prec = 2 * 2 ^ (prec - 1))
    by (rewrite <- Z.pow_succ_r by lia; f_equal; lia).
  assert (Hp1 : 0 < 2 ^ (prec - 1)) by (apply Z.pow_pos_nonneg; lia).
  destruct (Z.eq_dec R (2 ^ prec)) as [HR2|HR2].
  - rewrite (digits_unique R (prec + 1)).
    2: { rewrite HR2. replace (prec + 1 - 1) with prec by lia.
         replace (prec + 1) with (Z.succ prec) by lia. rewrite (Z.pow_succ_r 2 prec) by lia. lia. }
    2: lia.
    rewrite fexp_above by lia. replace (prec + 1 + e - prec - e) with 1 by lia.
    cbn [shr SpecFloat.iter_pos shr_record_of_loc]. rewrite shr_1_halves by lia. cbn [shr_m].
    rewrite HR2, Hpp, Z.mul_comm, Z.div_mul by lia.
    destruct (2 ^ (prec - 1)) as [|m|m] eqn:Em; [lia| |lia].
    destruct (Z.leb_spec (e + 1) (emax - prec)); [|lia].
    exists m, (e + 1). replace (e + 1 - e) with 1 by lia. split_and!; (done || lia).
  - destruct R as [|m|m]; [lia| |lia]. rewrite (digits_unique (Zpos m) prec) by lia.
    rewrite fexp_above by lia. replace (prec + e - prec - e) with 0 by lia.
    cbn [shr shr_record_of_loc shr_m].
    destruct (Z.leb_spec e (emax - prec)); [|lia].
    exists m, e. rewrite Z.sub_diag, Z.pow_0_r, Z.mul_1_r. split_and!; (done || lia).
Qed.

(** The rounding of [N / D * 2^e], whose integral part has enough digits. *)
Lemma round_aux_rne s N D e l : 0 < D -> 0 <= N ->
  let d := Zdigits2 (N / D) in
  prec <= d -> stands_for N D (shr_record_of_loc (N / D) l) ->
  3 - emax <= d + e -> d + e + 1 <= emax ->
  exists m e', binary_round_aux prec emax s (N / D) e l = S754_finite s m e' /\
    e + (d - prec) <= e' /\
    Zpos m * 2 ^ (e' - (e + (d - prec))) = rne N (D * 2 ^ (d - prec)) /\
    2 ^ (prec - 1) <= Zpos m < 2 ^ prec.
Proof.
  intros HD HN d Hd Hrep He1 He2. unfold binary_round_aux.
  set (j := d - prec) in *. assert (Hj : 0 <= j) by lia.
  assert (Hshift : shr_fexp prec emax (N / D) e l =
    (Nat.iter (Z.to_nat j) shr_1 (shr_record_of_loc (N / D) l), e + j)).
  { unfold shr_fexp. fold d. rewrite fexp_above by lia. replace (d + e - prec - e) with j by lia.
    unfold shr. destruct j as [|p|p]; [|by rewrite iter_pos_nat|lia].
    by rewrite Z.add_0_r. }
  rewrite Hshift.
  pose proof (stands_for_shifts N D _ (Z.to_nat j) HN HD Hrep) as Hrep'.
  rewrite Z2Nat.id in Hrep' by done.
  assert (H2j : 0 < 2 ^ j) by (by apply Z.pow_pos_nonneg).
  assert (HDj : 0 < D * 2 ^ j) by lia.
  rewrite (stands_for_round N (D * 2 ^ j)) by done.
  assert (Hq : 0 < N / D) by (destruct (N / D) eqn:E; [cbn in *; lia|lia|
    pose proof (Z.div_pos N D); lia]).
  destruct (digits_bounds (N / D) Hq) as [Hb _]. fold d in Hb.
  destruct (rne_bounds N (D * 2 ^ j) HDj) as [_ Hr]. rewrite <- Z.div_div in Hr by lia.
  assert (Hlow : 2 ^ (prec - 1) <= N / D / 2 ^ j < 2 ^ prec).
  { split.
    - apply Z.div_le_lower_bound; [done|]. rewrite <- Z.pow_add_r by lia.
      replace (j + (prec - 1)) with (d - 1) by lia. lia.
    - apply Z.div_lt_upper_bound; [done|]. rewrite <- Z.pow_add_r by lia.
      replace (j + prec) with d by lia. lia. }
  apply renormalize; lia.
Qed.

(** [shl_align] multiplies by the power of two it takes from the exponent. *)
Lemma align_exact p e e1 : exists mz, shl_align p e e1 = (mz, Z.min e e1) /\
  Zpos mz = Zpos p * 2 ^ (e - Z.min e e1).
Proof.
  unfold shl_align. destruct (e1 - e) as [|q|q] eqn:Ep; eexists; split.
  1,3: f_equal; lia.
  1,2: replace (e - Z.min e e1) with 0 by lia; lia.
  - f_equal; lia.
  - rewrite shl_iter, shl_value. do 2 f_equal. lia.
Qed.

(** What lies behind the precision of a representable value is zeros. *)
Lemma trailing_zeros E k : 0 < E < 2 ^ prec -> 0 <= k ->
  let d := Zdigits2 (E * 2 ^ k) in prec <= d -> exists k', E * 2 ^ k = k' * 2 ^ (d - prec).
Proof.
  intros HE Hk d Hd. assert (H2k : 0 < 2 ^ k) by (by apply Z.pow_pos_nonneg).
  destruct (digits_bounds (E * 2 ^ k) ltac:(lia)) as [Hb _]. fold d in Hb.
  exists (E * 2 ^ (k - (d - prec))).
  rewrite <- Z.mul_assoc, <- Z.pow_add_r; [do 2 f_equal; lia| |lia].
  assert (Hdk : d <= prec + k); [|lia].
  destruct (Z.le_gt_cases d (prec + k)) as [|Hgt]; [done|exfalso].
  pose proof (Z.pow_le_mono_r 2 (prec + k) (d - 1)) as Hle. rewrite Z.pow_add_r in Hle by lia. nia.
Qed.

(** A representable value is not changed. *)
Lemma round_exact s E k e : 0 < E < 2 ^ prec -> 0 <= k ->
  let M := E * 2 ^ k in
  3 - emax <= Zdigits2 M + e -> Zdigits2 M + e + 1 <= emax ->
  exists m e', binary_round prec emax s (Z.to_pos M) e = S754_finite s m e' /\
    Zdigits2 M + e - prec <= e' /\ 2 ^ (prec - 1) <= Zpos m < 2 ^ prec /\
    forall K, 0 <= e + K -> 0 <= Zdigits2 M + e - prec + K ->
      Zpos m * 2 ^ (e' + K) = M * 2 ^ (e + K).
Proof.
  intros HE Hk M He1 He2. assert (H2k : 0 < 2 ^ k) by (by apply Z.pow_pos_nonneg).
  assert (HM : 0 < M) by (unfold M; lia).
  assert (Hpm : Zpos (Z.to_pos M) = M) by lia.
  assert (Hdig : Zpos (digits2_pos (Z.to_pos M)) = Zdigits2 M) by (rewrite <- Hpm at 2; done).
  set (d := Zdigits2 M) in *. destruct (digits_bounds M HM) as [Hb Hd0]. fold d in Hb, Hd0.
  unfold binary_round. rewrite Hdig, fexp_above by lia.
  destruct (align_exact (Z.to_pos M) e (d + e - prec)) as (mz & -> & Hmz). rewrite Hpm in Hmz.
  set (ez := Z.min e (d + e - prec)) in *.
  assert (Hez : 0 <= e - ez) by (unfold ez; lia).
  assert (H2z : 0 < 2 ^ (e - ez)) by (by apply Z.pow_pos_nonneg).
  assert (Hdz : Zdigits2 (Zpos mz) = d + (e - ez)).
  { apply digits_unique; [|lia]. rewrite Hmz. replace (d + (e - ez) - 1) with (d - 1 + (e - ez)) by lia.
    rewrite !Z.pow_add_r by lia. split; [apply Z.mul_le_mono_nonneg_r; lia|].
    apply Z.mul_lt_mono_pos_r; lia. }
  destruct (round_aux_rne s (Zpos mz) 1 ez loc_Exact) as (m & e' & Hr & He' & Hv & Hm);
    rewrite ?Z.div_1_r in *; [done|done|unfold ez in *; lia|apply stands_for_integer|
      unfold ez in *; lia|unfold ez in *; lia|].
  exists m, e'. rewrite Hr. set (j := Zdigits2 (Zpos mz) - prec) in *.
  assert (Hj : ez + j = d + e - prec) by (unfold j; lia).
  split; [done|]. split; [lia|]. split; [done|]. intros K HK1 HK2.
  rewrite Z.mul_1_l in Hv. assert (Hj0 : 0 <= j) by (unfold j, ez in *; lia).
  assert (Hdiv : exists k', Zpos mz = k' * 2 ^ j).
  { destruct (Z.le_gt_cases d prec).
    - exists (Zpos mz). replace j with 0 by (unfold j, ez in *; lia). lia.
    - destruct (trailing_zeros E k HE Hk) as [k' Hk']; [fold M d; lia|]. exists k'. fold M d in Hk'.
      replace j with (d - prec) by (unfold j, ez in *; lia). rewrite <- Hk', Hmz.
      replace (e - ez) with 0 by (unfold ez; lia). lia. }
  destruct Hdiv as [k' Hk']. rewrite Hk', rne_exact in Hv by (by apply Z.pow_pos_nonneg).
  assert (HR : Zpos m * 2 ^ (e' + K) = k' * 2 ^ (ez + j + K)).
  { rewrite <- Hv, <- Z.mul_assoc, <- Z.pow_add_r by lia. do 2 f_equal. lia. }
  rewrite HR. replace (ez + j + K) with (j + (ez + K)) by lia.
  destruct (Z.le_gt_cases 0 (ez + K)) as [Hz|Hz].
  - rewrite Z.pow_add_r, Z.mul_assoc, <- Hk', Hmz, <- Z.mul_assoc, <- Z.pow_add_r by lia.
    do 2 f_equal. lia.
  - exfalso. unfold ez in *. lia.
Qed.

(** A mantissa with more digits than the format has loses the last ones. *)
Lemma round_long s M e : 0 < M -> let d := Zdigits2 M in
  prec <= d -> 3 - emax <= d + e -> d + e + 1 <= emax ->
  exists m e', binary_round prec emax s (Z.to_pos M) e = S754_finite s m e' /\
    e + (d - prec) <= e' /\
    Zpos m * 2 ^ (e' - (e + (d - prec))) = rne M (2 ^ (d - prec)) /\
    2 ^ (prec - 1) <= Zpos m < 2 ^ prec.
Proof.
  intros HM d Hd He1 He2. assert (Hpm : Zpos (Z.to_pos M) = M) by lia.
  assert (Hdig : Zpos (digits2_pos (Z.to_pos M)) = d) by (unfold d; rewrite <- Hpm; done).
  unfold binary_round. rewrite Hdig, fexp_above by lia.
  destruct (align_exact (Z.to_pos M) e (d + e - prec)) as (mz & -> & Hmz).
  replace (Z.min e (d + e - prec)) with e in * by lia.
  rewrite Z.sub_diag, Z.pow_0_r, Z.mul_1_r, Hpm in Hmz.
  pose proof (round_aux_rne s M 1 e loc_Exact) as H. cbv zeta in H.
  rewrite Z.div_1_r, Z.mul_1_l in H. rewrite Hmz. unfold d in *.
  apply H; [lia..|apply stands_for_integer|lia|lia].
Qed.

(** The digits of a quotient, the numerator shifted up far enough. *)
Lemma quotient_digits A B n : 0 < A -> 0 < B -> Z.max 0 (1 + Zdigits2 B - Zdigits2 A) <= n ->
  let d := Zdigits2 A + n - Zdigits2 B in d <= Zdigits2 (A * 2 ^ n / B) <= d + 1.
Proof.
  intros HA HB Hn d. destruct (digits_bounds A HA) as [Ha Ha0]. destruct (digits_bounds B HB) as [Hb Hb0].
  set (d1 := Zdigits2 A) in *. set (d2 := Zdigits2 B) in *. set (N := A * 2 ^ n) in *.
  assert (HN : 2 ^ (d1 + n - 1) <= N < 2 ^ (d1 + n)).
  { assert (0 < 2 ^ n) by (apply Z.pow_pos_nonneg; lia).
    unfold N. replace (d1 + n - 1) with (d1 - 1 + n) by lia. rewrite !Z.pow_add_r by lia. nia. }
  assert (Hq : 2 ^ (d - 1) <= N / B < 2 ^ (d + 1)).
  { split; [apply Z.div_le_lower_bound|apply Z.div_lt_upper_bound]; [done| |done|].
    - transitivity (2 ^ d2 * 2 ^ (d - 1)).
      + apply Z.mul_le_mono_nonneg_r; [apply Z.pow_nonneg; lia|lia].
      + rewrite <- Z.pow_add_r by lia. replace (d2 + (d - 1)) with (d1 + n - 1) by lia. lia.
    - apply Z.lt_le_trans with (2 ^ (d2 - 1) * 2 ^ (d + 1)).
      + rewrite <- Z.pow_add_r by lia. replace (d2 - 1 + (d + 1)) with (d1 + n) by lia. lia.
      + apply Z.mul_le_mono_nonneg_r; [apply Z.pow_nonneg; lia|lia]. }
  assert (Hpos : 0 < N / B) by (pose proof (Z.pow_pos_nonneg 2 (d - 1)); lia).
  destruct (digits_bounds (N / B) Hpos) as [Hz Hz0]. set (z := Zdigits2 (N / B)) in *. split.
  - destruct (Z.le_gt_cases d z) as [|Hlt]; [done|]. pose proof (Z.pow_le_mono_r 2 z (d - 1)). lia.
  - destruct (Z.le_gt_cases z (d + 1)) as [|Hgt]; [done|].
    pose proof (Z.pow_le_mono_r 2 (d + 1) (z - 1)). lia.
Qed.

(** From an absolute error of half a unit to a relative one. *)
Lemma relative_error A B N D R J T H : 0 < B -> 0 < D -> 0 < J -> 0 < T ->
  N * T = R * J * D -> H <= R -> 2 * Z.abs (R * (B * J) - A * T) <= B * J -> 0 < H ->
  Z.abs (N * B - A * D) * (2 * H) <= N * B.
Proof.
  intros HB HD HJ HT HND HR Herr HH.
  apply (Z.mul_le_mono_pos_r _ _ T HT).
  assert (E1 : N * B * T = D * (R * (B * J))) by (replace (N * B * T) with (N * T * B) by ring; rewrite HND; ring).
  assert (E2 : (N * B - A * D) * T = D * (R * (B * J) - A * T)).
  { replace ((N * B - A * D) * T) with (N * T * B - A * D * T) by ring. rewrite HND. ring. }
  replace (Z.abs (N * B - A * D) * (2 * H) * T) with (Z.abs ((N * B - A * D) * T) * (2 * H))
    by (rewrite Z.abs_mul, (Z.abs_eq T) by lia; ring).
  rewrite E1, E2, Z.abs_mul, (Z.abs_eq D), <- Z.mul_assoc by lia.
  apply Z.mul_le_mono_nonneg_l; [lia|].
  set (x := Z.abs _) in *. transitivity (B * J * H); [|transitivity (B * J * R)].
  - replace (x * (2 * H)) with (2 * x * H) by ring. apply Z.mul_le_mono_nonneg_r; lia.
  - apply Z.mul_le_mono_nonneg_l; nia.
  - lia.
Qed.

(** The correctly rounded quotient of two integers: relative to its value, it is
    off by [2^-prec] at most. *)
Lemma quotient_rounded s A B : 0 < A -> 0 < B ->
  6 - emax <= Zdigits2 A - Zdigits2 B -> Zdigits2 A - Zdigits2 B + 3 <= emax -> prec < emax ->
  exists m e, (let '(q, ex, l) := SFdiv_core_binary prec emax A 0 B 0 in
     binary_round_aux prec emax s q ex l) = S754_finite s m e /\
    2 ^ (prec - 1) <= Zpos m < 2 ^ prec /\
    let N := Zpos m * 2 ^ Z.max 0 e in
    let D := 2 ^ Z.max 0 (- e) in
    Z.abs (N * B - A * D) * 2 ^ prec <= N * B.
Proof.
  intros HA HB Hlo Hhi Hpe. unfold SFdiv_core_binary.
  set (d1 := Zdigits2 A) in *. set (d2 := Zdigits2 B) in *. rewrite !Z.add_0_r.
  rewrite fexp_above by lia. replace (0 - 0) with 0 by lia.
  set (e' := Z.min (d1 - d2 - prec) 0). set (n := 0 - e'). assert (Hn : 0 <= n) by lia.
  assert (Hnum : match n with 0 => A | Zpos _ => Z.shiftl A n | Zneg _ => 0 end = A * 2 ^ n).
  { rewrite <- Z.shiftl_mul_pow2 by lia. destruct n; [by rewrite Z.shiftl_0_r|done|lia]. }
  rewrite Hnum. set (N0 := A * 2 ^ n).
  assert (Hqr : Z.div_eucl N0 B = (N0 / B, N0 mod B))
    by (unfold Z.div, Z.modulo; by destruct (Z.div_eucl N0 B)).
  rewrite Hqr. assert (H2n : 0 < 2 ^ n) by (by apply Z.pow_pos_nonneg).
  pose proof (quotient_digits A B n HA HB ltac:(lia)) as Hd. cbv zeta in Hd. fold d1 d2 N0 in Hd.
  assert (HN0 : 0 <= N0) by (unfold N0; lia).
  destruct (round_aux_rne s N0 B e' (new_location B (N0 mod B))) as (m & e & -> & He & Hv & Hm);
    [lia|lia|lia|by apply stands_for_quotient|lia|lia|].
  exists m, e. split; [done|]. split; [done|]. cbv zeta.
  set (j := Zdigits2 (N0 / B) - prec) in *. assert (Hj : 0 <= j) by lia.
  assert (H2j : 0 < 2 ^ j) by (by apply Z.pow_pos_nonneg).
  destruct (rne_bounds N0 (B * 2 ^ j) ltac:(lia)) as [HR _]. rewrite <- Hv in HR.
  set (R := Zpos m * 2 ^ (e - (e' + j))) in *.
  assert (HRm : 2 ^ (prec - 1) <= R).
  { unfold R. assert (1 <= 2 ^ (e - (e' + j))) by (change 1 with (2 ^ 0); apply Z.pow_le_mono_r; lia). nia. }
  set (N := Zpos m * 2 ^ Z.max 0 e). set (D := 2 ^ Z.max 0 (- e)).
  assert (HD : 0 < D) by (apply Z.pow_pos_nonneg; lia).
  assert (HND : N * 2 ^ n = R * 2 ^ j * D).
  { unfold N, R, D. rewrite <- !Z.mul_assoc, <- !Z.pow_add_r by lia. do 2 f_equal. lia. }
  replace (2 ^ prec) with (2 * 2 ^ (prec - 1)) by (rewrite <- Z.pow_succ_r by lia; f_equal; lia).
  apply (relative_error A B N D R (2 ^ j) (2 ^ n)); [done..|lia|].
  apply Z.pow_pos_nonneg; lia.
Qed.
End format.
