(* ===== verification/LongDouble.v ===== *)
(** * LongDouble: [long double] as a binary format of the platform

    The operations the analyzer and the replay engine use, for any precision
    [ld_prec] and exponent bound [ld_emax]: conversions and differences of the
    integers of [std::int64_t] are the nearest representable integers, exact
    from 64 bits of precision on, and a quotient truncated to an integer is
    known to within a unit and [2^(62 - ld_prec)]. *)
From Stdlib Require Import ZArith Lia SpecFloat.
From stdpp Require Import base tactics decidable list.
From S2P Require Import Prelude Floats Dyadic Rounding.
Local Open Scope Z_scope.

Section operations.
Context (ld_prec ld_emax : Z).

(** [static_cast<long double>] of an integer and of a [double]. *)
Definition ld_of_Z (z : Z) : spec_float := binary_normalize ld_prec ld_emax z 0 false.
Definition ld_of_double (x : double) : spec_float :=
  match x with S754_finite s m e => binary_round ld_prec ld_emax s m e | _ => x end.

Definition ld_sub (x y : spec_float) : spec_float := SFsub ld_prec ld_emax x y.
Definition ld_mul (x y : spec_float) : spec_float := SFmul ld_prec ld_emax x y.
Definition ld_div (x y : spec_float) : spec_float := SFdiv ld_prec ld_emax x y.

Definition ld_to_double (x : spec_float) : double :=
  match x with S754_finite s m e => binary_round dbl_prec dbl_emax s m e | _ => x end.
End operations.

(** [static_cast<std::int64_t>] of a floating point value: towards zero; out of
    range, [None], the behaviour is undefined. *)
Definition ld_to_s64 (x : spec_float) : option Z :=
  match x with
  | S754_zero _ => Some 0
  | S754_finite s m e =>
      let magnitude := if 0 <=? e then Zpos m * 2 ^ e else Zpos m / 2 ^ (- e) in
      let z := if s then - magnitude else magnitude in
      if (- 2 ^ 63 <=? z) && (z <? 2 ^ 63) then Some z else None
  | _ => None
  end.

(** ** Integers *)

Section nearest.
Context (ld_prec : Z) (Hprec : 53 <= ld_prec).

(** The nearest integer with at most [ld_prec] significant digits. *)
Definition unit_of (z : Z) : Z := Z.max 0 (Zdigits2 z - ld_prec).
Definition nearest (z : Z) : Z := rne z (2 ^ unit_of z) * 2 ^ unit_of z.

(** How far it can be from an integer below [2^n]. *)
Definition slack (n : Z) : Z := if n <=? ld_prec then 0 else 2 ^ (n - ld_prec - 1).

Lemma unit_pos z : 0 < 2 ^ unit_of z.
Proof. apply Z.pow_pos_nonneg; unfold unit_of; lia. Qed.

Lemma digits_below z n : 0 <= z < 2 ^ n -> 0 <= n -> Zdigits2 z <= n.
Proof.
  intros Hz Hn. destruct (Z.eq_dec z 0) as [->|]; [done|].
  destruct (digits_bounds z) as [Hb _]; [lia|].
  destruct (Z.le_gt_cases (Zdigits2 z) n) as [|Hgt]; [done|].
  pose proof (Z.pow_le_mono_r 2 n (Zdigits2 z - 1)). lia.
Qed.

Lemma nearest_error z n : 0 <= z < 2 ^ n -> 0 <= n -> Z.abs (nearest z - z) <= slack n.
Proof.
  intros Hz Hn. pose proof (digits_below z n Hz Hn) as Hd. unfold nearest, slack.
  pose proof (unit_pos z) as Hu. destruct (rne_bounds z (2 ^ unit_of z) Hu) as [Hr _].
  destruct (Z.leb_spec n ld_prec) as [Hle|Hlt].
  - replace (unit_of z) with 0 in * by (unfold unit_of; lia). rewrite Z.pow_0_r in *. lia.
  - assert (2 ^ unit_of z <= 2 ^ (n - ld_prec)).
    { apply Z.pow_le_mono_r; [lia|]. unfold unit_of. lia. }
    replace (n - ld_prec) with (Z.succ (n - ld_prec - 1)) in H by lia.
    rewrite Z.pow_succ_r in H by lia. lia.
Qed.

(** What has few enough digits is its own nearest. *)
Lemma nearest_exact M e : 0 < M < 2 ^ ld_prec -> 0 <= e -> nearest (M * 2 ^ e) = M * 2 ^ e.
Proof.
  intros HM He. unfold nearest. set (u := unit_of _).
  assert (Hu : 0 <= u <= e).
  { unfold u, unit_of. pose proof (digits_below (M * 2 ^ e) (ld_prec + e)) as Hd.
    rewrite Z.pow_add_r in Hd by lia. assert (0 < 2 ^ e) by (by apply Z.pow_pos_nonneg).
    assert (Zdigits2 (M * 2 ^ e) <= ld_prec + e) by (apply Hd; [nia|lia]). lia. }
  replace (M * 2 ^ e) with (M * 2 ^ (e - u) * 2 ^ u).
  2: { rewrite <- Z.mul_assoc, <- Z.pow_add_r by lia. do 2 f_equal. lia. }
  rewrite rne_exact; [done|]. apply Z.pow_pos_nonneg; lia.
Qed.

Lemma nearest_0 : nearest 0 = 0.
Proof. unfold nearest. rewrite <- (Z.mul_0_l (2 ^ unit_of 0)) at 1. rewrite rne_exact; [lia|apply unit_pos]. Qed.

Lemma nearest_mono z z' : 0 <= z <= z' -> nearest z <= nearest z'.
Proof.
  intros Hz. destruct (Z.eq_dec z 0) as [->|Hne].
  { rewrite nearest_0. unfold nearest. pose proof (unit_pos z').
    destruct (rne_bounds z' (2 ^ unit_of z')) as [_ Hb]; [done|].
    assert (0 <= z' / 2 ^ unit_of z') by (apply Z.div_pos; lia). nia. }
  destruct (digits_bounds z) as [Hd _], (digits_bounds z') as [Hd' _]; [lia..|].
  pose proof (digits_mono z z' ltac:(lia)) as Hm.
  assert (Hu : unit_of z <= unit_of z') by (unfold unit_of; lia).
  destruct (Z.eq_dec (unit_of z) (unit_of z')) as [Heq|Hlt].
  { unfold nearest. rewrite Heq. pose proof (unit_pos z').
    pose proof (rne_mono z z' (2 ^ unit_of z') ltac:(done) ltac:(lia)). nia. }
  (* the longer one is not below the power of two between them *)
  set (c := 2 ^ (ld_prec - 1) * 2 ^ unit_of z').
  assert (Hcut : c = 2 ^ (Zdigits2 z' - 1)).
  { unfold c. rewrite <- Z.pow_add_r by (unfold unit_of; lia). f_equal. unfold unit_of in *. lia. }
  assert (Hbelow : z <= c).
  { rewrite Hcut. apply Z.lt_le_incl, Z.lt_le_trans with (1 := proj2 Hd).
    apply Z.pow_le_mono_r; [lia|]. unfold unit_of in *. lia. }
  transitivity c.
  - unfold nearest. set (u := unit_of z) in *.
    assert (Hc : exists k, c = k * 2 ^ u).
    { exists (2 ^ (ld_prec - 1) * 2 ^ (unit_of z' - u)). unfold c.
      rewrite <- Z.mul_assoc. f_equal.
      rewrite <- Z.pow_add_r by (unfold u, unit_of in *; lia). f_equal. lia. }
    destruct Hc as [k Hk]. rewrite Hk in *. pose proof (unit_pos z) as Hp. fold u in Hp.
    pose proof (rne_mono z (k * 2 ^ u) (2 ^ u) Hp Hbelow) as Hr. rewrite rne_exact in Hr by done. nia.
  - unfold nearest. pose proof (unit_pos z') as Hp.
    assert (Hcz : c <= z') by lia.
    pose proof (rne_mono c z' (2 ^ unit_of z') Hp Hcz) as Hr. unfold c in Hr at 1.
    rewrite rne_exact in Hr by done. unfold c. nia.
Qed.

Lemma nearest_power n : 0 <= n -> nearest (2 ^ n) = 2 ^ n.
Proof.
  intros Hn. pose proof (nearest_exact 1 n) as H. rewrite Z.mul_1_l in H. apply H; [|done].
  split; [done|]. apply (Z.pow_lt_mono_r 2 0); lia.
Qed.

(** With its sign. *)
Definition nearest_signed (z : Z) : Z := Z.sgn z * nearest (Z.abs z).

Lemma nearest_signed_bounds z : in_s64 z ->
  Z.abs (nearest_signed z - z) <= slack 64 /\ Z.abs (nearest_signed z) <= 2 ^ 63.
Proof.
  unfold in_s64, nearest_signed. intros Hz.
  pose proof (nearest_error (Z.abs z) 64 ltac:(lia) ltac:(lia)).
  assert (nearest (Z.abs z) <= 2 ^ 63)
    by (rewrite <- (nearest_power 63) by lia; apply nearest_mono; lia).
  assert (0 <= nearest (Z.abs z)) by (rewrite <- nearest_0; apply nearest_mono; lia). lia.
Qed.

Lemma nearest_signed_mono z z' : z <= z' -> nearest_signed z <= nearest_signed z'.
Proof.
  intros Hz. unfold nearest_signed.
  assert (H0 : forall x, 0 <= nearest (Z.abs x)) by (intros x; rewrite <- nearest_0; apply nearest_mono; lia).
  pose proof (H0 z). pose proof (H0 z').
  destruct (Z.lt_trichotomy z 0) as [Hn|[->|Hp]], (Z.lt_trichotomy z' 0) as [Hn'|[->|Hp']];
    cbn [Z.sgn Z.abs] in *; rewrite ?nearest_0; try lia.
  - pose proof (nearest_mono (Z.abs z') (Z.abs z) ltac:(lia)). lia.
  - pose proof (nearest_mono (Z.abs z) (Z.abs z') ltac:(lia)). lia.
Qed.

End nearest.

Section extended.
Context (ld_prec ld_emax : Z) (Hprec : 53 <= ld_prec) (Hemax : ld_prec + 1200 <= ld_emax).
Local Abbreviation nearest := (nearest ld_prec).
Local Abbreviation unit_of := (unit_of ld_prec).
Local Abbreviation nearest_signed := (nearest_signed ld_prec).

(** The value is the integer [z]. *)
Inductive holds : spec_float -> Z -> Prop :=
  | holds_zero s : holds (S754_zero s) 0
  | holds_finite m e z : z <> 0 -> - ld_prec <= e <= 64 ->
      Zpos m * 2 ^ (e + ld_prec) = Z.abs z * 2 ^ ld_prec ->
      2 ^ (ld_prec - 1) <= Zpos m < 2 ^ ld_prec ->
      holds (S754_finite (z <? 0) m e) z.

(** The exponent of a value is bounded by its size. *)
Lemma exponent_bound m e z : 0 <= z <= 2 ^ 64 -> - ld_prec <= e ->
  Zpos m * 2 ^ (e + ld_prec) = z * 2 ^ ld_prec -> 2 ^ (ld_prec - 1) <= Zpos m -> e <= 64.
Proof.
  intros Hz He Hv Hm. destruct (Z.le_gt_cases e 64) as [|Hgt]; [done|exfalso].
  assert (H1 : 2 ^ (ld_prec - 1) * 2 ^ (e + ld_prec) <= 2 ^ 64 * 2 ^ ld_prec).
  { transitivity (Zpos m * 2 ^ (e + ld_prec)).
    - apply Z.mul_le_mono_nonneg_r; [apply Z.pow_nonneg; lia|done].
    - rewrite Hv. apply Z.mul_le_mono_nonneg_r; [apply Z.pow_nonneg; lia|lia]. }
  rewrite <- !Z.pow_add_r in H1 by lia. apply Z.pow_le_mono_r_iff in H1; lia.
Qed.

(** The digits of a mantissa [M] at exponent [e], standing for [A]. *)
Lemma value_digits M e A : 0 < M -> 0 < A -> - ld_prec <= e ->
  M * 2 ^ (e + ld_prec) = A * 2 ^ ld_prec -> Zdigits2 A = Zdigits2 M + e.
Proof.
  intros HM HA He Hv. destruct (digits_bounds M HM) as [Hb Hd0]. set (d := Zdigits2 M) in *.
  assert (Hp : 0 < 2 ^ ld_prec) by (apply Z.pow_pos_nonneg; lia).
  assert (Hep : 0 < 2 ^ (e + ld_prec)) by (apply Z.pow_pos_nonneg; lia).
  assert (Hpos : 1 <= d + e).
  { destruct (Z.le_gt_cases 1 (d + e)) as [|Hlt]; [done|exfalso].
    assert (M * 2 ^ (e + ld_prec) < 2 ^ d * 2 ^ (e + ld_prec)) by (apply Z.mul_lt_mono_pos_r; lia).
    rewrite <- Z.pow_add_r in H by lia.
    pose proof (Z.pow_le_mono_r 2 (d + (e + ld_prec)) ld_prec). nia. }
  apply digits_unique; [|lia]. split.
  - apply (Z.mul_le_mono_pos_r _ _ (2 ^ ld_prec)); [done|]. rewrite <- Hv, <- Z.pow_add_r by lia.
    replace (d + e - 1 + ld_prec) with (d - 1 + (e + ld_prec)) by lia. rewrite (Z.pow_add_r 2 (d - 1)) by lia.
    apply Z.mul_le_mono_nonneg_r; lia.
  - apply (Z.mul_lt_mono_pos_r (2 ^ ld_prec)); [done|]. rewrite <- Hv, <- Z.pow_add_r by lia.
    replace (d + e + ld_prec) with (d + (e + ld_prec)) by lia. rewrite (Z.pow_add_r 2 d) by lia.
    apply Z.mul_lt_mono_pos_r; lia.
Qed.

(** Short enough: one of [M] and [A] has no more digits than the format. *)
Lemma short_value M e A : 0 < M -> 0 < A -> - ld_prec <= e ->
  M * 2 ^ (e + ld_prec) = A * 2 ^ ld_prec ->
  Zdigits2 M <= ld_prec \/ Zdigits2 M + e <= ld_prec ->
  nearest A = A /\ exists E k, M = E * 2 ^ k /\ 0 < E < 2 ^ ld_prec /\ 0 <= k.
Proof.
  intros HM HA He Hv Hd. pose proof (value_digits M e A HM HA He Hv) as HdA.
  destruct (digits_bounds M HM) as [HbM _], (digits_bounds A HA) as [HbA _].
  assert (Hlow : forall n z, 0 < z < 2 ^ n -> n <= ld_prec -> 0 < z < 2 ^ ld_prec).
  { intros n z Hz Hn. split; [lia|]. apply Z.lt_le_trans with (1 := proj2 Hz).
    apply Z.pow_le_mono_r; lia. }
  assert (Hp : 0 < 2 ^ ld_prec) by (apply Z.pow_pos_nonneg; lia).
  destruct (Z.le_gt_cases e 0) as [He0|He0].
  - assert (HMA : M = A * 2 ^ (- e)).
    { apply (Z.mul_reg_r _ _ (2 ^ (e + ld_prec))).
      - pose proof (Z.pow_pos_nonneg 2 (e + ld_prec)). lia.
      - rewrite Hv, <- Z.mul_assoc, <- Z.pow_add_r by lia. do 2 f_equal. lia. }
    assert (HA' : 0 < A < 2 ^ ld_prec) by (apply (Hlow (Zdigits2 A)); lia).
    split; [|by exists A, (- e); lia].
    pose proof (nearest_exact ld_prec Hprec A 0 HA' ltac:(lia)) as H. by rewrite Z.mul_1_r in H.
  - assert (HMA : A = M * 2 ^ e).
    { apply (Z.mul_reg_r _ _ (2 ^ ld_prec)); [lia|].
      by rewrite <- Hv, <- Z.mul_assoc, <- Z.pow_add_r by lia. }
    assert (HM' : 0 < M < 2 ^ ld_prec) by (apply (Hlow (Zdigits2 M)); lia).
    split; [rewrite HMA; apply nearest_exact; lia|]. exists M, 0. lia.
Qed.

(** Rounding such a mantissa gives the nearest value. *)
Lemma round_value M e A s : 0 < M -> 0 < A <= 2 ^ 64 -> - ld_prec <= e ->
  M * 2 ^ (e + ld_prec) = A * 2 ^ ld_prec ->
  exists m e', binary_round ld_prec ld_emax s (Z.to_pos M) e = S754_finite s m e' /\
    - ld_prec <= e' /\ Zpos m * 2 ^ (e' + ld_prec) = nearest A * 2 ^ ld_prec /\
    2 ^ (ld_prec - 1) <= Zpos m < 2 ^ ld_prec.
Proof.
  intros HM HA He Hv. pose proof (value_digits M e A HM ltac:(lia) He Hv) as HdA.
  destruct (digits_bounds A) as [_ HdA0]; [lia|].
  assert (HdA1 : Zdigits2 A <= 65) by (apply digits_below; lia).
  destruct (Z.le_gt_cases (Zdigits2 M) ld_prec) as [Hd|Hd];
    [|destruct (Z.le_gt_cases (Zdigits2 M + e) ld_prec) as [Hde|Hde]].
  1,2: destruct (short_value M e A) as (HnA & E & k & HE & HEp & Hk); [lia..|by auto|];
    rewrite HnA, HE in *;
    destruct (round_exact ld_prec ld_emax ltac:(lia) s E k e) as (m & e' & Hr & He' & Hm & Hval);
    [lia..|]; exists m, e'; specialize (Hval ld_prec ltac:(lia) ltac:(lia));
    split_and!; (done || lia).
  destruct (round_long ld_prec ld_emax ltac:(lia) s M e HM) as (m & e' & Hr & He' & Hval & Hm); [lia..|].
  set (d := Zdigits2 M) in *. exists m, e'. split; [done|]. split; [lia|]. split; [|done].
  assert (Hu : unit_of A = d + e - ld_prec) by (unfold unit_of; lia).
  assert (Hrne : rne M (2 ^ (d - ld_prec)) = rne A (2 ^ unit_of A)).
  { rewrite <- (rne_scale M _ (2 ^ (e + ld_prec))), <- (rne_scale A _ (2 ^ ld_prec))
      by (apply Z.pow_pos_nonneg; lia).
    rewrite Hv, <- !Z.pow_add_r by lia. do 2 f_equal. lia. }
  unfold nearest. rewrite <- Hrne, <- Hval, Hu, <- !Z.mul_assoc, <- !Z.pow_add_r by lia.
  do 2 f_equal. lia.
Qed.

Lemma holds_round M e z s : 0 < M -> 0 < Z.abs z <= 2 ^ 64 -> - ld_prec <= e ->
  M * 2 ^ (e + ld_prec) = Z.abs z * 2 ^ ld_prec -> s = (z <? 0) ->
  holds (binary_round ld_prec ld_emax s (Z.to_pos M) e) (Z.sgn z * nearest (Z.abs z)).
Proof.
  intros HM Hz He Hv ->.
  destruct (round_value M e (Z.abs z) (z <? 0) HM Hz He Hv) as (m & e' & -> & He' & Hm & Hb).
  assert (Hn : 0 < nearest (Z.abs z)).
  { assert (0 < Zpos m * 2 ^ (e' + ld_prec)) by (apply Z.mul_pos_pos; [done|apply Z.pow_pos_nonneg; lia]).
    assert (0 < 2 ^ ld_prec) by (apply Z.pow_pos_nonneg; lia). nia. }
  assert (Hn64 : nearest (Z.abs z) <= 2 ^ 64)
    by (rewrite <- (nearest_power ld_prec Hprec 64) by lia; apply nearest_mono; lia).
  pose proof (exponent_bound m e' (nearest (Z.abs z)) ltac:(lia) He' Hm ltac:(lia)) as He64.
  replace (z <? 0) with (Z.sgn z * nearest (Z.abs z) <? 0) by (destruct (Z.ltb_spec z 0); lia).
  constructor; [lia|lia| |done]. rewrite Hm. f_equal. lia.
Qed.

Lemma ld_of_Z_holds z : in_s64 z -> holds (ld_of_Z ld_prec ld_emax z) (nearest_signed z).
Proof.
  unfold in_s64, nearest_signed, ld_of_Z, binary_normalize. intros Hz.
  destruct z as [|p|p]; [constructor| |].
  - apply (holds_round (Zpos p) 0 (Zpos p) false); first [done|lia].
  - apply (holds_round (Zpos p) 0 (Zneg p) true); first [done|lia].
Qed.

(** A difference, and its nearest value. *)
Lemma ld_sub_holds x y a b : holds x a -> holds y b -> 0 <= a - b <= 2 ^ 64 ->
  Z.abs a <= 2 ^ 64 -> Z.abs b <= 2 ^ 64 ->
  holds (ld_sub ld_prec ld_emax x y) (nearest (a - b)).
Proof.
  intros Hx Hy Hab Ha64 Hb64.
  assert (Hself : forall m e z, z <> 0 -> Z.abs z <= 2 ^ 64 -> - ld_prec <= e <= 64 ->
    Zpos m * 2 ^ (e + ld_prec) = Z.abs z * 2 ^ ld_prec ->
    2 ^ (ld_prec - 1) <= Zpos m < 2 ^ ld_prec -> nearest (Z.abs z) = Z.abs z).
  { intros m e z Hz Hz64 He Hv Hm.
    apply (short_value (Zpos m) e); [lia..|done|]. left. apply digits_below; lia. }
  unfold ld_sub, SFsub.
  destruct Hx as [sx|mx ex a Ha He Hm Hmb], Hy as [sy|my ey b Hb Hf Hn Hnb].
  - rewrite Z.sub_diag, nearest_0. destruct sx, sy; constructor.
  - replace (0 - b) with (Z.abs b) by lia. rewrite (Hself my ey b) by done.
    replace (negb (b <? 0)) with (Z.abs b <? 0).
    2: { destruct (Z.ltb_spec (Z.abs b) 0), (Z.ltb_spec b 0); cbn; lia || done. }
    constructor; [lia|done| |done]. by rewrite Z.abs_involutive.
  - replace (a - 0) with (Z.abs a) by lia. rewrite (Hself mx ex a) by done.
    replace (Z.abs a) with a by lia. by constructor.
  - set (ez := Z.min ex ey). unfold binary_normalize.
    set (D := _ - _) at 1.
    assert (HD : D * 2 ^ (ez + ld_prec) = (a - b) * 2 ^ ld_prec).
    { unfold D. rewrite !shl_align_value by (unfold ez; lia).
      rewrite <- Z.mul_sub_distr_r || idtac.
      assert (H1 : Zpos mx * 2 ^ (ex - ez) * 2 ^ (ez + ld_prec) = Z.abs a * 2 ^ ld_prec).
      { rewrite <- Hm, <- Z.mul_assoc, <- Z.pow_add_r by (unfold ez; lia). do 2 f_equal. lia. }
      assert (H2 : Zpos my * 2 ^ (ey - ez) * 2 ^ (ez + ld_prec) = Z.abs b * 2 ^ ld_prec).
      { rewrite <- Hn, <- Z.mul_assoc, <- Z.pow_add_r by (unfold ez; lia). do 2 f_equal. lia. }
      unfold cond_Zopp. destruct (Z.ltb_spec a 0), (Z.ltb_spec b 0); nia. }
    clearbody D. assert (0 < 2 ^ (ez + ld_prec)) by (apply Z.pow_pos_nonneg; unfold ez; lia).
    assert (0 < 2 ^ ld_prec) by (apply Z.pow_pos_nonneg; lia).
    destruct (Z.eq_dec (a - b) 0) as [E|E].
    { rewrite E in HD |- *. rewrite nearest_0. assert (D = 0) as -> by nia. constructor. }
    assert (0 < D) by nia. destruct D as [|p|p]; [lia| |lia].
    pose proof (holds_round (Zpos p) ez (a - b) false ltac:(lia)) as H3.
    replace (Z.sgn (a - b) * nearest (Z.abs (a - b))) with (nearest (a - b)) in H3.
    2: { rewrite Z.abs_eq, Z.sgn_pos by lia. lia. }
    apply H3; [lia|unfold ez; lia|by rewrite Z.abs_eq by lia|].
    by destruct (Z.ltb_spec (a - b) 0); [lia|].
Qed.

(** ** Quotients *)

(** A nearest integer [R] of [N / D], in units of [2^g], cut down to an integer;
    [X / S] is the exact quotient. *)
Lemma quotient_cut N D R S X g : 0 < D -> 0 < S -> 2 ^ ld_prec <= 2 * R ->
  N * 2 ^ Z.max 0 g * S = X * D * 2 ^ Z.max 0 (- g) -> 2 * N - D <= 2 * (R * D) <= 2 * N + D ->
  let t := R * 2 ^ Z.max 0 g / 2 ^ Z.max 0 (- g) in
  (t < 2 ^ 63 -> 2 ^ ld_prec * (t * S) <= 2 ^ ld_prec * X + 2 ^ 62 * S /\
     2 ^ ld_prec * X < 2 ^ ld_prec * ((t + 1) * S) + 2 ^ 62 * S) /\
  (2 ^ 63 <= t -> 2 ^ ld_prec * (2 ^ 63 * S) <= 2 ^ ld_prec * X + 2 ^ 63 * S) /\
  (forall t0, X = t0 * S -> t0 < 2 ^ (ld_prec - 1) -> t = t0).
Proof.
  intros HD HS HR2 HN HR t.
  assert (HP2 : 2 ^ ld_prec = 2 * 2 ^ (ld_prec - 1))
    by (rewrite <- Z.pow_succ_r by lia; f_equal; lia).
  assert (Hgf : R * 2 ^ Z.max 0 g < 2 ^ 63 * 2 ^ Z.max 0 (- g) ->
    2 ^ ld_prec * 2 ^ Z.max 0 g <= 2 ^ 63 * 2 ^ Z.max 0 (- g)).
  { intros Hlt. rewrite <- !Z.pow_add_r by lia. apply Z.pow_le_mono_r; [lia|].
    assert (H1 : 2 ^ (ld_prec - 1 + Z.max 0 g) < 2 ^ (63 + Z.max 0 (- g))).
    { rewrite !Z.pow_add_r by lia. apply Z.le_lt_trans with (2 := Hlt).
      apply Z.mul_le_mono_nonneg_r; [apply Z.pow_nonneg|]; lia. }
    apply Z.pow_lt_mono_r_iff in H1; lia. }
  set (P := 2 ^ ld_prec) in *. set (H := 2 ^ (ld_prec - 1)) in *.
  assert (HG : 1 <= 2 ^ Z.max 0 g) by (change 1 with (2 ^ 0); apply Z.pow_le_mono_r; lia).
  assert (HF : 1 <= 2 ^ Z.max 0 (- g)) by (change 1 with (2 ^ 0); apply Z.pow_le_mono_r; lia).
  assert (Hone : 2 ^ Z.max 0 g = 1 \/ 2 ^ Z.max 0 (- g) = 1).
  { destruct (Z.le_gt_cases g 0); [left|right]; [replace (Z.max 0 g) with 0 by lia|
      replace (Z.max 0 (- g)) with 0 by lia]; done. }
  set (G := 2 ^ Z.max 0 g) in *. set (F := 2 ^ Z.max 0 (- g)) in *.
  assert (HPpos : 0 < P) by (apply Z.pow_pos_nonneg; lia).
  clearbody P H G F.
  assert (Ht : t * F <= R * G < (t + 1) * F).
  { pose proof (Z.div_mod (R * G) F ltac:(lia)). pose proof (Z.mod_pos_bound (R * G) F ltac:(lia)).
    fold t in H0. lia. }
  set (V := R * G) in *.
  assert (Hup : 2 * (V * S) <= 2 * (X * F) + S * G).
  { apply (Z.mul_le_mono_pos_r _ _ D HD). unfold V.
    assert (2 * (R * D) * (G * S) <= (2 * N + D) * (G * S)) by (apply Z.mul_le_mono_nonneg_r; nia).
    lia. }
  assert (Hlo : 2 * (X * F) <= 2 * (V * S) + S * G).
  { apply (Z.mul_le_mono_pos_r _ _ D HD). unfold V.
    assert ((2 * N - D) * (G * S) <= 2 * (R * D) * (G * S)) by (apply Z.mul_le_mono_nonneg_r; nia).
    lia. }
  assert (HtS : t * F * S <= V * S) by (apply Z.mul_le_mono_nonneg_r; lia).
  assert (HtS' : V * S < (t + 1) * F * S) by (apply Z.mul_lt_mono_pos_r; lia). split_and!.
  - intros Hsmall. assert (HPG : P * G <= 2 ^ 63 * F) by (apply Hgf; nia).
    assert (HPGS : P * G * S <= 2 ^ 63 * F * S) by (apply Z.mul_le_mono_nonneg_r; lia). split.
    + apply (Z.mul_le_mono_pos_r _ _ (2 * F)); [lia|].
      assert (P * (2 * (t * F * S)) <= P * (2 * (X * F) + S * G))
        by (apply Z.mul_le_mono_nonneg_l; lia). lia.
    + apply (Z.mul_lt_mono_pos_r (2 * F)); [lia|].
      assert (P * (2 * (X * F)) < P * (2 * ((t + 1) * F * S) + S * G))
        by (apply Z.mul_lt_mono_pos_l; lia). lia.
  - intros Hbig. apply (Z.mul_le_mono_pos_r _ _ (2 * F)); [lia|].
    assert (H1 : P * (2 * (V * S)) <= P * (2 * (X * F) + S * G))
      by (apply Z.mul_le_mono_nonneg_l; lia).
    assert (H2 : P * (G * S) <= 2 * R * (G * S)) by (apply Z.mul_le_mono_nonneg_r; nia).
    assert (H3 : 2 ^ 63 * F * S * (P - 1) <= V * S * (P - 1)).
    { apply Z.mul_le_mono_nonneg_r; [lia|]. apply Z.mul_le_mono_nonneg_r; [lia|]. nia. }
    unfold V in *. lia.
  - intros t0 -> Ht0. assert (HN' : N * G = t0 * D * F) by nia.
    destruct Hone as [-> | ->].
    + assert (R = t0 * F) as HRt by nia. unfold t, V. rewrite HRt, Z.mul_1_r. apply Z.div_mul. lia.
    + exfalso. assert (D * 1 <= D * R) by (apply Z.mul_le_mono_nonneg_l; lia).
      assert (N * 1 <= N * G) by (apply Z.mul_le_mono_nonneg_l; lia).
      assert (D * (2 * R) <= D * (2 * t0 + 1)) by lia.
      assert (2 * R <= 2 * t0 + 1) by (apply (Z.mul_le_mono_pos_l _ _ D); lia). lia.
Qed.

Lemma ld_of_double_value x : double_wf x -> isfinite x = true -> 0 < dval x ->
  exists m e, ld_of_double ld_prec ld_emax x = S754_finite false m e /\
    2 ^ (ld_prec - 1) <= Zpos m < 2 ^ ld_prec /\ - 1074 - ld_prec <= e <= 971 /\
    Zpos m * 2 ^ (e + 1074 + ld_prec) = dval x * 2 ^ ld_prec.
Proof.
  intros Hwf Hfin Hpos. destruct x as [| | |[] m e]; try done; cbn [dval] in Hpos.
  { exfalso. assert (0 <= 2 ^ (e + 1074)) by (apply Z.pow_nonneg; lia). lia. }
  assert (Hb : e <= 971).
  { unfold double_wf, valid_binary, bounded in Hwf. apply andb_true_iff in Hwf as [_ Hwf].
    apply Z.leb_le in Hwf. exact Hwf. }
  apply double_wf_finite in Hwf as (He & Hm & _).
  assert (Hd : 1 <= Zdigits2 (Zpos m) <= 53).
  { destruct (digits_bounds (Zpos m)) as [H1 H2]; [done|]. split; [lia|].
    destruct (Z.le_gt_cases (Zdigits2 (Zpos m)) 53) as [|Hgt]; [done|].
    pose proof (Z.pow_le_mono_r 2 53 (Zdigits2 (Zpos m) - 1)). lia. }
  assert (Hp : 2 ^ 53 <= 2 ^ ld_prec) by (apply Z.pow_le_mono_r; lia).
  destruct (round_exact ld_prec ld_emax ltac:(lia) false (Zpos m) 0 e) as
    (m' & e' & Hr & He' & Hm' & Hv); rewrite ?Z.mul_1_r in *; [lia|done|lia|lia|].
  cbn [Z.to_pos] in Hr. exists m', e'. cbn [ld_of_double]. rewrite Hr.
  split; [done|]. split; [done|].
  specialize (Hv (1074 + ld_prec) ltac:(lia) ltac:(lia)).
  assert (Hv' : Zpos m' * 2 ^ (e' + 1074 + ld_prec) = dval (S754_finite false m e) * 2 ^ ld_prec).
  { cbn [dval]. rewrite Z.mul_1_l, <- Z.mul_assoc, <- Z.pow_add_r by lia.
    rewrite <- Z.add_assoc, Hv. do 2 f_equal. lia. }
  split; [|done]. split; [lia|].
  destruct (Z.le_gt_cases e' 971) as [|Hgt]; [done|exfalso].
  assert (H1 : 2 ^ (e + 53 + 1074 + ld_prec) <= 2 ^ (ld_prec - 1) * 2 ^ (e' + 1074 + ld_prec)).
  { rewrite <- Z.pow_add_r by lia. apply Z.pow_le_mono_r; lia. }
  assert (H2 : 2 ^ (ld_prec - 1) * 2 ^ (e' + 1074 + ld_prec) <= Zpos m' * 2 ^ (e' + 1074 + ld_prec)).
  { apply Z.mul_le_mono_nonneg_r; [apply Z.pow_nonneg; lia|lia]. }
  assert (H3 : Zpos m * 2 ^ (e + (1074 + ld_prec)) < 2 ^ (e + 53 + 1074 + ld_prec)).
  { replace (e + 53 + 1074 + ld_prec) with (53 + (e + (1074 + ld_prec))) by lia.
    rewrite (Z.pow_add_r 2 53) by lia. apply Z.mul_lt_mono_pos_r; [apply Z.pow_pos_nonneg; lia|lia]. }
  replace (e' + 1074 + ld_prec) with (e' + (1074 + ld_prec)) in H1, H2 by lia.
  rewrite Hv in H2. lia.
Qed.

(** Rounding to the format keeps the order of quotients. *)
Lemma rounded_order N1 D1 a1 N2 D2 a2 : 0 < D1 -> 0 < D2 -> 0 <= a1 -> 0 <= a2 ->
  2 ^ (ld_prec - 1) * D1 <= N1 < 2 ^ ld_prec * D1 ->
  2 ^ (ld_prec - 1) * D2 <= N2 < 2 ^ ld_prec * D2 ->
  N1 * D2 * 2 ^ a1 <= N2 * D1 * 2 ^ a2 -> rne N1 D1 * 2 ^ a1 <= rne N2 D2 * 2 ^ a2.
Proof.
  intros HD1 HD2 Ha1 Ha2 Hn1 Hn2 Hle.
  assert (HP : 2 ^ ld_prec = 2 * 2 ^ (ld_prec - 1))
    by (rewrite <- Z.pow_succ_r by lia; f_equal; lia).
  assert (HH : 0 < 2 ^ (ld_prec - 1)) by (apply Z.pow_pos_nonneg; lia).
  assert (Hp1 : 0 < 2 ^ a1) by (by apply Z.pow_pos_nonneg).
  assert (Hp2 : 0 < 2 ^ a2) by (by apply Z.pow_pos_nonneg).
  destruct (Z.lt_trichotomy a1 a2) as [Hlt|[->|Hgt]].
  - pose proof (rne_mono N1 (2 ^ ld_prec * D1) D1 HD1 ltac:(lia)) as H1.
    pose proof (rne_mono (2 ^ (ld_prec - 1) * D2) N2 D2 HD2 ltac:(lia)) as H2.
    rewrite rne_exact in H1, H2 by done.
    assert (H12 : 2 * 2 ^ a1 <= 2 ^ a2)
      by (rewrite <- Z.pow_succ_r by lia; apply Z.pow_le_mono_r; lia).
    set (H := 2 ^ (ld_prec - 1)) in *.
    transitivity (H * (2 * 2 ^ a1)); [|transitivity (H * 2 ^ a2)]; nia.
  - assert (Hx : N1 * D2 <= N2 * D1) by (apply (Z.mul_le_mono_pos_r _ _ (2 ^ a2)); lia).
    pose proof (rne_mono _ _ (D1 * D2) ltac:(lia) Hx) as Hr.
    rewrite rne_scale, (Z.mul_comm D1 D2), rne_scale in Hr by lia. nia.
  - exfalso. assert (H12 : 2 * 2 ^ a2 <= 2 ^ a1)
      by (rewrite <- Z.pow_succ_r by lia; apply Z.pow_le_mono_r; lia).
    set (H := 2 ^ (ld_prec - 1)) in *.
    assert (E1 : H * D1 * D2 * (2 * 2 ^ a2) <= N1 * D2 * 2 ^ a1).
    { apply Z.mul_le_mono_nonneg; [nia| |lia|lia]. apply Z.mul_le_mono_nonneg_r; lia. }
    assert (E2 : N2 * D1 * 2 ^ a2 < 2 * H * D2 * D1 * 2 ^ a2).
    { apply Z.mul_lt_mono_pos_r; [lia|]. apply Z.mul_lt_mono_pos_r; lia. }
    lia.
Qed.

(** The rounded quotient of two mantissas of full width. *)
Lemma div_rounded mx ex my ey :
  2 ^ (ld_prec - 1) <= Zpos mx < 2 ^ ld_prec -> 2 ^ (ld_prec - 1) <= Zpos my < 2 ^ ld_prec ->
  - ld_prec <= ex <= 64 -> - 1074 - ld_prec <= ey <= 971 ->
  exists m e' j, 0 <= j <= 1 /\
    SFdiv ld_prec ld_emax (S754_finite false mx ex) (S754_finite false my ey) = S754_finite false m e' /\
    ex - ey - ld_prec + j <= e' /\ 2 ^ (ld_prec - 1) <= Zpos m /\
    Zpos m * 2 ^ (e' - (ex - ey - ld_prec + j)) = rne (Zpos mx * 2 ^ ld_prec) (Zpos my * 2 ^ j) /\
    2 ^ (ld_prec - 1) * (Zpos my * 2 ^ j) <= Zpos mx * 2 ^ ld_prec < 2 ^ ld_prec * (Zpos my * 2 ^ j).
Proof.
  intros Hx Hy Hex Hey. unfold SFdiv, SFdiv_core_binary.
  rewrite !(digits_unique (Zpos _) ld_prec) by lia.
  rewrite (fexp_above ld_prec ld_emax) by lia.
  replace (Z.min (ld_prec + ex - (ld_prec + ey) - ld_prec) (ex - ey)) with (ex - ey - ld_prec) by lia.
  replace (ex - ey - (ex - ey - ld_prec)) with ld_prec by lia.
  set (N := Zpos mx * 2 ^ ld_prec). set (D := Zpos my) in *.
  assert (Hnum : match ld_prec with 0 => Zpos mx | Zpos _ => Z.shiftl (Zpos mx) ld_prec | Zneg _ => 0 end = N).
  { unfold N. rewrite <- Z.shiftl_mul_pow2 by lia. destruct ld_prec; lia || done. }
  rewrite Hnum. assert (Hqr : Z.div_eucl N D = (N / D, N mod D))
    by (unfold Z.div, Z.modulo; by destruct (Z.div_eucl N D)).
  rewrite Hqr. cbn [xorb].
  assert (Hpp : 2 ^ ld_prec = 2 * 2 ^ (ld_prec - 1))
    by (rewrite <- Z.pow_succ_r by lia; f_equal; lia).
  set (H := 2 ^ (ld_prec - 1)) in *. assert (HH : 0 < H) by (apply Z.pow_pos_nonneg; lia).
  assert (Hq : H <= N / D < 4 * H).
  { split; [apply Z.div_le_lower_bound|apply Z.div_lt_upper_bound]; unfold N; rewrite ?Hpp; nia. }
  assert (Hd : ld_prec <= Zdigits2 (N / D) <= ld_prec + 1).
  { destruct (digits_bounds (N / D)) as [Hb _]; [lia|]. set (d := Zdigits2 (N / D)) in *. split.
    - destruct (Z.le_gt_cases ld_prec d) as [|Hlt]; [done|].
      pose proof (Z.pow_le_mono_r 2 d (ld_prec - 1)). unfold H in Hq. lia.
    - destruct (Z.le_gt_cases d (ld_prec + 1)) as [|Hgt]; [done|].
      pose proof (Z.pow_le_mono_r 2 (ld_prec + 1) (d - 1)) as Hle.
      rewrite (Z.pow_add_r 2 ld_prec 1), Hpp in Hle by lia. lia. }
  destruct (round_aux_rne ld_prec ld_emax ltac:(lia) false N D (ex - ey - ld_prec)
    (new_location D (N mod D))) as (m & e' & Hr & He' & Hv & Hm);
    [lia|unfold N; nia|lia|apply stands_for_quotient; lia|lia|lia|].
  exists m, e', (Zdigits2 (N / D) - ld_prec). split_and!; [lia|lia|exact Hr|exact He'|lia|exact Hv| |].
  - destruct (digits_bounds (N / D)) as [[Hb _] _]; [lia|].
    unfold H. rewrite (Z.mul_comm D), Z.mul_assoc, <- Z.pow_add_r by lia.
    replace (ld_prec - 1 + (Zdigits2 (N / D) - ld_prec)) with (Zdigits2 (N / D) - 1) by lia.
    pose proof (Z.mul_div_le N D ltac:(lia)). nia.
  - destruct (digits_bounds (N / D)) as [[_ Hb] _]; [lia|].
    rewrite (Z.mul_comm D), Z.mul_assoc, <- Z.pow_add_r by lia.
    replace (ld_prec + (Zdigits2 (N / D) - ld_prec)) with (Zdigits2 (N / D)) by lia.
    pose proof (Z.mul_succ_div_gt N D ltac:(lia)). nia.
Qed.
End extended.
