(* ===== verification/Telemetry.v ===== *)
(** * Telemetry: the messages of [proto/traceforge/v1/telemetry.proto], the
    [CollectedEvent] of [collector_service.hpp], and the interface of the
    generated Protobuf codec.

    Enumerations of proto3 are open: a field of enumeration type holds any
    integer, and the generated [_IsValid] functions test the declared values. *)
From Stdlib Require Import ZArith Lia.
From stdpp Require Import base gmap strings list.
From S2P Require Import Prelude Bytes Floats.
Local Open Scope Z_scope.

(** [enum ClockDomain] *)
Definition CLOCK_DOMAIN_UNSPECIFIED : Z := 0.
Definition CLOCK_DOMAIN_UTC : Z := 1.
Definition CLOCK_DOMAIN_DEVICE_MONOTONIC : Z := 2.
Definition ClockDomain_IsValid (v : Z) : bool := (0 <=? v) && (v <=? 2).

Record Vector3 := { vec_x : double; vec_y : double; vec_z : double }.

Record GpsFix := {
  latitude_degrees : double;
  longitude_degrees : double;
  horizontal_accuracy_meters : double;
  is_mocked : bool;
}.

Record Temperature := { degrees_celsius : double }.

Record CameraMetadata := {
  frame_number : Z;
  width_pixels : Z;
  height_pixels : Z;
  exposure_time_ns : Z;
}.

(** [ControllerStatus.State] *)
Definition STATE_UNSPECIFIED : Z := 0.
Definition STATE_INITIALIZING : Z := 1.
Definition STATE_READY : Z := 2.
Definition STATE_DEGRADED : Z := 3.
Definition STATE_STOPPED : Z := 4.
Definition ControllerStatus_State_IsValid (v : Z) : bool := (0 <=? v) && (v <=? 4).

Record ControllerStatus := { controller_state : Z; controller_detail : string }.

(** [FaultEvent.Severity] *)
Definition SEVERITY_UNSPECIFIED : Z := 0.
Definition SEVERITY_WARNING : Z := 1.
Definition SEVERITY_ERROR : Z := 2.
Definition SEVERITY_CRITICAL : Z := 3.
Definition FaultEvent_Severity_IsValid (v : Z) : bool := (0 <=? v) && (v <=? 3).

Record FaultEvent := { fault_severity : Z; fault_code : Z; fault_message : string }.

(** The [oneof payload] of a [TelemetryEvent]; the constructors are the values
    of the generated [PayloadCase]. *)
Inductive Payload :=
  | PAYLOAD_NOT_SET
  | kAccelerometer (accelerometer : Vector3)
  | kGyroscope (gyroscope : Vector3)
  | kGps (gps : GpsFix)
  | kTemperature (temperature : Temperature)
  | kCamera (camera : CameraMetadata)
  | kControllerStatus (controller_status : ControllerStatus)
  | kFault (fault : FaultEvent).

Record TelemetryEvent := {
  schema_version : Z;
  producer_id : string;
  sequence_number : Z;
  source_timestamp_ns : Z;
  source_clock : Z;
  payload : Payload;
}.

Record StreamSummary := {
  summary_producer_id : string;
  summary_accepted_events : Z;
  summary_first_sequence_number : Z;
  summary_last_sequence_number : Z;
  summary_sequence_gaps : Z;
}.

(** A default-constructed (or cleared) event. *)
Definition TelemetryEvent_default : TelemetryEvent := {|
  schema_version := 0; producer_id := ""; sequence_number := 0;
  source_timestamp_ns := 0; source_clock := CLOCK_DOMAIN_UNSPECIFIED;
  payload := PAYLOAD_NOT_SET |}.

Definition StreamSummary_default : StreamSummary := {|
  summary_producer_id := ""; summary_accepted_events := 0;
  summary_first_sequence_number := 0; summary_last_sequence_number := 0;
  summary_sequence_gaps := 0 |}.

(** [telemetry::CollectedEvent] *)
Record CollectedEvent := {
  event : TelemetryEvent;
  collector_arrival_timestamp_ns : Z;
}.

#[export] Instance Vector3_eq_dec : EqDecision Vector3.
Proof. solve_decision. Defined.
#[export] Instance GpsFix_eq_dec : EqDecision GpsFix.
Proof. solve_decision. Defined.
#[export] Instance Temperature_eq_dec : EqDecision Temperature.
Proof. solve_decision. Defined.
#[export] Instance CameraMetadata_eq_dec : EqDecision CameraMetadata.
Proof. solve_decision. Defined.
#[export] Instance ControllerStatus_eq_dec : EqDecision ControllerStatus.
Proof. solve_decision. Defined.
#[export] Instance FaultEvent_eq_dec : EqDecision FaultEvent.
Proof. solve_decision. Defined.
#[export] Instance Payload_eq_dec : EqDecision Payload.
Proof. solve_decision. Defined.
#[export] Instance TelemetryEvent_eq_dec : EqDecision TelemetryEvent.
Proof. solve_decision. Defined.
#[export] Instance CollectedEvent_eq_dec : EqDecision CollectedEvent.
Proof. solve_decision. Defined.

(** ** Typing of the messages: what the C++ field types guarantee *)

Definition Vector3_wf (v : Vector3) : Prop :=
  double_wf (vec_x v) /\ double_wf (vec_y v) /\ double_wf (vec_z v).

Definition payload_wf (p : Payload) : Prop :=
  match p with
  | PAYLOAD_NOT_SET => True
  | kAccelerometer v | kGyroscope v => Vector3_wf v
  | kGps g =>
      double_wf (latitude_degrees g) /\ double_wf (longitude_degrees g) /\
      double_wf (horizontal_accuracy_meters g)
  | kTemperature t => double_wf (degrees_celsius t)
  | kCamera c =>
      in_u64 (frame_number c) /\ in_u32 (width_pixels c) /\
      in_u32 (height_pixels c) /\ in_u64 (exposure_time_ns c)
  | kControllerStatus _ => True
  | kFault f => in_u32 (fault_code f)
  end.

Record event_wf (ev : TelemetryEvent) : Prop := {
  wf_schema : in_u32 (schema_version ev);
  wf_sequence : in_u64 (sequence_number ev);
  wf_timestamp : in_s64 (source_timestamp_ns ev);
  wf_payload : payload_wf (payload ev);
}.

(** ** The generated codec

    [SerializeToString] and [ParseFromArray] are generated by protoc and are
    not part of the repository; the recording and replay code uses them through
    this interface. *)
Class EventCodec := {
  SerializeToString : TelemetryEvent -> option bytes;
  ParseFromArray : bytes -> option TelemetryEvent;
}.

(** The documented behaviour the recorder relies on: parsing the bytes of a
    serialised event yields that event. (Protobuf's parser refuses strings that
    are not UTF-8 while the serialiser does not, so the law is asked only of
    the events a [wire_ok] predicate admits.) *)
Class EventCodecLaws (codec : EventCodec) (wire_ok : TelemetryEvent -> Prop) := {
  parse_serialize : forall ev bs,
    wire_ok ev -> SerializeToString ev = Some bs -> ParseFromArray bs = Some ev;
}.

(** ** A codec over a finite table of messages, to instantiate the interface *)
Section table_codec.
Context (table : list (TelemetryEvent * bytes)).

Definition table_codec : EventCodec := {|
  SerializeToString ev := (fun p => p.2.2) <$> list_find (fun p => p.1 = ev) table;
  ParseFromArray bs := (fun p => p.2.1) <$> list_find (fun p => p.2 = bs) table;
|}.

Lemma table_codec_laws : NoDup table.*2 -> EventCodecLaws table_codec (fun _ => True).
Proof.
  intros Hnd. split. intros ev bs _. cbn.
  intros ([i [ev' bs']] & Hi & Hbs)%fmap_Some_1; cbn in Hbs; subst bs.
  apply list_find_Some in Hi as (Hi & Hev & _). cbn in Hev; subst ev'.
  destruct (list_find_elem_of (fun p => p.2 = bs') table (ev, bs')) as [[j p] Hj].
  { by eapply list_elem_of_lookup_2. } { done. }
  cbn [snd]. rewrite Hj; cbn. f_equal.
  apply list_find_Some in Hj as (Hj & Hbs & _).
  assert (j = i) as ->; [|by rewrite Hi in Hj; injection Hj as <-].
  eapply NoDup_lookup; [exact Hnd| |]; rewrite list_lookup_fmap, ?Hj, ?Hi; cbn; by rewrite ?Hbs.
Qed.
End table_codec.
