(* ===== verification/Validation.v ===== *)
(** * Validation: [StreamValidator] of [src/telemetry/validation.cpp] *)
From Stdlib Require Import ZArith Lia.
From stdpp Require Import base gmap strings list sorting.
From S2P Require Import Prelude Bytes Floats Telemetry.
Local Open Scope Z_scope.
Local Open Scope tf_scope.

Definition kTelemetrySchemaVersion : Z := 1.
Definition kMaxProducerIdBytes : Z := 128.
Definition kMaxDetailBytes : Z := 1024.

Record ValidationResult := { accepted : bool; error : string }.

(** The private members of [StreamValidator]. *)
Record StreamValidator := {
  producer_id_ : string;
  accepted_events_ : Z;
  first_sequence_number_ : Z;
  last_sequence_number_ : Z;
  sequence_gaps_ : Z;
}.

Definition StreamValidator_init : StreamValidator := {|
  producer_id_ := ""; accepted_events_ := 0; first_sequence_number_ := 0;
  last_sequence_number_ := 0; sequence_gaps_ := 0 |}.

(** [std::string::size] *)
Definition str_size (s : string) : Z := Z.of_nat (String.length s).
Definition str_empty (s : string) : bool := bool_decide (s = "").

Definition accept_result : ValidationResult := {| accepted := true; error := "" |}.
Definition reject (reason : string) : ValidationResult :=
  {| accepted := false; error := reason |}.

Definition is_finite (v : Vector3) : bool :=
  isfinite (vec_x v) && isfinite (vec_y v) && isfinite (vec_z v).

Definition validate_payload (ev : TelemetryEvent) : ValidationResult :=
  match payload ev with
  | kAccelerometer v =>
      if is_finite v then accept_result
      else reject "accelerometer values must be finite"
  | kGyroscope v =>
      if is_finite v then accept_result
      else reject "gyroscope values must be finite"
  | kGps gps =>
      return_if negb (isfinite (latitude_degrees gps)) ||
                negb (isfinite (longitude_degrees gps)) ||
                negb (isfinite (horizontal_accuracy_meters gps))
        with reject "GPS values must be finite" ;;
      return_if dlt (latitude_degrees gps) (double_of_Z (-90)) ||
                dgt (latitude_degrees gps) (double_of_Z 90) ||
                dlt (longitude_degrees gps) (double_of_Z (-180)) ||
                dgt (longitude_degrees gps) (double_of_Z 180)
        with reject "GPS coordinates are outside valid bounds" ;;
      return_if dlt (horizontal_accuracy_meters gps) (double_of_Z 0)
        with reject "GPS accuracy cannot be negative" ;;
      accept_result
  | kTemperature t =>
      if isfinite (degrees_celsius t) then accept_result
      else reject "temperature must be finite"
  | kCamera camera =>
      return_if (width_pixels camera =? 0) || (height_pixels camera =? 0)
        with reject "camera dimensions must be non-zero" ;;
      accept_result
  | kControllerStatus status =>
      return_if negb (ControllerStatus_State_IsValid (controller_state status)) ||
                (controller_state status =? STATE_UNSPECIFIED)
        with reject "controller state must be specified" ;;
      return_if kMaxDetailBytes <? str_size (controller_detail status)
        with reject "controller detail is too long" ;;
      accept_result
  | kFault fault =>
      return_if negb (FaultEvent_Severity_IsValid (fault_severity fault)) ||
                (fault_severity fault =? SEVERITY_UNSPECIFIED)
        with reject "fault severity must be specified" ;;
      return_if kMaxDetailBytes <? str_size (fault_message fault)
        with reject "fault message is too long" ;;
      accept_result
  | PAYLOAD_NOT_SET => reject "event payload is required"
  end.

(** [StreamValidator::accept]: the verdict and the state after the call. *)
Definition accept (st : StreamValidator) (ev : TelemetryEvent)
    : ValidationResult * StreamValidator :=
  return_if negb (schema_version ev =? kTelemetrySchemaVersion)
    with (reject "unsupported telemetry schema version", st) ;;
  return_if str_empty (producer_id ev)
    with (reject "producer_id is required", st) ;;
  return_if kMaxProducerIdBytes <? str_size (producer_id ev)
    with (reject "producer_id is too long", st) ;;
  return_if negb (ClockDomain_IsValid (source_clock ev)) ||
            (source_clock ev =? CLOCK_DOMAIN_UNSPECIFIED)
    with (reject "source clock domain is required", st) ;;
  return_if source_timestamp_ns ev <=? 0
    with (reject "source timestamp must be positive", st) ;;
  return_if negb (str_empty (producer_id_ st)) &&
            negb (bool_decide (producer_id ev = producer_id_ st))
    with (reject "producer_id cannot change within a stream", st) ;;
  return_if (0 <? accepted_events_ st) &&
            (sequence_number ev <=? last_sequence_number_ st)
    with (reject "sequence numbers must increase within a stream", st) ;;
  let payload_result := validate_payload ev in
  return_if negb (accepted payload_result) with (payload_result, st) ;;
  let first := accepted_events_ st =? 0 in
  (accept_result,
   {| producer_id_ := if first then producer_id ev else producer_id_ st;
      accepted_events_ := u64 (accepted_events_ st + 1);
      first_sequence_number_ :=
        if first then sequence_number ev else first_sequence_number_ st;
      last_sequence_number_ := sequence_number ev;
      sequence_gaps_ :=
        if first then sequence_gaps_ st
        else u64 (sequence_gaps_ st +
                  u64 (sequence_number ev - last_sequence_number_ st - 1)) |}).

(** [StreamValidator::populate_summary] *)
Definition populate_summary (st : StreamValidator) : StreamSummary := {|
  summary_producer_id := producer_id_ st;
  summary_accepted_events := accepted_events_ st;
  summary_first_sequence_number := first_sequence_number_ st;
  summary_last_sequence_number := last_sequence_number_ st;
  summary_sequence_gaps := sequence_gaps_ st;
|}.

(** ** What an acceptable event is, stated without the code's guards *)

Definition double_between (lo hi : Z) (x : double) : Prop :=
  isfinite x = true /\ dval_of_Z lo <= dval x <= dval_of_Z hi.

Definition payload_admissible (p : Payload) : Prop :=
  match p with
  | PAYLOAD_NOT_SET => False
  | kAccelerometer v | kGyroscope v =>
      isfinite (vec_x v) = true /\ isfinite (vec_y v) = true /\ isfinite (vec_z v) = true
  | kGps g =>
      double_between (-90) 90 (latitude_degrees g) /\
      double_between (-180) 180 (longitude_degrees g) /\
      isfinite (horizontal_accuracy_meters g) = true /\
      0 <= dval (horizontal_accuracy_meters g)
  | kTemperature t => isfinite (degrees_celsius t) = true
  | kCamera c => width_pixels c <> 0 /\ height_pixels c <> 0
  | kControllerStatus s =>
      STATE_INITIALIZING <= controller_state s <= STATE_STOPPED /\
      str_size (controller_detail s) <= 1024
  | kFault f =>
      SEVERITY_WARNING <= fault_severity f <= SEVERITY_CRITICAL /\
      str_size (fault_message f) <= 1024
  end.

Record Admissible (st : StreamValidator) (ev : TelemetryEvent) : Prop := {
  adm_schema : schema_version ev = 1;
  adm_producer : 0 < str_size (producer_id ev) <= 128;
  adm_clock : source_clock ev = CLOCK_DOMAIN_UTC \/
              source_clock ev = CLOCK_DOMAIN_DEVICE_MONOTONIC;
  adm_timestamp : 0 < source_timestamp_ns ev;
  adm_same_producer : producer_id_ st = "" \/ producer_id ev = producer_id_ st;
  adm_increasing : accepted_events_ st = 0 \/
                   last_sequence_number_ st < sequence_number ev;
  adm_payload : payload_admissible (payload ev);
}.

Definition validator_wf (st : StreamValidator) : Prop :=
  in_u64 (accepted_events_ st) /\ in_u64 (first_sequence_number_ st) /\
  in_u64 (last_sequence_number_ st) /\ in_u64 (sequence_gaps_ st).

(** The state after an accepted event. *)
Definition admit_event (st : StreamValidator) (ev : TelemetryEvent) : StreamValidator :=
  if accepted_events_ st =? 0 then
    {| producer_id_ := producer_id ev; accepted_events_ := 1;
       first_sequence_number_ := sequence_number ev;
       last_sequence_number_ := sequence_number ev;
       sequence_gaps_ := sequence_gaps_ st |}
  else
    {| producer_id_ := producer_id_ st;
       accepted_events_ := u64 (accepted_events_ st + 1);
       first_sequence_number_ := first_sequence_number_ st;
       last_sequence_number_ := sequence_number ev;
       sequence_gaps_ :=
         u64 (sequence_gaps_ st +
              (sequence_number ev - last_sequence_number_ st - 1)) |}.

Section lemmas.
Lemma const_dval z : In z [-90; 90; -180; 180; 0] ->
  double_wf (double_of_Z z) /\ isfinite (double_of_Z z) = true /\
  dval (double_of_Z z) = dval_of_Z z.
Proof.
  cbn [In]; intros H.
  repeat destruct H as [<-|H]; try done; vm_compute; repeat split.
Qed.

Lemma below_const z x : In z [-90; 90; -180; 180; 0] -> double_wf x ->
  isfinite x = true -> dlt x (double_of_Z z) = false <-> dval_of_Z z <= dval x.
Proof.
  intros (?&?&Hv)%const_dval ??. rewrite dlt_false, Hv by done. done.
Qed.

Lemma above_const z x : In z [-90; 90; -180; 180; 0] -> double_wf x ->
  isfinite x = true -> dgt x (double_of_Z z) = false <-> dval x <= dval_of_Z z.
Proof.
  intros (?&?&Hv)%const_dval ??. unfold dgt. rewrite dlt_false, Hv by done. done.
Qed.

Lemma validate_payload_shape ev :
  validate_payload ev = accept_result \/
  exists reason, validate_payload ev = reject reason /\ reason <> "".
Proof.
  unfold validate_payload.
  destruct (payload ev); repeat case_if; eauto; right; eexists; done.
Qed.

Lemma gps_guards (a b c d e : bool) r1 r2 :
  accepted (if a || b || c || d then reject r1
            else if e then reject r2 else accept_result) = true <->
  a = false /\ b = false /\ c = false /\ d = false /\ e = false.
Proof. destruct a, b, c, d, e; cbn; intuition congruence. Qed.

Lemma gps_accepted g sv p sq ts ck : payload_wf (kGps g) ->
  accepted (validate_payload (Build_TelemetryEvent sv p sq ts ck (kGps g))) = true <->
  payload_admissible (kGps g).
Proof.
  intros (Wlat & Wlon & Wacc). unfold validate_payload, double_between; cbn.
  unfold double_between.
  destruct (isfinite (latitude_degrees g)) eqn:Flat; cbn; [|intuition congruence].
  destruct (isfinite (longitude_degrees g)) eqn:Flon; cbn; [|intuition congruence].
  destruct (isfinite (horizontal_accuracy_meters g)) eqn:Facc; cbn; [|intuition congruence].
  pose proof (below_const (-90) _ ltac:(cbn; tauto) Wlat Flat) as L1.
  pose proof (above_const 90 _ ltac:(cbn; tauto) Wlat Flat) as L2.
  pose proof (below_const (-180) _ ltac:(cbn; tauto) Wlon Flon) as L3.
  pose proof (above_const 180 _ ltac:(cbn; tauto) Wlon Flon) as L4.
  pose proof (below_const 0 _ ltac:(cbn; tauto) Wacc Facc) as L5.
  rewrite <- L1, <- L2, <- L3, <- L4. change 0 with (dval_of_Z 0). rewrite <- L5.
  rewrite gps_guards. tauto.
Qed.

Lemma validate_payload_spec ev : payload_wf (payload ev) ->
  accepted (validate_payload ev) = true <-> payload_admissible (payload ev).
Proof.
  destruct ev as [sv p sq ts ck [|v|v|g|t|c|s|f]]; cbn [payload]; intros W.
  4: by apply gps_accepted.
  all: unfold validate_payload, is_finite, ControllerStatus_State_IsValid,
    FaultEvent_Severity_IsValid, kMaxDetailBytes; cbn.
  - done.
  - destruct (isfinite (vec_x v)), (isfinite (vec_y v)), (isfinite (vec_z v)); intuition congruence.
  - destruct (isfinite (vec_x v)), (isfinite (vec_y v)), (isfinite (vec_z v)); intuition congruence.
  - destruct (isfinite (degrees_celsius t)); intuition congruence.
  - case_if; cbn; lia.
  - unfold STATE_INITIALIZING, STATE_STOPPED, STATE_UNSPECIFIED in *.
    repeat case_if; cbn; lia.
  - unfold SEVERITY_WARNING, SEVERITY_CRITICAL, SEVERITY_UNSPECIFIED in *.
    repeat case_if; cbn; lia.
Qed.
End lemmas.

(** ** One call *)

Section accept_lemmas.
Implicit Types (st : StreamValidator) (ev : TelemetryEvent).

Lemma str_size_pos s : str_empty s = false <-> 0 < str_size s.
Proof.
  unfold str_empty, str_size. rewrite bool_decide_eq_false.
  destruct s; cbn; split; intros; (done || lia).
Qed.

Local Ltac guard_fails :=
  right; split;
  [intros (?&?&?&?&?&?); lia | eexists; split; [done|cbn; tauto]].

(** The guards in front of the payload check, as one condition. *)
Lemma accept_guards st ev (k : ValidationResult * StreamValidator) r1 r2 r3 r4 r5 r6 r7 :
  let guarded :=
    if negb (schema_version ev =? kTelemetrySchemaVersion) then (reject r1, st)
    else if str_empty (producer_id ev) then (reject r2, st)
    else if kMaxProducerIdBytes <? str_size (producer_id ev) then (reject r3, st)
    else if negb (ClockDomain_IsValid (source_clock ev)) ||
            (source_clock ev =? CLOCK_DOMAIN_UNSPECIFIED) then (reject r4, st)
    else if source_timestamp_ns ev <=? 0 then (reject r5, st)
    else if negb (str_empty (producer_id_ st)) &&
            negb (bool_decide (producer_id ev = producer_id_ st)) then (reject r6, st)
    else if (0 <? accepted_events_ st) &&
            (sequence_number ev <=? last_sequence_number_ st) then (reject r7, st)
    else k in
  let header_ok :=
    schema_version ev = 1 /\ 0 < str_size (producer_id ev) <= 128 /\
    (source_clock ev = CLOCK_DOMAIN_UTC \/
     source_clock ev = CLOCK_DOMAIN_DEVICE_MONOTONIC) /\
    0 < source_timestamp_ns ev /\
    (producer_id_ st = "" \/ producer_id ev = producer_id_ st) /\
    (accepted_events_ st <= 0 \/ last_sequence_number_ st < sequence_number ev) in
  header_ok /\ guarded = k \/
  ~ header_ok /\ exists r, guarded = (reject r, st) /\
                           In r [r1; r2; r3; r4; r5; r6; r7].
Proof.
  unfold kTelemetrySchemaVersion, kMaxProducerIdBytes, ClockDomain_IsValid,
    CLOCK_DOMAIN_UNSPECIFIED, CLOCK_DOMAIN_UTC, CLOCK_DOMAIN_DEVICE_MONOTONIC.
  cbv zeta.
  destruct (schema_version ev =? 1) eqn:E1; cbn [negb];
    [|guard_fails].
  destruct (str_empty (producer_id ev)) eqn:E2.
  { right; split; [|eexists; split; [done|cbn; tauto]].
    intros (_ & [Hp _] & _). apply str_size_pos in Hp. congruence. }
  apply str_size_pos in E2.
  destruct (128 <? _) eqn:E3; [guard_fails|].
  destruct (negb _ || _) eqn:E4; [guard_fails|].
  destruct (source_timestamp_ns ev <=? 0) eqn:E5;
    [guard_fails|].
  assert (E6 : negb (str_empty (producer_id_ st)) &&
               negb (bool_decide (producer_id ev = producer_id_ st)) = false <->
               (producer_id_ st = "" \/ producer_id ev = producer_id_ st)).
  { unfold str_empty. do 2 case_bool_decide; cbn; intuition congruence. }
  destruct (negb _ && negb _).
  { right; split; [|eexists; split; [done|cbn; tauto]].
    intros (_ & _ & _ & _ & ?%E6 & _). done. }
  destruct ((0 <? accepted_events_ st) && _) eqn:E7; [guard_fails|].
  left; split; [|done]. clear r1 r2 r3 r4 r5 r6 r7. split_and!; try lia. by apply E6.
Qed.

Lemma accept_cases st ev : validator_wf st -> event_wf ev ->
  Admissible st ev /\ accept st ev = (accept_result, admit_event st ev) \/
  ~ Admissible st ev /\
  exists reason, accept st ev = (reject reason, st) /\ reason <> "".
Proof.
  intros (Ha & _ & Hl & _) Hev. unfold accept.
  match goal with |- context [(accept_result, ?s)] => set (next := s) end.
  match goal with |- context [if negb (accepted _) then ?x else ?y] =>
    set (k := if negb (accepted (validate_payload ev)) then x else y) end.
  edestruct (accept_guards st ev k) as [[Hok ->]|[Hno (r & -> & Hr)]]; cycle 1.
  { right; split; [|exists r; split; [done|]].
    - intros []. apply Hno. repeat split; try done; intuition lia.
    - cbn in Hr. intros ->. by repeat destruct Hr as [Hr|Hr]. }
  destruct Hok as (?&?&?&?&?&Hseq).
  pose proof (validate_payload_spec ev (wf_payload _ Hev)) as Hp. subst k.
  destruct (validate_payload_shape ev) as [Hv|(r & Hv & Hr)]; rewrite Hv in *; cbn in *.
  - left. assert (Hadm : Admissible st ev).
    { split; try done; [|by apply Hp]. unfold in_u64 in Ha. intuition lia. }
    split; [done|]. f_equal. subst next. unfold admit_event.
    destruct (accepted_events_ st =? 0) eqn:E; f_equal.
    + by replace (accepted_events_ st) with 0 by lia.
    + destruct (adm_increasing _ _ Hadm); [lia|].
      rewrite (u64_small (_ - _ - 1)); [done|].
      pose proof (wf_sequence _ Hev). tf_arith.
  - right; split; [|by exists r]. intros Hadm. apply adm_payload in Hadm.
    apply Hp in Hadm. done.
Qed.

Lemma admit_event_wf st ev : validator_wf st -> event_wf ev ->
  validator_wf (admit_event st ev).
Proof.
  intros (?&?&?&?) Hev. pose proof (wf_sequence _ Hev).
  unfold admit_event, validator_wf; case_if; cbn; repeat split;
    try apply u64_range; tf_arith.
Qed.

Lemma accept_wf st ev : validator_wf st -> event_wf ev ->
  validator_wf (snd (accept st ev)).
Proof.
  intros Hst Hev.
  destruct (accept_cases st ev Hst Hev) as [[_ ->]|[_ (r & -> & _)]]; [|done].
  by apply admit_event_wf.
Qed.
End accept_lemmas.

(** ** A whole stream *)

(** The calls of one stream in order; returns the events that were accepted. *)
Fixpoint accept_stream (st : StreamValidator) (evs : list TelemetryEvent)
    : list TelemetryEvent * StreamValidator :=
  match evs with
  | [] => ([], st)
  | ev :: evs' =>
      let '(result, st') := accept st ev in
      let '(acc, st'') := accept_stream st' evs' in
      ((if accepted result then ev :: acc else acc), st'')
  end.

Lemma accept_stream_length evs : forall st, (length (accept_stream st evs).1 <= length evs)%nat.
Proof.
  induction evs as [|ev evs IH]; intros st; cbn [accept_stream]; [done|].
  destruct (accept st ev) as [res st']. specialize (IH st').
  destruct (accept_stream st' evs) as [acc st'']. destruct (accepted res); cbn in *; lia.
Qed.

(** The sequence numbers from the first to the last accepted event that no
    accepted event carries. *)
Definition missing_sequences (first last : Z) (seqs : list Z) : list Z :=
  filter (fun n => n ∉ seqs) (seqZ first (last - first + 1)).

(** What the counters say of the events accepted so far. *)
Record nonempty_inv (st : StreamValidator) (acc : list TelemetryEvent) : Prop := {
  inv_producer : Forall (fun ev => producer_id ev = producer_id_ st) acc;
  inv_named : producer_id_ st <> "";
  inv_first : head (sequence_number <$> acc) = Some (first_sequence_number_ st);
  inv_last : last (sequence_number <$> acc) = Some (last_sequence_number_ st);
  inv_sorted : StronglySorted Z.lt (sequence_number <$> acc);
  inv_bounds : forall s, s ∈ sequence_number <$> acc -> s <= last_sequence_number_ st;
  inv_range : first_sequence_number_ st <= last_sequence_number_ st;
  inv_gaps : sequence_gaps_ st =
    last_sequence_number_ st - first_sequence_number_ st + 1 - Zlength acc;
  inv_missing : sequence_gaps_ st = Zlength
    (missing_sequences (first_sequence_number_ st) (last_sequence_number_ st)
       (sequence_number <$> acc));
}.

Record stream_inv (st : StreamValidator) (acc : list TelemetryEvent) : Prop := {
  inv_wf : validator_wf st;
  inv_count : accepted_events_ st = Zlength acc;
  inv_empty : acc = [] -> st = StreamValidator_init;
  inv_nonempty : acc <> [] -> nonempty_inv st acc;
}.

Section streams.
Lemma stream_inv_init : stream_inv StreamValidator_init [].
Proof. split; try done. Qed.

Lemma missing_snoc first last s seqs :
  first <= last -> last < s -> (forall n, n ∈ seqs -> n <= last) ->
  missing_sequences first s (seqs ++ [s]) =
    missing_sequences first last seqs ++ seqZ (last + 1) (s - last - 1).
Proof.
  intros Hfl Hls Hb. unfold missing_sequences.
  replace (s - first + 1) with ((last - first + 1) + ((s - last - 1) + 1)) by lia.
  rewrite (seqZ_app first), (seqZ_app (first + (last - first + 1)) (s - last - 1)),
    !filter_app by lia.
  replace (first + (last - first + 1)) with (last + 1) by lia.
  f_equal; [|rewrite <- (app_nil_r (seqZ _ _)); f_equal].
  - apply filter_ext_elem. intros n ?%elem_of_seqZ.
    rewrite elem_of_app, list_elem_of_singleton. intuition lia.
  - rewrite app_nil_r. apply filter_all. intros n ?%elem_of_seqZ.
    rewrite elem_of_app, list_elem_of_singleton. intros [?%Hb|?]; lia.
  - replace (last + 1 + (s - last - 1)) with s by lia.
    change 1 with (Z.of_nat 1). rewrite seqZ_S. cbn. rewrite Z.add_0_r.
    apply (filter_singleton_False _ _ []). rewrite elem_of_app. set_solver.
Qed.

Lemma stream_inv_first st ev : stream_inv st [] -> event_wf ev ->
  Admissible st ev -> stream_inv (admit_event st ev) [ev].
Proof.
  intros Hinv Hev Hadm. pose proof (inv_empty _ _ Hinv eq_refl) as ->.
  split; try done.
  - apply admit_event_wf; [by destruct Hinv|done].
  - intros _. unfold admit_event, StreamValidator_init; cbn. split; cbn; try done.
    + by repeat constructor.
    + destruct (adm_producer _ _ Hadm) as [Hp _].
      intros H0; rewrite H0 in Hp; done.
    + by repeat constructor.
    + intros s ?%list_elem_of_singleton. lia.
    + lia.
    + unfold missing_sequences. rewrite Z.sub_diag.
      change (0 + 1) with (Z.of_nat 1). rewrite seqZ_S, app_nil_l, Z.add_0_r.
      rewrite (filter_singleton_False _ _ []); [done|].
      rewrite list_elem_of_singleton. lia.
Qed.

Lemma stream_inv_next st acc ev : acc <> [] -> stream_inv st acc -> event_wf ev ->
  Admissible st ev -> Zlength acc + 1 < 2 ^ 64 ->
  stream_inv (admit_event st ev) (acc ++ [ev]).
Proof.
  intros Hne Hinv Hev Hadm Hlen. destruct Hinv as [Hwf Hc _ Hn].
  destruct (Hn Hne) as [Hp Hnm Hf Hl Hs Hb Hr Hg Hm].
  assert (Hpos : 0 < Zlength acc) by (destruct acc; [done|cbn; lia]).
  assert (Hlt : last_sequence_number_ st < sequence_number ev).
  { destruct (adm_increasing _ _ Hadm); [lia|done]. }
  pose proof (admit_event_wf st ev Hwf Hev) as Hwf'.
  unfold admit_event in *. destruct (accepted_events_ st =? 0) eqn:E; [lia|].
  split; cbn; [done| |by destruct acc|].
  { rewrite length_app; cbn. rewrite u64_small; [lia|]. tf_arith. }
  intros _. pose proof (wf_sequence _ Hev) as Hsq. destruct Hwf as (_&Hf0&Hl0&_).
  assert (Hgaps : u64 (sequence_gaps_ st +
      (sequence_number ev - last_sequence_number_ st - 1)) =
      sequence_number ev - first_sequence_number_ st + 1 - Zlength (acc ++ [ev])).
  { rewrite length_app; cbn. rewrite u64_small; tf_arith. }
  split; cbn; rewrite ?Hgaps, ?fmap_app.
  - apply Forall_app; split; [done|]. repeat constructor.
    by destruct (adm_same_producer _ _ Hadm).
  - done.
  - by rewrite head_app, Hf.
  - apply last_snoc.
  - apply StronglySorted_app; split; [|split; [done|by repeat constructor]].
    intros x y ?%Hb ->%list_elem_of_singleton. lia.
  - intros s [?%Hb| ->%list_elem_of_singleton]%elem_of_app; lia.
  - lia.
  - done.
  - rewrite (missing_snoc _ (last_sequence_number_ st)) by done.
    rewrite (length_app (missing_sequences _ _ _)), length_seqZ, Nat2Z.inj_add, <- Hm, Hg.
    rewrite length_app; cbn. lia.
Qed.
End streams.

Section stream_lemmas.
Lemma accept_stream_inv evs : forall st acc acc' st',
  stream_inv st acc -> Forall event_wf evs ->
  Zlength acc + Zlength evs < 2 ^ 64 ->
  accept_stream st evs = (acc', st') -> stream_inv st' (acc ++ acc').
Proof.
  induction evs as [|ev evs IH]; intros st acc acc' st' Hinv Hwf Hlen; cbn.
  { intros [= <- <-]. by rewrite app_nil_r. }
  apply Forall_cons in Hwf as [Hev Hwf]. cbn [length] in Hlen.
  destruct (accept_cases st ev (inv_wf _ _ Hinv) Hev)
    as [[Hadm ->]|[_ (r & -> & _)]]; cbn [accepted accept_result reject].
  - destruct (accept_stream (admit_event st ev) evs) as [acc1 st1] eqn:E.
    intros [= <- <-]. rewrite cons_middle, app_assoc.
    eapply IH; [|done| |done]; [|rewrite length_app; cbn; lia].
    destruct (decide (acc = [])) as [->|].
    + by apply stream_inv_first.
    + apply stream_inv_next; try done. lia.
  - destruct (accept_stream st evs) as [acc1 st1] eqn:E. intros [= <- <-].
    eapply IH; [done|done| |done]. lia.
Qed.
End stream_lemmas.

(** An event of the temperature stream, for the examples. *)
Definition sample_event (producer : string) (seq ts : Z) : TelemetryEvent := {|
  schema_version := 1; producer_id := producer; sequence_number := seq;
  source_timestamp_ns := ts; source_clock := CLOCK_DOMAIN_UTC;
  payload := kTemperature {| degrees_celsius := double_of_Z 40 |} |}.

Lemma sample_event_wf producer seq ts : in_u64 seq -> in_s64 ts ->
  event_wf (sample_event producer seq ts).
Proof. split; cbn; (done || (unfold in_u32; lia) || by vm_compute). Qed.

(** ** Properties *)

(** C21: [StreamValidator::accept] accepts exactly the admissible events: schema
    version 1, a producer of 1 to 128 bytes that stays the same in the stream, a
    specified clock domain, a positive timestamp, a sequence number above the
    last one, and a payload whose numbers are finite and in range (latitude in
    [-90, 90], longitude in [-180, 180], accuracy not negative), read as exact
    values of the doubles. A refused event carries an error message and leaves
    the stream's state as it was. *)
Theorem accept_iff_admissible (st : StreamValidator) (ev : TelemetryEvent)
    (Hst : validator_wf st) (Hev : event_wf ev) :
  (accepted (fst (accept st ev)) = true <-> Admissible st ev) /\
  (accepted (fst (accept st ev)) = true ->
     error (fst (accept st ev)) = "" /\ snd (accept st ev) = admit_event st ev) /\
  (accepted (fst (accept st ev)) = false ->
     error (fst (accept st ev)) <> "" /\ snd (accept st ev) = st).
Proof.
  destruct (accept_cases st ev Hst Hev) as [[Hadm ->]|[Hno (r & -> & Hr)]]; cbn;
    intuition congruence.
Qed.

Lemma accept_iff_admissible_witness :
  accepted (fst (accept StreamValidator_init (sample_event "phone" 7 5))) = true <->
  Admissible StreamValidator_init (sample_event "phone" 7 5).
Proof.
  refine (proj1 (accept_iff_admissible StreamValidator_init (sample_event "phone" 7 5) _ _)).
  - solve_range.
  - apply sample_event_wf; solve_range.
Defined.

(** C22: the summary of a stream is exact. After any sequence of calls (refused
    ones included), [populate_summary] reports the one producer of all accepted
    events, their number, the first and the last of their (strictly increasing)
    sequence numbers, and as [sequence_gaps] exactly the number of sequence
    numbers between the first and the last that no accepted event carries; no
    counter wraps. *)
Theorem stream_summary_exact (evs acc : list TelemetryEvent) (st : StreamValidator)
    (Hwf : Forall event_wf evs) (Hlen : Zlength evs < 2 ^ 64)
    (Hrun : accept_stream StreamValidator_init evs = (acc, st)) :
  let summary := populate_summary st in
  let seqs := sequence_number <$> acc in
  summary_accepted_events summary = Zlength acc /\
  StronglySorted Z.lt seqs /\
  Forall (fun ev => producer_id ev = summary_producer_id summary) acc /\
  (acc <> [] ->
     head seqs = Some (summary_first_sequence_number summary) /\
     last seqs = Some (summary_last_sequence_number summary) /\
     summary_sequence_gaps summary = Zlength
       (missing_sequences (summary_first_sequence_number summary)
          (summary_last_sequence_number summary) seqs)).
Proof.
  destruct (accept_stream_inv evs _ [] acc st stream_inv_init Hwf Hlen Hrun)
    as [_ Hc He Hn].
  destruct (decide (acc = [])) as [->|Hne]; [by repeat constructor|].
  by destruct (Hn Hne).
Qed.

Lemma stream_summary_exact_witness :
  let evs := [sample_event "phone" 7 5; sample_event "phone" 7 6;
              sample_event "phone" 11 8] in
  populate_summary (snd (accept_stream StreamValidator_init evs)) =
    {| summary_producer_id := "phone"; summary_accepted_events := 2;
       summary_first_sequence_number := 7; summary_last_sequence_number := 11;
       summary_sequence_gaps := 3 |} /\
  3 = Zlength (missing_sequences 7 11 [7; 11]).
Proof.
  split; [by vm_compute|].
  assert (Hwf : Forall event_wf [sample_event "phone" 7 5; sample_event "phone" 7 6;
              sample_event "phone" 11 8]).
  { repeat constructor; solve_range. }
  refine (proj2 (proj2 (proj2 (proj2 (proj2 (stream_summary_exact _
    [sample_event "phone" 7 5; sample_event "phone" 11 8] _ Hwf _ eq_refl))) _))).
  - by vm_compute.
  - done.
Defined.
