(* ===== verification/BoundedQueue.v ===== *)
(** * BoundedQueue: the template of [include/traceforge/concurrency/bounded_queue.hpp]

    Every operation is one critical section of [mutex_], so a run of any number
    of threads is a sequence of the operations below; the notifications sent
    after the critical sections are modelled with the threads in QueuedSink. *)
From Stdlib Require Import ZArith Lia.
From stdpp Require Import base gmap strings list sorting.
From S2P Require Import Prelude.
Local Open Scope Z_scope.
Local Open Scope tf_scope.

Inductive QueuePushResult := Push_accepted | Push_full | Push_closed.
#[export] Instance QueuePushResult_eq_dec : EqDecision QueuePushResult.
Proof. solve_decision. Defined.

Record BoundedQueueStats := {
  capacity : Z;
  current_size : Z;
  high_watermark : Z;
  accepted_items : Z;
  rejected_items : Z;
  closed : bool;
}.

(** The members of [BoundedQueue<Item>] the mutex protects. *)
Record BoundedQueue (Item : Type) := {
  capacity_ : Z;
  items_ : list Item;
  high_watermark_ : Z;
  accepted_items_ : Z;
  rejected_items_ : Z;
  closed_ : bool;
}.
Arguments capacity_ {Item} _.
Arguments items_ {Item} _.
Arguments high_watermark_ {Item} _.
Arguments accepted_items_ {Item} _.
Arguments rejected_items_ {Item} _.
Arguments closed_ {Item} _.
Arguments Build_BoundedQueue {Item} _ _ _ _ _ _.

(** How a [wait_pop] that holds the lock goes on: it blocks on the condition
    variable, returns [std::nullopt], or returns the oldest item. *)
Inductive PopOutcome (Item : Type) :=
  | Pop_blocked
  | Pop_finished
  | Pop_item (item : Item) (after : BoundedQueue Item).
Arguments Pop_blocked {Item}.
Arguments Pop_finished {Item}.
Arguments Pop_item {Item} _ _.

Section operations.
Context {Item : Type}.
Implicit Types (q : BoundedQueue Item) (item : Item).

(** The constructor; the error is the exception's message. *)
Definition make_queue (cap : Z) : string + BoundedQueue Item :=
  return_if cap =? 0 with inl "queue capacity must be positive" ;;
  inr (Build_BoundedQueue cap [] 0 0 0 false).

Definition reject_item q : BoundedQueue Item :=
  {| capacity_ := capacity_ q; items_ := items_ q;
     high_watermark_ := high_watermark_ q; accepted_items_ := accepted_items_ q;
     rejected_items_ := u64 (rejected_items_ q + 1); closed_ := closed_ q |}.

(** The critical section of [try_push]. *)
Definition try_push q item : QueuePushResult * BoundedQueue Item :=
  return_if closed_ q with (Push_closed, reject_item q) ;;
  return_if Zlength (items_ q) =? capacity_ q with (Push_full, reject_item q) ;;
  let items := items_ q ++ [item] in
  (Push_accepted,
   {| capacity_ := capacity_ q; items_ := items;
      high_watermark_ :=
        if high_watermark_ q <? Zlength items then Zlength items
        else high_watermark_ q;
      accepted_items_ := u64 (accepted_items_ q + 1);
      rejected_items_ := rejected_items_ q; closed_ := closed_ q |}).

Definition pop_front q rest : BoundedQueue Item :=
  {| capacity_ := capacity_ q; items_ := rest;
     high_watermark_ := high_watermark_ q; accepted_items_ := accepted_items_ q;
     rejected_items_ := rejected_items_ q; closed_ := closed_ q |}.

(** [wait_pop] from the moment it holds the lock and tests the predicate of
    [item_available_.wait]. *)
Definition wait_pop q : PopOutcome Item :=
  return_if negb (closed_ q || negb (bool_decide (items_ q = []))) with Pop_blocked ;;
  match items_ q with
  | [] => Pop_finished
  | item :: rest => Pop_item item (pop_front q rest)
  end.

(** The critical section of [close]. *)
Definition close q : BoundedQueue Item :=
  {| capacity_ := capacity_ q; items_ := items_ q;
     high_watermark_ := high_watermark_ q; accepted_items_ := accepted_items_ q;
     rejected_items_ := rejected_items_ q; closed_ := true |}.

Definition stats q : BoundedQueueStats :=
  {| capacity := capacity_ q; current_size := Zlength (items_ q);
     high_watermark := high_watermark_ q; accepted_items := accepted_items_ q;
     rejected_items := rejected_items_ q; closed := closed_ q |}.
End operations.

(** ** Runs of operations *)

Inductive QueueOp (Item : Type) := OpPush (item : Item) | OpPop | OpClose.
Arguments OpPush {Item} _.
Arguments OpPop {Item}.
Arguments OpClose {Item}.

Inductive QueueEvent (Item : Type) :=
  | EvPush (item : Item) (result : QueuePushResult)
  | EvPop (item : Item)
  | EvPopBlocked
  | EvPopFinished
  | EvClosed.
Arguments EvPush {Item} _ _.
Arguments EvPop {Item} _.
Arguments EvPopBlocked {Item}.
Arguments EvPopFinished {Item}.
Arguments EvClosed {Item}.

Section runs.
Context {Item : Type}.
Implicit Types (q : BoundedQueue Item) (item : Item).

Definition queue_step q (op : QueueOp Item) : QueueEvent Item * BoundedQueue Item :=
  match op with
  | OpPush item => let '(r, q') := try_push q item in (EvPush item r, q')
  | OpPop =>
      match wait_pop q with
      | Pop_blocked => (EvPopBlocked, q)
      | Pop_finished => (EvPopFinished, q)
      | Pop_item item q' => (EvPop item, q')
      end
  | OpClose => (EvClosed, close q)
  end.

(** The events of a run, each with the state after it. *)
Fixpoint queue_run q (ops : list (QueueOp Item))
    : list (QueueEvent Item * BoundedQueue Item) :=
  match ops with
  | [] => []
  | op :: ops' => let ev := queue_step q op in ev :: queue_run (snd ev) ops'
  end.

Fixpoint final_state q (tr : list (QueueEvent Item * BoundedQueue Item)) :=
  match tr with [] => q | e :: tr' => final_state e.2 tr' end.

Definition pushed_of (e : QueueEvent Item) : option Item :=
  match e with EvPush item Push_accepted => Some item | _ => None end.
Definition popped_of (e : QueueEvent Item) : option Item :=
  match e with EvPop item => Some item | _ => None end.
Definition refused_of (e : QueueEvent Item) : bool :=
  match e with EvPush _ Push_accepted => false | EvPush _ _ => true | _ => false end.

Definition accepted_list (tr : list (QueueEvent Item * BoundedQueue Item)) :=
  omap (fun e => pushed_of e.1) tr.
Definition popped_list (tr : list (QueueEvent Item * BoundedQueue Item)) :=
  omap (fun e => popped_of e.1) tr.
Definition refused_count (tr : list (QueueEvent Item * BoundedQueue Item)) : Z :=
  Zlength (filter (fun e => refused_of e.1 = true) tr).

(** The sizes the queue went through, the start included. *)
Definition sizes q (tr : list (QueueEvent Item * BoundedQueue Item)) : list Z :=
  Zlength (items_ q) :: ((fun e => Zlength (items_ e.2)) <$> tr).
Definition max_list_Z (l : list Z) : Z := foldr Z.max 0 l.

(** The invariant of a queue. *)
Record queue_inv q : Prop := {
  qi_capacity : 0 < capacity_ q < 2 ^ 64;
  qi_size : Zlength (items_ q) <= high_watermark_ q;
  qi_watermark : high_watermark_ q <= capacity_ q;
  qi_accepted : in_u64 (accepted_items_ q);
  qi_rejected : in_u64 (rejected_items_ q);
}.
End runs.

Section run_lemmas.
Context {Item : Type}.
Implicit Types (q : BoundedQueue Item) (op : QueueOp Item).

(** One operation: the invariant, the order of the items and the counters. *)
Record step_facts q (e : QueueEvent Item * BoundedQueue Item) : Prop := {
  sf_inv : queue_inv e.2;
  sf_capacity : capacity_ e.2 = capacity_ q;
  sf_order : items_ q ++ option_list (pushed_of e.1) =
             option_list (popped_of e.1) ++ items_ e.2;
  sf_watermark : high_watermark_ e.2 =
                 Z.max (high_watermark_ q) (Zlength (items_ e.2));
  sf_accepted : accepted_items_ e.2 =
    u64 (accepted_items_ q + Zlength (option_list (pushed_of e.1)));
  sf_rejected : rejected_items_ e.2 =
    u64 (rejected_items_ q + (if refused_of e.1 then 1 else 0));
}.

Lemma queue_step_facts q op : queue_inv q -> step_facts q (queue_step q op).
Proof.
  intros Hq; pose proof Hq as [Hc Hs Hw Ha Hr].
  assert (Ha' : accepted_items_ q = u64 (accepted_items_ q + 0))
    by (rewrite Z.add_0_r, u64_small; done).
  assert (Hr' : rejected_items_ q = u64 (rejected_items_ q + 0))
    by (rewrite Z.add_0_r, u64_small; done).
  destruct op as [item| |]; cbn.
  - unfold try_push. destruct (closed_ q); [|destruct (_ =? _) eqn:E].
    1,2: split; cbn; rewrite ?app_nil_r; try done; try lia;
           split; cbn; try done; apply u64_range.
    rewrite length_app; cbn [length]. case_if; reflect_bools; split; cbn;
      rewrite ?length_app; cbn [length]; try done; try lia.
    all: split; cbn; rewrite ?length_app; cbn [length];
      try done; try lia; apply u64_range.
  - unfold wait_pop. destruct (items_ q) as [|item rest] eqn:E; cbn in *.
    + destruct (closed_ q); cbn; split; cbn; rewrite ?E, ?app_nil_r; cbn; try done; lia.
    + rewrite orb_true_r. cbn.
      split; cbn; rewrite ?E, ?app_nil_r; cbn; try done; try lia.
      split; cbn; try done; lia.
  - split; cbn; rewrite ?app_nil_r; try done; try lia.
Qed.

Record run_facts q (tr : list (QueueEvent Item * BoundedQueue Item)) : Prop := {
  rf_inv : queue_inv (final_state q tr);
  rf_capacity : capacity_ (final_state q tr) = capacity_ q;
  rf_order : items_ q ++ accepted_list tr = popped_list tr ++ items_ (final_state q tr);
  rf_watermark : high_watermark_ (final_state q tr) =
                 Z.max (high_watermark_ q) (max_list_Z (sizes q tr));
  rf_sizes : Forall (fun n => n <= capacity_ q) (sizes q tr);
  rf_accepted : accepted_items_ (final_state q tr) =
                u64 (accepted_items_ q + Zlength (accepted_list tr));
  rf_rejected : rejected_items_ (final_state q tr) =
                u64 (rejected_items_ q + refused_count tr);
}.

Lemma queue_run_facts ops : forall q, queue_inv q -> run_facts q (queue_run q ops).
Proof.
  induction ops as [|op ops IH]; intros q Hq.
  { destruct Hq as [Hc Hs Hw Ha Hr]. unfold sizes. split; cbn; unfold refused_count; cbn.
    - done.
    - done.
    - by rewrite app_nil_r.
    - lia.
    - constructor; [lia|constructor].
    - by rewrite Z.add_0_r, u64_small.
    - by rewrite Z.add_0_r, u64_small. }
  cbn [queue_run]. pose proof (queue_step_facts q op Hq) as Hst.
  destruct (queue_step q op) as [e q1]. cbn [snd] in *.
  destruct Hst as [H1 H2 H3 H4 H5 H6]. cbn [fst snd] in *.
  destruct (IH q1 H1) as [I1 I2 I3 I4 I5 I6 I7].
  unfold accepted_list, popped_list in *.
  split; cbn [final_state]; unfold accepted_list, popped_list;
    rewrite ?omap_cons_list; cbn [fst snd] in *.
  - done.
  - by rewrite I2.
  - by rewrite app_assoc, H3, <- app_assoc, I3, app_assoc.
  - rewrite I4, H4. unfold sizes, max_list_Z. cbn.
    pose proof (qi_size _ Hq). lia.
  - unfold sizes in *. cbn. constructor.
    + pose proof (qi_size _ Hq). pose proof (qi_watermark _ Hq). lia.
    + rewrite H2 in I5. exact I5.
  - rewrite I6, H5, u64_add_l, length_app. f_equal. lia.
  - rewrite I7, H6, u64_add_l. unfold refused_count. f_equal.
    rewrite filter_cons; cbn [fst].
    destruct (refused_of e); [rewrite decide_True by done|rewrite decide_False by done];
      cbn [length]; lia.
Qed.

Definition is_pop op : bool := match op with OpPop => true | _ => false end.

(** A closed queue takes nothing in, never blocks, and hands out what it holds. *)
Lemma closed_run ops : forall q, closed_ q = true ->
  let tr := queue_run q ops in
  accepted_list tr = [] /\ Forall (fun e => e.1 <> EvPopBlocked) tr /\
  popped_list tr = take (length (filter (fun op => is_pop op = true) ops)) (items_ q).
Proof.
  induction ops as [|op ops IH]; intros q Hq; [done|].
  unfold accepted_list, popped_list in *. cbn [queue_run].
  rewrite !omap_cons_list, filter_cons. destruct op as [item| |]; cbn.
  - unfold try_push. rewrite Hq; cbn. destruct (IH (reject_item q) Hq) as (->&?&->).
    by repeat constructor.
  - unfold wait_pop. rewrite Hq; cbn. destruct (items_ q) as [|item rest] eqn:E; cbn.
    + destruct (IH q Hq) as (->&?&->). rewrite E, take_nil. by repeat constructor.
    + destruct (IH (pop_front q rest) Hq) as (->&?&->). cbn. by repeat constructor.
  - destruct (IH (close q) eq_refl) as (->&?&->). by repeat constructor.
Qed.
End run_lemmas.

Section operation_lemmas.
Context {Item : Type}.
Implicit Types (q : BoundedQueue Item) (item : Item).

Lemma try_push_inv q item r q' : queue_inv q -> try_push q item = (r, q') -> queue_inv q'.
Proof.
  intros H E. pose proof (sf_inv _ _ (queue_step_facts q (OpPush item) H)) as Hi.
  cbn in Hi. by rewrite E in Hi.
Qed.

Lemma try_push_accepted q item q' : try_push q item = (Push_accepted, q') ->
  closed_ q = false /\ closed_ q' = false /\ items_ q' = items_ q ++ [item] /\
  accepted_items_ q' = u64 (accepted_items_ q + 1) /\ capacity_ q' = capacity_ q.
Proof.
  unfold try_push. destruct (closed_ q); [done|]. case_if; [done|].
  by intros [= <-].
Qed.

Lemma try_push_refused q item r q' : try_push q item = (r, q') -> r <> Push_accepted ->
  closed_ q' = closed_ q /\ items_ q' = items_ q /\
  accepted_items_ q' = accepted_items_ q /\ capacity_ q' = capacity_ q.
Proof.
  unfold try_push. destruct (closed_ q) eqn:E; [|case_if]; intros [= <- <-] ?;
    repeat split; done.
Qed.

Lemma try_push_closed q item r q' : closed_ q = true -> try_push q item = (r, q') ->
  r = Push_closed.
Proof. unfold try_push. intros ->. by intros [= <- _]. Qed.

Lemma wait_pop_item q item q' : queue_inv q -> wait_pop q = Pop_item item q' ->
  queue_inv q' /\ items_ q = item :: items_ q' /\ closed_ q' = closed_ q /\
  accepted_items_ q' = accepted_items_ q /\ capacity_ q' = capacity_ q.
Proof.
  intros H E. pose proof (sf_inv _ _ (queue_step_facts q OpPop H)) as Hi.
  cbn in Hi. rewrite E in Hi. split; [done|]. revert E. unfold wait_pop. case_if; [done|].
  destruct (items_ q); [done|]. by intros [= -> <-].
Qed.

Lemma wait_pop_finished q : wait_pop q = Pop_finished ->
  closed_ q = true /\ items_ q = [].
Proof.
  unfold wait_pop. destruct (items_ q); [|rewrite orb_true_r; done].
  by destruct (closed_ q).
Qed.

Lemma wait_pop_blocked q : wait_pop q = Pop_blocked ->
  closed_ q = false /\ items_ q = [].
Proof.
  unfold wait_pop. destruct (items_ q); [|rewrite orb_true_r; done].
  by destruct (closed_ q).
Qed.

Lemma close_inv q : queue_inv q -> queue_inv (close q).
Proof. by intros []. Qed.
End operation_lemmas.

Section construction.
Context {Item : Type}.

Lemma make_queue_inv c (q : BoundedQueue Item) : in_u64 c ->
  make_queue c = inr q ->
  queue_inv q /\ capacity_ q = c /\ items_ q = [] /\ high_watermark_ q = 0 /\
  accepted_items_ q = 0 /\ rejected_items_ q = 0 /\ closed_ q = false.
Proof.
  unfold make_queue, in_u64. intros Hc. case_if; [done|]. intros [= <-].
  repeat split; cbn; lia.
Qed.
End construction.

(** ** Properties *)

(** C23: a queue of capacity [c] used by any interleaving of pushes, pops and
    closes is a bounded FIFO: the items taken in, in order, are the items handed
    out followed by the items still held; at no moment does it hold more than
    [c]; and [stats] reports the exact number of items taken in and refused
    (modulo 2^64), the current size, and as high-water mark the greatest size
    the queue ever had. *)
Theorem queue_fifo_bounded {Item} (c : Z) (q : BoundedQueue Item) (ops : list (QueueOp Item))
    (Hc : in_u64 c) (Hq : make_queue c = inr q) :
  let tr := queue_run q ops in
  let q' := final_state q tr in
  accepted_list tr = popped_list tr ++ items_ q' /\
  Forall (fun n => n <= c) (sizes q tr) /\
  stats q' = {|
    capacity := c;
    current_size := Zlength (accepted_list tr) - Zlength (popped_list tr);
    high_watermark := max_list_Z (sizes q tr);
    accepted_items := u64 (Zlength (accepted_list tr));
    rejected_items := u64 (refused_count tr);
    closed := closed_ q' |}.
Proof.
  destruct (make_queue_inv c q Hc Hq) as (Hinv & Hcap & Hi & Hw & Ha & Hr & _).
  destruct (queue_run_facts ops q Hinv) as [_ F2 F3 F4 F5 F6 F7]. cbv zeta.
  rewrite Hi in F3. rewrite Hcap in F2, F5. cbn in F3. rewrite Ha in F6. rewrite Hr in F7.
  split; [done|]. split; [done|]. unfold stats. f_equal; try done.
  - rewrite F3, length_app. lia.
  - rewrite F4, Hw. unfold sizes, max_list_Z. cbn. lia.
Qed.

Lemma queue_fifo_bounded_witness :
  exists q : BoundedQueue Z, make_queue 2 = inr q /\
  let tr := queue_run q [OpPush 10; OpPush 20; OpPush 30; OpPop; OpPush 30; OpClose;
                         OpPop; OpPop; OpPop] in
  accepted_list tr = popped_list tr ++ items_ (final_state q tr) /\
  accepted_list tr = [10; 20; 30] /\ refused_count tr = 1.
Proof.
  eexists; split; [reflexivity|].
  split; [|split; reflexivity].
  refine (proj1 (queue_fifo_bounded 2 _ _ _ _)); [solve_range|reflexivity].
Defined.

(** Closing drains. Whatever operations run on a closed queue, nothing more
    is taken in, no pop blocks, and the pops hand out exactly the items held,
    oldest first, before they report the end. *)
Theorem closed_queue_drains {Item} (q : BoundedQueue Item) (ops : list (QueueOp Item))
    (Hclosed : closed_ q = true) :
  let tr := queue_run q ops in
  accepted_list tr = [] /\
  Forall (fun e => e.1 <> EvPopBlocked) tr /\
  popped_list tr = take (length (filter (fun op => is_pop op = true) ops)) (items_ q).
Proof. by apply closed_run. Qed.

Lemma closed_queue_drains_witness :
  let q := {| capacity_ := 2; items_ := [20; 30]; high_watermark_ := 2;
              accepted_items_ := 3; rejected_items_ := 1; closed_ := true |} in
  popped_list (queue_run q [OpPop; OpPush 40; OpPop; OpPop]) = [20; 30].
Proof.
  exact (proj2 (proj2 (closed_queue_drains
    {| capacity_ := 2; items_ := [20; 30]; high_watermark_ := 2;
       accepted_items_ := 3; rejected_items_ := 1; closed_ := true |}
    [OpPop; OpPush 40; OpPop; OpPop] eq_refl))).
Defined.
