(* ===== verification/QueuedSink.v ===== *)
(** * QueuedSink: [QueuedTelemetrySink] of [src/telemetry/queued_sink.cpp]

    The sink joins three kinds of threads: gRPC threads that call [try_accept],
    the consumer thread that runs [consume_loop], and the thread that calls
    [shutdown]. The model is a step relation whose steps are the atomic actions
    of the code: an access to an atomic member, a critical section of the
    queue's mutex, a notification, a call of the consumer. Three history
    components (the items taken in, the items delivered, the results returned)
    record what happened and influence nothing. *)
From Stdlib Require Import ZArith Lia.
From stdpp Require Import base gmap strings list relations.
From S2P Require Import Prelude Bytes Floats Telemetry BoundedQueue.
Local Open Scope Z_scope.
Local Open Scope tf_scope.

Inductive SinkResult := Sink_accepted | Sink_overloaded | Sink_unavailable.
#[export] Instance SinkResult_eq_dec : EqDecision SinkResult.
Proof. solve_decision. Defined.

(** [TelemetryConsumer]: what a consumer with state [C] does with an event. *)
Class TelemetryConsumer (C : Type) := {
  consume : C -> CollectedEvent -> bool * C;
}.

Section consumer_runs.
Context {C : Type} `{!TelemetryConsumer C}.

(** The state after a list of events, and whether all were taken. *)
Fixpoint feed (c : C) (l : list CollectedEvent) : bool * C :=
  match l with
  | [] => (true, c)
  | ev :: l' =>
      let '(ok, c') := consume c ev in
      let '(ok', c'') := feed c' l' in (ok && ok', c'')
  end.

Lemma feed_app c l k :
  feed c (l ++ k) = (fst (feed c l) && fst (feed (snd (feed c l)) k),
                     snd (feed (snd (feed c l)) k)).
Proof.
  revert c; induction l as [|ev l IH]; intros c; cbn.
  - by destruct (feed c k).
  - destruct (consume c ev) as [ok c']. rewrite IH.
    destruct (feed c' l) as [ok' c'']. cbn. by rewrite andb_assoc.
Qed.

Lemma feed_snoc c l ev :
  feed c (l ++ [ev]) =
    (fst (feed c l) && fst (consume (snd (feed c l)) ev),
     snd (consume (snd (feed c l)) ev)).
Proof.
  rewrite feed_app. cbn. destruct (consume _ ev). cbn. by rewrite andb_true_r.
Qed.
End consumer_runs.

(** The translation of a push result in [try_accept]. *)
Definition sink_result (r : QueuePushResult) : SinkResult :=
  match r with
  | Push_accepted => Sink_accepted
  | Push_full => Sink_overloaded
  | Push_closed => Sink_unavailable
  end.

(** ** Program counters *)

(** A thread inside [try_accept]. *)
Inductive producer_pc :=
  | P_load (ev : CollectedEvent)       (* about to read [accepting_events_] *)
  | P_push (ev : CollectedEvent)       (* about to enter [try_push]'s critical section *)
  | P_notify (ev : CollectedEvent).    (* pushed, about to call [notify_one] *)

(** The consumer thread. *)
Inductive worker_pc :=
  | W_lock                             (* in [wait_pop], about to test the predicate *)
  | W_blocked                          (* waiting on the condition variable *)
  | W_consume (ev : CollectedEvent)    (* about to call the consumer *)
  | W_count                            (* about to increment [consumed_events_] *)
  | W_fail_count                       (* about to increment [consumer_failures_] *)
  | W_fail_store                       (* about to clear [accepting_events_] *)
  | W_fail_close                       (* about to close the queue *)
  | W_fail_notify                      (* closed, about to notify *)
  | W_done (failed : bool).            (* returned from [consume_loop] *)

#[export] Instance worker_pc_eq_dec : EqDecision worker_pc.
Proof. solve_decision. Defined.

(** The thread that calls [shutdown]. *)
Inductive shutdown_pc := S_idle | S_store | S_close | S_notify | S_join | S_done.

Record sink_state (C : Type) := {
  queue_ : BoundedQueue CollectedEvent;
  consumer_ : C;
  consumed_events_ : Z;
  consumer_failures_ : Z;
  accepting_events_ : bool;
  constructed : bool;                       (* the constructor has finished *)
  producers : gmap nat producer_pc;         (* threads inside [try_accept] *)
  worker : worker_pc;
  shutter : shutdown_pc;
  taken : list CollectedEvent;              (* history: pushes that succeeded *)
  delivered : list CollectedEvent;          (* history: items popped *)
  results : list (nat * CollectedEvent * SinkResult); (* history: returns *)
}.
Arguments queue_ {C} _.
Arguments consumer_ {C} _.
Arguments consumed_events_ {C} _.
Arguments consumer_failures_ {C} _.
Arguments accepting_events_ {C} _.
Arguments constructed {C} _.
Arguments producers {C} _.
Arguments worker {C} _.
Arguments shutter {C} _.
Arguments taken {C} _.
Arguments delivered {C} _.
Arguments results {C} _.
Arguments Build_sink_state {C} _ _ _ _ _ _ _ _ _ _ _ _.

Record IngestionStats := {
  stats_queue : BoundedQueueStats;
  stats_consumed_events : Z;
  stats_consumer_failures : Z;
  stats_accepting_events : bool;
}.

(** Wakes the consumer thread if it waits. *)
Definition wake (w : worker_pc) : worker_pc :=
  match w with W_blocked => W_lock | _ => w end.

Section steps.
Context {C : Type} `{!TelemetryConsumer C}.
Implicit Types (s : sink_state C).

(** The sink right after the consumer thread was started by the member
    initialiser, before the atomics declared after it are initialised; [g1],
    [g2], [g3] are whatever their storage holds. *)
Definition sink_start (q : BoundedQueue CollectedEvent) (c : C) (g1 g2 : Z)
    (g3 : bool) : sink_state C :=
  Build_sink_state q c g1 g2 g3 false ∅ W_lock S_idle [] [] [].

Definition sink_constructed s : sink_state C :=
  Build_sink_state (queue_ s) (consumer_ s) 0 0 true true (producers s)
    (worker s) (shutter s) (taken s) (delivered s) (results s).

Definition set_producer s (tid : nat) (pc : producer_pc) : sink_state C :=
  Build_sink_state (queue_ s) (consumer_ s) (consumed_events_ s)
    (consumer_failures_ s) (accepting_events_ s) (constructed s)
    (<[tid := pc]> (producers s)) (worker s) (shutter s)
    (taken s) (delivered s) (results s).

(** [try_accept] returns [r]. *)
Definition sink_return s (tid : nat) (ev : CollectedEvent) (r : SinkResult)
    : sink_state C :=
  Build_sink_state (queue_ s) (consumer_ s) (consumed_events_ s)
    (consumer_failures_ s) (accepting_events_ s) (constructed s)
    (delete tid (producers s)) (worker s) (shutter s)
    (taken s) (delivered s) (results s ++ [(tid, ev, r)]).

Definition set_queue s (q : BoundedQueue CollectedEvent)
    (more : list CollectedEvent) : sink_state C :=
  Build_sink_state q (consumer_ s) (consumed_events_ s) (consumer_failures_ s)
    (accepting_events_ s) (constructed s) (producers s) (worker s) (shutter s)
    (taken s ++ more) (delivered s) (results s).

Definition set_worker s (w : worker_pc) : sink_state C :=
  Build_sink_state (queue_ s) (consumer_ s) (consumed_events_ s)
    (consumer_failures_ s) (accepting_events_ s) (constructed s) (producers s)
    w (shutter s) (taken s) (delivered s) (results s).

Definition set_shutter s (pc : shutdown_pc) : sink_state C :=
  Build_sink_state (queue_ s) (consumer_ s) (consumed_events_ s)
    (consumer_failures_ s) (accepting_events_ s) (constructed s) (producers s)
    (worker s) pc (taken s) (delivered s) (results s).

Definition stop_accepting s : sink_state C :=
  Build_sink_state (queue_ s) (consumer_ s) (consumed_events_ s)
    (consumer_failures_ s) false (constructed s) (producers s)
    (worker s) (shutter s) (taken s) (delivered s) (results s).

Definition close_queue s : sink_state C := set_queue s (close (queue_ s)) [].

(** ** The code of each thread, one atomic action at a time *)

(** [try_accept] *)
Definition producer_step s (tid : nat) : option (sink_state C) :=
  match producers s !! tid with
  | None => None
  | Some (P_load ev) =>
      Some (if negb (accepting_events_ s) then sink_return s tid ev Sink_unavailable
            else set_producer s tid (P_push ev))
  | Some (P_push ev) =>
      match try_push (queue_ s) ev with
      | (Push_accepted, q') => Some (set_producer (set_queue s q' [ev]) tid (P_notify ev))
      | (r, q') => Some (sink_return (set_queue s q' []) tid ev (sink_result r))
      end
  | Some (P_notify ev) =>
      Some (sink_return (set_worker s (wake (worker s))) tid ev Sink_accepted)
  end.

(** [consume_loop] *)
Definition worker_step s : option (sink_state C) :=
  match worker s with
  | W_lock =>
      Some match wait_pop (queue_ s) with
      | Pop_blocked => set_worker s W_blocked
      | Pop_finished => set_worker s (W_done false)
      | Pop_item ev q' =>
          Build_sink_state q' (consumer_ s) (consumed_events_ s)
            (consumer_failures_ s) (accepting_events_ s) (constructed s)
            (producers s) (W_consume ev) (shutter s) (taken s)
            (delivered s ++ [ev]) (results s)
      end
  | W_blocked => None
  | W_consume ev =>
      let '(ok, c') := consume (consumer_ s) ev in
      Some (Build_sink_state (queue_ s) c' (consumed_events_ s)
        (consumer_failures_ s) (accepting_events_ s) (constructed s)
        (producers s) (if negb ok then W_fail_count else W_count) (shutter s)
        (taken s) (delivered s) (results s))
  | W_fail_count =>
      Some (Build_sink_state (queue_ s) (consumer_ s) (consumed_events_ s)
        (u64 (consumer_failures_ s + 1)) (accepting_events_ s) (constructed s)
        (producers s) W_fail_store (shutter s) (taken s) (delivered s) (results s))
  | W_fail_store => Some (set_worker (stop_accepting s) W_fail_close)
  | W_fail_close => Some (set_worker (close_queue s) W_fail_notify)
  | W_fail_notify => Some (set_worker s (W_done true))
  | W_count =>
      Some (Build_sink_state (queue_ s) (consumer_ s)
        (u64 (consumed_events_ s + 1)) (consumer_failures_ s)
        (accepting_events_ s) (constructed s) (producers s) W_lock (shutter s)
        (taken s) (delivered s) (results s))
  | W_done _ => None
  end.

(** [shutdown] *)
Definition shutdown_step s : option (sink_state C) :=
  match shutter s with
  | S_idle | S_done => None
  | S_store => Some (set_shutter (stop_accepting s) S_close)
  | S_close => Some (set_shutter (close_queue s) S_notify)
  | S_notify => Some (set_shutter (set_worker s (wake (worker s))) S_join)
  | S_join =>
      match worker s with
      | W_done _ => Some (set_shutter s S_done)
      | _ => None
      end
  end.

(** [stats] *)
Definition ingestion_stats s : IngestionStats := {|
  stats_queue := stats (queue_ s);
  stats_consumed_events := consumed_events_ s;
  stats_consumer_failures := consumer_failures_ s;
  stats_accepting_events := accepting_events_ s;
|}.

(** Steps of the code itself. *)
Inductive internal_step : sink_state C -> sink_state C -> Prop :=
  | int_construct s : constructed s = false -> internal_step s (sink_constructed s)
  | int_producer s tid s' : producer_step s tid = Some s' -> internal_step s s'
  | int_worker s s' : worker_step s = Some s' -> internal_step s s'
  | int_shutdown s s' : shutdown_step s = Some s' -> internal_step s s'.

(** Steps of the environment: a call of [try_accept] or of [shutdown] once
    the sink is constructed, and a spurious wake-up. *)
Inductive external_step : sink_state C -> sink_state C -> Prop :=
  | ext_call s tid ev : constructed s = true -> producers s !! tid = None ->
      external_step s (set_producer s tid (P_load ev))
  | ext_shutdown s : constructed s = true -> shutter s = S_idle \/ shutter s = S_done ->
      external_step s (set_shutter s S_store)
  | ext_spurious s : worker s = W_blocked -> external_step s (set_worker s W_lock).

Definition sink_step s s' : Prop := internal_step s s' \/ external_step s s'.
End steps.

(** ** The invariant *)

Definition uncounted (w : worker_pc) : Z :=
  match w with W_consume _ | W_count | W_fail_count => 1 | _ => 0 end.
Definition failed (w : worker_pc) : bool :=
  match w with
  | W_fail_count | W_fail_store | W_fail_close | W_fail_notify | W_done true => true
  | _ => false
  end.
Definition failures_seen (w : worker_pc) : Z :=
  match w with
  | W_fail_store | W_fail_close | W_fail_notify | W_done true => 1
  | _ => 0
  end.
Definition in_flight (w : worker_pc) : list CollectedEvent :=
  match w with W_consume ev => [ev] | _ => [] end.

Definition notify_event (pc : producer_pc) : option CollectedEvent :=
  match pc with P_notify ev => Some ev | _ => None end.
Definition notifying (m : gmap nat producer_pc) : list CollectedEvent :=
  omap (fun p => notify_event p.2) (map_to_list m).
Definition accepted_result (r : nat * CollectedEvent * SinkResult) : option CollectedEvent :=
  match r with (_, ev, Sink_accepted) => Some ev | _ => None end.

Section notifying_lemmas.
Implicit Types m : gmap nat producer_pc.

Lemma notifying_insert m i pc :
  notifying (<[i := pc]> m) ≡ₚ option_list (notify_event pc) ++ notifying (delete i m).
Proof.
  unfold notifying. rewrite <- insert_delete_eq, map_to_list_insert by apply lookup_delete_eq.
  by rewrite omap_cons_list.
Qed.

Lemma notifying_lookup m i pc : m !! i = Some pc ->
  notifying m ≡ₚ option_list (notify_event pc) ++ notifying (delete i m).
Proof. intros H. by rewrite <- notifying_insert, insert_id. Qed.
End notifying_lemmas.

Section invariant.
Context {C : Type} `{!TelemetryConsumer C} (c0 : C).
Implicit Types (s : sink_state C).

(** The consumer's state after the items delivered so far, the one in flight
    excepted; a failure can only be that of the last item. *)
Definition consumer_history s : Prop :=
  exists consumed, delivered s = consumed ++ in_flight (worker s) /\
    consumer_ s = snd (feed c0 consumed) /\
    if failed (worker s) then
      exists good ev, consumed = good ++ [ev] /\ fst (feed c0 good) = true /\
                      fst (consume (snd (feed c0 good)) ev) = false
    else fst (feed c0 consumed) = true.

Definition worker_facts s : Prop :=
  match worker s with
  | W_fail_close => accepting_events_ s = false
  | W_fail_notify | W_done true => closed_ (queue_ s) = true
  | W_done false => closed_ (queue_ s) = true /\ items_ (queue_ s) = []
  | W_blocked =>
      items_ (queue_ s) <> [] \/ closed_ (queue_ s) = true ->
      shutter s = S_notify \/
      exists tid ev, producers s !! tid = Some (P_notify ev)
  | _ => True
  end.

Definition shutter_facts s : Prop :=
  match shutter s with
  | S_close => accepting_events_ s = false
  | S_notify | S_join => closed_ (queue_ s) = true
  | S_done => closed_ (queue_ s) = true /\ exists f, worker s = W_done f
  | _ => True
  end.

(** Before the constructor returns, the thread it started has found nothing. *)
Definition early_facts s : Prop :=
  constructed s = false ->
  producers s = ∅ /\ shutter s = S_idle /\ taken s = [] /\
  closed_ (queue_ s) = false /\ (worker s = W_lock \/ worker s = W_blocked).

Record sink_inv s : Prop := {
  si_queue : queue_inv (queue_ s);
  si_order : taken s = delivered s ++ items_ (queue_ s);
  si_consumer : consumer_history s;
  si_accepted : accepted_items_ (queue_ s) = u64 (Zlength (taken s));
  si_consumed : constructed s = true -> consumed_events_ s =
    u64 (Zlength (delivered s) - uncounted (worker s) - failures_seen (worker s));
  si_failures : constructed s = true ->
    consumer_failures_ s = failures_seen (worker s);
  si_closed : constructed s = true -> closed_ (queue_ s) = true ->
    accepting_events_ s = false;
  si_early : early_facts s;
  si_worker : worker_facts s;
  si_shutter : shutter_facts s;
  si_results : taken s ≡ₚ
    omap accepted_result (results s) ++ notifying (producers s);
}.

Lemma early_constructed s tid pc : early_facts s -> producers s !! tid = Some pc ->
  constructed s = true.
Proof.
  intros He Hp. destruct (constructed s) eqn:E; [done|].
  destruct (He E) as [H _]. by rewrite H in Hp.
Qed.

(** A thread that does not leave [P_notify] keeps the pending notification. *)
Lemma worker_facts_producers s s' tid :
  queue_ s' = queue_ s -> worker s' = worker s -> shutter s' = shutter s ->
  accepting_events_ s' = accepting_events_ s ->
  (forall tid' ev, producers s !! tid' = Some (P_notify ev) ->
     tid' <> tid /\ producers s' !! tid' = producers s !! tid') ->
  worker_facts s -> worker_facts s'.
Proof.
  unfold worker_facts. intros -> -> -> -> Hp H.
  destruct (worker s) as [| |ev| | | | | |[]]; try done.
  intros Hw. destruct (H Hw) as [?|(t & ev & Ht)]; [by left|].
  right; exists t, ev. destruct (Hp t ev Ht) as [_ ->]. done.
Qed.

Lemma producer_load_inv s tid ev : producers s !! tid = Some (P_load ev) ->
  sink_inv s ->
  sink_inv (if negb (accepting_events_ s) then sink_return s tid ev Sink_unavailable
               else set_producer s tid (P_push ev)).
Proof.
  intros Hp [I1 I2 I3 I4 I5 I6 I7 I8 I9 I10 I11].
  pose proof (early_constructed _ _ _ I8 Hp) as Hc.
  assert (Hne : forall t e, producers s !! t = Some (P_notify e) -> t <> tid).
  { intros t e Ht ->. by rewrite Hp in Ht. }
  rewrite (notifying_lookup _ _ _ Hp) in I11. cbn in I11.
  destruct (negb _); split; cbn; try done.
  - unfold early_facts; cbn. congruence.
  - eapply (worker_facts_producers s _ tid); [..|exact I9]; try done.
    intros t e Ht. pose proof (Hne t e Ht). cbn. by rewrite lookup_delete_ne.
  - rewrite omap_snoc. cbn. by rewrite app_nil_r.
  - unfold early_facts; cbn. congruence.
  - eapply (worker_facts_producers s _ tid); [..|exact I9]; try done.
    intros t e Ht. pose proof (Hne t e Ht). cbn. by rewrite lookup_insert_ne.
  - by rewrite notifying_insert.
Qed.

Lemma producer_push_inv s tid ev q' : producers s !! tid = Some (P_push ev) ->
  try_push (queue_ s) ev = (Push_accepted, q') -> sink_inv s ->
  sink_inv (set_producer (set_queue s q' [ev]) tid (P_notify ev)).
Proof.
  intros Hp Hq [I1 I2 I3 I4 I5 I6 I7 I8 I9 I10 I11].
  pose proof (early_constructed _ _ _ I8 Hp) as Hc.
  pose proof (try_push_inv _ _ _ _ I1 Hq) as Hi.
  destruct (try_push_accepted _ _ _ Hq) as (Hcl & Hcl' & Hit & Hacc & _).
  rewrite (notifying_lookup _ _ _ Hp) in I11. cbn in I11.
  split; cbn; try done.
  - by rewrite I2, Hit, app_assoc.
  - rewrite Hacc, I4, u64_add_l, length_app. cbn. f_equal; lia.
  - congruence.
  - unfold early_facts; cbn. congruence.
  - unfold worker_facts in *; cbn. destruct (worker s) as [| |e| | | | | |[]]; try congruence.
    + intros _. right. exists tid, ev. apply lookup_insert_eq.
    + destruct I9; congruence.
  - unfold shutter_facts in *; cbn. destruct (shutter s); intuition congruence.
  - rewrite notifying_insert. cbn. rewrite I11. solve_Permutation.
Qed.

Lemma producer_refused_inv s tid ev r q' : producers s !! tid = Some (P_push ev) ->
  try_push (queue_ s) ev = (r, q') -> r <> Push_accepted -> sink_inv s ->
  sink_inv (sink_return (set_queue s q' []) tid ev (sink_result r)).
Proof.
  intros Hp Hq Hr [I1 I2 I3 I4 I5 I6 I7 I8 I9 I10 I11].
  pose proof (early_constructed _ _ _ I8 Hp) as Hc.
  pose proof (try_push_inv _ _ _ _ I1 Hq) as Hi.
  destruct (try_push_refused _ _ _ _ Hq Hr) as (Hcl & Hit & Hacc & _).
  rewrite (notifying_lookup _ _ _ Hp) in I11. cbn in I11.
  split; cbn; rewrite ?app_nil_r; try done.
  - by rewrite Hit.
  - by rewrite Hacc.
  - by rewrite Hcl.
  - unfold early_facts; cbn. congruence.
  - unfold worker_facts in *; cbn. rewrite Hit, Hcl.
    destruct (worker s) as [| |e| | | | | |[]]; try done.
    intros Hw. destruct (I9 Hw) as [?|(t & e & Ht)]; [by left|].
    right; exists t, e. rewrite lookup_delete_ne; [done|]. intros ->. congruence.
  - unfold shutter_facts in *; cbn. by rewrite Hcl.
  - rewrite omap_snoc. destruct r; try done; cbn; by rewrite app_nil_r.
Qed.

Lemma producer_notify_inv s tid ev : producers s !! tid = Some (P_notify ev) ->
  sink_inv s ->
  sink_inv (sink_return (set_worker s (wake (worker s))) tid ev Sink_accepted).
Proof.
  intros Hp [I1 I2 I3 I4 I5 I6 I7 I8 I9 I10 I11].
  pose proof (early_constructed _ _ _ I8 Hp) as Hc.
  rewrite (notifying_lookup _ _ _ Hp) in I11. cbn in I11.
  split; cbn; try done.
  - unfold consumer_history in *; cbn. by destruct (worker s).
  - intros _. rewrite I5 by done. by destruct (worker s).
  - intros _. rewrite I6 by done. by destruct (worker s).
  - unfold early_facts; cbn. congruence.
  - unfold worker_facts in *; cbn. by destruct (worker s) as [| |e| | | | | |[]].
  - unfold shutter_facts in *; cbn. destruct (shutter s); try done.
    destruct I10 as [? [f ->]]. split; [done|by exists f].
  - rewrite omap_snoc. cbn. rewrite I11. solve_Permutation.
Qed.

(** The worker's steps. Outside the constructor's window the early facts are
    void; inside it only [W_lock] can move, and only to [W_blocked]. *)
Lemma late_of_worker s : early_facts s -> worker s <> W_lock -> worker s <> W_blocked ->
  constructed s = true.
Proof.
  intros He ??. destruct (constructed s) eqn:E; [done|].
  destruct (He E) as (_&_&_&_&[?|?]); done.
Qed.

Lemma worker_pop_inv s : worker s = W_lock -> sink_inv s ->
  forall s', worker_step s = Some s' -> sink_inv s'.
Proof.
  intros Hw [I1 I2 I3 I4 I5 I6 I7 I8 I9 I10 I11] s'. unfold worker_step. rewrite Hw.
  destruct (wait_pop (queue_ s)) as [| |ev q'] eqn:E; intros [= <-].
  - apply wait_pop_blocked in E as [Hcl Hit].
    unfold consumer_history, early_facts, shutter_facts in *; rewrite Hw in *.
    split; unfold consumer_history, early_facts, shutter_facts, worker_facts; cbn; try done.
    + intros (?&?&?&?&_)%I8. split_and!; try done. by right.
    + by intros [?|?]; congruence.
    + destruct (shutter s); try done. by destruct I10 as [_ [? ?]].
  - apply wait_pop_finished in E as [Hcl Hit].
    unfold consumer_history, early_facts, shutter_facts in *; rewrite Hw in *.
    split; unfold consumer_history, early_facts, shutter_facts, worker_facts; cbn; try done.
    + intros (_&_&_&?&_)%I8. congruence.
    + destruct (shutter s); try done. by destruct I10 as [_ [? ?]].
  - destruct (wait_pop_item _ _ _ I1 E) as (Hi & Hit & Hcl & Hacc & _).
    unfold consumer_history, early_facts, shutter_facts in *; rewrite Hw in *.
    cbn in I3. destruct I3 as (d & Hd & Hc & Hok). rewrite app_nil_r in Hd. subst d.
    split; unfold consumer_history, early_facts, shutter_facts, worker_facts; cbn; try done.
    + by rewrite I2, Hit, <- app_assoc.
    + by exists (delivered s).
    + by rewrite Hacc.
    + intros Hcn. rewrite (I5 Hcn), length_app. cbn. f_equal; lia.
    + by rewrite Hcl.
    + intros (_&_&Ht&_)%I8. rewrite I2, Hit in Ht. by destruct (delivered s).
    + rewrite Hcl. destruct (shutter s); try done. by destruct I10 as [_ [? ?]].
Qed.

Lemma worker_consume_inv s ev : worker s = W_consume ev -> sink_inv s ->
  forall s', worker_step s = Some s' -> sink_inv s'.
Proof.
  intros Hw [I1 I2 I3 I4 I5 I6 I7 I8 I9 I10 I11] s'. unfold worker_step. rewrite Hw.
  pose proof (late_of_worker s I8) as Hl. rewrite Hw in Hl.
  specialize (Hl ltac:(done) ltac:(done)).
  destruct (consume (consumer_ s) ev) as [ok c'] eqn:E. intros [= <-].
  unfold consumer_history, shutter_facts in *; rewrite Hw in *; cbn in I3.
  destruct I3 as (d & Hd & Hc & Hok). rewrite Hc in E.
  split; unfold consumer_history, early_facts, shutter_facts, worker_facts; cbn; try done.
  - exists (d ++ [ev]). rewrite feed_snoc, E, Hd. cbn.
    destruct ok; cbn; rewrite app_nil_r; repeat split; try done.
    + by rewrite Hok.
    + exists d, ev. by rewrite E.
  - intros _. rewrite I5 by done. by destruct ok.
  - intros _. rewrite I6 by done. by destruct ok.
  - congruence.
  - by destruct ok.
  - destruct (shutter s); try done. by destruct I10 as [_ [? ?]].
Qed.

Lemma worker_other_inv s : worker s <> W_lock ->
  (forall ev, worker s <> W_consume ev) -> sink_inv s ->
  forall s', worker_step s = Some s' -> sink_inv s'.
Proof.
  intros Hn1 Hn2 [I1 I2 I3 I4 I5 I6 I7 I8 I9 I10 I11] s'. unfold worker_step.
  pose proof (late_of_worker s I8 Hn1) as Hl.
  destruct (worker s) as [| |ev| | | | | |f] eqn:Hw; try done; [by destruct (Hn2 ev)|..].
  all: specialize (Hl ltac:(done)); intros [= <-].
  all: unfold consumer_history, shutter_facts, worker_facts in *; rewrite Hw in *.
  all: split; unfold consumer_history, early_facts, shutter_facts, worker_facts;
    cbn in *; rewrite ?app_nil_r; try done; try congruence.
  all: try (intros _; rewrite ?I5, ?I6, ?u64_add_l by done; done).
  all: try (intros _; rewrite ?I5, ?I6, ?u64_add_l by done; f_equal; lia).
  all: try (destruct (shutter s); intuition (try congruence); by destruct H0).
  by apply close_inv.
Qed.

Lemma shutdown_step_inv s s' : sink_inv s -> shutdown_step s = Some s' -> sink_inv s'.
Proof.
  intros [I1 I2 I3 I4 I5 I6 I7 I8 I9 I10 I11]. unfold shutdown_step.
  assert (Hc : shutter s <> S_idle -> constructed s = true).
  { intros Hne. destruct (constructed s) eqn:E; [done|]. by destruct (I8 E) as (_&?&_). }
  destruct (shutter s) eqn:Hs; try done; specialize (Hc ltac:(done)).
  4: destruct (worker s) eqn:Hw; try done.
  all: intros [= <-]; unfold consumer_history, shutter_facts, worker_facts in *;
    rewrite ?Hs, ?Hw in *.
  all: split; unfold consumer_history, early_facts, shutter_facts, worker_facts;
    cbn in *; rewrite ?app_nil_r, ?Hw; try done; try congruence.
  all: try (by apply close_inv).
  all: try (by destruct (worker s) as [| |e| | | | | |[]]; intuition congruence).
  all: try (by eauto).
  all: try (destruct (worker s) as [| |e| | | | | |[]]; cbn; try done;
            intuition congruence).
Qed.

Lemma construct_inv s : constructed s = false -> sink_inv s ->
  sink_inv (sink_constructed s).
Proof.
  intros Hc [I1 I2 I3 I4 I5 I6 I7 I8 I9 I10 I11].
  destruct (I8 Hc) as (Hp & Hs & Ht & Hcl & Hw).
  rewrite Ht in I2. symmetry in I2. apply app_nil in I2 as [Hd Hit].
  split; unfold consumer_history, early_facts, shutter_facts, worker_facts in *; cbn in *;
    rewrite ?Hs, ?Hd, ?Ht, ?Hit in *; try done; try congruence.
  all: destruct Hw as [-> | ->]; intuition congruence.
Qed.

Lemma external_step_inv s s' : sink_inv s -> external_step s s' -> sink_inv s'.
Proof.
  intros [I1 I2 I3 I4 I5 I6 I7 I8 I9 I10 I11].
  destruct 1 as [s tid ev Hc Hp|s Hc Hs|s Hw].
  - split; cbn; try done.
    + unfold early_facts; cbn. congruence.
    + eapply (worker_facts_producers s _ tid); [..|exact I9]; try done.
      intros t e Ht. assert (t <> tid) by congruence. cbn. by rewrite lookup_insert_ne.
    + rewrite notifying_insert. by rewrite delete_id.
  - unfold consumer_history, shutter_facts, worker_facts in *.
    split; unfold consumer_history, early_facts, shutter_facts, worker_facts; cbn;
      try done; try congruence.
    destruct (worker s) as [| |e| | | | | |[]]; try done.
    intros Hw. destruct (I9 Hw) as [?|?]; [|by right]. destruct Hs; congruence.
  - unfold consumer_history, shutter_facts, worker_facts in *; rewrite Hw in *.
    split; unfold consumer_history, early_facts, shutter_facts, worker_facts; cbn; try done.
    + intros (?&?&?&?&_)%I8. split_and!; try done. by left.
    + destruct (shutter s); try done. by destruct I10 as [_ [? ?]].
Qed.

Lemma internal_step_inv s s' : sink_inv s -> internal_step s s' -> sink_inv s'.
Proof.
  intros Hinv. destruct 1 as [s Hc|s tid s' H|s s' H|s s' H].
  - by apply construct_inv.
  - unfold producer_step in H.
    destruct (producers s !! tid) as [[ev|ev|ev]|] eqn:Hp; [| | |done].
    + injection H as <-. by apply producer_load_inv.
    + destruct (try_push (queue_ s) ev) as [[] q'] eqn:Hq; injection H as <-.
      * by apply producer_push_inv.
      * by apply (producer_refused_inv s tid ev Push_full).
      * by apply (producer_refused_inv s tid ev Push_closed).
    + injection H as <-. by apply producer_notify_inv.
  - destruct (decide (worker s = W_lock)) as [Hw|Hw]; [by eapply worker_pop_inv|].
    destruct (worker s) eqn:E; try (eapply worker_other_inv; [| |exact Hinv|exact H];
      rewrite E; done).
    by eapply worker_consume_inv.
  - by eapply shutdown_step_inv.
Qed.

Lemma sink_start_inv cap q g1 g2 g3 : in_u64 cap -> make_queue cap = inr q ->
  sink_inv (sink_start q c0 g1 g2 g3).
Proof.
  intros Hcap Hq.
  destruct (make_queue_inv cap q Hcap Hq) as (Hi & _ & Hit & _ & Ha & _ & Hcl).
  split; unfold consumer_history, early_facts, shutter_facts, worker_facts; cbn;
    rewrite ?Hit; try done.
  - by exists [].
  - intros _. split_and!; try done. by left.
Qed.

(** The states of a sink of capacity [cap] whose atomics' storage held
    anything before their initialisation. *)
Definition reachable (cap : Z) s : Prop :=
  in_u64 cap /\ exists q g1 g2 g3,
    make_queue cap = inr q /\ rtc sink_step (sink_start q c0 g1 g2 g3) s.

Lemma reachable_inv cap s : reachable cap s -> sink_inv s.
Proof.
  intros (Hcap & q & g1 & g2 & g3 & Hq & Hrun).
  pose proof (sink_start_inv cap q g1 g2 g3 Hcap Hq) as Hinv.
  induction Hrun as [|s1 s2 s3 [Hs|Hs] _ IH]; [done|..]; apply IH.
  - by eapply internal_step_inv.
  - by eapply external_step_inv.
Qed.

Lemma reachable_step cap s s' : reachable cap s -> sink_step s s' -> reachable cap s'.
Proof.
  intros (Hcap & q & g1 & g2 & g3 & Hq & Hrun) Hs. split; [done|].
  exists q, g1, g2, g3. split; [done|]. by eapply rtc_r.
Qed.

Lemma reachable_internal cap s s' : reachable cap s -> rtc internal_step s s' ->
  reachable cap s'.
Proof.
  intros Hr. induction 1 as [|s1 s2 s3 Hs _ IH]; [done|].
  apply IH. eapply reachable_step; [done|by left].
Qed.
End invariant.


(** ** Termination: a measure that every step of the code decreases *)

Definition producer_weight (pc : producer_pc) : nat :=
  match pc with P_load _ => 8 | P_push _ => 7 | P_notify _ => 2 end.
Definition worker_weight (w : worker_pc) : nat :=
  match w with
  | W_lock => 2 | W_blocked => 1 | W_consume _ => 5 | W_count => 4
  | W_fail_count => 4 | W_fail_store => 3 | W_fail_close => 2
  | W_fail_notify => 1 | W_done _ => 0
  end.
Definition shutdown_weight (pc : shutdown_pc) : nat :=
  match pc with
  | S_idle | S_done => 0 | S_store => 6 | S_close => 5 | S_notify => 4 | S_join => 1
  end.
Definition calls_weight : gmap nat producer_pc -> nat := map_weight producer_weight.

Definition sink_measure {C} (s : sink_state C) : nat :=
  (if constructed s then 0 else 1) + calls_weight (producers s) +
  worker_weight (worker s) + shutdown_weight (shutter s) +
  4 * length (items_ (queue_ s)).

Section termination.
Context {C : Type} `{!TelemetryConsumer C} (c0 : C).
Implicit Types (s : sink_state C).

Lemma calls_insert m i pc :
  calls_weight (<[i := pc]> m) = (producer_weight pc + calls_weight (delete i m))%nat.
Proof. apply map_weight_insert. Qed.

Lemma calls_lookup m i pc : m !! i = Some pc ->
  calls_weight m = (producer_weight pc + calls_weight (delete i m))%nat.
Proof. apply map_weight_lookup. Qed.

Lemma wake_weight w : (worker_weight (wake w) <= S (worker_weight w))%nat.
Proof. destruct w; cbn; lia. Qed.

Lemma internal_step_decreases s s' : queue_inv (queue_ s) -> internal_step s s' ->
  (sink_measure s' < sink_measure s)%nat.
Proof.
  intros Hinv. unfold sink_measure. destruct 1 as [s Hc|s tid s' H|s s' H|s s' H].
  - cbn. rewrite Hc. lia.
  - unfold producer_step in H.
    destruct (producers s !! tid) as [pc|] eqn:Hp; [|done].
    rewrite (calls_lookup _ _ _ Hp). destruct pc as [ev|ev|ev].
    + injection H as <-. destruct (negb _); cbn; rewrite ?calls_insert; cbn; lia.
    + destruct (try_push (queue_ s) ev) as [r q'] eqn:Hq. destruct r.
      * destruct (try_push_accepted _ _ _ Hq) as (_&_&Hit&_).
        injection H as <-. cbn. rewrite calls_insert, Hit, length_app. cbn. lia.
      * destruct (try_push_refused _ _ _ _ Hq) as (_&Hit&_); [done|].
        injection H as <-. cbn. rewrite Hit. lia.
      * destruct (try_push_refused _ _ _ _ Hq) as (_&Hit&_); [done|].
        injection H as <-. cbn. rewrite Hit. lia.
    + injection H as <-. cbn. pose proof (wake_weight (worker s)). lia.
  - unfold worker_step in H. destruct (worker s) eqn:Hw; try done.
    2: destruct (consume (consumer_ s) ev) as [[] c'].
    2-8: injection H as <-; cbn; lia.
    destruct (wait_pop (queue_ s)) as [| |ev q'] eqn:E; injection H as <-; cbn; try lia.
    destruct (wait_pop_item _ _ _ Hinv E) as (_&Hit&_). rewrite Hit. cbn. lia.
  - unfold shutdown_step in H. pose proof (wake_weight (worker s)).
    destruct (shutter s); try done; [..|destruct (worker s) eqn:Hw; try done];
      injection H as <-; cbn; rewrite ?Hw; cbn; lia.
Qed.

(** No step of the code is left. *)
Definition quiescent s : Prop := forall s', ~ internal_step s s'.

Lemma quiescent_intro s : constructed s = true -> producers s = ∅ ->
  worker_step s = None -> shutdown_step s = None -> quiescent s.
Proof.
  intros Hc Hp Hw Hs s' Hst. destruct Hst as [s Hc'|s tid s' H|s s' H|s s' H];
    try congruence.
  unfold producer_step in H. by rewrite Hp, lookup_empty in H.
Qed.

Lemma quiescent_facts s : sink_inv c0 s -> quiescent s ->
  constructed s = true /\ producers s = ∅ /\
  (worker s = W_blocked \/ exists f, worker s = W_done f) /\
  (shutter s = S_idle \/ shutter s = S_join /\ worker s = W_blocked \/ shutter s = S_done).
Proof.
  intros Hinv Hq.
  assert (Hc : constructed s = true).
  { destruct (constructed s) eqn:E; [done|]. destruct (Hq _ (int_construct s E)). }
  assert (Hp : producers s = ∅).
  { apply map_eq. intros tid. rewrite lookup_empty.
    destruct (producers s !! tid) as [pc|] eqn:E; [|done].
    destruct (producer_step s tid) eqn:E'; [by destruct (Hq _ (int_producer _ _ _ E'))|].
    unfold producer_step in E'. rewrite E in E'. destruct pc as [ev|ev|ev]; try done.
    by destruct (try_push (queue_ s) ev) as [[] ?]. }
  assert (Hw : worker s = W_blocked \/ exists f, worker s = W_done f).
  { destruct (worker_step s) eqn:E; [by destruct (Hq _ (int_worker _ _ E))|].
    unfold worker_step in E. destruct (worker s); try done; eauto.
    by destruct (consume (consumer_ s) ev). }
  split_and!; try done.
  destruct (shutdown_step s) eqn:E; [by destruct (Hq _ (int_shutdown _ _ E))|].
  unfold shutdown_step in E. destruct (shutter s); try done; eauto.
  right; left. split; [done|]. destruct Hw as [?|[f Hf]]; [done|]. by rewrite Hf in E.
Qed.

(** What is left when no step is: nothing in the calls, nothing in the queue
    unless the consumer failed, and a [shutdown] that has returned. *)
Lemma quiescent_settled cap s : reachable c0 cap s -> quiescent s ->
  producers s = ∅ /\ (items_ (queue_ s) = [] \/ consumer_failures_ s = 1) /\
  (shutter s <> S_idle -> shutter s = S_done).
Proof.
  intros Hs Hq. pose proof (reachable_inv c0 cap s Hs) as Hinv.
  destruct (quiescent_facts s Hinv Hq) as (Hc & Hp & Hw & Hsh).
  destruct Hinv as [_ _ _ _ _ Hf _ _ Hwf Hsf _].
  unfold worker_facts, shutter_facts in *.
  assert (Hblocked : worker s = W_blocked -> shutter s <> S_notify ->
            items_ (queue_ s) = [] /\ closed_ (queue_ s) = false).
  { intros E Hn. rewrite E in Hwf. split.
    - destruct (items_ (queue_ s)) eqn:Ei; [done|].
      destruct Hwf as [?|(t & e & Ht)]; [by left|done|]. by rewrite Hp in Ht.
    - destruct (closed_ (queue_ s)) eqn:Ec; [|done].
      destruct Hwf as [?|(t & e & Ht)]; [by right|done|]. by rewrite Hp in Ht. }
  split; [done|]. split.
  - destruct Hw as [E|[f E]].
    + left. apply Hblocked; [done|]. destruct Hsh as [->|[[-> _]| ->]]; done.
    + rewrite E in *. destruct f; [right; by apply Hf|left; by destruct Hwf].
  - intros Hne. destruct Hsh as [?|[[Ej Eb]|?]]; [done| |done].
    rewrite Ej in *. destruct (Hblocked Eb); [done|congruence].
Qed.

Lemma internal_shutter s s' : internal_step s s' -> shutter s <> S_idle ->
  shutter s' <> S_idle.
Proof.
  destruct 1 as [s Hc|s tid s' H|s s' H|s s' H]; intros Hs; [done|..].
  - unfold producer_step in H. destruct (producers s !! tid) as [[ev|ev|ev]|]; try done.
    + by destruct (negb _); injection H as <-.
    + by destruct (try_push (queue_ s) ev) as [[] ?]; injection H as <-.
    + by injection H as <-.
  - unfold worker_step in H. destruct (worker s); try done;
      repeat case_match; by injection H as <-.
  - unfold shutdown_step in H. destruct (shutter s); try done;
      repeat case_match; by simplify_eq.
Qed.

Lemma internal_run_shutter s s' : rtc internal_step s s' -> shutter s <> S_idle ->
  shutter s' <> S_idle.
Proof. induction 1; eauto using internal_shutter. Qed.
End termination.

(** ** Whole calls *)

Section calls.
Context {C : Type} `{!TelemetryConsumer C} (c0 : C).
Implicit Types (s : sink_state C).

(** [try_accept], run by thread [tid] without interruption. *)
Definition try_accept s (tid : nat) (ev : CollectedEvent) : SinkResult * sink_state C :=
  return_if negb (accepting_events_ s)
    with (Sink_unavailable, sink_return s tid ev Sink_unavailable) ;;
  match try_push (queue_ s) ev with
  | (Push_accepted, q') =>
      (Sink_accepted,
       sink_return (set_worker (set_queue s q' [ev]) (wake (worker s))) tid ev
         Sink_accepted)
  | (r, q') =>
      (sink_result r, sink_return (set_queue s q' []) tid ev (sink_result r))
  end.

Lemma try_accept_run s tid ev : constructed s = true -> producers s !! tid = None ->
  rtc sink_step s (snd (try_accept s tid ev)).
Proof.
  intros Hc Hp. eapply rtc_l; [right; by apply (ext_call s tid ev)|].
  set (s1 := set_producer s tid (P_load ev)).
  assert (H1 : producers s1 !! tid = Some (P_load ev)) by apply lookup_insert_eq.
  eapply rtc_l.
  { left. apply (int_producer s1 tid). unfold producer_step. by rewrite H1. }
  unfold try_accept. change (accepting_events_ s1) with (accepting_events_ s).
  destruct (negb (accepting_events_ s)).
  { cbn. unfold sink_return, s1; cbn. rewrite delete_insert_eq. apply rtc_refl. }
  set (s2 := set_producer s1 tid (P_push ev)).
  assert (H2 : producers s2 !! tid = Some (P_push ev)) by apply lookup_insert_eq.
  destruct (try_push (queue_ s) ev) as [r q'] eqn:Hq.
  assert (H3 : producer_step s2 tid = Some
    match r with
    | Push_accepted => set_producer (set_queue s2 q' [ev]) tid (P_notify ev)
    | _ => sink_return (set_queue s2 q' []) tid ev (sink_result r)
    end).
  { unfold producer_step. rewrite H2. change (queue_ s2) with (queue_ s).
    rewrite Hq. by destruct r. }
  eapply rtc_l; [left; by apply (int_producer s2 tid)|].
  destruct r.
  2,3: unfold sink_return, s2, s1; cbn; rewrite insert_insert_eq, delete_insert_eq;
       apply rtc_refl.
  eapply rtc_l.
  { left. apply (int_producer _ tid). unfold producer_step. cbn.
    by rewrite lookup_insert_eq. }
  unfold sink_return, set_worker, s2, s1; cbn.
  rewrite !insert_insert_eq, delete_insert_eq. apply rtc_refl.
Qed.

Lemma sink_step_capacity s s' : queue_inv (queue_ s) -> sink_step s s' ->
  capacity_ (queue_ s') = capacity_ (queue_ s).
Proof.
  intros Hinv Hst; revert Hinv.
  destruct Hst as [[s0 Hc|s0 tid s1 H|s0 s1 H|s0 s1 H]|[]]; intros Hinv; try done.
  - unfold producer_step in H. destruct (producers s0 !! tid) as [[ev|ev|ev]|]; try done.
    + by destruct (negb _); injection H as <-.
    + destruct (try_push (queue_ s0) ev) as [r q'] eqn:E.
      assert (Hcap : capacity_ q' = capacity_ (queue_ s0)).
      { destruct (decide (r = Push_accepted)) as [->|Hr].
        - by destruct (try_push_accepted _ _ _ E) as (_&_&_&_&?).
        - by destruct (try_push_refused _ _ _ _ E Hr) as (_&_&_&?). }
      by destruct r; injection H as <-.
    + by injection H as <-.
  - unfold worker_step in H. destruct (worker s0); try done;
      repeat case_match; simplify_eq; try done.
    by destruct (wait_pop_item _ _ _ Hinv ltac:(eassumption)) as (_&_&_&_&?).
  - unfold shutdown_step in H. destruct (shutter s0); try done;
      repeat case_match; by simplify_eq.
Qed.

Lemma reachable_capacity cap s : reachable c0 cap s -> capacity_ (queue_ s) = cap.
Proof.
  intros (Hcap & q & g1 & g2 & g3 & Hq & Hrun).
  pose proof (sink_start_inv c0 cap q g1 g2 g3 Hcap Hq) as Hinv.
  destruct (make_queue_inv cap q Hcap Hq) as (_ & Hc & _).
  change (capacity_ (queue_ (sink_start q c0 g1 g2 g3)) = cap) in Hc.
  induction Hrun as [|s1 s2 s3 Hs _ IH]; [done|]. apply IH.
  - destruct Hs; [by apply (internal_step_inv c0 s1)|by apply (external_step_inv c0 s1)].
  - rewrite (sink_step_capacity s1 s2); [done|by destruct Hinv|done].
Qed.
(** ** Why a call was refused *)

(** [shutdown] has been called, or the consumer has failed. *)
Definition stopped s : Prop := shutter s <> S_idle \/ failed (worker s) = true.

(** The result [r] of a call that returned before [s]: an overloaded sink was full,
    an unavailable one is stopped. *)
Definition refusal (cap : Z) s (r : SinkResult) : Prop :=
  match r with
  | Sink_accepted => True
  | Sink_overloaded => exists s1, reachable c0 cap s1 /\ rtc sink_step s1 s /\
      Zlength (items_ (queue_ s1)) = cap
  | Sink_unavailable => stopped s
  end.

Lemma wake_failed w : failed (wake w) = failed w.
Proof. by destruct w. Qed.

Lemma stopped_step s s' : sink_step s s' -> stopped s -> stopped s'.
Proof.
  unfold stopped. intros [[s0 Hc|s0 tid s1 H|s0 s1 H|s0 s1 H]|[]]; cbn; try tauto.
  - unfold producer_step in H. destruct (producers s0 !! tid) as [[ev|ev|ev]|]; try done.
    + by destruct (negb _); injection H as <-.
    + destruct (try_push (queue_ s0) ev) as [[] q']; by injection H as <-.
    + injection H as <-. cbn. by rewrite wake_failed.
  - unfold worker_step in H. destruct (worker s0); try done; repeat case_match; simplify_eq;
      cbn; intuition done.
  - unfold shutdown_step in H. destruct (shutter s0); try done; repeat case_match; simplify_eq;
      cbn; intros _; by left.
  - intros _. by left.
  - destruct (worker s0); cbn; intuition done.
Qed.

(** A closed sink is stopped. *)
Definition closed_stopped s : Prop :=
  constructed s = true -> accepting_events_ s = false \/ closed_ (queue_ s) = true -> stopped s.

Lemma closed_stopped_step s s' : sink_inv c0 s -> sink_step s s' -> closed_stopped s ->
  closed_stopped s'.
Proof.
  intros Hinv Hst. pose proof (stopped_step s s' Hst) as Hmono. revert Hinv Hmono.
  unfold closed_stopped.
  destruct Hst as [[s0 Hc|s0 tid s1 H|s0 s1 H|s0 s1 H]|[]]; intros Hinv Hmono Hs; try (cbn in *; tauto).
  - destruct (si_early _ _ Hinv Hc) as (_ & _ & _ & Hcl & _). cbn. rewrite Hcl. intros _ [|]; done.
  - intros Hc Hcl. apply Hmono, Hs; clear Hmono Hs.
    + unfold producer_step in H. repeat case_match; by simplify_eq.
    + unfold producer_step in H. destruct (producers s0 !! tid) as [[ev|ev|ev]|]; try done.
      * by destruct (negb _); injection H as <-.
      * destruct (try_push (queue_ s0) ev) as [r q'] eqn:E.
        destruct (decide (r = Push_accepted)) as [->|Hr].
        -- destruct (try_push_accepted _ _ _ E) as (? & ? & _).
           injection H as <-. cbn in Hcl. destruct Hcl as [|]; [by left|congruence].
        -- destruct (try_push_refused _ _ _ _ E Hr) as (Hq & _).
           destruct r; try done; injection H as <-; cbn in Hcl; by rewrite Hq in Hcl.
      * by injection H as <-.
  - intros Hc Hcl. unfold worker_step in H. destruct (worker s0) eqn:Ew; try done;
      repeat case_match; simplify_eq; try (by right); try (apply Hmono, Hs; [exact Hc|exact Hcl]).
    apply Hmono, Hs; [exact Hc|]. cbn in Hcl.
    destruct (wait_pop_item _ _ _ (si_queue _ _ Hinv) ltac:(eassumption)) as (_ & _ & Hq & _).
    by rewrite Hq in Hcl.
  - intros _ _. left. unfold shutdown_step in H.
    destruct (shutter s0); try done; repeat case_match; by simplify_eq.
Qed.
(** What a step adds to the results. *)
Lemma sink_step_results s s' : sink_step s s' ->
  results s' = results s \/
  exists tid ev r, results s' = results s ++ [(tid, ev, r)] /\ producers s !! tid <> None /\
    match r with
    | Sink_accepted => True
    | Sink_overloaded => Zlength (items_ (queue_ s)) = capacity_ (queue_ s)
    | Sink_unavailable => accepting_events_ s = false \/ closed_ (queue_ s) = true
    end.
Proof.
  intros [[s0 Hc|s0 tid s1 H|s0 s1 H|s0 s1 H]|[]]; try (by left).
  - unfold producer_step in H. destruct (producers s0 !! tid) as [[ev|ev|ev]|] eqn:E; try done.
    + destruct (accepting_events_ s0) eqn:Ea; injection H as <-; [by left|].
      right. exists tid, ev, Sink_unavailable. rewrite E. split_and!; auto.
    + unfold try_push in H. destruct (closed_ (queue_ s0)) eqn:Ec.
      * injection H as <-. right. exists tid, ev, Sink_unavailable. rewrite E. split_and!; auto.
      * destruct (Z.eqb_spec (Zlength (items_ (queue_ s0))) (capacity_ (queue_ s0)));
          injection H as <-; [right|by left].
        exists tid, ev, Sink_overloaded. by rewrite E.
    + injection H as <-. right. exists tid, ev, Sink_accepted. by rewrite E.
  - left. unfold worker_step in H. destruct (worker s0); try done;
      repeat case_match; by simplify_eq.
  - left. unfold shutdown_step in H. destruct (shutter s0); try done;
      repeat case_match; by simplify_eq.
Qed.

Lemma sink_run_results s s' : rtc sink_step s s' -> results s `prefix_of` results s'.
Proof.
  induction 1 as [|s1 s2 s3 Hs _ IH]; [done|]. etrans; [|exact IH].
  destruct (sink_step_results s1 s2 Hs) as [->|(tid & ev & r & -> & _)]; [done|].
  by apply prefix_app_r.
Qed.

Lemma reachable_run cap s s' : reachable c0 cap s -> rtc sink_step s s' -> reachable c0 cap s'.
Proof.
  intros Hr. induction 1 as [|s1 s2 s3 Hs _ IH]; [done|]. apply IH. by eapply reachable_step.
Qed.

Lemma refusal_step cap s s' r : sink_step s s' -> refusal cap s r -> refusal cap s' r.
Proof.
  intros Hs. destruct r; [done| |by apply stopped_step].
  intros (s1 & Hr & Hrun & Hfull). exists s1. split_and!; [done| |done]. by eapply rtc_r.
Qed.

(** Every refusal of a sink's history has its cause. *)
Lemma refusals_explained cap s : reachable c0 cap s ->
  forall tid ev r, (tid, ev, r) ∈ results s -> refusal cap s r.
Proof.
  intros (Hcap & q & g1 & g2 & g3 & Hq & Hrun).
  assert (Hr0 : reachable c0 cap (sink_start q c0 g1 g2 g3)).
  { split; [done|]. exists q, g1, g2, g3. by split. }
  set (P s := (forall tid ev r, (tid, ev, r) ∈ results s -> refusal cap s r) /\ closed_stopped s).
  enough (forall s0, rtc sink_step s0 s -> reachable c0 cap s0 -> P s0 -> P s) as HP.
  { apply (HP _ Hrun Hr0). split; [intros ??? Hin; by apply not_elem_of_nil in Hin|done]. }
  clear Hrun Hr0. induction 1 as [|s1 s2 s3 Hs _ IH]; [done|]. intros Hr1 [Hres Hcl].
  pose proof (reachable_inv c0 cap s1 Hr1) as Hinv.
  apply IH; [by eapply reachable_step|]. split; [|by eapply closed_stopped_step].
  intros tid ev r Hin.
  destruct (sink_step_results s1 s2 Hs) as [E|(tid' & ev' & r' & E & Hp & Hwhy)];
    rewrite E in Hin; [by eapply refusal_step, Hres|].
  apply elem_of_app in Hin as [Hin|Hin%list_elem_of_singleton]; [by eapply refusal_step, Hres|].
  injection Hin as -> -> ->. apply (refusal_step cap s1 s2 r' Hs).
  destruct r'; [done| |].
  - exists s1. split_and!; [done|apply rtc_refl|].
    by rewrite Hwhy, (reachable_capacity cap s1 Hr1).
  - apply Hcl; [|done]. destruct (producers s1 !! tid') as [pc|] eqn:Ep; [|done].
    by eapply (early_constructed s1 tid' pc), Ep; destruct Hinv.
Qed.
End calls.

(** ** Executable schedules *)

Inductive action :=
  | A_construct | A_call (tid : nat) (ev : CollectedEvent) | A_producer (tid : nat)
  | A_worker | A_call_shutdown | A_shutdown.

Section schedules.
Context {C : Type} `{!TelemetryConsumer C}.
Implicit Types (s : sink_state C).

Definition run_action s (a : action) : option (sink_state C) :=
  match a with
  | A_construct => if constructed s then None else Some (sink_constructed s)
  | A_call tid ev =>
      if constructed s && bool_decide (producers s !! tid = None)
      then Some (set_producer s tid (P_load ev)) else None
  | A_producer tid => producer_step s tid
  | A_worker => worker_step s
  | A_call_shutdown =>
      match constructed s, shutter s with
      | true, (S_idle | S_done) => Some (set_shutter s S_store)
      | _, _ => None
      end
  | A_shutdown => shutdown_step s
  end.

Fixpoint run_actions s (l : list action) : option (sink_state C) :=
  match l with
  | [] => Some s
  | a :: l' => match run_action s a with Some s' => run_actions s' l' | None => None end
  end.

Lemma run_action_step s a s' : run_action s a = Some s' -> sink_step s s'.
Proof.
  destruct a as [|tid ev|tid| | |]; cbn; intros H.
  - destruct (constructed s) eqn:E; [done|]. injection H as <-. left. by constructor.
  - destruct (constructed s) eqn:E; [|done]. case_bool_decide; [|done].
    injection H as <-. right. by constructor.
  - left. by eapply int_producer.
  - left. by eapply int_worker.
  - destruct (constructed s) eqn:E; [|done].
    destruct (shutter s) eqn:E'; try done; injection H as <-; right; constructor; auto.
  - left. by eapply int_shutdown.
Qed.

Lemma run_actions_reachable c0 cap q l s : in_u64 cap -> make_queue cap = inr q ->
  run_actions (sink_start q c0 0 0 false) l = Some s -> reachable c0 cap s.
Proof.
  intros Hcap Hq Hrun. split; [done|]. exists q, 0, 0, false. split; [done|].
  revert Hrun. generalize (sink_start q c0 0 0 false).
  induction l as [|a l IH]; intros s0; cbn; [intros [= ->]; apply rtc_refl|].
  destruct (run_action s0 a) as [s1|] eqn:E; [|done]. intros Hrun.
  eapply rtc_l; [by eapply run_action_step|by apply IH].
Qed.
End schedules.

(** [CountingConsumer] of [app/main.cpp]: the consumer of a collector without an
    output file. Its optional sleep only takes time. *)
Record CountingConsumer := { delay_ : Z; counted_events_ : Z }.

Definition counting_consume (c : CountingConsumer) (ev : CollectedEvent)
    : bool * CountingConsumer :=
  (true, {| delay_ := delay_ c; counted_events_ := u64 (counted_events_ c + 1) |}).

#[export] Instance counting_consumer : TelemetryConsumer CountingConsumer := {
  consume := counting_consume }.

(** Two producers, one event each, then a shutdown, interleaved with the
    consumer thread. *)
Definition sample_collected (seq : Z) : CollectedEvent := {|
  event := {| schema_version := 1; producer_id := "phone"; sequence_number := seq;
              source_timestamp_ns := 5; source_clock := 1;
              payload := kTemperature {| degrees_celsius := double_of_Z 40 |} |};
  collector_arrival_timestamp_ns := 100 + seq |}.

Definition sample_schedule : list action :=
  [A_worker; A_construct; A_call 1 (sample_collected 1); A_call 2 (sample_collected 2);
   A_producer 2; A_producer 1; A_producer 2; A_producer 1; A_producer 2; A_worker;
   A_worker; A_call_shutdown; A_shutdown; A_producer 1; A_worker; A_worker; A_shutdown;
   A_worker; A_shutdown; A_worker; A_worker; A_shutdown].

Definition sample_sink : sink_state CountingConsumer :=
  match make_queue 2 with
  | inr q => default (sink_start q {| delay_ := 0; counted_events_ := 0 |} 0 0 false)
      (run_actions (sink_start q {| delay_ := 0; counted_events_ := 0 |} 0 0 false)
         sample_schedule)
  | inl _ => sink_start (Build_BoundedQueue 0 [] 0 0 0 false)
      {| delay_ := 0; counted_events_ := 0 |} 0 0 false
  end.

Lemma sample_sink_reachable :
  reachable {| delay_ := 0; counted_events_ := 0 |} 2 sample_sink.
Proof.
  eapply (run_actions_reachable _ 2 _ sample_schedule); [solve_range|reflexivity|].
  vm_compute. reflexivity.
Qed.

(** What holds once [shutdown] has returned. *)
Lemma shutdown_outcome {C} `{!TelemetryConsumer C} (c0 : C) (cap : Z)
    (s : sink_state C) (Hs : reachable c0 cap s) (Hdone : shutter s = S_done) :
  let st := ingestion_stats s in
  closed (stats_queue st) = true /\ stats_accepting_events st = false /\
  (stats_consumer_failures st = 0 /\
     items_ (queue_ s) = [] /\ delivered s = taken s /\
     feed c0 (taken s) = (true, consumer_ s) /\
     stats_consumed_events st = accepted_items (stats_queue st)
   \/
   stats_consumer_failures st = 1 /\
     exists good ev, delivered s = good ++ [ev] /\ fst (feed c0 good) = true /\
       fst (consume (snd (feed c0 good)) ev) = false).
Proof.
  pose proof (reachable_inv c0 cap s Hs) as [_ Ho Hh Ha Hc Hf Hcl He Hw Hsh _].
  unfold shutter_facts in Hsh. rewrite Hdone in Hsh. destruct Hsh as [Hclosed [f Hwk]].
  assert (Hcon : constructed s = true).
  { destruct (constructed s) eqn:E; [done|]. destruct (He E) as (_&?&_). congruence. }
  unfold consumer_history, worker_facts in *. rewrite Hwk in *. cbn in *.
  destruct Hh as (d & Hd & Hcs & Hok). rewrite app_nil_r in Hd. subst d.
  split; [done|]. split; [by apply Hcl|]. destruct f.
  - right. split; [by apply Hf|]. done.
  - left. destruct Hw as [_ Hit]. rewrite Hit, app_nil_r in Ho. rewrite Ho.
    split_and!; try done; [by apply Hf| |].
    + destruct (feed c0 (delivered s)); cbn in *; congruence.
    + rewrite Ha, Hc, Ho by done. f_equal; lia.
Qed.

(** ** Properties *)

(** C18: no event is lost, duplicated or reordered. In every state any
    interleaving of producers, consumer thread, shutdown and spurious wake-ups
    can reach: the events taken in are the events delivered to the consumer
    followed by those in the queue, which never exceed the capacity; the
    consumer's state is the result of feeding it the delivered events in that
    order; and the calls that returned [accepted], with those about to, are
    exactly the events taken in. *)
Theorem sink_keeps_events {C} `{!TelemetryConsumer C} (c0 : C) (cap : Z)
    (s : sink_state C) (Hs : reachable c0 cap s) :
  taken s = delivered s ++ items_ (queue_ s) /\
  Zlength (items_ (queue_ s)) <= cap /\
  (exists consumed, delivered s = consumed ++ in_flight (worker s) /\
     consumer_ s = snd (feed c0 consumed)) /\
  taken s ≡ₚ omap accepted_result (results s) ++ notifying (producers s).
Proof.
  pose proof (reachable_inv c0 cap s Hs) as Hinv.
  pose proof (reachable_capacity c0 cap s Hs) as Hcap.
  destruct Hinv as [[? Hsz Hw _ _] ? Hh _ _ _ _ _ _ _ ?].
  split_and!; try done; [lia|].
  destruct Hh as (d & ? & ? & _). by exists d.
Qed.

(** [shutdown] drains. When it has returned, either the consumer never
    failed and every event taken in was consumed, in order, with
    [consumed_events] equal to the queue's [accepted_items]; or it failed once,
    on the last event delivered, and [consumer_failures] is 1. Either way the
    queue is closed and the sink no longer accepts. *)
Theorem shutdown_drains {C} `{!TelemetryConsumer C} (c0 : C) (cap : Z)
    (s : sink_state C) (Hs : reachable c0 cap s) (Hdone : shutter s = S_done) :
  let st := ingestion_stats s in
  closed (stats_queue st) = true /\ stats_accepting_events st = false /\
  (stats_consumer_failures st = 0 /\
     items_ (queue_ s) = [] /\ delivered s = taken s /\
     feed c0 (taken s) = (true, consumer_ s) /\
     stats_consumed_events st = accepted_items (stats_queue st)
   \/
   stats_consumer_failures st = 1 /\
     exists good ev, delivered s = good ++ [ev] /\ fst (feed c0 good) = true /\
       fst (consume (snd (feed c0 good)) ev) = false).
Proof. by apply (shutdown_outcome c0 cap). Qed.

(** C19: no wake-up is lost and [shutdown] returns. From every reachable state
    each step of the code decreases [sink_measure], so without new calls every
    schedule stops; and when no step is left, every call of [try_accept] has
    returned, no accepted event is still queued unless the consumer failed, and
    [shutdown], if it was called, has returned. *)
Theorem sink_always_settles {C} `{!TelemetryConsumer C} (c0 : C) (cap : Z)
    (s : sink_state C) (Hs : reachable c0 cap s) :
  (forall s', internal_step s s' -> (sink_measure s' < sink_measure s)%nat) /\
  (forall s', rtc internal_step s s' -> quiescent s' ->
     producers s' = ∅ /\
     (items_ (queue_ s') = [] \/ consumer_failures_ s' = 1) /\
     (shutter s <> S_idle -> shutter s' = S_done)).
Proof.
  split.
  { intros s'. apply internal_step_decreases. by destruct (reachable_inv c0 cap s Hs). }
  intros s' Hrun Hq.
  destruct (quiescent_settled c0 cap s' (reachable_internal _ _ _ _ Hs Hrun) Hq) as (Hp & Hi & Hsh).
  split_and!; [done|done|]. intros Hne. apply Hsh. by apply (internal_run_shutter s s' Hrun).
Qed.

Lemma sink_keeps_events_witness :
  taken sample_sink = [sample_collected 2; sample_collected 1] /\
  taken sample_sink = delivered sample_sink ++ items_ (queue_ sample_sink).
Proof.
  split; [vm_compute; reflexivity|].
  exact (proj1 (sink_keeps_events _ 2 sample_sink sample_sink_reachable)).
Defined.

Lemma shutdown_drains_witness :
  shutter sample_sink = S_done /\
  closed (stats_queue (ingestion_stats sample_sink)) = true /\
  counted_events_ (consumer_ sample_sink) = 2.
Proof.
  assert (H : shutter sample_sink = S_done) by (vm_compute; reflexivity).
  split; [exact H|]. split; [|vm_compute; reflexivity].
  exact (proj1 (shutdown_drains _ 2 sample_sink sample_sink_reachable H)).
Defined.

Lemma sink_always_settles_witness :
  quiescent sample_sink /\ shutter sample_sink = S_done /\ producers sample_sink = ∅.
Proof.
  assert (Hq : quiescent sample_sink) by (apply quiescent_intro; vm_compute; reflexivity).
  split; [exact Hq|]. split; [vm_compute; reflexivity|].
  exact (proj1 (proj2 (sink_always_settles _ 2 sample_sink sample_sink_reachable)
                  sample_sink (rtc_refl _ _) Hq)).
Defined.
