(* ===== verification/Collector.v ===== *)
(** * Collector: [StreamReactor] and [CollectorService] of
    [src/telemetry/collector_service.cpp]

    gRPC drives a reactor by callbacks: after each [StartRead] it stores the
    next message in [event_] and calls [OnReadDone]. The handler below is that
    callback; the driver [run_stream] plays gRPC for one client stream. *)
From Stdlib Require Import ZArith Lia.
From stdpp Require Import base gmap strings list sorting relations.
From S2P Require Import Prelude Bytes Floats Telemetry Validation BoundedQueue QueuedSink.
Local Open Scope Z_scope.
Local Open Scope tf_scope.

(** [TelemetrySink]: what the collector asks of the pipeline behind it. *)
Class TelemetrySink (S : Type) := {
  sink_try_accept : S -> CollectedEvent -> SinkResult * S;
}.

(** The queue-backed sink, called by thread [tid] between the other threads'
    steps. *)
Definition queued_telemetry_sink {C} `{!TelemetryConsumer C} (tid : nat)
    : TelemetrySink (sink_state C) := {|
  sink_try_accept s ev := try_accept s tid ev |}.

(** The [grpc::StatusCode]s the reactor uses. *)
Inductive StatusCode := OK | INVALID_ARGUMENT | RESOURCE_EXHAUSTED | UNAVAILABLE.
Record Status := { status_code : StatusCode; status_message : string }.
Definition Status_OK : Status := {| status_code := OK; status_message := "" |}.

(** What a callback does last: ask for the next message or end the call. *)
Inductive reactor_action := StartRead | Finish (status : Status).

Record StreamReactor := {
  response_ : StreamSummary;
  validator_ : StreamValidator;
  event_ : TelemetryEvent;
}.

Section reactor.
Context {S : Type} `{!TelemetrySink S}.
(** What [std::move] leaves in a message (valid, but unspecified). *)
Context (moved_from : TelemetryEvent -> TelemetryEvent).
Implicit Types (r : StreamReactor) (s : S).

(** The constructor: the action is the first read. *)
Definition StreamReactor_new (response : StreamSummary) : StreamReactor * reactor_action :=
  ({| response_ := response; validator_ := StreamValidator_init;
      event_ := TelemetryEvent_default |}, StartRead).

(** [OnReadDone]; [now] is what [unix_time_ns()] returns. *)
Definition OnReadDone (ok : bool) (now : Z) r s : StreamReactor * S * reactor_action :=
  return_if negb ok
    with ({| response_ := populate_summary (validator_ r); validator_ := validator_ r;
             event_ := event_ r |}, s, Finish Status_OK) ;;
  let '(validation, v') := accept (validator_ r) (event_ r) in
  let r1 := {| response_ := response_ r; validator_ := v'; event_ := event_ r |} in
  return_if negb (accepted validation)
    with (r1, s, Finish {| status_code := INVALID_ARGUMENT;
                           status_message := error validation |}) ;;
  let collected := {| event := event_ r1; collector_arrival_timestamp_ns := now |} in
  let r2 := {| response_ := response_ r1; validator_ := validator_ r1;
               event_ := moved_from (event_ r1) |} in
  match sink_try_accept s collected with
  | (Sink_accepted, s') =>
      ({| response_ := response_ r2; validator_ := validator_ r2;
          event_ := TelemetryEvent_default |}, s', StartRead)
  | (Sink_overloaded, s') =>
      (r2, s', Finish {| status_code := RESOURCE_EXHAUSTED;
                         status_message := "telemetry queue reached its fixed capacity" |})
  | (Sink_unavailable, s') =>
      (r2, s', Finish {| status_code := UNAVAILABLE;
                         status_message := "telemetry ingestion pipeline is unavailable" |})
  end.

(** gRPC stores the message it read. *)
Definition store_message r (ev : TelemetryEvent) : StreamReactor :=
  {| response_ := response_ r; validator_ := validator_ r; event_ := ev |}.

(** The rest of a call: the messages still to come with the clock readings of
    their callbacks, and, at the end, the read that fails. *)
Fixpoint run_reads r s (reads : list (TelemetryEvent * Z)) : Status * StreamSummary * S :=
  match reads with
  | [] =>
      match OnReadDone false 0 r s with
      | (r', s', Finish st) => (st, response_ r', s')
      | (r', s', StartRead) => (Status_OK, response_ r', s')
      end
  | (ev, now) :: reads' =>
      match OnReadDone true now (store_message r ev) s with
      | (r', s', Finish st) => (st, response_ r', s')
      | (r', s', StartRead) => run_reads r' s' reads'
      end
  end.

(** [StreamTelemetry]: one call with the given messages. *)
Definition run_stream s (reads : list (TelemetryEvent * Z)) : Status * StreamSummary * S :=
  run_reads (fst (StreamReactor_new StreamSummary_default)) s reads.

(** ** What a call does *)

Definition collected_of (p : TelemetryEvent * Z) : CollectedEvent :=
  {| event := p.1; collector_arrival_timestamp_ns := p.2 |}.

(** Offers events to the sink in order. *)
Fixpoint offer s (evs : list CollectedEvent) : list SinkResult * S :=
  match evs with
  | [] => ([], s)
  | ev :: evs' =>
      let '(res, s') := sink_try_accept s ev in
      let '(ress, s'') := offer s' evs' in (res :: ress, s'')
  end.

(** How the call ends after the messages [taken] were validated and taken by
    the sink, leaving validator state [v] and sink [s1]; [rest] is what the
    client sent beyond them. *)
Inductive call_end (v : StreamValidator) (s1 : S) :
    list (TelemetryEvent * Z) -> Status -> StreamSummary -> S -> Prop :=
  | end_of_stream : call_end v s1 [] Status_OK (populate_summary v) s1
  | end_invalid ev now rest v' reason :
      accept v ev = (reject reason, v') ->
      call_end v s1 ((ev, now) :: rest)
        {| status_code := INVALID_ARGUMENT; status_message := reason |}
        StreamSummary_default s1
  | end_overloaded ev now rest v' s2 :
      accept v ev = (accept_result, v') ->
      sink_try_accept s1 (collected_of (ev, now)) = (Sink_overloaded, s2) ->
      call_end v s1 ((ev, now) :: rest)
        {| status_code := RESOURCE_EXHAUSTED;
           status_message := "telemetry queue reached its fixed capacity" |}
        StreamSummary_default s2
  | end_unavailable ev now rest v' s2 :
      accept v ev = (accept_result, v') ->
      sink_try_accept s1 (collected_of (ev, now)) = (Sink_unavailable, s2) ->
      call_end v s1 ((ev, now) :: rest)
        {| status_code := UNAVAILABLE;
           status_message := "telemetry ingestion pipeline is unavailable" |}
        StreamSummary_default s2.

Lemma accept_verdict v ev :
  (exists v', accept v ev = (accept_result, v')) \/
  exists reason v', accept v ev = (reject reason, v').
Proof.
  unfold accept.
  repeat match goal with |- context [if ?c then (reject ?r, _) else _] => destruct c;
    [right; by eexists _, _|] end.
  destruct (validate_payload_shape ev) as [-> |(r & -> & _)]; cbn; eauto.
Qed.

Lemma run_reads_spec reads : forall r s,
  response_ r = StreamSummary_default ->
  exists taken rest v1 s1 status summary s2,
    reads = taken ++ rest /\
    accept_stream (validator_ r) taken.*1 = (taken.*1, v1) /\
    offer s (collected_of <$> taken) = (replicate (length taken) Sink_accepted, s1) /\
    run_reads r s reads = (status, summary, s2) /\
    call_end v1 s1 rest status summary s2.
Proof.
  induction reads as [|[ev now] reads IH]; intros r s Hr.
  { eexists [], [], _, _, _, _, _. split_and!; try reflexivity. constructor. }
  cbn [run_reads]. unfold OnReadDone; cbn [negb store_message validator_ event_ response_].
  destruct (accept_verdict (validator_ r) ev) as [[v' Ha]|(reason & v' & Ha)];
    rewrite Ha; cbn [accepted accept_result reject negb error].
  2: { exists [], ((ev, now) :: reads). do 5 eexists.
       split_and!; [done..|]. rewrite Hr. by econstructor. }
  destruct (sink_try_accept s {| event := ev; collector_arrival_timestamp_ns := now |})
    as [[] s'] eqn:Hs.
  - destruct (IH {| response_ := response_ r; validator_ := v';
                    event_ := TelemetryEvent_default |} s' Hr)
      as (tk & rest & v1 & s1 & status & summary & s2 & -> & Hv & Ho & Hrun & Hend).
    exists ((ev, now) :: tk), rest, v1, s1, status, summary, s2.
    split_and!; try done.
    + cbn. cbn in Hv. by rewrite Ha, Hv.
    + cbn. unfold collected_of at 1; cbn. by rewrite Hs, Ho.
  - exists [], ((ev, now) :: reads). do 5 eexists.
    split_and!; [done..|]. rewrite Hr. by eapply end_overloaded.
  - exists [], ((ev, now) :: reads). do 5 eexists.
    split_and!; [done..|]. rewrite Hr. by eapply end_unavailable.
Qed.
End reactor.

(** ** Properties *)

(** C20: the outcome of one client stream, for every sink. The events sent split
    into those validated and taken by the sink, each offered to it once, in
    order, with its arrival time, and a rest. If the rest is empty the call ends
    with [OK] and a summary that counts every event of the stream; otherwise it
    ends with the status of the first event refused - [INVALID_ARGUMENT] with
    the validator's reason and nothing offered, [RESOURCE_EXHAUSTED] when the
    sink is overloaded, [UNAVAILABLE] when it is unavailable - with an empty
    summary, and nothing after that event is read. *)
Theorem collector_stream_outcome {S} `{!TelemetrySink S}
    (moved_from : TelemetryEvent -> TelemetryEvent) (s : S)
    (reads : list (TelemetryEvent * Z))
    (Hwf : Forall event_wf reads.*1) (Hlen : Zlength reads < 2 ^ 64) :
  exists taken rest v1 s1 status summary s2,
    run_stream moved_from s reads = (status, summary, s2) /\
    reads = taken ++ rest /\
    accept_stream StreamValidator_init taken.*1 = (taken.*1, v1) /\
    offer s (collected_of <$> taken) = (replicate (length taken) Sink_accepted, s1) /\
    call_end v1 s1 rest status summary s2 /\
    (status_code status = OK ->
       rest = [] /\ summary_accepted_events summary = Zlength reads).
Proof.
  destruct (run_reads_spec moved_from reads (fst (StreamReactor_new StreamSummary_default)) s
              eq_refl) as (tk & rest & v1 & s1 & st & sm & s2 & -> & Hv & Ho & Hrun & Hend).
  exists tk, rest, v1, s1, st, sm, s2. split_and!; try done.
  intros Hok. destruct Hend; try done. split; [done|]. rewrite app_nil_r in *.
  assert (Hlen' : Zlength tk.*1 < 2 ^ 64) by (by rewrite length_fmap).
  pose proof (accept_stream_inv tk.*1 _ [] _ v1 stream_inv_init Hwf Hlen' Hv) as Hinv.
  rewrite <- (length_fmap fst tk). exact (inv_count _ _ Hinv).
Qed.

Definition sample_collector_sink : sink_state CountingConsumer :=
  match make_queue 2 with
  | inr q => sink_constructed (sink_start q {| delay_ := 0; counted_events_ := 0 |} 0 0 false)
  | inl _ => sample_sink
  end.

Lemma collector_stream_outcome_witness :
  let run := run_stream (TelemetrySink0 := queued_telemetry_sink 1)
    (fun ev => ev) sample_collector_sink in
  let reads := [(sample_event "phone" 1 5, 100); (sample_event "phone" 2 6, 101);
                (sample_event "phone" 3 7, 102)] in
  status_code (fst (fst (run reads))) = RESOURCE_EXHAUSTED /\
  status_code (fst (fst (run (take 2 reads)))) = OK /\
  exists taken rest v1 s1 status summary s2,
    run reads = (status, summary, s2) /\ reads = taken ++ rest /\
    call_end (TelemetrySink0 := queued_telemetry_sink 1) v1 s1 rest status summary s2.
Proof.
  split; [vm_compute; reflexivity|]. split; [vm_compute; reflexivity|].
  destruct (collector_stream_outcome (TelemetrySink0 := queued_telemetry_sink 1)
    (fun ev => ev) sample_collector_sink
    [(sample_event "phone" 1 5, 100); (sample_event "phone" 2 6, 101);
     (sample_event "phone" 3 7, 102)])
    as (tk & rest & v1 & s1 & st & sm & s2 & Hrun & Hsplit & _ & _ & Hend & _).
  - repeat constructor; solve_range.
  - vm_compute; reflexivity.
  - exact (ex_intro _ tk (ex_intro _ rest (ex_intro _ v1 (ex_intro _ s1 (ex_intro _ st
      (ex_intro _ sm (ex_intro _ s2 (conj Hrun (conj Hsplit Hend))))))))).
Defined.
