(* ===== verification/Crc32c.v ===== *)
(** * Crc32c: the checksum [crc32c] of [src/recording/log.cpp], and what it
    detects: every change confined to four consecutive bytes. *)
From Stdlib Require Import ZArith Lia.
From Stdlib Require Import Strings.Byte.
From stdpp Require Import base gmap strings list.
From S2P Require Import Prelude Bytes.
Local Open Scope Z_scope.

Definition kReflectedCastagnoliPolynomial : Z := 0x82F63B78.

(** One pass of the inner loop. *)
Definition crc_bit (checksum : Z) : Z :=
  let mask := u32 (0 - Z.land checksum 1) in
  Z.lxor (Z.shiftr checksum 1) (Z.land kReflectedCastagnoliPolynomial mask).

(** One pass of the outer loop: eight of the inner one. *)
Definition crc_byte (checksum : Z) (b : byte) : Z :=
  Nat.iter 8 crc_bit (Z.lxor checksum (byte_val b)).

Definition crc32c (bs : bytes) : Z :=
  Z.lxor (fold_left crc_byte bs 0xFFFFFFFF) 0xFFFFFFFF.

(** The standard check value, also that of [tests/recording_log_test.cpp]. *)
Example crc32c_check_value :
  crc32c (byte_of <$> [49; 50; 51; 52; 53; 54; 55; 56; 57]) = 0xE3069283.
Proof. vm_compute. reflexivity. Qed.

(** ** The shift register *)

Lemma lxor_range n a b : 0 <= n -> 0 <= a < 2 ^ n -> 0 <= b < 2 ^ n ->
  0 <= Z.lxor a b < 2 ^ n.
Proof.
  intros Hn Ha Hb. assert (H : 0 <= Z.lxor a b) by (apply Z.lxor_nonneg; lia).
  split; [done|]. apply Z.bounded_iff_bits_nonneg; [done..|]. intros l Hl.
  rewrite Z.lxor_spec.
  rewrite (proj1 (Z.bounded_iff_bits_nonneg n a Hn (proj1 Ha)) (proj2 Ha) l Hl).
  by rewrite (proj1 (Z.bounded_iff_bits_nonneg n b Hn (proj1 Hb)) (proj2 Hb) l Hl).
Qed.

Lemma lxor_u32 a b : in_u32 a -> in_u32 b -> in_u32 (Z.lxor a b).
Proof. apply lxor_range; lia. Qed.

Lemma lxor_cancel_r a b c : Z.lxor a c = Z.lxor b c -> a = b.
Proof.
  intros H. apply (f_equal (fun x => Z.lxor x c)) in H.
  by rewrite !Z.lxor_assoc, Z.lxor_nilpotent, !Z.lxor_0_r in H.
Qed.

Lemma lxor_cancel_l a b c : Z.lxor c a = Z.lxor c b -> a = b.
Proof. rewrite !(Z.lxor_comm c). apply lxor_cancel_r. Qed.

(** The step without the mask trick. *)
Lemma crc_bit_alt c : crc_bit c =
  Z.lxor (Z.shiftr c 1) (if Z.odd c then kReflectedCastagnoliPolynomial else 0).
Proof.
  unfold crc_bit. f_equal. change 1 with (Z.ones 1) at 1.
  rewrite Z.land_ones by lia. change (2 ^ 1) with 2. rewrite Zmod_odd.
  by destruct (Z.odd c).
Qed.

Lemma crc_bit_range c : in_u32 c -> in_u32 (crc_bit c).
Proof.
  intros Hc. rewrite crc_bit_alt. apply lxor_u32.
  - rewrite Z.shiftr_div_pow2 by lia. unfold in_u32 in *.
    split; [apply Z.div_pos; lia|]. apply Z.div_lt_upper_bound; lia.
  - destruct (Z.odd c); [solve_range|split; lia].
Qed.

Lemma crc_bit_linear a b : crc_bit (Z.lxor a b) = Z.lxor (crc_bit a) (crc_bit b).
Proof.
  rewrite !crc_bit_alt, Z.shiftr_lxor.
  rewrite <- (Z.bit0_odd (Z.lxor a b)), Z.lxor_spec, !Z.bit0_odd.
  set (x := Z.shiftr a 1). set (y := Z.shiftr b 1).
  set (p := kReflectedCastagnoliPolynomial).
  destruct (Z.odd a), (Z.odd b); cbn [xorb]; rewrite ?Z.lxor_0_r.
  - rewrite (Z.lxor_comm y p), Z.lxor_assoc, <- (Z.lxor_assoc p p y).
    by rewrite Z.lxor_nilpotent, Z.lxor_0_l.
  - rewrite !Z.lxor_assoc. f_equal. apply Z.lxor_comm.
  - apply Z.lxor_assoc.
  - done.
Qed.

(** The top bit of the polynomial makes the step invertible. *)
Lemma crc_bit_zero c : in_u32 c -> crc_bit c = 0 -> c = 0.
Proof.
  intros Hc H. rewrite crc_bit_alt in H. destruct (Z.odd c) eqn:Ho.
  - apply (f_equal (fun x => Z.testbit x 31)) in H.
    rewrite Z.lxor_spec, Z.shiftr_spec, Z.bits_0 in H by lia.
    change (31 + 1) with 32 in H.
    rewrite (proj1 (Z.bounded_iff_bits_nonneg 32 c ltac:(lia) (proj1 Hc)) (proj2 Hc)) in H
      by lia.
    done.
  - rewrite Z.lxor_0_r, Z.shiftr_div_pow2 in H by lia. change (2 ^ 1) with 2 in H.
    pose proof (Z.div_mod c 2). rewrite Zmod_odd, Ho, H in *. unfold in_u32 in *. lia.
Qed.

Lemma iter_range n c : in_u32 c -> in_u32 (Nat.iter n crc_bit c).
Proof. intros Hc. induction n as [|n IH]; [done|]. rewrite Nat.iter_succ. by apply crc_bit_range. Qed.

Lemma iter_linear n a b :
  Nat.iter n crc_bit (Z.lxor a b) = Z.lxor (Nat.iter n crc_bit a) (Nat.iter n crc_bit b).
Proof. induction n as [|n IH]; [done|]. by rewrite !Nat.iter_succ, IH, crc_bit_linear. Qed.

Lemma iter_injective n a b : in_u32 a -> in_u32 b ->
  Nat.iter n crc_bit a = Nat.iter n crc_bit b -> a = b.
Proof.
  intros Ha Hb H. apply Z.lxor_eq.
  assert (H0 : Nat.iter n crc_bit (Z.lxor a b) = 0)
    by (rewrite iter_linear, H; apply Z.lxor_nilpotent).
  pose proof (lxor_u32 a b Ha Hb) as Hr. clear H. revert H0.
  induction n as [|n IH]; [done|]. rewrite Nat.iter_succ. intros H. apply IH.
  by apply crc_bit_zero; [apply iter_range|].
Qed.

Lemma iter_add n k c : Nat.iter (n + k) crc_bit c = Nat.iter n crc_bit (Nat.iter k crc_bit c).
Proof. induction n as [|n IH]; [done|]. cbn [Nat.add]. by rewrite !Nat.iter_succ, IH. Qed.

(** Zero bits in front only shift out. *)
Lemma iter_shift n c : 0 <= c -> Nat.iter n crc_bit (c * 2 ^ Z.of_nat n) = c.
Proof.
  intros Hc. induction n as [|n IH]; [cbn; lia|].
  replace (S n) with (n + 1)%nat by lia. rewrite iter_add. cbn [Nat.iter nat_rect].
  replace (c * 2 ^ Z.of_nat (n + 1)) with (2 * (c * 2 ^ Z.of_nat n)).
  2: { rewrite Nat2Z.inj_add, Z.pow_add_r by lia. change (2 ^ Z.of_nat 1) with 2. ring. }
  cbn. rewrite crc_bit_alt, Z.odd_mul. cbn [Z.odd andb]. rewrite Z.lxor_0_r.
  rewrite Z.shiftr_div_pow2 by lia. change (2 ^ 1) with 2.
  rewrite Z.mul_comm, Z.div_mul by lia. exact IH.
Qed.

(** ** Whole messages *)

(** The round count as a variable, so that the kernel never unrolls the rounds. *)
Lemma crc_byte_iter c b : exists n, n = 8%nat /\
  crc_byte c b = Nat.iter n crc_bit (Z.lxor c (byte_val b)).
Proof. by exists 8%nat. Qed.

Lemma crc_byte_range c b : in_u32 c -> in_u32 (crc_byte c b).
Proof.
  intros Hc. destruct (crc_byte_iter c b) as (n & _ & ->). apply iter_range, lxor_u32; [done|].
  pose proof (byte_val_range b). unfold in_u32. lia.
Qed.

Lemma fold_range bs c : in_u32 c -> in_u32 (fold_left crc_byte bs c).
Proof.
  revert c; induction bs as [|b bs IH]; intros c Hc; [done|].
  rewrite fold_left_cons.
  by apply IH, crc_byte_range.
Qed.

Lemma crc32c_range bs : in_u32 (crc32c bs).
Proof. apply lxor_u32; [apply fold_range|]; solve_range. Qed.

(** The bytes enter the register as one little-endian number. *)
Lemma fold_word bs c :
  fold_left crc_byte bs c =
    Nat.iter (8 * length bs) crc_bit (Z.lxor c (LittleEndian.le_combine bs)).
Proof.
  revert c.
  induction bs as [|b bs IH]; intros c.
  - cbn. by rewrite Z.lxor_0_r.
  - rewrite fold_left_cons, IH. cbn [LittleEndian.le_combine length]. destruct (crc_byte_iter c b) as (n & Hn & ->).
    replace (8 * S (length bs))%nat with (8 * length bs + n)%nat by lia.
    rewrite iter_add. f_equal.
    pose proof (LittleEndian.le_combine_range bs) as [Hr _].
    pose proof (byte_val_range b) as Hb.
    set (w := LittleEndian.le_combine bs) in *.
    assert (Hsum : byte_val b + 256 * w = Z.lxor (byte_val b) (w * 2 ^ Z.of_nat n)).
    { rewrite Hn. change (2 ^ Z.of_nat 8) with (2 ^ 8). rewrite <- Z.shiftl_mul_pow2 by lia.
      rewrite LittleEndian.lxor_shiftl_add by lia. lia. }
    by rewrite Hsum, <- Z.lxor_assoc, (iter_linear n (Z.lxor _ _) (w * _)), iter_shift.
Qed.

Lemma fold_injective bs a b : in_u32 a -> in_u32 b ->
  fold_left crc_byte bs a = fold_left crc_byte bs b -> a = b.
Proof.
  revert a b; induction bs as [|x bs IH]; intros a b Ha Hb; [done|].
  rewrite !fold_left_cons. intros H. apply IH in H; [|by apply crc_byte_range..].
  revert H. destruct (crc_byte_iter a x) as (n & Hn & ->).
  destruct (crc_byte_iter b x) as (k & Hk & ->). rewrite Hk, <- Hn. intros H.
  apply iter_injective in H; [by apply lxor_cancel_r in H| |];
    (apply lxor_u32; [done|]; pose proof (byte_val_range x); unfold in_u32; lia).
Qed.

Lemma crc32c_burst pre mid mid' post :
  length mid = length mid' -> (length mid <= 4)%nat -> mid <> mid' ->
  crc32c (pre ++ mid ++ post) <> crc32c (pre ++ mid' ++ post).
Proof.
  intros Hlen H4 Hne H. apply Hne. apply lxor_cancel_r in H.
  rewrite !fold_left_app in H.
  set (c := fold_left crc_byte pre 0xFFFFFFFF) in *.
  assert (Hc : in_u32 c) by (apply fold_range; solve_range).
  apply fold_injective in H; [|by apply fold_range..].
  rewrite !fold_word in H. rewrite <- Hlen in H.
  assert (Hw : forall m, (length m <= 4)%nat -> in_u32 (LittleEndian.le_combine m)).
  { intros m Hm. pose proof (LittleEndian.le_combine_range m).
    pose proof (Z.pow_le_mono_r 2 (8 * Zlength m) 32). unfold in_u32. lia. }
  apply iter_injective in H; [|apply lxor_u32; [done|apply Hw; lia]..].
  apply lxor_cancel_l in H. by apply LittleEndian.le_combine_inj.
Qed.

(** One changed byte. *)
Lemma crc32c_one_byte bs i b b' : bs !! i = Some b -> b' <> b ->
  crc32c (<[i := b']> bs) <> crc32c bs.
Proof.
  intros Hi Hne. pose proof (lookup_lt_Some _ _ _ Hi).
  rewrite insert_take_drop by done.
  rewrite <- (take_drop_middle bs i b Hi) at 3.
  apply (crc32c_burst (take i bs) [b'] [b]); [done|cbn; lia|congruence].
Qed.

(** ** Properties *)

(** C24: The checksum detects every change confined to four consecutive bytes,
    wherever they sit in the message: two messages that differ there and agree
    elsewhere have different checksums, and both are 32-bit values. *)
Theorem crc32c_detects_bursts pre mid mid' post :
  length mid = length mid' -> (length mid <= 4)%nat -> mid <> mid' ->
  crc32c (pre ++ mid ++ post) <> crc32c (pre ++ mid' ++ post) /\
  in_u32 (crc32c (pre ++ mid ++ post)) /\ in_u32 (crc32c (pre ++ mid' ++ post)).
Proof. intros. split_and!; [by apply crc32c_burst|apply crc32c_range..]. Qed.

Lemma crc32c_detects_bursts_witness :
  crc32c ([x01] ++ [x02; x03; x04; x05] ++ [x06]) <>
  crc32c ([x01] ++ [x82; x03; xff; x05] ++ [x06]).
Proof.
  apply (crc32c_detects_bursts [x01] [x02; x03; x04; x05] [x82; x03; xff; x05] [x06]);
    [reflexivity|cbn; lia|discriminate].
Defined.
