(* ===== verification/Streams.v ===== *)
(** * Streams: the parts of [<fstream>] and [<filesystem>] the recorder uses

    [std::ifstream] over the bytes a file delivers, with its three error bits,
    its position and [gcount]; [std::ofstream] with a script of outcomes for
    its writes and flushes; the existence, size and resize queries. Only the
    members the sources call are here, each with the standard's effect on the
    stream state. *)
From Stdlib Require Import ZArith Lia.
From Stdlib Require Import Strings.Byte.
From stdpp Require Import base gmap strings list.
From S2P Require Import Prelude Bytes.
Local Open Scope Z_scope.
Local Open Scope tf_scope.

(** ** Input *)

Record ifstream := {
  is_data : bytes;          (* what the file delivers from its beginning on *)
  is_pos : Z;
  is_eofbit : bool;
  is_failbit : bool;
  is_gcount : Z;
}.

Definition is_good (s : ifstream) : bool := negb (is_eofbit s || is_failbit s).

(** [!input] *)
Definition is_fail (s : ifstream) : bool := is_failbit s.

(** [std::ifstream input{path, std::ios::binary}] over an open file. *)
Definition ifstream_open (data : bytes) : ifstream :=
  {| is_data := data; is_pos := 0; is_eofbit := false; is_failbit := false;
     is_gcount := 0 |}.

Definition is_clear (s : ifstream) : ifstream :=
  {| is_data := is_data s; is_pos := is_pos s; is_eofbit := false;
     is_failbit := false; is_gcount := is_gcount s |}.

(** The characters between the position and the end. *)
Definition is_rest (s : ifstream) : bytes := drop (Z.to_nat (is_pos s)) (is_data s).

(** [read(p, n)]: the characters delivered and the stream after. *)
Definition is_read (s : ifstream) (n : Z) : bytes * ifstream :=
  return_if negb (is_good s) with
    ([], {| is_data := is_data s; is_pos := is_pos s; is_eofbit := is_eofbit s;
            is_failbit := true; is_gcount := 0 |}) ;;
  let got := take (Z.to_nat n) (is_rest s) in
  let short := Zlength got <? n in
  (got, {| is_data := is_data s; is_pos := is_pos s + Zlength got;
           is_eofbit := short; is_failbit := short; is_gcount := Zlength got |}).

(** [ignore(n)]: reaching the end sets [eofbit] only. *)
Definition is_ignore (s : ifstream) (n : Z) : ifstream :=
  return_if negb (is_good s) with
    {| is_data := is_data s; is_pos := is_pos s; is_eofbit := is_eofbit s;
       is_failbit := true; is_gcount := 0 |} ;;
  let got := Zlength (take (Z.to_nat n) (is_rest s)) in
  {| is_data := is_data s; is_pos := is_pos s + got; is_eofbit := got <? n;
     is_failbit := false; is_gcount := got |}.

(** [seekg(pos)]: clears [eofbit]; a negative position fails; one behind the
    end does not. *)
Definition is_seekg (s : ifstream) (pos : Z) : ifstream :=
  return_if is_failbit s with
    {| is_data := is_data s; is_pos := is_pos s; is_eofbit := false;
       is_failbit := true; is_gcount := is_gcount s |} ;;
  {| is_data := is_data s; is_pos := if pos <? 0 then is_pos s else pos;
     is_eofbit := false; is_failbit := pos <? 0; is_gcount := is_gcount s |}.

(** ** Output *)

(** What the operating system answers to one write or flush; of a write that
    fails, some of the bytes may have been taken. *)
Inductive IoOutcome := Io_ok | Io_fail (kept : nat).

Record ofstream := {
  os_open : bool;
  os_bad : bool;
  os_data : bytes;               (* the bytes taken, buffered or written *)
  os_synced : nat;               (* how many of them a flush has written *)
  os_script : list IoOutcome;    (* the outcomes to come; all succeed after the last *)
}.

(** A stream that was never opened. *)
Definition ofstream_closed : ofstream :=
  {| os_open := false; os_bad := false; os_data := []; os_synced := 0%nat;
     os_script := [] |}.

(** After [open(path, binary | trunc)]. *)
Definition ofstream_opened (script : list IoOutcome) : ofstream :=
  {| os_open := true; os_bad := false; os_data := []; os_synced := 0%nat;
     os_script := script |}.

Definition ofstream_open_failed : ofstream :=
  {| os_open := false; os_bad := true; os_data := []; os_synced := 0%nat;
     os_script := [] |}.

(** [good()], and the negation of [!output]: [eofbit] is never set here. *)
Definition os_good (s : ofstream) : bool := negb (os_bad s).

Definition os_write (s : ofstream) (bs : bytes) : ofstream :=
  return_if os_bad s with s ;;
  match os_script s with
  | [] =>
      {| os_open := os_open s; os_bad := false; os_data := os_data s ++ bs;
         os_synced := os_synced s; os_script := [] |}
  | Io_ok :: script =>
      {| os_open := os_open s; os_bad := false; os_data := os_data s ++ bs;
         os_synced := os_synced s; os_script := script |}
  | Io_fail kept :: script =>
      {| os_open := os_open s; os_bad := true;
         os_data := os_data s ++ take kept bs;
         os_synced := os_synced s; os_script := script |}
  end.

Definition os_flush (s : ofstream) : ofstream :=
  return_if os_bad s with s ;;
  match os_script s with
  | [] =>
      {| os_open := os_open s; os_bad := false; os_data := os_data s;
         os_synced := length (os_data s); os_script := [] |}
  | Io_ok :: script =>
      {| os_open := os_open s; os_bad := false; os_data := os_data s;
         os_synced := length (os_data s); os_script := script |}
  | Io_fail _ :: script =>
      {| os_open := os_open s; os_bad := true; os_data := os_data s;
         os_synced := os_synced s; os_script := script |}
  end.

(** ** The file system *)

Record filesystem := {
  files : gmap string bytes;
  stat_error : string -> bool;    (* the query itself fails *)
  open_error : string -> bool;    (* the file cannot be opened *)
  resize_error : string -> bool;
}.

Definition with_files (fs : filesystem) (m : gmap string bytes) : filesystem :=
  {| files := m; stat_error := stat_error fs; open_error := open_error fs;
     resize_error := resize_error fs |}.

(** [std::filesystem::exists(path, error)]; [None] sets the error. *)
Definition fs_exists (fs : filesystem) (path : string) : option bool :=
  return_if stat_error fs path with None ;; Some (bool_decide (is_Some (files fs !! path))).

Definition fs_file_size (fs : filesystem) (path : string) : option Z :=
  return_if stat_error fs path with None ;; (fun bs => Zlength bs) <$> files fs !! path.

(** The bytes a reader gets, if the file opens. *)
Definition fs_open_read (fs : filesystem) (path : string) : option bytes :=
  return_if open_error fs path with None ;; files fs !! path.

(** [std::filesystem::resize_file(path, size, error)]: cuts, or extends with
    zeros. *)
Definition fs_resize (fs : filesystem) (path : string) (size : Z) : option filesystem :=
  return_if resize_error fs path with None ;;
  match files fs !! path with
  | None => None
  | Some bs =>
      Some (with_files fs (<[path := resize (Z.to_nat size) x00 bs]> (files fs)))
  end.

(** A file system on which every operation succeeds. *)
Definition fs_of (m : gmap string bytes) : filesystem :=
  {| files := m; stat_error _ := false; open_error _ := false;
     resize_error _ := false |}.

(** ** Reading within the file *)

(** A stream without errors, at [pos]. *)
Definition at_pos (data : bytes) (pos : Z) (s : ifstream) : Prop :=
  is_data s = data /\ is_pos s = pos /\ is_eofbit s = false /\ is_failbit s = false.

Lemma ifstream_open_at data : at_pos data 0 (ifstream_open data).
Proof. done. Qed.

Lemma at_pos_good data pos s : at_pos data pos s -> is_good s = true.
Proof. intros (_ & _ & He & Hf). unfold is_good. by rewrite He, Hf. Qed.

Lemma is_read_within data pos s n :
  at_pos data pos s -> 0 <= pos -> 0 <= n -> pos + n <= Zlength data ->
  let r := is_read s n in
  r.1 = take (Z.to_nat n) (drop (Z.to_nat pos) data) /\
  is_gcount r.2 = n /\ at_pos data (pos + n) r.2.
Proof.
  intros Hs Hp Hn Hle. unfold is_read. rewrite (at_pos_good _ _ _ Hs). cbn [negb fst snd].
  destruct Hs as (Hd & Hpos & _ & _). unfold is_rest. rewrite Hd, Hpos.
  set (got := take _ _).
  assert (Hlen : Zlength got = n)
    by (subst got; rewrite length_take, length_drop; lia).
  repeat split; cbn; rewrite ?Hlen; try lia; by apply Z.ltb_ge.
Qed.

(** What a read delivers, for any length: the rest of the file at most. *)
Lemma is_read_at data pos s n :
  at_pos data pos s ->
  (is_read s n).1 = take (Z.to_nat n) (drop (Z.to_nat pos) data).
Proof.
  intros Hs. unfold is_read. rewrite (at_pos_good _ _ _ Hs). cbn.
  destruct Hs as (Hd & Hpos & _ & _). unfold is_rest. by rewrite Hd, Hpos.
Qed.

(** Writes only append, and keep the synced prefix. *)
Lemma os_write_data s bs : exists kept,
  os_data (os_write s bs) = os_data s ++ take kept bs /\
  os_synced (os_write s bs) = os_synced s /\
  os_open (os_write s bs) = os_open s.
Proof.
  unfold os_write. destruct (os_bad s); cbn.
  - exists 0%nat. by rewrite take_0, app_nil_r.
  - destruct (os_script s) as [|[|k] l]; cbn;
      [exists (length bs)|exists (length bs)|exists k]; rewrite ?firstn_all; done.
Qed.

Lemma os_write_good s bs : os_bad (os_write s bs) = false ->
  os_bad s = false /\ os_data (os_write s bs) = os_data s ++ bs.
Proof.
  unfold os_write. destruct (os_bad s) eqn:E; cbn; [congruence|].
  destruct (os_script s) as [|[|k] l]; cbn; [done..|congruence].
Qed.

Lemma os_flush_data s :
  os_data (os_flush s) = os_data s /\ os_open (os_flush s) = os_open s.
Proof. unfold os_flush. destruct (os_bad s), (os_script s) as [|[] ?]; done. Qed.

Lemma os_flush_synced s :
  os_synced (os_flush s) = os_synced s \/ os_synced (os_flush s) = length (os_data s).
Proof. unfold os_flush. destruct (os_bad s), (os_script s) as [|[] ?]; cbn; auto. Qed.

Lemma os_flush_good s : os_bad (os_flush s) = false ->
  os_bad s = false /\ os_synced (os_flush s) = length (os_data s).
Proof.
  unfold os_flush. destruct (os_bad s) eqn:E; cbn; [congruence|].
  destruct (os_script s) as [|[] ?]; cbn; done.
Qed.
