(* ===== verification/LogFormat.v ===== *)
(** * LogFormat: the recording format of [include/traceforge/recording/log.hpp]

    The constants and records of the header file, the two header layouts as
    [log.cpp] builds them (a zeroed array filled field by field), and the
    abstract image of a log: the file header followed by the records. The
    layout lemmas say what every field of the built headers decodes to. *)
From Stdlib Require Import ZArith Lia.
From Stdlib Require Import Strings.Byte.
From stdpp Require Import base gmap strings list.
From S2P Require Import Prelude Bytes Floats Telemetry Crc32c.
Import LittleEndian.
Local Open Scope Z_scope.

Definition kFileMagic : bytes := byte_of <$> [84; 70; 76; 79; 71; 13; 10; 0x1A].
Definition kRecordMagic : bytes := byte_of <$> [84; 70; 82; 49].
Definition kLogFormatVersion : Z := 1.
Definition kRecordFormatVersion : Z := 1.
Definition kFileHeaderSize : Z := 32.
Definition kRecordHeaderSize : Z := 36.
Definition kMaximumPayloadSize : Z := 4 * 1024 * 1024.

Record LogWriterOptions := {
  flush_every_records : Z;
  opt_created_unix_ns : Z;
}.
Definition LogWriterOptions_default : LogWriterOptions :=
  {| flush_every_records := 64; opt_created_unix_ns := 0 |}.

Inductive LogReadStatus :=
  | Log_complete | Log_truncated_tail | Log_corrupt | Log_io_error
  | Log_resource_limit.
#[export] Instance LogReadStatus_eq_dec : EqDecision LogReadStatus.
Proof. solve_decision. Defined.

Record LogRecord := {
  rec_record_index : Z;
  rec_file_offset : Z;
  rec_collector_arrival_timestamp_ns : Z;
  rec_event : TelemetryEvent;
}.

Record LogIndexEntry := {
  record_index : Z;
  file_offset : Z;
  payload_size : Z;
  payload_crc32c : Z;
  entry_collector_arrival_timestamp_ns : Z;
  entry_source_timestamp_ns : Z;
}.
#[export] Instance LogIndexEntry_eq_dec : EqDecision LogIndexEntry.
Proof. solve_decision. Defined.

Record LogReadOptions := {
  maximum_records : Z;
  retain_records : bool;
}.
Definition LogReadOptions_default : LogReadOptions :=
  {| maximum_records := 1000000; retain_records := true |}.

Record LogReadResult := {
  status : LogReadStatus;
  created_unix_ns : Z;
  file_size : Z;
  valid_bytes : Z;
  error_offset : Z;
  message : string;
  index : list LogIndexEntry;
  records : list LogRecord;
}.
Definition LogReadResult_default : LogReadResult :=
  {| status := Log_io_error; created_unix_ns := 0; file_size := 0;
     valid_bytes := 0; error_offset := 0; message := ""; index := []; records := [] |}.

Record RecoveryResult := {
  succeeded : bool;
  changed : bool;
  original_size : Z;
  recovered_size : Z;
  recovery_message : string;
}.

(** ** The headers as the writer builds them *)

(** [std::copy(bytes.begin(), bytes.end(), header.begin())] *)
Definition copy_to_front (bs header : bytes) : bytes := bs ++ drop (length bs) header.

(** The header built in [LogWriter::write_file_header]. *)
Definition build_file_header (created : Z) : bytes :=
  let header := replicate (Z.to_nat kFileHeaderSize) x00 in
  let header := copy_to_front kFileMagic header in
  let header := encode_little_endian 2 header 8 kLogFormatVersion in
  let header := encode_little_endian 2 header 10 kFileHeaderSize in
  let header := encode_little_endian 4 header 12 0 in
  let header := encode_little_endian 8 header 16 created in
  let header := encode_little_endian 4 header 24 0 in
  encode_little_endian 4 header 28 (crc32c (take 28 header)).

(** The header built in [LogWriter::append]. *)
Definition build_record_header (record_count arrival : Z) (payload : bytes) : bytes :=
  let header := replicate (Z.to_nat kRecordHeaderSize) x00 in
  let header := copy_to_front kRecordMagic header in
  let header := encode_little_endian 2 header 4 kRecordHeaderSize in
  let header := encode_little_endian 2 header 6 kRecordFormatVersion in
  let header := encode_little_endian 4 header 8 (u32 (Zlength payload)) in
  let header := encode_little_endian 4 header 12 (crc32c payload) in
  let header := encode_little_endian 8 header 16 record_count in
  let header := encode_little_endian 8 header 24 arrival in
  encode_little_endian 4 header 32 (crc32c (take 32 header)).

(** ** The abstract image of a log *)

(** What a record carries: the arrival time and the serialised event. *)
Record Entry := { arrival : Z; body : bytes }.

Definition record_image (i : Z) (e : Entry) : bytes :=
  build_record_header i (arrival e) (body e) ++ body e.

Fixpoint records_image (i : Z) (es : list Entry) : bytes :=
  match es with
  | [] => []
  | e :: es' => record_image i e ++ records_image (i + 1) es'
  end.

Definition log_image (created : Z) (es : list Entry) : bytes :=
  build_file_header created ++ records_image 0 es.

(** ** Layout *)

Definition file_header_fields (created : Z) : list bytes :=
  [kFileMagic; le_split 2 kLogFormatVersion; le_split 2 kFileHeaderSize;
   le_split 4 0; le_split 8 created; le_split 4 0].

Definition record_header_fields (i arrival : Z) (payload : bytes) : list bytes :=
  [kRecordMagic; le_split 2 kRecordHeaderSize; le_split 2 kRecordFormatVersion;
   le_split 4 (Zlength payload); le_split 4 (crc32c payload);
   le_split 8 i; le_split 8 arrival].

(** A field written behind a filled prefix into zeros. *)
Lemma encode_append n k pre z : (n <= k)%nat ->
  encode_little_endian n (pre ++ replicate k x00) (length pre) z =
    (pre ++ le_split n z) ++ replicate (k - n) x00.
Proof.
  intros H. rewrite encode_spec by (rewrite length_app, length_replicate; lia).
  rewrite take_app_length, le_split_mod, <- app_assoc. do 2 f_equal.
  rewrite <- drop_drop, drop_app_length. apply drop_replicate.
Qed.

Lemma encode_append_at n k off pre z : off = length pre -> (n <= k)%nat ->
  encode_little_endian n (pre ++ replicate k x00) off z =
    (pre ++ le_split n z) ++ replicate (k - n) x00.
Proof. intros ->. apply encode_append. Qed.

(** The last field, computed over everything before it. *)
Lemma encode_last n off pre z : off = length pre ->
  encode_little_endian n (pre ++ replicate n x00) off z = pre ++ le_split n z.
Proof.
  intros ->. rewrite encode_append by done. by rewrite Nat.sub_diag, app_nil_r.
Qed.

Lemma build_file_header_layout created :
  build_file_header created =
    concat (file_header_fields created) ++
    le_split 4 (crc32c (concat (file_header_fields created))).
Proof.
  unfold build_file_header.
  change (copy_to_front kFileMagic (replicate (Z.to_nat kFileHeaderSize) x00))
    with (kFileMagic ++ replicate 24 x00).
  do 5 (rewrite encode_append_at by (rewrite ?length_app, ?le_split_length; cbn; lia)).
  cbn [Nat.sub]. cbv zeta.
  assert (Hc : concat (file_header_fields created) =
    ((((kFileMagic ++ le_split 2 kLogFormatVersion) ++ le_split 2 kFileHeaderSize) ++
      le_split 4 0) ++ le_split 8 created) ++ le_split 4 0).
  { cbn [file_header_fields concat]. by rewrite app_nil_r, <- !app_assoc. }
  rewrite <- !Hc, take_app_len by reflexivity.
  apply encode_last. reflexivity.
Qed.

Lemma build_record_header_layout i ts p :
  build_record_header i ts p =
    concat (record_header_fields i ts p) ++
    le_split 4 (crc32c (concat (record_header_fields i ts p))).
Proof.
  unfold build_record_header.
  change (copy_to_front kRecordMagic (replicate (Z.to_nat kRecordHeaderSize) x00))
    with (kRecordMagic ++ replicate 32 x00).
  do 6 (rewrite encode_append_at by (rewrite ?length_app, ?le_split_length; cbn; lia)).
  cbn [Nat.sub]. cbv zeta.
  assert (Hc : concat (record_header_fields i ts p) =
    (((((kRecordMagic ++ le_split 2 kRecordHeaderSize) ++ le_split 2 kRecordFormatVersion) ++
      le_split 4 (u32 (Zlength p))) ++ le_split 4 (crc32c p)) ++ le_split 8 i) ++
      le_split 8 ts).
  { cbn [record_header_fields concat]. rewrite app_nil_r, <- !app_assoc.
    unfold u32. change (2 ^ 32) with (2 ^ (8 * Z.of_nat 4)).
    by rewrite (le_split_mod 4). }
  rewrite <- !Hc, take_app_len by reflexivity.
  apply encode_last. reflexivity.
Qed.

Lemma file_header_length created : length (build_file_header created) = 32%nat.
Proof. by rewrite build_file_header_layout. Qed.

Lemma record_header_length i ts p : length (build_record_header i ts p) = 36%nat.
Proof. by rewrite build_record_header_layout. Qed.

Lemma record_image_length i e : length (record_image i e) = (36 + length (body e))%nat.
Proof. unfold record_image. by rewrite length_app, record_header_length. Qed.

Lemma records_image_app i es es' :
  records_image i (es ++ es') =
    records_image i es ++ records_image (i + Zlength es) es'.
Proof.
  revert i; induction es as [|e es IH]; intros i; cbn [records_image app length].
  - by rewrite Z.add_0_r.
  - rewrite IH, <- app_assoc. by replace (i + 1 + Zlength es) with
      (i + Z.of_nat (S (length es))) by lia.
Qed.

Lemma log_image_snoc created es e :
  log_image created (es ++ [e]) =
    log_image created es ++ record_image (Zlength es) e.
Proof.
  unfold log_image. rewrite records_image_app. cbn. by rewrite app_nil_r, app_assoc.
Qed.

Lemma log_image_length created es :
  length (log_image created es) = (32 + length (records_image 0 es))%nat.
Proof. unfold log_image. by rewrite length_app, file_header_length. Qed.

Lemma log_image_length_0 created : length (log_image created []) = 32%nat.
Proof. unfold log_image. by rewrite length_app, file_header_length. Qed.

(** A field decodes to what was stored, wherever it sits among the others. *)
Lemma decode_among n fields k z tail off :
  fields !! k = Some (le_split n z) -> off = length (concat (take k fields)) ->
  decode_little_endian n (concat fields ++ tail) off = z mod 2 ^ (8 * Z.of_nat n).
Proof.
  intros Hk ->. rewrite <- (take_drop_middle fields k _ Hk) at 1.
  rewrite concat_app, <- app_assoc. cbn [concat]. rewrite <- app_assoc.
  apply decode_field.
Qed.

(** The fields of a file header. *)
Lemma file_header_decoded created : let h := build_file_header created in
  take 8 h = kFileMagic /\
  decode_little_endian 2 h 8 = kLogFormatVersion /\
  decode_little_endian 2 h 10 = kFileHeaderSize /\
  decode_little_endian 8 h 16 = u64 created /\
  decode_little_endian 4 h 28 = crc32c (take 28 h).
Proof.
  cbv zeta. rewrite build_file_header_layout.
  set (fs := file_header_fields created).
  assert (Hlen : length (concat fs) = 28%nat) by done.
  split_and!.
  - done.
  - by rewrite (decode_among 2 fs 1 kLogFormatVersion).
  - by rewrite (decode_among 2 fs 2 kFileHeaderSize).
  - by rewrite (decode_among 8 fs 4 created).
  - rewrite take_app_len by done.
    rewrite <- (app_nil_r (le_split 4 _)), <- Hlen, decode_field.
    apply Z.mod_small, crc32c_range.
Qed.

(** The fields of a record header. *)
Lemma record_header_decoded i ts p : Zlength p < 2 ^ 32 ->
  let h := build_record_header i ts p in
  take 4 h = kRecordMagic /\
  decode_little_endian 2 h 4 = kRecordHeaderSize /\
  decode_little_endian 2 h 6 = kRecordFormatVersion /\
  decode_little_endian 4 h 8 = Zlength p /\
  decode_little_endian 4 h 12 = crc32c p /\
  decode_little_endian 8 h 16 = u64 i /\
  decode_little_endian 8 h 24 = u64 ts /\
  decode_little_endian 4 h 32 = crc32c (take 32 h).
Proof.
  intros Hp. cbv zeta. rewrite build_record_header_layout.
  set (fs := record_header_fields i ts p).
  assert (Hlen : length (concat fs) = 32%nat) by done.
  split_and!.
  - done.
  - by rewrite (decode_among 2 fs 1 kRecordHeaderSize).
  - by rewrite (decode_among 2 fs 2 kRecordFormatVersion).
  - rewrite (decode_among 4 fs 3 (Zlength p)) by done. apply Z.mod_small. lia.
  - rewrite (decode_among 4 fs 4 (crc32c p)) by done. apply Z.mod_small, crc32c_range.
  - by rewrite (decode_among 8 fs 5 i).
  - by rewrite (decode_among 8 fs 6 ts).
  - rewrite take_app_len by done.
    rewrite <- (app_nil_r (le_split 4 _)), <- Hlen, decode_field.
    apply Z.mod_small, crc32c_range.
Qed.

(** ** Places in a log *)

(** A prefix of the records consists of whole records and a proper prefix of
    the next one. *)
Lemma records_prefix i es bs : bs `prefix_of` records_image i es ->
  exists k t, (k <= length es)%nat /\ bs = records_image i (take k es) ++ t /\
    match es !! k with
    | Some e => t `prefix_of` record_image (i + Z.of_nat k) e /\
                t <> record_image (i + Z.of_nat k) e
    | None => t = []
    end.
Proof.
  revert i bs; induction es as [|e es IH]; intros i bs [u Hu]; cbn [records_image] in Hu.
  { exists 0%nat, []. cbn. symmetry in Hu. apply app_eq_nil in Hu as [-> ->]. done. }
  destruct (decide (length (record_image i e) <= length bs)%nat) as [Hle|Hlt].
  - pose proof (f_equal (take (length (record_image i e))) Hu) as H1.
    pose proof (f_equal (drop (length (record_image i e))) Hu) as H2.
    rewrite take_app_length, take_app_le in H1 by done.
    rewrite drop_app_length, drop_app_le in H2 by done.
    destruct (IH (i + 1) (drop (length (record_image i e)) bs)) as (k & t & Hk & Hb & Ht);
      [by eexists|].
    exists (S k), t. cbn [length take firstn records_image lookup].
    split; [lia|]. split.
    + rewrite <- app_assoc, <- Hb.
      rewrite <- (take_drop (length (record_image i e)) bs) at 1. by f_equal.
    + change ((e :: es) !! S k) with (es !! k).
      by replace (i + Z.of_nat (S k)) with (i + 1 + Z.of_nat k) by lia.
  - exists 0%nat, bs. cbn [take firstn records_image]. split; [lia|]. split; [done|].
    change ((e :: es) !! 0%nat) with (Some e). rewrite Z.add_0_r. split; [|intros ->; lia].
    pose proof (f_equal (take (length bs)) Hu) as H1.
    rewrite take_app_length, take_app_le in H1 by lia. rewrite <- H1. apply prefix_take.
Qed.

(** A byte of the records belongs to one record. *)
Lemma records_byte i es j b b' : records_image i es !! j = Some b ->
  exists k e j', es !! k = Some e /\ record_image (i + Z.of_nat k) e !! j' = Some b /\
    j = (length (records_image i (take k es)) + j')%nat /\
    <[j := b']> (records_image i es) =
      records_image i (take k es) ++ <[j' := b']> (record_image (i + Z.of_nat k) e) ++
      records_image (i + Z.of_nat k + 1) (drop (S k) es).
Proof.
  revert i j; induction es as [|e es IH]; intros i j Hj; cbn [records_image] in *; [done|].
  destruct (decide (j < length (record_image i e))%nat).
  - rewrite lookup_app_l in Hj by done. exists 0%nat, e, j.
    rewrite Z.add_0_r, insert_app_l by done. cbn. done.
  - rewrite lookup_app_r in Hj by lia.
    destruct (IH _ _ Hj) as (k & e' & j' & Hk & Hb & Hj' & Hi).
    replace (i + 1 + Z.of_nat k) with (i + Z.of_nat (S k)) in * by lia.
    exists (S k), e', j'. cbn [take firstn records_image drop skipn].
    split; [done|]. split; [done|]. split; [rewrite length_app; lia|].
    replace j with (length (record_image i e) + (j - length (record_image i e)))%nat at 1 by lia.
    by rewrite insert_app_r, Hi, <- !app_assoc.
Qed.

Lemma records_image_prefix i es k :
  records_image i (take k es) `prefix_of` records_image i es.
Proof. rewrite <- (take_drop k es) at 2. rewrite records_image_app. apply prefix_app_r. done. Qed.

Lemma log_image_prefix created es k :
  log_image created (take k es) `prefix_of` log_image created es.
Proof. apply prefix_app, records_image_prefix. Qed.

Lemma log_image_split created es bs :
  bs `prefix_of` log_image created es -> (32 <= length bs)%nat ->
  exists k t, (k <= length es)%nat /\ bs = log_image created (take k es) ++ t /\
    match es !! k with
    | Some e => t `prefix_of` record_image (Z.of_nat k) e /\ t <> record_image (Z.of_nat k) e
    | None => t = []
    end.
Proof.
  intros [u Hu] H32. unfold log_image in *.
  pose proof (f_equal (take 32) Hu) as H1. pose proof (f_equal (drop 32) Hu) as H2.
  rewrite take_app_len, take_app_le in H1 by (rewrite ?file_header_length; lia).
  rewrite drop_app_len, drop_app_le in H2 by (rewrite ?file_header_length; lia).
  destruct (records_prefix 0 es (drop 32 bs)) as (k & t & Hk & Hb & Ht); [by eexists|].
  rewrite Z.add_0_l in Ht. exists k, t. split; [done|]. split; [|done].
  rewrite <- (take_drop 32 bs), <- H1, Hb. by rewrite app_assoc.
Qed.

(** A byte of a log belongs to the file header or to one record. *)
Lemma log_image_byte created es j b b' : log_image created es !! j = Some b ->
  (j < 32)%nat /\ build_file_header created !! j = Some b /\
    <[j := b']> (log_image created es) =
      <[j := b']> (build_file_header created) ++ records_image 0 es \/
  exists k e j' rest, es !! k = Some e /\ record_image (Z.of_nat k) e !! j' = Some b /\
    j = (length (log_image created (take k es)) + j')%nat /\
    <[j := b']> (log_image created es) =
      log_image created (take k es) ++ <[j' := b']> (record_image (Z.of_nat k) e) ++ rest.
Proof.
  unfold log_image. intros Hj. destruct (decide (j < 32)%nat).
  - left. rewrite lookup_app_l in Hj by (by rewrite file_header_length).
    by rewrite insert_app_l by (by rewrite file_header_length).
  - right. rewrite lookup_app_r in Hj by (rewrite file_header_length; lia).
    rewrite file_header_length in Hj.
    destruct (records_byte 0 es _ b b' Hj) as (k & e & j' & Hk & Hb & Hj' & Hi).
    rewrite Z.add_0_l in *. exists k, e, j', (records_image (Z.of_nat k + 1) (drop (S k) es)).
    rewrite length_app, file_header_length. split_and!; [done..|lia|].
    replace j with (length (build_file_header created) + (j - 32))%nat
      by (rewrite file_header_length; lia).
    by rewrite insert_app_r, Hi, <- app_assoc.
Qed.
