(* ===== verification/LogWriter.v ===== *)
(** * LogWriter: the class [LogWriter] of [src/recording/log.cpp]

    The constructor with every refusal, [append], [flush], [good] and the
    destructor, over the output stream of [Streams]. The invariant relates a
    writer to the abstract log it holds: while it is good, the bytes handed to
    the stream are exactly the image of the records counted; after a failure
    they are a prefix of the image with at most one record more. *)
From Stdlib Require Import ZArith Lia.
From Stdlib Require Import Strings.Byte.
From stdpp Require Import base gmap strings list.
From S2P Require Import Prelude Bytes Floats Telemetry Validation Streams Crc32c LogFormat.
Local Open Scope Z_scope.
Local Open Scope tf_scope.

Record LogWriter := {
  path_ : string;
  options_ : LogWriterOptions;
  output_ : ofstream;
  error_ : string;
  record_count_ : Z;
  bytes_written_ : Z;
}.

Definition set_output (w : LogWriter) (o : ofstream) : LogWriter :=
  {| path_ := path_ w; options_ := options_ w; output_ := o; error_ := error_ w;
     record_count_ := record_count_ w; bytes_written_ := bytes_written_ w |}.

Definition fail (w : LogWriter) (msg : string) : LogWriter :=
  {| path_ := path_ w; options_ := options_ w; output_ := output_ w;
     error_ := if (error_ w =? "")%string then msg else error_ w;
     record_count_ := record_count_ w; bytes_written_ := bytes_written_ w |}.

Definition good (w : LogWriter) : bool :=
  (error_ w =? "")%string && os_open (output_ w) && os_good (output_ w).

Definition LogWriter_error (w : LogWriter) : string := error_ w.
Definition LogWriter_record_count (w : LogWriter) : Z := record_count_ w.
Definition LogWriter_bytes_written (w : LogWriter) : Z := bytes_written_ w.

Definition write_bytes (w : LogWriter) (bs : bytes) : bool * LogWriter :=
  let w := set_output w (os_write (output_ w) bs) in
  return_if negb (os_good (output_ w)) with
    (false, fail w "failed while writing telemetry log") ;;
  (true,
   {| path_ := path_ w; options_ := options_ w; output_ := output_ w;
      error_ := error_ w; record_count_ := record_count_ w;
      bytes_written_ := u64 (bytes_written_ w + Zlength bs) |}).

Definition write_file_header (w : LogWriter) : bool * LogWriter :=
  write_bytes w (build_file_header (opt_created_unix_ns (options_ w))).

Definition flush (w : LogWriter) : bool * LogWriter :=
  return_if negb (good w) with (false, w) ;;
  let w := set_output w (os_flush (output_ w)) in
  return_if negb (os_good (output_ w)) with
    (false, fail w "failed to flush telemetry log") ;;
  (true, w).

Section codec.
Context `{!EventCodec}.

Definition append (w : LogWriter) (ev : TelemetryEvent)
    (collector_arrival_timestamp_ns : Z) : bool * LogWriter :=
  return_if negb (good w) with (false, w) ;;
  return_if negb (schema_version ev =? kTelemetrySchemaVersion) with
    (false, fail w "refusing to write an unsupported telemetry schema version") ;;
  match SerializeToString ev with
  | None => (false, fail w "failed to serialize telemetry event")
  | Some payload =>
      return_if kMaximumPayloadSize <? Zlength payload with
        (false, fail w "telemetry payload exceeds the format limit") ;;
      let header :=
        build_record_header (record_count_ w) collector_arrival_timestamp_ns payload in
      let '(header_written, w) := write_bytes w header in
      return_if negb header_written with (false, w) ;;
      let '(payload_written, w) := write_bytes w payload in
      return_if negb payload_written with (false, w) ;;
      let w :=
        {| path_ := path_ w; options_ := options_ w; output_ := output_ w;
           error_ := error_ w; record_count_ := u64 (record_count_ w + 1);
           bytes_written_ := bytes_written_ w |} in
      return_if record_count_ w mod flush_every_records (options_ w) =? 0 with
        (let '(flushed, w) := flush w in
         return_if negb flushed with (false, w) ;; (true, w)) ;;
      (true, w)
  end.

(** The calls a recording session makes, with their results. *)
Fixpoint run_appends (w : LogWriter) (l : list (TelemetryEvent * Z))
    : list bool * LogWriter :=
  match l with
  | [] => ([], w)
  | (ev, ts) :: l' =>
      let '(ok, w) := append w ev ts in
      let '(oks, w) := run_appends w l' in (ok :: oks, w)
  end.
End codec.

(** The constructor, on file system [fs], at system time [now]; [script] holds
    the outcomes of the stream operations to come. *)
Definition LogWriter_new (fs : filesystem) (script : list IoOutcome) (now : Z)
    (path : string) (options : LogWriterOptions) : LogWriter :=
  let w := {| path_ := path; options_ := options; output_ := ofstream_closed;
              error_ := ""; record_count_ := 0; bytes_written_ := 0 |} in
  return_if flush_every_records options =? 0 with
    fail w "flush_every_records must be positive" ;;
  let options :=
    if opt_created_unix_ns options =? 0
    then {| flush_every_records := flush_every_records options;
            opt_created_unix_ns := now |}
    else options in
  let w := {| path_ := path; options_ := options; output_ := ofstream_closed;
              error_ := ""; record_count_ := 0; bytes_written_ := 0 |} in
  match fs_exists fs path with
  | None => fail w "failed to check whether output log already exists"
  | Some already_exists =>
      return_if already_exists with
        fail w ("refusing to overwrite existing telemetry log: " ++ path) ;;
      return_if open_error fs path with
        fail (set_output w ofstream_open_failed)
          ("failed to open log for writing: " ++ path) ;;
      (write_file_header (set_output w (ofstream_opened script))).2
  end.

Definition LogWriter_delete (w : LogWriter) : LogWriter :=
  return_if os_open (output_ w) with set_output w (os_flush (output_ w)) ;; w.

(** The files after the process stopped, [cut] bytes of the stream having
    reached the file; what a flush wrote is there in any case. *)
Definition files_after (fs : filesystem) (w : LogWriter) (cut : nat)
    : gmap string bytes :=
  return_if os_open (output_ w) with
    <[path_ w := take (cut `max` os_synced (output_ w)) (os_data (output_ w))]>
      (files fs) ;;
  files fs.

(** The files after the destructor: its flush, and the closing of the stream
    behind it, get the next outcome of the script; when it is a failure, what
    earlier flushes wrote and [kept] bytes at most are in the file. *)
Definition files_closed (fs : filesystem) (w : LogWriter) : gmap string bytes :=
  let cut := match os_script (output_ w) with
             | Io_fail kept :: _ => kept
             | _ => length (os_data (output_ w))
             end in
  files_after fs (LogWriter_delete w) cut.

(** ** The steps of the writer *)

Lemma fail_not_good w msg : msg <> ""%string -> good (fail w msg) = false.
Proof.
  intros Hm. unfold good, fail; cbn. destruct (error_ w =? "")%string eqn:E; cbn.
  - apply String.eqb_neq in Hm. by rewrite Hm.
  - by rewrite E.
Qed.

Lemma good_inv w : good w = true ->
  error_ w = ""%string /\ os_open (output_ w) = true /\ os_bad (output_ w) = false.
Proof.
  unfold good, os_good. intros ([He Ho]%andb_true_iff & Hb)%andb_true_iff.
  apply String.eqb_eq in He. apply negb_true_iff in Hb. done.
Qed.

Lemma good_intro w : error_ w = ""%string -> os_open (output_ w) = true ->
  os_bad (output_ w) = false -> good w = true.
Proof. unfold good, os_good. by intros -> -> ->. Qed.

(** What the operations leave alone. *)
Definition same_session (w w' : LogWriter) : Prop :=
  path_ w' = path_ w /\ options_ w' = options_ w /\
  os_open (output_ w') = os_open (output_ w).

#[export] Instance same_session_preorder : PreOrder same_session.
Proof. split; [by repeat split|]. intros a b c (?&?&?) (?&?&?). repeat split; congruence. Qed.

Lemma write_bytes_spec w bs : good w = true ->
  let '(ok, w') := write_bytes w bs in
  same_session w w' /\ good w' = ok /\ record_count_ w' = record_count_ w /\
  os_synced (output_ w') = os_synced (output_ w) /\
  if ok then os_data (output_ w') = os_data (output_ w) ++ bs /\
             bytes_written_ w' = u64 (bytes_written_ w + Zlength bs)
  else exists kept, os_data (output_ w') = os_data (output_ w) ++ take kept bs.
Proof.
  intros (He & Ho & Hb)%good_inv.
  destruct (os_write_data (output_ w) bs) as (k & Hd & Hsy & Hop).
  unfold write_bytes, os_good. cbn. destruct (os_bad (os_write (output_ w) bs)) eqn:Ebad; cbn.
  - rewrite fail_not_good by done. repeat split; try done. by exists k.
  - apply os_write_good in Ebad as Hw. destruct Hw as [_ Hw].
    repeat split; try done. apply good_intro; cbn; congruence.
Qed.

Lemma flush_spec w : good w = true ->
  let '(ok, w') := flush w in
  same_session w w' /\ good w' = ok /\ record_count_ w' = record_count_ w /\
  bytes_written_ w' = bytes_written_ w /\
  os_data (output_ w') = os_data (output_ w) /\
  (os_synced (output_ w') = os_synced (output_ w) \/
   os_synced (output_ w') = length (os_data (output_ w))) /\
  (ok = true -> os_synced (output_ w') = length (os_data (output_ w))).
Proof.
  intros Hg. destruct (good_inv _ Hg) as (He & Ho & Hb).
  destruct (os_flush_data (output_ w)) as [Hd Hop].
  pose proof (os_flush_synced (output_ w)) as Hsy.
  unfold flush, os_good. rewrite Hg. cbn.
  destruct (os_bad (os_flush (output_ w))) eqn:Ebad; cbn.
  - rewrite fail_not_good by done. repeat split; done.
  - apply os_flush_good in Ebad as Hf. destruct Hf as [_ Hf].
    repeat split; try done. apply good_intro; cbn; congruence.
Qed.

(** ** The files a writer leaves *)

Lemma files_after_open fs w cut : os_open (output_ w) = true ->
  files_after fs w cut =
  <[path_ w := take (cut `max` os_synced (output_ w)) (os_data (output_ w))]> (files fs).
Proof. intros Ho. unfold files_after. by rewrite Ho. Qed.

Lemma files_after_unopened fs w cut : os_open (output_ w) = false ->
  files_after fs w cut = files fs.
Proof. intros Ho. unfold files_after. by rewrite Ho. Qed.

(** Which files are left depends on the stream's bytes and its synced part only. *)
Lemma files_after_same fs w w' cut : same_session w w' ->
  os_data (output_ w') = os_data (output_ w) ->
  os_synced (output_ w') = os_synced (output_ w) ->
  files_after fs w' cut = files_after fs w cut.
Proof. intros (Hp & _ & Ho) Hd Hs. unfold files_after. by rewrite Ho, Hp, Hd, Hs. Qed.

Lemma files_closed_unopened fs w : os_open (output_ w) = false ->
  files_closed fs w = files fs.
Proof.
  intros Ho. unfold files_closed, LogWriter_delete. rewrite Ho. by apply files_after_unopened.
Qed.

(** A closed file holds a part of the stream that contains the synced part. *)
Lemma files_closed_open fs w : os_open (output_ w) = true ->
  exists cut, files_closed fs w = files_after fs w cut /\
    ((forall kept, head (os_script (output_ w)) <> Some (Io_fail kept)) ->
     cut = length (os_data (output_ w))).
Proof.
  intros Ho. unfold files_closed, LogWriter_delete. rewrite Ho.
  destruct (os_flush_data (output_ w)) as [Hd Hop].
  destruct (os_flush_synced (output_ w)) as [Hs|Hs].
  - eexists. split; [apply files_after_same; [by repeat split|done|exact Hs]|].
    intros Hk. destruct (os_script (output_ w)) as [|[|k] l]; [done..|by destruct (Hk k)].
  - exists (length (os_data (output_ w))). split; [|done].
    rewrite !files_after_open by (cbn; congruence). cbn [set_output output_ path_].
    rewrite Hd, Hs, !take_ge by lia. done.
Qed.

(** Without a fault, closing writes everything the stream took. *)
Lemma files_closed_no_fault fs w : os_open (output_ w) = true -> os_script (output_ w) = [] ->
  files_closed fs w = <[path_ w := os_data (output_ w)]> (files fs).
Proof.
  intros Ho Hs. destruct (files_closed_open fs w Ho) as (cut & -> & Hcut).
  rewrite files_after_open, Hcut, take_ge; [done|lia|by rewrite Hs|done].
Qed.

Lemma flush_not_good w : good w = false -> fst (flush w) = false.
Proof. intros Hg. unfold flush. by rewrite Hg. Qed.

(** After a flush that succeeded, neither a crash nor a fault on closing loses
    anything. *)
Lemma flushed_files fs w w' cut : flush w = (true, w') ->
  files_after fs w' cut = <[path_ w := os_data (output_ w)]> (files fs) /\
  files_closed fs w' = <[path_ w := os_data (output_ w)]> (files fs).
Proof.
  intros Hfl. assert (Hg : good w = true).
  { destruct (good w) eqn:Hg; [done|]. pose proof (flush_not_good w Hg). by rewrite Hfl in H. }
  pose proof (flush_spec w Hg) as Hfs. rewrite Hfl in Hfs.
  destruct Hfs as ((Hp & _ & Ho) & _ & _ & _ & Hd & _ & Hsync). specialize (Hsync eq_refl).
  destruct (good_inv _ Hg) as (_ & Hopen & _). rewrite Hopen in Ho.
  assert (Hall : forall c, files_after fs w' c = <[path_ w := os_data (output_ w)]> (files fs)).
  { intros c. by rewrite files_after_open, Hp, Hd, Hsync, take_ge by (done || lia). }
  split; [apply Hall|]. destruct (files_closed_open fs w' Ho) as (c & -> & _). apply Hall.
Qed.

(** After a flush that failed, the file holds what a crash before it could have
    left. *)
Lemma unflushed_files fs w w' : good w = true -> flush w = (false, w') ->
  exists cut, files_closed fs w' = files_after fs w cut.
Proof.
  intros Hg Hfl. destruct (good_inv _ Hg) as (_ & Hopen & _).
  pose proof (flush_spec w Hg) as Hfs. rewrite Hfl in Hfs.
  destruct Hfs as (Hss & _ & _ & _ & Hd & Hsy & _). pose proof Hss as (Hp & _ & Ho).
  rewrite Hopen in Ho. destruct (files_closed_open fs w' Ho) as (c & -> & _).
  destruct Hsy as [Hsy|Hsy].
  - exists c. by apply files_after_same.
  - exists (length (os_data (output_ w))).
    rewrite !files_after_open, Hp, Hd, Hsy, !take_ge by (done || lia). done.
Qed.

(** ** The abstract log a writer holds *)

Section refinement.
Context `{!EventCodec}.
(** The inputs considered; [P i ev ts] holds of the append number [i]. *)
Context (P : nat -> TelemetryEvent -> Z -> Prop).

(** The entry an event becomes, if the format takes it. *)
Definition entry_of (ev : TelemetryEvent) (ts : Z) : option Entry :=
  return_if negb (schema_version ev =? kTelemetrySchemaVersion) with None ;;
  match SerializeToString ev with
  | None => None
  | Some p =>
      return_if kMaximumPayloadSize <? Zlength p with None ;;
      Some {| arrival := ts; body := p |}
  end.

Definition recordable (i : nat) (e : Entry) : Prop :=
  exists ev ts, P i ev ts /\ entry_of ev ts = Some e.

(** All records but the last [period] at most are covered by a flush. *)
Definition durable (created period : Z) (es : list Entry) (synced : nat)
    (slack : Z) : Prop :=
  exists m, (m <= length es)%nat /\ Z.of_nat m mod period = 0 /\
    Zlength es - Z.of_nat m < period + slack /\
    (m = 0%nat \/ (length (log_image created (take m es)) <= synced)%nat).

Record writer_inv (created : Z) (es : list Entry) (w : LogWriter) : Prop := {
  wi_created : opt_created_unix_ns (options_ w) = created;
  wi_period : 0 < flush_every_records (options_ w);
  wi_open : os_open (output_ w) = true;
  wi_count : record_count_ w = Zlength es;
  wi_recordable : forall i e, es !! i = Some e -> recordable i e;
  wi_good : good w = true ->
    os_data (output_ w) = log_image created es /\
    bytes_written_ w = u64 (Zlength (os_data (output_ w)));
  wi_data : exists pending, (length pending <= 1)%nat /\
    Forall (recordable (length es)) pending /\
    os_data (output_ w) `prefix_of` log_image created (es ++ pending) /\
    (es = [] \/ log_image created es `prefix_of` os_data (output_ w));
  wi_synced : (os_synced (output_ w) <= length (os_data (output_ w)))%nat;
  wi_durable : durable created (flush_every_records (options_ w)) es
    (os_synced (output_ w)) (if good w then 0 else 1);
}.

Lemma durable_weaken created period es sy sy' d d' :
  durable created period es sy d -> (sy <= sy')%nat -> d <= d' ->
  durable created period es sy' d'.
Proof. intros (m & ? & ? & ? & Hm) ? ?. exists m. split_and!; [lia..|]. destruct Hm; [auto|right; lia]. Qed.

(** A writer that failed, its records as before and a part of at most one
    further record behind them. *)
Lemma writer_inv_failed created es w w' pending part :
  writer_inv created es w -> good w = true -> same_session w w' ->
  good w' = false -> record_count_ w' = record_count_ w ->
  os_synced (output_ w') = os_synced (output_ w) ->
  os_data (output_ w') = os_data (output_ w) ++ part ->
  (length pending <= 1)%nat -> Forall (recordable (length es)) pending ->
  part `prefix_of` records_image (Zlength es) pending ->
  writer_inv created es w'.
Proof.
  intros Hi Hg (_ & Ho & Hop) Hbad Hcnt Hsy Hd Hpl Hpr Hpre.
  destruct (wi_good _ _ _ Hi Hg) as [Himg _].
  constructor; rewrite ?Ho, ?Hop, ?Hcnt, ?Hsy, ?Hd; try apply Hi.
  - congruence.
  - exists pending. split_and!; [done..| |right].
    + rewrite Himg. unfold log_image. rewrite records_image_app, app_assoc.
      by apply prefix_app.
    + rewrite Himg. by apply prefix_app_r.
  - rewrite length_app. pose proof (wi_synced _ _ _ Hi). lia.
  - eapply durable_weaken; [apply Hi|done|]. rewrite Hbad. case_match; lia.
Qed.

Lemma writer_inv_fail created es w msg : writer_inv created es w ->
  good w = true -> msg <> ""%string -> writer_inv created es (fail w msg).
Proof.
  intros Hi Hg Hm. apply (writer_inv_failed _ _ w _ [] []); try done.
  - by apply fail_not_good.
  - cbn. by rewrite app_nil_r.
  - cbn. lia.
Qed.

Lemma durable_snoc created period es e sy : 0 < period ->
  durable created period es sy 0 -> (Zlength es + 1) mod period <> 0 ->
  durable created period (es ++ [e]) sy 0.
Proof.
  intros Hp (m & Hm & Hmod & Hlt & Hd) Hne. exists m.
  rewrite length_app, take_app_le by lia. cbn [length].
  split_and!; try done; [lia|].
  destruct (decide (Zlength es + 1 = Z.of_nat m + period)) as [Heq|]; [|lia].
  contradict Hne. rewrite Heq, Z.add_mod, Hmod, Z_mod_same_full by lia. done.
Qed.

Lemma durable_snoc_failed created period es e sy :
  durable created period es sy 0 -> durable created period (es ++ [e]) sy 1.
Proof.
  intros (m & Hm & Hmod & Hlt & Hd). exists m.
  rewrite length_app, take_app_le by lia. cbn [length]. split_and!; try done; lia.
Qed.

Lemma durable_flushed created period es :
  0 < period -> Zlength es mod period = 0 ->
  durable created period es (length (log_image created es)) 0.
Proof.
  intros Hp Hmod. exists (length es). rewrite firstn_all. split_and!; try done; [lia|].
  by right.
Qed.

(** One record more, completely written. *)
Lemma writer_inv_counted created es w w' e :
  writer_inv created es w -> good w = true -> same_session w w' -> recordable (length es) e ->
  record_count_ w' = Zlength es + 1 ->
  os_data (output_ w') = os_data (output_ w) ++ record_image (Zlength es) e ->
  (good w' = true ->
   bytes_written_ w' = u64 (bytes_written_ w + Zlength (record_image (Zlength es) e))) ->
  (os_synced (output_ w') <= length (os_data (output_ w')))%nat ->
  durable created (flush_every_records (options_ w)) (es ++ [e])
    (os_synced (output_ w')) (if good w' then 0 else 1) ->
  writer_inv created (es ++ [e]) w'.
Proof.
  intros Hi Hg (_ & Ho & Hop) Hr Hcnt Hd Hbw Hsy Hdur.
  destruct (wi_good _ _ _ Hi Hg) as [Himg Hw].
  assert (Himg' : os_data (output_ w') = log_image created (es ++ [e]))
    by by rewrite Hd, Himg, log_image_snoc.
  constructor; rewrite ?Ho, ?Hop; try done; try apply Hi.
  - rewrite length_app. cbn. lia.
  - intros i e' [He|(Hge & He)]%lookup_app_Some; [by apply Hi|].
    apply list_lookup_singleton_Some in He as [Hz <-].
    by replace i with (length es) by lia.
  - intros Hg'. split; [done|]. rewrite (Hbw Hg'), Hw, u64_add_l, Hd, length_app.
    f_equal. lia.
  - exists []. rewrite app_nil_r, Himg'. split_and!; cbn; [lia|done..|by right].
Qed.

(** The two writes of a record: both done, or a part of the record written. *)
Lemma write_record w header body_ : good w = true ->
  let '(ok1, w1) := write_bytes w header in
  let '(ok2, w2) := write_bytes w1 body_ in
  if ok1 then
    same_session w w2 /\ good w2 = ok2 /\ record_count_ w2 = record_count_ w /\
    os_synced (output_ w2) = os_synced (output_ w) /\
    if ok2 then
      os_data (output_ w2) = os_data (output_ w) ++ header ++ body_ /\
      bytes_written_ w2 = u64 (bytes_written_ w + Zlength (header ++ body_))
    else exists part, os_data (output_ w2) = os_data (output_ w) ++ part /\
      part `prefix_of` header ++ body_
  else
    same_session w w1 /\ good w1 = false /\ record_count_ w1 = record_count_ w /\
    os_synced (output_ w1) = os_synced (output_ w) /\
    exists part, os_data (output_ w1) = os_data (output_ w) ++ part /\
      part `prefix_of` header ++ body_.
Proof.
  intros Hg. pose proof (write_bytes_spec w header Hg) as H1.
  destruct (write_bytes w header) as [[] w1].
  - destruct H1 as (Hss & Hg1 & Hc & Hsy & Hd & Hb).
    pose proof (write_bytes_spec w1 body_ Hg1) as H2.
    destruct (write_bytes w1 body_) as [ok2 w2].
    destruct H2 as (Hss2 & Hg2 & Hc2 & Hsy2 & H2).
    split_and!; [by etransitivity|done|congruence|congruence|]. destruct ok2.
    + destruct H2 as [Hd2 Hb2]. rewrite Hd2, Hb2, Hd, Hb, u64_add_l, <- app_assoc.
      split; [done|]. f_equal. rewrite length_app. lia.
    + destruct H2 as [k Hk]. exists (header ++ take k body_).
      rewrite Hk, Hd, <- app_assoc. split; [done|]. apply prefix_app, prefix_take.
  - destruct (write_bytes w1 body_) as [ok2 w2].
    destruct H1 as (Hss & Hg1 & Hc & Hsy & [k Hk]). split_and!; try done.
    exists (take k header). split; [done|]. apply prefix_app_r, prefix_take.
Qed.

(** The end of a call whose record is written: the flush that may be due. *)
Lemma count_and_flush created es w w3 e :
  writer_inv created es w -> good w = true -> same_session w w3 -> good w3 = true ->
  recordable (length es) e -> record_count_ w3 = Zlength es + 1 ->
  os_data (output_ w3) = os_data (output_ w) ++ record_image (Zlength es) e ->
  bytes_written_ w3 = u64 (bytes_written_ w + Zlength (record_image (Zlength es) e)) ->
  os_synced (output_ w3) = os_synced (output_ w) ->
  let '(ok, w') :=
    return_if record_count_ w3 mod flush_every_records (options_ w3) =? 0 with
      (let '(flushed, w) := flush w3 in
       return_if negb flushed with (false, w) ;; (true, w)) ;;
    (true, w3) in
  same_session w w' /\ good w' = ok /\ writer_inv created (es ++ [e]) w'.
Proof.
  intros Hi Hg Hss Hg3 Hrec Hc Hd Hb Hsy. pose proof Hss as (_ & Hopt & _). rewrite Hopt, Hc.
  pose proof (wi_period _ _ _ Hi) as Hper. pose proof (wi_synced _ _ _ Hi) as Hsynced.
  pose proof (wi_durable _ _ _ Hi) as Hdur. rewrite Hg in Hdur.
  destruct (Z.eqb_spec ((Zlength es + 1) mod flush_every_records (options_ w)) 0) as [Hz|Hz].
  2: { split_and!; [done..|]. apply (writer_inv_counted _ _ w); try done.
       - rewrite Hsy, Hd, length_app. lia.
       - rewrite Hg3, Hsy. by apply durable_snoc. }
  pose proof (flush_spec w3 Hg3) as Hf. destruct (flush w3) as [ok w4].
  destruct Hf as (Hss4 & Hg4 & Hc4 & Hb4 & Hd4 & Hsy4 & Hok).
  assert (Hbound : (os_synced (output_ w) <= os_synced (output_ w4) <= length (os_data (output_ w4)))%nat).
  { rewrite Hd4, Hd, length_app. rewrite Hd, length_app, Hsy in Hsy4. destruct Hsy4 as [->| ->]; lia. }
  assert (Hinv : writer_inv created (es ++ [e]) w4).
  { apply (writer_inv_counted _ _ w); try done; [by etransitivity|congruence|congruence|
      by rewrite Hb4|lia|].
    rewrite Hg4. destruct ok.
    - rewrite (Hok eq_refl), Hd. destruct (wi_good _ _ _ Hi Hg) as [-> _]. rewrite <- log_image_snoc.
      apply durable_flushed; [done|]. rewrite length_app. cbn [length]. by rewrite Nat2Z.inj_add.
    - eapply durable_weaken; [by apply durable_snoc_failed|lia|done]. }
  destruct ok; cbn [negb]; (split_and!; [by etransitivity|done|done]).
Qed.

(** One call of [append] on a good writer. *)
Lemma append_spec created es w ev ts :
  writer_inv created es w -> P (length es) ev ts -> Zlength es + 1 < 2 ^ 64 -> good w = true ->
  let '(ok, w') := append w ev ts in
  same_session w w' /\ good w' = ok /\
  if ok then exists e, entry_of ev ts = Some e /\ writer_inv created (es ++ [e]) w'
  else writer_inv created es w' \/
       exists e, entry_of ev ts = Some e /\ writer_inv created (es ++ [e]) w'.
Proof.
  intros Hi HP Hlen Hg. unfold append. rewrite Hg. cbn [negb].
  assert (Hrec : forall e, entry_of ev ts = Some e -> recordable (length es) e) by (intros e He; by exists ev, ts).
  assert (Hrefuse : forall msg, msg <> ""%string ->
    same_session w (fail w msg) /\ good (fail w msg) = false /\ writer_inv created es (fail w msg))
    by (intros msg Hm; split_and!; [done|by apply fail_not_good|by apply writer_inv_fail]).
  unfold entry_of in *.
  destruct (negb (schema_version ev =? kTelemetrySchemaVersion)) eqn:Hsch;
    [by destruct (Hrefuse "refusing to write an unsupported telemetry schema version"%string) as (? & ? & ?); auto|].
  destruct (SerializeToString ev) as [p|] eqn:Hser;
    [|by destruct (Hrefuse "failed to serialize telemetry event"%string) as (? & ? & ?); auto].
  destruct (kMaximumPayloadSize <? Zlength p) eqn:Hsz;
    [by destruct (Hrefuse "telemetry payload exceeds the format limit"%string) as (? & ? & ?); auto|].
  set (e := {| arrival := ts; body := p |}) in *. specialize (Hrec e eq_refl).
  pose proof (wi_count _ _ _ Hi) as Hcount.
  pose proof (write_record w (build_record_header (record_count_ w) ts p) p Hg) as Hw.
  rewrite Hcount in Hw |- *.
  change (build_record_header (Zlength es) ts p ++ p) with (record_image (Zlength es) e) in Hw.
  assert (Hpart : forall w' part, same_session w w' -> good w' = false ->
    record_count_ w' = Zlength es -> os_synced (output_ w') = os_synced (output_ w) ->
    os_data (output_ w') = os_data (output_ w) ++ part ->
    part `prefix_of` record_image (Zlength es) e -> writer_inv created es w').
  { intros w' part ? ? ? ? ? ?. apply (writer_inv_failed _ _ w _ [e] part); try done.
    - congruence.
    - by constructor.
    - cbn [records_image]. by rewrite app_nil_r. }
  destruct (write_bytes w _) as [[] w1]; cbn [negb].
  2: { destruct (write_bytes w1 p). destruct Hw as (Hss & Hb & Hc & Hsy & part & Hd & Hp).
       split_and!; [done..|]. left. eauto. }
  destruct (write_bytes w1 p) as [[] w2]; cbn [negb];
    destruct Hw as (Hss & Hg2 & Hc2 & Hsy2 & Hw).
  2: { destruct Hw as (part & Hd & Hp). split_and!; [done..|]. left. eauto. }
  destruct Hw as [Hd Hb]. rewrite Hc2, u64_small by (unfold in_u64; lia).
  set (w3 := {| path_ := path_ w2; record_count_ := Zlength es + 1 |}).
  pose proof (count_and_flush created es w w3 e Hi Hg Hss Hg2 Hrec eq_refl Hd Hb Hsy2) as Hend.
  destruct (if _ =? 0 then _ else _) as [ok w']. destruct Hend as (H1 & H2 & H3).
  split_and!; [done..|]. destruct ok; [|right]; by exists e.
Qed.

(** The time the header carries. *)
Definition created_of (now : Z) (options : LogWriterOptions) : Z :=
  if opt_created_unix_ns options =? 0 then now else opt_created_unix_ns options.

(** Opening succeeded exactly when the stream is open; then the writer holds
    the empty log, unless the header could not be written. *)
Lemma LogWriter_new_spec fs script now path options :
  0 <= flush_every_records options ->
  let w := LogWriter_new fs script now path options in
  path_ w = path /\
  if os_open (output_ w)
  then writer_inv (created_of now options) [] w /\
       flush_every_records (options_ w) = flush_every_records options /\
       fs_exists fs path = Some false /\ open_error fs path = false
  else good w = false.
Proof.
  intros Hfe. unfold LogWriter_new.
  destruct (flush_every_records options =? 0) eqn:Hz.
  { split; [done|]. by apply fail_not_good. }
  destruct (fs_exists fs path) as [[]|]; cbv zeta.
  { split; [done|]. by apply fail_not_good. }
  2: { split; [done|]. by apply fail_not_good. }
  destruct (open_error fs path) eqn:Hop.
  { split; [done|]. by apply fail_not_good. }
  set (opts := if opt_created_unix_ns options =? 0 then _ else _).
  set (w0 := set_output _ (ofstream_opened script)).
  assert (Hc : opt_created_unix_ns opts = created_of now options)
    by (unfold opts, created_of; destruct (opt_created_unix_ns options =? 0); reflexivity).
  assert (Hp : flush_every_records opts = flush_every_records options)
    by (unfold opts; destruct (opt_created_unix_ns options =? 0); reflexivity).
  apply Z.eqb_neq in Hz.
  pose proof (write_bytes_spec w0 (build_file_header (opt_created_unix_ns opts)) eq_refl) as Hw.
  unfold write_file_header. change (options_ w0) with opts.
  destruct (write_bytes w0 _) as [ok w]. cbn [snd].
  destruct Hw as ((Hpath & Hopt & Hopen) & Hg & Hcnt & Hsy & Hd). rewrite Hopen.
  change (output_ w0) with (ofstream_opened script) in *. cbn [os_open os_synced os_data] in *.
  change (options_ w0) with opts in Hopt. change (path_ w0) with path in Hpath.
  split; [done|]. split; [|by rewrite Hopt].
  assert (Hl0 : forall c, build_file_header c = log_image c [])
    by (intros; unfold log_image; cbn [records_image]; by rewrite app_nil_r).
  constructor; rewrite ?Hopt, ?Hcnt, ?Hsy, ?Hg; try done; try lia.
  - intros ->. destruct Hd as [Hd Hb]. rewrite Hd, app_nil_l, <- Hc, Hl0 in *. split; [done|].
    rewrite Hb. reflexivity.
  - exists []. rewrite app_nil_r, <- Hc, <- Hl0. split_and!; cbn; [lia|done| |by left].
    destruct ok.
    + by destruct Hd as [-> _].
    + destruct Hd as [k ->]. apply prefix_take.
  - apply Nat.le_0_l.
  - exists 0%nat. rewrite Zmod_0_l. cbn [length]. split_and!; try done; [|by left].
    destruct ok; lia.
Qed.

(** A whole session: a run of successes, then only failures, the log holding
    the entries of the successful calls and at most one more. *)
Lemma run_appends_spec created l : forall es w oks w',
  writer_inv created es w ->
  (forall i p, l !! i = Some p -> P (length es + i) p.1 p.2) ->
  Zlength es + Zlength l < 2 ^ 64 -> run_appends w l = (oks, w') ->
  exists n es' extra, (n <= length l)%nat /\
    oks = replicate n true ++ replicate (length l - n) false /\
    mapM (fun p => entry_of p.1 p.2) (take n l) = Some es' /\
    same_session w w' /\ writer_inv created (es ++ es' ++ extra) w' /\
    (length extra <= 1)%nat /\ good w' = good w && (n =? length l)%nat /\
    (good w' = true -> extra = []).
Proof.
  assert (Hstop : forall l0 w, good w = false ->
    run_appends w l0 = (replicate (length l0) false, w)).
  { induction l0 as [|[ev ts] l0 IH]; intros w Hw; [reflexivity|]. cbn.
    unfold append. rewrite Hw. cbn. by rewrite IH. }
  induction l as [|[ev ts] l IH]; intros es w oks w' Hi HP Hlen Hrun.
  { injection Hrun as <- <-. exists 0%nat, [], []. cbn. rewrite app_nil_r, andb_true_r.
    split_and!; first [done | reflexivity | lia]. }
  pose proof (HP 0%nat _ eq_refl) as HP0. rewrite Nat.add_0_r in HP0.
  destruct (good w) eqn:Hg.
  2: { rewrite Hstop in Hrun by done. injection Hrun as <- <-.
       exists 0%nat, [], []. cbn. rewrite app_nil_r.
       split_and!; first [done | reflexivity | lia]. }
  cbn in Hrun. pose proof (append_spec _ _ _ ev ts Hi HP0 ltac:(cbn in Hlen; lia) Hg) as Ha.
  destruct (append w ev ts) as [ok w1]. destruct Ha as (Hss & Hg1 & Ha).
  destruct (run_appends w1 l) as [oks' w2] eqn:Hrun'. injection Hrun as <- <-.
  destruct ok.
  - destruct Ha as (e & He & Hi1).
    assert (HPl : forall i p, l !! i = Some p -> P (length (es ++ [e]) + i) p.1 p.2).
    { intros i p Hp. rewrite length_app, <- Nat.add_assoc. by apply HP. }
    destruct (IH _ _ _ _ Hi1 HPl ltac:(rewrite length_app; cbn in *; lia) Hrun')
      as (n & es' & extra & Hn & -> & Hm & Hss2 & Hi2 & Hx & Hg2 & Hx2).
    exists (S n), (e :: es'), extra. cbn. rewrite He, Hm. rewrite <- app_assoc in Hi2.
    rewrite Hg1 in Hg2.
    split_and!; first [done | by etransitivity | lia].
  - rewrite Hstop in Hrun' by done. injection Hrun' as <- <-.
    destruct Ha as [Hi1|(e & He & Hi1)].
    + exists 0%nat, [], []. cbn. rewrite app_nil_r.
      split_and!; first [done | lia | congruence].
    + exists 0%nat, [], [e]. cbn. split_and!; first [done | lia | congruence].
Qed.
End refinement.

(** ** What a successful call leaves *)

(** A call tells the state it leaves. *)
Lemma append_good `{!EventCodec} w ev ts ok w' : append w ev ts = (ok, w') -> good w' = ok.
Proof.
  unfold append. destruct (good w) eqn:Hg; cbn [negb]; [|by intros [= <- <-]].
  destruct (negb _); [intros [= <- <-]; by apply fail_not_good|].
  destruct (SerializeToString ev) as [p|]; [|intros [= <- <-]; by apply fail_not_good].
  destruct (_ <? _); [intros [= <- <-]; by apply fail_not_good|].
  pose proof (write_bytes_spec w (build_record_header (record_count_ w) ts p) Hg) as H1.
  destruct (write_bytes w _) as [ok1 w1]; destruct H1 as (_ & Hg1 & _).
  destruct ok1; cbn [negb]; [|by intros [= <- <-]].
  pose proof (write_bytes_spec w1 p Hg1) as H2.
  destruct (write_bytes w1 p) as [ok2 w2]; destruct H2 as (_ & Hg2 & _).
  destruct ok2; cbn [negb]; [|by intros [= <- <-]].
  set (w3 := {| path_ := path_ w2; record_count_ := u64 (record_count_ w2 + 1) |}).
  destruct (_ =? 0); [|by intros [= <- <-]].
  pose proof (flush_spec w3 Hg2) as H3. destruct (flush w3) as [ok4 w4].
  destruct H3 as (_ & Hg4 & _). destruct ok4; cbn [negb]; by intros [= <- <-].
Qed.

(** ** Sessions without faults *)

Lemma write_bytes_no_fault w bs : good w = true -> os_script (output_ w) = [] ->
  exists w', write_bytes w bs = (true, w') /\ same_session w w' /\ good w' = true /\
    os_script (output_ w') = [].
Proof.
  intros Hg Hs. pose proof (write_bytes_spec w bs Hg) as H.
  destruct (good_inv _ Hg) as (_ & _ & Hb).
  unfold write_bytes, os_write in *. rewrite Hb, Hs in *. cbn in *.
  eexists; split_and!; [done|..]; [apply H..|done].
Qed.

Lemma flush_no_fault w : good w = true -> os_script (output_ w) = [] ->
  exists w', flush w = (true, w') /\ same_session w w' /\ good w' = true /\
    os_script (output_ w') = [].
Proof.
  intros Hg Hs. pose proof (flush_spec w Hg) as H.
  destruct (good_inv _ Hg) as (_ & _ & Hb).
  unfold flush, os_flush in *. rewrite Hg, Hb, Hs in *. cbn in *.
  eexists; split_and!; [done|..]; [apply H..|done].
Qed.

Section no_faults.
Context `{!EventCodec}.

Lemma append_no_fault w ev ts : good w = true -> os_script (output_ w) = [] ->
  is_Some (entry_of ev ts) ->
  exists w', append w ev ts = (true, w') /\ good w' = true /\
    os_script (output_ w') = [].
Proof.
  intros Hg Hs [e He]. unfold entry_of in He. unfold append. rewrite Hg. cbn [negb].
  destruct (negb (schema_version ev =? _)); [done|].
  destruct (SerializeToString ev) as [p|]; [|done].
  destruct (kMaximumPayloadSize <? Zlength p); [done|].
  destruct (write_bytes_no_fault w (build_record_header (record_count_ w) ts p))
    as (w1 & -> & _ & Hg1 & Hs1); [done..|]. cbn [negb].
  destruct (write_bytes_no_fault w1 p) as (w2 & -> & _ & Hg2 & Hs2); [done..|]. cbn [negb].
  set (w3 := {| path_ := path_ w2; record_count_ := u64 (record_count_ w2 + 1) |}).
  destruct (_ =? 0); [|by exists w3].
  destruct (flush_no_fault w3) as (w4 & -> & _ & Hg4 & Hs4); [done..|]. by exists w4.
Qed.

Lemma run_appends_no_fault l : forall w, good w = true -> os_script (output_ w) = [] ->
  Forall (fun p => is_Some (entry_of p.1 p.2)) l ->
  exists w', run_appends w l = (replicate (length l) true, w') /\ good w' = true /\
    os_script (output_ w') = [].
Proof.
  induction l as [|[ev ts] l IH]; intros w Hg Hs Hl; [by exists w|].
  apply Forall_cons in Hl as [He Hl]. cbn.
  destruct (append_no_fault w ev ts) as (w1 & -> & Hg1 & Hs1); [done..|].
  destruct (IH w1) as (w2 & -> & Hg2 & Hs2); [done..|]. by exists w2.
Qed.
End no_faults.

Lemma LogWriter_new_no_fault fs now path options :
  flush_every_records options <> 0 -> fs_exists fs path = Some false ->
  open_error fs path = false ->
  let w := LogWriter_new fs [] now path options in
  good w = true /\ os_script (output_ w) = [].
Proof.
  intros Hz Hex Hop. unfold LogWriter_new. rewrite Hex, Hop.
  apply Z.eqb_neq in Hz. rewrite Hz. cbv zeta. unfold write_file_header.
  match goal with |- context [write_bytes ?w ?b] =>
    destruct (write_bytes_no_fault w b) as (w' & -> & _ & Hg & Hs); [done..|] end.
  done.
Qed.
