(* ===== verification/LogReader.v ===== *)
(** * LogReader: [read_log] and [status_name] of [src/recording/log.cpp]

    The reader over the input stream of [Streams], every refusal included; its
    loop takes fuel, and [read_log] is proved to return for the fuel given.
    The lemmas say what the reader makes of an intact record, of a cut one and
    of one with a changed byte; the theorems say it of whole files. *)
From Stdlib Require Import ZArith Lia.
From Stdlib Require Import Strings.Byte.
From stdpp Require Import base gmap strings list.
From S2P Require Import Prelude Bytes Floats Telemetry Validation Streams Crc32c LogFormat.
Import LittleEndian.
Local Open Scope Z_scope.
Local Open Scope tf_scope.

(** [read_exact]: whether all was delivered, the bytes, the stream. *)
Definition read_exact (input : ifstream) (n : Z) : bool * bytes * ifstream :=
  let '(got, input) := is_read input n in
  (is_gcount input =? n, got, input).

Definition make_failure (r : LogReadResult) (st : LogReadStatus) (offset : Z)
    (msg : string) : LogReadResult :=
  {| status := st; created_unix_ns := created_unix_ns r; file_size := file_size r;
     valid_bytes := valid_bytes r; error_offset := offset; message := msg;
     index := index r; records := records r |}.

(** The checks of the file header, in order. *)
Definition file_header_error (h : bytes) : option string :=
  return_if negb (bool_decide (take 8 h = kFileMagic)) with
    Some "invalid log magic"%string ;;
  return_if negb (decode_little_endian 2 h 8 =? kLogFormatVersion)
    || negb (decode_little_endian 2 h 10 =? kFileHeaderSize) with
    Some "unsupported log header version or size"%string ;;
  return_if negb (decode_little_endian 4 h 28 =? crc32c (take 28 h)) with
    Some "file header checksum mismatch"%string ;;
  None.

(** The checks of a record header, in order. *)
Definition record_header_error (h : bytes) : option (LogReadStatus * string) :=
  return_if negb (bool_decide (take 4 h = kRecordMagic)) with
    Some (Log_corrupt, "invalid record magic"%string) ;;
  return_if negb (decode_little_endian 2 h 4 =? kRecordHeaderSize)
    || negb (decode_little_endian 2 h 6 =? kRecordFormatVersion) with
    Some (Log_corrupt, "unsupported record header version or size"%string) ;;
  return_if negb (decode_little_endian 4 h 32 =? crc32c (take 32 h)) with
    Some (Log_corrupt, "record header checksum mismatch"%string) ;;
  return_if kMaximumPayloadSize <? decode_little_endian 4 h 8 with
    Some (Log_resource_limit, "record payload exceeds format limit"%string) ;;
  None.

(** One pass of the loop: the failure it returns with, or the next record. *)
Inductive ReadStep :=
  | Step_fail (st : LogReadStatus) (msg : string)
  | Step_record (input : ifstream) (entry : LogIndexEntry) (record : LogRecord).

Section codec.
Context `{!EventCodec}.

(** The part of a pass that follows the reading of the payload. *)
Definition decode_record (input : ifstream) (h payload : bytes) (offset expected : Z)
    : ReadStep :=
  let payload_crc := decode_little_endian 4 h 12 in
  return_if negb (payload_crc =? crc32c payload) with
    Step_fail Log_corrupt "record payload checksum mismatch" ;;
  let record_index := decode_little_endian 8 h 16 in
  return_if negb (record_index =? expected) with
    Step_fail Log_corrupt "record index is not contiguous" ;;
  let arrival := s64 (decode_little_endian 8 h 24) in
  match ParseFromArray payload with
  | None => Step_fail Log_corrupt "telemetry payload is not valid Protobuf"
  | Some ev =>
      return_if negb (schema_version ev =? kTelemetrySchemaVersion) with
        Step_fail Log_corrupt "unsupported telemetry schema version" ;;
      Step_record input
        {| record_index := record_index; file_offset := offset;
           payload_size := decode_little_endian 4 h 8; payload_crc32c := payload_crc;
           entry_collector_arrival_timestamp_ns := arrival;
           entry_source_timestamp_ns := source_timestamp_ns ev |}
        {| rec_record_index := record_index; rec_file_offset := offset;
           rec_collector_arrival_timestamp_ns := arrival; rec_event := ev |}
  end.

Definition read_record (input : ifstream) (file_size offset expected : Z) : ReadStep :=
  return_if u64 (file_size - offset) <? kRecordHeaderSize with
    Step_fail Log_truncated_tail "final record header is incomplete" ;;
  let '(ok, h, input) := read_exact input kRecordHeaderSize in
  return_if negb ok with
    Step_fail Log_io_error "failed to read record header" ;;
  match record_header_error h with
  | Some (st, msg) => Step_fail st msg
  | None =>
      let payload_size := decode_little_endian 4 h 8 in
      return_if u64 (u64 (file_size - offset) - kRecordHeaderSize) <? payload_size with
        Step_fail Log_truncated_tail "final record payload is incomplete" ;;
      let '(ok, payload, input) := read_exact input payload_size in
      return_if negb ok with
        Step_fail Log_io_error "failed to read record payload" ;;
      decode_record input h payload offset expected
  end.

(** The loop; [None] means the fuel did not suffice. *)
Fixpoint read_loop (fuel : nat) (options : LogReadOptions) (input : ifstream)
    (r : LogReadResult) (offset expected : Z) : option LogReadResult :=
  match fuel with
  | O => None
  | S fuel =>
      return_if negb (offset <? file_size r) with
        Some {| status := Log_complete; created_unix_ns := created_unix_ns r;
                file_size := file_size r; valid_bytes := valid_bytes r;
                error_offset := error_offset r; message := "log is complete";
                index := index r; records := records r |} ;;
      return_if Zlength (index r) =? maximum_records options with
        Some (make_failure r Log_resource_limit offset "record-count limit reached") ;;
      match read_record input (file_size r) offset expected with
      | Step_fail st msg => Some (make_failure r st offset msg)
      | Step_record input entry record =>
          let offset' := u64 (offset + kRecordHeaderSize + payload_size entry) in
          let r :=
            {| status := status r; created_unix_ns := created_unix_ns r;
               file_size := file_size r; valid_bytes := offset';
               error_offset := error_offset r; message := message r;
               index := index r ++ [entry];
               records := if retain_records options then records r ++ [record]
                          else records r |} in
          read_loop fuel options input r offset' (u64 (expected + 1))
      end
  end.

(** The result object once its size is set. *)
Definition sized_result (size : Z) : LogReadResult :=
  {| status := status LogReadResult_default; created_unix_ns := 0; file_size := size;
     valid_bytes := 0; error_offset := 0; message := ""; index := []; records := [] |}.

(** What [std::filesystem::file_size] returns when it sets the error. *)
Definition file_size_error : Z := 2 ^ 64 - 1.

(** [read_log] with the answers of the file system: [size] is what
    [file_size] returned, [opened] what the opened file delivers. They agree
    unless the file changes in between. *)
Definition read_log_from (size : option Z) (opened : option bytes)
    (options : LogReadOptions) : option LogReadResult :=
  match size with
  | None =>
      Some (make_failure (sized_result file_size_error) Log_io_error 0
              "failed to determine log file size")
  | Some size =>
      let r := sized_result size in
      match opened with
      | None => Some (make_failure r Log_io_error 0 "failed to open log file")
      | Some data =>
          return_if size <? kFileHeaderSize with
            Some (make_failure r Log_corrupt 0 "file header is incomplete") ;;
          let '(ok, h, input) := read_exact (ifstream_open data) kFileHeaderSize in
          return_if negb ok with
            Some (make_failure r Log_io_error 0 "failed to read file header") ;;
          match file_header_error h with
          | Some msg => Some (make_failure r Log_corrupt 0 msg)
          | None =>
              let r := {| status := Log_io_error;
                          created_unix_ns := s64 (decode_little_endian 8 h 16);
                          file_size := size; valid_bytes := kFileHeaderSize;
                          error_offset := 0; message := ""; index := []; records := [] |} in
              read_loop (S (Z.to_nat (size / kRecordHeaderSize))) options input r
                kFileHeaderSize 0
          end
      end
  end.

Definition read_log (fs : filesystem) (path : string) (options : LogReadOptions)
    : option LogReadResult :=
  read_log_from (fs_file_size fs path) (fs_open_read fs path) options.
End codec.

Definition status_name (st : LogReadStatus) : string :=
  match st with
  | Log_complete => "complete"
  | Log_truncated_tail => "truncated_tail"
  | Log_corrupt => "corrupt"
  | Log_io_error => "io_error"
  | Log_resource_limit => "resource_limit"
  end.

(** ** The reader returns *)

Lemma read_exact_at data pos s n : at_pos data pos s -> 0 <= pos -> 0 <= n ->
  pos + n <= Zlength data -> exists s',
  read_exact s n = (true, take (Z.to_nat n) (drop (Z.to_nat pos) data), s') /\
  at_pos data (pos + n) s'.
Proof.
  intros Hs Hp Hn Hle. destruct (is_read_within _ _ _ _ Hs Hp Hn Hle) as (Hg & Hc & Ha).
  unfold read_exact. destruct (is_read s n) as [got s'] eqn:E. cbn [fst snd] in *.
  exists s'. rewrite Hc, Z.eqb_refl, Hg. done.
Qed.

Lemma decode_range n src off : (off + n <= length src)%nat ->
  0 <= decode_little_endian n src off < 2 ^ (8 * Z.of_nat n).
Proof.
  intros H. rewrite decode_spec by done.
  pose proof (le_combine_range (take n (drop off src))) as Hr.
  rewrite length_take, length_drop in Hr.
  by replace (n `min` (length src - off))%nat with n in Hr by lia.
Qed.

(** The loop of a decoder only adds bits. *)
Lemma decode_nonneg n src off : 0 <= decode_little_endian n src off.
Proof.
  unfold decode_little_endian.
  assert (H : forall n i v, 0 <= v -> 0 <= decode_loop n i src off v); [|by apply H].
  clear n. induction n as [|n IH]; intros i v Hv; cbn [decode_loop]; [done|].
  apply IH, Z.lor_nonneg. split; [done|]. apply Z.shiftl_nonneg.
  pose proof (byte_val_range (default x00 (src !! (off + i)%nat))). lia.
Qed.

Section reader.
Context `{!EventCodec}.

(** A record that is read fits into the file. *)
Lemma read_record_advances input size offset expected input' entry record :
  0 <= offset <= size -> size < 2 ^ 64 ->
  read_record input size offset expected = Step_record input' entry record ->
  0 <= payload_size entry /\ offset + kRecordHeaderSize + payload_size entry <= size.
Proof.
  intros Ho Hs. unfold read_record, kRecordHeaderSize.
  rewrite (u64_small (size - offset)) by (unfold in_u64; lia).
  destruct (size - offset <? 36) eqn:E1; [done|]. reflect_bools.
  rewrite (u64_small (size - offset - 36)) by (unfold in_u64; lia).
  destruct (read_exact input 36) as [[[] h] input1]; cbn [negb]; [|done].
  destruct (record_header_error h) as [[]|]; [done|].
  destruct (size - offset - 36 <? decode_little_endian 4 h 8) eqn:E2; [done|]. reflect_bools.
  destruct (read_exact input1 _) as [[[] p] input2]; cbn [negb]; [|done].
  unfold decode_record. pose proof (decode_nonneg 4 h 8).
  destruct (negb _); [done|]. destruct (negb _); [done|].
  destruct (ParseFromArray p); [|done]. destruct (negb _); [done|].
  intros [= _ <- _]. cbn [payload_size]. lia.
Qed.

Lemma read_loop_returns fuel options : forall input r offset expected,
  0 <= offset <= file_size r -> file_size r < 2 ^ 64 ->
  file_size r - offset < kRecordHeaderSize * Z.of_nat fuel ->
  is_Some (read_loop fuel options input r offset expected).
Proof.
  induction fuel as [|fuel IH]; intros input r offset expected Ho Hs Hf; [lia|].
  cbn [read_loop]. destruct (offset <? file_size r) eqn:E1; cbn [negb]; [|done].
  destruct (Zlength (index r) =? _); [done|].
  destruct (read_record _ _ _ _) as [st msg|input' entry record] eqn:Er; [done|].
  apply read_record_advances in Er as [Hp Hle]; [|done..].
  rewrite (u64_small (offset + _ + _)) by (unfold in_u64, kRecordHeaderSize in *; lia).
  apply IH; cbn [file_size]; unfold kRecordHeaderSize in *; lia.
Qed.

Lemma read_log_returns size opened options :
  (forall n, size = Some n -> in_u64 n) ->
  is_Some (read_log_from size opened options).
Proof.
  intros Hs. unfold read_log_from. destruct size as [n|]; [|done].
  specialize (Hs n eq_refl). unfold in_u64 in Hs.
  destruct opened as [data|]; [|done]. unfold kFileHeaderSize.
  destruct (n <? 32) eqn:E; [done|]. reflect_bools.
  destruct (read_exact _ _) as [[[] h] input]; cbn [negb]; [|done].
  destruct (file_header_error h); [done|].
  apply read_loop_returns; cbn [file_size]; [lia..|].
  rewrite Nat2Z.inj_succ. unfold kRecordHeaderSize.
  pose proof (Z.mul_succ_div_gt n 36). rewrite Z2Nat.id by (apply Z.div_pos; lia). lia.
Qed.
End reader.

(** ** Intact, cut and damaged records *)

(** What the header check makes of an intact header. *)
Lemma record_header_intact i ts p : Zlength p <= kMaximumPayloadSize ->
  record_header_error (build_record_header i ts p) = None.
Proof.
  intros Hp. assert (Zlength p < 2 ^ 32) by (unfold kMaximumPayloadSize in Hp; lia).
  destruct (record_header_decoded i ts p) as (H1 & H2 & H3 & H4 & _ & _ & _ & H8); [done|].
  unfold record_header_error. rewrite bool_decide_eq_true_2 by done.
  rewrite H2, H3, H4, H8, !Z.eqb_refl. cbn [negb orb].
  destruct (Z.ltb_spec kMaximumPayloadSize (Zlength p)); [lia|done].
Qed.

Lemma file_header_intact created : file_header_error (build_file_header created) = None.
Proof.
  destruct (file_header_decoded created) as (H1 & H2 & H3 & _ & H5).
  unfold file_header_error. rewrite bool_decide_eq_true_2 by done.
  by rewrite H2, H3, H5, !Z.eqb_refl.
Qed.

(** A checksum field behind the bytes it covers catches every changed byte. *)
Lemma checksum_catches h n k b b' :
  length h = (n + 4)%nat -> decode_little_endian 4 h n = crc32c (take n h) ->
  h !! k = Some b -> b' <> b ->
  decode_little_endian 4 (<[k := b']> h) n <> crc32c (take n (<[k := b']> h)).
Proof.
  intros Hlen Hcrc Hk Hne. pose proof (lookup_lt_Some _ _ _ Hk) as Hlt.
  rewrite !decode_spec in * by (rewrite ?length_insert; lia).
  destruct (decide (k < n)%nat).
  - rewrite take_insert_lt, drop_insert_lt, Hcrc by lia.
    apply not_eq_sym, (crc32c_one_byte _ _ b); [by rewrite lookup_take_lt by lia|done].
  - rewrite take_insert_ge by lia. rewrite <- Hcrc. intros H.
    apply le_combine_inj in H; [|by rewrite !length_take, !length_drop, length_insert].
    apply Hne. rewrite !take_ge in H by (rewrite length_drop, ?length_insert; lia).
    apply (f_equal (fun l => l !! (k - n)%nat)) in H.
    rewrite !lookup_drop in H. replace (n + (k - n))%nat with k in H by lia.
    rewrite list_lookup_insert_eq, Hk in H by done. congruence.
Qed.

Lemma record_header_damaged i ts p k b b' :
  Zlength p < 2 ^ 32 ->
  build_record_header i ts p !! k = Some b -> b' <> b ->
  exists msg, record_header_error (<[k := b']> (build_record_header i ts p)) =
    Some (Log_corrupt, msg).
Proof.
  intros Hp Hk Hne.
  destruct (record_header_decoded i ts p) as (_ & _ & _ & _ & _ & _ & _ & H8); [done|].
  pose proof (checksum_catches _ 32 k b b' (record_header_length i ts p) H8 Hk Hne) as Hc.
  apply Z.eqb_neq in Hc. unfold record_header_error. rewrite Hc. cbn [negb].
  destruct (negb _); [by eexists|]. destruct (_ || _); by eexists.
Qed.

Lemma file_header_damaged created k b b' :
  build_file_header created !! k = Some b -> b' <> b ->
  exists msg, file_header_error (<[k := b']> (build_file_header created)) = Some msg.
Proof.
  intros Hk Hne. destruct (file_header_decoded created) as (_ & _ & _ & _ & H5).
  pose proof (checksum_catches _ 28 k b b' (file_header_length created) H5 Hk Hne) as Hc.
  apply Z.eqb_neq in Hc. unfold file_header_error. rewrite Hc. cbn [negb].
  destruct (negb _); [by eexists|]. destruct (_ || _); by eexists.
Qed.

Section passes.
Context `{!EventCodec}.

(** The bytes of a pass: the file from the offset on. *)
Lemma read_record_eq data pre t input expected :
  data = pre ++ t -> at_pos data (Zlength pre) input -> (36 <= length t)%nat ->
  Zlength data < 2 ^ 64 ->
  let h := take 36 t in
  let n := decode_little_endian 4 h 8 in
  exists input',
  read_record input (Zlength data) (Zlength pre) expected =
    match record_header_error h with
    | Some (st, msg) => Step_fail st msg
    | None =>
        if Zlength t - 36 <? n
        then Step_fail Log_truncated_tail "final record payload is incomplete"
        else decode_record input' h (take (Z.to_nat n) (drop 36 t)) (Zlength pre) expected
    end /\
  (n <= Zlength t - 36 -> at_pos data (Zlength pre + 36 + n) input').
Proof.
  intros Hd Hat Ht Hlen h n.
  assert (Hsub : Zlength data - Zlength pre = Zlength t) by (rewrite Hd, length_app; lia).
  assert (Hn : 0 <= n) by apply decode_nonneg.
  unfold read_record, kRecordHeaderSize. rewrite Hsub.
  rewrite (u64_small (Zlength t)) by (unfold in_u64; lia).
  rewrite (u64_small (Zlength t - 36)) by (unfold in_u64; lia).
  destruct (Z.ltb_spec (Zlength t) 36); [lia|].
  destruct (read_exact_at data (Zlength pre) input 36) as (input1 & Hr1 & Hat1); [done|lia..|].
  assert (Hdrop : forall k, drop (Z.to_nat (Zlength pre + Z.of_nat k)) data = drop k t).
  { intros k. rewrite Hd. replace (Z.to_nat _) with (length pre + k)%nat by lia.
    by rewrite <- drop_drop, drop_app_length. }
  pose proof (Hdrop 0%nat) as Hdrop0. rewrite Z.add_0_r in Hdrop0.
  rewrite Hdrop0 in Hr1. change (Z.to_nat 36) with 36%nat in Hr1.
  rewrite drop_0 in Hr1. fold h in Hr1. rewrite Hr1. cbn [negb]. fold n.
  destruct (record_header_error h) as [[st msg]|].
  { destruct (Z_le_gt_dec n (Zlength t - 36)); [|exists input1; split; [done|lia]].
    destruct (read_exact_at data (Zlength pre + 36) input1 n) as (input2 & _ & Hat2);
      [done|lia..|by exists input2]. }
  destruct (Z.ltb_spec (Zlength t - 36) n); [exists input1; split; [done|lia]|].
  destruct (read_exact_at data (Zlength pre + 36) input1 n) as (input2 & Hr2 & Hat2);
    [done|lia..|].
  exists input2. change (Zlength pre + 36) with (Zlength pre + Z.of_nat 36) in Hr2.
  rewrite Hdrop in Hr2.
  rewrite Hr2. done.
Qed.

(** A record that the reader takes back as the event [ev]. *)
Record readable (e : Entry) (ev : TelemetryEvent) : Prop := {
  rd_parse : ParseFromArray (body e) = Some ev;
  rd_schema : schema_version ev = kTelemetrySchemaVersion;
  rd_size : Zlength (body e) <= kMaximumPayloadSize;
  rd_arrival : in_s64 (arrival e);
}.

Definition index_entry (i offset : Z) (e : Entry) (ev : TelemetryEvent) : LogIndexEntry :=
  {| record_index := i; file_offset := offset; payload_size := Zlength (body e);
     payload_crc32c := crc32c (body e);
     entry_collector_arrival_timestamp_ns := arrival e;
     entry_source_timestamp_ns := source_timestamp_ns ev |}.

Definition log_record (i offset : Z) (e : Entry) (ev : TelemetryEvent) : LogRecord :=
  {| rec_record_index := i; rec_file_offset := offset;
     rec_collector_arrival_timestamp_ns := arrival e; rec_event := ev |}.

Lemma readable_size e ev : readable e ev -> Zlength (body e) < 2 ^ 32.
Proof. intros Hr. pose proof (rd_size _ _ Hr). unfold kMaximumPayloadSize in *. lia. Qed.

Lemma read_record_intact data pre i e ev rest input :
  data = pre ++ record_image i e ++ rest -> at_pos data (Zlength pre) input ->
  Zlength data < 2 ^ 64 -> in_u64 i -> readable e ev ->
  exists input',
  read_record input (Zlength data) (Zlength pre) i =
    Step_record input' (index_entry i (Zlength pre) e ev) (log_record i (Zlength pre) e ev) /\
  at_pos data (Zlength pre + Zlength (record_image i e)) input'.
Proof.
  intros Hd Hat Hlen Hi Hrd. pose proof (readable_size _ _ Hrd) as Hsz.
  set (t := record_image i e ++ rest) in *.
  assert (Hh : take 36 t = build_record_header i (arrival e) (body e)).
  { subst t. unfold record_image. rewrite <- app_assoc.
    by apply take_app_len; rewrite record_header_length. }
  assert (Hp : drop 36 t = body e ++ rest).
  { subst t. unfold record_image. rewrite <- app_assoc.
    by apply drop_app_len; rewrite record_header_length. }
  assert (Ht : (36 + length (body e) <= length t)%nat)
    by (subst t; rewrite length_app, record_image_length; lia).
  destruct (read_record_eq data pre t input i) as (input' & Hr & Hat'); [done|done|lia|done|].
  destruct (record_header_decoded i (arrival e) (body e))
    as (_ & _ & _ & Hs & Hc & Hx & Ha & _); [done|].
  rewrite Hh, Hs, Hp in Hr. rewrite Hh, Hs in Hat'.
  rewrite record_header_intact in Hr by apply Hrd.
  destruct (Z.ltb_spec (Zlength t - 36) (Zlength (body e))); [lia|].
  rewrite Nat2Z.id, take_app_length in Hr.
  exists input'. rewrite Hr, record_image_length. split.
  - unfold decode_record. rewrite Hs, Hc, Hx, Ha, Z.eqb_refl, u64_small by done.
    rewrite Z.eqb_refl, (rd_parse _ _ Hrd), (rd_schema _ _ Hrd), Z.eqb_refl. cbn [negb].
    by rewrite s64_u64 by apply Hrd.
  - replace (_ + _) with (Zlength pre + 36 + Zlength (body e)) by lia. apply Hat'. lia.
Qed.

(** A proper prefix of a record at the end of the file. *)
Lemma read_record_cut data pre i e ev t input :
  data = pre ++ t -> t `prefix_of` record_image i e -> t <> record_image i e ->
  at_pos data (Zlength pre) input -> Zlength data < 2 ^ 64 -> readable e ev ->
  exists msg, read_record input (Zlength data) (Zlength pre) i =
    Step_fail Log_truncated_tail msg.
Proof.
  intros Hd [u Hu] Hne Hat Hlen Hrd. pose proof (readable_size _ _ Hrd) as Hsz.
  destruct (decide (36 <= length t)%nat) as [Ht|Ht].
  - assert (Hh : take 36 t = build_record_header i (arrival e) (body e)).
    { apply (f_equal (take 36)) in Hu. unfold record_image in Hu.
      rewrite take_app_len in Hu by (by rewrite record_header_length).
      by rewrite take_app_le in Hu by done. }
    destruct (read_record_eq data pre t input i) as (input' & -> & _); [done|done|lia|done|].
    destruct (record_header_decoded i (arrival e) (body e)) as (_ & _ & _ & Hs & _); [done|].
    rewrite Hh, Hs, record_header_intact by apply Hrd.
    destruct (Z.ltb_spec (Zlength t - 36) (Zlength (body e))) as [|Hge]; [by eexists|].
    exfalso. apply Hne. pose proof (f_equal length Hu) as Hl.
    rewrite length_app, record_image_length in Hl.
    assert (u = []) as -> by (apply nil_length_inv; lia). by rewrite app_nil_r in Hu.
  - unfold read_record, kRecordHeaderSize.
    replace (Zlength data - Zlength pre) with (Zlength t) by (rewrite Hd, length_app; lia).
    rewrite u64_small by (unfold in_u64; rewrite Hd, length_app in Hlen; lia).
    destruct (Z.ltb_spec (Zlength t) 36); [by eexists|lia].
Qed.

(** A record with one changed byte, wherever it sits. *)
Lemma read_record_damaged data pre i e ev k b b' rest input :
  data = pre ++ <[k := b']> (record_image i e) ++ rest ->
  record_image i e !! k = Some b -> b' <> b ->
  at_pos data (Zlength pre) input -> Zlength data < 2 ^ 64 -> readable e ev ->
  exists msg, read_record input (Zlength data) (Zlength pre) i = Step_fail Log_corrupt msg.
Proof.
  intros Hd Hk Hne Hat Hlen Hrd. pose proof (readable_size _ _ Hrd) as Hsz.
  pose proof (record_header_length i (arrival e) (body e)) as Hhl.
  destruct (read_record_eq data pre (<[k := b']> (record_image i e) ++ rest) input i)
    as (input' & -> & _); [done|done| |done|].
  { rewrite length_app, length_insert, record_image_length. lia. }
  unfold record_image in *. destruct (decide (k < 36)%nat) as [Hlt|Hge].
  - rewrite insert_app_l, <- app_assoc by lia.
    rewrite (take_app_len (<[k := b']> _)) by (by rewrite length_insert).
    rewrite lookup_app_l in Hk by lia.
    destruct (record_header_damaged _ _ _ k b b' Hsz Hk Hne) as [msg ->]. by exists msg.
  - rewrite lookup_app_r in Hk by lia. rewrite Hhl in Hk.
    replace k with (length (build_record_header i (arrival e) (body e)) + (k - 36))%nat
      by lia.
    rewrite insert_app_r, <- app_assoc, take_app_len, drop_app_len by done.
    destruct (record_header_decoded i (arrival e) (body e)) as (_ & _ & _ & Hs & Hc & _); [done|].
    rewrite record_header_intact, Hs by apply Hrd.
    rewrite !length_app, length_insert, Hhl.
    destruct (Z.ltb_spec (Z.of_nat (36 + (length (body e) + length rest)) - 36)
      (Zlength (body e))); [lia|].
    rewrite Nat2Z.id, take_app_len by (by rewrite length_insert).
    unfold decode_record. rewrite Hc.
    pose proof (crc32c_one_byte _ _ _ _ Hk Hne) as Hx. apply not_eq_sym, Z.eqb_neq in Hx.
    rewrite Hx. by eexists.
Qed.

(** ** Runs of the loop *)

(** The index entries and records of a log, from record [i] at [offset] on. *)
Fixpoint stored_index (i offset : Z) (l : list (Entry * TelemetryEvent))
    : list LogIndexEntry :=
  match l with
  | [] => []
  | (e, ev) :: l' =>
      index_entry i offset e ev ::
      stored_index (i + 1) (offset + Zlength (record_image i e)) l'
  end.

Fixpoint stored_records (i offset : Z) (l : list (Entry * TelemetryEvent))
    : list LogRecord :=
  match l with
  | [] => []
  | (e, ev) :: l' =>
      log_record i offset e ev ::
      stored_records (i + 1) (offset + Zlength (record_image i e)) l'
  end.

Lemma stored_records_length i offset l : length (stored_records i offset l) = length l.
Proof. revert i offset. induction l as [|[e ev] l IH]; intros i offset; [done|]. cbn. by rewrite IH. Qed.

Lemma stored_index_length i off l : length (stored_index i off l) = length l.
Proof. revert i off; induction l as [|[]]; intros; cbn; auto. Qed.

Definition readables (l : list (Entry * TelemetryEvent)) : Prop :=
  Forall (fun p => readable p.1 p.2) l.

(** The result after more records, [offset] being the end of the last. *)
Definition extended (options : LogReadOptions) (r : LogReadResult) (offset : Z)
    (ixs : list LogIndexEntry) (rs : list LogRecord) : LogReadResult :=
  {| status := status r; created_unix_ns := created_unix_ns r; file_size := file_size r;
     valid_bytes := offset; error_offset := error_offset r; message := message r;
     index := index r ++ ixs;
     records := if retain_records options then records r ++ rs else records r |}.

Lemma read_loop_records options data l : forall fuel pre i rest input r,
  data = pre ++ records_image i l.*1 ++ rest -> at_pos data (Zlength pre) input ->
  Zlength data < 2 ^ 64 -> 0 <= i -> i + Zlength l < 2 ^ 64 -> readables l ->
  file_size r = Zlength data -> valid_bytes r = Zlength pre ->
  Zlength (index r) + Zlength l <= maximum_records options ->
  let pre' := pre ++ records_image i l.*1 in
  exists input', at_pos data (Zlength pre') input' /\
  read_loop (length l + fuel) options input r (Zlength pre) i =
    read_loop fuel options input'
      (extended options r (Zlength pre') (stored_index i (Zlength pre) l)
        (stored_records i (Zlength pre) l))
      (Zlength pre') (i + Zlength l).
Proof.
  induction l as [|[e ev] l IH]; intros fuel pre i rest input r Hd Hat Hlen Hi Hil Hrd
    Hfs Hvb Hmax pre'.
  - exists input. subst pre'. cbn [fmap list_fmap records_image length Nat.add].
    rewrite app_nil_r, Z.add_0_r. split; [done|]. f_equal. unfold extended. cbn.
    rewrite !app_nil_r. destruct r, (retain_records options); cbn in *; by subst.
  - apply Forall_cons in Hrd as [Hr1 Hrd]. cbn [fst snd] in Hr1.
    cbn [fmap list_fmap fst records_image length] in *. rewrite <- app_assoc in Hd.
    set (im := record_image i e) in *.
    assert (Him : (36 <= length im)%nat) by (subst im; rewrite record_image_length; lia).
    destruct (read_record_intact data pre i e ev (records_image (i + 1) l.*1 ++ rest) input)
      as (input1 & Hstep & Hat1); [done|done|done|unfold in_u64; lia|done|].
    fold im in Hat1.
    assert (Hpre1 : Zlength pre + Zlength im = Zlength (pre ++ im)) by (rewrite length_app; lia).
    assert (Hin : Zlength (pre ++ im) <= Zlength data) by (rewrite Hd, !length_app; lia).
    rewrite Hpre1 in Hat1.
    cbn [Nat.add read_loop]. rewrite Hfs, Hstep. cbn [payload_size index_entry].
    destruct (Z.ltb_spec (Zlength pre) (Zlength data)); [|lia]. cbn [negb].
    destruct (Z.eqb_spec (Zlength (index r)) (maximum_records options)); [lia|].
    assert (Hoff : Zlength pre + kRecordHeaderSize + Zlength (body e) = Zlength (pre ++ im))
      by (rewrite <- Hpre1; subst im; rewrite record_image_length; unfold kRecordHeaderSize; lia).
    rewrite Hoff, !u64_small by (unfold in_u64; lia).
    edestruct (IH fuel (pre ++ im) (i + 1) rest input1) as (input2 & Hat2 & Heq);
      [by rewrite <- app_assoc|done|done|lia|lia|done| | | |].
    4: { exists input2. subst pre'. rewrite app_assoc. split; [exact Hat2|].
         etransitivity; [exact Heq|]. f_equal; [|lia].
         unfold extended.
         cbn [stored_index stored_records status created_unix_ns file_size error_offset
              message index records]. fold im. rewrite Hpre1, <- !app_assoc, Hfs.
         by destruct (retain_records options); rewrite <- ?app_assoc. }
    all: cbn [file_size valid_bytes index]; first [done|rewrite length_app; cbn [length]; lia].
Qed.
End passes.

(** ** Whole files *)

Section files.
Context `{!EventCodec}.

(** The result of reading the records of [l] and stopping there. *)
Definition log_result (options : LogReadOptions) (created size : Z) (st : LogReadStatus)
    (erroff : Z) (msg : string) (l : list (Entry * TelemetryEvent)) : LogReadResult :=
  {| status := st; created_unix_ns := created; file_size := size;
     valid_bytes := kFileHeaderSize + Zlength (records_image 0 l.*1); error_offset := erroff;
     message := msg; index := stored_index 0 kFileHeaderSize l;
     records := if retain_records options
                then stored_records 0 kFileHeaderSize l else [] |}.

Lemma records_image_length_ge i es : (36 * length es <= length (records_image i es))%nat.
Proof.
  revert i; induction es as [|e es IH]; intros i; cbn [records_image length]; [lia|].
  rewrite length_app, record_image_length. specialize (IH (i + 1)). lia.
Qed.

(** A file header the reader takes; its reserved fields are free. *)
Record header_ok (hdr : bytes) : Prop := {
  ho_length : length hdr = 32%nat;
  ho_checks : file_header_error hdr = None;
}.

Definition header_created (hdr : bytes) : Z := s64 (decode_little_endian 8 hdr 16).

Lemma header_ok_built created : header_ok (build_file_header created).
Proof. split; [apply file_header_length|apply file_header_intact]. Qed.

Lemma header_created_built created : in_s64 created ->
  header_created (build_file_header created) = created.
Proof.
  intros Hc. unfold header_created.
  destruct (file_header_decoded created) as (_ & _ & _ & -> & _). by apply s64_u64.
Qed.

(** The reader at work behind the header. *)
Lemma read_log_header options hdr t : header_ok hdr ->
  let data := hdr ++ t in
  exists input, at_pos data 32 input /\
    read_log_from (Some (Zlength data)) (Some data) options =
      read_loop (S (Z.to_nat (Zlength data / kRecordHeaderSize))) options input
        (log_result options (header_created hdr) (Zlength data) Log_io_error 0 "" []) 32 0.
Proof.
  intros [Hl Hck] data.
  assert (Hsz : (32 <= length data)%nat) by (unfold data; rewrite length_app; lia).
  unfold read_log_from, kFileHeaderSize. destruct (Z.ltb_spec (Zlength data) 32); [lia|].
  destruct (read_exact_at data 0 (ifstream_open data) 32) as (input & -> & Hat);
    [apply ifstream_open_at|lia..|]. cbn [negb].
  replace (take (Z.to_nat 32) (drop (Z.to_nat 0) data)) with hdr
    by (symmetry; by apply take_app_len).
  rewrite Hck. exists input. split; [done|]. unfold log_result, header_created.
  by destruct (retain_records options).
Qed.

(** The file header and the records read, the loop stands behind them. *)
Lemma read_log_records options hdr l rest :
  let pre := hdr ++ records_image 0 l.*1 in
  let data := pre ++ rest in
  header_ok hdr -> readables l -> Zlength data < 2 ^ 64 ->
  Zlength l <= maximum_records options ->
  exists fuel input', at_pos data (Zlength pre) input' /\
    read_log_from (Some (Zlength data)) (Some data) options =
      read_loop (S fuel) options input'
        (log_result options (header_created hdr) (Zlength data) Log_io_error 0 "" l)
        (Zlength pre) (Zlength l).
Proof.
  intros pre data Hho Hrd Hlen Hmax.
  assert (Hd : data = hdr ++ records_image 0 l.*1 ++ rest) by (unfold data, pre; by rewrite <- app_assoc).
  destruct (read_log_header options hdr (records_image 0 l.*1 ++ rest) Hho) as (input & Hat & Hr).
  rewrite <- Hd in Hat, Hr. rewrite Hr.
  assert (Hsz : (32 + 36 * length l <= length data)%nat).
  { rewrite Hd, !length_app, (ho_length _ Hho).
    pose proof (records_image_length_ge 0 l.*1) as Hge. rewrite length_fmap in Hge. lia. }
  assert (Hfuel : (length l <= Z.to_nat (Zlength data / kRecordHeaderSize))%nat).
  { unfold kRecordHeaderSize. pose proof (Z.div_le_lower_bound (Zlength data) 36 (Zlength l)).
    lia. }
  set (n := Z.to_nat (Zlength data / kRecordHeaderSize)) in *.
  replace (S n) with (length l + S (n - length l))%nat by lia.
  assert (H32 : Zlength hdr = 32) by (by rewrite (ho_length _ Hho)).
  set (r0 := log_result options (header_created hdr) (Zlength data) Log_io_error 0 "" []).
  destruct (read_loop_records options data l (S (n - length l)) hdr 0 rest input r0)
    as (input' & Hat' & Heq); rewrite ?H32; [done|done|done|lia|lia|done..|cbn; lia|].
  exists (n - length l)%nat, input'. fold pre in Hat', Heq. rewrite H32 in Heq.
  split; [exact Hat'|]. etransitivity; [exact Heq|]. f_equal.
  unfold extended, log_result. cbn [r0 log_result status created_unix_ns file_size error_offset
    message index records]. f_equal.
  - unfold pre. rewrite length_app. unfold kFileHeaderSize. lia.
  - by destruct (retain_records options).
Qed.

Lemma read_loop_complete fuel options input r :
  file_size r <= valid_bytes r ->
  read_loop (S fuel) options input r (valid_bytes r) (Zlength (index r)) =
    Some {| status := Log_complete; created_unix_ns := created_unix_ns r;
            file_size := file_size r; valid_bytes := valid_bytes r;
            error_offset := error_offset r; message := "log is complete";
            index := index r; records := records r |}.
Proof. intros Hle. cbn [read_loop]. by destruct (Z.ltb_spec (valid_bytes r) (file_size r)); [lia|]. Qed.

Lemma read_loop_fail fuel options input r offset expected st msg :
  offset < file_size r -> Zlength (index r) < maximum_records options ->
  read_record input (file_size r) offset expected = Step_fail st msg ->
  read_loop (S fuel) options input r offset expected = Some (make_failure r st offset msg).
Proof.
  intros Hlt Hmax Hr. cbn [read_loop].
  destruct (Z.ltb_spec offset (file_size r)); [|lia]. cbn [negb].
  destruct (Z.eqb_spec (Zlength (index r)) (maximum_records options)); [lia|]. by rewrite Hr.
Qed.

Lemma log_result_index_length options created size st off msg l :
  Zlength (index (log_result options created size st off msg l)) = Zlength l.
Proof. cbn [log_result index]. by rewrite stored_index_length. Qed.

(** A complete log. *)
Lemma read_log_whole options hdr l :
  header_ok hdr -> readables l -> Zlength l <= maximum_records options ->
  let data := hdr ++ records_image 0 l.*1 in
  Zlength data < 2 ^ 64 ->
  read_log_from (Some (Zlength data)) (Some data) options =
    Some (log_result options (header_created hdr) (Zlength data) Log_complete 0
            "log is complete" l).
Proof.
  intros Hho Hrd Hmax data Hlen.
  destruct (read_log_records options hdr l []) as (fuel & input & Hat & Heq);
    rewrite ?app_nil_r; [done..|].
  rewrite app_nil_r in Heq. fold data in Heq. rewrite Heq.
  set (r := log_result options (header_created hdr) (Zlength data) Log_io_error 0 "" l).
  assert (Hv : valid_bytes r = Zlength data).
  { unfold data. rewrite length_app, (ho_length _ Hho). cbn [r valid_bytes log_result].
    unfold kFileHeaderSize. lia. }
  rewrite <- Hv at 1.
  rewrite <- (log_result_index_length options (header_created hdr) (Zlength data) Log_io_error 0 "" l).
  fold r. by rewrite read_loop_complete by (by rewrite Hv).
Qed.

(** Whole records, then bytes the reader refuses as a record. *)
Lemma read_log_stopped options hdr l rest st :
  let pre := hdr ++ records_image 0 l.*1 in
  let data := pre ++ rest in
  header_ok hdr -> readables l -> Zlength data < 2 ^ 64 ->
  Zlength l < maximum_records options -> rest <> [] ->
  (forall input, at_pos data (Zlength pre) input -> exists msg,
    read_record input (Zlength data) (Zlength pre) (Zlength l) = Step_fail st msg) ->
  exists msg, read_log_from (Some (Zlength data)) (Some data) options =
    Some (log_result options (header_created hdr) (Zlength data) st (Zlength pre) msg l).
Proof.
  intros pre data Hho Hrd Hlen Hmax Hne Hstep.
  destruct (read_log_records options hdr l rest) as (fuel & input & Hat & Heq);
    [done..|lia|].
  destruct (Hstep input Hat) as [msg Hs]. exists msg. fold pre in Heq. fold data in Heq.
  rewrite Heq. erewrite read_loop_fail; [done| | |exact Hs].
  - cbn [log_result file_size]. unfold data. rewrite length_app.
    destruct rest; [done|]. cbn [length]. lia.
  - by rewrite log_result_index_length.
Qed.

(** Any prefix of a log that holds the file header: [k] whole records, and a
    tail when it does not end with a record. *)
Lemma read_log_prefix options created l bs :
  in_s64 created -> readables l -> Zlength l <= maximum_records options ->
  Zlength bs < 2 ^ 64 -> bs `prefix_of` log_image created l.*1 ->
  (32 <= length bs)%nat ->
  exists k t, (k <= length l)%nat /\ bs = log_image created (take k l.*1) ++ t /\
    match l.*1 !! k with
    | Some e => (length t < length (record_image (Z.of_nat k) e))%nat
    | None => t = []
    end /\
    exists msg,
    read_log_from (Some (Zlength bs)) (Some bs) options =
      Some (if bool_decide (t = [])
            then log_result options created (Zlength bs) Log_complete 0 "log is complete" (take k l)
            else log_result options created (Zlength bs) Log_truncated_tail
                   (Zlength (log_image created (take k l.*1))) msg (take k l)).
Proof.
  intros Hc Hrd Hmax Hlen Hpre H32.
  destruct (log_image_split _ _ _ Hpre H32) as (k & t & Hk & Hb & Ht).
  rewrite length_fmap in Hk. exists k, t. split; [done|]. split; [done|].
  assert (Hrdk : readables (take k l)) by (by apply Forall_take).
  rewrite <- fmap_take in Hb |- *. rewrite list_lookup_fmap in Ht |- *. split.
  { destruct (l !! k) as [[e ev]|]; cbn [fmap option_fmap option_map] in *; [|done].
    destruct Ht as [[v Hv] Hne]. rewrite Hv, length_app in *.
    destruct v; [by rewrite app_nil_r in Hne|]. cbn [length]. lia. }
  case_bool_decide as Hnil.
  - exists ""%string. rewrite Hnil, app_nil_r in Hb. subst bs.
    pose proof (read_log_whole options (build_file_header created) (take k l)) as Hr.
    rewrite header_created_built in Hr by done.
    apply Hr; [apply header_ok_built|done|rewrite length_take; lia|done].
  - destruct (l !! k) as [[e ev]|] eqn:Hlk; cbn [fmap option_fmap option_map fst] in Ht; [|done].
    destruct Ht as [Htp Htn]. pose proof (lookup_lt_Some _ _ _ Hlk) as Hkl.
    assert (Hrd1 : readable e ev) by (exact (Forall_lookup_1 _ _ _ _ Hrd Hlk)).
    pose proof (read_log_stopped options (build_file_header created) (take k l) t
      Log_truncated_tail) as Hr.
    rewrite header_created_built in Hr by done.
    cbv zeta in Hr. fold (log_image created (take k l).*1) in Hr. rewrite <- Hb in Hr.
    apply Hr; try done; [apply header_ok_built|rewrite length_take; lia|].
    intros input Hat. rewrite length_take, Nat.min_l by done.
    by eapply read_record_cut.
Qed.

(** One changed byte anywhere in a log. *)
Lemma read_log_damaged options created l j b b' :
  in_s64 created -> readables l -> Zlength l <= maximum_records options ->
  let img := log_image created l.*1 in
  Zlength img < 2 ^ 64 -> img !! j = Some b -> b' <> b ->
  let data := <[j := b']> img in
  exists r, read_log_from (Some (Zlength data)) (Some data) options = Some r /\
    status r = Log_corrupt /\ valid_bytes r <= Z.of_nat j /\
    ((j < 32)%nat /\ index r = [] /\ records r = [] \/
     exists k e, l.*1 !! k = Some e /\
       error_offset r = Zlength (log_image created (take k l.*1)) /\
       error_offset r <= Z.of_nat j < error_offset r + Zlength (record_image (Z.of_nat k) e) /\
       index r = stored_index 0 kFileHeaderSize (take k l) /\
       records r = if retain_records options
                   then stored_records 0 kFileHeaderSize (take k l) else []).
Proof.
  intros Hc Hrd Hmax img Hlen Hj Hne data.
  assert (Hdl : Zlength data = Zlength img) by (unfold data; by rewrite length_insert).
  destruct (log_image_byte created l.*1 j b b' Hj) as
    [(Hlt & Hh & Hd)|(k & e & j' & rest & Hk & Hb & Hj' & Hd)]; fold img data in Hd.
  - destruct (file_header_damaged created j b b' Hh Hne) as [msg Hmsg].
    assert (H32 : (32 <= length data)%nat)
      by (rewrite Hd, length_app, length_insert, file_header_length; lia).
    unfold read_log_from, kFileHeaderSize. destruct (Z.ltb_spec (Zlength data) 32); [lia|].
    destruct (read_exact_at data 0 (ifstream_open data) 32) as (input & -> & _);
      [apply ifstream_open_at|lia..|]. cbn [negb].
    replace (take (Z.to_nat 32) (drop (Z.to_nat 0) data))
      with (<[j := b']> (build_file_header created)).
    2: { rewrite Hd. symmetry. apply take_app_len. by rewrite length_insert, file_header_length. }
    rewrite Hmsg. eexists. split; [done|]. cbn. split_and!; [done|lia|by left].
  - rewrite list_lookup_fmap in Hk.
    destruct (l !! k) as [[e0 ev]|] eqn:Hlk; [|done]. injection Hk as ->.
    pose proof (lookup_lt_Some _ _ _ Hlk) as Hkl.
    assert (Hrd1 : readable e ev) by (exact (Forall_lookup_1 _ _ _ _ Hrd Hlk)).
    pose proof (lookup_lt_Some _ _ _ Hb) as Hjl. rewrite <- fmap_take in Hd, Hj'.
    destruct (read_log_stopped options (build_file_header created) (take k l)
      (<[j' := b']> (record_image (Z.of_nat k) e) ++ rest) Log_corrupt) as [msg Hr];
      fold (log_image created (take k l).*1); rewrite <- ?Hd;
      [apply header_ok_built|by apply Forall_take|lia|rewrite length_take; lia| | |].
    { intros Hnil. apply (f_equal length) in Hnil.
      rewrite length_app, length_insert, record_image_length in Hnil. cbn in Hnil. lia. }
    { intros input Hat. rewrite length_take, Nat.min_l by lia.
      eapply read_record_damaged; [exact Hd|done..|lia|done]. }
    fold (log_image created (take k l).*1) in Hr. rewrite <- Hd in Hr.
    pose proof (log_image_length created (take k l).*1) as Hll.
    eexists. split; [exact Hr|]. cbn [status valid_bytes log_result]. unfold kFileHeaderSize.
    split_and!; [done|lia|]. right. exists k, e.
    cbn [index records error_offset log_result]. rewrite <- fmap_take, list_lookup_fmap, Hlk.
    split_and!; try done; lia.
Qed.
End files.

(** ** Arbitrary files *)

Lemma le_split_s64 z : le_split 8 (s64 z) = le_split 8 z.
Proof.
  rewrite <- (le_split_mod 8 (s64 z)), <- (le_split_mod 8 z). f_equal. apply u64_s64.
Qed.

(** A header that passes the checks is the one the writer would build. *)
Lemma record_header_canonical h p : length h = 36%nat ->
  record_header_error h = None ->
  decode_little_endian 4 h 8 = Zlength p -> decode_little_endian 4 h 12 = crc32c p ->
  h = build_record_header (decode_little_endian 8 h 16)
        (s64 (decode_little_endian 8 h 24)) p.
Proof.
  intros Hl Hck Hs Hc. unfold record_header_error in Hck.
  destruct (bool_decide (take 4 h = kRecordMagic)) eqn:E1; [|done]. cbn [negb] in Hck.
  destruct (negb _ || negb _) eqn:E2 in Hck; [done|].
  destruct (decode_little_endian 4 h 32 =? crc32c (take 32 h)) eqn:E3; [|done].
  reflect_bools.
  assert (Hf : take 32 h = concat (record_header_fields (decode_little_endian 8 h 16)
    (s64 (decode_little_endian 8 h 24)) p)).
  { unfold record_header_fields. cbn [concat]. rewrite app_nil_r, le_split_s64, <- Hs, <- Hc, <- E1.
    match goal with H : decode_little_endian 2 h 4 = _ |- _ => rewrite <- H end.
    match goal with H : decode_little_endian 2 h 6 = _ |- _ => rewrite <- H end.
    rewrite <- !field_bytes by lia.
    rewrite !app_assoc. do 6 (rewrite take_take_drop; cbn [Nat.add]). done. }
  rewrite build_record_header_layout, <- Hf, <- E3, <- field_bytes by lia.
  rewrite <- (take_drop 32 h) at 1. f_equal. symmetry. apply take_ge.
  rewrite length_drop. lia.
Qed.

Section arbitrary.
Context `{!EventCodec}.

(** A record the reader takes is the image of an entry. *)
Lemma read_record_sound data pre t input expected input' ix rec_ :
  data = pre ++ t -> at_pos data (Zlength pre) input -> Zlength data < 2 ^ 64 ->
  read_record input (Zlength data) (Zlength pre) expected = Step_record input' ix rec_ ->
  exists e ev t', readable e ev /\ t = record_image expected e ++ t' /\
    ix = index_entry expected (Zlength pre) e ev /\
    rec_ = log_record expected (Zlength pre) e ev /\
    at_pos data (Zlength pre + Zlength (record_image expected e)) input'.
Proof.
  intros Hd Hat Hlen Hr.
  assert (Ht : (36 <= length t)%nat).
  { revert Hr. unfold read_record, kRecordHeaderSize.
    replace (Zlength data - Zlength pre) with (Zlength t) by (rewrite Hd, length_app; lia).
    rewrite u64_small by (unfold in_u64; rewrite Hd, length_app in Hlen; lia).
    destruct (Z.ltb_spec (Zlength t) 36); [done|lia]. }
  destruct (read_record_eq data pre t input expected) as (input2 & Heq & Hat2); [done..|].
  rewrite Heq in Hr. clear Heq. set (h := take 36 t) in *.
  set (n := decode_little_endian 4 h 8) in *.
  destruct (record_header_error h) as [[]|] eqn:Hh; [done|].
  destruct (Z.ltb_spec (Zlength t - 36) n) as [|Hn]; [done|].
  assert (Hn0 : 0 <= n) by apply decode_nonneg.
  set (p := take (Z.to_nat n) (drop 36 t)) in *.
  assert (Hp : Zlength p = n) by (unfold p; rewrite length_take, length_drop; lia).
  assert (Hsz : n <= kMaximumPayloadSize).
  { revert Hh. unfold record_header_error. destruct (negb (bool_decide _)); [done|].
    destruct (_ || _); [done|]. destruct (negb _); [done|].
    fold n. destruct (Z.ltb_spec kMaximumPayloadSize n); [done|lia]. }
  unfold decode_record in Hr.
  destruct (decode_little_endian 4 h 12 =? crc32c p) eqn:Ec in Hr; cbn [negb] in Hr; [|done].
  destruct (decode_little_endian 8 h 16 =? expected) eqn:Ei in Hr; cbn [negb] in Hr; [|done].
  destruct (ParseFromArray p) as [ev|] eqn:Hparse; [|done].
  destruct (schema_version ev =? kTelemetrySchemaVersion) eqn:Es in Hr; cbn [negb] in Hr; [|done].
  reflect_bools. injection Hr as <- <- <-.
  set (e := {| arrival := s64 (decode_little_endian 8 h 24); body := p |}).
  assert (Hhl : length h = 36%nat) by (unfold h; rewrite length_take; lia).
  assert (Him : record_image expected e = h ++ p).
  { unfold record_image. cbn [arrival body e]. f_equal. rewrite <- Ei. symmetry.
    by apply record_header_canonical. }
  exists e, ev, (drop (Z.to_nat n) (drop 36 t)). split_and!.
  - constructor; cbn [e body arrival]; [done|done|lia|apply s64_range].
  - rewrite Him, <- app_assoc. unfold p. rewrite take_drop. by unfold h; rewrite take_drop.
  - unfold index_entry. cbn [e body arrival]. by rewrite Hp, Ei, Ec.
  - unfold log_record. cbn [e body arrival]. by rewrite Ei.
  - rewrite Him, length_app, Hhl, Nat2Z.inj_add, Hp. change (Z.of_nat 36) with 36.
    rewrite Z.add_assoc. by apply Hat2.
Qed.

Lemma record_header_error_status h st msg :
  record_header_error h = Some (st, msg) -> st <> Log_complete.
Proof.
  unfold record_header_error. destruct (negb (bool_decide _)); [by intros [= <- _]|].
  destruct (_ || _); [by intros [= <- _]|]. destruct (negb _); [by intros [= <- _]|].
  destruct (_ <? _); [by intros [= <- _]|done].
Qed.

Lemma read_record_status input size offset expected st msg :
  read_record input size offset expected = Step_fail st msg -> st <> Log_complete.
Proof.
  unfold read_record. destruct (_ <? _); [by intros [= <- _]|].
  destruct (read_exact _ _) as [[[] h] input1]; cbn [negb]; [|by intros [= <- _]].
  destruct (record_header_error h) as [[st' msg']|] eqn:E.
  { intros [= <- _]. by eapply record_header_error_status. }
  destruct (_ <? _); [by intros [= <- _]|].
  destruct (read_exact _ _) as [[[] p] input2]; cbn [negb]; [|by intros [= <- _]].
  unfold decode_record. destruct (negb _); [by intros [= <- _]|].
  destruct (negb _); [by intros [= <- _]|].
  destruct (ParseFromArray p); [|by intros [= <- _]].
  destruct (negb _); [by intros [= <- _]|done].
Qed.

(** What a run of the loop over the bytes [t] behind [pre] reports was there. *)
Record reports (options : LogReadOptions) (r : LogReadResult) (pre t : bytes) (i : Z)
    (l : list (Entry * TelemetryEvent)) (rest : bytes) (r' : LogReadResult) : Prop := {
  rp_readable : readables l;
  rp_bytes : t = records_image i l.*1 ++ rest;
  rp_created : created_unix_ns r' = created_unix_ns r;
  rp_size : file_size r' = file_size r;
  rp_valid : valid_bytes r' = Zlength pre + Zlength (records_image i l.*1);
  rp_index : index r' = index r ++ stored_index i (Zlength pre) l;
  rp_records : records r' = if retain_records options
    then records r ++ stored_records i (Zlength pre) l else records r;
  rp_complete : status r' = Log_complete -> rest = [];
  rp_limit : Zlength (index r) <= maximum_records options ->
    Zlength (index r') <= maximum_records options;
}.

Lemma reports_stop options r pre t i r' :
  created_unix_ns r' = created_unix_ns r -> file_size r' = file_size r ->
  valid_bytes r' = Zlength pre -> index r' = index r -> records r' = records r ->
  (status r' = Log_complete -> t = []) -> reports options r pre t i [] t r'.
Proof.
  intros ? ? ? Hix Hrs ?. constructor; cbn; rewrite ?app_nil_r, ?Hix, ?Hrs; try done.
  - constructor.
  - lia.
  - by destruct (retain_records options).
Qed.

Lemma reports_cons options r pre i e ev t l rest r' r1 :
  readable e ev ->
  r1 = extended options r (Zlength (pre ++ record_image i e))
         [index_entry i (Zlength pre) e ev] [log_record i (Zlength pre) e ev] ->
  Zlength (index r) <> maximum_records options ->
  reports options r1 (pre ++ record_image i e) t (i + 1) l rest r' ->
  reports options r pre (record_image i e ++ t) i ((e, ev) :: l) rest r'.
Proof.
  intros Hrd -> Hne [H1 H2 H3 H4 H5 H6 H7 H8 H9].
  cbn [extended created_unix_ns file_size index records] in *.
  assert (Hl : Zlength (pre ++ record_image i e) = Zlength pre + Zlength (record_image i e))
    by (rewrite length_app; lia).
  rewrite Hl in *.
  constructor; cbn [fmap list_fmap fst records_image stored_index stored_records]; try done.
  - by constructor.
  - by rewrite <- app_assoc, H2.
  - rewrite H5, length_app. lia.
  - by rewrite H6, <- app_assoc.
  - rewrite H7. destruct (retain_records options); [by rewrite <- app_assoc|done].
  - rewrite length_app in H9. cbn [length] in H9. lia.
Qed.

Lemma read_loop_sound options data fuel : forall pre t input r i r',
  data = pre ++ t -> at_pos data (Zlength pre) input -> Zlength data < 2 ^ 64 ->
  0 <= i <= Zlength pre -> file_size r = Zlength data -> valid_bytes r = Zlength pre ->
  read_loop fuel options input r (Zlength pre) i = Some r' ->
  exists l rest, reports options r pre t i l rest r'.
Proof.
  induction fuel as [|fuel IH]; intros pre t input r i r' Hd Hat Hlen Hi Hfs Hvb Hr; [done|].
  cbn [read_loop] in Hr. rewrite Hfs in Hr.
  destruct (Z.ltb_spec (Zlength pre) (Zlength data)) as [Hlt|Hge]; cbn [negb] in Hr.
  2: { injection Hr as <-. exists [], t. apply reports_stop; try done.
       intros _. apply nil_length_inv. rewrite Hd, length_app in Hge. lia. }
  destruct (Z.eqb_spec (Zlength (index r)) (maximum_records options)) as [|Hne].
  { injection Hr as <-. exists [], t. by apply reports_stop. }
  destruct (read_record input (Zlength data) (Zlength pre) i) as [st msg|input' ix rec_] eqn:Es.
  { injection Hr as <-. exists [], t. apply reports_stop; try done.
    cbn. intros ->. by apply read_record_status in Es. }
  destruct (read_record_sound data pre t input i input' ix rec_ Hd Hat Hlen Es)
    as (e & ev & t' & Hrd & Ht & -> & -> & Hat').
  assert (Hl : Zlength pre + Zlength (record_image i e) = Zlength (pre ++ record_image i e))
    by (rewrite length_app; lia).
  assert (Hle : Zlength (pre ++ record_image i e) <= Zlength data)
    by (rewrite Hd, Ht, !length_app; lia).
  cbn [payload_size index_entry] in Hr.
  replace (Zlength pre + kRecordHeaderSize + Zlength (body e))
    with (Zlength (pre ++ record_image i e)) in Hr
    by (rewrite <- Hl, record_image_length; unfold kRecordHeaderSize; lia).
  pose proof (record_image_length i e).
  rewrite !u64_small in Hr by (unfold in_u64; lia). rewrite Hl in Hat'.
  eapply (IH (pre ++ record_image i e) t') in Hr as (l & rest & Hr);
    [|by rewrite <- app_assoc, <- Ht|done|done|lia|done|done].
  exists ((e, ev) :: l), rest. rewrite Ht.
  eapply reports_cons; [done| |done|exact Hr].
  unfold extended. by rewrite Hfs.
Qed.

Lemma read_loop_size options fuel : forall input r offset i r',
  read_loop fuel options input r offset i = Some r' -> file_size r' = file_size r.
Proof.
  induction fuel as [|fuel IH]; intros input r offset i r' Hr; [done|].
  cbn [read_loop] in Hr. destruct (negb _); [by injection Hr as <-|].
  destruct (_ =? _); [by injection Hr as <-|].
  destruct (read_record _ _ _ _); [by injection Hr as <-|].
  by apply IH in Hr.
Qed.

Lemma read_log_size options n opened r :
  read_log_from (Some n) opened options = Some r -> file_size r = n.
Proof.
  unfold read_log_from. destruct opened as [data|]; [|by intros [= <-]].
  destruct (n <? kFileHeaderSize); [by intros [= <-]|].
  destruct (read_exact _ _) as [[[] h] input]; cbn [negb]; [|by intros [= <-]].
  destruct (file_header_error h); [by intros [= <-]|]. apply read_loop_size.
Qed.

(** Either nothing was read, or a header and the records reported. *)
Lemma read_log_reports options data r :
  0 <= maximum_records options -> Zlength data < 2 ^ 64 ->
  read_log_from (Some (Zlength data)) (Some data) options = Some r ->
  status r = Log_corrupt /\ valid_bytes r = 0 /\ index r = [] /\ records r = [] \/
  exists hdr t l rest, header_ok hdr /\ data = hdr ++ t /\
    reports options (log_result options (header_created hdr) (Zlength data) Log_io_error 0 "" [])
      hdr t 0 l rest r /\ Zlength l <= maximum_records options.
Proof.
  intros Hmax Hlen Hr. destruct (Z_lt_le_dec (Zlength data) 32) as [Hlt|Hge].
  { left. revert Hr. unfold read_log_from, kFileHeaderSize.
    destruct (Z.ltb_spec (Zlength data) 32); [|lia]. by intros [= <-]. }
  destruct (file_header_error (take 32 data)) as [msg|] eqn:Hck.
  { left. revert Hr. unfold read_log_from, kFileHeaderSize.
    destruct (Z.ltb_spec (Zlength data) 32); [lia|].
    destruct (read_exact_at data 0 (ifstream_open data) 32) as (input & -> & Hat);
      [apply ifstream_open_at|lia..|]. cbn [negb].
    change (take (Z.to_nat 32) (drop (Z.to_nat 0) data)) with (take 32 data).
    rewrite Hck. by intros [= <-]. }
  right. exists (take 32 data), (drop 32 data).
  assert (Hho : header_ok (take 32 data)) by (split; [rewrite length_take; lia|done]).
  pose proof (read_log_header options (take 32 data) (drop 32 data) Hho) as Hl.
  cbv zeta in Hl. rewrite take_drop in Hl. destruct Hl as (input & Hat & Heq).
  rewrite Heq in Hr.
  assert (H32 : Zlength (take 32 data) = 32) by (rewrite (ho_length _ Hho); done).
  set (r0 := log_result _ _ _ _ _ _ _) in *.
  assert (H32' : read_loop (S (Z.to_nat (Zlength data / kRecordHeaderSize))) options input r0
    (Zlength (take 32 data)) 0 = Some r) by (by rewrite H32).
  destruct (read_loop_sound options data (S (Z.to_nat (Zlength data / kRecordHeaderSize)))
    (take 32 data) (drop 32 data) input r0 0 r) as (l & rest & Hrep); rewrite ?H32;
    [by rewrite take_drop|done|done|lia|done|done|done|].
  exists l, rest. split_and!; [done|by rewrite take_drop|done|].
  pose proof (rp_limit _ _ _ _ _ _ _ _ Hrep Hmax) as Hx.
  rewrite (rp_index _ _ _ _ _ _ _ _ Hrep), length_app, stored_index_length in Hx.
  cbn [length index r0 log_result stored_index] in Hx. lia.
Qed.

(** The bytes a result vouches for read back as a complete log. *)
Lemma read_log_valid_part options data r :
  0 <= maximum_records options -> Zlength data < 2 ^ 64 ->
  read_log_from (Some (Zlength data)) (Some data) options = Some r ->
  32 <= valid_bytes r ->
  exists hdr l, header_ok hdr /\ readables l /\ Zlength l <= maximum_records options /\
    valid_bytes r = Zlength (hdr ++ records_image 0 l.*1) /\
    hdr ++ records_image 0 l.*1 `prefix_of` data /\
    created_unix_ns r = header_created hdr /\
    index r = stored_index 0 kFileHeaderSize l /\
    records r = (if retain_records options then stored_records 0 kFileHeaderSize l else []) /\
    (status r = Log_complete -> data = hdr ++ records_image 0 l.*1).
Proof.
  intros Hmax Hlen Hr Hv.
  destruct (read_log_reports options data r Hmax Hlen Hr)
    as [(_ & H0 & _)|(hdr & t & l & rest & Hho & Hd & [H1 H2 H3 H4 H5 H6 H7 H8 _] & Hl)]; [lia|].
  assert (H32 : Zlength hdr = kFileHeaderSize) by (by rewrite (ho_length _ Hho)).
  rewrite H32 in *. cbn [log_result created_unix_ns index records stored_index app] in H3, H6, H7.
  exists hdr, l.
  split_and!; [exact Hho|exact H1|exact Hl| | |exact H3|exact H6| |].
  - by rewrite H5, length_app, Nat2Z.inj_add, H32.
  - rewrite Hd, H2. apply prefix_app. by apply prefix_app_r.
  - rewrite H7. cbn [records log_result stored_records].
    by destruct (retain_records options).
  - intros Hc. by rewrite Hd, H2, (H8 Hc), app_nil_r.
Qed.
End arbitrary.

(** ** Sample values *)

Definition sample_table : list (TelemetryEvent * bytes) :=
  [(sample_event "phone" 1 1000, [x01; x02; x03]);
   (sample_event "phone" 2 2000, []);
   (sample_event "watch" 7 500, [x0a; x00])].

Definition sample_codec : EventCodec := table_codec sample_table.

Definition sample_log : list (Entry * TelemetryEvent) :=
  [({| arrival := 5000; body := [x01; x02; x03] |}, sample_event "phone" 1 1000);
   ({| arrival := 4000; body := [] |}, sample_event "phone" 2 2000)].

Lemma sample_log_readable : @readables sample_codec sample_log.
Proof. repeat constructor; by vm_compute. Qed.

(** The reader returns, and vouches only for what is there. *)
Lemma read_log_vouches `{!EventCodec} fs path options data :
  files fs !! path = Some data -> stat_error fs path = false ->
  open_error fs path = false -> Zlength data < 2 ^ 64 -> 0 <= maximum_records options ->
  exists r, read_log fs path options = Some r /\ file_size r = Zlength data /\
    (valid_bytes r = 0 /\ status r = Log_corrupt /\ index r = [] /\ records r = [] \/
     exists hdr l, header_ok hdr /\ readables l /\ Zlength l <= maximum_records options /\
       hdr ++ records_image 0 l.*1 `prefix_of` data /\
       valid_bytes r = Zlength (hdr ++ records_image 0 l.*1) /\
       index r = stored_index 0 kFileHeaderSize l /\
       records r = (if retain_records options then stored_records 0 kFileHeaderSize l else []) /\
       (status r = Log_complete <-> data = hdr ++ records_image 0 l.*1)).
Proof.
  intros Hf Hs Ho Hlen Hmax. unfold read_log, fs_file_size, fs_open_read.
  rewrite Hs, Ho, Hf. cbn [fmap option_fmap option_map].
  destruct (read_log_returns (Some (Zlength data)) (Some data) options) as [r Hr].
  { intros n [= <-]. unfold in_u64. lia. }
  exists r. split; [exact Hr|].
  destruct (read_log_reports options data r Hmax Hlen Hr) as [(H1 & H2 & H3 & H4)|Hdata].
  { split; [by eapply read_log_size|by left]. }
  split; [by eapply read_log_size|]. right.
  destruct (read_log_valid_part options data r Hmax Hlen Hr) as
    (hdr & l & H1 & H2 & H3 & H4 & H5 & _ & H7 & H8 & H9).
  { destruct Hdata as (hdr & t & l & rest & Hho & _ & Hrep & _).
    rewrite (rp_valid _ _ _ _ _ _ _ _ Hrep), (ho_length _ Hho). lia. }
  exists hdr, l. split_and!; try done. split; [done|]. intros Hd.
  pose proof (read_log_whole options hdr l H1 H2 H3) as Hw.
  cbv zeta in Hw. rewrite <- Hd, Hr in Hw. injection (Hw Hlen) as ->. done.
Qed.

(** ** Properties *)

(** C5: Cut a recording anywhere behind its file header: the reader returns
    every whole record of what is left, in order, with its index entries, and
    vouches for exactly their bytes; it reports the log as complete when the cut
    falls between two records and as a truncated tail, at the end of the last
    whole record, otherwise. *)
Theorem cut_log_keeps_whole_records `{!EventCodec} options created l bs :
  in_s64 created -> readables l -> Zlength l <= maximum_records options ->
  Zlength bs < 2 ^ 64 -> bs `prefix_of` log_image created l.*1 ->
  (32 <= length bs)%nat ->
  exists k t, (k <= length l)%nat /\ bs = log_image created (take k l.*1) ++ t /\
    match l.*1 !! k with
    | Some e => (length t < length (record_image (Z.of_nat k) e))%nat
    | None => t = []
    end /\
    exists msg,
    read_log_from (Some (Zlength bs)) (Some bs) options =
      Some (if bool_decide (t = [])
            then log_result options created (Zlength bs) Log_complete 0 "log is complete"
                   (take k l)
            else log_result options created (Zlength bs) Log_truncated_tail
                   (Zlength (log_image created (take k l.*1))) msg (take k l)).
Proof. apply read_log_prefix. Qed.

Lemma cut_log_keeps_whole_records_witness :
  let bs := take 90 (log_image 77 sample_log.*1) in
  exists k t, (k <= length sample_log)%nat /\ bs = log_image 77 (take k sample_log.*1) ++ t /\
    match sample_log.*1 !! k with
    | Some e => (length t < length (record_image (Z.of_nat k) e))%nat
    | None => t = []
    end /\
    exists msg,
    @read_log_from sample_codec (Some (Zlength bs)) (Some bs) LogReadOptions_default =
      Some (if bool_decide (t = [])
            then log_result LogReadOptions_default 77 (Zlength bs) Log_complete 0 "log is complete"
                   (take k sample_log)
            else log_result LogReadOptions_default 77 (Zlength bs) Log_truncated_tail
                   (Zlength (log_image 77 (take k sample_log.*1))) msg (take k sample_log)).
Proof.
  intros bs. apply (@cut_log_keeps_whole_records sample_codec); unfold bs.
  - solve_range.
  - apply sample_log_readable.
  - vm_compute; congruence.
  - vm_compute; congruence.
  - apply prefix_take.
  - apply Nat.leb_le. vm_compute. reflexivity.
Defined.

(** C4: One changed byte anywhere in a recording is detected: the reader
    reports corruption, at the file header or at the record the byte belongs
    to, and returns exactly the records in front of it. *)
Theorem changed_byte_detected `{!EventCodec} options created l j b b' :
  in_s64 created -> readables l -> Zlength l <= maximum_records options ->
  let img := log_image created l.*1 in
  Zlength img < 2 ^ 64 -> img !! j = Some b -> b' <> b ->
  let data := <[j := b']> img in
  exists r, read_log_from (Some (Zlength data)) (Some data) options = Some r /\
    status r = Log_corrupt /\ valid_bytes r <= Z.of_nat j /\
    ((j < 32)%nat /\ index r = [] /\ records r = [] \/
     exists k e, l.*1 !! k = Some e /\
       error_offset r = Zlength (log_image created (take k l.*1)) /\
       error_offset r <= Z.of_nat j < error_offset r + Zlength (record_image (Z.of_nat k) e) /\
       index r = stored_index 0 kFileHeaderSize (take k l) /\
       records r = if retain_records options
                   then stored_records 0 kFileHeaderSize (take k l) else []).
Proof. apply read_log_damaged. Qed.

Lemma changed_byte_detected_witness :
  let img := log_image 77 sample_log.*1 in
  let data := <[50%nat := xff]> img in
  exists r, @read_log_from sample_codec (Some (Zlength data)) (Some data)
      LogReadOptions_default = Some r /\
    status r = Log_corrupt /\ valid_bytes r <= Z.of_nat 50 /\
    ((50 < 32)%nat /\ index r = [] /\ records r = [] \/
     exists k e, sample_log.*1 !! k = Some e /\
       error_offset r = Zlength (log_image 77 (take k sample_log.*1)) /\
       error_offset r <= Z.of_nat 50 < error_offset r + Zlength (record_image (Z.of_nat k) e) /\
       index r = stored_index 0 kFileHeaderSize (take k sample_log) /\
       records r = stored_records 0 kFileHeaderSize (take k sample_log)).
Proof.
  intros img data.
  apply (@changed_byte_detected sample_codec LogReadOptions_default 77 sample_log 50 x00 xff).
  - solve_range.
  - apply sample_log_readable.
  - vm_compute; congruence.
  - vm_compute; congruence.
  - vm_compute. reflexivity.
  - discriminate.
Defined.

(** C6: The reader returns on every file, and vouches only for what is there:
    the bytes it calls valid are a file header followed by the images of the
    very records it returns, and the log is complete exactly when that is the
    whole file. *)
Theorem read_log_sound `{!EventCodec} fs path options data :
  files fs !! path = Some data -> stat_error fs path = false ->
  open_error fs path = false -> Zlength data < 2 ^ 64 -> 0 <= maximum_records options ->
  exists r, read_log fs path options = Some r /\ file_size r = Zlength data /\
    (valid_bytes r = 0 /\ status r = Log_corrupt /\ index r = [] /\ records r = [] \/
     exists hdr l, header_ok hdr /\ readables l /\
       hdr ++ records_image 0 l.*1 `prefix_of` data /\
       valid_bytes r = Zlength (hdr ++ records_image 0 l.*1) /\
       index r = stored_index 0 kFileHeaderSize l /\
       records r = (if retain_records options then stored_records 0 kFileHeaderSize l else []) /\
       (status r = Log_complete <-> data = hdr ++ records_image 0 l.*1)).
Proof.
  intros Hf Hs Ho Hlen Hmax.
  destruct (read_log_vouches fs path options data Hf Hs Ho Hlen Hmax)
    as (r & Hr & Hsz & [Hno|(hdr & l & H1 & H2 & _ & H3)]); exists r; (split; [done|]);
    (split; [done|]); [by left|right]. by exists hdr, l.
Qed.

Lemma read_log_sound_witness :
  let data := take 90 (log_image 77 sample_log.*1) in
  let fs := fs_of {["run.tflog" := data]} in
  exists r, @read_log sample_codec fs "run.tflog" LogReadOptions_default = Some r /\
    file_size r = Zlength data /\
    (valid_bytes r = 0 /\ status r = Log_corrupt /\ index r = [] /\ records r = [] \/
     exists hdr l, header_ok hdr /\ @readables sample_codec l /\
       hdr ++ records_image 0 l.*1 `prefix_of` data /\
       valid_bytes r = Zlength (hdr ++ records_image 0 l.*1) /\
       index r = stored_index 0 kFileHeaderSize l /\
       records r = stored_records 0 kFileHeaderSize l /\
       (status r = Log_complete <-> data = hdr ++ records_image 0 l.*1)).
Proof.
  intros data fs.
  apply (@read_log_sound sample_codec fs "run.tflog" LogReadOptions_default data).
  - apply lookup_insert_eq.
  - reflexivity.
  - reflexivity.
  - vm_compute; congruence.
  - vm_compute; congruence.
Defined.
