(* ===== verification/LogRecovery.v ===== *)
(** * LogRecovery: [recover_truncated_tail] of [src/recording/log.cpp] *)
From Stdlib Require Import ZArith Lia.
From Stdlib Require Import Strings.Byte.
From stdpp Require Import base gmap strings list.
From S2P Require Import Prelude Bytes Floats Telemetry Streams LogFormat LogReader.
Local Open Scope Z_scope.
Local Open Scope tf_scope.

Section codec.
Context `{!EventCodec}.

(** The result and the file system after; [None] only if reading ran out of
    fuel, which it does not. *)
Definition recover_truncated_tail (fs : filesystem) (path : string)
    (options : LogReadOptions) : option (RecoveryResult * filesystem) :=
  match read_log fs path options with
  | None => None
  | Some read_result =>
      let recovery s c n msg :=
        {| succeeded := s; changed := c; original_size := file_size read_result;
           recovered_size := n; recovery_message := msg |} in
      let size := file_size read_result in
      return_if bool_decide (status read_result = Log_complete) with
        Some (recovery true false size "log was already complete"%string, fs) ;;
      return_if negb (bool_decide (status read_result = Log_truncated_tail))
          || (valid_bytes read_result <? kFileHeaderSize) with
        Some (recovery false false size
                ("refusing recovery because the log is not a recoverable truncated tail: "
                 ++ message read_result)%string, fs) ;;
      match fs_resize fs path (valid_bytes read_result) with
      | None => Some (recovery false false size "failed to truncate incomplete tail"%string, fs)
      | Some fs' =>
          Some (recovery true true (valid_bytes read_result)
                  "removed incomplete final record"%string, fs')
      end
  end.

(** A file system that answers for [path]. *)
Record readable_file (fs : filesystem) (path : string) (data : bytes) : Prop := {
  rf_file : files fs !! path = Some data;
  rf_stat : stat_error fs path = false;
  rf_open : open_error fs path = false;
  rf_size : Zlength data < 2 ^ 64;
}.

Lemma read_log_file fs path data options : readable_file fs path data ->
  read_log fs path options = read_log_from (Some (Zlength data)) (Some data) options.
Proof.
  intros [Hf Hs Ho _]. unfold read_log, fs_file_size, fs_open_read.
  by rewrite Hs, Ho, Hf.
Qed.

Lemma read_log_some fs path data options : readable_file fs path data ->
  exists r, read_log fs path options = Some r.
Proof.
  intros Hf. rewrite (read_log_file _ _ _ _ Hf).
  destruct (read_log_returns (Some (Zlength data)) (Some data) options) as [r Hr]; [|by exists r].
  pose proof (rf_size _ _ _ Hf). intros n [= <-]. unfold in_u64. lia.
Qed.

(** The part a truncated log vouches for, cut out, is a complete log with the
    same contents. *)
Lemma cut_tail_complete options data r :
  0 <= maximum_records options -> Zlength data < 2 ^ 64 ->
  read_log_from (Some (Zlength data)) (Some data) options = Some r ->
  32 <= valid_bytes r ->
  let data' := take (Z.to_nat (valid_bytes r)) data in
  Zlength data' = valid_bytes r /\
  exists r', read_log_from (Some (Zlength data')) (Some data') options = Some r' /\
    status r' = Log_complete /\ created_unix_ns r' = created_unix_ns r /\
    index r' = index r /\ records r' = records r.
Proof.
  intros Hmax Hlen Hr Hv data'.
  destruct (read_log_valid_part options data r Hmax Hlen Hr Hv) as
    (hdr & l & Hho & Hrd & Hl & Hvb & [u Hu] & Hc & Hi & Hrs & _).
  assert (Hd : data' = hdr ++ records_image 0 l.*1).
  { unfold data'. rewrite Hu, Hvb, Nat2Z.id. by apply take_app_len. }
  split; [by rewrite Hd, Hvb|].
  assert (Hlen' : Zlength data' < 2 ^ 64).
  { rewrite Hd. rewrite Hu, length_app in Hlen. lia. }
  rewrite Hd in *. eexists. split; [by apply read_log_whole|].
  cbn [status created_unix_ns index records log_result]. by rewrite Hc, Hi, Hrs.
Qed.

(** Only the tail of a log whose header was read is reported as truncated. *)
Lemma truncated_has_header options data r :
  0 <= maximum_records options -> Zlength data < 2 ^ 64 ->
  read_log_from (Some (Zlength data)) (Some data) options = Some r ->
  status r = Log_truncated_tail -> 32 <= valid_bytes r.
Proof.
  intros Hmax Hlen Hr Hst.
  destruct (read_log_reports options data r Hmax Hlen Hr)
    as [(Hc & _)|(hdr & t & l & rest & Hho & _ & Hrep & _)]; [congruence|].
  rewrite (rp_valid _ _ _ _ _ _ _ _ Hrep), (ho_length _ Hho). lia.
Qed.

Lemma fs_resize_cut fs path data n : readable_file fs path data ->
  resize_error fs path = false -> 0 <= n <= Zlength data ->
  exists fs', fs_resize fs path n = Some fs' /\
    files fs' = <[path := take (Z.to_nat n) data]> (files fs) /\
    readable_file fs' path (take (Z.to_nat n) data).
Proof.
  intros [Hf Hs Ho Hl] Hr Hn. unfold fs_resize. rewrite Hr, Hf. eexists. split; [done|].
  cbn [files with_files]. rewrite resize_le by lia. split; [done|].
  constructor; cbn [files with_files stat_error open_error]; try done.
  - apply lookup_insert_eq.
  - rewrite length_take. lia.
Qed.

(** A truncated tail is cut off. *)
Lemma truncated_tail_cut fs path data options r :
  readable_file fs path data -> 0 <= maximum_records options ->
  read_log fs path options = Some r -> status r = Log_truncated_tail ->
  resize_error fs path = false ->
  exists data' fs' r', fs_resize fs path (valid_bytes r) = Some fs' /\
    files fs' = <[path := data']> (files fs) /\ data' `prefix_of` data /\ data' <> data /\
    Zlength data' = valid_bytes r /\
    read_log fs' path options = Some r' /\ status r' = Log_complete /\
    created_unix_ns r' = created_unix_ns r /\ index r' = index r /\ records r' = records r.
Proof.
  intros Hf Hmax Hr Ht Hres. rewrite (read_log_file _ _ _ _ Hf) in Hr.
  pose proof (rf_size _ _ _ Hf) as Hlen.
  pose proof (truncated_has_header _ _ _ Hmax Hlen Hr Ht) as Hv.
  destruct (cut_tail_complete _ _ _ Hmax Hlen Hr Hv) as (Hl & r' & Hr' & Hc & Hcr & Hi & Hrs).
  set (data' := take (Z.to_nat (valid_bytes r)) data) in *.
  destruct (fs_resize_cut fs path data (valid_bytes r) Hf Hres) as (fs' & Hfs & Hfiles & Hf').
  { unfold data' in Hl. rewrite length_take in Hl. lia. }
  exists data', fs', r'. rewrite (read_log_file _ _ _ _ Hf').
  split_and!; try done; [apply prefix_take|].
  intros Heq. rewrite Heq, Hr in Hr'. congruence.
Qed.
End codec.

(** ** Properties *)

(** C7: Recovery of any file: it returns; it never touches another file nor, when
    it refuses, this one; it succeeds exactly on complete logs and on truncated
    tails (unless the file system refuses the resize); and after a success the
    file is a prefix of what it was that reads as a complete log with the very
    index entries and records read before. *)
Theorem recovery_keeps_every_whole_record `{!EventCodec} fs path data options :
  readable_file fs path data -> 0 <= maximum_records options ->
  exists r rec fs', read_log fs path options = Some r /\
    recover_truncated_tail fs path options = Some (rec, fs') /\
    original_size rec = Zlength data /\
    delete path (files fs') = delete path (files fs) /\
    (succeeded rec = true <-> status r = Log_complete \/
       status r = Log_truncated_tail /\ resize_error fs path = false) /\
    (changed rec = false -> fs' = fs) /\
    (succeeded rec = true ->
       exists data' r', files fs' !! path = Some data' /\ data' `prefix_of` data /\
         recovered_size rec = Zlength data' /\ (changed rec = true -> data' <> data) /\
         read_log fs' path options = Some r' /\ status r' = Log_complete /\
         created_unix_ns r' = created_unix_ns r /\
         index r' = index r /\ records r' = records r).
Proof.
  intros Hf Hmax. destruct (read_log_some fs path data options Hf) as [r Hr].
  pose proof (rf_size _ _ _ Hf) as Hlen.
  unfold recover_truncated_tail. rewrite Hr. exists r.
  pose proof Hr as Hr0. rewrite (read_log_file _ _ _ _ Hf) in Hr0.
  pose proof (read_log_size _ _ _ _ Hr0) as Hsize.
  destruct (decide (status r = Log_complete)) as [Hst|Hst].
  { rewrite bool_decide_eq_true_2 by done. do 2 eexists. split; [done|].
    split; [done|]. cbn. split_and!; try done; [by split; auto|]. intros _.
    exists data, r. by split_and!; [apply Hf| | | | | | | |]. }
  rewrite bool_decide_eq_false_2 by done.
  destruct (decide (status r = Log_truncated_tail)) as [Ht|Ht].
  2: { rewrite (bool_decide_eq_false_2 (status r = _)) by done. cbn [negb orb].
       do 2 eexists. split; [done|]. split; [done|]. cbn.
       split_and!; try done. by split; [|intros [?|[? _]]]. }
  pose proof (truncated_has_header _ _ _ Hmax Hlen Hr0 Ht) as Hv.
  rewrite (bool_decide_eq_true_2 (status r = _)) by done. cbn [negb orb].
  destruct (Z.ltb_spec (valid_bytes r) kFileHeaderSize) as [Hlt|_];
    [unfold kFileHeaderSize in Hlt; lia|].
  destruct (resize_error fs path) eqn:Hres.
  { unfold fs_resize. rewrite Hres. do 2 eexists. split; [done|]. split; [done|].
    cbn. split_and!; try done. by split; [|intros [?|[_ ?]]]. }
  destruct (truncated_tail_cut fs path data options r Hf Hmax Hr Ht Hres)
    as (data' & fs' & r' & -> & Hfiles & H1 & H2 & H3 & H4 & H5 & H6 & H7 & H8).
  do 2 eexists. split; [done|]. split; [done|]. cbn. rewrite Hfiles.
  split_and!; try done; [by rewrite delete_insert_eq|by split; auto|]. intros _.
  exists data', r'. split_and!; try done. apply lookup_insert_eq.
Qed.

Lemma recovery_keeps_every_whole_record_witness :
  let data := take 90 (log_image 77 sample_log.*1) in
  let fs := fs_of {["run.tflog" := data]} in
  let options := LogReadOptions_default in
  exists r rec fs', @read_log sample_codec fs "run.tflog" options = Some r /\
    @recover_truncated_tail sample_codec fs "run.tflog" options = Some (rec, fs') /\
    original_size rec = Zlength data /\
    delete "run.tflog" (files fs') = delete "run.tflog" (files fs) /\
    (succeeded rec = true <-> status r = Log_complete \/
       status r = Log_truncated_tail /\ resize_error fs "run.tflog" = false) /\
    (changed rec = false -> fs' = fs) /\
    (succeeded rec = true ->
       exists data' r', files fs' !! "run.tflog" = Some data' /\ data' `prefix_of` data /\
         recovered_size rec = Zlength data' /\ (changed rec = true -> data' <> data) /\
         @read_log sample_codec fs' "run.tflog" options = Some r' /\
         status r' = Log_complete /\
         created_unix_ns r' = created_unix_ns r /\
         index r' = index r /\ records r' = records r).
Proof.
  intros data fs options.
  apply (@recovery_keeps_every_whole_record sample_codec fs "run.tflog" data options).
  - constructor; [apply lookup_insert_eq|reflexivity|reflexivity|vm_compute; congruence].
  - vm_compute; congruence.
Defined.
