(* ===== verification/Recording.v ===== *)
(** * Recording: writer and reader together, and [LogWriterConsumer]

    What a session of the writer leaves on disk, at its end or at a crash, and
    what the reader makes of it; the writer as the consumer of the queued sink
    ([src/recording/log_consumer.cpp]). *)
From Stdlib Require Import ZArith Lia.
From Stdlib Require Import Strings.Byte.
From stdpp Require Import base gmap strings list.
From S2P Require Import Prelude Bytes Floats Telemetry Validation BoundedQueue QueuedSink.
From S2P Require Import Streams LogFormat LogWriter LogReader LogRecovery.
Local Open Scope Z_scope.
Local Open Scope tf_scope.

Section sessions.
Context `{!EventCodec} (wire_ok : TelemetryEvent -> Prop) `{!EventCodecLaws _ wire_ok}.
Implicit Types (l : list (TelemetryEvent * Z)) (pairs : list (Entry * TelemetryEvent)).

(** The calls a session makes: events the codec round-trips, and 64-bit times. *)
Definition session_ok l : Prop := Forall (fun p => wire_ok p.1 /\ in_s64 p.2) l.

(** An accepted event can be read back. *)
Lemma entry_readable ev ts e : wire_ok ev -> in_s64 ts -> entry_of ev ts = Some e ->
  readable e ev /\ arrival e = ts.
Proof.
  intros Hw Hts. unfold entry_of.
  destruct (schema_version ev =? kTelemetrySchemaVersion) eqn:Hs; [|done].
  cbn [negb]. destruct (SerializeToString ev) as [p|] eqn:Hp; [|done].
  destruct (kMaximumPayloadSize <? Zlength p) eqn:Hz; [done|]. intros [= <-].
  reflect_bools. split; [|done].
  constructor; cbn [body arrival]; [by eapply parse_serialize|done|lia|done].
Qed.

(** The inputs of a session by position. *)
Definition input_at l (i : nat) (ev : TelemetryEvent) (ts : Z) : Prop :=
  l !! i = Some (ev, ts) /\ wire_ok ev /\ in_s64 ts.

(** Entries that come from the first calls of a session. *)
Definition from_session l (es : list Entry) : Prop :=
  forall i e, es !! i = Some e -> recordable (input_at l) i e.

Lemma from_session_pairs l es : from_session l es ->
  (length es <= length l)%nat /\
  exists pairs, pairs.*1 = es /\ readables pairs /\
    (fun p => (p.2, arrival p.1)) <$> pairs = take (length es) l.
Proof.
  revert l; induction es as [|e es IH]; intros l Hes.
  { split; [cbn; lia|]. exists []. by split_and!; [|constructor|]. }
  destruct (Hes 0%nat e eq_refl) as (ev & ts & (Hl & Hw & Hts) & He).
  destruct l as [|[ev' ts'] l]; [done|]. cbn in Hl. injection Hl as -> ->.
  destruct (IH l) as (Hlen & pairs & H1 & H2 & H3).
  { intros i e' Hi. exact (Hes (S i) e' Hi). }
  destruct (entry_readable _ _ _ Hw Hts He) as [Hrd Ha].
  split; [cbn; lia|]. exists ((e, ev) :: pairs). cbn [fmap list_fmap fst snd length take firstn].
  rewrite Ha. split_and!; [by f_equal|by constructor|by f_equal].
Qed.

Lemma stored_records_events i off pairs :
  (fun r => (rec_event r, rec_collector_arrival_timestamp_ns r)) <$> stored_records i off pairs =
    (fun p => (p.2, arrival p.1)) <$> pairs.
Proof.
  revert i off; induction pairs as [|[e ev] pairs IH]; intros i off; [done|].
  cbn [stored_records fmap list_fmap fst snd log_record rec_event
       rec_collector_arrival_timestamp_ns].
  f_equal. apply IH.
Qed.

Lemma stored_records_indices off pairs :
  rec_record_index <$> stored_records 0 off pairs = seqZ 0 (Zlength pairs).
Proof.
  assert (Hgen : forall i, rec_record_index <$> stored_records i off pairs = seqZ i (Zlength pairs));
    [|apply Hgen].
  intros i. revert i off. induction pairs as [|[e ev] pairs IH]; intros i off; [done|].
  cbn [stored_records fmap list_fmap log_record rec_record_index length].
  rewrite seqZ_cons by lia. f_equal. rewrite IH. f_equal; lia.
Qed.

(** The bytes of a session that may be on disk, and the calls they hold. *)
Lemma session_bytes created l es w cut :
  writer_inv (input_at l) created es w ->
  let bs := take (cut `max` os_synced (output_ w)) (os_data (output_ w)) in
  exists pairs, readables pairs /\
    (fun p => (p.2, arrival p.1)) <$> pairs = take (length pairs) l /\
    (length es <= length pairs <= length l)%nat /\
    take (length es) pairs.*1 = es /\
    bs `prefix_of` log_image created pairs.*1 /\
    (os_synced (output_ w) <= length bs)%nat.
Proof.
  intros Hi bs. destruct (wi_data _ _ _ _ Hi) as (pending & Hlen & Hpend & Hpre & _).
  assert (Hfrom : from_session l (es ++ pending)).
  { intros i e [He|(Hge & He)]%lookup_app_Some; [by apply (wi_recordable _ _ _ _ Hi)|].
    pose proof (lookup_lt_Some _ _ _ He).
    rewrite Forall_lookup in Hpend. replace i with (length es) by lia. eauto. }
  destruct (from_session_pairs l _ Hfrom) as (Hl & pairs & H1 & H2 & H3).
  assert (Hpl : length pairs = length (es ++ pending)) by (by rewrite <- H1, length_fmap).
  exists pairs. rewrite H1. split_and!; try done.
  - by rewrite Hpl.
  - rewrite Hpl, length_app. lia.
  - lia.
  - by apply take_app_length.
  - etransitivity; [apply prefix_take|exact Hpre].
  - pose proof (wi_synced _ _ _ _ Hi). unfold bs. rewrite length_take. lia.
Qed.

(** The records covered by a flush are among the whole records on disk. *)
Lemma durable_records created period es pairs sy slack bs k t :
  durable created period es sy slack ->
  take (length es) pairs.*1 = es -> (sy <= length bs)%nat ->
  bs = log_image created (take k pairs.*1) ++ t -> (k <= length pairs)%nat ->
  match pairs.*1 !! k with
  | Some e => (length t < length (record_image (Z.of_nat k) e))%nat
  | None => t = []
  end ->
  Zlength es - Z.of_nat k < period + slack.
Proof.
  intros (m & Hm & _ & Hlt & Hd) Hes Hsy Hbs Hk Ht.
  destruct (decide (m <= k)%nat) as [|Hmk]; [lia|]. exfalso.
  destruct Hd as [->|Hd]; [lia|].
  assert (Hme : take m es = take m pairs.*1)
    by (rewrite <- Hes, take_take; f_equal; lia).
  assert (Hel : (length es <= length pairs.*1)%nat)
    by (pose proof (f_equal length Hes) as Hx; rewrite length_take in Hx; lia).
  destruct (lookup_lt_is_Some_2 pairs.*1 k) as [e He]; [lia|]. rewrite He in Ht.
  assert (Hpre : log_image created (take (S k) pairs.*1) `prefix_of`
    log_image created (take m pairs.*1)).
  { replace (take (S k) pairs.*1) with (take (S k) (take m pairs.*1))
      by (rewrite take_take; f_equal; lia). apply log_image_prefix. }
  apply prefix_length in Hpre. rewrite (take_S_r _ _ _ He), log_image_snoc in Hpre.
  rewrite length_take_le in Hpre by lia. rewrite Hme in Hd.
  rewrite Hbs in Hsy. rewrite length_app in *. lia.
Qed.

Lemma run_appends_stopped l w : good w = false ->
  run_appends w l = (replicate (length l) false, w).
Proof.
  intros Hw. induction l as [|[ev ts] l IH]; [reflexivity|].
  cbn [run_appends]. unfold append. rewrite Hw. cbn [negb]. by rewrite IH.
Qed.

(** A session from the constructor on: it never opened the file, or it holds
    the accepted calls (and perhaps the one whose flush failed). *)
Lemma session_outcome fs script now path options l oks w :
  session_ok l -> Zlength l < 2 ^ 64 -> 0 <= flush_every_records options ->
  run_appends (LogWriter_new fs script now path options) l = (oks, w) ->
  path_ w = path /\
  if os_open (output_ w) then
    fs_exists fs path = Some false /\
    flush_every_records (options_ w) = flush_every_records options /\
    exists n es, oks = replicate n true ++ replicate (length l - n) false /\
      (n <= length es <= S n)%nat /\ (n <= length l)%nat /\
      writer_inv (input_at l) (created_of now options) es w /\
      (good w = true -> n = length l /\ length es = n)
  else good w = false /\ oks = replicate (length l) false.
Proof.
  intros Hl Hlen Hfe Hrun.
  destruct (LogWriter_new_spec (input_at l) fs script now path options Hfe) as (Hpath & Hnew).
  set (w0 := LogWriter_new fs script now path options) in *.
  destruct (os_open (output_ w0)) eqn:Hopen.
  - destruct Hnew as (Hinv & Hper & Hex & _).
    destruct (run_appends_spec (input_at l) _ l [] w0 oks w Hinv) as
      (n & es' & extra & Hn & Hoks & Hm & (Hp & Ho & Hop) & Hi & Hx & Hg & Hgx); [|done|done|].
    { intros i [ev ts] Hi. split; [done|]. exact (Forall_lookup_1 _ _ _ _ Hl Hi). }
    rewrite Hop, Hopen, Ho. split; [congruence|]. split; [done|]. split; [done|].
    exists n, (es' ++ extra). rewrite app_nil_l in Hi.
    apply length_mapM in Hm. rewrite length_take_le in Hm by done.
    rewrite length_app. split_and!; [done|lia|lia|done|exact Hi|].
    intros Hgw. rewrite (Hgx Hgw). rewrite Hgw in Hg. symmetry in Hg.
    apply andb_true_iff in Hg as [_ Hg%Nat.eqb_eq]. cbn. lia.
  - rewrite run_appends_stopped in Hrun by done. injection Hrun as <- <-.
    rewrite Hopen. done.
Qed.
End sessions.

(** Sessions whose files stay below 2^64 bytes, whatever their events. *)
Definition session_fits {A} (l : list A) : Prop :=
  kFileHeaderSize + Zlength l * (kRecordHeaderSize + kMaximumPayloadSize) < 2 ^ 64.

Lemma session_fits_length {A} (l : list A) : session_fits l -> Zlength l < 2 ^ 64.
Proof. unfold session_fits, kFileHeaderSize, kRecordHeaderSize, kMaximumPayloadSize. lia. Qed.

Section files.
Context `{!EventCodec}.

Lemma image_fits created pairs : readables pairs -> session_fits pairs ->
  Zlength (log_image created pairs.*1) < 2 ^ 64.
Proof.
  intros Hrd Hfit. rewrite log_image_length.
  assert (Hb : forall i, Zlength (records_image i pairs.*1) <=
    Zlength pairs * (kRecordHeaderSize + kMaximumPayloadSize)).
  { clear Hfit. induction Hrd as [|[e ev] pairs Hr Hrd IH]; intros i; [done|].
    cbn [fmap list_fmap fst records_image length]. rewrite length_app, record_image_length.
    specialize (IH (i + 1)). pose proof (rd_size _ _ Hr). cbn [fst] in *.
    unfold kRecordHeaderSize in *. lia. }
  specialize (Hb 0). unfold session_fits, kFileHeaderSize in Hfit. lia.
Qed.

End files.

(** ** Complete sessions *)

Section complete.
Context `{!EventCodec} (wire_ok : TelemetryEvent -> Prop) `{!EventCodecLaws _ wire_ok}.

(** A session whose writer is still good at the end: every call succeeded, and
    the bytes its stream took read as the complete log of the calls. *)
Lemma good_session_file fs script now path options read_options l oks w :
  session_ok wire_ok l -> session_fits l -> 0 <= flush_every_records options ->
  in_s64 (created_of now options) -> Zlength l <= maximum_records read_options ->
  run_appends (LogWriter_new fs script now path options) l = (oks, w) ->
  good w = true ->
  exists pairs bs, readables pairs /\
    (fun p => (p.2, arrival p.1)) <$> pairs = l /\
    bs = log_image (created_of now options) pairs.*1 /\
    oks = replicate (length l) true /\ record_count_ w = Zlength l /\
    bytes_written_ w = Zlength bs /\
    <[path_ w := os_data (output_ w)]> (files fs) = <[path := bs]> (files fs) /\
    read_log_from (Some (Zlength bs)) (Some bs) read_options =
      Some (log_result read_options (created_of now options) (Zlength bs) Log_complete 0
              "log is complete" pairs).
Proof.
  intros Hl Hfit Hfe Hc Hmax Hrun Hg.
  destruct (session_outcome wire_ok fs script now path options l oks w)
    as (Hpath & Hout); [done|by apply session_fits_length|done|done|].
  destruct (good_inv _ Hg) as (_ & Hopen & _). rewrite Hopen in Hout.
  destruct Hout as (_ & _ & n & es & -> & _ & _ & Hinv & Hn).
  destruct (Hn Hg) as [-> Hes]. destruct (wi_good _ _ _ _ Hinv Hg) as [Himg Hbw].
  destruct (from_session_pairs wire_ok l es) as (_ & pairs & Hp1 & Hrd & Hp2).
  { intros i e. apply (wi_recordable _ _ _ _ Hinv). }
  rewrite Hes, firstn_all in Hp2.
  assert (Hpl : length pairs = length l) by (by rewrite <- Hp2, length_fmap).
  set (bs := log_image (created_of now options) es).
  assert (Hsmall : Zlength bs < 2 ^ 64).
  { unfold bs. rewrite <- Hp1. apply image_fits; [done|]. unfold session_fits in *. by rewrite Hpl. }
  exists pairs, bs. rewrite Hp1, Nat.sub_diag, app_nil_r. split_and!; try done.
  - rewrite (wi_count _ _ _ _ Hinv), Hes. done.
  - rewrite Hbw, Himg. apply u64_small. unfold in_u64. fold bs. lia.
  - by rewrite Hpath, Himg.
  - pose proof (read_log_whole read_options (build_file_header (created_of now options)) pairs)
      as Hr. rewrite header_created_built in Hr by done. cbv zeta in Hr. rewrite Hp1 in Hr.
    apply Hr; [apply header_ok_built|done|lia|done].
Qed.
End complete.

(** ** The writer behind the queue *)

(** [LogWriterConsumer] *)
Record LogWriterConsumer := { writer_ : LogWriter }.

Definition LogWriterConsumer_new (fs : filesystem) (script : list IoOutcome) (now : Z)
    (path : string) (options : LogWriterOptions) : LogWriterConsumer :=
  {| writer_ := LogWriter_new fs script now path options |}.

Definition LogWriterConsumer_consume `{!EventCodec} (c : LogWriterConsumer)
    (ce : CollectedEvent) : bool * LogWriterConsumer :=
  let '(ok, w) := append (writer_ c) (event ce) (collector_arrival_timestamp_ns ce) in
  (ok, {| writer_ := w |}).

Definition LogWriterConsumer_flush (c : LogWriterConsumer) : bool * LogWriterConsumer :=
  let '(ok, w) := flush (writer_ c) in (ok, {| writer_ := w |}).

Definition LogWriterConsumer_good (c : LogWriterConsumer) : bool := good (writer_ c).
Definition LogWriterConsumer_record_count (c : LogWriterConsumer) : Z :=
  LogWriter_record_count (writer_ c).
Definition LogWriterConsumer_bytes_written (c : LogWriterConsumer) : Z :=
  LogWriter_bytes_written (writer_ c).
Definition LogWriterConsumer_error (c : LogWriterConsumer) : string :=
  LogWriter_error (writer_ c).

#[export] Instance log_writer_consumer `{!EventCodec} : TelemetryConsumer LogWriterConsumer := {
  consume := LogWriterConsumer_consume;
}.

(** A collected event as the arguments of [append]. *)
Definition as_call (ce : CollectedEvent) : TelemetryEvent * Z :=
  (event ce, collector_arrival_timestamp_ns ce).

Section consumer.
Context `{!EventCodec}.

Lemma feed_appends c evs :
  feed c evs =
    (forallb id (fst (run_appends (writer_ c) (as_call <$> evs))),
     {| writer_ := snd (run_appends (writer_ c) (as_call <$> evs)) |}).
Proof.
  revert c; induction evs as [|ce evs IH]; intros c; [by destruct c|].
  cbn [feed consume log_writer_consumer fmap list_fmap run_appends as_call].
  unfold LogWriterConsumer_consume.
  destruct (append (writer_ c) (event ce) (collector_arrival_timestamp_ns ce)) as [ok w].
  rewrite IH. cbn [writer_]. by destruct (run_appends w (as_call <$> evs)).
Qed.

Lemma feed_appends_after c evs oks w :
  run_appends (writer_ c) (as_call <$> evs) = (oks, w) ->
  writer_ (snd (feed c evs)) = w /\ fst (feed c evs) = forallb id oks.
Proof. intros Hr. rewrite feed_appends, Hr. done. Qed.

(** Sessions in which every call succeeded leave a good writer. *)
Lemma all_succeeded_good l : forall w oks w', good w = true ->
  run_appends w l = (oks, w') -> forallb id oks = true -> good w' = true.
Proof.
  induction l as [|[ev ts] l IH]; intros w oks w' Hg Hr Hok; [by injection Hr as <- <-|].
  cbn [run_appends] in Hr. destruct (append w ev ts) as [ok w1] eqn:Ha.
  destruct (run_appends w1 l) as [oks1 w2] eqn:Hr1. injection Hr as <- <-.
  cbn [forallb] in Hok. apply andb_true_iff in Hok as [Hok1 Hok]. cbn in Hok1. subst ok.
  apply (IH w1 oks1); [|done|done]. by eapply append_good.
Qed.
End consumer.

(** ** Crashes *)

Lemma crash_outcome `{!EventCodec} (wire_ok : TelemetryEvent -> Prop)
    `{!EventCodecLaws _ wire_ok} fs script now path options read_options l cut oks w :
  session_ok wire_ok l -> session_fits l -> 0 <= flush_every_records options ->
  in_s64 (created_of now options) -> Zlength l <= maximum_records read_options ->
  retain_records read_options = true ->
  run_appends (LogWriter_new fs script now path options) l = (oks, w) ->
  os_open (output_ w) = true ->
  exists n k bs, oks = replicate n true ++ replicate (length l - n) false /\
    files_after fs w cut = <[path := bs]> (files fs) /\
    Z.of_nat n - Z.of_nat k <= flush_every_records options /\
    ((length bs < 32)%nat /\ k = 0%nat \/
     exists r, read_log_from (Some (Zlength bs)) (Some bs) read_options = Some r /\
       (status r = Log_complete \/ status r = Log_truncated_tail) /\
       created_unix_ns r = created_of now options /\
       (fun r => (rec_event r, rec_collector_arrival_timestamp_ns r)) <$> records r =
         take k l).
Proof.
  intros Hl Hfit Hfe Hc Hmax Hret Hrun Hopen.
  destruct (session_outcome wire_ok fs script now path options l oks w)
    as (Hpath & Hout); [done|by apply session_fits_length|done|done|].
  rewrite Hopen in Hout.
  destruct Hout as (_ & Hper & n & es & Hoks & Hn & Hnl & Hinv & _).
  destruct (session_bytes wire_ok _ l es w cut Hinv)
    as (pairs & Hrd & Hev & Hlen & Hes & Hpre & Hsy).
  rewrite files_after_open, Hpath by done.
  set (bs := take _ (os_data (output_ w))) in *.
  assert (Hsmall : Zlength bs < 2 ^ 64).
  { apply prefix_length in Hpre.
    pose proof (image_fits (created_of now options) pairs Hrd) as Hf.
    unfold session_fits, kRecordHeaderSize, kMaximumPayloadSize in *. lia. }
  pose proof (wi_durable _ _ _ _ Hinv) as Hdur. rewrite Hper in Hdur.
  assert (Hslack : (if good w then 0 else 1) <= 1) by (case_match; lia).
  destruct (decide (length bs < 32)%nat) as [Hshort|Hlong].
  - exists n, 0%nat, bs. split_and!; [done|done| |by left].
    destruct Hdur as (m & Hm & _ & Hlt & [->|Hd]); [lia|].
    rewrite log_image_length in Hd. lia.
  - destruct (read_log_prefix read_options (created_of now options) pairs bs)
      as (k & t & Hk & Hbs & Ht & msg & Hread); [done|done|lia|done|done|lia|].
    exists n, k, bs. split_and!; [done|done| |right].
    + pose proof (durable_records _ _ _ pairs _ _ bs k t Hdur Hes Hsy Hbs Hk Ht). lia.
    + eexists. split; [exact Hread|].
      assert (Hrecs : forall st erroff m,
        (fun r => (rec_event r, rec_collector_arrival_timestamp_ns r)) <$>
          records (log_result read_options (created_of now options) (Zlength bs) st erroff m
            (take k pairs)) = take k l).
      { intros st erroff m. cbn [records log_result]. rewrite Hret, stored_records_events.
        rewrite fmap_take, Hev, take_take. f_equal. lia. }
      case_bool_decide; cbn [status created_unix_ns log_result]; split_and!; auto.
Qed.


(** Reading a file the writer has closed. *)
Lemma read_log_closed `{!EventCodec} fs script now path options ro bs m :
  0 <= flush_every_records options ->
  good (LogWriter_new fs script now path options) = true ->
  m !! path = Some bs ->
  read_log (with_files fs m) path ro = read_log_from (Some (Zlength bs)) (Some bs) ro.
Proof.
  intros Hfe Hg Hm.
  destruct (LogWriter_new_spec (fun _ _ _ => True) fs script now path options Hfe) as [_ Hnew].
  destruct (good_inv _ Hg) as (_ & Ho & _). rewrite Ho in Hnew.
  destruct Hnew as (_ & _ & Hex & Hop). unfold fs_exists in Hex.
  unfold read_log, fs_file_size, fs_open_read. cbn [stat_error open_error files with_files].
  rewrite Hop, Hm. by destruct (stat_error fs path).
Qed.

(** ** Sample values *)

(** The events of [QueuedSink.sample_schedule] and their wire forms. *)
Definition pipeline_table : list (TelemetryEvent * bytes) :=
  [(event (sample_collected 1), [x01; x02]); (event (sample_collected 2), [x03])].

Definition pipeline_codec : EventCodec := table_codec pipeline_table.

Lemma pipeline_codec_laws : @EventCodecLaws pipeline_codec (fun _ => True).
Proof. apply table_codec_laws. apply (bool_decide_unpack _). by vm_compute. Qed.

Definition sample_options : LogWriterOptions :=
  {| flush_every_records := 2; opt_created_unix_ns := 0 |}.

Definition slow_flush_options : LogWriterOptions :=
  {| flush_every_records := 100; opt_created_unix_ns := 0 |}.

Definition sample_calls : list (TelemetryEvent * Z) :=
  [as_call (sample_collected 1); as_call (sample_collected 2)].

(** The second payload is lost in the middle of its write. *)
Definition sample_faults : list IoOutcome := [Io_ok; Io_ok; Io_ok; Io_ok; Io_fail 0].

Definition faulty_session : list bool * LogWriter :=
  @run_appends pipeline_codec
    (LogWriter_new (fs_of ∅) sample_faults 77 "run.tflog" sample_options) sample_calls.

Abbreviation recorder :=
  (LogWriterConsumer_new (fs_of ∅) [] 77 "run.tflog" sample_options).

Definition start_with (c0 : LogWriterConsumer) : sink_state LogWriterConsumer :=
  match make_queue 2 with
  | inr q => sink_start q c0 0 0 false
  | inl _ => sink_start (Build_BoundedQueue 0 [] 0 0 0 false) c0 0 0 false
  end.

Definition recorder_start : sink_state LogWriterConsumer := start_with recorder.

Definition recorder_sink : sink_state LogWriterConsumer :=
  default recorder_start
    (@run_actions _ (@log_writer_consumer pipeline_codec) recorder_start sample_schedule).

(** The same schedule on a disk that is full when the recorder flushes last. *)
Definition full_disk : list IoOutcome := replicate 5 Io_ok ++ [Io_fail 3].

Abbreviation full_recorder :=
  (LogWriterConsumer_new (fs_of ∅) full_disk 77 "run.tflog" slow_flush_options).

Definition full_disk_sink : sink_state LogWriterConsumer :=
  default (start_with full_recorder)
    (@run_actions _ (@log_writer_consumer pipeline_codec) (start_with full_recorder)
       sample_schedule).

Lemma full_disk_sink_reachable :
  @reachable _ (@log_writer_consumer pipeline_codec) full_recorder 2 full_disk_sink.
Proof.
  eapply (@run_actions_reachable _ (@log_writer_consumer pipeline_codec) _ 2 _ sample_schedule);
    [solve_range|reflexivity|].
  vm_compute. reflexivity.
Qed.

Lemma recorder_sink_reachable :
  @reachable _ (@log_writer_consumer pipeline_codec) recorder 2 recorder_sink.
Proof.
  eapply (@run_actions_reachable _ (@log_writer_consumer pipeline_codec) _ 2 _ sample_schedule);
    [solve_range|reflexivity|].
  vm_compute. reflexivity.
Qed.

Lemma recorder_session_ok : session_ok (fun _ => True) (as_call <$> taken recorder_sink).
Proof.
  replace (as_call <$> taken recorder_sink) with (reverse sample_calls)
    by (vm_compute; reflexivity).
  repeat constructor; solve_range.
Qed.

(** ** Properties *)

(** Crash safety. However the writes and flushes of a session went, and
    wherever a crash cut the file, the reader finds a log that is complete or
    has a truncated tail and holds exactly the events and arrival times of the
    first [k] calls; at most [flush_every_records] of the records acknowledged
    are missing. (A file shorter than a file header holds nothing.) *)
Theorem crash_keeps_flushed_records `{!EventCodec} (wire_ok : TelemetryEvent -> Prop)
    `{!EventCodecLaws _ wire_ok} fs script now path options read_options l cut oks w :
  session_ok wire_ok l -> session_fits l -> 0 <= flush_every_records options ->
  in_s64 (created_of now options) -> Zlength l <= maximum_records read_options ->
  retain_records read_options = true ->
  run_appends (LogWriter_new fs script now path options) l = (oks, w) ->
  os_open (output_ w) = true ->
  exists n k bs, oks = replicate n true ++ replicate (length l - n) false /\
    files_after fs w cut = <[path := bs]> (files fs) /\
    Z.of_nat n - Z.of_nat k <= flush_every_records options /\
    ((length bs < 32)%nat /\ k = 0%nat \/
     exists r, read_log_from (Some (Zlength bs)) (Some bs) read_options = Some r /\
       (status r = Log_complete \/ status r = Log_truncated_tail) /\
       created_unix_ns r = created_of now options /\
       (fun r => (rec_event r, rec_collector_arrival_timestamp_ns r)) <$> records r =
         take k l).
Proof. by apply crash_outcome. Qed.

Lemma crash_keeps_flushed_records_witness :
  let l := sample_calls in
  let oks := fst faulty_session in
  let w := snd faulty_session in
  oks = [true; false] /\
  exists n k bs, oks = replicate n true ++ replicate (length l - n) false /\
    files_after (fs_of ∅) w 80 = <["run.tflog" := bs]> ∅ /\
    Z.of_nat n - Z.of_nat k <= flush_every_records sample_options /\
    ((length bs < 32)%nat /\ k = 0%nat \/
     exists r, @read_log_from pipeline_codec (Some (Zlength bs)) (Some bs)
         LogReadOptions_default = Some r /\
       (status r = Log_complete \/ status r = Log_truncated_tail) /\
       created_unix_ns r = created_of 77 sample_options /\
       (fun r => (rec_event r, rec_collector_arrival_timestamp_ns r)) <$> records r =
         take k l).
Proof.
  intros l oks w. split; [vm_compute; reflexivity|].
  apply (@crash_keeps_flushed_records pipeline_codec _ pipeline_codec_laws (fs_of ∅)
    sample_faults 77 "run.tflog" sample_options LogReadOptions_default l 80 oks w).
  - repeat constructor; solve_range.
  - vm_compute. reflexivity.
  - vm_compute; congruence.
  - solve_range.
  - vm_compute; congruence.
  - reflexivity.
  - apply surjective_pairing.
  - vm_compute. reflexivity.
Defined.

(** The writer of a sink that was shut down without a consumer failure: good,
    and fed exactly the events taken in. *)
Lemma drained_writer `{!EventCodec} (c0 : LogWriterConsumer) cap s :
  reachable c0 cap s -> shutter s = S_done -> consumer_failures_ s = 0 ->
  LogWriterConsumer_good c0 = true ->
  exists oks, run_appends (writer_ c0) (as_call <$> taken s) = (oks, writer_ (consumer_ s)) /\
    forallb id oks = true /\ good (writer_ (consumer_ s)) = true /\
    taken s ≡ₚ omap accepted_result (results s) ++ notifying (producers s) /\
    consumed_events_ s = u64 (Zlength (taken s)).
Proof.
  intros Hs Hdone Hnf Hg0.
  destruct (reachable_inv c0 cap s Hs) as [_ _ _ Ha _ _ _ _ _ _ Hres].
  destruct (shutdown_outcome c0 cap s Hs Hdone) as (_ & _ & [Hall|(Hf & _)]).
  2: { cbn in Hf. congruence. }
  destruct Hall as (_ & _ & _ & Hfeed & Hcount). cbn in Hcount.
  destruct (run_appends (writer_ c0) (as_call <$> taken s)) as [oks w'] eqn:Hrun.
  destruct (feed_appends_after c0 (taken s) oks w' Hrun) as [Hw Hoks].
  rewrite Hfeed in Hw, Hoks. cbn [fst snd] in Hw, Hoks. subst w'.
  exists oks. split_and!; [done|done| |done|congruence].
  eapply all_succeeded_good; [exact Hg0|exact Hrun|done].
Qed.

Lemma all_true_length n m :
  replicate m true = replicate n true ++ replicate (m - n) false -> n = m.
Proof.
  intros H. pose proof (f_equal length H) as Hl. rewrite length_app, !length_replicate in Hl.
  pose proof (f_equal (forallb id) H) as Hb. rewrite forallb_app in Hb.
  assert (Hall : forall k, forallb id (replicate k true) = true) by (intros k; by induction k).
  rewrite Hall in Hb. symmetry in Hb. apply andb_true_iff in Hb as [_ Hb].
  destruct (m - n)%nat eqn:E; [lia|done].
Qed.

(** C1: The whole recorder survives a crash. In every state any interleaving of
    producers, consumer thread and shutdown can reach, with any faults of the
    file: if the process stops there, the file holds a log the reader calls
    complete or truncated, whose records are exactly the first [k] events
    consumed, in the order the queue took them in, with their arrival times;
    of the [n] events written successfully at most [flush_every_records] are
    missing. *)
Theorem pipeline_survives_crash `{!EventCodec} (wire_ok : TelemetryEvent -> Prop)
    `{!EventCodecLaws _ wire_ok} fs script now path options read_options cap
    (s : sink_state LogWriterConsumer) cut :
  let c0 := LogWriterConsumer_new fs script now path options in
  let w := writer_ (consumer_ s) in
  reachable c0 cap s ->
  session_ok wire_ok (as_call <$> taken s) -> session_fits (taken s) ->
  0 <= flush_every_records options -> in_s64 (created_of now options) ->
  Zlength (taken s) <= maximum_records read_options -> retain_records read_options = true ->
  os_open (output_ w) = true ->
  exists consumed n k bs, delivered s = consumed ++ in_flight (worker s) /\
    consumed `prefix_of` taken s /\
    fst (run_appends (writer_ c0) (as_call <$> consumed)) =
      replicate n true ++ replicate (length consumed - n) false /\
    files_after fs w cut = <[path := bs]> (files fs) /\
    Z.of_nat n - Z.of_nat k <= flush_every_records options /\
    ((length bs < 32)%nat /\ k = 0%nat \/
     exists r, read_log_from (Some (Zlength bs)) (Some bs) read_options = Some r /\
       (status r = Log_complete \/ status r = Log_truncated_tail) /\
       (fun r => (rec_event r, rec_collector_arrival_timestamp_ns r)) <$> records r =
         as_call <$> take k consumed).
Proof.
  intros c0 w Hs Hok Hfit Hfe Hc Hmax Hret Hopen.
  destruct (reachable_inv c0 cap s Hs) as [_ Ho Hh _ _ _ _ _ _ _ _].
  destruct Hh as (consumed & Hd & Hcs & _).
  assert (Hpre : consumed `prefix_of` taken s)
    by (rewrite Ho, Hd, <- app_assoc; by apply prefix_app_r).
  pose proof (prefix_length _ _ Hpre) as Hlen.
  destruct (run_appends (writer_ c0) (as_call <$> consumed)) as [oks w'] eqn:Hrun.
  destruct (feed_appends_after c0 consumed oks w' Hrun) as [Hw _].
  rewrite <- Hcs in Hw. fold w in Hw. subst w'.
  destruct (crash_outcome wire_ok fs script now path options read_options
    (as_call <$> consumed) cut oks w) as (n & k & bs & Hoks & Hfiles & Hn & Hr); try done.
  - destruct Hpre as [rest Hrest]. unfold session_ok in *. rewrite Hrest, fmap_app in Hok.
    by apply Forall_app in Hok as [? _].
  - unfold session_fits in *. rewrite length_fmap.
    unfold kRecordHeaderSize, kMaximumPayloadSize in *. lia.
  - rewrite length_fmap. lia.
  - exists consumed, n, k, bs. rewrite length_fmap in Hoks.
    split_and!; [done|done|by rewrite Hrun|done|done|]. destruct Hr as [Hr|(r & H1 & H2 & _ & H3)]; [by left|right].
    exists r. rewrite fmap_take. done.
Qed.

(** C2: After [shutdown] with no consumer failure, the recorder's last flush
    tells what the closed file is worth. The calls that returned [accepted],
    with those about to, are the events taken in, and the counters of sink and
    writer agree with it. If the flush succeeds, the recording is complete,
    whatever happens to the destructor's own flush: the closed file reads as a
    complete log whose records are exactly the events taken in, in the order of
    the queue, with their arrival times. If it fails, the closed file is too
    short for a header, or reads as a log, complete or truncated, of the first
    [k] events, at most [flush_every_records] short of all. *)
Theorem pipeline_records_every_event `{!EventCodec} (wire_ok : TelemetryEvent -> Prop)
    `{!EventCodecLaws _ wire_ok} fs script now path options read_options cap
    (s : sink_state LogWriterConsumer) :
  let c0 := LogWriterConsumer_new fs script now path options in
  let '(flushed, c) := LogWriterConsumer_flush (consumer_ s) in
  let closed := files_closed fs (writer_ c) in
  reachable c0 cap s -> shutter s = S_done -> consumer_failures_ s = 0 ->
  LogWriterConsumer_good c0 = true ->
  session_ok wire_ok (as_call <$> taken s) -> session_fits (taken s) ->
  0 <= flush_every_records options -> in_s64 (created_of now options) ->
  Zlength (taken s) <= maximum_records read_options -> retain_records read_options = true ->
  taken s ≡ₚ omap accepted_result (results s) ++ notifying (producers s) /\
  LogWriterConsumer_record_count c = Zlength (taken s) /\
  consumed_events_ s = u64 (Zlength (taken s)) /\
  if flushed then
    exists r, read_log (with_files fs closed) path read_options = Some r /\
      status r = Log_complete /\ created_unix_ns r = created_of now options /\
      file_size r = LogWriterConsumer_bytes_written c /\
      (fun r => (rec_event r, rec_collector_arrival_timestamp_ns r)) <$> records r =
        as_call <$> taken s
  else
    exists k bs, closed = <[path := bs]> (files fs) /\
      Zlength (taken s) - Z.of_nat k <= flush_every_records options /\
      ((length bs < 32)%nat /\ k = 0%nat \/
       exists r, read_log (with_files fs closed) path read_options = Some r /\
         (status r = Log_complete \/ status r = Log_truncated_tail) /\
         created_unix_ns r = created_of now options /\
         (fun r => (rec_event r, rec_collector_arrival_timestamp_ns r)) <$> records r =
           take k (as_call <$> taken s)).
Proof.
  intros c0. destruct (LogWriterConsumer_flush (consumer_ s)) as [flushed c] eqn:Hfl.
  intros closed Hs Hdone Hnf Hg0 Hok Hfit Hfe Hc Hmax Hret.
  destruct (drained_writer c0 cap s Hs Hdone Hnf Hg0) as (oks & Hrun & Hoks & Hg & Htk & Hcount).
  unfold LogWriterConsumer_flush in Hfl.
  destruct (flush (writer_ (consumer_ s))) as [ok w'] eqn:Hf. injection Hfl as <- <-.
  pose proof (flush_spec _ Hg) as Hfs. rewrite Hf in Hfs.
  destruct Hfs as (_ & _ & Hrc & Hbw & _).
  assert (Hfit' : session_fits (as_call <$> taken s)) by (unfold session_fits in *; by rewrite length_fmap).
  destruct (good_session_file wire_ok fs script now path options read_options
    (as_call <$> taken s) oks (writer_ (consumer_ s))) as
    (pairs & bs & Hrd & Hp & Hbs & Htrue & Hcnt & Hbytes & Hfiles & Hread);
    try done; [by rewrite length_fmap|].
  rewrite length_fmap in Hcnt, Htrue. unfold LogWriterConsumer_record_count, LogWriter_record_count.
  cbn [writer_] in *. split_and!; [done|congruence|done|]. destruct ok.
  - destruct (flushed_files fs _ _ 0 Hf) as [_ Hcl]. subst closed.
    rewrite (read_log_closed fs script now path options read_options bs);
      [|done|done|rewrite Hcl, Hfiles; apply lookup_insert_eq].
    eexists. split; [exact Hread|]. cbn [status created_unix_ns file_size records log_result].
    unfold LogWriterConsumer_bytes_written, LogWriter_bytes_written. cbn [writer_].
    by rewrite Hbw, Hbytes, Hret, stored_records_events, Hp.
  - destruct (unflushed_files fs _ _ Hg Hf) as (cut & Hcut). destruct (good_inv _ Hg) as (_ & Ho & _).
    destruct (crash_outcome wire_ok fs script now path options read_options
      (as_call <$> taken s) cut oks (writer_ (consumer_ s))) as (n & k & bs' & Hn & Hfs & Hk & Hr);
      try done; [by rewrite length_fmap|].
    rewrite length_fmap, Htrue in Hn. apply all_true_length in Hn as ->.
    exists k, bs'. subst closed. rewrite Hcut, Hfs. split_and!; [done|lia|].
    destruct Hr as [Hr|(r & H1 & H2 & H3 & H4)]; [by left|right]. exists r.
    rewrite (read_log_closed fs script now path options read_options bs');
      [done|done|done|apply lookup_insert_eq].
Qed.

Lemma pipeline_survives_crash_witness :
  let s := recorder_sink in
  let w := writer_ (consumer_ s) in
  exists consumed n k bs, delivered s = consumed ++ in_flight (worker s) /\
    consumed `prefix_of` taken s /\
    fst (@run_appends pipeline_codec (writer_ recorder) (as_call <$> consumed)) =
      replicate n true ++ replicate (length consumed - n) false /\
    files_after (fs_of ∅) w 80 = <["run.tflog" := bs]> ∅ /\
    Z.of_nat n - Z.of_nat k <= flush_every_records sample_options /\
    ((length bs < 32)%nat /\ k = 0%nat \/
     exists r, @read_log_from pipeline_codec (Some (Zlength bs)) (Some bs)
         LogReadOptions_default = Some r /\
       (status r = Log_complete \/ status r = Log_truncated_tail) /\
       (fun r => (rec_event r, rec_collector_arrival_timestamp_ns r)) <$> records r =
         as_call <$> take k consumed).
Proof.
  intros s w.
  apply (@pipeline_survives_crash pipeline_codec _ pipeline_codec_laws (fs_of ∅) [] 77
    "run.tflog" sample_options LogReadOptions_default 2 s 80).
  - exact recorder_sink_reachable.
  - exact recorder_session_ok.
  - vm_compute. reflexivity.
  - vm_compute; congruence.
  - solve_range.
  - vm_compute; congruence.
  - reflexivity.
  - vm_compute. reflexivity.
Defined.

Lemma pipeline_records_every_event_witness :
  let s := recorder_sink in
  let c := snd (LogWriterConsumer_flush (consumer_ s)) in
  let c' := snd (LogWriterConsumer_flush (consumer_ full_disk_sink)) in
  fst (LogWriterConsumer_flush (consumer_ s)) = true /\
  (Zlength (taken s) = 2 /\ LogWriterConsumer_record_count c = Zlength (taken s) /\
   exists r, @read_log pipeline_codec (with_files (fs_of ∅) (files_closed (fs_of ∅) (writer_ c)))
       "run.tflog" LogReadOptions_default = Some r /\
     status r = Log_complete /\ file_size r = LogWriterConsumer_bytes_written c /\
     (fun r => (rec_event r, rec_collector_arrival_timestamp_ns r)) <$> records r =
       as_call <$> taken s) /\
  fst (LogWriterConsumer_flush (consumer_ full_disk_sink)) = false /\
  exists k bs, files_closed (fs_of ∅) (writer_ c') = <["run.tflog" := bs]> ∅ /\
    Zlength (taken full_disk_sink) - Z.of_nat k <= 100.
Proof.
  intros s c c'. split; [vm_compute; reflexivity|]. split.
  - pose proof (@pipeline_records_every_event pipeline_codec _ pipeline_codec_laws
      (fs_of ∅) [] 77 "run.tflog" sample_options LogReadOptions_default 2 s) as H.
    subst c. assert (Hf : fst (LogWriterConsumer_flush (consumer_ s)) = true) by (vm_compute; reflexivity).
    destruct (LogWriterConsumer_flush (consumer_ s)) as [f c1]. cbn [fst snd] in *. subst f.
    destruct H as (_ & H1 & _ & r & H2 & H3 & _ & H4 & H5).
    + exact recorder_sink_reachable.
    + vm_compute. reflexivity.
    + vm_compute. reflexivity.
    + vm_compute. reflexivity.
    + exact recorder_session_ok.
    + vm_compute. reflexivity.
    + vm_compute; congruence.
    + solve_range.
    + vm_compute; congruence.
    + reflexivity.
    + split; [vm_compute; reflexivity|]. split; [exact H1|]. exists r. auto.
  - split; [vm_compute; reflexivity|].
    pose proof (@pipeline_records_every_event pipeline_codec _ pipeline_codec_laws
      (fs_of ∅) full_disk 77 "run.tflog" slow_flush_options LogReadOptions_default 2
      full_disk_sink) as H.
    subst c'. assert (Hf : fst (LogWriterConsumer_flush (consumer_ full_disk_sink)) = false)
      by (vm_compute; reflexivity).
    destruct (LogWriterConsumer_flush (consumer_ full_disk_sink)) as [f c1]. cbn [fst snd] in *.
    subst f. destruct H as (_ & _ & _ & k & bs & H1 & H2 & _).
    + exact full_disk_sink_reachable.
    + vm_compute. reflexivity.
    + vm_compute. reflexivity.
    + vm_compute. reflexivity.
    + replace (taken full_disk_sink) with (taken recorder_sink) by (vm_compute; reflexivity).
      exact recorder_session_ok.
    + vm_compute. reflexivity.
    + vm_compute; congruence.
    + solve_range.
    + vm_compute; congruence.
    + reflexivity.
    + by exists k, bs.
Defined.

(** C9: a writer never damages a file that exists: when the path exists, or its
    existence cannot be determined, every call fails and no file changes,
    whatever is appended and whenever the process stops. *)
Theorem existing_recording_untouched `{!EventCodec} fs script now path options l oks w cut :
  0 <= flush_every_records options -> fs_exists fs path <> Some false ->
  run_appends (LogWriter_new fs script now path options) l = (oks, w) ->
  oks = replicate (length l) false /\ good w = false /\ files_after fs w cut = files fs.
Proof.
  intros Hfe Hex Hrun.
  destruct (LogWriter_new_spec (fun _ _ _ => True) fs script now path options Hfe) as [_ Hnew].
  destruct (os_open (output_ (LogWriter_new fs script now path options))) eqn:Ho.
  { by destruct Hnew as (_ & _ & ? & _). }
  rewrite run_appends_stopped in Hrun by done. injection Hrun as <- <-.
  split_and!; [done|done|by apply files_after_unopened].
Qed.

Lemma existing_recording_untouched_witness :
  let fs := fs_of {["run.tflog" := [x01; x02]]} in
  let w := LogWriter_new fs [] 77 "run.tflog" sample_options in
  fst (@run_appends pipeline_codec w sample_calls) = [false; false] /\
  files_after fs (snd (@run_appends pipeline_codec w sample_calls)) 80 = files fs.
Proof.
  intros fs w.
  destruct (@existing_recording_untouched pipeline_codec fs [] 77 "run.tflog" sample_options
    sample_calls _ _ 80 ltac:(vm_compute; congruence) ltac:(vm_compute; congruence)
    (surjective_pairing _)) as (H1 & _ & H2).
  split; [exact H1|exact H2].
Defined.

(** C8: The round trip. Without faults, on a path that does not exist, a session
    of events the format takes succeeds call by call; the closed file has
    [bytes_written] bytes and reads back as a complete log of the very events
    and arrival times, record by record, with the creation time of the
    options. *)
Theorem fault_free_session_round_trips `{!EventCodec} (wire_ok : TelemetryEvent -> Prop)
    `{!EventCodecLaws _ wire_ok} fs now path options read_options l :
  session_ok wire_ok l -> session_fits l -> 0 < flush_every_records options ->
  in_s64 (created_of now options) -> Zlength l <= maximum_records read_options ->
  retain_records read_options = true ->
  fs_exists fs path = Some false -> open_error fs path = false ->
  Forall (fun p => is_Some (entry_of p.1 p.2)) l ->
  exists w r, run_appends (LogWriter_new fs [] now path options) l =
      (replicate (length l) true, w) /\
    record_count_ w = Zlength l /\
    read_log (with_files fs (files_closed fs w)) path read_options = Some r /\
    status r = Log_complete /\ created_unix_ns r = created_of now options /\
    file_size r = bytes_written_ w /\ valid_bytes r = bytes_written_ w /\
    (fun r => (rec_event r, rec_collector_arrival_timestamp_ns r)) <$> records r = l /\
    rec_record_index <$> records r = seqZ 0 (Zlength l).
Proof.
  intros Hl Hfit Hfe Hc Hmax Hret Hex Hop Hen.
  destruct (LogWriter_new_no_fault fs now path options) as [Hg0 Hs0]; [lia|done|done|].
  destruct (run_appends_no_fault l _ Hg0 Hs0 Hen) as (w & Hrun & Hg & Hsc).
  destruct (good_inv _ Hg) as (_ & Ho & _). pose proof (files_closed_no_fault fs w Ho Hsc) as Hcl.
  destruct (good_session_file wire_ok fs [] now path options read_options l (replicate (length l) true) w)
    as (pairs & bs & Hrd & Hp & Hbs & _ & Hcnt & Hbytes & Hfiles & Hread); try done; [lia|].
  exists w. rewrite (read_log_closed fs [] now path options read_options bs);
    [|lia|done|rewrite Hcl, Hfiles; apply lookup_insert_eq].
  eexists. split; [done|]. split; [done|]. split; [exact Hread|].
  cbn [status created_unix_ns file_size valid_bytes records log_result].
  rewrite Hbytes, Hret, stored_records_events, Hp, stored_records_indices.
  assert (Hpl : length pairs = length l) by (by rewrite <- Hp, length_fmap).
  rewrite Hpl, Hbs, log_image_length. split_and!; try done. unfold kFileHeaderSize. lia.
Qed.

Lemma fault_free_session_round_trips_witness :
  exists w r, @run_appends pipeline_codec
      (LogWriter_new (fs_of ∅) [] 77 "run.tflog" sample_options) sample_calls =
      ([true; true], w) /\
    record_count_ w = Zlength sample_calls /\
    @read_log pipeline_codec (with_files (fs_of ∅) (files_closed (fs_of ∅) w)) "run.tflog"
      LogReadOptions_default = Some r /\
    status r = Log_complete /\ created_unix_ns r = created_of 77 sample_options /\
    file_size r = bytes_written_ w /\ valid_bytes r = bytes_written_ w /\
    (fun r => (rec_event r, rec_collector_arrival_timestamp_ns r)) <$> records r = sample_calls /\
    rec_record_index <$> records r = seqZ 0 (Zlength sample_calls).
Proof.
  apply (@fault_free_session_round_trips pipeline_codec _ pipeline_codec_laws).
  - repeat constructor; solve_range.
  - vm_compute. reflexivity.
  - reflexivity.
  - solve_range.
  - vm_compute; congruence.
  - reflexivity.
  - reflexivity.
  - reflexivity.
  - apply (bool_decide_unpack _). vm_compute. exact I.
Defined.
