(* ===== verification/Fnv.v ===== *)
(** * Fnv: the 64-bit FNV-1a hash of [src/replay/replay.cpp] and
    [src/generator/workload_generator.cpp], and [format_hash] *)
From Stdlib Require Import ZArith Lia.
From Stdlib Require Import Strings.Ascii.
From Stdlib Require Import Strings.Byte.
From stdpp Require Import base gmap strings list.
From S2P Require Import Prelude Bytes Crc32c.
Import LittleEndian.
Local Open Scope Z_scope.

Definition kFnvOffsetBasis : Z := 14695981039346656037.
Definition kFnvPrime : Z := 1099511628211.

Definition hash_byte (hash : Z) (b : byte) : Z :=
  u64 (Z.lxor hash (byte_val b) * kFnvPrime).

(** The loop of [hash_little_endian], [n] bytes left. *)
Fixpoint hash_le_loop (n : nat) (hash remaining : Z) : Z :=
  match n with
  | O => hash
  | S n' => hash_le_loop n' (hash_byte hash (byte_of (Z.land remaining 0xFF)))
              (Z.shiftr remaining 8)
  end.

Definition hash_little_endian (size : nat) (hash value : Z) : Z :=
  hash_le_loop size hash (value mod 2 ^ (8 * Z.of_nat size)).

(** The bytes of a buffer, one after the other. *)
Definition hash_bytes (hash : Z) (bs : bytes) : Z := fold_left hash_byte bs hash.

(** ** [format_hash]: hexadecimal, at least 16 digits *)

Definition hex_digit (d : Z) : ascii :=
  if d <? 10 then ascii_of_nat (Z.to_nat (48 + d)) else ascii_of_nat (Z.to_nat (87 + d)).

(** [std::hex]: the digits without leading zeros, [fuel] at most. *)
Fixpoint hex_digits (fuel : nat) (z : Z) (acc : string) : string :=
  match fuel with
  | O => acc
  | S fuel' =>
      let acc := String (hex_digit (z mod 16)) acc in
      if z / 16 =? 0 then acc else hex_digits fuel' (z / 16) acc
  end.

(** [std::setfill('0') << std::setw(16)] *)
Fixpoint pad_left (n : nat) (s : string) : string :=
  match n with O => s | S n' => String (ascii_of_nat 48) (pad_left n' s) end.

Definition format_hash (hash : Z) : string :=
  let digits := hex_digits 16 hash "" in
  pad_left (16 - String.length digits) digits.

Example format_hash_basis : format_hash kFnvOffsetBasis = "cbf29ce484222325"%string.
Proof. vm_compute. reflexivity. Qed.
Example format_hash_small : format_hash 0x2a = "000000000000002a"%string.
Proof. vm_compute. reflexivity. Qed.

(** ** The hash of an integer is that of its bytes *)

Lemma hash_le_loop_spec n : forall h z,
  hash_le_loop n h z = hash_bytes h (le_split n z).
Proof.
  induction n as [|n IH]; intros h z; [done|]. cbn [hash_le_loop le_split].
  unfold hash_bytes. rewrite fold_left_cons, IH, byte_of_land, Z.shiftr_div_pow2 by lia.
  done.
Qed.

Lemma hash_little_endian_spec n h z :
  hash_little_endian n h z = hash_bytes h (le_split n z).
Proof. unfold hash_little_endian. by rewrite hash_le_loop_spec, le_split_mod. Qed.

Lemma hash_bytes_app h bs cs : hash_bytes h (bs ++ cs) = hash_bytes (hash_bytes h bs) cs.
Proof. apply fold_left_app. Qed.

(** ** Injectivity *)

Lemma hash_byte_range h b : in_u64 (hash_byte h b).
Proof. apply u64_range. Qed.

Lemma hash_bytes_range h bs : in_u64 h -> in_u64 (hash_bytes h bs).
Proof.
  revert h; induction bs as [|b bs IH]; intros h Hh; [done|].
  unfold hash_bytes. rewrite fold_left_cons. apply IH, hash_byte_range.
Qed.

(** The prime is odd, so its multiplication can be undone. *)
Definition fnv_inverse : Z := 14886173955864302971.

Lemma mul_prime_injective a b : in_u64 a -> in_u64 b ->
  u64 (a * kFnvPrime) = u64 (b * kFnvPrime) -> a = b.
Proof.
  intros Ha Hb H.
  assert (Hinv : forall x, in_u64 x -> u64 (u64 (x * kFnvPrime) * fnv_inverse) = x).
  { intros x Hx. unfold u64. rewrite Zmult_mod_idemp_l, <- Z.mul_assoc.
    rewrite <- Zmult_mod_idemp_r. change (kFnvPrime * fnv_inverse mod 2 ^ 64) with 1.
    rewrite Z.mul_1_r. by apply u64_small. }
  rewrite <- (Hinv a Ha), <- (Hinv b Hb). by rewrite H.
Qed.

Lemma lxor_byte_range h b : in_u64 h -> in_u64 (Z.lxor h (byte_val b)).
Proof.
  intros Hh. apply lxor_range; [lia|exact Hh|].
  pose proof (byte_val_range b). lia.
Qed.

Lemma hash_byte_injective h h' b b' : in_u64 h -> in_u64 h' ->
  hash_byte h b = hash_byte h' b' ->
  Z.lxor h (byte_val b) = Z.lxor h' (byte_val b').
Proof. intros Hh Hh'. apply mul_prime_injective; by apply lxor_byte_range. Qed.

Lemma hash_bytes_injective bs : forall h h', in_u64 h -> in_u64 h' ->
  hash_bytes h bs = hash_bytes h' bs -> h = h'.
Proof.
  induction bs as [|b bs IH]; intros h h' Hh Hh' H; [done|].
  unfold hash_bytes in H. rewrite !fold_left_cons in H.
  apply IH in H; [|apply hash_byte_range..].
  apply hash_byte_injective in H; [|done..]. by apply lxor_cancel_r in H.
Qed.

(** One changed byte changes the hash. *)
Lemma hash_one_byte h bs i b b' : in_u64 h -> bs !! i = Some b -> b' <> b ->
  hash_bytes h (<[i := b']> bs) <> hash_bytes h bs.
Proof.
  intros Hh Hi Hne H. pose proof (lookup_lt_Some _ _ _ Hi).
  rewrite insert_take_drop in H by done.
  rewrite <- (take_drop_middle bs i b Hi) in H at 3.
  rewrite !hash_bytes_app in H. set (p := hash_bytes h (take i bs)) in *.
  assert (Hp : in_u64 p) by (by apply hash_bytes_range).
  change (b' :: drop (S i) bs) with ([b'] ++ drop (S i) bs) in H.
  change (b :: drop (S i) bs) with ([b] ++ drop (S i) bs) in H.
  rewrite !hash_bytes_app in H.
  apply hash_bytes_injective in H; [|apply hash_byte_range..].
  unfold hash_bytes in H. cbn [fold_left] in H.
  apply hash_byte_injective in H; [|done..].
  apply lxor_cancel_l, byte_val_inj in H. congruence.
Qed.
