(* ===== verification/Replay.v ===== *)
(** * Replay: [ReplayEngine] of [src/replay/replay.cpp]

    The index sorted by arrival time, the binary search for the start of a
    window, the reading of payloads by skipping or seeking, and the replay
    loop with its hash and every refusal. The consumer is a state transformer;
    the pauses are kept as the list of timestamps and origins they are computed
    from ([Pacing]). *)
From Stdlib Require Import ZArith Lia.
From Stdlib Require Import Strings.Byte.
From stdpp Require Import base gmap strings list sorting.
From S2P Require Import Prelude Bytes Floats Telemetry Validation Streams Crc32c LogFormat.
From S2P Require Import LogReader Fnv.
Import LittleEndian.
Local Open Scope Z_scope.
Local Open Scope tf_scope.

Record ReplayOptions := {
  from_collector_timestamp_ns : option Z;
  until_collector_timestamp_ns : option Z;
  speed : double;
}.

Inductive ReplayStatus :=
  | Replay_complete | Replay_invalid_options | Replay_log_error | Replay_io_error
  | Replay_consumer_error.
#[export] Instance ReplayStatus_eq_dec : EqDecision ReplayStatus.
Proof. solve_decision. Defined.

Record ReplayResult := {
  rr_status : ReplayStatus;
  indexed_records : Z;
  replayed_records : Z;
  rr_hash : Z;
  first_timestamp_ns : option Z;
  last_timestamp_ns : option Z;
  rr_message : string;
}.

Definition ReplayResult_default : ReplayResult :=
  {| rr_status := Replay_log_error; indexed_records := 0; replayed_records := 0;
     rr_hash := 0; first_timestamp_ns := None; last_timestamp_ns := None;
     rr_message := "" |}.

Record ReplayEngine := {
  re_path : string;
  index_ : list LogIndexEntry;
  re_error : string;
}.

Abbreviation entry_ts := entry_collector_arrival_timestamp_ns.

(** The comparison of the constructor, strict as [std::sort] wants it, and the
    order it induces. *)
Definition entry_less (left_ right_ : LogIndexEntry) : bool :=
  return_if negb (entry_ts left_ =? entry_ts right_) with entry_ts left_ <? entry_ts right_ ;;
  record_index left_ <? record_index right_.

Definition entry_le (l r : LogIndexEntry) : Prop := entry_less r l = false.

#[export] Instance entry_le_dec : RelDecision entry_le.
Proof. intros l r. unfold entry_le. apply _. Defined.

(** [std::sort]: some sorted permutation; [sort_unique] below says the choice
    of the algorithm does not matter here. *)
Definition sort_index (l : list LogIndexEntry) : list LogIndexEntry := merge_sort entry_le l.

Definition engine_good (e : ReplayEngine) : bool := (re_error e =? "")%string.
Definition ReplayEngine_error (e : ReplayEngine) : string := re_error e.
Definition ReplayEngine_index (e : ReplayEngine) : list LogIndexEntry := index_ e.

(** [std::lower_bound]: the binary search over [count] entries from [first] on;
    the result is a position. *)
Fixpoint lower_bound_loop (fuel : nat) (l : list LogIndexEntry) (timestamp : Z)
    (first count : nat) : option nat :=
  match fuel with
  | O => None
  | S fuel' =>
      return_if (count =? 0)%nat with Some first ;;
      let step := (count / 2)%nat in
      match l !! (first + step)%nat with
      | None => None
      | Some entry =>
          return_if entry_ts entry <? timestamp with
            lower_bound_loop fuel' l timestamp (S (first + step)) (count - S step)%nat ;;
          lower_bound_loop fuel' l timestamp first step
      end
  end.

Definition lower_bound (l : list LogIndexEntry) (timestamp : Z) : option nat :=
  lower_bound_loop (S (length l)) l timestamp 0 (length l).

(** [read_payload]: whether the whole payload was read, the payload, the stream. *)
Definition read_payload (input : ifstream) (entry : LogIndexEntry)
    (sequential_record : bool) : bool * bytes * ifstream :=
  let input := is_clear input in
  let input :=
    if sequential_record then is_ignore input kRecordHeaderSize
    else is_seekg input (s64 (u64 (file_offset entry + kRecordHeaderSize))) in
  return_if is_fail input with (false, [], input) ;;
  let '(payload, input) := is_read input (payload_size entry) in
  (is_gcount input =? payload_size entry, payload, input).

Section engine.
Context `{!EventCodec} {C : Type}.

Definition ReplayEngine_new (fs : filesystem) (path : string) (maximum : Z)
    : option ReplayEngine :=
  match read_log fs path {| maximum_records := maximum; retain_records := false |} with
  | None => None
  | Some log =>
      return_if negb (bool_decide (status log = Log_complete)) with
        Some {| re_path := path; index_ := [];
                re_error := "cannot index telemetry log: " ++ message log |} ;;
      Some {| re_path := path; index_ := sort_index (index log); re_error := "" |}
  end.

(** The consumer: absent, or a function of its state and the record. *)
Abbreviation Consumer := (option (C -> LogRecord -> bool * C)).

Definition call_consumer (consumer : Consumer) (c : C) (record : LogRecord) : bool * C :=
  match consumer with None => (true, c) | Some f => f c record end.

Definition with_status (r : ReplayResult) (st : ReplayStatus) (msg : string) : ReplayResult :=
  {| rr_status := st; indexed_records := indexed_records r;
     replayed_records := replayed_records r; rr_hash := rr_hash r;
     first_timestamp_ns := first_timestamp_ns r; last_timestamp_ns := last_timestamp_ns r;
     rr_message := msg |}.

(** The hash after one record. *)
Definition hash_record (hash : Z) (record : LogRecord) (payload : bytes) : Z :=
  let hash := hash_little_endian 8 hash (rec_record_index record) in
  let hash := hash_little_endian 8 hash (rec_collector_arrival_timestamp_ns record) in
  let hash := hash_little_endian 4 hash (u32 (Zlength payload)) in
  hash_bytes hash payload.

(** What the loop carries. *)
Record ReplayState := {
  rs_input : ifstream;
  rs_result : ReplayResult;
  replay_origin_ns : option Z;
  next_physical_offset : option Z;
  rs_consumer : C;
  rs_sleeps : list (Z * Z);   (* for each pause, the timestamp and the origin *)
}.

(** The part of a pass that checks what was read; the record or the message. *)
Definition check_record (entry : LogIndexEntry) (payload : bytes) : string + LogRecord :=
  return_if negb (crc32c payload =? payload_crc32c entry) with
    inl "record payload changed after index construction"%string ;;
  match ParseFromArray payload with
  | Some ev =>
      return_if negb (schema_version ev =? kTelemetrySchemaVersion)
          || negb (source_timestamp_ns ev =? entry_source_timestamp_ns entry) with
        inl "indexed telemetry payload is no longer valid"%string ;;
      inr {| rec_record_index := record_index entry; rec_file_offset := file_offset entry;
             rec_collector_arrival_timestamp_ns := entry_ts entry; rec_event := ev |}
  | None => inl "indexed telemetry payload is no longer valid"%string
  end.

(** The loop over the entries from [current] on. *)
Fixpoint replay_loop (options : ReplayOptions) (consumer : Consumer)
    (entries : list LogIndexEntry) (s : ReplayState) : ReplayState :=
  let finish st msg s :=
    {| rs_input := rs_input s; rs_result := with_status (rs_result s) st msg;
       replay_origin_ns := replay_origin_ns s;
       next_physical_offset := next_physical_offset s; rs_consumer := rs_consumer s;
       rs_sleeps := rs_sleeps s |} in
  match entries with
  | [] => finish Replay_complete "replay completed"%string s
  | current :: entries' =>
      let timestamp := entry_ts current in
      return_if match until_collector_timestamp_ns options with
                | Some until => until <=? timestamp | None => false end with
        finish Replay_complete "replay completed"%string s ;;
      let sequential_record :=
        match next_physical_offset s with
        | Some next => next =? file_offset current | None => false end in
      let '(ok, payload, input) := read_payload (rs_input s) current sequential_record in
      let next := u64 (file_offset current + kRecordHeaderSize + payload_size current) in
      let s := {| rs_input := input; rs_result := rs_result s;
                  replay_origin_ns := replay_origin_ns s;
                  next_physical_offset := if ok then Some next else next_physical_offset s;
                  rs_consumer := rs_consumer s; rs_sleeps := rs_sleeps s |} in
      return_if negb ok with
        finish Replay_io_error "failed to read indexed record payload"%string s ;;
      match check_record current payload with
      | inl msg => finish Replay_log_error msg s
      | inr record =>
          let origin := if dgt (speed options) (double_of_Z 0)
                        then Some (default timestamp (replay_origin_ns s))
                        else replay_origin_ns s in
          let sleeps := if dgt (speed options) (double_of_Z 0)
                        then rs_sleeps s ++ [(timestamp, default timestamp (replay_origin_ns s))]
                        else rs_sleeps s in
          let r := rs_result s in
          let hashed :=
            {| rr_status := rr_status r; indexed_records := indexed_records r;
               replayed_records := replayed_records r;
               rr_hash := hash_record (rr_hash r) record payload;
               first_timestamp_ns := first_timestamp_ns r;
               last_timestamp_ns := last_timestamp_ns r; rr_message := rr_message r |} in
          let '(taken, c) := call_consumer consumer (rs_consumer s) record in
          let s r := {| rs_input := rs_input s; rs_result := r; replay_origin_ns := origin;
                        next_physical_offset := next_physical_offset s;
                        rs_consumer := c; rs_sleeps := sleeps |} in
          return_if negb taken with
            finish Replay_consumer_error "replay consumer rejected a record"%string (s hashed) ;;
          replay_loop options consumer entries'
            (s {| rr_status := rr_status r; indexed_records := indexed_records r;
                  replayed_records := u64 (replayed_records r + 1);
                  rr_hash := rr_hash hashed;
                  first_timestamp_ns := match first_timestamp_ns r with
                                        | None => Some timestamp | Some t => Some t end;
                  last_timestamp_ns := Some timestamp; rr_message := rr_message r |})
      end
  end.

(** [ReplayEngine::replay]; [opened] is what the file delivers now, and [None]
    of the search, which does not happen, is read as the beginning. *)
Definition replay (e : ReplayEngine) (opened : option bytes) (options : ReplayOptions)
    (consumer : Consumer) (c : C) : ReplayResult * C * list (Z * Z) :=
  let result :=
    {| rr_status := rr_status ReplayResult_default;
       indexed_records := u64 (Zlength (index_ e)); replayed_records := 0;
       rr_hash := kFnvOffsetBasis; first_timestamp_ns := None;
       last_timestamp_ns := None; rr_message := "" |} in
  return_if negb (engine_good e) with
    (with_status result Replay_log_error (re_error e), c, []) ;;
  return_if negb (isfinite (speed options)) || dlt (speed options) (double_of_Z 0) with
    (with_status result Replay_invalid_options
       "replay speed must be finite and non-negative"%string, c, []) ;;
  return_if match from_collector_timestamp_ns options, until_collector_timestamp_ns options with
            | Some from, Some until => until <=? from | _, _ => false end with
    (with_status result Replay_invalid_options
       "until timestamp must be greater than from timestamp"%string, c, []) ;;
  let current :=
    match from_collector_timestamp_ns options with
    | None => 0%nat
    | Some from => default 0%nat (lower_bound (index_ e) from)
    end in
  match opened with
  | None =>
      (with_status result Replay_io_error "failed to open indexed telemetry log"%string, c, [])
  | Some data =>
      let s := replay_loop options consumer (drop current (index_ e))
        {| rs_input := ifstream_open data; rs_result := result; replay_origin_ns := None;
           next_physical_offset := None; rs_consumer := c; rs_sleeps := [] |} in
      (rs_result s, rs_consumer s, rs_sleeps s)
  end.
End engine.

Definition replay_status_name (st : ReplayStatus) : string :=
  match st with
  | Replay_complete => "complete"
  | Replay_invalid_options => "invalid_options"
  | Replay_log_error => "log_error"
  | Replay_io_error => "io_error"
  | Replay_consumer_error => "consumer_error"
  end.

(** ** The order of the index *)

Lemma entry_le_spec l r : entry_le l r <->
  entry_ts l < entry_ts r \/
  entry_ts l = entry_ts r /\ record_index l <= record_index r.
Proof.
  unfold entry_le, entry_less. destruct (Z.eqb_spec (entry_ts r) (entry_ts l)); cbn [negb].
  - rewrite Z.ltb_ge. lia.
  - rewrite Z.ltb_ge. lia.
Qed.

#[export] Instance entry_le_trans : Transitive entry_le.
Proof. intros a b c. rewrite !entry_le_spec. lia. Qed.

#[export] Instance entry_le_total : Total entry_le.
Proof. intros a b. rewrite !entry_le_spec. lia. Qed.

Lemma sort_index_permutation l : sort_index l ≡ₚ l.
Proof. apply merge_sort_Permutation. Qed.

Lemma sort_index_sorted l : StronglySorted entry_le (sort_index l).
Proof. apply StronglySorted_merge_sort; apply _. Qed.

(** With distinct record numbers any sorting algorithm gives this list. *)
Lemma sort_unique l l' : NoDup (record_index <$> l) ->
  l' ≡ₚ l -> StronglySorted entry_le l' -> l' = sort_index l.
Proof.
  intros Hnd Hp Hs. eapply StronglySorted_unique_strong;
    [|exact Hs|apply sort_index_sorted|by rewrite sort_index_permutation].
  intros a b Ha Hb. rewrite !entry_le_spec. intros Hab Hba.
  rewrite Hp in Ha. rewrite sort_index_permutation in Hb.
  apply list_elem_of_lookup_1 in Ha as [i Hi], Hb as [j Hj].
  assert (i = j) as ->.
  { eapply (NoDup_lookup (record_index <$> l)); [done| |];
      rewrite list_lookup_fmap, ?Hi, ?Hj; cbn; [done|]. f_equal. lia. }
  congruence.
Qed.

(** ** The binary search *)

Lemma sorted_lookup l i j a b : StronglySorted entry_le l ->
  l !! i = Some a -> l !! j = Some b -> (i <= j)%nat -> entry_ts a <= entry_ts b.
Proof.
  intros Hs. revert i j. induction Hs as [|x l Hs IH Hx]; intros i j Ha Hb Hij; [done|].
  destruct i as [|i], j as [|j]; cbn in Ha, Hb.
  - injection Ha as ->. injection Hb as ->. lia.
  - injection Ha as ->. rewrite Forall_lookup in Hx.
    specialize (Hx _ _ Hb). rewrite entry_le_spec in Hx. lia.
  - lia.
  - eapply IH; [done|done|lia].
Qed.

(** A position that separates the earlier entries from the others. *)
Definition separates (l : list LogIndexEntry) (t : Z) (k : nat) : Prop :=
  (k <= length l)%nat /\
  (forall i e, l !! i = Some e -> (i < k)%nat -> entry_ts e < t) /\
  (forall i e, l !! i = Some e -> (k <= i)%nat -> t <= entry_ts e).

Lemma lower_bound_loop_spec l t fuel : forall first count,
  StronglySorted entry_le l -> (count < fuel)%nat -> (first + count <= length l)%nat ->
  (forall i e, l !! i = Some e -> (i < first)%nat -> entry_ts e < t) ->
  (forall i e, l !! i = Some e -> (first + count <= i)%nat -> t <= entry_ts e) ->
  exists k, lower_bound_loop fuel l t first count = Some k /\ separates l t k.
Proof.
  induction fuel as [|fuel IH]; intros first count Hs Hf Hle Hlo Hhi; [lia|].
  cbn [lower_bound_loop]. destruct (Nat.eqb_spec count 0) as [->|Hne].
  { exists first. split; [done|]. split; [lia|]. split; [done|].
    intros i e He Hi. apply (Hhi i e He). lia. }
  assert (Hhalf : (count / 2 < count)%nat) by (apply Nat.div_lt; lia).
  destruct (lookup_lt_is_Some_2 l (first + count / 2)%nat) as [m Hm]; [lia|].
  rewrite Hm. destruct (Z.ltb_spec (entry_ts m) t).
  - apply IH; [done|lia|lia| |].
    + intros i e He Hi. assert (entry_ts e <= entry_ts m); [|lia].
      eapply sorted_lookup; [done..|lia].
    + intros i e He Hi. apply (Hhi i e He). lia.
  - apply IH; [done|lia|lia|done|].
    intros i e He Hi. assert (entry_ts m <= entry_ts e); [|lia].
    eapply sorted_lookup; [done..|lia].
Qed.

Lemma lower_bound_spec l t : StronglySorted entry_le l ->
  exists k, lower_bound l t = Some k /\ separates l t k.
Proof.
  intros Hs. apply lower_bound_loop_spec; [done|lia|lia| |].
  - lia.
  - intros i e He Hi. pose proof (lookup_lt_Some _ _ _ He). lia.
Qed.

Lemma StronglySorted_drop {A} (R : relation A) (l : list A) n :
  StronglySorted R l -> StronglySorted R (drop n l).
Proof. rewrite <- (take_drop n l) at 1. apply StronglySorted_app_1_r. Qed.

(** ** Windows *)

Definition from_ok (options : ReplayOptions) (e : LogIndexEntry) : Prop :=
  match from_collector_timestamp_ns options with
  | None => True | Some t => t <= entry_ts e end.
Definition until_ok (options : ReplayOptions) (e : LogIndexEntry) : Prop :=
  match until_collector_timestamp_ns options with
  | None => True | Some t => entry_ts e < t end.
Definition in_window (options : ReplayOptions) (e : LogIndexEntry) : Prop :=
  from_ok options e /\ until_ok options e.

#[export] Instance in_window_dec options e : Decision (in_window options e).
Proof. unfold in_window, from_ok, until_ok. repeat case_match; apply _. Defined.
#[export] Instance from_ok_dec options e : Decision (from_ok options e).
Proof. unfold from_ok. case_match; apply _. Defined.
#[export] Instance until_ok_dec options e : Decision (until_ok options e).
Proof. unfold until_ok. case_match; apply _. Defined.

(** Dropping to the separating position keeps the entries from [t] on. *)
Lemma drop_separates options (l : list LogIndexEntry) t k :
  from_collector_timestamp_ns options = Some t -> separates l t k ->
  drop k l = filter (from_ok options) l.
Proof.
  intros Ht (Hk & Hlo & Hhi). symmetry. apply filter_drop.
  - intros i e He Hi. specialize (Hlo i e He Hi). unfold from_ok. rewrite Ht. lia.
  - intros i e He Hi. unfold from_ok. rewrite Ht. by apply (Hhi i e).
Qed.

Lemma filter_window options (l : list LogIndexEntry) :
  filter (until_ok options) (filter (from_ok options) l) = filter (in_window options) l.
Proof.
  rewrite list_filter_filter. apply filter_ext_elem. unfold in_window. tauto.
Qed.

(** The entries behind one that has reached the limit have reached it too. *)
Lemma filter_until_stop options (l : list LogIndexEntry) :
  StronglySorted entry_le l ->
  match l with e :: _ => ~ until_ok options e | [] => True end ->
  filter (until_ok options) l = [].
Proof.
  intros Hs. destruct Hs as [|e l Hs He]; [done|]. intros Hn.
  rewrite filter_cons_False by done.
  induction He as [|e' l He' He IH]; [done|]. rewrite filter_cons_False.
  - apply IH. by inversion Hs.
  - rewrite entry_le_spec in He'. unfold until_ok in Hn |- *.
    destruct (until_collector_timestamp_ns options); [lia|done].
Qed.

(** ** Reading payloads *)

(** Entry [ent] describes a record of [data] with payload [p] and event [ev]. *)
Record entry_in `{!EventCodec} (data : bytes) (ent : LogIndexEntry) (p : bytes)
    (ev : TelemetryEvent) : Prop := {
  ei_offset : 0 <= file_offset ent;
  ei_size : payload_size ent = Zlength p;
  ei_bytes : exists header rest, Zlength header = file_offset ent + kRecordHeaderSize /\
    data = header ++ p ++ rest;
  ei_crc : payload_crc32c ent = crc32c p;
  ei_parse : ParseFromArray p = Some ev;
  ei_schema : schema_version ev = kTelemetrySchemaVersion;
  ei_source : source_timestamp_ns ev = entry_source_timestamp_ns ent;
}.

(** Where the stream stands: behind the last payload, if one was read. *)
Definition stream_at (data : bytes) (next : option Z) (s : ifstream) : Prop :=
  match next with
  | Some n => at_pos data n s
  | None => is_data s = data
  end.

Lemma is_clear_at data pos s : at_pos data pos s -> at_pos data pos (is_clear s).
Proof. by intros (? & ? & _ & _). Qed.

Lemma is_ignore_at data pos s n : at_pos data pos s -> 0 <= pos -> 0 <= n ->
  pos + n <= Zlength data -> at_pos data (pos + n) (is_ignore s n).
Proof.
  intros Hs Hp Hn Hle. unfold is_ignore. rewrite (at_pos_good _ _ _ Hs). cbn [negb].
  destruct Hs as (Hd & Hpos & _ & _). unfold is_rest. rewrite Hd, Hpos.
  set (got := take _ _).
  assert (Hlen : Zlength got = n)
    by (subst got; rewrite length_take, length_drop; lia).
  repeat split; cbn; rewrite ?Hlen; lia.
Qed.

Section reading.
Context `{!EventCodec}.

(** Skipping over the header and seeking behind it read the same payload. *)
Lemma read_payload_spec data ent p ev next s (sequential : bool) :
  entry_in data ent p ev -> Zlength data < 2 ^ 63 -> stream_at data next s ->
  (sequential = true -> next = Some (file_offset ent)) ->
  exists s', read_payload s ent sequential = (true, p, s') /\
    at_pos data (file_offset ent + kRecordHeaderSize + payload_size ent) s'.
Proof.
  intros [Ho Hsz (hd & rest & Hh & Hd) _ _ _ _] Hlen Hs Hseq.
  assert (Hdl : Zlength data = Zlength hd + Zlength p + Zlength rest)
    by (rewrite Hd, !length_app; lia).
  unfold read_payload, kRecordHeaderSize in *.
  assert (Hpos : 0 <= file_offset ent + 36) by lia.
  set (pos := file_offset ent + 36) in *.
  set (s1 := if sequential then _ else _).
  assert (Hs1 : at_pos data pos s1).
  { unfold s1. destruct sequential.
    - rewrite (Hseq eq_refl) in Hs. unfold pos in *.
      apply is_ignore_at; [by apply is_clear_at|lia..].
    - rewrite s64_u64 by (unfold in_s64; lia). unfold is_seekg, is_clear.
      cbn [is_failbit is_data is_pos]. destruct (Z.ltb_spec pos 0); [lia|].
      assert (is_data s = data) as -> by (destruct next; [by destruct Hs|done]).
      by repeat split. }
  destruct Hs1 as (H1 & H2 & H3 & H4). unfold is_fail. rewrite H4.
  destruct (is_read_within data pos s1 (payload_size ent)) as (Hg & Hc & Ha); [done|lia..|].
  destruct (is_read s1 (payload_size ent)) as [got s2]. cbn [fst snd] in *.
  exists s2. rewrite Hc, Z.eqb_refl, Hg. split; [|done]. do 2 f_equal.
  rewrite Hd, drop_app_len by lia. apply take_app_len. lia.
Qed.

Lemma check_record_ok data ent p ev : entry_in data ent p ev ->
  check_record ent p = inr
    {| rec_record_index := record_index ent; rec_file_offset := file_offset ent;
       rec_collector_arrival_timestamp_ns := entry_ts ent; rec_event := ev |}.
Proof.
  intros [_ _ _ Hc Hp Hs Ht]. unfold check_record.
  by rewrite Hc, Z.eqb_refl, Hp, Hs, Ht, !Z.eqb_refl.
Qed.
End reading.

(** ** What a replay should do *)

Section deliver.
Context `{!EventCodec} {C : Type}.
Implicit Types consumer : option (C -> LogRecord -> bool * C).

(** The hash and the counters after one record. *)
Definition after_hash (r : ReplayResult) (record : LogRecord) (p : bytes) : ReplayResult :=
  {| rr_status := rr_status r; indexed_records := indexed_records r;
     replayed_records := replayed_records r;
     rr_hash := hash_record (rr_hash r) record p;
     first_timestamp_ns := first_timestamp_ns r;
     last_timestamp_ns := last_timestamp_ns r; rr_message := rr_message r |}.

Definition after_record (r : ReplayResult) (record : LogRecord) (p : bytes) : ReplayResult :=
  let t := rec_collector_arrival_timestamp_ns record in
  {| rr_status := rr_status r; indexed_records := indexed_records r;
     replayed_records := u64 (replayed_records r + 1);
     rr_hash := hash_record (rr_hash r) record p;
     first_timestamp_ns := Some (default t (first_timestamp_ns r));
     last_timestamp_ns := Some t; rr_message := rr_message r |}.

(** The specification: the selected records, with their payloads, are handed
    out one by one until the consumer refuses one. No file, no order of
    reading, no pauses. *)
Fixpoint deliver consumer (sel : list (LogRecord * bytes)) (r : ReplayResult) (c : C)
    : ReplayResult * C :=
  match sel with
  | [] => (with_status r Replay_complete "replay completed", c)
  | (record, p) :: sel' =>
      let '(taken, c') := call_consumer consumer c record in
      if taken then deliver consumer sel' (after_record r record p) c'
      else (with_status (after_hash r record p) Replay_consumer_error
              "replay consumer rejected a record", c')
  end.

(** The pauses of a paced replay: one in front of every record handed out, each
    counted from the first. *)
Fixpoint pauses (paced : bool) consumer (sel : list (LogRecord * bytes)) (origin : option Z)
    (c : C) : list (Z * Z) :=
  match sel with
  | [] => []
  | (record, p) :: sel' =>
      let t := rec_collector_arrival_timestamp_ns record in
      let '(taken, c') := call_consumer consumer c record in
      (if paced then [(t, default t origin)] else []) ++
      (if taken
       then pauses paced consumer sel' (if paced then Some (default t origin) else origin) c'
       else [])
  end.

(** The record and payload an index entry stands for, given a lookup. *)
Definition selection (look : LogIndexEntry -> bytes * TelemetryEvent)
    (ent : LogIndexEntry) : LogRecord * bytes :=
  ({| rec_record_index := record_index ent; rec_file_offset := file_offset ent;
      rec_collector_arrival_timestamp_ns := entry_ts ent; rec_event := snd (look ent) |},
   fst (look ent)).

(** The loop does what the specification says, whatever the speed. *)
Lemma replay_loop_spec options consumer data look entries : forall s,
  StronglySorted entry_le entries ->
  Forall (fun ent => entry_in data ent (fst (look ent)) (snd (look ent))) entries ->
  Zlength data < 2 ^ 63 -> stream_at data (next_physical_offset s) (rs_input s) ->
  let s' := replay_loop options consumer entries s in
  let sel := selection look <$> filter (until_ok options) entries in
  (rs_result s', rs_consumer s') = deliver consumer sel (rs_result s) (rs_consumer s) /\
  rs_sleeps s' = rs_sleeps s ++
    pauses (dgt (speed options) (double_of_Z 0)) consumer sel (replay_origin_ns s) (rs_consumer s).
Proof.
  induction entries as [|ent entries IH]; intros s Hsort Hin Hlen Hat; cbv zeta.
  { split; [done|]. cbn. by rewrite app_nil_r. }
  apply Forall_cons in Hin as [He Hin].
  destruct (decide (until_ok options ent)) as [Hu|Hu].
  2: { rewrite filter_until_stop by done. cbn [replay_loop].
       unfold until_ok in Hu. destruct (until_collector_timestamp_ns options) as [u|]; [|done].
       destruct (Z.leb_spec u (entry_ts ent)); [|lia].
       split; [done|]. cbn. by rewrite app_nil_r. }
  rewrite filter_cons_True by done. cbn [fmap list_fmap deliver pauses selection].
  cbn [replay_loop].
  replace (match until_collector_timestamp_ns options with
           | Some until => until <=? entry_ts ent | None => false end) with false.
  2: { unfold until_ok in Hu. destruct (until_collector_timestamp_ns options) as [u|]; [|done].
       symmetry. apply Z.leb_gt. lia. }
  set (seq := match next_physical_offset s with Some _ => _ | None => _ end).
  destruct (read_payload_spec data ent _ _ _ _ seq He Hlen Hat) as (input & Hr & Hat').
  { unfold seq. destruct (next_physical_offset s) as [n|]; [|done].
    intros ->%Z.eqb_eq. done. }
  rewrite Hr. cbn [negb]. rewrite (check_record_ok _ _ _ _ He).
  cbn [rs_result rs_consumer rec_collector_arrival_timestamp_ns].
  set (paced := dgt (speed options) (double_of_Z 0)) in *.
  set (t := entry_ts ent) in *.
  assert (Hsl : (if paced then rs_sleeps s ++ [(t, default t (replay_origin_ns s))] else rs_sleeps s) =
    rs_sleeps s ++ if paced then [(t, default t (replay_origin_ns s))] else [])
    by (destruct paced; by rewrite ?app_nil_r).
  destruct (call_consumer consumer (rs_consumer s) _) as [[] c']; cbn [negb].
  2: { split; [done|]. cbn [rs_sleeps]. rewrite app_nil_r. exact Hsl. }
  assert (Hnext : u64 (file_offset ent + kRecordHeaderSize + payload_size ent) =
    file_offset ent + kRecordHeaderSize + payload_size ent).
  { destruct He as [Ho Hsz (hd & rest & Hh & Hd) _ _ _ _]. apply u64_small.
    rewrite Hd, !length_app in Hlen. unfold in_u64, kRecordHeaderSize in *. lia. }
  match goal with |- context [replay_loop options consumer entries ?st] =>
    destruct (IH st) as [H1 H2]; [by inversion Hsort|done|done| |] end.
  { cbn [next_physical_offset rs_input]. rewrite Hnext. exact Hat'. }
  split.
  - rewrite H1. cbn [rs_result rs_consumer]. f_equal. unfold after_record. cbn.
    f_equal. by destruct (first_timestamp_ns (rs_result s)).
  - rewrite H2. cbn [rs_sleeps replay_origin_ns rs_consumer]. by rewrite Hsl, <- app_assoc.
Qed.
End deliver.

(** ** The engine of an intact log *)

Section intact.
Context `{!EventCodec}.
Implicit Types l : list (Entry * TelemetryEvent).

Lemma stored_index_lookup l : forall i off k, stored_index i off l !! k =
  (fun p => index_entry (i + Z.of_nat k)
     (off + Zlength (records_image i (take k l.*1))) p.1 p.2) <$> l !! k.
Proof.
  induction l as [|[e ev] l IH]; intros i off k; [done|].
  destruct k as [|k]; cbn [stored_index fmap list_fmap fst].
  - change ((index_entry i off e ev :: stored_index (i + 1)
      (off + Zlength (record_image i e)) l) !! 0%nat) with (Some (index_entry i off e ev)).
    change (((e, ev) :: l) !! 0%nat) with (Some (e, ev)). cbn [fmap option_fmap option_map].
    cbn [take firstn records_image length]. by rewrite !Z.add_0_r.
  - change ((index_entry i off e ev :: stored_index (i + 1)
      (off + Zlength (record_image i e)) l) !! S k)
      with (stored_index (i + 1) (off + Zlength (record_image i e)) l !! k).
    change (((e, ev) :: l) !! S k) with (l !! k). rewrite IH.
    cbn [take firstn records_image]. rewrite length_app, Nat2Z.inj_add, Z.add_assoc.
    by replace (i + 1 + Z.of_nat k) with (i + Z.of_nat (S k)) by lia.
Qed.

(** The payload and event an entry of the index stands for. *)
Definition lookup_record l (ent : LogIndexEntry) : bytes * TelemetryEvent :=
  match l !! Z.to_nat (record_index ent) with
  | Some (e, ev) => (body e, ev)
  | None => ([], TelemetryEvent_default)
  end.

Lemma stored_entry_in hdr l ent : header_ok hdr -> readables l ->
  ent ∈ stored_index 0 kFileHeaderSize l ->
  entry_in (hdr ++ records_image 0 l.*1) ent (fst (lookup_record l ent))
    (snd (lookup_record l ent)).
Proof.
  intros Hho Hrd [k Hk]%list_elem_of_lookup_1. rewrite stored_index_lookup in Hk.
  destruct (l !! k) as [[e ev]|] eqn:Hl; [|done]. cbn in Hk. injection Hk as <-.
  rewrite Z.add_0_l. unfold lookup_record. cbn [record_index index_entry].
  rewrite Nat2Z.id, Hl. cbn [fst snd].
  assert (Hr : readable e ev) by (exact (Forall_lookup_1 _ _ _ _ Hrd Hl)).
  assert (Hle : l.*1 !! k = Some e) by (by rewrite list_lookup_fmap, Hl).
  pose proof (lookup_lt_Some _ _ _ Hle) as Hlt.
  constructor; cbn [file_offset payload_size payload_crc32c entry_source_timestamp_ns index_entry];
    [unfold kFileHeaderSize; lia|done| |done|apply Hr|apply Hr|done].
  exists (hdr ++ records_image 0 (take k l.*1) ++ build_record_header (Z.of_nat k) (arrival e) (body e)),
    (records_image (Z.of_nat k + 1) (drop (S k) l.*1)).
  split.
  - rewrite !length_app, record_header_length, (ho_length _ Hho).
    unfold kFileHeaderSize, kRecordHeaderSize. lia.
  - rewrite <- (take_drop_middle l.*1 k e Hle) at 1.
    rewrite records_image_app. cbn [records_image]. unfold record_image.
    rewrite length_take, Nat.min_l, Z.add_0_l by lia. by rewrite <- !app_assoc.
Qed.

Lemma stored_index_numbers l off :
  record_index <$> stored_index 0 off l = seqZ 0 (Zlength l).
Proof.
  assert (Hgen : forall i, record_index <$> stored_index i off l = seqZ i (Zlength l));
    [|apply Hgen].
  intros i. revert i off. induction l as [|[e ev] l IH]; intros i off; [done|].
  cbn [stored_index fmap list_fmap index_entry record_index length].
  rewrite seqZ_cons by lia. f_equal. rewrite IH. f_equal; lia.
Qed.

(** Options the engine takes. *)
Record options_ok (options : ReplayOptions) : Prop := {
  oo_finite : isfinite (speed options) = true;
  oo_positive : dlt (speed options) (double_of_Z 0) = false;
  oo_window : match from_collector_timestamp_ns options, until_collector_timestamp_ns options with
              | Some from, Some until => from < until | _, _ => True end;
}.

(** The result the loop starts from. *)
Definition initial_result (e : ReplayEngine) : ReplayResult :=
  {| rr_status := Replay_log_error; indexed_records := u64 (Zlength (index_ e));
     replayed_records := 0; rr_hash := kFnvOffsetBasis; first_timestamp_ns := None;
     last_timestamp_ns := None; rr_message := "" |}.

(** A replay that starts runs the loop over the entries of its window. *)
Lemma replay_runs {C} e opened options (consumer : option (C -> LogRecord -> bool * C)) c :
  engine_good e = true -> StronglySorted entry_le (index_ e) -> options_ok options ->
  replay e opened options consumer c =
    match opened with
    | None => (with_status (initial_result e) Replay_io_error
                 "failed to open indexed telemetry log", c, [])
    | Some data =>
        let s := replay_loop options consumer (filter (from_ok options) (index_ e))
          {| rs_input := ifstream_open data; rs_result := initial_result e;
             replay_origin_ns := None; next_physical_offset := None; rs_consumer := c;
             rs_sleeps := [] |} in
        (rs_result s, rs_consumer s, rs_sleeps s)
    end.
Proof.
  intros Hg Hsort [Hf Hp Hw]. unfold replay. rewrite Hg, Hf, Hp. cbn [negb orb].
  replace (match from_collector_timestamp_ns options with
           | Some from => match until_collector_timestamp_ns options with
                          | Some until => until <=? from | None => false end
           | None => false end) with false.
  2: { destruct (from_collector_timestamp_ns options), (until_collector_timestamp_ns options);
         try done. symmetry. apply Z.leb_gt. lia. }
  cbv zeta. destruct opened as [data|]; [|done].
  set (k := match from_collector_timestamp_ns options with
            | Some from => default 0%nat (lower_bound (index_ e) from) | None => 0%nat end).
  replace (drop k (index_ e)) with (filter (from_ok options) (index_ e)); [done|].
  unfold k. destruct (from_collector_timestamp_ns options) as [t|] eqn:Ht.
  - destruct (lower_bound_spec (index_ e) t Hsort) as (n & -> & Hsep).
    symmetry. by eapply drop_separates.
  - rewrite drop_0. apply filter_all. intros x _. unfold from_ok. by rewrite Ht.
Qed.

Lemma replay_starts {C} e opened options (consumer : option (C -> LogRecord -> bool * C)) c :
  engine_good e = true -> StronglySorted entry_le (index_ e) -> options_ok options ->
  fst (replay e opened options consumer c) =
    match opened with
    | None => (with_status (initial_result e) Replay_io_error
                 "failed to open indexed telemetry log", c)
    | Some data =>
        let s := replay_loop options consumer (filter (from_ok options) (index_ e))
          {| rs_input := ifstream_open data; rs_result := initial_result e;
             replay_origin_ns := None; next_physical_offset := None; rs_consumer := c;
             rs_sleeps := [] |} in
        (rs_result s, rs_consumer s)
    end.
Proof. intros. rewrite replay_runs by done. by destruct opened. Qed.

Lemma replay_spec {C} e data look options (consumer : option (C -> LogRecord -> bool * C)) c :
  engine_good e = true -> StronglySorted entry_le (index_ e) ->
  Forall (fun ent => entry_in data ent (fst (look ent)) (snd (look ent))) (index_ e) ->
  Zlength data < 2 ^ 63 -> options_ok options ->
  let sel := selection look <$> filter (in_window options) (index_ e) in
  replay e (Some data) options consumer c =
    (deliver consumer sel (initial_result e) c,
     pauses (dgt (speed options) (double_of_Z 0)) consumer sel None c).
Proof.
  intros Hg Hsort Hin Hlen Hopt sel. rewrite replay_runs by done. unfold sel.
  rewrite <- filter_window. cbv zeta.
  match goal with |- context [replay_loop options consumer ?l ?st] =>
    destruct (replay_loop_spec options consumer data look l st) as [H1 H2] end;
    [by apply filter_sorted|by apply filter_Forall|done|done|].
  by rewrite H2, H1.
Qed.

(** The constructor on an intact log. *)
Lemma engine_of_log fs path hdr l maximum :
  let data := hdr ++ records_image 0 l.*1 in
  files fs !! path = Some data -> stat_error fs path = false -> open_error fs path = false ->
  header_ok hdr -> readables l -> Zlength data < 2 ^ 63 -> Zlength l <= maximum ->
  ReplayEngine_new fs path maximum =
    Some {| re_path := path; index_ := sort_index (stored_index 0 kFileHeaderSize l);
            re_error := "" |}.
Proof.
  intros data Hf Hs Ho Hho Hrd Hlen Hmax.
  unfold ReplayEngine_new, read_log, fs_file_size, fs_open_read. rewrite Hs, Ho, Hf.
  cbn [fmap option_fmap option_map].
  pose proof (read_log_whole {| maximum_records := maximum; retain_records := false |}
    hdr l Hho Hrd Hmax) as Hw. cbv zeta in Hw. fold data in Hw. rewrite Hw by lia.
  done.
Qed.

Lemma engine_entries hdr l : header_ok hdr -> readables l ->
  Forall (fun ent => entry_in (hdr ++ records_image 0 l.*1) ent
    (fst (lookup_record l ent)) (snd (lookup_record l ent)))
    (sort_index (stored_index 0 kFileHeaderSize l)).
Proof.
  intros Hho Hrd. apply Forall_forall. intros ent Hent.
  rewrite sort_index_permutation in Hent. by apply stored_entry_in.
Qed.
End intact.

(** ** Consumers that take everything *)

(** The bytes a record adds to the hash. *)
Definition canonical_bytes (sel : LogRecord * bytes) : bytes :=
  le_split 8 (rec_record_index (fst sel)) ++
  le_split 8 (rec_collector_arrival_timestamp_ns (fst sel)) ++
  le_split 4 (Zlength (snd sel)) ++ snd sel.

Lemma le_split_u32 z : le_split 4 (u32 z) = le_split 4 z.
Proof. apply (le_split_mod 4). Qed.

Lemma hash_record_spec h record p :
  hash_record h record p = hash_bytes h (canonical_bytes (record, p)).
Proof.
  unfold hash_record, canonical_bytes. cbn [fst snd].
  by rewrite !hash_bytes_app, !hash_little_endian_spec, le_split_u32.
Qed.

Section accepting.
Context `{!EventCodec} {C : Type}.
Implicit Types sel : list (LogRecord * bytes).
Implicit Types consumer : option (C -> LogRecord -> bool * C).

(** The consumer that takes every record, keeping its state by [f]. *)
Definition taking (f : C -> LogRecord -> C) : option (C -> LogRecord -> bool * C) :=
  Some (fun c record => (true, f c record)).

Lemma call_taking f c record : call_consumer (taking f) c record = (true, f c record).
Proof. done. Qed.

Lemma deliver_taking f sel : forall r c,
  snd (deliver (taking f) sel r c) = fold_left f (fst <$> sel) c.
Proof.
  induction sel as [|[record p] sel IH]; intros r c; [done|].
  cbn [deliver]. rewrite call_taking. cbn [fmap list_fmap fst fold_left]. apply IH.
Qed.

(** The result when nothing is refused. *)
Lemma deliver_complete consumer sel :
  (forall c record, fst (call_consumer consumer c record) = true) -> forall r c,
  in_u64 (replayed_records r) ->
  let ts := (fun p => rec_collector_arrival_timestamp_ns (fst p)) <$> sel in
  fst (deliver consumer sel r c) =
    {| rr_status := Replay_complete; indexed_records := indexed_records r;
       replayed_records := u64 (replayed_records r + Zlength sel);
       rr_hash := hash_bytes (rr_hash r) (concat (canonical_bytes <$> sel));
       first_timestamp_ns := match first_timestamp_ns r with
                             | Some t => Some t | None => head ts end;
       last_timestamp_ns := match last ts with
                            | Some t => Some t | None => last_timestamp_ns r end;
       rr_message := "replay completed" |}.
Proof.
  intros Hall. induction sel as [|[record p] sel IH]; intros r c Hr; cbv zeta.
  - cbn [deliver fst]. unfold with_status. cbn [fmap list_fmap length concat head last].
    rewrite Z.add_0_r, u64_small by done. by destruct (first_timestamp_ns r).
  - cbn [deliver]. specialize (Hall c record).
    destruct (call_consumer consumer c record) as [taken c']. cbn in Hall. subst taken.
    rewrite IH by apply u64_range. cbn [fmap list_fmap fst concat].
    rewrite hash_bytes_app, <- hash_record_spec. unfold after_record.
    cbn [indexed_records replayed_records rr_hash first_timestamp_ns last_timestamp_ns].
    f_equal.
    + rewrite u64_add_l. f_equal. cbn [length]. lia.
    + by destruct (first_timestamp_ns r).
    + rewrite last_cons. by destruct (last _).
Qed.
End accepting.

(** ** Windows side by side *)

Definition window (from until : Z) : ReplayOptions :=
  {| from_collector_timestamp_ns := Some from; until_collector_timestamp_ns := Some until;
     speed := double_of_Z 0 |}.

Lemma in_window_iff a b e : in_window (window a b) e <-> a <= entry_ts e < b.
Proof. unfold in_window, from_ok, until_ok. cbn. lia. Qed.

Lemma filter_split (l : list LogIndexEntry) a b c :
  StronglySorted entry_le l -> a <= b <= c ->
  filter (in_window (window a c)) l =
    filter (in_window (window a b)) l ++ filter (in_window (window b c)) l.
Proof.
  intros Hs Habc. induction Hs as [|e l Hs IH He]; [done|].
  destruct (decide (entry_ts e < b)) as [Hlt|Hge].
  - rewrite (filter_cons_False (in_window (window b c))) by (rewrite in_window_iff; lia).
    destruct (decide (a <= entry_ts e)).
    + rewrite !filter_cons_True by (rewrite in_window_iff; lia). by rewrite IH.
    + rewrite !filter_cons_False by (rewrite in_window_iff; lia). done.
  - assert (Hnil : filter (in_window (window a b)) (e :: l) = []).
    { apply filter_nothing. intros x [->|Hx]%elem_of_cons; rewrite in_window_iff; [lia|].
      rewrite Forall_forall in He. specialize (He x Hx). rewrite entry_le_spec in He. lia. }
    rewrite Hnil. apply filter_ext_elem. intros x Hx. rewrite !in_window_iff.
    assert (b <= entry_ts x); [|lia].
    apply elem_of_cons in Hx as [->|Hx]; [lia|].
    rewrite Forall_forall in He. specialize (He x Hx). rewrite entry_le_spec in He. lia.
Qed.

(** ** Properties *)

(** The situation of the theorems: a complete log, unchanged since it was
    indexed. *)
Record intact_log `{!EventCodec} (fs : filesystem) (path : string) (hdr : bytes)
    (l : list (Entry * TelemetryEvent)) (maximum : Z) : Prop := {
  il_file : files fs !! path = Some (hdr ++ records_image 0 l.*1);
  il_stat : stat_error fs path = false;
  il_open : open_error fs path = false;
  il_header : header_ok hdr;
  il_records : readables l;
  il_size : Zlength (hdr ++ records_image 0 l.*1) < 2 ^ 63;
  il_maximum : Zlength l <= maximum;
}.

Lemma intact_replay `{!EventCodec} {C} fs path hdr l maximum e options
    (consumer : option (C -> LogRecord -> bool * C)) c :
  intact_log fs path hdr l maximum -> ReplayEngine_new fs path maximum = Some e ->
  options_ok options ->
  index_ e = sort_index (stored_index 0 kFileHeaderSize l) /\
  let sel := selection (lookup_record l) <$> filter (in_window options) (index_ e) in
  replay e (fs_open_read fs path) options consumer c =
    (deliver consumer sel (initial_result e) c,
     pauses (dgt (speed options) (double_of_Z 0)) consumer sel None c).
Proof.
  intros [Hf Hs Ho Hh Hr Hl Hm] He Hopt.
  rewrite (engine_of_log fs path hdr l maximum) in He by done. injection He as <-.
  cbn [index_]. split; [done|].
  unfold fs_open_read. rewrite Ho, Hf.
  apply replay_spec; [done| | |done|done]; cbn [index_].
  - apply sort_index_sorted.
  - by apply engine_entries.
Qed.

Lemma intact_count `{!EventCodec} fs path hdr l maximum :
  intact_log fs path hdr l maximum -> Zlength l < 2 ^ 64.
Proof.
  intros Hi. pose proof (il_size _ _ _ _ _ Hi) as Hsz. rewrite length_app in Hsz.
  pose proof (records_image_length_ge 0 l.*1) as Hge. rewrite length_fmap in Hge. lia.
Qed.

(** Two records, the second of which arrived first. *)
Definition sample_header : bytes := build_file_header 77.
Definition sample_fs : filesystem :=
  fs_of {["run.tflog" := sample_header ++ records_image 0 sample_log.*1]}.

Lemma sample_intact : @intact_log sample_codec sample_fs "run.tflog" sample_header sample_log 10.
Proof.
  constructor; [apply lookup_insert_eq|done|done|apply header_ok_built|apply sample_log_readable|
    by vm_compute|by vm_compute].
Qed.

Definition sample_engine : ReplayEngine :=
  {| re_path := "run.tflog"; index_ := sort_index (@stored_index 0 kFileHeaderSize sample_log);
     re_error := "" |}.

Lemma sample_engine_built :
  @ReplayEngine_new sample_codec sample_fs "run.tflog" 10 = Some sample_engine.
Proof.
  destruct sample_intact as [Hf Hs Ho Hh Hr Hl Hm].
  by apply (@engine_of_log sample_codec sample_fs "run.tflog" sample_header sample_log 10).
Qed.

(** C10: A replay of an unchanged log delivers, for any options the engine takes
    and any consumer, exactly the records whose arrival time lies in the window
    (from inclusive, until exclusive), ordered by arrival time and then by record
    number, each with its own event, until the consumer refuses one; the result
    does not depend on the speed, nor on which payloads were reached by skipping
    and which by seeking. The order is the only one the comparison allows. *)
Theorem replay_delivers_window `{!EventCodec} {C} fs path hdr l maximum options
    (consumer : option (C -> LogRecord -> bool * C)) c :
  intact_log fs path hdr l maximum -> options_ok options ->
  exists e, ReplayEngine_new fs path maximum = Some e /\
    index_ e ≡ₚ stored_index 0 kFileHeaderSize l /\
    StronglySorted entry_le (index_ e) /\
    (forall order, order ≡ₚ stored_index 0 kFileHeaderSize l ->
       StronglySorted entry_le order -> order = index_ e) /\
    fst (replay e (fs_open_read fs path) options consumer c) =
      deliver consumer
        (selection (lookup_record l) <$> filter (in_window options) (index_ e))
        (initial_result e) c.
Proof.
  intros Hi Hopt. eexists. split.
  { destruct Hi as [Hf Hs Ho Hh Hr Hl Hm]. by apply (engine_of_log fs path hdr l maximum). }
  cbn [index_]. split; [apply sort_index_permutation|]. split; [apply sort_index_sorted|].
  split.
  - intros order Hp Hs. apply sort_unique; [|done|done].
    rewrite stored_index_numbers. apply NoDup_seqZ.
  - set (e := {| re_path := path |}).
    destruct (intact_replay fs path hdr l maximum e options consumer c Hi) as [_ ->]; [|done|done].
    destruct Hi as [Hf Hs Ho Hh Hr Hl Hm]. by apply (engine_of_log fs path hdr l maximum).
Qed.

Lemma replay_delivers_window_witness :
  exists e, @ReplayEngine_new sample_codec sample_fs "run.tflog" 10 = Some e /\
    index_ e ≡ₚ @stored_index 0 kFileHeaderSize sample_log /\
    StronglySorted entry_le (index_ e) /\
    (forall order, order ≡ₚ @stored_index 0 kFileHeaderSize sample_log ->
       StronglySorted entry_le order -> order = index_ e) /\
    fst (@replay sample_codec nat e (fs_open_read sample_fs "run.tflog") (window 0 10000)
           (Some (fun n record => (n <? 1, S n)%nat)) 0%nat) =
      deliver (Some (fun n record => (n <? 1, S n)%nat))
        (selection (lookup_record sample_log) <$> filter (in_window (window 0 10000)) (index_ e))
        (initial_result e) 0%nat.
Proof.
  apply (@replay_delivers_window sample_codec nat sample_fs "run.tflog" sample_header sample_log 10).
  - exact sample_intact.
  - constructor; [reflexivity|reflexivity|cbn; lia].
Defined.

(** C11: what a replay without consumer reports: completion, the number of
    records in the window, their first and last arrival times, and as hash the
    FNV-1a hash of the concatenation of index, arrival time, payload size and
    payload of every record in replay order. *)
Theorem replay_result_exact `{!EventCodec} fs path hdr l maximum e options :
  intact_log fs path hdr l maximum -> ReplayEngine_new fs path maximum = Some e ->
  options_ok options ->
  let sel := selection (lookup_record l) <$> filter (in_window options) (index_ e) in
  let ts := (fun p => rec_collector_arrival_timestamp_ns (fst p)) <$> sel in
  fst (fst (replay e (fs_open_read fs path) options (C := unit) None tt)) =
    {| rr_status := Replay_complete; indexed_records := Zlength l;
       replayed_records := Zlength sel;
       rr_hash := hash_bytes kFnvOffsetBasis (concat (canonical_bytes <$> sel));
       first_timestamp_ns := head ts; last_timestamp_ns := last ts;
       rr_message := "replay completed" |}.
Proof.
  intros Hi He Hopt sel ts.
  destruct (intact_replay (C := unit) fs path hdr l maximum e options None tt Hi He Hopt)
    as [Hix ->].
  cbn [fst]. fold sel. rewrite deliver_complete; [|done|solve_range].
  assert (Hil : Zlength (index_ e) = Zlength l)
    by (rewrite Hix, sort_index_permutation, stored_index_length; done).
  pose proof (intact_count fs path hdr l maximum Hi) as Hlen.
  assert (Hsel : Zlength sel <= Zlength l).
  { unfold sel. rewrite length_fmap, <- Hil.
    pose proof (length_filter (in_window options) (index_ e)). lia. }
  cbn [initial_result indexed_records replayed_records rr_hash first_timestamp_ns last_timestamp_ns].
  rewrite Hil, !u64_small by (unfold in_u64; lia). fold ts. by destruct (last ts).
Qed.

Lemma replay_result_exact_witness :
  let sel := selection (lookup_record sample_log) <$>
    filter (in_window (window 0 10000)) (index_ sample_engine) in
  let ts := (fun p => rec_collector_arrival_timestamp_ns (fst p)) <$> sel in
  ts = [4000; 5000] /\
  fst (fst (@replay sample_codec unit sample_engine (fs_open_read sample_fs "run.tflog")
              (window 0 10000) None tt)) =
    {| rr_status := Replay_complete; indexed_records := Zlength sample_log;
       replayed_records := Zlength sel;
       rr_hash := hash_bytes kFnvOffsetBasis (concat (canonical_bytes <$> sel));
       first_timestamp_ns := head ts; last_timestamp_ns := last ts;
       rr_message := "replay completed" |}.
Proof.
  intros sel ts. split; [vm_compute; reflexivity|].
  apply (@replay_result_exact sample_codec sample_fs "run.tflog" sample_header sample_log 10).
  - exact sample_intact.
  - exact sample_engine_built.
  - constructor; [reflexivity|reflexivity|cbn; lia].
Defined.

(** C17: Windows compose: replaying [a, b) and then [b, c) hands a consumer the
    very records, in the very order, that replaying [a, c) does. *)
Theorem replay_windows_compose `{!EventCodec} {C} fs path hdr l maximum e
    (f : C -> LogRecord -> C) (c0 : C) (a b c : Z) :
  intact_log fs path hdr l maximum -> ReplayEngine_new fs path maximum = Some e ->
  a < b < c ->
  let run w st := snd (fst (replay e (fs_open_read fs path) w (taking f) st)) in
  run (window a c) c0 = run (window b c) (run (window a b) c0).
Proof.
  intros Hi He Habc run.
  assert (Hrun : forall x y st, x < y -> run (window x y) st =
    fold_left f (fst <$> (selection (lookup_record l) <$>
      filter (in_window (window x y)) (index_ e))) st).
  { intros x y st Hxy. unfold run.
    destruct (intact_replay fs path hdr l maximum e (window x y) (taking f) st Hi He) as [_ ->].
    - constructor; cbn; [done|done|lia].
    - apply deliver_taking. }
  assert (Hs : StronglySorted entry_le (index_ e)).
  { destruct (intact_replay fs path hdr l maximum e (window a b) (taking f) c0 Hi He) as [-> _].
    - constructor; cbn; [done|done|lia].
    - apply sort_index_sorted. }
  rewrite !Hrun, (filter_split _ a b c Hs) by lia.
  by rewrite !fmap_app, fold_left_app.
Qed.

Lemma replay_windows_compose_witness :
  let run w (st : list Z) :=
    snd (fst (@replay sample_codec (list Z) sample_engine (fs_open_read sample_fs "run.tflog") w
      (taking (fun seen record => seen ++ [rec_record_index record])) st)) in
  run (window 0 10000) [] = [1; 0] /\
  run (window 0 10000) [] = run (window 4500 10000) (run (window 0 4500) []).
Proof.
  intros run. split; [vm_compute; reflexivity|].
  apply (@replay_windows_compose sample_codec (list Z) sample_fs "run.tflog" sample_header
    sample_log 10).
  - exact sample_intact.
  - exact sample_engine_built.
  - lia.
Defined.
