(* ===== verification/ReplaySafety.v ===== *)
(** * ReplaySafety: replaying a file that changed after it was indexed

    The engine indexes a file when it is built and reads it again for every
    replay. Whatever the file holds by then, a record is handed out only if the
    payload read for it passes the checks of the index entry. *)
From Stdlib Require Import ZArith Lia.
From Stdlib Require Import Strings.Byte.
From stdpp Require Import base gmap strings list sorting.
From S2P Require Import Prelude Bytes Floats Telemetry Validation Streams Crc32c LogFormat.
From S2P Require Import LogWriter LogReader LogRecovery Fnv Replay.
Local Open Scope Z_scope.
Local Open Scope tf_scope.

Section safety.
Context `{!EventCodec} {C : Type}.
Implicit Types (ent : LogIndexEntry) (sel : list (LogRecord * bytes)).

(** The record handed out for an entry, with the payload that was read. *)
Record vouched ent (x : LogRecord * bytes) : Prop := {
  vo_index : rec_record_index x.1 = record_index ent;
  vo_offset : rec_file_offset x.1 = file_offset ent;
  vo_arrival : rec_collector_arrival_timestamp_ns x.1 = entry_ts ent;
  vo_size : Zlength x.2 = payload_size ent;
  vo_crc : crc32c x.2 = payload_crc32c ent;
  vo_parse : ParseFromArray x.2 = Some (rec_event x.1);
  vo_schema : schema_version (rec_event x.1) = kTelemetrySchemaVersion;
  vo_source : source_timestamp_ns (rec_event x.1) = entry_source_timestamp_ns ent;
}.

(** A payload that was read has the length asked for. *)
Lemma read_payload_length s ent sequential p s' : 0 <= payload_size ent ->
  read_payload s ent sequential = (true, p, s') -> Zlength p = payload_size ent.
Proof.
  intros Hn. unfold read_payload. destruct (is_fail _); [done|].
  set (s1 := if sequential then _ else _). unfold is_read.
  destruct (is_good s1); cbn [negb].
  - intros [= Hg <- _]. cbn [is_gcount] in Hg. by apply Z.eqb_eq.
  - intros [= Hg <- _]. by destruct (payload_size ent).
Qed.

Lemma check_record_vouches ent p record : Zlength p = payload_size ent ->
  check_record ent p = inr record -> vouched ent (record, p).
Proof.
  intros Hp. unfold check_record. destruct (crc32c p =? payload_crc32c ent) eqn:Hc; [|done].
  cbn [negb]. destruct (ParseFromArray p) as [ev|] eqn:Hev; [|done].
  destruct (_ || _) eqn:Hs; [done|]. intros [= <-]. apply orb_false_iff in Hs as [H1 H2].
  apply negb_false_iff in H1, H2. reflect_bools. by constructor.
Qed.

(** What the loop reports for the records [sel] of the window [entries]. *)
Record outcome (f : C -> LogRecord -> C) (entries : list LogIndexEntry) (r : ReplayResult) (c : C)
    sel (r' : ReplayResult) (c' : C) : Prop := {
  ou_vouched : Forall2 vouched (take (length sel) entries) sel;
  ou_consumer : c' = fold_left f (fst <$> sel) c;
  ou_count : replayed_records r' = u64 (replayed_records r + Zlength sel);
  ou_hash : rr_hash r' = hash_bytes (rr_hash r) (concat (canonical_bytes <$> sel));
  ou_status : rr_status r' = Replay_complete /\ length sel = length entries \/
    (rr_status r' = Replay_io_error \/ rr_status r' = Replay_log_error) /\
    (length sel < length entries)%nat;
}.

(** The loop stops before the first record. *)
Lemma outcome_stop f entries r c st msg : in_u64 (replayed_records r) ->
  (st = Replay_complete /\ entries = [] \/
   (st = Replay_io_error \/ st = Replay_log_error) /\ entries <> []) ->
  outcome f entries r c [] (with_status r st msg) c.
Proof.
  intros Hr Hst. constructor; cbn [with_status replayed_records rr_hash rr_status].
  - constructor.
  - done.
  - by rewrite Z.add_0_r, u64_small.
  - done.
  - destruct Hst as [[-> ->]|[Hst Hne]]; [by left|right]. split; [done|].
    destruct entries; [done|cbn; lia].
Qed.

(** One record more in front. *)
Lemma outcome_next f ent entries r c record p sel r' c' :
  vouched ent (record, p) ->
  outcome f entries (after_record r record p) (f c record) sel r' c' ->
  outcome f (ent :: entries) r c ((record, p) :: sel) r' c'.
Proof.
  intros Hv [H1 H2 H3 H4 H5]. constructor.
  - by constructor.
  - exact H2.
  - rewrite H3. cbn [after_record replayed_records length]. rewrite u64_add_l. f_equal. lia.
  - rewrite H4. cbn [after_record rr_hash fmap list_fmap concat].
    by rewrite hash_bytes_app, hash_record_spec.
  - cbn [length]. destruct H5 as [[? ->]|[? ?]]; [by left|right]. split; [done|lia].
Qed.

Lemma replay_loop_safe options f entries : forall s,
  StronglySorted entry_le entries -> Forall (fun ent => 0 <= payload_size ent) entries ->
  in_u64 (replayed_records (rs_result s)) ->
  let s' := replay_loop options (taking f) entries s in
  exists sel, outcome f (filter (until_ok options) entries) (rs_result s) (rs_consumer s) sel
    (rs_result s') (rs_consumer s').
Proof.
  induction entries as [|ent entries IH]; intros s Hsort Hsize Hr.
  { exists []. apply outcome_stop; [done|by left]. }
  cbv zeta. cbn [replay_loop]. apply Forall_cons in Hsize as [Hn Hsize].
  destruct (decide (until_ok options ent)) as [Hu|Hu].
  2: { rewrite filter_until_stop by done. exists []. unfold until_ok in Hu.
       destruct (until_collector_timestamp_ns options) as [u|]; [|done].
       destruct (Z.leb_spec u (entry_ts ent)); [|lia]. apply outcome_stop; [done|by left]. }
  rewrite filter_cons_True by done.
  replace (match until_collector_timestamp_ns options with
           | Some until => until <=? entry_ts ent | None => false end) with false.
  2: { unfold until_ok in Hu. destruct (until_collector_timestamp_ns options) as [u|]; [|done].
       symmetry. apply Z.leb_gt. lia. }
  set (seq := match next_physical_offset s with Some _ => _ | None => _ end).
  destruct (read_payload (rs_input s) ent seq) as [[ok p] input] eqn:Hread.
  destruct ok; cbn [negb].
  2: { exists []. apply outcome_stop; [done|right]. by split; [left|]. }
  apply read_payload_length in Hread; [|done].
  destruct (check_record ent p) as [msg|record] eqn:Hcheck.
  { exists []. apply outcome_stop; [done|right]. by split; [right|]. }
  rewrite call_taking. cbn [negb].
  pose proof (check_record_vouches ent p record Hread Hcheck) as Hv.
  set (s1 := {| rs_input := _; rs_consumer := f _ record |}).
  destruct (IH s1) as [sel Hsel]; [by inversion Hsort|done|apply u64_range|].
  exists ((record, p) :: sel). apply outcome_next; [done|].
  replace (after_record (rs_result s) record p) with (rs_result s1); [exact Hsel|].
  unfold s1, after_record. cbn [rs_result]. pose proof (vo_arrival _ _ Hv) as Ht. cbn [fst] in Ht.
  rewrite Ht. f_equal. by destruct (first_timestamp_ns (rs_result s)).
Qed.
End safety.

Section changed.
Context `{!EventCodec} {C : Type}.

(** Indexed payload sizes are lengths. *)
Lemma indexed_sizes hdr l : header_ok hdr -> readables l ->
  Forall (fun ent => 0 <= payload_size ent) (sort_index (stored_index 0 kFileHeaderSize l)).
Proof.
  intros Hh Hr. eapply Forall_impl; [by apply engine_entries|]. cbv beta.
  intros ent Hent. rewrite (ei_size _ _ _ _ Hent). lia.
Qed.

(** A vouched payload close to the recorded one is the recorded one. *)
Lemma vouched_burst hdr l (entries : list LogIndexEntry) sel record pre mid mid' post ent_ ev :
  header_ok hdr -> readables l ->
  Forall (fun ent => ent ∈ sort_index (stored_index 0 kFileHeaderSize l)) entries ->
  Forall2 vouched entries sel -> (record, pre ++ mid' ++ post) ∈ sel ->
  l !! Z.to_nat (rec_record_index record) = Some (ent_, ev) -> body ent_ = pre ++ mid ++ post ->
  length mid = length mid' -> (length mid <= 4)%nat -> mid' = mid.
Proof.
  intros Hh Hr Hin Hv [i Hi]%list_elem_of_lookup_1 Hl Hb Hlen H4.
  destruct (Forall2_lookup_r _ _ _ _ _ Hv Hi) as (ent & Hent & [Hidx _ _ _ Hcrc _ _ _]).
  cbn [fst snd] in Hidx, Hcrc.
  assert (He : ent ∈ sort_index (stored_index 0 kFileHeaderSize l))
    by exact (Forall_lookup_1 _ _ _ _ Hin Hent).
  pose proof (engine_entries hdr l Hh Hr) as Hall. rewrite Forall_forall in Hall.
  specialize (Hall ent He). pose proof (ei_crc _ _ _ _ Hall) as Hc.
  unfold lookup_record in Hc. rewrite <- Hidx, Hl in Hc. cbn [fst] in Hc. rewrite Hb in Hc.
  destruct (decide (mid' = mid)) as [|Hne]; [done|exfalso].
  apply (crc32c_burst pre mid mid' post); [done|done|congruence|]. congruence.
Qed.
End changed.

(** ** Properties *)

(** C15: replaying a file that was changed after it was indexed. Whatever the file
    holds by then - or if it cannot be opened any more - a replay hands out, in the
    order of the window, records with the number, place and arrival time of the
    index, each with a payload of the indexed length and checksum that decodes to an
    event with the indexed source time. It completes only when it has handed out
    the whole window; otherwise it stops in front of the first record it cannot
    vouch for and says so. Count and hash cover exactly the records handed out. A
    payload that differs from the recorded one in up to four consecutive bytes is
    never handed out. *)
Theorem changed_file_never_trusted `{!EventCodec} {C} fs path hdr l maximum e options
    (f : C -> LogRecord -> C) (c0 : C) (opened : option bytes)
    (Hi : intact_log fs path hdr l maximum) (He : ReplayEngine_new fs path maximum = Some e)
    (Hopt : options_ok options) :
  let window := filter (in_window options) (index_ e) in
  let run := fst (replay e opened options (taking f) c0) in
  exists sel : list (LogRecord * bytes),
    Forall2 vouched (take (length sel) window) sel /\
    run.2 = fold_left f (fst <$> sel) c0 /\ replayed_records run.1 = Zlength sel /\
    rr_hash run.1 = hash_bytes kFnvOffsetBasis (concat (canonical_bytes <$> sel)) /\
    (rr_status run.1 = Replay_complete /\ length sel = length window \/
     (rr_status run.1 = Replay_io_error \/ rr_status run.1 = Replay_log_error) /\
       ((length sel < length window)%nat \/ opened = None)) /\
    forall record pre mid mid' post recorded ev,
      l !! Z.to_nat (rec_record_index record) = Some (recorded, ev) ->
      body recorded = pre ++ mid ++ post -> (record, pre ++ mid' ++ post) ∈ sel ->
      length mid = length mid' -> (length mid <= 4)%nat -> mid' = mid.
Proof.
  intros window run. pose proof (intact_count fs path hdr l maximum Hi) as Hcount.
  destruct Hi as [H1 H2 H3 H4 H5 H6 H7].
  rewrite (engine_of_log fs path hdr l maximum) in He by done. injection He as <-.
  pose proof (sort_index_sorted (stored_index 0 kFileHeaderSize l)) as Hsort.
  unfold run. rewrite replay_starts by done. destruct opened as [data|].
  2: { exists []. split; [constructor|]. do 3 (split; [done|]). split.
       - right. by split; [left|right].
       - by intros record pre mid mid' post recorded ev _ _ ?%elem_of_nil. }
  set (s := {| rs_input := ifstream_open data; rs_consumer := c0 |}).
  destruct (replay_loop_safe options f (filter (from_ok options) (sort_index
    (stored_index 0 kFileHeaderSize l))) s) as [sel [O1 O2 O3 O4 O5]];
    [by apply filter_sorted|apply filter_Forall; by eapply indexed_sizes|solve_range|].
  cbn [index_] in *. rewrite filter_window in O1, O5. fold window in O1, O5.
  assert (Hsel : Zlength sel <= Zlength l).
  { pose proof (length_filter (in_window options) (sort_index (stored_index 0 kFileHeaderSize l))) as Hf.
    fold window in Hf. assert (Hall : length (sort_index (stored_index 0 kFileHeaderSize l)) = length l)
      by (by rewrite sort_index_permutation, stored_index_length).
    lia. }
  exists sel. cbn [fst snd]. split_and!; try done.
  - rewrite O3. apply u64_small. unfold in_u64. cbn. lia.
  - destruct O5 as [?|[? ?]]; [by left|right]. split; [done|by left].
  - intros record pre mid mid' post recorded ev Hl Hb Hin. revert Hl Hb.
    apply (vouched_burst hdr l (take (length sel) window) sel); try done.
    apply Forall_take. apply Forall_forall. intros x [_ Hx]%list_elem_of_filter. done.
Qed.

(** The first payload byte of the first record is overwritten; that record arrived last. *)
Definition changed_data : bytes :=
  <[68%nat := xff]> (sample_header ++ records_image 0 sample_log.*1).

Lemma changed_file_never_trusted_witness :
  let run := fst (@replay sample_codec (list Z) sample_engine (Some changed_data) (window 0 10000)
    (taking (fun seen record => seen ++ [rec_record_index record])) []) in
  run.2 = [1] /\ rr_status run.1 = Replay_log_error /\
  exists sel, Forall2 (@vouched sample_codec)
      (take (length sel) (filter (in_window (window 0 10000)) (index_ sample_engine))) sel /\
    replayed_records run.1 = Zlength sel.
Proof.
  intros run. split; [vm_compute; reflexivity|]. split; [vm_compute; reflexivity|].
  destruct (@changed_file_never_trusted sample_codec (list Z) sample_fs "run.tflog" sample_header
    sample_log 10 sample_engine (window 0 10000)
    (fun seen record => seen ++ [rec_record_index record]) [] (Some changed_data)
    sample_intact sample_engine_built) as (sel & Hv & _ & Hn & _).
  - constructor; [reflexivity|reflexivity|cbn; lia].
  - exists sel. split; [exact Hv|exact Hn].
Defined.
