(* ===== verification/Pacing.v ===== *)
(** * Pacing: the pauses of a paced replay ([src/replay/replay.cpp])

    From the timestamp of a record and the one the replay started with, the
    offset on the wall clock is computed in [long double], cut down to
    nanoseconds and added to the start. An offset that no 64-bit count of
    nanoseconds holds is undefined behaviour, [None] here. *)
From Stdlib Require Import ZArith Lia SpecFloat.
From Stdlib Require Import Strings.Byte.
From stdpp Require Import base gmap strings list sorting.
From S2P Require Import Prelude Bytes Floats Dyadic Telemetry Streams LogFormat LogReader.
From S2P Require Import Rounding LongDouble Replay.
Local Open Scope Z_scope.
Local Open Scope tf_scope.

Section pacing.
Context (ld_prec ld_emax : Z).

(** [duration_cast<steady_clock::duration>(scaled)]. *)
Definition scaled_offset (speed : double) (timestamp replay_origin_ns : Z) : option Z :=
  let elapsed_ns := ld_sub ld_prec ld_emax (ld_of_Z ld_prec ld_emax timestamp)
                      (ld_of_Z ld_prec ld_emax replay_origin_ns) in
  let scaled := ld_div ld_prec ld_emax elapsed_ns (ld_of_double ld_prec ld_emax speed) in
  ld_to_s64 scaled.

(** The time point passed to [sleep_until]. *)
Definition sleep_deadline (speed : double) (wall_origin timestamp replay_origin_ns : Z) : option Z :=
  match scaled_offset speed timestamp replay_origin_ns with
  | None => None
  | Some offset =>
      let deadline := wall_origin + offset in
      return_if (deadline <? - 2 ^ 63) || (2 ^ 63 <=? deadline) with None ;; Some deadline
  end.
End pacing.

(** The pauses of a replay, on the wall clock that showed [wall_origin] when the
    first record was reached. *)
Definition deadlines (ld_prec ld_emax : Z) (speed : double) (wall_origin : Z)
    (sleeps : list (Z * Z)) : list (option Z) :=
  (fun p => sleep_deadline ld_prec ld_emax speed wall_origin p.1 p.2) <$> sleeps.

(** ** The offset *)

Section accuracy.
Context (ld_prec ld_emax : Z) (Hprec : 53 <= ld_prec) (Hemax : ld_prec + 1200 <= ld_emax).













End accuracy.

(** ** The pauses of a whole replay *)

Section deadlines.
Context (ld_prec ld_emax : Z) (Hprec : 53 <= ld_prec) (Hemax : ld_prec + 1200 <= ld_emax).



End deadlines.

Section replayed.
Context `{!EventCodec} {C : Type}.
Implicit Types consumer : option (C -> LogRecord -> bool * C).

Abbreviation arrival_of := (fun p : LogRecord * bytes => rec_collector_arrival_timestamp_ns p.1).


End replayed.

(** ** Properties *)


(** Two seconds of the sample log at a tenth of real time. *)
Definition paced (s : double) : ReplayOptions :=
  {| from_collector_timestamp_ns := None; until_collector_timestamp_ns := None; speed := s |}.

Example paced_deadlines :
  deadlines 64 16384 (ddiv (double_of_Z 1) (double_of_Z 10)) 1000 [(4000, 4000); (5000, 4000)] =
    [Some 1000; Some 10999].
Proof. vm_compute. reflexivity. Qed.




(** With 53 bits the timestamps of our time are multiples of 256: a record 100
    nanoseconds behind the first one has the deadline of the first one. *)
Example double_as_long_double :
  let origin := 1700000000000000000 in
  sleep_deadline 64 16384 (double_of_Z 1) 0 (origin + 100) origin = Some 100 /\
  sleep_deadline 53 2048 (double_of_Z 1) 0 (origin + 100) origin = Some 0.
Proof. split; vm_compute; reflexivity. Qed.

(** Every finite positive speed is an option, but at one of [2^-1000] a second of
    recorded time has no deadline. *)
Example slowest_speed_accepted_and_undefined :
  let s := S754_finite false (Pos.shiftl 1 52) (-1052) in
  options_ok (paced s) /\
  sleep_deadline 64 16384 s 0 1000000000 0 = None.
Proof. split; [constructor; [reflexivity|reflexivity|exact I]|vm_compute; reflexivity]. Qed.
