(* ===== verification/Random.v ===== *)
(** * Random: [std::mt19937_64] and the class [PortableRandom] of
    [src/generator/workload_generator.cpp]

    Random computations form a monad over an engine state, with a fuel for the
    rejection loop and the exceptions of the generator. The triple [returns]
    says of such a computation that it returns, for all large fuels, from every
    state whose engine keeps drawing values of the upper half now and then, and
    what its result satisfies. *)
From Stdlib Require Import ZArith Lia.
From stdpp Require Import base gmap strings list.
From S2P Require Import Prelude.
Local Open Scope Z_scope.
Local Open Scope tf_scope.

(** ** The engine *)

Class RandomEngine (E : Type) := {
  seed_engine : Z -> E;
  next_u64 : E -> Z * E;
  next_u64_range : forall s, in_u64 (fst (next_u64 s));
}.

(** [std::mt19937_64]: the 312 last words; [n], [m], [r] and the other
    parameters are those of the standard. *)
Definition mt_a : Z := 0xb5026f5aa96619e9.
Definition mt_upper_mask : Z := 0xffffffff80000000.
Definition mt_lower_mask : Z := 0x7fffffff.

Definition mt_temper (x : Z) : Z :=
  let x := Z.lxor x (Z.land (Z.shiftr x 29) 0x5555555555555555) in
  let x := Z.lxor x (Z.land (u64 (Z.shiftl x 17)) 0x71d67fffeda60000) in
  let x := Z.lxor x (Z.land (u64 (Z.shiftl x 37)) 0xfff7eee000000000) in
  u64 (Z.lxor x (Z.shiftr x 43)).

Definition mt_step (words : list Z) : Z :=
  let y := Z.lor (Z.land (words !!! 0%nat) mt_upper_mask)
                 (Z.land (words !!! 1%nat) mt_lower_mask) in
  let alpha := if Z.odd y then mt_a else 0 in
  Z.lxor (Z.lxor (words !!! 156%nat) (Z.shiftr y 1)) alpha.

Definition mt_next (words : list Z) : Z * list Z :=
  let x := mt_step words in (mt_temper x, tail words ++ [x]).

(** The words after word number [i - 1], which is [x]. *)
Fixpoint mt_seed_loop (n : nat) (i x : Z) : list Z :=
  match n with
  | O => []
  | S n' =>
      let x' := u64 (6364136223846793005 * Z.lxor x (Z.shiftr x 62) + i) in
      x' :: mt_seed_loop n' (i + 1) x'
  end.

Definition mt_seed (seed : Z) : list Z := u64 seed :: mt_seed_loop 311 1 (u64 seed).

#[export] Instance mt19937_64 : RandomEngine (list Z) := {
  seed_engine := mt_seed;
  next_u64 := mt_next;
  next_u64_range := fun words => u64_range _;
}.

Fixpoint nth_output {E} `{!RandomEngine E} (n : nat) (s : E) : Z :=
  match n with
  | O => fst (next_u64 s)
  | S n' => nth_output n' (snd (next_u64 s))
  end.

(** The standard's check: the 10000th value from the default seed. *)
Example mt_check_value : nth_output 9999 (mt_seed 5489) = 9981545732273789042.
Proof. vm_compute. reflexivity. Qed.

(** ** Computations *)

Inductive Outcome (A : Type) :=
  | No_fuel
  | Throws (msg : string)
  | Returns (a : A).
Arguments No_fuel {A}.
Arguments Throws {A} msg.
Arguments Returns {A} a.

Section computations.
Context {E : Type} `{!RandomEngine E}.

Definition Rand (A : Type) : Type := nat -> E -> Outcome (A * E).

Definition rand_ret {A} (a : A) : Rand A := fun _ s => Returns (a, s).
Definition rand_throw {A} (msg : string) : Rand A := fun _ _ => Throws msg.
Definition rand_bind {A B} (m : Rand A) (k : A -> Rand B) : Rand B := fun fuel s =>
  match m fuel s with
  | No_fuel => No_fuel
  | Throws msg => Throws msg
  | Returns (a, s') => k a fuel s'
  end.

(** The loop of [PortableRandom::bounded]. *)
Fixpoint bounded_loop (n : nat) (threshold upper : Z) (s : E) : Outcome (Z * E) :=
  match n with
  | O => No_fuel
  | S n' =>
      let '(value, s') := next_u64 s in
      if threshold <=? value then Returns (value mod upper, s')
      else bounded_loop n' threshold upper s'
  end.

Definition bounded (upper : Z) : Rand Z := fun fuel s =>
  return_if upper =? 0 with Returns (0, s) ;;
  let threshold := u64 (- upper) mod upper in
  bounded_loop fuel threshold upper s.

Definition kProbabilityScale : Z := 1000000.

Definition chance (per_million : Z) : Rand bool :=
  rand_bind (bounded kProbabilityScale) (fun v => rand_ret (v <? per_million)).

(** ** Triples *)

Fixpoint state_after (n : nat) (s : E) : E :=
  match n with O => s | S n' => state_after n' (snd (next_u64 s)) end.

(** The engine draws a value of the upper half again and again. *)
Definition fair (s : E) : Prop :=
  forall k, exists m, (k <= m)%nat /\ 2 ^ 63 <= fst (next_u64 (state_after m s)).

Definition returns {A} (m : Rand A) (Q : A -> Prop) : Prop :=
  forall s, fair s -> exists f a s',
    (forall f', (f <= f')%nat -> m f' s = Returns (a, s')) /\ fair s' /\ Q a.

Lemma fair_next s : fair s -> fair (snd (next_u64 s)).
Proof.
  intros Hf k. destruct (Hf (S k)) as (m & Hm & Hv).
  destruct m as [|m]; [lia|]. exists m. split; [lia|exact Hv].
Qed.

Lemma returns_ret {A} (a : A) (Q : A -> Prop) : Q a -> returns (rand_ret a) Q.
Proof. intros Hq s Hs. by exists 0%nat, a, s. Qed.

Lemma returns_bind {A B} (m : Rand A) (k : A -> Rand B) (Q : A -> Prop) (R : B -> Prop) :
  returns m Q -> (forall a, Q a -> returns (k a) R) -> returns (rand_bind m k) R.
Proof.
  intros Hm Hk s Hs. destruct (Hm s Hs) as (f1 & a & s1 & H1 & Hs1 & Hq).
  destruct (Hk a Hq s1 Hs1) as (f2 & b & s2 & H2 & Hs2 & Hr).
  exists (f1 + f2)%nat, b, s2. split; [|done]. intros f' Hf'.
  unfold rand_bind. rewrite H1 by lia. apply H2. lia.
Qed.

Lemma returns_weaken {A} (m : Rand A) (Q R : A -> Prop) :
  returns m Q -> (forall a, Q a -> R a) -> returns m R.
Proof. intros Hm Hqr s Hs. destruct (Hm s Hs) as (f & a & s' & ? & ? & ?). exists f, a, s'. auto. Qed.

(** Values of the upper half are never rejected. *)
Lemma threshold_small upper : 0 < upper < 2 ^ 64 ->
  0 <= u64 (- upper) mod upper <= 2 ^ 63.
Proof.
  intros Hu. pose proof (Z.mod_pos_bound (u64 (- upper)) upper).
  assert (Hm : u64 (- upper) = 2 ^ 64 - upper).
  { unfold u64. symmetry. apply (Z.mod_unique_pos _ _ (-1)); lia. }
  rewrite Hm in *. pose proof (Z.mod_le (2 ^ 64 - upper) upper). lia.
Qed.

Lemma bounded_loop_returns threshold upper k : forall s,
  0 < upper -> threshold <= 2 ^ 63 ->
  2 ^ 63 <= fst (next_u64 (state_after k s)) -> fair s ->
  exists v s', (forall f', (S k <= f')%nat ->
      bounded_loop f' threshold upper s = Returns (v mod upper, s')) /\ fair s'.
Proof.
  induction k as [|k IH]; intros s Hu Ht Hv Hf.
  - destruct (next_u64 s) as [v s'] eqn:En. cbn [state_after] in Hv. rewrite En in Hv.
    exists v, s'. split.
    + intros [|f'] Hf'; [lia|]. cbn [bounded_loop]. rewrite En. cbn [fst] in Hv.
      by destruct (Z.leb_spec threshold v); [|lia].
    + apply fair_next in Hf. by rewrite En in Hf.
  - destruct (next_u64 s) as [v s'] eqn:En. pose proof (fair_next s Hf) as Hf1.
    cbn [state_after] in Hv. rewrite En in Hv, Hf1. cbn [snd] in Hv, Hf1.
    destruct (Z.leb_spec threshold v) as [Hle|Hgt].
    + exists v, s'. split; [|done]. intros [|f'] Hf'; [lia|]. cbn [bounded_loop].
      rewrite En. by destruct (Z.leb_spec threshold v); [|lia].
    + destruct (IH s' Hu Ht Hv Hf1) as (v2 & s2 & H2 & Hf2). exists v2, s2.
      split; [|done]. intros [|f'] Hf'; [lia|]. cbn [bounded_loop]. rewrite En.
      destruct (Z.leb_spec threshold v); [lia|]. apply H2. lia.
Qed.

Lemma bounded_returns upper : in_u64 upper ->
  returns (bounded upper) (fun v => 0 <= v /\ (v < upper \/ upper = 0 /\ v = 0)).
Proof.
  intros Hu s Hs. unfold bounded. destruct (Z.eqb_spec upper 0) as [->|Hne].
  { exists 0%nat, 0, s. split_and!; done || lia. }
  unfold in_u64 in Hu. destruct (Hs 0%nat) as (k & _ & Hk).
  destruct (bounded_loop_returns (u64 (- upper) mod upper) upper k s)
    as (v & s' & Hv & Hs'); [lia|apply threshold_small; lia|done|done|].
  exists (S k), (v mod upper), s'. split; [exact Hv|]. split; [done|].
  pose proof (Z.mod_pos_bound v upper). lia.
Qed.

Lemma chance_returns p : returns (chance p) (fun b =>
  (p <= 0 -> b = false) /\ (kProbabilityScale <= p -> b = true)).
Proof.
  eapply returns_bind; [apply bounded_returns; solve_range|].
  intros v Hv. apply returns_ret. unfold kProbabilityScale in *.
  split; intros Hp; [apply Z.ltb_ge|apply Z.ltb_lt]; lia.
Qed.
End computations.

(** The accepted draws with a given residue. *)
Lemma accepted_residue upper r v :
  0 < upper < 2 ^ 64 -> 0 <= r < upper -> 0 <= v < 2 ^ 64 ->
  let threshold := 2 ^ 64 mod upper in
  threshold <= v /\ v mod upper = r <->
    exists i, 0 <= i < 2 ^ 64 / upper /\
      v = threshold + (r - threshold) mod upper + upper * i.
Proof.
  intros Hu Hr Hv64 threshold.
  pose proof (Z.div_mod (2 ^ 64) upper ltac:(lia)) as Hdiv.
  pose proof (Z.mod_pos_bound (2 ^ 64) upper ltac:(lia)) as Htr. fold threshold in Hdiv, Htr.
  pose proof (Z.mod_pos_bound (r - threshold) upper ltac:(lia)) as Hd.
  set (d := (r - threshold) mod upper) in *. set (n := 2 ^ 64 / upper) in *.
  assert (Hdr : (threshold + d) mod upper = r).
  { unfold d. rewrite Zplus_mod_idemp_r. replace (threshold + (r - threshold)) with r by lia.
    apply Z.mod_small. lia. }
  split.
  - intros [Hv Hm]. exists ((v - threshold - d) / upper).
    assert (Hmul : (v - threshold - d) mod upper = 0).
    { replace (v - threshold - d) with (v - (threshold + d)) by lia.
      rewrite Zminus_mod, Hm, Hdr, Z.sub_diag. apply Z.mod_0_l. lia. }
    pose proof (Z.div_mod (v - threshold - d) upper ltac:(lia)) as Hq. rewrite Hmul in Hq.
    set (q := (v - threshold - d) / upper) in *. nia.
  - intros (i & Hi & ->). split; [nia|].
    replace (threshold + d + upper * i) with (threshold + d + i * upper) by lia.
    by rewrite Z.mod_add by lia.
Qed.

(** ** Properties *)

(** An engine that counts, for the example. *)
Definition counter_engine : RandomEngine Z := {|
  seed_engine := u64;
  next_u64 := fun s => (u64 s, s + 1);
  next_u64_range := fun s => u64_range s;
|}.

(** C30: [bounded] is unbiased. With a draw [v] it returns [r] exactly when [v] is
    one of [2^64 / upper] evenly spaced raw values, as many for every result
    below the bound; any other draw is rejected and the next one tried. *)
Theorem bounded_unbiased {E} `{!RandomEngine E} (upper r : Z) (s s' : E) (v : Z)
    (Hu : 0 < upper < 2 ^ 64) (Hr : 0 <= r < upper) (Hv : next_u64 s = (v, s')) :
  let threshold := 2 ^ 64 mod upper in
  (bounded upper 1%nat s = Returns (r, s') <->
     exists i, 0 <= i < 2 ^ 64 / upper /\
       v = threshold + (r - threshold) mod upper + upper * i) /\
  (v < threshold -> forall fuel, bounded upper (S fuel) s = bounded upper fuel s').
Proof.
  intros threshold. assert (Hv64 : 0 <= v < 2 ^ 64)
    by (pose proof (next_u64_range s) as Hr64; by rewrite Hv in Hr64).
  assert (Ht : u64 (- upper) mod upper = threshold).
  { unfold threshold. replace (u64 (- upper)) with (2 ^ 64 + (-1) * upper).
    - by rewrite Z.mod_add by lia.
    - unfold u64. apply (Z.mod_unique_pos _ _ (-1)); lia. }
  assert (Hb : forall fuel, bounded upper (S fuel) s =
    if threshold <=? v then Returns (v mod upper, s') else bounded upper fuel s').
  { intros fuel. unfold bounded. destruct (Z.eqb_spec upper 0); [lia|].
    cbn [bounded_loop]. rewrite Hv, Ht. done. }
  split; [|intros Hlt fuel; rewrite Hb; by destruct (Z.leb_spec threshold v); [lia|]].
  rewrite Hb. pose proof (accepted_residue upper r v Hu Hr Hv64) as Hres. cbv zeta in Hres.
  fold threshold in Hres. rewrite <- Hres. clear Hres.
  destruct (Z.leb_spec threshold v) as [Hle|Hgt].
  - split; [by intros [= <-]|intros [_ <-]; done].
  - unfold bounded. destruct (Z.eqb_spec upper 0); [lia|]. split; [done|lia].
Qed.

Lemma bounded_unbiased_witness :
  @bounded Z counter_engine 10 1%nat 1234561 = Returns (1, 1234562) <->
    exists i, 0 <= i < 2 ^ 64 / 10 /\
      1234561 = 2 ^ 64 mod 10 + (1 - 2 ^ 64 mod 10) mod 10 + 10 * i.
Proof.
  refine (proj1 (@bounded_unbiased Z counter_engine 10 1 1234561 1234562 1234561 _ _ _));
    [lia|lia|reflexivity].
Defined.
