(* ===== verification/Generator.v ===== *)
(** * Generator: [WorkloadGenerator] of [src/generator/workload_generator.cpp] *)
From Stdlib Require Import ZArith Lia.
From Stdlib Require Import Strings.String.
From stdpp Require Import base gmap strings list sorting.
From S2P Require Import Prelude Bytes Floats Telemetry Validation Fnv Random.
Local Open Scope Z_scope.
Local Open Scope tf_scope.

Definition kNanosecondsPerSecond : Z := 1000000000.
Definition kBaseTimestampNs : Z := 1700000000000000000.
Definition kMaxDurationNs : Z := 3600 * kNanosecondsPerSecond.
Definition kMaxSensorRateHz : Z := 10000.
Definition kMaxGeneratedEvents : Z := 2000000.

Record SensorRates := {
  accelerometer_hz : Z;
  gyroscope_hz : Z;
  camera_hz : Z;
  gps_hz : Z;
  temperature_hz : Z;
  fault_monitor_hz : Z;
}.
Definition SensorRates_default : SensorRates :=
  {| accelerometer_hz := 50; gyroscope_hz := 50; camera_hz := 30; gps_hz := 10;
     temperature_hz := 1; fault_monitor_hz := 2 |}.

Record FaultInjection := {
  drop_per_million : Z;
  duplicate_per_million : Z;
  reorder_per_million : Z;
}.
Definition FaultInjection_default : FaultInjection :=
  {| drop_per_million := 0; duplicate_per_million := 0; reorder_per_million := 0 |}.

Record GeneratorConfig := {
  seed : Z;
  duration : Z;
  max_jitter : Z;
  clock_drift_ppm : Z;
  rates : SensorRates;
  faults : FaultInjection;
}.
Definition GeneratorConfig_default : GeneratorConfig :=
  {| seed := 1; duration := 1000000000; max_jitter := 0; clock_drift_ppm := 0;
     rates := SensorRates_default; faults := FaultInjection_default |}.

Record GenerationStats := {
  generated_events : Z;
  dropped_events : Z;
  duplicated_events : Z;
  reordered_pairs : Z;
}.

Record GeneratedWorkload := {
  events : list TelemetryEvent;
  gen_stats : GenerationStats;
  gen_hash : Z;
}.

(** ** The checks of the constructor: the message of the exception, if any *)

Definition validate_probability (probability : Z) (name : string) : option string :=
  return_if kProbabilityScale <? probability with Some (name ++ " cannot exceed 1000000")%string ;;
  None.

(** The loop over the rates: the exception, or the sum. *)
Fixpoint combine_rates (l : list Z) (combined_rate : Z) : string + Z :=
  match l with
  | [] => inr combined_rate
  | rate :: l' =>
      return_if kMaxSensorRateHz <? rate with
        inl "sensor rate cannot exceed 10000 Hz"%string ;;
      combine_rates l' (u64 (combined_rate + rate))
  end.

Definition rate_list (r : SensorRates) : list Z :=
  [accelerometer_hz r; gyroscope_hz r; camera_hz r; gps_hz r; temperature_hz r;
   fault_monitor_hz r].

Definition validate_config (config : GeneratorConfig) : option string :=
  return_if (duration config <=? 0) || (kMaxDurationNs <? duration config) with
    Some "duration must be between one nanosecond and one hour"%string ;;
  return_if (max_jitter config <? 0) || (kMaxDurationNs <? max_jitter config) with
    Some "maximum jitter must be between zero and one hour"%string ;;
  return_if (clock_drift_ppm config <? -1000000) || (1000000 <? clock_drift_ppm config) with
    Some "clock drift must be between -1000000 and 1000000 ppm"%string ;;
  match validate_probability (drop_per_million (faults config)) "drop probability" with
  | Some msg => Some msg
  | None =>
  match validate_probability (duplicate_per_million (faults config)) "duplicate probability" with
  | Some msg => Some msg
  | None =>
  match validate_probability (reorder_per_million (faults config)) "reorder probability" with
  | Some msg => Some msg
  | None =>
  match combine_rates (rate_list (rates config)) 0 with
  | inl msg => Some msg
  | inr combined_rate =>
      let rounded_duration_seconds :=
        u64 (u64 (Z.quot (duration config) kNanosecondsPerSecond) + 1) in
      return_if kMaxGeneratedEvents <? u64 (combined_rate * rounded_duration_seconds) with
        Some "configuration would generate more than 2000000 events"%string ;;
      None
  end end end end.

(** ** The schedule *)

Definition event_count (duration_ns rate_hz : Z) : Z :=
  return_if rate_hz =? 0 with 0 ;;
  let whole_seconds := u64 (Z.quot duration_ns kNanosecondsPerSecond) in
  let remaining_ns := u64 (Z.rem duration_ns kNanosecondsPerSecond) in
  u64 (u64 (whole_seconds * rate_hz) +
       u64 (remaining_ns * rate_hz) / u64 kNanosecondsPerSecond).

Definition scheduled_time_ns (index rate_hz : Z) : Z :=
  let whole_seconds := index / rate_hz in
  let fractional_index := index mod rate_hz in
  s64 (u64 (u64 (whole_seconds * kNanosecondsPerSecond) +
            u64 (fractional_index * kNanosecondsPerSecond) / rate_hz)).

(** Signed arithmetic; [drift_in_range] below shows that it does not overflow
    for the values the generator passes. *)
Definition apply_clock_drift (elapsed_ns drift_ppm : Z) : Z :=
  let whole_millions := Z.quot elapsed_ns kProbabilityScale in
  let remainder := Z.rem elapsed_ns kProbabilityScale in
  elapsed_ns + whole_millions * drift_ppm +
    Z.quot (remainder * drift_ppm) kProbabilityScale.

Section generator.
Context {E : Type} `{!RandomEngine E} `{!EventCodec}.
(** The generated [v1::ControllerStatus_State_Name]. *)
Context (ControllerStatus_State_Name : Z -> string).

Definition sample_jitter (max_jitter_ns : Z) : Rand (E := E) Z :=
  return_if max_jitter_ns =? 0 with rand_ret 0 ;;
  return_if Z.quot (2 ^ 63 - 1 - 1) 2 <? max_jitter_ns with
    rand_throw "maximum jitter is too large" ;;
  let width := u64 (max_jitter_ns * 2 + 1) in
  rand_bind (bounded width) (fun v => rand_ret (s64 v - max_jitter_ns)).

(** [base_event], and the payload set on it by the caller. *)
Definition base_event (producer_id_ : string) (sequence_number_ elapsed_ns : Z)
    (config : GeneratorConfig) : Rand (E := E) (Payload -> TelemetryEvent) :=
  rand_bind (sample_jitter (max_jitter config)) (fun jitter =>
  rand_ret (fun p =>
    {| schema_version := kTelemetrySchemaVersion; producer_id := producer_id_;
       sequence_number := sequence_number_;
       source_timestamp_ns :=
         kBaseTimestampNs + apply_clock_drift elapsed_ns (clock_drift_ppm config) + jitter;
       source_clock := CLOCK_DOMAIN_UTC; payload := p |})).

(** The loop of [append_periodic], [n] events left from [sequence] on. *)
Fixpoint append_periodic_loop (n : nat) (sequence : Z) (events : list TelemetryEvent)
    (producer_id_ : string) (rate_hz : Z) (config : GeneratorConfig)
    (populate_payload : Z -> Rand (E := E) Payload) : Rand (E := E) (list TelemetryEvent) :=
  match n with
  | O => rand_ret events
  | S n' =>
      rand_bind (base_event producer_id_ sequence (scheduled_time_ns sequence rate_hz) config)
        (fun event =>
      rand_bind (populate_payload sequence) (fun p =>
      append_periodic_loop n' (sequence + 1) (events ++ [event p]) producer_id_ rate_hz config
        populate_payload))
  end.

Definition append_periodic (events : list TelemetryEvent) (producer_id_ : string)
    (rate_hz : Z) (config : GeneratorConfig) (populate_payload : Z -> Rand (E := E) Payload)
    : Rand (E := E) (list TelemetryEvent) :=
  append_periodic_loop (Z.to_nat (event_count (duration config) rate_hz)) 0 events
    producer_id_ rate_hz config populate_payload.

(** The controller's states with their times. *)
Definition controller_states (duration_ns : Z) : Rand (E := E) (list (Z * Z)) :=
  let eighth := u64 (Z.max (Z.quot duration_ns 8) 1) in
  rand_bind (bounded eighth) (fun ready =>
  rand_bind (chance 500000) (fun degraded =>
  let states := [(0, STATE_INITIALIZING);
                 (Z.quot duration_ns 4 + s64 ready, STATE_READY)] in
  rand_bind
    (if degraded
     then rand_bind (bounded eighth) (fun v =>
       rand_ret (states ++ [(Z.quot (duration_ns * 5) 8 + s64 v, STATE_DEGRADED)]))
     else rand_ret states)
    (fun states => rand_ret (states ++ [(duration_ns - 1, STATE_STOPPED)])))).

Fixpoint append_states (states : list (Z * Z)) (sequence : Z) (events : list TelemetryEvent)
    (config : GeneratorConfig) : Rand (E := E) (list TelemetryEvent) :=
  match states with
  | [] => rand_ret events
  | (elapsed_ns, state) :: states' =>
      rand_bind (base_event "sim-controller" sequence elapsed_ns config) (fun event =>
      append_states states' (sequence + 1)
        (events ++ [event (kControllerStatus
           {| controller_state := state;
              controller_detail := ControllerStatus_State_Name state |})]) config)
  end.

Definition append_controller_events (events : list TelemetryEvent) (config : GeneratorConfig)
    : Rand (E := E) (list TelemetryEvent) :=
  rand_bind (controller_states (duration config)) (fun states =>
  append_states states 0 events config).

Definition fault_message_of (severity : Z) : string :=
  return_if severity =? SEVERITY_WARNING with "synthetic threshold warning" ;;
  return_if severity =? SEVERITY_ERROR with "synthetic sensor error" ;;
  return_if severity =? SEVERITY_CRITICAL with "synthetic critical fault" ;;
  "synthetic unspecified fault".

(** ** The payloads *)

Definition accelerometer_payload (sequence : Z) : Rand (E := E) Payload :=
  rand_ret (kAccelerometer
    {| vec_x := dsub (ddiv (double_of_Z (sequence mod 32)) (double_of_Z 16)) (double_of_Z 1);
       vec_y := dsub (ddiv (double_of_Z (u64 (sequence + 8) mod 32)) (double_of_Z 16))
                  (double_of_Z 1);
       vec_z := dadd (ddiv (double_of_Z 157) (double_of_Z 16))    (* 9.8125 *)
                  (ddiv (double_of_Z (sequence mod 8)) (double_of_Z 128)) |}).

Definition gyroscope_payload (sequence : Z) : Rand (E := E) Payload :=
  rand_ret (kGyroscope
    {| vec_x := ddiv (double_of_Z (sequence mod 16)) (double_of_Z 256);
       vec_y := ddiv (dopp (double_of_Z (sequence mod 8))) (double_of_Z 256);
       vec_z := ddiv (double_of_Z (sequence mod 4)) (double_of_Z 128) |}).

Definition camera_payload (sequence : Z) : Rand (E := E) Payload :=
  rand_ret (kCamera
    {| frame_number := sequence; width_pixels := 1920; height_pixels := 1080;
       exposure_time_ns := u64 (8000000 + u64 (sequence mod 4 * 250000)) |}).

Definition gps_payload (sequence : Z) : Rand (E := E) Payload :=
  rand_ret (kGps
    {| latitude_degrees :=
         dadd (ddiv (double_of_Z 237) (double_of_Z 8))            (* 29.625 *)
           (ddiv (double_of_Z sequence) (double_of_Z 65536));
       longitude_degrees :=
         dadd (dopp (ddiv (double_of_Z 659) (double_of_Z 8)))     (* -82.375 *)
           (ddiv (double_of_Z sequence) (double_of_Z 65536));
       horizontal_accuracy_meters :=
         dadd (double_of_Z 3) (ddiv (double_of_Z (sequence mod 4)) (double_of_Z 4));
       is_mocked := false |}).

Definition temperature_payload (sequence : Z) : Rand (E := E) Payload :=
  rand_ret (kTemperature
    {| degrees_celsius :=
         dadd (double_of_Z 40) (ddiv (double_of_Z (sequence mod 16)) (double_of_Z 16)) |}).

Definition fault_payload (sequence : Z) : Rand (E := E) Payload :=
  rand_bind (bounded 100) (fun roll =>
  let severity := if roll <? 70 then SEVERITY_WARNING
                  else if roll <? 95 then SEVERITY_ERROR else SEVERITY_CRITICAL in
  rand_ret (kFault
    {| fault_severity := severity; fault_code := u32 (u64 (1000 + sequence));
       fault_message := fault_message_of severity |})).

(** The base events, in the order they are appended. *)
Definition base_events (config : GeneratorConfig) : Rand (E := E) (list TelemetryEvent) :=
  let r := rates config in
  rand_bind (append_periodic [] "sim-accelerometer" (accelerometer_hz r) config
    accelerometer_payload) (fun evs =>
  rand_bind (append_periodic evs "sim-gyroscope" (gyroscope_hz r) config
    gyroscope_payload) (fun evs =>
  rand_bind (append_periodic evs "sim-camera" (camera_hz r) config camera_payload) (fun evs =>
  rand_bind (append_periodic evs "sim-gps" (gps_hz r) config gps_payload) (fun evs =>
  rand_bind (append_periodic evs "sim-temperature" (temperature_hz r) config
    temperature_payload) (fun evs =>
  rand_bind (append_periodic evs "sim-fault" (fault_monitor_hz r) config
    fault_payload) (fun evs =>
  append_controller_events evs config)))))).

(** ** Order, faults, hash *)

(** The comparison of [std::sort]; strings compare by unsigned bytes. *)
Definition event_less (left_ right_ : TelemetryEvent) : bool :=
  return_if negb (source_timestamp_ns left_ =? source_timestamp_ns right_) with
    source_timestamp_ns left_ <? source_timestamp_ns right_ ;;
  return_if negb (producer_id left_ =? producer_id right_)%string with
    (producer_id left_ <? producer_id right_)%string ;;
  sequence_number left_ <? sequence_number right_.

Definition event_le (l r : TelemetryEvent) : Prop := event_less r l = false.
#[export] Instance event_le_dec : RelDecision event_le.
Proof. intros l r. unfold event_le. apply _. Defined.

Definition sort_events (l : list TelemetryEvent) : list TelemetryEvent := merge_sort event_le l.

(** The loop that drops and duplicates; the events and counters so far. *)
Fixpoint inject_loop (faults_ : FaultInjection) (l out : list TelemetryEvent)
    (dropped duplicated : Z) : Rand (E := E) (list TelemetryEvent * Z * Z) :=
  match l with
  | [] => rand_ret (out, dropped, duplicated)
  | event :: l' =>
      rand_bind (chance (drop_per_million faults_)) (fun drop_ =>
      if drop_ then inject_loop faults_ l' out (u64 (dropped + 1)) duplicated
      else
        let out := out ++ [event] in
        rand_bind (chance (duplicate_per_million faults_)) (fun duplicate =>
        if duplicate then inject_loop faults_ l' (out ++ [event]) dropped (u64 (duplicated + 1))
        else inject_loop faults_ l' out dropped duplicated))
  end.

(** [std::swap(events[index], events[index + 1])] *)
Definition swap_at (l : list TelemetryEvent) (index : nat) : list TelemetryEvent :=
  match l !! index, l !! S index with
  | Some a, Some b => <[S index := a]> (<[index := b]> l)
  | _, _ => l
  end.

(** The loop that swaps neighbours; [n] bounds the passes. *)
Fixpoint reorder_loop (n : nat) (reorder : Z) (events : list TelemetryEvent) (index : nat)
    (pairs : Z) : Rand (E := E) (list TelemetryEvent * Z) :=
  match n with
  | O => rand_ret (events, pairs)
  | S n' =>
      return_if negb (S index <? length events)%nat with rand_ret (events, pairs) ;;
      rand_bind (chance reorder) (fun swap_ =>
      if swap_ then reorder_loop n' reorder (swap_at events index) (S (S index)) (u64 (pairs + 1))
      else reorder_loop n' reorder events (S index) pairs)
  end.

(** [stable_event_hash]; [None] is the exception of a failed serialisation. *)
Fixpoint stable_event_hash_loop (hash : Z) (l : list TelemetryEvent) : option Z :=
  match l with
  | [] => Some hash
  | event :: l' =>
      match SerializeToString event with
      | None => None
      | Some encoded =>
          stable_event_hash_loop
            (hash_bytes (hash_le_loop 8 hash (u64 (Zlength encoded))) encoded) l'
      end
  end.

Definition stable_event_hash (l : list TelemetryEvent) : option Z :=
  stable_event_hash_loop kFnvOffsetBasis l.

(** [WorkloadGenerator::generate] *)
Definition generate_events (config : GeneratorConfig)
    : Rand (E := E) (list TelemetryEvent * GenerationStats) :=
  rand_bind (base_events config) (fun base =>
  let base := sort_events base in
  rand_bind (inject_loop (faults config) base [] 0 0) (fun '(out, dropped, duplicated) =>
  rand_bind (reorder_loop (length out) (reorder_per_million (faults config)) out 0 0)
    (fun '(out, pairs) =>
  rand_ret (out, {| generated_events := u64 (Zlength base); dropped_events := dropped;
                    duplicated_events := duplicated; reordered_pairs := pairs |})))).

Definition generate (config : GeneratorConfig) : Rand (E := E) GeneratedWorkload :=
  rand_bind (generate_events config) (fun '(out, stats_) =>
  match stable_event_hash out with
  | None => rand_throw "failed to serialize generated event"
  | Some hash => rand_ret {| events := out; gen_stats := stats_; gen_hash := hash |}
  end).

(** [WorkloadGenerator{config}.generate()] *)
Definition run_generator (fuel : nat) (config : GeneratorConfig) : Outcome GeneratedWorkload :=
  match validate_config config with
  | Some msg => Throws msg
  | None =>
      match generate config fuel (seed_engine (seed config)) with
      | No_fuel => No_fuel
      | Throws msg => Throws msg
      | Returns (w, _) => Returns w
      end
  end.
End generator.

Definition payload_name (p : Payload) : string :=
  match p with
  | kAccelerometer _ => "accelerometer"
  | kGyroscope _ => "gyroscope"
  | kGps _ => "gps"
  | kTemperature _ => "temperature"
  | kCamera _ => "camera"
  | kControllerStatus _ => "controller_status"
  | kFault _ => "fault"
  | PAYLOAD_NOT_SET => "unset"
  end.

(** ** What the checks guarantee *)

Record config_ok (config : GeneratorConfig) : Prop := {
  co_duration : 1 <= duration config <= kMaxDurationNs;
  co_jitter : 0 <= max_jitter config <= kMaxDurationNs;
  co_drift : -1000000 <= clock_drift_ppm config <= 1000000;
  co_drop : drop_per_million (faults config) <= kProbabilityScale;
  co_duplicate : duplicate_per_million (faults config) <= kProbabilityScale;
  co_reorder : reorder_per_million (faults config) <= kProbabilityScale;
  co_rates : Forall (fun r => 0 <= r <= kMaxSensorRateHz) (rate_list (rates config));
  co_total : foldr Z.add 0 (rate_list (rates config)) *
    (duration config / kNanosecondsPerSecond + 1) <= kMaxGeneratedEvents;
}.

(** The field types. *)
Definition config_wf (config : GeneratorConfig) : Prop :=
  in_s64 (duration config) /\ in_s64 (max_jitter config) /\
  in_s64 (clock_drift_ppm config) /\
  Forall in_u32 (rate_list (rates config)).

Lemma combine_rates_ok l : forall acc total,
  0 <= acc -> acc + Zlength l * kMaxSensorRateHz < 2 ^ 64 -> Forall in_u32 l ->
  combine_rates l acc = inr total ->
  Forall (fun r => 0 <= r <= kMaxSensorRateHz) l /\ total = acc + foldr Z.add 0 l.
Proof.
  induction l as [|r l IH]; intros acc total Ha Hb Hl Hc; cbn [combine_rates] in Hc.
  - injection Hc as <-. split; [constructor|cbn; lia].
  - apply Forall_cons in Hl as [Hr Hl].
    destruct (Z.ltb_spec kMaxSensorRateHz r) as [|Hle]; [done|]. cbn [length] in Hb.
    unfold in_u32, kMaxSensorRateHz in *.
    rewrite u64_small in Hc by (unfold in_u64; lia).
    destruct (IH (acc + r) total ltac:(lia) ltac:(lia) Hl Hc) as [H1 ->].
    split; [constructor; [lia|done]|cbn; lia].
Qed.

Lemma combine_rates_complete l : forall acc,
  0 <= acc -> acc + Zlength l * kMaxSensorRateHz < 2 ^ 64 ->
  Forall (fun r => 0 <= r <= kMaxSensorRateHz) l ->
  combine_rates l acc = inr (acc + foldr Z.add 0 l).
Proof.
  intros acc Ha Hb Hl. revert acc Ha Hb.
  induction Hl as [|r l Hr Hl IH]; intros acc Ha Hb; cbn [combine_rates foldr].
  - f_equal. lia.
  - cbn [length] in Hb. unfold kMaxSensorRateHz in *.
    destruct (Z.ltb_spec 10000 r); [lia|].
    rewrite u64_small, IH by (unfold in_u64; lia). f_equal. lia.
Qed.

Lemma rate_sum_small r : Forall (fun r => 0 <= r <= kMaxSensorRateHz) (rate_list r) ->
  0 <= foldr Z.add 0 (rate_list r) <= 60000.
Proof.
  unfold rate_list. intros Hr. repeat (apply Forall_cons in Hr as [? Hr]).
  unfold kMaxSensorRateHz in *. cbn [foldr]. lia.
Qed.

(** The product the last check compares is the mathematical one. *)
Lemma total_small d total : 1 <= d <= kMaxDurationNs -> 0 <= total <= 60000 ->
  u64 (total * u64 (u64 (Z.quot d kNanosecondsPerSecond) + 1)) =
  total * (d / kNanosecondsPerSecond + 1).
Proof.
  unfold kMaxDurationNs. intros Hd Ht.
  assert (Hs : 0 <= d / kNanosecondsPerSecond <= 3600).
  { split; [apply Z.div_pos; unfold kNanosecondsPerSecond; lia|].
    apply Z.div_le_upper_bound; unfold kNanosecondsPerSecond in *; lia. }
  rewrite Z.quot_div_nonneg by (unfold kNanosecondsPerSecond; lia).
  rewrite (u64_small (_ / _)), (u64_small (_ + 1)), u64_small by (unfold in_u64; nia). done.
Qed.

Lemma validate_config_spec config : config_wf config ->
  validate_config config = None <-> config_ok config.
Proof.
  intros (Hd & Hj & Hdr & Hrates). unfold validate_config, validate_probability. split.
  - destruct ((duration config <=? 0) || (kMaxDurationNs <? duration config)) eqn:E1; [done|].
    destruct ((max_jitter config <? 0) || (kMaxDurationNs <? max_jitter config)) eqn:E2; [done|].
    destruct ((clock_drift_ppm config <? -1000000) || (1000000 <? clock_drift_ppm config))
      eqn:E3; [done|].
    destruct (kProbabilityScale <? drop_per_million (faults config)) eqn:E4; [done|].
    destruct (kProbabilityScale <? duplicate_per_million (faults config)) eqn:E5; [done|].
    destruct (kProbabilityScale <? reorder_per_million (faults config)) eqn:E6; [done|].
    destruct (combine_rates (rate_list (rates config)) 0) as [msg|total] eqn:Hc; [discriminate|].
    destruct (kMaxGeneratedEvents <? _) eqn:Ht; [discriminate|]. intros _. reflect_bools.
    destruct (combine_rates_ok (rate_list (rates config)) 0 total) as [Hr ->];
      [lia|cbn; unfold kMaxSensorRateHz; lia|exact Hrates|exact Hc|].
    rewrite Z.add_0_l, total_small in Ht by (lia || by apply rate_sum_small).
    constructor; done || lia.
  - intros [H1 H2 H3 H4 H5 H6 H7 H8]. pose proof (rate_sum_small _ H7) as Hs.
    rewrite (proj2 (orb_false_iff _ _)) by lia. rewrite (proj2 (orb_false_iff _ _)) by lia.
    rewrite (proj2 (orb_false_iff _ _)) by lia.
    rewrite !(proj2 (Z.ltb_ge _ _)) by done.
    rewrite combine_rates_complete, Z.add_0_l, total_small
      by (done || lia || (cbn; unfold kMaxSensorRateHz; lia)).
    by rewrite (proj2 (Z.ltb_ge _ _)).
Qed.

(** ** Arithmetic of the schedule *)

Lemma event_count_spec d r : 0 <= d <= kMaxDurationNs -> 0 <= r <= kMaxSensorRateHz ->
  event_count d r = d * r / kNanosecondsPerSecond.
Proof.
  unfold kMaxDurationNs, kMaxSensorRateHz, kNanosecondsPerSecond. intros Hd Hr.
  unfold event_count. destruct (Z.eqb_spec r 0) as [->|Hne]; [by rewrite Z.mul_0_r|].
  unfold kNanosecondsPerSecond.
  rewrite Z.quot_div_nonneg, Z.rem_mod_nonneg by lia.
  pose proof (Z.div_mod d 1000000000 ltac:(lia)) as Hdm.
  pose proof (Z.mod_pos_bound d 1000000000 ltac:(lia)) as Hm.
  assert (Hw : 0 <= d / 1000000000 <= 3600)
    by (split; [apply Z.div_pos; lia|apply Z.div_le_upper_bound; lia]).
  set (w := d / 1000000000) in *. set (m := d mod 1000000000) in *.
  rewrite (u64_small w), (u64_small m), (u64_small 1000000000) by (unfold in_u64; lia).
  rewrite (u64_small (w * r)), (u64_small (m * r)) by (unfold in_u64; nia).
  assert (Hq : 0 <= m * r / 1000000000 <= m * r).
  { split; [apply Z.div_pos; nia|]. apply Z.div_le_upper_bound; nia. }
  rewrite u64_small by (unfold in_u64; nia).
  replace (d * r) with (m * r + w * r * 1000000000) by lia.
  rewrite Z.div_add by lia. lia.
Qed.

Lemma scheduled_time_spec i r : 0 < r <= kMaxSensorRateHz -> 0 <= i < 2 ^ 31 ->
  scheduled_time_ns i r = i * kNanosecondsPerSecond / r.
Proof.
  unfold kMaxSensorRateHz, kNanosecondsPerSecond. intros Hr Hi.
  unfold scheduled_time_ns, kNanosecondsPerSecond.
  pose proof (Z.div_mod i r ltac:(lia)) as Hdm.
  pose proof (Z.mod_pos_bound i r ltac:(lia)) as Hm.
  assert (Hw : 0 <= i / r <= i)
    by (split; [apply Z.div_pos; lia|apply Z.div_le_upper_bound; nia]).
  set (w := i / r) in *. set (m := i mod r) in *.
  rewrite (u64_small (w * _)), (u64_small (m * _)) by (unfold in_u64; nia).
  assert (Hq : 0 <= m * 1000000000 / r <= m * 1000000000).
  { split; [apply Z.div_pos; nia|]. apply Z.div_le_upper_bound; nia. }
  rewrite s64_u64 by (unfold in_s64; nia).
  replace (i * 1000000000) with (m * 1000000000 + w * 1000000000 * r) by nia.
  rewrite Z.div_add by lia. lia.
Qed.

(** Every event is scheduled inside the duration, and later than the one before. *)
Lemma scheduled_time_bounds d r i : 1 <= d <= kMaxDurationNs -> 0 < r <= kMaxSensorRateHz ->
  0 <= i < event_count d r ->
  i < 2 ^ 31 /\ 0 <= scheduled_time_ns i r < d.
Proof.
  intros Hd Hr Hi. rewrite event_count_spec in Hi by lia.
  assert (Hmul : (i + 1) * kNanosecondsPerSecond <= d * r).
  { assert (i + 1 <= d * r / kNanosecondsPerSecond) by lia.
    pose proof (Z.mul_div_le (d * r) kNanosecondsPerSecond ltac:(unfold kNanosecondsPerSecond; lia)).
    unfold kNanosecondsPerSecond in *. nia. }
  unfold kMaxDurationNs, kMaxSensorRateHz, kNanosecondsPerSecond in *.
  assert (H31 : i < 2 ^ 31) by nia. split; [done|].
  rewrite scheduled_time_spec by (unfold kMaxSensorRateHz; lia).
  unfold kNanosecondsPerSecond. split; [apply Z.div_pos; lia|].
  apply Z.div_lt_upper_bound; nia.
Qed.

Lemma scheduled_time_mono d r i j : 1 <= d <= kMaxDurationNs -> 0 < r <= kMaxSensorRateHz ->
  0 <= i < j -> j < event_count d r -> scheduled_time_ns i r < scheduled_time_ns j r.
Proof.
  intros Hd Hr Hij Hj.
  destruct (scheduled_time_bounds d r j Hd Hr ltac:(lia)) as [Hj31 _].
  rewrite !scheduled_time_spec by lia.
  unfold kMaxSensorRateHz, kNanosecondsPerSecond in *.
  assert (Hstep : i * 1000000000 / r + 1 <= (i * 1000000000 + 1 * r) / r)
    by (rewrite Z.div_add by lia; lia).
  assert ((i * 1000000000 + 1 * r) / r <= j * 1000000000 / r); [|lia].
  apply Z.div_le_mono; nia.
Qed.

(** The drift in one division. *)
Lemma apply_clock_drift_spec e ppm : 0 <= e ->
  apply_clock_drift e ppm = e + Z.quot (e * ppm) kProbabilityScale.
Proof.
  intros He. unfold apply_clock_drift, kProbabilityScale.
  rewrite Z.quot_div_nonneg, Z.rem_mod_nonneg by lia.
  pose proof (Z.div_mod e 1000000 ltac:(lia)) as Hdm.
  pose proof (Z.mod_pos_bound e 1000000 ltac:(lia)) as Hm.
  pose proof (Z.div_pos e 1000000 He ltac:(lia)) as Hw.
  set (w := e / 1000000) in *. set (m := e mod 1000000) in *.
  replace (e * ppm) with (w * ppm * 1000000 + m * ppm) by nia.
  assert (Hsplit : Z.quot (w * ppm * 1000000 + m * ppm) 1000000 =
    w * ppm + Z.quot (m * ppm) 1000000); [|lia].
  destruct (Z_le_gt_dec 0 ppm).
  - rewrite !Z.quot_div_nonneg by nia. rewrite Z.add_comm, Z.div_add by lia. lia.
  - replace (w * ppm * 1000000 + m * ppm) with (- (m * - ppm + w * - ppm * 1000000)) by lia.
    replace (m * ppm) with (- (m * - ppm)) by lia.
    rewrite !Z.quot_opp_l, !Z.quot_div_nonneg, Z.div_add by nia. lia.
Qed.

(** The drifted clock never runs backwards nor more than twice as fast; all
    intermediate values fit into 64 bits. *)
Lemma drift_in_range e ppm : 0 <= e <= kMaxDurationNs -> -1000000 <= ppm <= 1000000 ->
  0 <= apply_clock_drift e ppm <= 2 * e /\
  in_s64 (Z.quot e kProbabilityScale * ppm) /\ in_s64 (Z.rem e kProbabilityScale * ppm).
Proof.
  intros He Hp. rewrite apply_clock_drift_spec by lia.
  unfold kMaxDurationNs, kNanosecondsPerSecond, kProbabilityScale in *.
  rewrite (Z.quot_div_nonneg e 1000000), (Z.rem_mod_nonneg e 1000000) by lia.
  pose proof (Z.mod_pos_bound e 1000000 ltac:(lia)) as Hm.
  assert (Hw : 0 <= e / 1000000 <= 3600000)
    by (split; [apply Z.div_pos; lia|apply Z.div_le_upper_bound; lia]).
  split; [|unfold in_s64; nia].
  destruct (Z_le_gt_dec 0 ppm).
  - rewrite Z.quot_div_nonneg by nia. split; [|].
    + pose proof (Z.div_pos (e * ppm) 1000000). nia.
    + pose proof (Z.div_le_upper_bound (e * ppm) 1000000 e). nia.
  - replace (e * ppm) with (- (e * - ppm)) by lia.
    rewrite Z.quot_opp_l, Z.quot_div_nonneg by nia.
    pose proof (Z.div_pos (e * - ppm) 1000000).
    pose proof (Z.div_le_upper_bound (e * - ppm) 1000000 e). nia.
Qed.

Lemma drift_mono e e' ppm : 0 <= e <= e' -> -1000000 <= ppm <= 1000000 ->
  apply_clock_drift e ppm <= apply_clock_drift e' ppm.
Proof.
  intros He Hp. rewrite !apply_clock_drift_spec by lia. unfold kProbabilityScale.
  destruct (Z_le_gt_dec 0 ppm).
  - rewrite !Z.quot_div_nonneg by nia.
    pose proof (Z.div_le_mono (e * ppm) (e' * ppm) 1000000). nia.
  - replace (e * ppm) with (- (e * - ppm)) by lia.
    replace (e' * ppm) with (- (e' * - ppm)) by lia.
    rewrite !Z.quot_opp_l, !Z.quot_div_nonneg by nia.
    assert ((e' * - ppm) / 1000000 <= (e * - ppm + (e' - e) * 1000000) / 1000000)
      by (apply Z.div_le_mono; nia).
    rewrite Z.div_add in * by lia. lia.
Qed.
