(* ===== verification/Workload.v ===== *)
(** * Workload: what [WorkloadGenerator::generate] produces

    For a configuration the constructor accepts and an engine that does not get
    stuck: the generator returns; its base events are those of the schedule, each
    one acceptable to [StreamValidator]; sorting, fault injection and reordering
    do what the counters say. *)
From Stdlib Require Import ZArith Lia SpecFloat.
From Stdlib Require Import Strings.String.
From stdpp Require Import base gmap strings list sorting.
From S2P Require Import Prelude Bytes Floats Dyadic Telemetry Validation Fnv Random Generator.
Local Open Scope Z_scope.
Local Open Scope tf_scope.

(** ** The payloads are valid *)

Definition good_double (x : double) : bool := isfinite x && valid_binary dbl_prec dbl_emax x.

Definition payload_good (p : Payload) : Prop := payload_wf p /\ payload_admissible p.

Lemma good_double_spec x : good_double x = true <-> isfinite x = true /\ double_wf x.
Proof. apply andb_true_iff. Qed.

(** A check of all residues is a check of all numbers. *)
Lemma check_residues (f : Z -> double) (n : nat) :
  forallb (fun z => good_double (f z)) (seqZ 0 (Z.of_nat n)) = true ->
  forall z, 0 < Z.of_nat n -> isfinite (f (z mod Z.of_nat n)) = true /\
    double_wf (f (z mod Z.of_nat n)).
Proof.
  intros Hall z Hn. apply good_double_spec. rewrite forallb_forall in Hall. apply Hall.
  apply list_elem_of_In, elem_of_seqZ. pose proof (Z.mod_pos_bound z (Z.of_nat n)). lia.
Qed.

(** GPS coordinates: exact, and inside the globe for every sequence number a
    configuration can reach. *)
Lemma gps_coordinate (a : Z) (seq : Z) : Z.abs a < 2 ^ 40 -> a <> 0 ->
  0 <= seq < kMaxGeneratedEvents ->
  dadd (dyadic a (-16)) (ddiv (double_of_Z seq) (double_of_Z 65536)) = dyadic (a + seq) (-16).
Proof.
  intros Ha Hne Hs. unfold kMaxGeneratedEvents in Hs.
  rewrite !dyadic_of_Z. change 65536 with (2 ^ Z.of_nat 16).
  rewrite dyadic_div by lia. change (0 - Z.of_nat 16) with (-16).
  apply dyadic_add; lia.
Qed.

Lemma dyadic_between lo hi m : -1000 <= lo -> hi <= 1000 ->
  lo * 65536 <= m <= hi * 65536 -> double_between lo hi (dyadic m (-16)).
Proof.
  intros Hlo Hhi Hm. split; [apply dyadic_finite; lia|].
  rewrite dyadic_dval by lia. unfold dval_of_Z.
  change (-16 + 1074) with 1058. replace (2 ^ 1074) with (65536 * 2 ^ 1058)
    by (change 65536 with (2 ^ 16); rewrite <- Z.pow_add_r by lia; done).
  pose proof (Z.pow_pos_nonneg 2 1058 ltac:(lia) ltac:(lia)) as Hp.
  remember (2 ^ 1058) as x eqn:Ex. clear Ex. nia.
Qed.

Lemma gps_good seq : 0 <= seq < kMaxGeneratedEvents ->
  payload_good (kGps
    {| latitude_degrees :=
         dadd (ddiv (double_of_Z 237) (double_of_Z 8))
           (ddiv (double_of_Z seq) (double_of_Z 65536));
       longitude_degrees :=
         dadd (dopp (ddiv (double_of_Z 659) (double_of_Z 8)))
           (ddiv (double_of_Z seq) (double_of_Z 65536));
       horizontal_accuracy_meters :=
         dadd (double_of_Z 3) (ddiv (double_of_Z (seq mod 4)) (double_of_Z 4));
       is_mocked := false |}).
Proof.
  intros Hs.
  replace (ddiv (double_of_Z 237) (double_of_Z 8)) with (dyadic 1941504 (-16)) by (by vm_compute).
  replace (dopp (ddiv (double_of_Z 659) (double_of_Z 8))) with (dyadic (-5398528) (-16))
    by (by vm_compute).
  rewrite !gps_coordinate by (done || lia).
  pose proof (Z.mod_pos_bound seq 4 ltac:(lia)) as H4.
  unfold kMaxGeneratedEvents in Hs.
  assert (Hacc : dadd (double_of_Z 3) (ddiv (double_of_Z (seq mod 4)) (double_of_Z 4)) =
    dyadic (12 + seq mod 4) (-2)).
  { assert (H : seq mod 4 = 0 \/ seq mod 4 = 1 \/ seq mod 4 = 2 \/ seq mod 4 = 3) by lia.
    destruct H as [->|[->|[->| ->]]]; by vm_compute. }
  rewrite Hacc. split; cbn [payload_wf payload_admissible latitude_degrees longitude_degrees
    horizontal_accuracy_meters].
  - split_and!; apply dyadic_wf; lia.
  - split_and!; [apply dyadic_between; lia..|apply dyadic_finite; lia|].
    rewrite dyadic_dval by lia. change (-2 + 1074) with 1072.
    pose proof (Z.pow_pos_nonneg 2 1072 ltac:(lia) ltac:(lia)). nia.
Qed.

Lemma accelerometer_good seq :
  payload_good (kAccelerometer
    {| vec_x := dsub (ddiv (double_of_Z (seq mod 32)) (double_of_Z 16)) (double_of_Z 1);
       vec_y := dsub (ddiv (double_of_Z (u64 (seq + 8) mod 32)) (double_of_Z 16))
                  (double_of_Z 1);
       vec_z := dadd (ddiv (double_of_Z 157) (double_of_Z 16))
                  (ddiv (double_of_Z (seq mod 8)) (double_of_Z 128)) |}).
Proof.
  assert (H1 : forall z, _) by
    exact (check_residues (fun z => dsub (ddiv (double_of_Z z) (double_of_Z 16)) (double_of_Z 1))
      32 ltac:(by vm_compute)).
  assert (H2 : forall z, _) by
    exact (check_residues (fun z => dadd (ddiv (double_of_Z 157) (double_of_Z 16))
      (ddiv (double_of_Z z) (double_of_Z 128))) 8 ltac:(by vm_compute)).
  destruct (H1 seq ltac:(lia)), (H1 (u64 (seq + 8)) ltac:(lia)), (H2 seq ltac:(lia)).
  split; split_and!; done.
Qed.

Lemma gyroscope_good seq :
  payload_good (kGyroscope
    {| vec_x := ddiv (double_of_Z (seq mod 16)) (double_of_Z 256);
       vec_y := ddiv (dopp (double_of_Z (seq mod 8))) (double_of_Z 256);
       vec_z := ddiv (double_of_Z (seq mod 4)) (double_of_Z 128) |}).
Proof.
  destruct (check_residues (fun z => ddiv (double_of_Z z) (double_of_Z 256)) 16
    ltac:(by vm_compute) seq ltac:(lia)).
  destruct (check_residues (fun z => ddiv (dopp (double_of_Z z)) (double_of_Z 256)) 8
    ltac:(by vm_compute) seq ltac:(lia)).
  destruct (check_residues (fun z => ddiv (double_of_Z z) (double_of_Z 128)) 4
    ltac:(by vm_compute) seq ltac:(lia)).
  split; split_and!; done.
Qed.

Lemma temperature_good seq :
  payload_good (kTemperature
    {| degrees_celsius :=
         dadd (double_of_Z 40) (ddiv (double_of_Z (seq mod 16)) (double_of_Z 16)) |}).
Proof.
  destruct (check_residues (fun z => dadd (double_of_Z 40)
    (ddiv (double_of_Z z) (double_of_Z 16))) 16 ltac:(by vm_compute) seq ltac:(lia)).
  by split.
Qed.

Lemma camera_good seq : 0 <= seq < kMaxGeneratedEvents ->
  payload_good (kCamera
    {| frame_number := seq; width_pixels := 1920; height_pixels := 1080;
       exposure_time_ns := u64 (8000000 + u64 (seq mod 4 * 250000)) |}).
Proof.
  unfold kMaxGeneratedEvents. intros Hs. split; [|by split].
  split_and!; [unfold in_u64; cbn; lia|by vm_compute..|apply u64_range].
Qed.

Lemma fault_good roll seq :
  let severity := if roll <? 70 then SEVERITY_WARNING
                  else if roll <? 95 then SEVERITY_ERROR else SEVERITY_CRITICAL in
  payload_good (kFault
    {| fault_severity := severity; fault_code := u32 (u64 (1000 + seq));
       fault_message := fault_message_of severity |}).
Proof.
  cbv zeta. split; [apply u32_range|].
  destruct (roll <? 70), (roll <? 95); by vm_compute.
Qed.

(** ** What the generator computes *)

(** Event number [i] of producer [p], scheduled at [t]. *)
Record event_of (config : GeneratorConfig) (p : string) (i t : Z) (ev : TelemetryEvent)
    : Prop := {
  eo_schema : schema_version ev = kTelemetrySchemaVersion;
  eo_producer : producer_id ev = p;
  eo_sequence : sequence_number ev = i;
  eo_clock : source_clock ev = CLOCK_DOMAIN_UTC;
  eo_time : exists jitter, - max_jitter config <= jitter <= max_jitter config /\
    source_timestamp_ns ev =
      kBaseTimestampNs + apply_clock_drift t (clock_drift_ppm config) + jitter;
  eo_payload : payload_good (payload ev);
}.

(** The events of a producer from number [i] on, for a list of times. *)
Inductive series (config : GeneratorConfig) (p : string)
    : Z -> list Z -> list TelemetryEvent -> Prop :=
  | series_nil i : series config p i [] []
  | series_cons i t ts ev evs :
      event_of config p i t ev -> series config p (i + 1) ts evs ->
      series config p i (t :: ts) (ev :: evs).

Definition schedule (config : GeneratorConfig) (rate : Z) : list Z :=
  (fun i => scheduled_time_ns i rate) <$> seqZ 0 (event_count (duration config) rate).

(** The rates sum up, over the whole seconds begun, to at most two million. *)
Lemma rates_sum_bounds (l : list Z) : Forall (fun r => 0 <= r <= kMaxSensorRateHz) l ->
  0 <= foldr Z.add 0 l /\ forall r, r ∈ l -> 0 <= r <= foldr Z.add 0 l.
Proof.
  induction 1 as [|x l Hx Hl [IH1 IH2]]; cbn [foldr]; [split; [lia|intros r []%elem_of_nil]|].
  split; [lia|]. intros r [->|Hr]%elem_of_cons; [lia|]. specialize (IH2 r Hr). lia.
Qed.

Lemma event_count_le d r : 0 <= d <= kMaxDurationNs -> 0 <= r <= kMaxSensorRateHz ->
  0 <= event_count d r <= r * (d / kNanosecondsPerSecond + 1).
Proof.
  intros Hd Hr. rewrite event_count_spec by done.
  pose proof (Z.mul_succ_div_gt d kNanosecondsPerSecond ltac:(done)) as H.
  unfold kNanosecondsPerSecond in *. split; [apply Z.div_pos; lia|].
  apply Z.div_le_upper_bound; [lia|]. nia.
Qed.

Lemma count_bounds config r : config_ok config -> r ∈ rate_list (rates config) ->
  0 <= event_count (duration config) r <= kMaxGeneratedEvents.
Proof.
  intros Hok Hr. pose proof (co_duration _ Hok) as Hd. pose proof (co_rates _ Hok) as Hrs.
  pose proof (co_total _ Hok) as Ht.
  pose proof (proj2 (rates_sum_bounds _ Hrs) r Hr) as Hle.
  rewrite Forall_forall in Hrs.
  pose proof (event_count_le (duration config) r ltac:(lia)
    (Hrs r Hr)) as Hc.
  assert (0 <= duration config / kNanosecondsPerSecond) by (apply Z.div_pos; [lia|done]).
  nia.
Qed.

(** The producers with their times; [states] are those of the controller. *)
Definition streams (config : GeneratorConfig) (states : list Z) : list (string * list Z) :=
  let r := rates config in
  [("sim-accelerometer", schedule config (accelerometer_hz r));
   ("sim-gyroscope", schedule config (gyroscope_hz r));
   ("sim-camera", schedule config (camera_hz r));
   ("sim-gps", schedule config (gps_hz r));
   ("sim-temperature", schedule config (temperature_hz r));
   ("sim-fault", schedule config (fault_monitor_hz r));
   ("sim-controller", states)]%string.

Fixpoint nondecreasing (lo : Z) (l : list Z) : Prop :=
  match l with [] => True | t :: l' => lo <= t /\ nondecreasing t l' end.

(** The times of the controller: three or four, in order, inside the duration. *)
Definition states_ok (d : Z) (ts : list Z) : Prop :=
  (3 <= length ts <= 4)%nat /\ nondecreasing 0 ts /\ Forall (fun t => 0 <= t < d) ts.

Definition base_ok (config : GeneratorConfig) (states : list Z)
    (base : list TelemetryEvent) : Prop :=
  states_ok (duration config) states /\
  exists parts, base = concat parts /\
    Forall2 (fun st evs => series config st.1 0 st.2 evs) (streams config states) parts.

Section triples.
Context {E : Type} `{!RandomEngine E} `{!EventCodec}.
Context (ControllerStatus_State_Name : Z -> string).
(** The names of the states are short. *)
Context (Hname : forall state, str_size (ControllerStatus_State_Name state) <= kMaxDetailBytes).
Context (config : GeneratorConfig) (Hok : config_ok config).

Lemma sample_jitter_returns :
  returns (E := E) (sample_jitter (max_jitter config))
    (fun j => - max_jitter config <= j <= max_jitter config).
Proof.
  pose proof (co_jitter _ Hok) as Hj. unfold kMaxDurationNs, kNanosecondsPerSecond in Hj.
  unfold sample_jitter. destruct (Z.eqb_spec (max_jitter config) 0); [apply returns_ret; lia|].
  change (Z.quot (2 ^ 63 - 1 - 1) 2) with (2 ^ 62 - 1).
  destruct (Z.ltb_spec (2 ^ 62 - 1) (max_jitter config)); [lia|].
  rewrite u64_small by (unfold in_u64; lia).
  eapply returns_bind; [apply bounded_returns; unfold in_u64; lia|].
  intros v Hv. cbv beta in Hv. apply returns_ret.
  rewrite s64_small by (unfold in_s64; lia). lia.
Qed.

Lemma base_event_returns p i t :
  returns (E := E) (base_event p i t config)
    (fun f => forall pl, payload_good pl -> event_of config p i t (f pl)).
Proof.
  eapply returns_bind; [apply sample_jitter_returns|].
  intros j Hj. apply returns_ret. intros pl Hpl. constructor; try done. by exists j.
Qed.

Lemma series_snoc p i ts evs t ev :
  series config p i ts evs -> event_of config p (i + Zlength evs) t ev ->
  series config p i (ts ++ [t]) (evs ++ [ev]).
Proof.
  induction 1 as [i|i t' ts ev' evs He Hs IH]; intros Hev; cbn [length app] in *.
  - rewrite Z.add_0_r in Hev. constructor; [done|constructor].
  - constructor; [done|]. apply IH. by replace (i + 1 + Zlength evs) with
      (i + Z.of_nat (S (length evs))) by lia.
Qed.

(** The payload functions set a valid payload. *)
Definition populates (f : Z -> Rand (E := E) Payload) : Prop :=
  forall i, 0 <= i < kMaxGeneratedEvents -> returns (f i) payload_good.

Lemma append_periodic_loop_returns p rate populate n : populates populate ->
  forall i evs, 0 <= i -> i + Z.of_nat n <= kMaxGeneratedEvents ->
  returns (append_periodic_loop n i evs p rate config populate)
    (fun out => exists new, out = evs ++ new /\
       series config p i ((fun k => scheduled_time_ns k rate) <$> seqZ i (Z.of_nat n)) new).
Proof.
  intros Hpop. induction n as [|n IH]; intros i evs Hi Hn; cbn [append_periodic_loop].
  - apply returns_ret. exists []. rewrite app_nil_r. split; [done|constructor].
  - eapply returns_bind; [apply base_event_returns|]. intros f Hf.
    eapply returns_bind; [apply Hpop; lia|]. intros pl Hpl.
    eapply returns_weaken; [apply IH; lia|]. intros out (new & -> & Hs).
    exists (f pl :: new). rewrite <- app_assoc. split; [done|].
    rewrite seqZ_cons by lia. replace (Z.pred (Z.of_nat (S n))) with (Z.of_nat n) by lia.
    replace (Z.succ i) with (i + 1) by lia. cbn [fmap list_fmap]. constructor; auto.
Qed.

Lemma append_periodic_returns p rate populate evs : populates populate ->
  rate ∈ rate_list (rates config) ->
  returns (append_periodic evs p rate config populate)
    (fun out => exists new, out = evs ++ new /\ series config p 0 (schedule config rate) new).
Proof.
  intros Hpop Hr. unfold append_periodic, schedule.
  pose proof (count_bounds _ rate Hok Hr) as Hc.
  eapply returns_weaken; [apply append_periodic_loop_returns; [done|lia|lia]|].
  intros out (new & -> & Hs). exists new. by rewrite Z2Nat.id in Hs by lia.
Qed.

Lemma controller_states_returns :
  returns (E := E) (controller_states (duration config))
    (fun states => states_ok (duration config) states.*1 /\
       Forall (fun st => STATE_INITIALIZING <= st.2 <= STATE_STOPPED) states).
Proof.
  pose proof (co_duration _ Hok) as Hd. unfold kMaxDurationNs, kNanosecondsPerSecond in Hd.
  set (d := duration config) in *. unfold controller_states.
  rewrite !Z.quot_div_nonneg by lia.
  assert (H8 : 0 <= d / 8) by (apply Z.div_pos; lia).
  pose proof (Z.mul_div_le d 8 ltac:(lia)) as H8'.
  pose proof (Z.mul_div_le d 4 ltac:(lia)). pose proof (Z.div_pos d 4 ltac:(lia) ltac:(lia)).
  pose proof (Z.mul_div_le (d * 5) 8 ltac:(lia)).
  pose proof (Z.mul_succ_div_gt d 8 ltac:(lia)). pose proof (Z.mul_succ_div_gt d 4 ltac:(lia)).
  pose proof (Z.mul_succ_div_gt (d * 5) 8 ltac:(lia)).
  rewrite u64_small by (unfold in_u64; lia).
  assert (Hs : forall v, 0 <= v < Z.max (d / 8) 1 -> s64 v = v)
    by (intros v Hv; apply s64_small; unfold in_s64; lia).
  eapply returns_bind; [apply bounded_returns; unfold in_u64; lia|]. intros r Hr. cbv beta in Hr.
  eapply returns_bind; [apply chance_returns|]. intros deg _.
  apply (returns_bind _ _ (fun states => exists rest, states.*1 = [0; d / 4 + r] ++ rest /\
    (rest = [] \/ exists v, 0 <= v < Z.max (d / 8) 1 /\ rest = [d * 5 / 8 + v]) /\
    Forall (fun st => STATE_INITIALIZING <= st.2 <= STATE_STOPPED) states)).
  - destruct deg.
    + eapply returns_bind; [apply bounded_returns; unfold in_u64; lia|]. intros v Hv. cbv beta in Hv.
      apply returns_ret. exists [d * 5 / 8 + v]. cbn. rewrite !Hs by lia.
      split; [done|split; [right|by repeat constructor]]. exists v. split; [lia|done].
    + apply returns_ret. exists []. cbn. rewrite Hs by lia.
      split; [done|]. split; [by left|]. by repeat constructor.
  - intros states (rest & Hst & Hrest & Hval). apply returns_ret.
    split; [|apply Forall_app; split; [done|by repeat constructor]].
    rewrite fmap_app, Hst. unfold states_ok.
    destruct Hrest as [->|(v & Hv & ->)]; cbn; split_and!; try lia;
      repeat (apply Forall_cons; split; [lia|]); constructor.
Qed.

Lemma append_states_returns states : forall i evs,
  Forall (fun st => STATE_INITIALIZING <= st.2 <= STATE_STOPPED) states ->
  returns (append_states ControllerStatus_State_Name states i evs config)
    (fun out => exists new, out = evs ++ new /\
       series config "sim-controller" i states.*1 new).
Proof.
  induction states as [|[t st] states IH]; intros i evs Hst; cbn [append_states].
  - apply returns_ret. exists []. rewrite app_nil_r. split; [done|constructor].
  - eapply returns_bind; [apply base_event_returns|]. intros f Hf.
    apply Forall_cons in Hst as [Hst0 Hst].
    eapply returns_weaken; [by apply IH|]. intros out (new & -> & Hs).
    eexists (_ :: new). rewrite <- app_assoc. split; [done|].
    cbn [fmap list_fmap fst]. constructor; [|exact Hs]. apply Hf.
    split; [done|]. split; [exact Hst0|apply Hname].
Qed.

Lemma payloads_populate :
  populates accelerometer_payload /\ populates gyroscope_payload /\
  populates camera_payload /\ populates gps_payload /\
  populates temperature_payload /\ populates fault_payload.
Proof.
  split_and!; intros i Hi.
  - apply returns_ret, accelerometer_good.
  - apply returns_ret, gyroscope_good.
  - apply returns_ret. by apply camera_good.
  - apply returns_ret. by apply gps_good.
  - apply returns_ret, temperature_good.
  - eapply returns_bind; [apply bounded_returns; solve_range|]. intros v _.
    apply returns_ret, fault_good.
Qed.

Lemma base_events_returns :
  returns (base_events ControllerStatus_State_Name config)
    (fun base => exists states, base_ok config states base).
Proof.
  destruct payloads_populate as (P1 & P2 & P3 & P4 & P5 & P6).
  assert (Hr : forall i r, rate_list (rates config) !! i = Some r ->
    r ∈ rate_list (rates config)) by (intros i r; apply list_elem_of_lookup_2).
  unfold base_events.
  eapply returns_bind; [apply append_periodic_returns; [done|by apply (Hr 0%nat)]|].
  intros ? (e1 & -> & S1).
  eapply returns_bind; [apply append_periodic_returns; [done|by apply (Hr 1%nat)]|].
  intros ? (e2 & -> & S2).
  eapply returns_bind; [apply append_periodic_returns; [done|by apply (Hr 2%nat)]|].
  intros ? (e3 & -> & S3).
  eapply returns_bind; [apply append_periodic_returns; [done|by apply (Hr 3%nat)]|].
  intros ? (e4 & -> & S4).
  eapply returns_bind; [apply append_periodic_returns; [done|by apply (Hr 4%nat)]|].
  intros ? (e5 & -> & S5).
  eapply returns_bind; [apply append_periodic_returns; [done|by apply (Hr 5%nat)]|].
  intros ? (e6 & -> & S6).
  eapply returns_bind; [apply controller_states_returns|]. intros states [Hst Hval].
  eapply returns_weaken; [by apply append_states_returns|]. intros ? (e7 & -> & S7).
  exists states.*1. split; [done|]. exists [e1; e2; e3; e4; e5; e6; e7].
  split; [cbn; by rewrite app_nil_r, <- !app_assoc|].
  unfold streams. repeat constructor; done.
Qed.
End triples.

(** ** Fault injection *)

(** Events dropped and duplicated, with their numbers. *)
Inductive injected : list TelemetryEvent -> list TelemetryEvent -> Z -> Z -> Prop :=
  | injected_nil : injected [] [] 0 0
  | injected_drop e l out d u : injected l out d u -> injected (e :: l) out (d + 1) u
  | injected_keep e l out d u : injected l out d u -> injected (e :: l) (e :: out) d u
  | injected_twice e l out d u :
      injected l out d u -> injected (e :: l) (e :: e :: out) d (u + 1).

Lemma injected_facts l out d u : injected l out d u ->
  Zlength out = Zlength l - d + u /\ 0 <= d /\ 0 <= u /\ d + u <= Zlength l /\
  (forall e, e ∈ out -> e ∈ l).
Proof.
  induction 1 as [|e l out d u H (H1 & H2 & H3 & H4 & H5)|e l out d u H (H1 & H2 & H3 & H4 & H5)|
    e l out d u H (H1 & H2 & H3 & H4 & H5)]; cbn [length]; split_and!; try lia.
  - done.
  - intros x Hx. right. auto.
  - intros x [->|Hx]%elem_of_cons; [left|right; auto].
  - intros x [->|[->|Hx]%elem_of_cons]%elem_of_cons; [left|left|right; auto].
Qed.

(** Disjoint neighbours swapped, with their number. *)
Inductive swapped : list TelemetryEvent -> list TelemetryEvent -> Z -> Prop :=
  | swapped_nil : swapped [] [] 0
  | swapped_keep a l out k : swapped l out k -> swapped (a :: l) (a :: out) k
  | swapped_swap a b l out k : swapped l out k -> swapped (a :: b :: l) (b :: a :: out) (k + 1).

Lemma swapped_facts l out k : swapped l out k ->
  out ≡ₚ l /\ 0 <= k /\ 2 * k <= Zlength l.
Proof.
  induction 1 as [|a l out k H (H1 & H2 & H3)|a b l out k H (H1 & H2 & H3)];
    cbn [length]; split_and!; try lia; [done|by constructor|].
  rewrite H1. apply Permutation_swap.
Qed.

(** The same, told by the positions: how often each event is in the output, and
    where the swaps began. *)
Definition copies {A} (counts : list nat) (l : list A) : list A :=
  concat (zip_with replicate counts l).

Definition times_seen (n : nat) (counts : list nat) : Z :=
  Zlength (filter (fun k => k = n) counts).

Definition swap_all (l : list TelemetryEvent) (swaps : list nat) : list TelemetryEvent :=
  foldl swap_at l swaps.

Lemma times_seen_cons n k counts :
  times_seen n (k :: counts) = (if decide (k = n) then 1 else 0) + times_seen n counts.
Proof. unfold times_seen. rewrite filter_cons. case_decide; cbn [length]; lia. Qed.

Lemma injected_copies l out d u : injected l out d u -> exists counts,
  length counts = length l /\ Forall (fun n => (n <= 2)%nat) counts /\
  out = copies counts l /\ d = times_seen 0 counts /\ u = times_seen 2 counts.
Proof.
  induction 1 as [|e l out d u _ (c & H1 & H2 & -> & -> & ->)|
    e l out d u _ (c & H1 & H2 & -> & -> & ->)|e l out d u _ (c & H1 & H2 & -> & -> & ->)];
    [by exists []|exists (0%nat :: c)|exists (1%nat :: c)|exists (2%nat :: c)];
    rewrite !times_seen_cons; cbn [length]; split_and!;
    first [reflexivity|lia|constructor; [lia|done]|repeat destruct (decide _); first [done|lia]].
Qed.

Lemma swap_all_cons a l swaps : swap_all (a :: l) (S <$> swaps) = a :: swap_all l swaps.
Proof.
  revert l; induction swaps as [|i swaps IH]; intros l; [done|].
  cbn [fmap list_fmap swap_all foldl]. unfold swap_all in IH. rewrite <- IH. f_equal.
  unfold swap_at. cbn [lookup list_lookup]. destruct (l !! i); [|done]. by destruct (l !! S i).
Qed.

Lemma swapped_swaps l out k : swapped l out k -> exists swaps,
  StronglySorted (fun i j => (S i < j)%nat) swaps /\
  Forall (fun i => (S i < length l)%nat) swaps /\
  Zlength swaps = k /\ out = swap_all l swaps.
Proof.
  assert (Hshift : forall n sw, StronglySorted (fun i j => (S i < j)%nat) sw ->
    StronglySorted (fun i j => (S i < j)%nat) ((fun i => n + i)%nat <$> sw)).
  { intros n sw. induction 1 as [|i sw Hs IH Hf]; cbn; constructor; [done|].
    apply Forall_fmap. eapply Forall_impl; [exact Hf|]. cbn. lia. }
  induction 1 as [|a l out k _ (sw & H1 & H2 & <- & ->)|a b l out k _ (sw & H1 & H2 & <- & ->)].
  - exists []. split_and!; [constructor|done..].
  - exists (S <$> sw). rewrite length_fmap. split_and!; [by apply (Hshift 1%nat)| |done|].
    + apply Forall_fmap. eapply Forall_impl; [exact H2|]. cbn. lia.
    + by rewrite swap_all_cons.
  - exists (0%nat :: (S <$> (S <$> sw))). cbn [length]. rewrite !length_fmap. split_and!; [| |lia|].
    + constructor; [by apply (Hshift 1%nat), (Hshift 1%nat)|].
      rewrite <- list_fmap_compose. apply Forall_fmap, Forall_forall. cbn. lia.
    + constructor; [lia|]. rewrite <- list_fmap_compose. apply Forall_fmap.
      eapply Forall_impl; [exact H2|]. cbn. lia.
    + change (swap_all (a :: b :: l) (0%nat :: (S <$> (S <$> sw)))) with
        (swap_all (b :: a :: l) (S <$> (S <$> sw))). by rewrite !swap_all_cons.
Qed.

Section faults.
Context {E : Type} `{!RandomEngine E}.

Lemma inject_loop_returns f l : forall out d u, in_u64 d -> in_u64 u ->
  returns (E := E) (inject_loop f l out d u)
    (fun '(out', d', u') => exists new dn un, injected l new dn un /\
       out' = out ++ new /\ d' = u64 (d + dn) /\ u' = u64 (u + un) /\
       (drop_per_million f <= 0 -> dn = 0) /\ (duplicate_per_million f <= 0 -> un = 0) /\
       (drop_per_million f <= 0 -> duplicate_per_million f <= 0 -> new = l) /\
       (kProbabilityScale <= drop_per_million f -> dn = Zlength l) /\
       (drop_per_million f <= 0 -> kProbabilityScale <= duplicate_per_million f ->
          un = Zlength l)).
Proof.
  induction l as [|e l IH]; intros out d u Hd0 Hu0; cbn [inject_loop].
  { apply returns_ret. exists [], 0, 0. rewrite app_nil_r, !Z.add_0_r, !u64_small by done.
    split_and!; try done. constructor. }
  eapply returns_bind; [apply chance_returns|]. intros drop_ [Hdz Hdf]. destruct drop_.
  { eapply returns_weaken; [apply IH; auto using u64_range|].
    intros [[out' d'] u'] (new & dn & un & Hi & -> & Hd & Hu & Hz1 & Hz2 & Hn & Ha & Hb).
    exists new, (dn + 1), un. rewrite u64_add_l in Hd.
    split_and!; [by constructor|done|rewrite Hd; f_equal; lia|done| |exact Hz2|..].
    - intros Hle. by specialize (Hdz Hle).
    - intros Hle. by specialize (Hdz Hle).
    - intros Hge. cbn [length]. rewrite (Ha Hge). lia.
    - intros Hle. by specialize (Hdz Hle). }
  eapply returns_bind; [apply chance_returns|]. intros dup [Huz Huf]. destruct dup.
  - eapply returns_weaken; [apply IH; auto using u64_range|].
    intros [[out' d'] u'] (new & dn & un & Hi & -> & Hd & Hu & Hz1 & Hz2 & Hn & Ha & Hb).
    exists (e :: e :: new), dn, (un + 1). rewrite u64_add_l in Hu. rewrite <- !app_assoc.
    split_and!; [by constructor|done|done|rewrite Hu; f_equal; lia|exact Hz1|..].
    + intros Hle. by specialize (Huz Hle).
    + intros _ Hle. by specialize (Huz Hle).
    + intros Hge. by specialize (Hdf Hge).
    + intros Hle Hge. cbn [length]. rewrite (Hb Hle Hge). lia.
  - eapply returns_weaken; [apply IH; auto using u64_range|].
    intros [[out' d'] u'] (new & dn & un & Hi & -> & Hd & Hu & Hz1 & Hz2 & Hn & Ha & Hb).
    exists (e :: new), dn, un. rewrite <- app_assoc.
    split_and!; [by constructor|done|done|done|exact Hz1|exact Hz2|..].
    + intros. f_equal. auto.
    + intros Hge. by specialize (Hdf Hge).
    + intros _ Hge. by specialize (Huf Hge).
Qed.

(** A swap inside the list, seen from the position. *)
Lemma swap_at_split pre a b rest :
  swap_at (pre ++ a :: b :: rest) (length pre) = pre ++ b :: a :: rest.
Proof.
  unfold swap_at. rewrite (list_lookup_middle pre (b :: rest) a (length pre)) by done.
  replace (pre ++ a :: b :: rest) with ((pre ++ [a]) ++ b :: rest) at 1
    by (by rewrite <- app_assoc).
  rewrite (list_lookup_middle (pre ++ [a]) rest b (S (length pre)))
    by (rewrite length_app; cbn; lia).
  rewrite <- (Nat.add_0_r (length pre)) at 2. rewrite insert_app_r. cbn [insert list_insert].
  replace (S (length pre)) with (length pre + 1)%nat by lia. by rewrite insert_app_r.
Qed.

Lemma reorder_loop_returns p n : forall pre rest k,
  (length rest <= n)%nat -> in_u64 k ->
  returns (E := E) (reorder_loop n p (pre ++ rest) (length pre) k)
    (fun '(out, k') => exists new kn, swapped rest new kn /\ out = pre ++ new /\
       k' = u64 (k + kn) /\ (p <= 0 -> new = rest /\ kn = 0) /\
       (kProbabilityScale <= p -> kn = Zlength rest / 2)).
Proof.
  revert p. induction n as [n IHn] using lt_wf_ind. intros p pre rest k Hn Hk0.
  assert (Hdone : (length rest <= 1)%nat -> returns (E := E) (rand_ret (pre ++ rest, k))
    (fun '(out, k') => exists new kn, swapped rest new kn /\ out = pre ++ new /\
       k' = u64 (k + kn) /\ (p <= 0 -> new = rest /\ kn = 0) /\
       (kProbabilityScale <= p -> kn = Zlength rest / 2))).
  { intros Hl. apply returns_ret. exists rest, 0. rewrite Z.add_0_r, u64_small by done. split_and!; try done.
    - destruct rest as [|a [|b rest]]; [repeat constructor..|cbn in Hl; lia].
    - intros _. destruct rest as [|a [|b rest]]; [done..|cbn in Hl; lia]. }
  destruct n as [|n]; cbn [reorder_loop]; [apply Hdone; lia|].
  rewrite length_app. destruct (Nat.ltb_spec (S (length pre)) (length pre + length rest))
    as [Hlt|Hge]; cbn [negb]; [|apply Hdone; lia].
  destruct rest as [|a [|b rest]]; [cbn in Hlt; lia..|].
  eapply returns_bind; [apply chance_returns|]. intros [] [Hp Hq].
  - rewrite swap_at_split.
    replace (pre ++ b :: a :: rest) with ((pre ++ [b; a]) ++ rest) by (by rewrite <- app_assoc).
    replace (S (S (length pre))) with (length (pre ++ [b; a])) by (rewrite length_app; cbn; lia).
    eapply returns_weaken; [apply IHn; [lia|cbn in Hn; lia|apply u64_range]|].
    intros [out k'] (new & kn & Hs & -> & Hk & Hz & Hf).
    exists (b :: a :: new), (kn + 1). rewrite u64_add_l in Hk. rewrite <- app_assoc.
    split_and!; [by constructor|done|rewrite Hk; f_equal; lia|..].
    + intros Hle. by specialize (Hp Hle).
    + intros Hge. rewrite (Hf Hge). cbn [length].
      replace (Z.of_nat (S (S (length rest)))) with (Zlength rest + 1 * 2) by lia.
      by rewrite Z.div_add by lia.
  - replace (pre ++ a :: b :: rest) with ((pre ++ [a]) ++ b :: rest) by (by rewrite <- app_assoc).
    replace (S (length pre)) with (length (pre ++ [a])) by (rewrite length_app; cbn; lia).
    eapply returns_weaken; [apply IHn; [lia|cbn in *; lia|done]|].
    intros [out k'] (new & kn & Hs & -> & Hk & Hz & Hf).
    exists (a :: new), kn. rewrite <- app_assoc.
    split_and!; [by constructor|done..| |].
    + intros Hle. by destruct (Hz Hle) as [-> ->].
    + intros Hge. by specialize (Hq Hge).
Qed.
End faults.

(** ** The order of the events *)

Section order.
Implicit Types (a b c : TelemetryEvent) (l : list TelemetryEvent).

Lemma ltb_false_le (s t : string) : (s <? t)%string = false <-> String.le t s.
Proof.
  unfold String.le, String.leb, String.ltb. rewrite (String.compare_antisym t s).
  destruct (String.compare s t); cbn; split; intros; (done || discriminate).
Qed.

Lemma event_le_iff a b : event_le a b <->
  source_timestamp_ns a < source_timestamp_ns b \/
  source_timestamp_ns a = source_timestamp_ns b /\
    (producer_id a <> producer_id b /\ String.le (producer_id a) (producer_id b) \/
     producer_id a = producer_id b /\ sequence_number a <= sequence_number b).
Proof.
  unfold event_le, event_less.
  destruct (Z.eqb_spec (source_timestamp_ns b) (source_timestamp_ns a)) as [Et|Et]; cbn [negb].
  - destruct (String.eqb_spec (producer_id b) (producer_id a)) as [Ep|Ep]; cbn [negb].
    + rewrite Z.ltb_ge. intuition (congruence || lia).
    + rewrite ltb_false_le. intuition (congruence || lia).
  - rewrite Z.ltb_ge. intuition lia.
Qed.

#[export] Instance event_le_trans : Transitive event_le.
Proof.
  intros a b c. rewrite !event_le_iff.
  intros [H1|[E1 [[N1 L1]|[P1 S1]]]] [H2|[E2 [[N2 L2]|[P2 S2]]]]; try (left; lia);
    right; (split; [lia|]).
  - left. split; [|by etrans]. intros E. apply N1. apply (anti_symm String.le); [done|].
    by rewrite E.
  - left. by rewrite <- P2.
  - left. by rewrite P1.
  - right. split; [congruence|lia].
Qed.

#[export] Instance event_le_total : Total event_le.
Proof.
  intros a b. rewrite !event_le_iff.
  destruct (Z.lt_trichotomy (source_timestamp_ns a) (source_timestamp_ns b)) as [|[|]]; [auto| |auto].
  destruct (decide (producer_id a = producer_id b)).
  - destruct (Z.le_ge_cases (sequence_number a) (sequence_number b)); [left|right]; auto.
  - destruct (total String.le (producer_id a) (producer_id b)); [left|right]; auto 6.
Qed.

(** Only events with the same producer and sequence number tie. *)
Lemma event_le_antisym a b : event_le a b -> event_le b a ->
  producer_id a = producer_id b /\ sequence_number a = sequence_number b.
Proof.
  rewrite !event_le_iff.
  intros [H1|[E1 [[N1 L1]|[P1 S1]]]] [H2|[E2 [[N2 L2]|[P2 S2]]]]; try lia; try congruence.
  - destruct N1. by apply (anti_symm String.le).
  - split; [done|lia].
Qed.

Definition keys_unique l : Prop := forall a b, a ∈ l -> b ∈ l ->
  producer_id a = producer_id b -> sequence_number a = sequence_number b -> a = b.

Lemma keys_unique_perm l k : l ≡ₚ k -> keys_unique l -> keys_unique k.
Proof. intros Hp Hu a b. rewrite <- Hp. apply Hu. Qed.

Lemma sort_events_sorted l : StronglySorted event_le (sort_events l).
Proof. apply (StronglySorted_merge_sort event_le). Qed.

Lemma sort_events_perm l : sort_events l ≡ₚ l.
Proof. apply (merge_sort_Permutation event_le). Qed.

(** Whatever sorted permutation a sorting algorithm computes, it is this one. *)
Lemma sort_events_unique l k : keys_unique l -> k ≡ₚ l -> StronglySorted event_le k ->
  k = sort_events l.
Proof.
  intros Hu Hp Hs. apply (StronglySorted_unique_strong event_le);
    [|done|apply sort_events_sorted|by rewrite sort_events_perm].
  intros x y Hx Hy Hxy Hyx. destruct (event_le_antisym x y Hxy Hyx).
  apply Hu; [by rewrite <- Hp|by rewrite <- (sort_events_perm l)|done|done].
Qed.
End order.

(** ** The base events: keys, producers, clocks *)

Section base.
Context (config : GeneratorConfig).

Lemma series_lookup p i ts evs : series config p i ts evs -> forall k ev,
  evs !! k = Some ev ->
  exists t, ts !! k = Some t /\ event_of config p (i + Z.of_nat k) t ev.
Proof.
  induction 1 as [i|i t ts ev evs He Hs IH]; intros k ev' Hk; [done|].
  destruct k as [|k]; cbn in Hk.
  - injection Hk as <-. exists t. split; [done|]. by rewrite Z.add_0_r.
  - destruct (IH k ev' Hk) as (t' & Ht' & He'). exists t'. split; [done|].
    by replace (i + Z.of_nat (S k)) with (i + 1 + Z.of_nat k) by lia.
Qed.

Lemma series_length p i ts evs : series config p i ts evs -> length evs = length ts.
Proof. induction 1; cbn; lia. Qed.

Lemma series_elem p i ts evs ev : series config p i ts evs -> ev ∈ evs ->
  exists k t, evs !! k = Some ev /\ ts !! k = Some t /\ event_of config p (i + Z.of_nat k) t ev.
Proof.
  intros Hs [k Hk]%list_elem_of_lookup_1.
  destruct (series_lookup p i ts evs Hs k ev Hk) as (t & Ht & He). by exists k, t.
Qed.

Lemma series_producer p i ts evs ev : series config p i ts evs -> ev ∈ evs ->
  producer_id ev = p.
Proof. intros Hs (k & t & _ & _ & He)%(series_elem p i ts evs ev Hs). apply He. Qed.

Lemma series_sequences p i ts evs : series config p i ts evs ->
  sequence_number <$> evs = seqZ i (Zlength evs).
Proof.
  induction 1 as [i|i t ts ev evs He Hs IH]; [done|].
  cbn [length]. rewrite seqZ_cons, fmap_cons, (eo_sequence _ _ _ _ _ He), IH by lia.
  do 2 f_equal; lia.
Qed.

Lemma series_keys p i ts evs : series config p i ts evs -> keys_unique evs.
Proof.
  intros Hs a b (k & t & Hk & _ & Ha)%(series_elem _ _ _ _ _ Hs)
    (k' & t' & Hk' & _ & Hb)%(series_elem _ _ _ _ _ Hs) _ Hseq.
  rewrite (eo_sequence _ _ _ _ _ Ha), (eo_sequence _ _ _ _ _ Hb) in Hseq.
  replace k' with k in Hk' by lia. congruence.
Qed.

(** The parts of different producers do not mix. *)
Lemma parts_filter sts parts :
  Forall2 (fun (st : string * list Z) evs => series config st.1 0 st.2 evs) sts parts ->
  NoDup sts.*1 -> forall k st evs, sts !! k = Some st -> parts !! k = Some evs ->
  filter (fun ev => producer_id ev = st.1) (concat parts) = evs.
Proof.
  induction 1 as [|st evs sts parts Hs Hall IH]; intros Hnd k st' evs' Hk Hk'; [done|].
  cbn [fmap list_fmap] in Hnd. apply NoDup_cons in Hnd as [Hnin Hnd].
  cbn [concat]. rewrite filter_app. destruct k as [|k]; cbn in Hk, Hk'.
  - injection Hk as <-. injection Hk' as <-.
    rewrite filter_all by (intros ev; by apply series_producer with (1 := Hs)).
    rewrite filter_nothing, app_nil_r; [done|].
    intros ev Hev Heq. apply Hnin. apply list_elem_of_In, in_concat in Hev as (part & Hp & Hev).
    apply list_elem_of_In in Hp, Hev. apply list_elem_of_lookup_1 in Hp as [j Hj].
    destruct (Forall2_lookup_r _ _ _ _ _ Hall Hj) as (st2 & Hst2 & Hs2).
    rewrite <- Heq, (series_producer _ _ _ _ _ Hs2 Hev).
    apply (list_elem_of_fmap_2 fst). by eapply list_elem_of_lookup_2.
  - rewrite (IH Hnd k st' evs' Hk Hk'), filter_nothing; [done|].
    intros ev Hev Heq. rewrite (series_producer _ _ _ _ _ Hs Hev) in Heq. apply Hnin.
    rewrite Heq. apply (list_elem_of_fmap_2 fst). by eapply list_elem_of_lookup_2.
Qed.

Lemma base_elem states base ev : base_ok config states base -> ev ∈ base ->
  exists k st, streams config states !! k = Some st /\ exists part i t,
    series config st.1 0 st.2 part /\ ev ∈ part /\ st.2 !! i = Some t /\
    event_of config st.1 (Z.of_nat i) t ev.
Proof.
  intros (_ & parts & -> & Hall) Hev.
  apply list_elem_of_In, in_concat in Hev as (part & Hp & Hev).
  apply list_elem_of_In in Hp, Hev. apply list_elem_of_lookup_1 in Hp as [k Hk].
  destruct (Forall2_lookup_r _ _ _ _ _ Hall Hk) as (st & Hst & Hs).
  destruct (series_elem _ _ _ _ _ Hs Hev) as (i & t & _ & Ht & He).
  exists k, st. split; [done|]. by exists part, i, t.
Qed.

Lemma streams_nodup states : NoDup (streams config states).*1.
Proof. apply (bool_decide_unpack _). by vm_compute. Qed.

Lemma base_keys states base : base_ok config states base -> keys_unique base.
Proof.
  intros (_ & parts & -> & Hall) a b Ha Hb Hp Hseq.
  apply list_elem_of_In, in_concat in Ha as (part & Hpa & Hae).
  apply list_elem_of_In in Hpa, Hae. apply list_elem_of_lookup_1 in Hpa as [k Hk].
  destruct (Forall2_lookup_r _ _ _ _ _ Hall Hk) as (st & Hst & Hs).
  apply (series_keys _ _ _ _ Hs); [done| |done|done].
  rewrite <- (parts_filter _ _ Hall (streams_nodup states) k st part Hst Hk).
  apply list_elem_of_filter. split; [|done].
  rewrite <- Hp. by apply (series_producer _ _ _ _ _ Hs).
Qed.
End base.

(** ** The schedule of a valid configuration *)

Lemma nondecreasing_seqZ (f : Z -> Z) lo a n :
  (forall i, a <= i < a + Z.of_nat n -> lo <= f i) ->
  (forall i j, a <= i < j -> j < a + Z.of_nat n -> f i <= f j) ->
  nondecreasing lo (f <$> seqZ a (Z.of_nat n)).
Proof.
  revert lo a. induction n as [|n IH]; intros lo a Hlo Hm; [done|].
  rewrite seqZ_cons by lia. replace (Z.pred (Z.of_nat (S n))) with (Z.of_nat n) by lia.
  cbn [fmap list_fmap nondecreasing]. split; [apply Hlo; lia|].
  apply IH; [intros i Hi; apply Hm; lia|intros i j Hi Hj; apply Hm; lia].
Qed.

(** What the generator uses of a list of times. *)
Record times_ok (d : Z) (ts : list Z) : Prop := {
  to_order : nondecreasing 0 ts;
  to_range : Forall (fun t => 0 <= t < d) ts;
  to_length : Zlength ts <= kMaxGeneratedEvents;
}.

Section valid_config.
Context (config : GeneratorConfig) (Hok : config_ok config).

Lemma schedule_length r : r ∈ rate_list (rates config) ->
  Zlength (schedule config r) = event_count (duration config) r.
Proof.
  intros Hr. unfold schedule. rewrite length_fmap, length_seqZ.
  pose proof (count_bounds config r Hok Hr). lia.
Qed.

Lemma schedule_times_ok r : r ∈ rate_list (rates config) ->
  times_ok (duration config) (schedule config r).
Proof.
  intros Hr. pose proof (count_bounds config r Hok Hr) as Hc.
  pose proof (co_duration _ Hok) as Hd. pose proof (co_rates _ Hok) as Hrs.
  rewrite Forall_forall in Hrs. pose proof (Hrs r Hr) as Hrr.
  assert (Hpos : forall i, 0 <= i < event_count (duration config) r -> 0 < r).
  { intros i Hi. destruct (Z.eq_dec r 0) as [->|]; [|lia].
    change (event_count (duration config) 0) with 0 in Hi. lia. }
  assert (Hb : forall i, 0 <= i < event_count (duration config) r ->
    0 <= scheduled_time_ns i r < duration config).
  { intros i Hi. specialize (Hpos i Hi). by apply scheduled_time_bounds; [lia|lia|]. }
  split; [| |by rewrite schedule_length by done; lia]; unfold schedule.
  - rewrite <- (Z2Nat.id (event_count _ _)) by lia. apply nondecreasing_seqZ.
    + intros i Hi. apply Hb. lia.
    + intros i j Hi Hj. specialize (Hpos i ltac:(lia)).
      apply Z.lt_le_incl, (scheduled_time_mono (duration config)); lia.
  - apply Forall_fmap, Forall_forall. intros i Hi%elem_of_seqZ. apply Hb. lia.
Qed.

Lemma streams_times_ok states : states_ok (duration config) states ->
  Forall (fun st => 0 < str_size st.1 <= 128 /\ times_ok (duration config) st.2)
    (streams config states).
Proof.
  intros (Hl & Hn & Hr).
  assert (Hin : forall i r, rate_list (rates config) !! i = Some r ->
    times_ok (duration config) (schedule config r))
    by (intros i r Hi; apply schedule_times_ok; by eapply list_elem_of_lookup_2).
  unfold streams. repeat (apply Forall_cons; split; [split; [by vm_compute|]|]); [..|done].
  all: cbn [snd]; try (by apply (Hin 0%nat)); try (by apply (Hin 1%nat));
    try (by apply (Hin 2%nat)); try (by apply (Hin 3%nat)); try (by apply (Hin 4%nat));
    try (by apply (Hin 5%nat)).
  split; [done|done|unfold kMaxGeneratedEvents; lia].
Qed.

(** At most two million scheduled events and four of the controller. *)
Lemma base_size states base : base_ok config states base ->
  Zlength base <= kMaxGeneratedEvents + 4.
Proof.
  intros ((Hl & _) & parts & -> & Hall).
  assert (Hlen : Zlength (concat parts) =
    foldr Z.add 0 (event_count (duration config) <$> rate_list (rates config)) + Zlength states).
  { assert (Hin : forall i r, rate_list (rates config) !! i = Some r ->
      Zlength (schedule config r) = event_count (duration config) r)
      by (intros i r Hi; apply schedule_length; by eapply list_elem_of_lookup_2).
    unfold streams in Hall.
    repeat match goal with
    | H : Forall2 _ (_ :: _) _ |- _ => apply Forall2_cons_inv_l in H as (? & ? & ?%series_length & H & ->)
    | H : Forall2 _ [] _ |- _ => apply Forall2_nil_inv_l in H as ->
    end.
    cbn [fst snd] in *. cbn [concat]. rewrite !length_app, !Nat2Z.inj_add.
    repeat match goal with H : length _ = length _ |- _ => rewrite H; clear H end.
    rewrite (Hin 0%nat), (Hin 1%nat), (Hin 2%nat), (Hin 3%nat), (Hin 4%nat), (Hin 5%nat) by done.
    unfold rate_list. cbn [fmap list_fmap foldr length]. lia. }
  rewrite Hlen. pose proof (co_total _ Hok) as Ht. pose proof (co_duration _ Hok) as Hd.
  pose proof (co_rates _ Hok) as Hr.
  assert (Hsum : foldr Z.add 0 (event_count (duration config) <$> rate_list (rates config)) <=
    foldr Z.add 0 (rate_list (rates config)) * (duration config / kNanosecondsPerSecond + 1)).
  { clear -Hr Hd. induction Hr as [|r l Hx Hr IH]; [cbn; lia|]. rewrite fmap_cons. cbn [foldr].
    pose proof (event_count_le (duration config) r ltac:(lia) Hx). nia. }
  lia.
Qed.

(** A timestamp stays positive and in range. *)
Lemma timestamp_range t j : 0 <= t < duration config ->
  - max_jitter config <= j <= max_jitter config ->
  0 < kBaseTimestampNs + apply_clock_drift t (clock_drift_ppm config) + j < 2 ^ 62.
Proof.
  intros Ht Hj. pose proof (co_duration _ Hok) as Hd. pose proof (co_jitter _ Hok).
  destruct (drift_in_range t (clock_drift_ppm config)) as [Hdr _]; [lia|apply Hok|].
  unfold kBaseTimestampNs, kMaxDurationNs, kNanosecondsPerSecond in *. lia.
Qed.

(** What a fresh validator accepts. *)
Definition event_valid (ev : TelemetryEvent) : Prop :=
  event_wf ev /\ Admissible StreamValidator_init ev.

Lemma event_of_valid p i t ev : event_of config p i t ev -> 0 < str_size p <= 128 ->
  0 <= t < duration config -> 0 <= i < 2 ^ 32 -> event_valid ev.
Proof.
  intros [Hv Hp Hs Hc (j & Hj & Hts) [Hpw Hpa]] Hsz Ht Hi.
  pose proof (timestamp_range t j Ht Hj) as Hr.
  split; split.
  - rewrite Hv. by vm_compute.
  - rewrite Hs. unfold in_u64. lia.
  - rewrite Hts. unfold in_s64. lia.
  - done.
  - by rewrite Hv.
  - by rewrite Hp.
  - rewrite Hc. by left.
  - rewrite Hts. lia.
  - by left.
  - by left.
  - done.
Qed.

Lemma base_valid states base ev : base_ok config states base -> ev ∈ base -> event_valid ev.
Proof.
  intros Hb Hev. destruct (base_elem config states base ev Hb Hev)
    as (k & st & Hst & part & i & t & Hs & Hin & Ht & He).
  pose proof (streams_times_ok states (proj1 Hb)) as Hall. rewrite Forall_lookup in Hall.
  destruct (Hall k st Hst) as [Hsz [_ Hrange Hlen]]. rewrite Forall_lookup in Hrange.
  apply (event_of_valid st.1 (Z.of_nat i) t); [done|done|by apply (Hrange i)|].
  apply lookup_lt_Some in Ht. unfold kMaxGeneratedEvents in Hlen. lia.
Qed.

(** Without jitter the events of a producer are in order. *)
Lemma series_sorted p i ts evs : max_jitter config = 0 -> series config p i ts evs ->
  forall lo, 0 <= lo -> nondecreasing lo ts ->
  StronglySorted event_le evs /\
  Forall (fun ev => producer_id ev = p /\ i <= sequence_number ev /\
    kBaseTimestampNs + apply_clock_drift lo (clock_drift_ppm config) <= source_timestamp_ns ev)
    evs.
Proof.
  intros Hj. induction 1 as [i|i t ts ev evs He Hs IH]; intros lo Hlo Hts; [by repeat constructor|].
  cbn [nondecreasing] in Hts. destruct Hts as [Ht Hts].
  destruct (IH t ltac:(lia) Hts) as [IHs IHall].
  destruct He as [_ Hp Hsq _ (j & Hjr & Hst) _]. replace j with 0 in Hst by lia.
  pose proof (drift_mono lo t (clock_drift_ppm config) ltac:(lia) (co_drift _ Hok)) as Hdm.
  rewrite Forall_forall in IHall. split.
  - constructor; [done|]. apply Forall_forall. intros x Hx.
    destruct (IHall x Hx) as (Hxp & Hxs & Hxt). apply event_le_iff.
    destruct (Z.eq_dec (source_timestamp_ns ev) (source_timestamp_ns x)); [right|left; lia].
    split; [done|]. right. split; [congruence|lia].
  - constructor; [split; [done|lia]|]. apply Forall_forall. intros x Hx.
    destruct (IHall x Hx) as (Hxp & Hxs & Hxt). split; [done|lia].
Qed.

(** Without jitter, sorting keeps the events of each producer as they were
    generated. *)
Lemma sorted_stream states base : max_jitter config = 0 -> base_ok config states base ->
  forall st, st ∈ streams config states ->
  series config st.1 0 st.2 (filter (fun ev => producer_id ev = st.1) (sort_events base)).
Proof.
  intros Hj Hb st [k Hk]%list_elem_of_lookup_1.
  pose proof (streams_times_ok states (proj1 Hb)) as Hall. rewrite Forall_lookup in Hall.
  destruct (Hall k st Hk) as [_ [Hord _ _]]. clear Hall.
  pose proof (base_keys config states base Hb) as Hu.
  destruct Hb as (_ & parts & -> & Hparts).
  destruct (Forall2_lookup_l _ _ _ _ _ Hparts Hk) as (part & Hpart & Hs).
  pose proof (parts_filter config _ _ Hparts (streams_nodup config states) k st part Hk Hpart) as Hf.
  assert (Heq : filter (fun ev => producer_id ev = st.1) (sort_events (concat parts)) = part);
    [|by rewrite Heq].
  destruct (series_sorted st.1 0 st.2 part Hj Hs 0 ltac:(lia) Hord) as [Hsort _].
  apply (StronglySorted_unique_strong event_le);
    [|apply filter_sorted, sort_events_sorted|done|].
  - intros x y [_ Hx]%list_elem_of_filter Hy Hxy Hyx.
    destruct (event_le_antisym x y Hxy Hyx). apply Hu; [by rewrite <- (sort_events_perm _)| |done|done].
    rewrite <- Hf in Hy. by apply list_elem_of_filter in Hy as [_ ?].
  - rewrite sort_events_perm, Hf. done.
Qed.
End valid_config.

(** ** The whole run *)

(** How the events and the counters come about: base events of the schedule,
    sorted, some dropped or duplicated, some neighbours swapped. *)
Record generated_from (config : GeneratorConfig) (states : list Z)
    (base kept out : list TelemetryEvent) (st : GenerationStats) : Prop := {
  gf_base : base_ok config states base;
  gf_count : generated_events st = Zlength base;
  gf_injected : injected (sort_events base) kept (dropped_events st) (duplicated_events st);
  gf_swapped : swapped kept out (reordered_pairs st);
  gf_no_faults : drop_per_million (faults config) <= 0 ->
    duplicate_per_million (faults config) <= 0 -> kept = sort_events base;
  gf_no_reorder : reorder_per_million (faults config) <= 0 -> out = kept /\ reordered_pairs st = 0;
  gf_no_drop : drop_per_million (faults config) <= 0 -> dropped_events st = 0;
  gf_no_duplicate : duplicate_per_million (faults config) <= 0 -> duplicated_events st = 0;
  gf_all_dropped : kProbabilityScale <= drop_per_million (faults config) ->
    dropped_events st = Zlength base;
  gf_all_twice : drop_per_million (faults config) <= 0 ->
    kProbabilityScale <= duplicate_per_million (faults config) ->
    duplicated_events st = Zlength base;
  gf_all_reordered : kProbabilityScale <= reorder_per_million (faults config) ->
    reordered_pairs st = Zlength out / 2;
}.

Section run.
Context {E : Type} `{!RandomEngine E} `{!EventCodec}.
Context (ControllerStatus_State_Name : Z -> string).
Context (Hname : forall state, str_size (ControllerStatus_State_Name state) <= kMaxDetailBytes).
(** Valid events can be serialised. *)
Context (Hser : forall ev, event_valid ev -> is_Some (SerializeToString ev)).
Context (config : GeneratorConfig) (Hok : config_ok config).

(** What [generate] does with the base events. *)
Lemma faults_returns states base : base_ok config states base ->
  returns (E := E)
    (let base := sort_events base in
     rand_bind (inject_loop (faults config) base [] 0 0) (fun '(out, dropped, duplicated) =>
     rand_bind (reorder_loop (length out) (reorder_per_million (faults config)) out 0 0)
       (fun '(out, pairs) =>
     rand_ret (out, {| generated_events := u64 (Zlength base); dropped_events := dropped;
                       duplicated_events := duplicated; reordered_pairs := pairs |}))))
    (fun '(out, st) => exists kept, generated_from config states base kept out st).
Proof.
  intros Hb. cbv zeta. pose proof (base_size config Hok states base Hb) as Hsize.
  assert (Hsz : Zlength (sort_events base) = Zlength base) by (by rewrite (sort_events_perm base)).
  eapply returns_bind; [apply inject_loop_returns; solve_range|].
  intros [[kept d] u] (kept' & dn & un & Hi & -> & Hd & Hu & Hd0 & Hu0 & Hno & Hda & Hua). rewrite app_nil_l.
  destruct (injected_facts _ _ _ _ Hi) as (Hlen & Hdn & Hun & Hle & _).
  eapply returns_bind; [apply (reorder_loop_returns _ (length kept') [] kept'); [done|solve_range]|].
  intros [out k] (out' & kn & Hs & -> & Hk & Hno' & Hka). rewrite app_nil_l. apply returns_ret.
  destruct (swapped_facts _ _ _ Hs) as (Hperm & Hkn & Hkle).
  unfold kMaxGeneratedEvents in Hsize.
  rewrite Z.add_0_l, u64_small in Hd, Hu, Hk by (unfold in_u64; lia). subst d u k.
  exists kept'. split; cbn [generated_events dropped_events duplicated_events
    reordered_pairs]; try done; try (rewrite <- Hsz; done).
  - rewrite Hsz. apply u64_small. unfold in_u64. lia.
  - by rewrite Hperm.
Qed.

Lemma stable_event_hash_some l : (forall ev, ev ∈ l -> event_valid ev) ->
  is_Some (stable_event_hash l).
Proof.
  unfold stable_event_hash. generalize kFnvOffsetBasis.
  induction l as [|ev l IH]; intros h Hl; cbn [stable_event_hash_loop]; [by eexists|].
  destruct (Hser ev) as [bs ->]; [apply Hl; left|]. apply IH. intros x Hx. apply Hl. by right.
Qed.

Lemma generated_valid states base kept out st : generated_from config states base kept out st ->
  forall ev, ev ∈ out -> event_valid ev.
Proof.
  intros [Hb _ Hi Hs _ _ _ _ _ _ _] ev Hev.
  apply (base_valid config Hok states base); [done|].
  destruct (injected_facts _ _ _ _ Hi) as (_ & _ & _ & _ & Hin).
  destruct (swapped_facts _ _ _ Hs) as [Hp _].
  rewrite <- (sort_events_perm base). apply Hin. by rewrite <- Hp.
Qed.

Lemma generate_tail_returns states base : base_ok config states base ->
  returns (E := E)
    (rand_bind
      (let base := sort_events base in
       rand_bind (inject_loop (faults config) base [] 0 0) (fun '(out, dropped, duplicated) =>
       rand_bind (reorder_loop (length out) (reorder_per_million (faults config)) out 0 0)
         (fun '(out, pairs) =>
       rand_ret (out, {| generated_events := u64 (Zlength base); dropped_events := dropped;
                         duplicated_events := duplicated; reordered_pairs := pairs |}))))
      (fun '(out, stats_) =>
        match stable_event_hash out with
        | None => rand_throw "failed to serialize generated event"
        | Some hash => rand_ret {| events := out; gen_stats := stats_; gen_hash := hash |}
        end))
    (fun w => stable_event_hash (events w) = Some (gen_hash w) /\
       exists kept, generated_from config states base kept (events w) (gen_stats w)).
Proof.
  intros Hb. eapply returns_bind; [by apply faults_returns|].
  intros [out st] (kept & Hg).
  destruct (stable_event_hash_some out) as [h Hh]; [by eapply generated_valid|].
  rewrite Hh. apply returns_ret. split; [done|]. by exists kept.
Qed.
End run.

(** [WorkloadGenerator{config}.generate()] returns [w], whatever larger number
    of draws it is allowed. *)
Definition runs_to {E} `{!RandomEngine E} `{!EventCodec} (state_name : Z -> string)
    (config : GeneratorConfig) (w : GeneratedWorkload) : Prop :=
  exists fuel, forall f, (fuel <= f)%nat -> run_generator state_name f config = Returns w.

(** The base events of the configuration, as [base_events] draws them. *)
Definition draws_base {E} `{!RandomEngine E} (state_name : Z -> string)
    (config : GeneratorConfig) (base : list TelemetryEvent) : Prop :=
  exists fuel engine, forall f, (fuel <= f)%nat ->
    base_events state_name config f (seed_engine (E := E) (seed config)) = Returns (base, engine).

Section runs.
Context {E : Type} `{!RandomEngine E} `{!EventCodec}.
Context (state_name : Z -> string).
Context (Hname : forall state, str_size (state_name state) <= kMaxDetailBytes).
Context (Hser : forall ev, event_valid ev -> is_Some (SerializeToString ev)).
Context (config : GeneratorConfig).
Context (Hwf : config_wf config) (Hvalid : validate_config config = None).
Context (Hfair : fair (seed_engine (seed config))).

Lemma run_exists : exists w, runs_to state_name config w /\
  stable_event_hash (events w) = Some (gen_hash w) /\
  exists states base kept, draws_base (E := E) state_name config base /\
    generated_from config states base kept (events w) (gen_stats w).
Proof.
  assert (Hok : config_ok config) by by apply validate_config_spec.
  destruct (base_events_returns state_name Hname config Hok _ Hfair)
    as (f1 & base & s1 & Hbase & Hs1 & states & Hb).
  destruct (generate_tail_returns Hser config Hok states base Hb s1 Hs1)
    as (f2 & w & s2 & Htail & _ & Hh & kept & Hg).
  exists w. split; [|split; [done|]].
  - exists (f1 + f2)%nat. intros f Hf. unfold run_generator, generate, generate_events.
    specialize (Hbase f ltac:(lia)). specialize (Htail f ltac:(lia)).
    rewrite Hvalid. unfold rand_bind at 1 2. rewrite Hbase.
    unfold rand_bind at 1 in Htail. cbv zeta in Htail. by rewrite Htail.
  - exists states, base, kept. split; [|done]. by exists f1, s1.
Qed.

Lemma run_facts w : runs_to state_name config w ->
  stable_event_hash (events w) = Some (gen_hash w) /\
  exists states base kept, draws_base (E := E) state_name config base /\
    generated_from config states base kept (events w) (gen_stats w).
Proof.
  intros [fuel Hrun]. destruct run_exists as (w' & [fuel' Hrun'] & Hf).
  specialize (Hrun (fuel + fuel')%nat ltac:(lia)).
  specialize (Hrun' (fuel + fuel')%nat ltac:(lia)).
  rewrite Hrun in Hrun'. by injection Hrun' as ->.
Qed.

(** A workload is small. *)
Lemma workload_small w : runs_to state_name config w -> Zlength (events w) < 2 ^ 64.
Proof.
  intros Hrun. assert (Hok : config_ok config) by by apply validate_config_spec.
  destruct (run_facts w Hrun) as (_ & states & base & kept & _ & [Hb _ Hi Hs _ _ _ _ _ _ _]).
  destruct (injected_facts _ _ _ _ Hi) as (Hlen & _ & _ & Hle & _).
  destruct (swapped_facts _ _ _ Hs) as (Hp & _).
  pose proof (base_size config Hok states base Hb) as Hsize. unfold kMaxGeneratedEvents in Hsize.
  rewrite (sort_events_perm base) in Hlen, Hle. rewrite Hp.
  destruct (injected_facts _ _ _ _ Hi) as (_ & Hd & _). lia.
Qed.
End runs.

(** ** Consecutive events pass the validator *)

Lemma consecutive_accepted p : p <> ""%string -> forall n i evs st,
  Forall event_valid evs -> Forall (fun ev => producer_id ev = p) evs ->
  sequence_number <$> evs = seqZ i (Z.of_nat n) ->
  validator_wf st -> (producer_id_ st = "" \/ producer_id_ st = p)%string ->
  (accepted_events_ st = 0 \/ last_sequence_number_ st < i) ->
  fst (accept_stream st evs) = evs.
Proof.
  intros Hp. induction n as [|n IH]; intros i evs st Hv Hpr Hs Hst Hsp Hl.
  { apply fmap_nil_inv in Hs as ->. done. }
  rewrite seqZ_cons in Hs by lia. replace (Z.pred (Z.of_nat (S n))) with (Z.of_nat n) in Hs by lia.
  destruct evs as [|ev evs]; [done|]. rewrite fmap_cons in Hs. injection Hs as Hsq Hs.
  apply Forall_cons in Hv as [[Hev Hadm] Hv]. apply Forall_cons in Hpr as [Hpe Hpr].
  assert (Hadm' : Admissible st ev).
  { destruct Hadm. split; try done.
    - destruct Hsp as [|Hsp]; [by left|right; congruence].
    - destruct Hl; [by left|right; lia]. }
  cbn [accept_stream].
  destruct (accept_cases st ev Hst Hev) as [[_ ->]|[Hno _]]; [|done].
  cbn [accepted accept_result].
  specialize (IH (Z.succ i) evs (admit_event st ev) Hv Hpr Hs (admit_event_wf st ev Hst Hev)).
  destruct (accept_stream (admit_event st ev) evs) as [acc st'] eqn:Ea. cbn [fst] in *.
  f_equal. apply IH; unfold admit_event; destruct (accepted_events_ st =? 0); cbn; auto;
    right; lia.
Qed.

(** The validator's summary of such a stream. *)
Lemma consecutive_summary p n evs : p <> ""%string ->
  Forall event_valid evs -> Forall (fun ev => producer_id ev = p) evs ->
  sequence_number <$> evs = seqZ 0 (Z.of_nat n) -> Z.of_nat n < 2 ^ 64 ->
  exists st, accept_stream StreamValidator_init evs = (evs, st) /\
    accepted_events_ st = Z.of_nat n /\ sequence_gaps_ st = 0.
Proof.
  intros Hp Hv Hpr Hs Hn.
  assert (Hlen : length evs = n)
    by (rewrite <- (length_fmap sequence_number), Hs, length_seqZ; lia).
  pose proof (consecutive_accepted p Hp n 0 evs StreamValidator_init Hv Hpr Hs
    ltac:(solve_range) ltac:(by left) ltac:(by left)) as Hacc.
  destruct (accept_stream StreamValidator_init evs) as [acc st] eqn:Ea. cbn [fst] in Hacc.
  subst acc. exists st. split; [done|].
  destruct (accept_stream_inv evs _ [] evs st stream_inv_init
    ltac:(eapply Forall_impl; [exact Hv|by intros ? [? _]]) ltac:(cbn; lia) Ea)
    as [_ Hc He Hne]. rewrite app_nil_l in *. split; [lia|].
  destruct (decide (evs = [])) as [->|Hnn]; [by rewrite (He eq_refl)|].
  destruct (Hne Hnn) as [_ _ Hf Hlst _ _ _ Hg _]. rewrite Hg, Hlen.
  rewrite Hs in Hf, Hlst. destruct n as [|n]; [by destruct evs|].
  rewrite head_lookup, lookup_seqZ_lt in Hf by lia.
  rewrite last_lookup, length_seqZ, lookup_seqZ_lt in Hlst by lia.
  injection Hf as Hf. injection Hlst as Hlst. lia.
Qed.

(** Without jitter and faults: the streams of the producers. *)
Lemma quiet_streams {E} `{!RandomEngine E} `{!EventCodec}
    (state_name : Z -> string) (config : GeneratorConfig) (w : GeneratedWorkload)
    (Hname : forall state, str_size (state_name state) <= kMaxDetailBytes)
    (Hser : forall ev, event_valid ev -> is_Some (SerializeToString ev))
    (Hwf : config_wf config) (Hvalid : validate_config config = None)
    (Hfair : fair (seed_engine (seed config)))
    (Hrun : runs_to state_name config w)
    (Hjitter : max_jitter config = 0)
    (Hfaults : drop_per_million (faults config) <= 0 /\
       duplicate_per_million (faults config) <= 0 /\ reorder_per_million (faults config) <= 0) :
  exists states, states_ok (duration config) states /\
    (forall ev, ev ∈ events w -> event_valid ev /\ producer_id ev ∈ (streams config states).*1) /\
    Zlength (events w) <= kMaxGeneratedEvents + 4 /\
    forall producer times, (producer, times) ∈ streams config states ->
    let evs := filter (fun ev => producer_id ev = producer) (events w) in
    sequence_number <$> evs = seqZ 0 (Zlength times) /\
    exists st, accept_stream StreamValidator_init evs = (evs, st) /\
      accepted_events_ st = Zlength times /\ sequence_gaps_ st = 0.
Proof.
  assert (Hok : config_ok config) by by apply validate_config_spec.
  destruct (run_facts state_name Hname Hser config Hwf Hvalid Hfair w Hrun)
    as (_ & states & base & kept & Hdraws & Hg).
  pose proof (generated_valid config Hok states base kept _ _ Hg) as Hev.
  destruct Hg as [Hb _ _ _ Hkept Hout _ _ _ _ _]. destruct Hfaults as (F1 & F2 & F3).
  rewrite (proj1 (Hout F3)), (Hkept F1 F2) in *. exists states. split; [apply Hb|]. split_and!.
  - intros ev Hin. split; [by apply Hev|]. rewrite (sort_events_perm base) in Hin.
    destruct (base_elem config states base ev Hb Hin)
      as (k & st & Hst & part & i & t & _ & _ & _ & He).
    rewrite (eo_producer _ _ _ _ _ He). apply (list_elem_of_fmap_2 fst).
    by eapply list_elem_of_lookup_2.
  - rewrite (sort_events_perm base). by apply (base_size config Hok states).
  - intros p ts Hin evs.
    pose proof (sorted_stream config Hok states base Hjitter Hb (p, ts) Hin) as Hs.
    cbn [fst snd] in Hs. fold evs in Hs.
    pose proof (series_sequences config _ _ _ _ Hs) as Hseq.
    rewrite (series_length config _ _ _ _ Hs) in Hseq. split; [done|].
    pose proof (streams_times_ok config Hok states (proj1 Hb)) as Hall.
    rewrite Forall_forall in Hall. destruct (Hall _ Hin) as [Hsz [_ _ Hlen]].
    cbn [fst snd] in Hsz, Hlen. unfold kMaxGeneratedEvents in Hlen.
    apply (consecutive_summary p (length ts)); [|..|done|lia].
    + intros ->. change (str_size "") with 0 in Hsz. lia.
    + apply Forall_forall. intros ev [_ Hx]%list_elem_of_filter. by apply Hev.
    + apply Forall_forall. by intros ev [Hx _]%list_elem_of_filter.
Qed.

(** ** A deterministic instance, for the examples *)

(** The engine that always draws [2^63]. *)
#[local] Instance steady_engine : RandomEngine unit := {
  seed_engine := fun _ => tt;
  next_u64 := fun s => (2 ^ 63, s);
  next_u64_range := fun _ => conj (proj1 (Z.leb_le 0 (2 ^ 63)) eq_refl)
    (proj1 (Z.ltb_lt (2 ^ 63) (2 ^ 64)) eq_refl);
}.

Lemma steady_fair s : fair (E := unit) s.
Proof. intros k. exists k. split; [done|]. by destruct (state_after k s). Qed.

(** A serialiser that writes the sequence number. *)
#[local] Instance sequence_codec : EventCodec := {
  SerializeToString := fun ev => Some (LittleEndian.le_split 8 (sequence_number ev));
  ParseFromArray := fun _ => None;
}.

Definition sample_state_name (state : Z) : string :=
  if state =? STATE_READY then "STATE_READY" else "STATE".

Lemma sample_state_name_short state : str_size (sample_state_name state) <= kMaxDetailBytes.
Proof. unfold sample_state_name. by destruct (state =? STATE_READY). Qed.

(** Half a second; two thirds of the neighbours may be swapped or lost. *)
Definition sample_config : GeneratorConfig :=
  {| seed := 7; duration := 500000000; max_jitter := 2000; clock_drift_ppm := -20;
     rates := SensorRates_default;
     faults := {| drop_per_million := 300000; duplicate_per_million := 200000;
                  reorder_per_million := 900000 |} |}.

(** Without faults and jitter. *)
Definition quiet_config : GeneratorConfig :=
  {| seed := 7; duration := 500000000; max_jitter := 0; clock_drift_ppm := 100;
     rates := SensorRates_default; faults := FaultInjection_default |}.

Lemma sample_config_wf : config_wf sample_config.
Proof. split_and!; [solve_range..|]. by repeat (apply Forall_cons; split; [solve_range|]). Qed.

Lemma quiet_config_wf : config_wf quiet_config.
Proof. split_and!; [solve_range..|]. by repeat (apply Forall_cons; split; [solve_range|]). Qed.

Lemma sequence_codec_total ev : event_valid ev -> is_Some (SerializeToString ev).
Proof. by eexists. Qed.

(** ** Properties *)

(** C29: the constructor accepts exactly the configurations whose numbers are in
    range (a duration up to one hour, jitter, drift and probabilities within
    their limits, no rate above 10000 Hz) and whose conservative bound on the
    events, the sum of the rates times one more than the duration's whole
    seconds, is at most two million - a bound on the scheduled events, not their
    number. The machine arithmetic of the check does not wrap. A refused
    configuration generates nothing but an exception. *)
Theorem constructor_checks_config {E} `{!RandomEngine E} `{!EventCodec}
    (state_name : Z -> string) (config : GeneratorConfig) (Hwf : config_wf config) :
  (validate_config config = None <-> config_ok config) /\
  (~ config_ok config -> forall fuel, exists msg,
     run_generator (E := E) state_name fuel config = Throws msg).
Proof.
  pose proof (validate_config_spec config Hwf) as Hs. split; [done|].
  intros Hno fuel. unfold run_generator.
  destruct (validate_config config) as [msg|]; [by exists msg|]. by destruct Hno; apply Hs.
Qed.

Lemma constructor_checks_config_witness :
  validate_config sample_config = None <-> config_ok sample_config.
Proof.
  exact (proj1 (constructor_checks_config (E := unit) sample_state_name sample_config
    sample_config_wf)).
Defined.

(** The bound is not the number of events: 33 seconds of six sensors at 10000 Hz
    schedule 1980000 events, and are refused. *)
Example bound_is_conservative :
  let config :=
    {| seed := 7; duration := 33000000000; max_jitter := 0; clock_drift_ppm := 0;
       rates := {| accelerometer_hz := 10000; gyroscope_hz := 10000; camera_hz := 10000;
                   gps_hz := 10000; temperature_hz := 10000; fault_monitor_hz := 10000 |};
       faults := FaultInjection_default |} in
  foldr Z.add 0 (event_count (duration config) <$> rate_list (rates config)) = 1980000 /\
  is_Some (validate_config config).
Proof. split; [vm_compute; reflexivity|]. by eexists. Qed.

(** C28: the schedule is exact. A sensor of rate [r] gets [duration * r] events
    per second of the duration, rounded down; event [i] is due at [i / r]
    seconds, rounded down to nanoseconds, inside the duration and later than the
    event before; the drifted clock never runs backwards, at most twice as fast,
    and the division in two parts is the division of the whole. *)
Theorem generated_schedule_exact (d r ppm : Z)
    (Hd : 1 <= d <= kMaxDurationNs) (Hr : 0 < r <= kMaxSensorRateHz)
    (Hppm : -1000000 <= ppm <= 1000000) :
  event_count d r = d * r / kNanosecondsPerSecond /\
  (forall i, 0 <= i < event_count d r ->
     scheduled_time_ns i r = i * kNanosecondsPerSecond / r /\
     0 <= scheduled_time_ns i r < d) /\
  (forall i j, 0 <= i < j -> j < event_count d r ->
     scheduled_time_ns i r < scheduled_time_ns j r) /\
  (forall e e', 0 <= e <= e' -> e' <= d ->
     apply_clock_drift e ppm = e + Z.quot (e * ppm) 1000000 /\
     0 <= apply_clock_drift e ppm <= apply_clock_drift e' ppm /\
     apply_clock_drift e' ppm <= 2 * e').
Proof.
  split; [apply event_count_spec; lia|]. split; [|split].
  - intros i Hi. destruct (scheduled_time_bounds d r i Hd Hr Hi) as [H31 Hb].
    split; [apply scheduled_time_spec; lia|done].
  - intros i j Hij Hj. by apply (scheduled_time_mono d).
  - intros e e' He He'. destruct (drift_in_range e ppm) as [H1 _]; [lia|done|].
    destruct (drift_in_range e' ppm) as [H2 _]; [lia|done|].
    pose proof (drift_mono e e' ppm He Hppm).
    split; [apply apply_clock_drift_spec; lia|lia].
Qed.

Lemma generated_schedule_exact_witness :
  event_count 1500000000 3 = 4 /\ scheduled_time_ns 2 3 = 666666666.
Proof.
  destruct (generated_schedule_exact 1500000000 3 (-20)) as (H1 & H2 & _).
  - split; by vm_compute.
  - split; by vm_compute.
  - lia.
  - split; [rewrite H1; by vm_compute|].
    rewrite (proj1 (H2 2 ltac:(rewrite H1; split; by vm_compute))). by vm_compute.
Defined.

(** C26: for every accepted configuration the generator terminates: the rejection
    loops of its random numbers end (the engine keeps drawing values of the upper
    half), no exception is thrown, and from some number of draws on the result
    does not depend on how many were allowed. The workload is made as
    [generated_from] says, and its hash is that of its events. *)
Theorem generator_terminates {E} `{!RandomEngine E} `{!EventCodec}
    (state_name : Z -> string) (config : GeneratorConfig)
    (Hname : forall state, str_size (state_name state) <= kMaxDetailBytes)
    (Hser : forall ev, event_valid ev -> is_Some (SerializeToString ev))
    (Hwf : config_wf config) (Hvalid : validate_config config = None)
    (Hfair : fair (seed_engine (seed config))) :
  exists w, runs_to state_name config w /\
    stable_event_hash (events w) = Some (gen_hash w) /\
    exists states base kept, draws_base (E := E) state_name config base /\
      generated_from config states base kept (events w) (gen_stats w).
Proof. by apply run_exists. Qed.

Lemma generator_terminates_witness :
  exists w, runs_to sample_state_name sample_config w /\
    stable_event_hash (events w) = Some (gen_hash w).
Proof.
  destruct (generator_terminates sample_state_name sample_config sample_state_name_short
    sequence_codec_total sample_config_wf ltac:(by vm_compute) (steady_fair _))
    as (w & H1 & H2 & _).
  by exists w.
Defined.

(** C25: the workload and its counters, step by step. [base] is what
    [base_events] draws from the seed, at most 2000004 events with distinct keys,
    so that every sorting algorithm gives the order used. [counts] says how often
    each of the sorted events is kept - 0, 1 or 2 times - and [swaps] at which
    positions neighbours were swapped afterwards, no two of these pairs
    overlapping: the emitted events are exactly the result, [dropped_events]
    the number of zeros, [duplicated_events] the number of twos and
    [reordered_pairs] the number of swaps. Where a probability is 0 or one
    million, these are none or all. Every emitted event would be accepted by a
    fresh [StreamValidator] (GPS coordinates included: the limit on the number of
    events keeps them on the globe). *)
Theorem generated_workload_exact {E} `{!RandomEngine E} `{!EventCodec}
    (state_name : Z -> string) (config : GeneratorConfig) (w : GeneratedWorkload)
    (Hname : forall state, str_size (state_name state) <= kMaxDetailBytes)
    (Hser : forall ev, event_valid ev -> is_Some (SerializeToString ev))
    (Hwf : config_wf config) (Hvalid : validate_config config = None)
    (Hfair : fair (seed_engine (seed config)))
    (Hrun : runs_to state_name config w) :
  let st := gen_stats w in
  let f := faults config in
  exists base counts swaps,
    draws_base (E := E) state_name config base /\
    generated_events st = Zlength base /\ Zlength base <= 2000004 /\
    (forall sorted, sorted ≡ₚ base -> StronglySorted event_le sorted ->
       sorted = sort_events base) /\
    length counts = length base /\ Forall (fun n => (n <= 2)%nat) counts /\
    dropped_events st = times_seen 0 counts /\ duplicated_events st = times_seen 2 counts /\
    let kept := copies counts (sort_events base) in
    Zlength kept = generated_events st - dropped_events st + duplicated_events st /\
    StronglySorted (fun i j => (S i < j)%nat) swaps /\
    Forall (fun i => (S i < length kept)%nat) swaps /\
    reordered_pairs st = Zlength swaps /\
    events w = swap_all kept swaps /\
    (drop_per_million f <= 0 -> dropped_events st = 0) /\
    (kProbabilityScale <= drop_per_million f -> dropped_events st = Zlength base) /\
    (duplicate_per_million f <= 0 -> duplicated_events st = 0) /\
    (drop_per_million f <= 0 -> kProbabilityScale <= duplicate_per_million f ->
       duplicated_events st = Zlength base) /\
    (reorder_per_million f <= 0 -> reordered_pairs st = 0) /\
    (kProbabilityScale <= reorder_per_million f ->
       reordered_pairs st = Zlength (events w) / 2) /\
    Forall (fun ev => event_wf ev /\ accepted (fst (accept StreamValidator_init ev)) = true)
      (events w).
Proof.
  assert (Hok : config_ok config) by by apply validate_config_spec.
  destruct (run_facts state_name Hname Hser config Hwf Hvalid Hfair w Hrun)
    as (_ & states & base & kept & Hdraws & Hg).
  pose proof (generated_valid config Hok states base kept _ _ Hg) as Hev.
  destruct Hg as [Hb Hc Hi Hs _ Hr0 Hd0 Hu0 Hda Hua Hra].
  destruct (injected_facts _ _ _ _ Hi) as (Hlen & _).
  destruct (injected_copies _ _ _ _ Hi) as (counts & Hcl & Hc2 & Hk & Hd & Hu).
  destruct (swapped_swaps _ _ _ Hs) as (swaps & Hsort & Hin & Hz & Hout).
  rewrite (sort_events_perm base) in Hlen, Hcl. rewrite <- Hc in Hlen.
  pose proof (base_size config Hok states base Hb) as Hsize. unfold kMaxGeneratedEvents in Hsize.
  exists base, counts, swaps. cbv zeta. rewrite <- Hk.
  split_and!; try done; try lia.
  - intros l Hl Hs'. apply sort_events_unique; [by eapply base_keys|done|done].
  - apply Forall_forall. intros ev He. destruct (Hev ev He) as [Hew Hadm]. split; [done|].
    destruct (accept_cases StreamValidator_init ev) as [[_ ->]|[Hno _]]; [solve_range|done|done|].
    by destruct Hno.
Qed.

Lemma generated_workload_exact_witness :
  exists w base counts swaps, runs_to sample_state_name sample_config w /\
    draws_base (E := unit) sample_state_name sample_config base /\
    events w = swap_all (copies counts (sort_events base)) swaps /\
    reordered_pairs (gen_stats w) = Zlength swaps.
Proof.
  assert (Hv : validate_config sample_config = None) by by vm_compute.
  destruct (run_exists sample_state_name sample_state_name_short sequence_codec_total
    sample_config sample_config_wf Hv (steady_fair _)) as (w & Hw & _).
  destruct (generated_workload_exact sample_state_name sample_config w
    sample_state_name_short sequence_codec_total sample_config_wf Hv (steady_fair _) Hw)
    as (base & counts & swaps & H1 & _ & _ & _ & _ & _ & _ & _ & _ & _ & _ & H2 & H3 & _).
  exists w, base, counts, swaps. split; [exact Hw|]. split; [exact H1|]. split; [exact H3|exact H2].
Defined.

(** C27: without jitter and faults every producer's events come out complete and
    in order, and the collector's validator accepts each of these streams
    entirely: for every sensor [event_count] events (for the controller three or
    four), numbered from 0 without a gap, and the stream's summary counts all of
    them and no gap. Nothing else is generated. *)
Theorem quiet_streams_accepted {E} `{!RandomEngine E} `{!EventCodec}
    (state_name : Z -> string) (config : GeneratorConfig) (w : GeneratedWorkload)
    (Hname : forall state, str_size (state_name state) <= kMaxDetailBytes)
    (Hser : forall ev, event_valid ev -> is_Some (SerializeToString ev))
    (Hwf : config_wf config) (Hvalid : validate_config config = None)
    (Hfair : fair (seed_engine (seed config)))
    (Hrun : runs_to state_name config w)
    (Hjitter : max_jitter config = 0)
    (Hfaults : drop_per_million (faults config) <= 0 /\
       duplicate_per_million (faults config) <= 0 /\ reorder_per_million (faults config) <= 0) :
  exists states, states_ok (duration config) states /\
    (forall ev, ev ∈ events w -> producer_id ev ∈ (streams config states).*1) /\
    forall producer times, (producer, times) ∈ streams config states ->
    let evs := filter (fun ev => producer_id ev = producer) (events w) in
    sequence_number <$> evs = seqZ 0 (Zlength times) /\
    exists st, accept_stream StreamValidator_init evs = (evs, st) /\
      accepted_events_ st = Zlength times /\ sequence_gaps_ st = 0.
Proof.
  destruct (quiet_streams state_name config w Hname Hser Hwf Hvalid Hfair Hrun Hjitter Hfaults)
    as (states & Hst & Hev & _ & Hall).
  exists states. split; [done|]. split; [|done]. intros ev Hin. by apply Hev.
Qed.

Lemma quiet_streams_accepted_witness :
  exists w st, runs_to sample_state_name quiet_config w /\
    accept_stream StreamValidator_init
      (filter (fun ev => producer_id ev = "sim-gps"%string) (events w)) =
      (filter (fun ev => producer_id ev = "sim-gps"%string) (events w), st) /\
    accepted_events_ st = 5 /\ sequence_gaps_ st = 0.
Proof.
  assert (Hv : validate_config quiet_config = None) by by vm_compute.
  destruct (run_exists sample_state_name sample_state_name_short sequence_codec_total
    quiet_config quiet_config_wf Hv (steady_fair _)) as (w & Hw & _).
  destruct (quiet_streams_accepted sample_state_name quiet_config w
    sample_state_name_short sequence_codec_total quiet_config_wf Hv (steady_fair _) Hw)
    as (states & _ & _ & Hall).
  - done.
  - solve_range.
  - destruct (Hall "sim-gps"%string (schedule quiet_config 10)) as (_ & st & Hst & Ha & Hg).
    { apply (list_elem_of_lookup_2 _ 3). done. }
    exists w, st. split; [done|]. split; [exact Hst|]. split; [|exact Hg].
    rewrite Ha. by vm_compute.
Defined.
