(* ===== verification/OrderedMap.v ===== *)
(** * OrderedMap: [std::map] with [operator\[\]]

    The sources use [std::map] to group records: they look a key up, creating a
    default value when it is missing, change the value in place, and at the end
    walk over the entries in key order. A map is the list of its entries in
    strictly ascending key order. *)
From Stdlib Require Import ZArith Lia.
From stdpp Require Import base gmap strings list sorting.
From S2P Require Import Prelude.
Local Open Scope Z_scope.

(** The order of the keys; keys are equal when neither is below the other. *)
Class KeyOrder (K : Type) := {
  key_compare : K -> K -> comparison;
  key_compare_eq : forall a b, key_compare a b = Eq <-> a = b;
  key_compare_antisym : forall a b, key_compare b a = CompOpp (key_compare a b);
  key_compare_trans : forall a b c,
    key_compare a b = Lt -> key_compare b c = Lt -> key_compare a c = Lt;
}.

(** [std::string]: bytes, unsigned, lexicographic. *)
Lemma string_compare_trans a b c :
  String.compare a b = Lt -> String.compare b c = Lt -> String.compare a c = Lt.
Proof.
  intros H1 H2.
  assert (Hle : forall s t, String.compare s t = Lt -> String.le s t)
    by (intros s t Hst; unfold String.le, String.leb; by rewrite Hst).
  pose proof (transitivity (Hle _ _ H1) (Hle _ _ H2)) as Hac.
  unfold String.le, String.leb in Hac. destruct (String.compare a c) eqn:E; [|done|done].
  apply String.compare_eq_iff in E as ->. rewrite String.compare_antisym, H2 in H1. done.
Qed.

Lemma string_compare_eq a b : String.compare a b = Eq <-> a = b.
Proof.
  split; [apply String.compare_eq_iff|]. intros ->.
  pose proof (String.compare_antisym b b) as H. by destruct (String.compare b b).
Qed.

#[export] Instance string_key_order : KeyOrder string := {
  key_compare := String.compare;
  key_compare_eq := string_compare_eq;
  key_compare_antisym := fun a b => String.compare_antisym b a;
  key_compare_trans := string_compare_trans;
}.

#[export] Instance Z_key_order : KeyOrder Z := {
  key_compare := Z.compare;
  key_compare_eq := Z.compare_eq_iff;
  key_compare_antisym := fun a b => Z.compare_antisym a b;
  key_compare_trans := Z.lt_trans;
}.

(** [std::pair] and [std::tuple]: lexicographic. *)
Section pairs.
Context {A B : Type} `{!KeyOrder A} `{!KeyOrder B}.
Implicit Types (p q r : A * B).

Definition pair_compare p q : comparison :=
  match key_compare p.1 q.1 with Eq => key_compare p.2 q.2 | c => c end.

Lemma key_compare_refl {K} `{!KeyOrder K} (k : K) : key_compare k k = Eq.
Proof. by apply key_compare_eq. Qed.

Lemma pair_compare_eq p q : pair_compare p q = Eq <-> p = q.
Proof.
  destruct p as [a b], q as [a' b']. unfold pair_compare. cbn. split.
  - destruct (key_compare a a') eqn:E; [|done..].
    apply key_compare_eq in E as ->. by intros ->%key_compare_eq.
  - intros [= -> ->]. by rewrite !key_compare_refl.
Qed.

Lemma pair_compare_antisym p q : pair_compare q p = CompOpp (pair_compare p q).
Proof.
  unfold pair_compare. rewrite (key_compare_antisym p.1 q.1).
  destruct (key_compare p.1 q.1); cbn; [apply key_compare_antisym|done|done].
Qed.

Lemma pair_compare_trans p q r :
  pair_compare p q = Lt -> pair_compare q r = Lt -> pair_compare p r = Lt.
Proof.
  destruct p as [a1 b1], q as [a2 b2], r as [a3 b3]. unfold pair_compare. cbn.
  destruct (key_compare a1 a2) eqn:E1; [|intros _|done].
  - apply key_compare_eq in E1 as ->. destruct (key_compare a2 a3); [apply key_compare_trans|done..].
  - destruct (key_compare a2 a3) eqn:E2; [|intros _|done].
    + apply key_compare_eq in E2 as <-. by rewrite E1.
    + by rewrite (key_compare_trans _ _ _ E1 E2).
Qed.

#[export] Instance pair_key_order : KeyOrder (A * B) := {
  key_compare := pair_compare;
  key_compare_eq := pair_compare_eq;
  key_compare_antisym := pair_compare_antisym;
  key_compare_trans := pair_compare_trans;
}.
End pairs.

Section maps.
Context {K V : Type} `{!KeyOrder K} `{!EqDecision K}.
Implicit Types (k : K) (v : V) (m : list (K * V)).

(** [f(m[k])]: the value of [k], default-constructed when missing, changed. *)
Fixpoint map_update k (f : V -> V) (dflt : V) m : list (K * V) :=
  match m with
  | [] => [(k, f dflt)]
  | (k', v) :: m' =>
      match key_compare k k' with
      | Lt => (k, f dflt) :: m
      | Eq => (k', f v) :: m'
      | Gt => (k', v) :: map_update k f dflt m'
      end
  end.

(** [m.find(k)] *)
Fixpoint map_find k m : option V :=
  match m with
  | [] => None
  | (k', v) :: m' => if decide (k = k') then Some v else map_find k m'
  end.

Definition key_lt k k' : Prop := key_compare k k' = Lt.

Definition map_wf m : Prop := StronglySorted key_lt m.*1.

Lemma key_lt_irrefl k : ~ key_lt k k.
Proof. unfold key_lt. by rewrite (proj2 (key_compare_eq k k) eq_refl). Qed.

Lemma key_gt_lt k k' : key_compare k k' = Gt -> key_lt k' k.
Proof. unfold key_lt. intros H. by rewrite key_compare_antisym, H. Qed.

Lemma map_update_keys k f d m x : x ∈ (map_update k f d m).*1 <-> x = k \/ x ∈ m.*1.
Proof.
  induction m as [|[k' v] m IH]; cbn [map_update].
  { cbn. rewrite list_elem_of_singleton, elem_of_nil. tauto. }
  destruct (key_compare k k') eqn:E; cbn [fmap list_fmap fst]; rewrite !elem_of_cons.
  - apply key_compare_eq in E as ->. tauto.
  - tauto.
  - fold (fst <$> m) (fst <$> map_update k f d m). unfold fmap in *. rewrite IH. tauto.
Qed.

Lemma map_update_wf k f d m : map_wf m -> map_wf (map_update k f d m).
Proof.
  unfold map_wf. induction m as [|[k' v] m IH]; cbn [map_update]; intros Hm; [by repeat constructor|].
  rewrite fmap_cons in Hm. cbn [fst] in Hm. apply StronglySorted_inv in Hm as [Hs Hk].
  destruct (key_compare k k') eqn:E; rewrite !fmap_cons; cbn [fst].
  - by constructor.
  - constructor; [by constructor|]. constructor; [done|].
    eapply Forall_impl; [exact Hk|]. intros x Hx. by eapply key_compare_trans.
  - constructor; [by apply IH|]. apply Forall_forall. intros x [->|Hx]%map_update_keys.
    + by apply key_gt_lt.
    + rewrite Forall_forall in Hk. by apply Hk.
Qed.

Lemma map_find_none k m : k ∉ m.*1 -> map_find k m = None.
Proof.
  induction m as [|[k' v] m IH]; [done|]. rewrite fmap_cons, not_elem_of_cons. cbn.
  intros [Hne Hnin]. rewrite decide_False by done. by apply IH.
Qed.

Lemma map_find_elem k v m : map_wf m -> map_find k m = Some v <-> (k, v) ∈ m.
Proof.
  induction m as [|[k' w] m IH]; intros Hm; cbn [map_find].
  { rewrite elem_of_nil. done. }
  unfold map_wf in Hm. rewrite fmap_cons in Hm. apply StronglySorted_inv in Hm as [Hs Hk].
  cbn [fst] in *. rewrite elem_of_cons. destruct (decide (k = k')) as [->|Hne].
  - split; [intros [= ->]; by left|]. intros [[= ->]|Hin]; [done|].
    rewrite Forall_forall in Hk. destruct (key_lt_irrefl k'). apply Hk.
    by apply (list_elem_of_fmap_2 fst) in Hin.
  - rewrite (IH Hs). split; [by right|]. by intros [[= ->]|].
Qed.

Lemma map_find_update k f d m k' : map_wf m ->
  map_find k' (map_update k f d m) =
    if decide (k' = k) then Some (f (default d (map_find k m))) else map_find k' m.
Proof.
  induction m as [|[k1 v1] m IH]; intros Hm; cbn [map_update map_find].
  { by case_decide. }
  assert (Hm' := Hm). unfold map_wf in Hm'. rewrite fmap_cons in Hm'. cbn [fst] in Hm'.
  apply StronglySorted_inv in Hm' as [Hs Hk]. rewrite Forall_forall in Hk.
  destruct (key_compare k k1) eqn:E; cbn [map_find].
  - apply key_compare_eq in E as ->. rewrite (decide_True _ _ (eq_refl k1)). by case_decide.
  - assert (Hne : k <> k1) by (intros ->; by apply (key_lt_irrefl k1)).
    rewrite (decide_False _ _ Hne). rewrite (map_find_none k m); [by case_decide|].
    intros Hin. apply (key_lt_irrefl k). by eapply key_compare_trans, Hk.
  - assert (Hne : k <> k1) by (intros ->; by apply (key_lt_irrefl k1), key_gt_lt).
    rewrite (decide_False _ _ Hne). rewrite (IH Hs).
    destruct (decide (k' = k1)) as [->|]; [|done]. by rewrite decide_False by done.
Qed.

(** A map is determined by its entries. *)
Lemma map_wf_unique m m' : map_wf m -> map_wf m' ->
  (forall k, map_find k m = map_find k m') -> m = m'.
Proof.
  revert m'. induction m as [|[k v] m IH]; intros [|[k' v'] m'] Hm Hm' Heq.
  - done.
  - specialize (Heq k'). cbn in Heq. by rewrite decide_True in Heq.
  - specialize (Heq k). cbn in Heq. by rewrite decide_True in Heq.
  - assert (Hs := Hm). assert (Hs' := Hm'). unfold map_wf in Hs, Hs'.
    rewrite fmap_cons in Hs, Hs'. cbn [fst] in Hs, Hs'.
    apply StronglySorted_inv in Hs as [Hs Hk]. apply StronglySorted_inv in Hs' as [Hs' Hk'].
    rewrite Forall_forall in Hk, Hk'.
    assert (Hkk : k = k').
    { destruct (key_compare k k') eqn:E; [by apply key_compare_eq in E| |].
      - pose proof (Heq k) as Hq. cbn in Hq. rewrite decide_True in Hq by done.
        rewrite decide_False in Hq by (intros ->; by apply (key_lt_irrefl k')).
        rewrite map_find_none in Hq; [done|]. intros Hin.
        apply (key_lt_irrefl k). by eapply key_compare_trans, Hk'.
      - apply key_gt_lt in E. pose proof (Heq k') as Hq. cbn in Hq.
        rewrite decide_False in Hq by (intros ->; by apply (key_lt_irrefl k)).
        rewrite decide_True in Hq by done.
        rewrite map_find_none in Hq; [done|]. intros Hin.
        apply (key_lt_irrefl k'). by eapply key_compare_trans, Hk. }
    subst k'. pose proof (Heq k) as Hq. cbn in Hq. rewrite !decide_True in Hq by done.
    injection Hq as ->. f_equal. apply IH; [done|done|]. intros x. specialize (Heq x). cbn in Heq.
    destruct (decide (x = k)) as [->|]; [|done].
    rewrite !map_find_none; [done|..]; intros Hin; apply (key_lt_irrefl k); auto.
Qed.
End maps.

(** ** Grouping: one update per element of a list *)

Section grouping.
Context {K V A : Type} `{!KeyOrder K} `{!EqDecision K}.
Context (key : A -> K) (step : A -> V -> V) (dflt : V).

Definition group_by (l : list A) (m : list (K * V)) : list (K * V) :=
  fold_left (fun m x => map_update (key x) (step x) dflt m) l m.

(** The elements of a key. *)
Definition of_key (k : K) (l : list A) : list A := filter (fun x => key x = k) l.

Lemma group_by_wf l m : map_wf m -> map_wf (group_by l m).
Proof. revert m. induction l as [|x l IH]; intros m Hm; cbn; [done|]. by apply IH, map_update_wf. Qed.

(** Every key has the fold of its own elements. *)
Lemma group_by_find l k : forall m, map_wf m ->
  map_find k (group_by l m) =
    match of_key k l with
    | [] => map_find k m
    | own => Some (fold_left (fun v x => step x v) own (default dflt (map_find k m)))
    end.
Proof.
  unfold of_key. induction l as [|x l IH]; intros m Hm; cbn [group_by fold_left]; [done|].
  change (fold_left _ l ?z) with (group_by l z). rewrite IH by (by apply map_update_wf).
  rewrite filter_cons, map_find_update by done.
  destruct (decide (key x = k)) as [<-|Hne].
  - rewrite decide_True by done. cbn [fold_left default].
    by destruct (filter (fun y => key y = key x) l).
  - by rewrite decide_False by (intros ->; done).
Qed.

Lemma group_by_elem l k v : (k, v) ∈ group_by l [] <->
  of_key k l <> [] /\ v = fold_left (fun v x => step x v) (of_key k l) dflt.
Proof.
  rewrite <- map_find_elem by (apply group_by_wf; constructor).
  rewrite group_by_find by constructor. destruct (of_key k l) as [|x own]; cbn [map_find default].
  - split; [done|by intros [? _]].
  - split; [intros [= <-]; done|by intros [_ ->]].
Qed.

Lemma group_by_keys l k : k ∈ (group_by l []).*1 <-> exists x, x ∈ l /\ key x = k.
Proof.
  rewrite list_elem_of_fmap. split.
  - intros ([k' v] & -> & [Hne _]%group_by_elem). cbn.
    destruct (of_key k' l) as [|x own] eqn:E; [done|]. exists x.
    assert (Hx : x ∈ of_key k' l) by (rewrite E; left).
    apply list_elem_of_filter in Hx as [Hk Hx]. done.
  - intros (x & Hx & <-). eexists (_, _). split; [reflexivity|]. apply group_by_elem.
    split; [|reflexivity]. intros E. apply (not_elem_of_nil x). rewrite <- E.
    by apply list_elem_of_filter.
Qed.
End grouping.
