(* ===== verification/Publisher.v ===== *)
(** * Publisher: [WorkloadPublisher] of [src/generator/workload_publisher.cpp]

    [publish] groups the events by producer and starts one thread per producer;
    every thread writes its events to a client stream of the collector and stores
    its result in its own slot of the report. The threads run interleaved: a
    state holds the program counter of each, and a step is one gRPC call (or the
    store) of one thread, or the creation of the next thread. The gRPC library is
    the interface [GrpcChannel]. *)
From Stdlib Require Import ZArith Lia.
From stdpp Require Import base gmap strings list sorting.
From S2P Require Import Prelude Bytes Floats Telemetry Validation OrderedMap.
Local Open Scope Z_scope.
Local Open Scope tf_scope.

(** ** Data *)

Record ProducerEvents := {
  pe_producer_id : string;
  pe_events : list TelemetryEvent;
}.

Definition group_by_producer (events : list TelemetryEvent) : list ProducerEvents :=
  let grouped := group_by producer_id (fun event l => l ++ [event]) [] events [] in
  (fun p => {| pe_producer_id := p.1; pe_events := p.2 |}) <$> grouped.

Record ProducerPublishResult := {
  pr_producer_id : string;
  pr_attempted_events : Z;
  pr_written_events : Z;
  pr_accepted_events : Z;
  pr_sequence_gaps : Z;
  pr_grpc_status_code : Z;
  pr_error_message : string;
}.

Definition ProducerPublishResult_default : ProducerPublishResult :=
  {| pr_producer_id := ""; pr_attempted_events := 0; pr_written_events := 0;
     pr_accepted_events := 0; pr_sequence_gaps := 0; pr_grpc_status_code := 0;
     pr_error_message := "" |}.

(** The values of [grpc::StatusCode] the publisher names. *)
Definition GRPC_OK : Z := 0.
Definition GRPC_UNAVAILABLE : Z := 14.

(** [PublishReport] *)
Abbreviation PublishReport := (list ProducerPublishResult).

Definition result_succeeded (r : ProducerPublishResult) : bool :=
  (pr_grpc_status_code r =? GRPC_OK) &&
  (pr_written_events r =? pr_attempted_events r) &&
  (pr_accepted_events r =? pr_attempted_events r).

Definition report_succeeded (producers : PublishReport) : bool :=
  forallb result_succeeded producers.

(** [std::accumulate] over [std::uint64_t] *)
Definition attempted_events (producers : PublishReport) : Z :=
  fold_left (fun total result => u64 (total + pr_attempted_events result)) producers 0.

Definition accepted_events (producers : PublishReport) : Z :=
  fold_left (fun total result => u64 (total + pr_accepted_events result)) producers 0.

Record WorkloadPublisherConfig := {
  target : string;
  connect_timeout : Z;    (* milliseconds *)
}.

Definition WorkloadPublisherConfig_default : WorkloadPublisherConfig :=
  {| target := "127.0.0.1:50051"; connect_timeout := 5000 |}.

(** The constructor: the message of the exception, if any. *)
Definition publisher_config_error (config : WorkloadPublisherConfig) : option string :=
  return_if str_empty (target config) with Some "publisher target cannot be empty" ;;
  return_if connect_timeout config <=? 0 with Some "connect timeout must be positive" ;;
  None.

(** ** gRPC *)

Record GrpcStatus := { error_code : Z; error_message : string }.
Definition status_ok (st : GrpcStatus) : bool := error_code st =? GRPC_OK.

(** The client side of the calls, numbered by the thread that makes them. *)
Class GrpcChannel (N : Type) := {
  CreateChannel : string -> N -> N;
  WaitForConnected : Z -> N -> bool * N;
  call_open : nat -> N -> N;
  call_write : nat -> TelemetryEvent -> N -> bool * N;
  call_writes_done : nat -> N -> N;
  call_finish : nat -> N -> GrpcStatus * StreamSummary * N;
}.

(** What a thread calls. *)
Inductive grpc_call :=
  | C_open
  | C_write (ev : TelemetryEvent) (ok : bool)
  | C_writes_done
  | C_finish (status : GrpcStatus) (summary : StreamSummary).

(** ** The threads *)

Inductive thread_pc :=
  | Opening (producer : ProducerEvents)
  | Writing (result : ProducerPublishResult) (left_ : list TelemetryEvent)
  | Closing (result : ProducerPublishResult)
  | Finishing (result : ProducerPublishResult)
  | Storing (result : ProducerPublishResult)
  | Stored.

#[export] Instance stored_dec pc : Decision (pc = Stored).
Proof. destruct pc; [right; discriminate..|left; reflexivity]. Defined.

Definition start_result (producer : ProducerEvents) : ProducerPublishResult :=
  {| pr_producer_id := pe_producer_id producer;
     pr_attempted_events := u64 (Zlength (pe_events producer));
     pr_written_events := 0; pr_accepted_events := 0; pr_sequence_gaps := 0;
     pr_grpc_status_code := 0; pr_error_message := "" |}.

(** [++result.written_events] *)
Definition count_written (r : ProducerPublishResult) : ProducerPublishResult :=
  {| pr_producer_id := pr_producer_id r; pr_attempted_events := pr_attempted_events r;
     pr_written_events := u64 (pr_written_events r + 1);
     pr_accepted_events := pr_accepted_events r; pr_sequence_gaps := pr_sequence_gaps r;
     pr_grpc_status_code := pr_grpc_status_code r; pr_error_message := pr_error_message r |}.

(** What the thread does with the status and the summary. *)
Definition finish_result (r : ProducerPublishResult) (status : GrpcStatus)
    (summary : StreamSummary) : ProducerPublishResult :=
  {| pr_producer_id := pr_producer_id r; pr_attempted_events := pr_attempted_events r;
     pr_written_events := pr_written_events r;
     pr_accepted_events :=
       if status_ok status then summary_accepted_events summary else pr_accepted_events r;
     pr_sequence_gaps :=
       if status_ok status then summary_sequence_gaps summary else pr_sequence_gaps r;
     pr_grpc_status_code := error_code status; pr_error_message := error_message status |}.

Section publish.
Context {N : Type} `{!GrpcChannel N}.

Record publish_state := {
  channel : N;
  created : nat;                (* the threads started so far *)
  threads : list thread_pc;
  report : PublishReport;
}.

(** One step of thread [i]: the state after it and the gRPC call it made. *)
Definition thread_step (i : nat) (s : publish_state)
    : option (publish_state * option grpc_call) :=
  return_if negb (i <? created s)%nat with None ;;
  let go n pc c :=
    Some ({| channel := n; created := created s; threads := <[i := pc]> (threads s);
             report := report s |}, Some c) in
  match threads s !! i with
  | Some (Opening producer) =>
      go (call_open i (channel s)) (Writing (start_result producer) (pe_events producer)) C_open
  | Some (Writing result (event :: left_)) =>
      let '(ok, n) := call_write i event (channel s) in
      go n (if ok then Writing (count_written result) left_ else Closing result)
        (C_write event ok)
  | Some (Writing result []) | Some (Closing result) =>
      go (call_writes_done i (channel s)) (Finishing result) C_writes_done
  | Some (Finishing result) =>
      let '(status, summary, n) := call_finish i (channel s) in
      go n (Storing (finish_result result status summary)) (C_finish status summary)
  | Some (Storing result) =>
      Some ({| channel := channel s; created := created s; threads := <[i := Stored]> (threads s);
               report := <[i := result]> (report s) |}, None)
  | Some Stored | None => None
  end.

(** [threads.emplace_back] *)
Definition spawn_step (s : publish_state) : option publish_state :=
  return_if negb (created s <? length (threads s))%nat with None ;;
  Some {| channel := channel s; created := S (created s); threads := threads s;
          report := report s |}.

(** Steps with the calls they make. *)
Inductive publish_step (s : publish_state) : list (nat * grpc_call) -> publish_state -> Prop :=
  | step_spawn s' : spawn_step s = Some s' -> publish_step s [] s'
  | step_thread i s' c : thread_step i s = Some (s', c) ->
      publish_step s ((fun c => (i, c)) <$> option_list c) s'.

Inductive publish_steps : publish_state -> nat -> list (nat * grpc_call) -> publish_state -> Prop :=
  | steps_none s : publish_steps s 0 [] s
  | steps_more s n tr s' tr' s'' :
      publish_steps s n tr s' -> publish_step s' tr' s'' ->
      publish_steps s (S n) (tr ++ tr') s''.

(** The joins of the main thread have returned. *)
Definition all_joined (s : publish_state) : Prop :=
  created s = length (threads s) /\ Forall (fun pc => pc = Stored) (threads s).

(** [publish] up to the threads: the report returned early, or the state in which
    the main thread starts to create them. *)
Definition publish (config : WorkloadPublisherConfig) (events : list TelemetryEvent) (n : N)
    : PublishReport + publish_state :=
  let producer_events := group_by_producer events in
  let resized := replicate (length producer_events) ProducerPublishResult_default in
  return_if bool_decide (producer_events = []) with inl resized ;;
  let '(connected, n) := WaitForConnected (connect_timeout config) (CreateChannel (target config) n) in
  return_if negb connected with
    inl ((fun producer =>
      {| pr_producer_id := pe_producer_id producer;
         pr_attempted_events := u64 (Zlength (pe_events producer));
         pr_written_events := 0; pr_accepted_events := 0; pr_sequence_gaps := 0;
         pr_grpc_status_code := GRPC_UNAVAILABLE;
         pr_error_message := "collector connection timed out" |}) <$> producer_events) ;;
  inr {| channel := n; created := 0; threads := Opening <$> producer_events;
         report := resized |}.

#[export] Instance all_joined_dec s : Decision (all_joined s).
Proof. unfold all_joined. apply _. Defined.

(** A turn: the next step of the main thread ([None]) or of a thread, if it has one. *)
Definition turn_step (turn : option nat) (s : publish_state) : option publish_state :=
  match turn with None => spawn_step s | Some i => fst <$> thread_step i s end.

(** The state after the turns of a schedule; turns nobody can take are passed over. *)
Fixpoint follow (s : publish_state) (schedule : list (option nat)) : publish_state :=
  match schedule with
  | [] => s
  | turn :: schedule => follow (default s (turn_step turn s)) schedule
  end.
End publish.
Arguments publish_state : clear implicits.

(** ** Grouping *)

Section grouping.
Implicit Types (events : list TelemetryEvent).

Lemma push_back_fold own : forall acc : list TelemetryEvent,
  fold_left (fun v x => v ++ [x]) own acc = acc ++ own.
Proof.
  induction own as [|x own IH]; intros acc; cbn; [by rewrite app_nil_r|].
  by rewrite IH, <- app_assoc.
Qed.

Lemma group_elem events g : g ∈ group_by_producer events <->
  pe_events g <> [] /\
  pe_events g = filter (fun ev => producer_id ev = pe_producer_id g) events.
Proof.
  unfold group_by_producer. rewrite list_elem_of_fmap. split.
  - intros ([k v] & -> & [Hne ->]%group_by_elem). cbn [pe_events pe_producer_id fst snd].
    by rewrite push_back_fold.
  - intros [Hne Hg]. exists (pe_producer_id g, pe_events g). split; [by destruct g|].
    apply group_by_elem. rewrite push_back_fold, app_nil_l. unfold of_key.
    by rewrite <- Hg.
Qed.

Lemma group_sorted events :
  StronglySorted key_lt (pe_producer_id <$> group_by_producer events).
Proof.
  unfold group_by_producer. rewrite <- list_fmap_compose.
  by apply (group_by_wf producer_id (fun event l => l ++ [event]) [] events []); constructor.
Qed.

(** Adding an event to its entry adds one to the total size. *)
Lemma map_update_total k (ev : TelemetryEvent) (m : list (string * list TelemetryEvent)) :
  concat (map_update k (fun l => l ++ [ev]) [] m).*2 ≡ₚ ev :: concat m.*2.
Proof.
  induction m as [|[k' l] m IH]; cbn [map_update]; [done|].
  destruct (key_compare k k'); rewrite !fmap_cons; cbn [concat snd].
  - rewrite <- app_assoc. cbn. by rewrite <- Permutation_middle.
  - done.
  - rewrite IH. by rewrite <- Permutation_middle.
Qed.

Lemma group_total events : concat (pe_events <$> group_by_producer events) ≡ₚ events.
Proof.
  unfold group_by_producer. rewrite <- list_fmap_compose. unfold group_by.
  enough (forall m, concat (fold_left (fun m x => map_update (producer_id x)
      (fun l => l ++ [x]) [] m) events m).*2 ≡ₚ events ++ concat m.*2) as H.
  { rewrite (H []). cbn. by rewrite app_nil_r. }
  induction events as [|ev events IH]; intros m; cbn [fold_left]; [done|].
  rewrite IH, map_update_total. by rewrite <- Permutation_middle.
Qed.
End grouping.

Lemma group_sizes events :
  sum_list (length <$> (pe_events <$> group_by_producer events)) = length events.
Proof.
  rewrite <- (Permutation_length (group_total events)).
  induction (pe_events <$> group_by_producer events) as [|l ls IH]; [done|].
  rewrite fmap_cons. cbn [sum_list_with concat]. rewrite IH, length_app. done.
Qed.

(** ** Invariant of the threads *)

Section threads.
Context {N : Type} `{!GrpcChannel N}.
Implicit Types (s : publish_state N) (g : ProducerEvents) (tr : list (nat * grpc_call)).

(** The calls of thread [i]. *)
Definition calls_of (i : nat) tr : list grpc_call :=
  omap (fun p : nat * grpc_call => if decide (p.1 = i) then Some p.2 else None) tr.

(** The writes of a thread: the events [done_] were written, and then either all
    are, or the next one failed. *)
Inductive writes (evs : list TelemetryEvent) : list TelemetryEvent -> list grpc_call -> Prop :=
  | writes_all : writes evs evs ((fun ev => C_write ev true) <$> evs)
  | writes_cut done_ ev rest : evs = done_ ++ ev :: rest ->
      writes evs done_ (((fun ev => C_write ev true) <$> done_) ++ [C_write ev false]).

(** The result of a producer with [done_] events written. *)
Definition written_result g (done_ : list TelemetryEvent) : ProducerPublishResult :=
  {| pr_producer_id := pe_producer_id g; pr_attempted_events := u64 (Zlength (pe_events g));
     pr_written_events := u64 (Zlength done_); pr_accepted_events := 0; pr_sequence_gaps := 0;
     pr_grpc_status_code := 0; pr_error_message := "" |}.

(** A thread's row, with the calls it made. *)
Inductive row g : list grpc_call -> ProducerPublishResult -> Prop :=
  | row_intro done_ ws status summary : writes (pe_events g) done_ ws ->
      row g (C_open :: ws ++ [C_writes_done; C_finish status summary])
        (finish_result (written_result g done_) status summary).

(** Where a thread stands, the calls it made, and its slot of the report. *)
Inductive thread_inv g : thread_pc -> list grpc_call -> ProducerPublishResult -> Prop :=
  | inv_opening : thread_inv g (Opening g) [] ProducerPublishResult_default
  | inv_writing done_ left_ : pe_events g = done_ ++ left_ ->
      thread_inv g (Writing (written_result g done_) left_)
        (C_open :: ((fun ev => C_write ev true) <$> done_)) ProducerPublishResult_default
  | inv_closing done_ ev rest : pe_events g = done_ ++ ev :: rest ->
      thread_inv g (Closing (written_result g done_))
        (C_open :: ((fun ev => C_write ev true) <$> done_) ++ [C_write ev false])
        ProducerPublishResult_default
  | inv_finishing done_ ws : writes (pe_events g) done_ ws ->
      thread_inv g (Finishing (written_result g done_)) (C_open :: ws ++ [C_writes_done])
        ProducerPublishResult_default
  | inv_storing calls r : row g calls r ->
      thread_inv g (Storing r) calls ProducerPublishResult_default
  | inv_stored calls r : row g calls r -> thread_inv g Stored calls r.

Record state_inv (groups : list ProducerEvents) s tr : Prop := {
  si_threads : length (threads s) = length groups;
  si_report : length (report s) = length groups;
  si_created : (created s <= length groups)%nat;
  si_each : forall i g pc r, groups !! i = Some g -> threads s !! i = Some pc ->
    report s !! i = Some r -> thread_inv g pc (calls_of i tr) r;
}.

Lemma calls_of_app i tr tr' : calls_of i (tr ++ tr') = calls_of i tr ++ calls_of i tr'.
Proof. apply omap_app. Qed.

Lemma calls_of_own i (c : option grpc_call) :
  calls_of i ((fun c => (i, c)) <$> option_list c) = option_list c.
Proof. destruct c; [|done]. cbn. by rewrite decide_True. Qed.

Lemma calls_of_other i j (c : option grpc_call) : i <> j ->
  calls_of j ((fun c => (i, c)) <$> option_list c) = [].
Proof. intros Hne. destruct c; [|done]. cbn. by rewrite decide_False. Qed.

Lemma written_next g done_ ev :
  count_written (written_result g done_) = written_result g (done_ ++ [ev]).
Proof.
  unfold count_written, written_result; cbn. f_equal. rewrite u64_add_l, length_app. cbn.
  f_equal. lia.
Qed.

(** The effect of a step: one thread moves, possibly filling its slot. *)
Lemma thread_step_inv i s s' c g pc r calls :
  threads s !! i = Some pc -> report s !! i = Some r -> thread_inv g pc calls r ->
  thread_step i s = Some (s', c) ->
  exists pc' r', threads s' = <[i := pc']> (threads s) /\ report s' = <[i := r']> (report s) /\
    created s' = created s /\ (i < created s)%nat /\
    thread_inv g pc' (calls ++ option_list c) r'.
Proof.
  intros Hpc Hr Hinv. unfold thread_step.
  destruct (Nat.ltb_spec i (created s)) as [Hi|]; cbn [negb]; [|done].
  rewrite Hpc. pose proof (list_insert_id (report s) i r Hr) as Hid.
  destruct Hinv as [|done_ left_ Hd|done_ ev rest Hd|done_ ws Hw|calls r0 Hrow|calls r0 Hrow].
  - intros [= <- <-]. eexists _, _. rewrite Hid. split_and!; try done.
    by apply (inv_writing g [] (pe_events g)).
  - destruct left_ as [|ev left_].
    + intros [= <- <-]. eexists _, _. rewrite Hid. split_and!; try done.
      rewrite app_nil_r in Hd. cbn. apply inv_finishing. rewrite <- Hd. constructor.
    + destruct (call_write i ev (channel s)) as [[] n] eqn:Ew; intros [= <- <-];
        eexists _, _; rewrite Hid; split_and!; try done.
      * rewrite (written_next g done_ ev). cbn. rewrite cons_middle, app_assoc in Hd.
        pose proof (inv_writing g _ _ Hd) as Hinv. by rewrite fmap_app in Hinv.
      * by apply (inv_closing g done_ ev left_).
  - intros [= <- <-]. eexists _, _. rewrite Hid. split_and!; try done.
    cbn. apply inv_finishing. by apply (writes_cut _ done_ ev rest).
  - destruct (call_finish i (channel s)) as [[status summary] n].
    intros [= <- <-]. eexists _, _. rewrite Hid. split_and!; try done.
    cbn. rewrite <- app_assoc. apply inv_storing. by apply row_intro.
  - intros [= <- <-]. eexists _, _. split_and!; try done. cbn.
    rewrite app_nil_r. by apply inv_stored.
  - done.
Qed.

Lemma publish_step_inv groups s tr s' tr' :
  state_inv groups s tr -> publish_step s tr' s' -> state_inv groups s' (tr ++ tr').
Proof.
  intros [Ht Hr Hc He] [s1 Hsp|i s1 c Hst].
  - unfold spawn_step in Hsp. rewrite app_nil_r.
    destruct (Nat.ltb_spec (created s) (length (threads s))); cbn in Hsp; [|done].
    injection Hsp as <-. split; cbn; try done; lia.
  - assert (Hpc : exists pc, threads s !! i = Some pc).
    { unfold thread_step in Hst. destruct (negb _); [done|].
      destruct (threads s !! i) as [pc|]; [by exists pc|done]. }
    destruct Hpc as [pc Hpc]. pose proof (lookup_lt_Some _ _ _ Hpc) as Hlt.
    destruct (lookup_lt_is_Some_2 groups i ltac:(lia)) as [g Hg].
    destruct (lookup_lt_is_Some_2 (report s) i ltac:(lia)) as [r Hri].
    destruct (thread_step_inv i s s1 c g pc r _ Hpc Hri (He i g pc r Hg Hpc Hri) Hst)
      as (pc' & r' & Et & Er & Ec & Hi & Hinv).
    split; rewrite ?Et, ?Er, ?Ec, ?length_insert; try done.
    intros j gj pcj rj Hgj Hpj Hrj. rewrite calls_of_app.
    destruct (decide (i = j)) as [<-|Hne].
    + rewrite list_lookup_insert_eq in Hpj by lia. rewrite list_lookup_insert_eq in Hrj by lia.
      rewrite calls_of_own. congruence.
    + rewrite list_lookup_insert_ne in Hpj by done.
      rewrite list_lookup_insert_ne in Hrj by done.
      rewrite calls_of_other, app_nil_r by done. by apply (He j).
Qed.

Lemma publish_steps_inv groups s n tr s' :
  publish_steps s n tr s' -> state_inv groups s [] -> state_inv groups s' tr.
Proof.
  induction 1 as [s|s n tr s1 tr' s2 Hs IH Hstep]; intros Hinv; [done|].
  eapply publish_step_inv; [by apply IH|done].
Qed.

Lemma publish_init_inv config events (n : N) s :
  publish config events n = inr s -> state_inv (group_by_producer events) s [].
Proof.
  unfold publish. set (groups := group_by_producer events). clearbody groups.
  destruct (bool_decide (groups = [])); [done|].
  destruct (WaitForConnected _ _) as [[] n']; cbn [negb]; [|done]. intros [= <-].
  split; cbn; rewrite ?length_fmap, ?length_replicate; try done; [lia|].
  intros i g pc r Hg Hpc Hr. rewrite list_lookup_fmap, Hg in Hpc. injection Hpc as <-.
  apply lookup_replicate in Hr as [-> _]. constructor.
Qed.

(** When all threads are joined every slot holds the row of its thread. *)
Lemma joined_rows groups s tr : state_inv groups s tr -> all_joined s ->
  length (report s) = length groups /\
  forall i g r, groups !! i = Some g -> report s !! i = Some r -> row g (calls_of i tr) r.
Proof.
  intros [Ht Hr _ He] [_ Hj]. split; [done|]. intros i g ri Hg Hri.
  pose proof (lookup_lt_Some _ _ _ Hg) as Hlt.
  destruct (lookup_lt_is_Some_2 (threads s) i ltac:(lia)) as [pc Hpc].
  rewrite Forall_lookup in Hj. rewrite (Hj i pc Hpc) in Hpc.
  pose proof (He i g Stored ri Hg Hpc Hri) as Hinv. by inversion Hinv.
Qed.

(** ** Every schedule ends *)

Definition pc_work (pc : thread_pc) : nat :=
  match pc with
  | Opening g => length (pe_events g) + 5
  | Writing _ left_ => length left_ + 4
  | Closing _ => 3
  | Finishing _ => 2
  | Storing _ => 1
  | Stored => 0
  end.

Definition work s : nat := sum_list (pc_work <$> threads s) + (length (threads s) - created s).

Lemma sum_insert (l : list thread_pc) i pc pc' : l !! i = Some pc ->
  (sum_list (pc_work <$> <[i := pc']> l) + pc_work pc =
   sum_list (pc_work <$> l) + pc_work pc')%nat.
Proof.
  revert i. induction l as [|x l IH]; intros [|i] Hi; try done.
  - cbn in Hi. injection Hi as ->. cbn. lia.
  - cbn in Hi. specialize (IH i Hi). change (<[S i := pc']> (x :: l)) with (x :: <[i := pc']> l).
    rewrite !fmap_cons. cbn [sum_list_with]. lia.
Qed.

Lemma thread_step_work i s s' c : thread_step i s = Some (s', c) -> (work s' < work s)%nat.
Proof.
  unfold thread_step. destruct (negb _); [done|].
  destruct (threads s !! i) as [pc|] eqn:Hpc; [|done].
  assert (Hgo : forall pc' n r, (pc_work pc' < pc_work pc)%nat ->
    (work {| channel := n; created := created s; threads := <[i := pc']> (threads s);
             report := r |} < work s)%nat).
  { intros pc' n r Hlt. unfold work; cbn [threads created]. rewrite length_insert.
    pose proof (sum_insert (threads s) i pc pc' Hpc). lia. }
  destruct pc as [g|r [|ev left_]|r|r|r|]; try done.
  - intros [= <- <-]. apply Hgo. cbn. lia.
  - intros [= <- <-]. apply Hgo. cbn. lia.
  - destruct (call_write i ev (channel s)) as [[] n]; intros [= <- <-]; apply Hgo; cbn; lia.
  - intros [= <- <-]. apply Hgo. cbn. lia.
  - destruct (call_finish i (channel s)) as [[st sm] n]. intros [= <- <-]. apply Hgo. cbn. lia.
  - intros [= <- <-]. apply Hgo. cbn. lia.
Qed.

Lemma publish_step_work s tr s' : publish_step s tr s' -> (work s' < work s)%nat.
Proof.
  intros [s1 Hsp|i s1 c Hst]; [|by eapply thread_step_work].
  unfold spawn_step in Hsp.
  destruct (Nat.ltb_spec (created s) (length (threads s))); cbn in Hsp; [|done].
  injection Hsp as <-. unfold work; cbn. lia.
Qed.

Lemma publish_steps_work s n tr s' : publish_steps s n tr s' -> (n + work s' <= work s)%nat.
Proof.
  induction 1 as [s|s n tr s1 tr' s2 Hs IH Hstep]; [lia|].
  apply publish_step_work in Hstep. lia.
Qed.

(** A state without a step is one where the joins return. *)
Lemma stuck_joined s : (created s <= length (threads s))%nat ->
  (forall tr s', ~ publish_step s tr s') -> all_joined s.
Proof.
  intros Hle Hstuck.
  assert (Hc : created s = length (threads s)).
  { destruct (decide (created s = length (threads s))) as [|Hne]; [done|].
    exfalso. eapply Hstuck. apply step_spawn. unfold spawn_step.
    by destruct (Nat.ltb_spec (created s) (length (threads s))); [|lia]. }
  split; [done|]. apply Forall_lookup. intros i pc Hpc.
  assert (Hn : thread_step i s = None).
  { destruct (thread_step i s) as [[s' c]|] eqn:E; [|done].
    exfalso. eapply Hstuck. by eapply step_thread. }
  unfold thread_step in Hn. pose proof (lookup_lt_Some _ _ _ Hpc).
  destruct (Nat.ltb_spec i (created s)); cbn [negb] in Hn; [|lia]. rewrite Hpc in Hn.
  destruct pc as [g|r [|ev left_]|r|r|r|]; try done.
  - by destruct (call_write i ev (channel s)).
  - by destruct (call_finish i (channel s)) as [[? ?] ?].
Qed.

Lemma publish_steps_front s tr s1 : publish_step s tr s1 -> forall n tr' s2,
  publish_steps s1 n tr' s2 -> publish_steps s (S n) (tr ++ tr') s2.
Proof.
  intros Hstep n tr' s2 Hs. revert Hstep.
  induction Hs as [s1|s1 n tr1 s2 tr2 s3 Hs IH Hs2]; intros Hstep.
  - rewrite app_nil_r. rewrite <- (app_nil_l tr). by econstructor; [constructor|].
  - rewrite app_assoc. econstructor; [by apply IH|done].
Qed.

Lemma thread_step_created i s s' c : thread_step i s = Some (s', c) ->
  (created s <= length (threads s))%nat -> (created s' <= length (threads s'))%nat.
Proof.
  unfold thread_step. destruct (negb _); [done|].
  destruct (threads s !! i) as [[g|r [|ev left_]|r|r|r|]|]; try done;
    try (intros [= <- <-]; cbn; by rewrite length_insert).
  - destruct (call_write i ev (channel s)) as [? ?]. intros [= <- <-]. cbn. by rewrite length_insert.
  - destruct (call_finish i (channel s)) as [[? ?] ?]. intros [= <- <-]. cbn.
    by rewrite length_insert.
Qed.

(** From every state the joins can be reached. *)
Lemma joins_reachable s : (created s <= length (threads s))%nat ->
  exists n tr s', publish_steps s n tr s' /\ all_joined s'.
Proof.
  remember (work s) as k eqn:Hk. revert s Hk.
  induction k as [k IH] using lt_wf_ind. intros s -> Hle.
  destruct (decide (created s < length (threads s))%nat) as [Hlt|Hge].
  { assert (Hsp : exists s1, spawn_step s = Some s1 /\ (created s1 <= length (threads s1))%nat).
    { unfold spawn_step. destruct (Nat.ltb_spec (created s) (length (threads s))); [|lia].
      eexists. split; [reflexivity|]. cbn. lia. }
    destruct Hsp as (s1 & Hsp & Hle1). apply step_spawn in Hsp.
    destruct (IH _ (publish_step_work _ _ _ Hsp) s1 eq_refl Hle1) as (n & tr & s' & Hs & Hj).
    exists (S n), ([] ++ tr), s'. split; [|done]. by eapply publish_steps_front. }
  destruct (decide (Exists (fun pc => pc <> Stored) (threads s))) as [Hex|Hno].
  - apply Exists_exists in Hex as (pc & [i Hpc]%list_elem_of_lookup_1 & Hne).
    assert (Hth : exists s1 c, thread_step i s = Some (s1, c)).
    { unfold thread_step. pose proof (lookup_lt_Some _ _ _ Hpc).
      destruct (Nat.ltb_spec i (created s)); cbn [negb]; [|lia]. rewrite Hpc.
      destruct pc as [g|r [|ev left_]|r|r|r|]; [..|done]; try (by eexists _, _).
      - destruct (call_write i ev (channel s)). by eexists _, _.
      - destruct (call_finish i (channel s)) as [[? ?] ?]. by eexists _, _. }
    destruct Hth as (s1 & c & Hth). pose proof (step_thread s i s1 c Hth) as Hst.
    assert (Hle1 : (created s1 <= length (threads s1))%nat) by (by eapply thread_step_created).
    destruct (IH _ (publish_step_work _ _ _ Hst) s1 eq_refl Hle1) as (n & tr & s' & Hs & Hj).
    eexists (S n), _, s'. split; [|done]. by eapply publish_steps_front.
  - exists 0%nat, [], s. split; [constructor|]. split; [lia|].
    apply Forall_forall. intros pc Hpc. apply dec_stable. intros Hne.
    apply Hno, Exists_exists. by exists pc.
Qed.

(** ** Turns *)

Lemma turn_publish_step turn s s' : turn_step turn s = Some s' ->
  exists tr, publish_step s tr s'.
Proof.
  destruct turn as [i|]; cbn [turn_step].
  - intros ([s1 c] & Hs & ->)%fmap_Some. eexists. by eapply step_thread.
  - intros Hs. eexists. by apply step_spawn.
Qed.

Lemma publish_step_turn s tr s' : publish_step s tr s' ->
  exists turn, turn_step turn s = Some s'.
Proof.
  intros [s1 Hs|i s1 c Hs]; [by exists None|]. exists (Some i). cbn. by rewrite Hs.
Qed.

Lemma follow_steps schedule : forall s, exists k tr, publish_steps s k tr (follow s schedule).
Proof.
  induction schedule as [|turn schedule IH]; intros s; cbn [follow]; [by exists 0%nat, []; constructor|].
  destruct (turn_step turn s) as [s1|] eqn:E; cbn [default]; [|by apply IH].
  destruct (turn_publish_step _ _ _ E) as [tr1 H1], (IH s1) as (k & tr & Hs).
  eexists _, _. by eapply publish_steps_front.
Qed.

Lemma steps_first s n tr s' : publish_steps s n tr s' ->
  s = s' \/ exists tr1 s1, publish_step s tr1 s1.
Proof.
  induction 1 as [s|s n tr s1 tr' s2 _ IH Hstep]; [by left|right].
  destruct IH as [->|IH]; [by eexists _, _|done].
Qed.

(** Nobody is stuck: before the joins return somebody has a turn, and every turn
    taken is one less to come. *)
Lemma turn_left s : (created s <= length (threads s))%nat -> ~ all_joined s ->
  exists turn s', turn_step turn s = Some s'.
Proof.
  intros Hle Hno. destruct (joins_reachable s Hle) as (n & tr & s' & Hs & Hj).
  destruct (steps_first _ _ _ _ Hs) as [->|(tr1 & s1 & H1)]; [done|].
  destruct (publish_step_turn _ _ _ H1) as [turn Ht]. by exists turn, s1.
Qed.

Lemma turn_work turn s s' : turn_step turn s = Some s' -> (work s' < work s)%nat.
Proof. intros [tr Hs]%turn_publish_step. by eapply publish_step_work. Qed.
End threads.

(** ** Reports *)

Section reports.
Implicit Types (g : ProducerEvents) (r : ProducerPublishResult) (rep : PublishReport).

Lemma sum_u64 (f : ProducerPublishResult -> Z) rep : forall total, in_u64 total ->
  fold_left (fun total r => u64 (total + f r)) rep total =
  u64 (total + foldr Z.add 0 (f <$> rep)).
Proof.
  induction rep as [|r rep IH]; intros total Ht; cbn [fold_left].
  - cbn. by rewrite Z.add_0_r, u64_small.
  - rewrite IH by apply u64_range. rewrite u64_add_l, fmap_cons. cbn [foldr]. f_equal. lia.
Qed.

Lemma row_fields g calls r : row g calls r ->
  pr_producer_id r = pe_producer_id g /\ pr_attempted_events r = u64 (Zlength (pe_events g)).
Proof. by intros []. Qed.

(** A producer succeeds exactly when all its events were written, the call ended
    with [OK] and the collector's summary counts them all. *)
Lemma row_succeeded g calls r : row g calls r -> Zlength (pe_events g) < 2 ^ 64 ->
  result_succeeded r = true <->
  exists status summary,
    calls = C_open :: ((fun ev => C_write ev true) <$> pe_events g) ++
      [C_writes_done; C_finish status summary] /\
    error_code status = GRPC_OK /\
    summary_accepted_events summary = Zlength (pe_events g).
Proof.
  intros [done_ ws status summary Hw] Hlen.
  assert (Hu : u64 (Zlength (pe_events g)) = Zlength (pe_events g))
    by (apply u64_small; unfold in_u64; lia).
  unfold result_succeeded, finish_result, written_result; cbn.
  rewrite !andb_true_iff, !Z.eqb_eq, Hu. unfold status_ok. split.
  - intros [[Hok Hwr] Hacc]. exists status, summary. rewrite Hok, Z.eqb_refl in Hacc.
    split; [|done]. destruct Hw as [|done_ ev rest Hd]; [done|].
    rewrite Hd, length_app in Hwr, Hlen. cbn [length] in Hwr, Hlen.
    rewrite u64_small in Hwr by (unfold in_u64; lia). lia.
  - intros (status' & summary' & Hcalls & Hok & Hacc). injection Hcalls as Hcalls.
    change [C_writes_done; C_finish status summary]
      with ([C_writes_done] ++ [C_finish status summary]) in Hcalls.
    change [C_writes_done; C_finish status' summary']
      with ([C_writes_done] ++ [C_finish status' summary']) in Hcalls.
    rewrite !app_assoc in Hcalls. apply snoc_eq_inv in Hcalls as [Hcalls [= <- <-]].
    apply snoc_eq_inv in Hcalls as [Hws _]. rewrite Hok, Z.eqb_refl.
    split; [split; [done|]|done].
    destruct Hw as [|done_ ev rest Hd]; [done|]. exfalso.
    assert (Hin : C_write ev false ∈ (fun ev => C_write ev true) <$> pe_events g)
      by (rewrite <- Hws; apply elem_of_app; right; left).
    by apply list_elem_of_fmap in Hin as (? & ? & _).
Qed.

Lemma rows_attempted (groups : list ProducerEvents) rep (calls : nat -> list grpc_call) :
  length rep = length groups ->
  (forall i g r, groups !! i = Some g -> rep !! i = Some r -> row g (calls i) r) ->
  pr_attempted_events <$> rep = (fun g => u64 (Zlength (pe_events g))) <$> groups.
Proof.
  intros Hlen Hrow. apply list_eq. intros i. rewrite !list_lookup_fmap.
  destruct (groups !! i) as [g|] eqn:Hg.
  - destruct (lookup_lt_is_Some_2 rep i) as [r Hr].
    { rewrite Hlen. by eapply lookup_lt_Some. }
    rewrite Hr. cbn. f_equal. by destruct (row_fields g _ r (Hrow i g r Hg Hr)).
  - apply lookup_ge_None in Hg. by rewrite (proj2 (lookup_ge_None rep i)) by lia.
Qed.

Lemma sum_of_u64 (l : list nat) : u64 (foldr Z.add 0 ((fun n => u64 (Z.of_nat n)) <$> l)) =
  u64 (Z.of_nat (sum_list l)).
Proof.
  induction l as [|n l IH]; [done|]. rewrite fmap_cons. cbn [foldr sum_list_with].
  rewrite u64_add_l, Z.add_comm, <- u64_add_l, IH, u64_add_l. f_equal. unfold id. lia.
Qed.
Lemma group_attempted events :
  u64 (foldr Z.add 0 ((fun g => u64 (Zlength (pe_events g))) <$> group_by_producer events)) =
  u64 (Zlength events).
Proof.
  rewrite <- (group_sizes events). rewrite <- sum_of_u64, <- !list_fmap_compose. done.
Qed.

Lemma succeeded_accepted rep : report_succeeded rep = true ->
  accepted_events rep = attempted_events rep.
Proof.
  unfold accepted_events, attempted_events. generalize 0.
  induction rep as [|r rep IH]; intros total Hs; [done|].
  cbn [report_succeeded forallb] in Hs. apply andb_true_iff in Hs as [Hr Hs].
  unfold result_succeeded in Hr. reflect_bools. cbn [fold_left].
  replace (pr_accepted_events r) with (pr_attempted_events r) by done. by apply IH.
Qed.
End reports.

(** The attempted events of a joined report are all events. *)
Lemma joined_attempted {N} `{!GrpcChannel N} config events (n : N) s0 s steps tr :
  publish config events n = inr s0 -> publish_steps s0 steps tr s -> all_joined s ->
  Zlength events < 2 ^ 64 -> attempted_events (report s) = Zlength events.
Proof.
  intros Hstart Hsteps Hjoin Hlen.
  pose proof (publish_steps_inv _ s0 steps tr s Hsteps (publish_init_inv _ _ _ _ Hstart)) as Hinv.
  destruct (joined_rows _ s tr Hinv Hjoin) as [Hl Hrows].
  unfold attempted_events. rewrite (sum_u64 pr_attempted_events) by solve_range.
  rewrite (rows_attempted _ (report s) (fun i => calls_of i tr) Hl Hrows), Z.add_0_l.
  rewrite group_attempted. apply u64_small. unfold in_u64. lia.
Qed.

(** ** Schedules: which thread moves next ([None]: the main thread) *)

Section schedules.
Context {N : Type} `{!GrpcChannel N}.
Implicit Types (s : publish_state N).

Fixpoint run_schedule s (sched : list (option nat))
    : option (publish_state N * list (nat * grpc_call)) :=
  match sched with
  | [] => Some (s, [])
  | None :: sched' => s' ← spawn_step s; run_schedule s' sched'
  | Some i :: sched' =>
      '(s', c) ← thread_step i s; '(s'', tr) ← run_schedule s' sched';
      Some (s'', ((fun c => (i, c)) <$> option_list c) ++ tr)
  end.

Lemma run_schedule_steps sched : forall s s' tr,
  run_schedule s sched = Some (s', tr) -> publish_steps s (length sched) tr s'.
Proof.
  induction sched as [|[i|] sched IH]; intros s s' tr; cbn [run_schedule].
  - intros [= <- <-]. constructor.
  - destruct (thread_step i s) as [[s1 c]|] eqn:E; [|done]. cbn.
    destruct (run_schedule s1 sched) as [[s2 tr2]|] eqn:Er; [|done]. cbn. intros [= <- <-].
    eapply publish_steps_front; [by apply step_thread|by apply IH].
  - destruct (spawn_step s) as [s1|] eqn:E; [|done]. cbn. intros Hr.
    rewrite <- (app_nil_l tr). eapply publish_steps_front; [by apply step_spawn|by apply IH].
Qed.
End schedules.

(** ** A channel for the examples *)

(** Every call is accepted by a server that counts the messages. *)
#[local] Instance counting_channel : GrpcChannel (gmap nat nat) := {
  CreateChannel _ n := n;
  WaitForConnected _ n := (true, n);
  call_open i n := <[i := 0%nat]> n;
  call_write i _ n := (true, <[i := S (default 0%nat (n !! i))]> n);
  call_writes_done _ n := n;
  call_finish i n :=
    ({| error_code := GRPC_OK; error_message := "" |},
     {| summary_producer_id := ""; summary_accepted_events := Z.of_nat (default 0%nat (n !! i));
        summary_first_sequence_number := 0; summary_last_sequence_number := 0;
        summary_sequence_gaps := 0 |}, n);
}.

Definition sample_events : list TelemetryEvent :=
  [sample_event "b" 1 5; sample_event "a" 1 6; sample_event "b" 2 7].

Definition sample_state : publish_state (gmap nat nat) :=
  match publish WorkloadPublisherConfig_default sample_events ∅ with
  | inr s => s
  | inl _ => {| channel := ∅; created := 0; threads := []; report := [] |}
  end.

(** Thread 1 starts last, between the writes of thread 0, and finishes first. *)
Definition sample_schedule : list (option nat) :=
  [None; Some 0; Some 0; None; Some 1; Some 1; Some 0; Some 1; Some 0; Some 1; Some 1; Some 1;
   Some 0]%nat.

Definition sample_end : publish_state (gmap nat nat) * list (nat * grpc_call) :=
  default (sample_state, []) (run_schedule sample_state sample_schedule).

Lemma sample_started : publish WorkloadPublisherConfig_default sample_events ∅ = inr sample_state.
Proof. by vm_compute. Qed.

Lemma sample_joined : all_joined sample_end.1.
Proof.
  split; [by vm_compute|].
  replace (threads sample_end.1) with [Stored; Stored] by (by vm_compute). by repeat constructor.
Qed.

Lemma sample_small : Zlength sample_events < 2 ^ 64.
Proof. by vm_compute. Qed.

Lemma sample_run : publish_steps sample_state (length sample_schedule) sample_end.2 sample_end.1.
Proof.
  apply run_schedule_steps. unfold sample_end.
  destruct (run_schedule sample_state sample_schedule) as [[s tr]|] eqn:E; [done|].
  exfalso. revert E. by vm_compute.
Qed.

(** ** Properties *)

(** C31: whatever the interleaving of the threads and whatever gRPC answers, once
    the threads are joined the report has one row per producer, in the order of
    the producers' names, and each row tells exactly what its own thread did: it
    opened one call, wrote the producer's events in their order up to the first
    failed write, closed the writes and took status and (on [OK]) counters from
    the end of the call. The producers' events are a partition of the events, and
    the attempted events of the report are all of them. *)
Theorem publish_report_exact {N} `{!GrpcChannel N} (config : WorkloadPublisherConfig)
    (events : list TelemetryEvent) (n : N) (s0 s : publish_state N) (steps : nat)
    (tr : list (nat * grpc_call))
    (Hstart : publish config events n = inr s0)
    (Hsteps : publish_steps s0 steps tr s) (Hjoin : all_joined s)
    (Hlen : Zlength events < 2 ^ 64) :
  let groups := group_by_producer events in
  length (report s) = length groups /\
  (forall i g r, groups !! i = Some g -> report s !! i = Some r -> row g (calls_of i tr) r) /\
  StronglySorted key_lt (pe_producer_id <$> groups) /\
  (forall g, g ∈ groups -> pe_events g <> [] /\
     pe_events g = filter (fun ev => producer_id ev = pe_producer_id g) events) /\
  concat (pe_events <$> groups) ≡ₚ events /\
  attempted_events (report s) = Zlength events.
Proof.
  intros groups.
  pose proof (publish_steps_inv groups s0 steps tr s Hsteps (publish_init_inv _ _ _ _ Hstart))
    as Hinv.
  destruct (joined_rows groups s tr Hinv Hjoin) as [Hl Hrows].
  split; [done|]. split; [done|]. split; [apply group_sorted|].
  split; [apply group_elem|]. split; [apply group_total|].
  by apply (joined_attempted config events n s0 s steps tr).
Qed.

Lemma publish_report_exact_witness :
  attempted_events (report sample_end.1) = 3 /\
  (pr_producer_id <$> report sample_end.1) = ["a"; "b"]%string.
Proof.
  split; [|by vm_compute].
  destruct (publish_report_exact WorkloadPublisherConfig_default sample_events ∅ sample_state
    sample_end.1 _ _ sample_started sample_run sample_joined sample_small)
    as (_ & _ & _ & _ & _ & ->).
  by vm_compute.
Defined.

(** C33: every schedule of the threads ends, whatever gRPC answers: the number of
    steps is bounded by the number of events plus six per producer, and the only
    states without a next step are those in which the joins have returned. *)
Theorem publish_terminates {N} `{!GrpcChannel N} (config : WorkloadPublisherConfig)
    (events : list TelemetryEvent) (n : N) (s0 s : publish_state N) (steps : nat)
    (tr : list (nat * grpc_call))
    (Hstart : publish config events n = inr s0) (Hsteps : publish_steps s0 steps tr s) :
  (steps <= length events + 6 * length (group_by_producer events))%nat /\
  ((forall tr' s', ~ publish_step s tr' s') -> all_joined s).
Proof.
  pose proof (publish_init_inv config events n s0 Hstart) as Hinv0.
  pose proof (publish_steps_inv _ s0 steps tr s Hsteps Hinv0) as Hinv.
  split; [|intros Hstuck; apply stuck_joined; [|done]; rewrite (si_threads _ _ _ Hinv); apply Hinv].
  pose proof (publish_steps_work _ _ _ _ Hsteps) as Hw.
  assert (Hw0 : work s0 = (length events + 6 * length (group_by_producer events))%nat);
    [|lia].
  pose proof (group_sizes events) as Hsum. clear -Hstart Hsum.
  unfold publish in Hstart. set (groups := group_by_producer events) in *.
  destruct (bool_decide (groups = [])); [done|].
  destruct (WaitForConnected _ _) as [[] n']; cbn [negb] in Hstart; [|done].
  injection Hstart as <-. unfold work; cbn [threads created]. rewrite length_fmap, <- Hsum.
  clear. induction groups as [|g gs IH]; [done|].
  rewrite !fmap_cons. cbn [sum_list_with length pc_work]. unfold id in *. lia.
Qed.

Lemma publish_terminates_witness :
  (length sample_schedule <= 3 + 6 * 2)%nat.
Proof.
  exact (proj1 (publish_terminates WorkloadPublisherConfig_default sample_events ∅ sample_state
    sample_end.1 _ _ sample_started sample_run)).
Defined.

(** The report succeeds exactly when every producer's events were all written
    without a failure, in order, its call ended with [OK] and the collector's
    summary counts all of them; the accepted events of such a report are all
    events. *)
Theorem publish_success_exact {N} `{!GrpcChannel N} (config : WorkloadPublisherConfig)
    (events : list TelemetryEvent) (n : N) (s0 s : publish_state N) (steps : nat)
    (tr : list (nat * grpc_call))
    (Hstart : publish config events n = inr s0)
    (Hsteps : publish_steps s0 steps tr s) (Hjoin : all_joined s)
    (Hlen : Zlength events < 2 ^ 64) :
  (report_succeeded (report s) = true <->
   forall i g, group_by_producer events !! i = Some g -> exists status summary,
     calls_of i tr = C_open :: ((fun ev => C_write ev true) <$> pe_events g) ++
       [C_writes_done; C_finish status summary] /\
     error_code status = GRPC_OK /\
     summary_accepted_events summary = Zlength (pe_events g)) /\
  (report_succeeded (report s) = true -> accepted_events (report s) = Zlength events).
Proof.
  set (groups := group_by_producer events).
  pose proof (publish_steps_inv groups s0 steps tr s Hsteps (publish_init_inv _ _ _ _ Hstart))
    as Hinv.
  destruct (joined_rows groups s tr Hinv Hjoin) as [Hl Hrows].
  assert (Hsmall : forall i g, groups !! i = Some g -> Zlength (pe_events g) < 2 ^ 64).
  { intros i g Hg. apply list_elem_of_lookup_2, group_elem in Hg as [_ ->].
    pose proof (length_filter (fun ev => producer_id ev = pe_producer_id g) events). lia. }
  split.
  - unfold report_succeeded. rewrite forallb_forall. split.
    + intros Hall i g Hg. destruct (lookup_lt_is_Some_2 (report s) i) as [r Hr].
      { rewrite Hl. by eapply lookup_lt_Some. }
      apply (row_succeeded g _ r); [by apply (Hrows i)|by eapply Hsmall|].
      apply Hall, list_elem_of_In. by eapply list_elem_of_lookup_2.
    + intros Hall r [i Hr]%list_elem_of_In%list_elem_of_lookup_1.
      destruct (lookup_lt_is_Some_2 groups i) as [g Hg].
      { rewrite <- Hl. by eapply lookup_lt_Some. }
      apply (row_succeeded g (calls_of i tr) r); [by apply Hrows|by eapply Hsmall|by apply Hall].
  - intros Hs.
    rewrite (succeeded_accepted _ Hs). by apply (joined_attempted config events n s0 s steps tr).
Qed.

Lemma publish_success_exact_witness :
  report_succeeded (report sample_end.1) = true /\ accepted_events (report sample_end.1) = 3.
Proof.
  assert (Hs : report_succeeded (report sample_end.1) = true) by by vm_compute.
  split; [exact Hs|].
  rewrite (proj2 (publish_success_exact WorkloadPublisherConfig_default
    sample_events ∅ sample_state sample_end.1 _ _ sample_started sample_run sample_joined
    sample_small) Hs).
  by vm_compute.
Defined.

(** The constructor refuses an empty target and a timeout that is not
    positive. Without events [publish] makes no connection and returns an empty
    report; when the collector does not answer in time every producer gets a row
    with all its events attempted, none written and [UNAVAILABLE], and the report
    fails. *)
Theorem publish_errors {N} `{!GrpcChannel N} (config : WorkloadPublisherConfig)
    (events : list TelemetryEvent) (n : N) :
  (publisher_config_error config = None <->
     target config <> ""%string /\ 0 < connect_timeout config) /\
  (publish config [] n = inl [] /\ report_succeeded [] = true) /\
  (events <> [] ->
   fst (WaitForConnected (connect_timeout config) (CreateChannel (target config) n)) = false ->
   exists rep, publish config events n = inl rep /\
     pr_producer_id <$> rep = pe_producer_id <$> group_by_producer events /\
     Forall (fun r => pr_written_events r = 0 /\ pr_grpc_status_code r = 14 /\
       pr_error_message r = "collector connection timed out"%string) rep /\
     report_succeeded rep = false).
Proof.
  split; [|split; [done|]].
  - unfold publisher_config_error, str_empty. case_bool_decide as Ht.
    + split; [done|]. by intros [? _].
    + destruct (Z.leb_spec (connect_timeout config) 0); split; try done; lia.
  - intros Hne Hw. unfold publish. set (groups := group_by_producer events).
    assert (Hg : groups <> []).
    { intros E. apply Hne, Permutation_nil_r. rewrite <- (group_total events). fold groups.
      by rewrite E. }
    rewrite bool_decide_eq_false_2 by done.
    destruct (WaitForConnected _ _) as [ok n']. cbn [fst] in Hw. subst ok. cbn [negb].
    eexists. split; [reflexivity|]. split; [by rewrite <- list_fmap_compose|]. split.
    + apply Forall_fmap, Forall_forall. by intros g _.
    + by destruct groups as [|g groups'].
Qed.

(** A collector that never answers. *)
Definition down_channel : GrpcChannel unit := {|
  CreateChannel _ n := n;
  WaitForConnected _ n := (false, n);
  call_open _ n := n;
  call_write _ _ n := (false, n);
  call_writes_done _ n := n;
  call_finish _ n :=
    ({| error_code := GRPC_UNAVAILABLE; error_message := "" |}, StreamSummary_default, n);
|}.

Lemma publish_errors_witness :
  exists rep, @publish unit down_channel WorkloadPublisherConfig_default sample_events tt = inl rep /\
    pr_producer_id <$> rep = ["a"; "b"]%string /\ report_succeeded rep = false.
Proof.
  destruct (proj2 (proj2 (@publish_errors unit down_channel WorkloadPublisherConfig_default
    sample_events tt)) ltac:(done) eq_refl) as (rep & H1 & H2 & _ & H4).
  exists rep. split; [exact H1|]. split; [rewrite H2; by vm_compute|exact H4].
Defined.
