(* ===== verification/Publishing.v ===== *)
(** * Publishing: the generator's workload, published to the collector

    The publisher's threads on one side, one [StreamReactor] per call in front of
    the queued sink on the other, gRPC between them. [CollectorChannel] states what
    gRPC does between the two: a call delivers messages written on it, in order, and
    ends with what the reactor answers - or the connection loses the call. The sink
    is that of [QueuedSink]: shared by all calls, drained by its consumer and shut
    down at any moment. *)
From Stdlib Require Import ZArith Lia.
From stdpp Require Import base gmap strings list sorting relations.
From S2P Require Import Prelude Bytes Floats Telemetry Validation BoundedQueue QueuedSink Collector.
From S2P Require Import Fnv Random Generator Workload OrderedMap Publisher.
Local Open Scope Z_scope.
Local Open Scope tf_scope.

(** The numbers of the codes the reactor uses. *)
Definition grpc_code (c : StatusCode) : Z :=
  match c with OK => 0 | INVALID_ARGUMENT => 3 | RESOURCE_EXHAUSTED => 8 | UNAVAILABLE => 14 end.

(** The sink as one reactor sees it: the answers to its calls, in order. *)
#[local] Instance answers_sink : TelemetrySink (list SinkResult) := {
  sink_try_accept answers _ :=
    match answers with
    | answer :: answers' => (answer, answers')
    | [] => (Sink_unavailable, [])
    end;
}.

(** The documented behaviour of client-streaming calls between a channel and the
    collector. [view n i] holds the messages written on call [i] and whether a write
    of it failed; [sink_of n] is the collector's sink; [lost] are the calls the
    connection or the client ends. *)
Class CollectorChannel (N C : Type) `{!GrpcChannel N} `{!TelemetryConsumer C}
    (moved_from : TelemetryEvent -> TelemetryEvent) := {
  view : N -> nat -> list TelemetryEvent * bool;
  sink_of : N -> sink_state C;
  lost : nat -> Prop;
  view_create : forall t n j, view (CreateChannel t n) j = view n j;
  view_wait : forall d n j, view (WaitForConnected d n).2 j = view n j;
  view_open : forall i n j,
    view (call_open i n) j = if decide (i = j) then ([], false) else view n j;
  view_write : forall i ev n n' ok j, call_write i ev n = (ok, n') ->
    view n' j = if decide (i = j)
      then (if ok then ((view n j).1 ++ [ev], (view n j).2) else ((view n j).1, true))
      else view n j;
  view_writes_done : forall i n j, view (call_writes_done i n) j = view n j;
  view_finish : forall i n n' st sm j, call_finish i n = (st, sm, n') -> view n' j = view n j;
  (* Meanwhile the sink runs. *)
  runs_create : forall t n, rtc sink_step (sink_of n) (sink_of (CreateChannel t n));
  runs_wait : forall d n, rtc sink_step (sink_of n) (sink_of (WaitForConnected d n).2);
  runs_open : forall i n, rtc sink_step (sink_of n) (sink_of (call_open i n));
  runs_write : forall i ev n n' ok, call_write i ev n = (ok, n') ->
    rtc sink_step (sink_of n) (sink_of n');
  runs_writes_done : forall i n, rtc sink_step (sink_of n) (sink_of (call_writes_done i n));
  runs_finish : forall i n n' st sm, call_finish i n = (st, sm, n') ->
    rtc sink_step (sink_of n) (sink_of n');
  (* The reactor read the first messages of the call, all of them if it ended with
     [OK]; every message the validator accepted was offered to the sink. *)
  finish_outcome : forall i n n' st sm, call_finish i n = (st, sm, n') ->
    lost i /\ error_code st <> 0 \/
    exists reads answers status rest,
      run_stream moved_from answers reads = (status, sm, rest) /\
      error_code st = grpc_code (status_code status) /\
      reads.*1 `prefix_of` (view n i).1 /\
      (status_code status = OK -> view n i = (reads.*1, false)) /\
      (status_code status <> INVALID_ARGUMENT -> length answers = length reads) /\
      forall k p answer, reads !! k = Some p -> answers !! k = Some answer ->
        exists tid, (tid, collected_of p, answer) ∈ results (sink_of n');
}.

Section delivery.
Context {N C : Type} `{!GrpcChannel N} `{!TelemetryConsumer C}.
Context (moved_from : TelemetryEvent -> TelemetryEvent) `{!CollectorChannel N C moved_from}.
Context (c0 : C) (cap : Z).
Implicit Types (s : sink_state C) (g : ProducerEvents) (r : ProducerPublishResult).

(** The offers of a reactor that were all taken. *)
Lemma answers_taken evs : forall answers rest,
  offer answers evs = (replicate (length evs) Sink_accepted, rest) ->
  answers = replicate (length evs) Sink_accepted ++ rest.
Proof.
  induction evs as [|ev evs IH]; intros answers rest; cbn; [by intros [= ->]|].
  destruct answers as [|answer answers]; cbn.
  { destruct (offer [] evs). by intros [=]. }
  destruct (offer answers evs) as [res rest'] eqn:E. intros [= -> -> ->]. f_equal.
  by apply IH.
Qed.

(** A prefix of an accepted stream is accepted. *)
Lemma accepted_prefix evs : forall more v v2,
  accept_stream v (evs ++ more) = (evs ++ more, v2) ->
  exists v1, accept_stream v evs = (evs, v1) /\ accept_stream v1 more = (more, v2).
Proof.
  induction evs as [|ev evs IH]; intros more v v2; [by exists v|].
  cbn [app accept_stream].
  destruct (accept_verdict v ev) as [[v' ->]|(reason & v' & ->)]; cbn [accepted accept_result reject].
  - destruct (accept_stream v' (evs ++ more)) as [acc v3] eqn:E. intros [= -> ->].
    destruct (IH more v' v2 E) as (v1 & -> & Hm). by exists v1.
  - pose proof (accept_stream_length (evs ++ more) v') as Hl.
    destruct (accept_stream v' (evs ++ more)) as [acc v3]. intros [= -> _]. cbn in Hl. lia.
Qed.

(** The sink took the event. *)
Definition taken_in s (ev : TelemetryEvent) : Prop :=
  exists tid now, (tid, collected_of (ev, now), Sink_accepted) ∈ results s.

(** The row of producer [g], whose call is [i], against the sink: everything was
    taken in, or the row says why it was not. *)
Inductive row_outcome s (i : nat) g r : Prop :=
  | row_delivered : pr_grpc_status_code r = 0 ->
      pr_attempted_events r = Zlength (pe_events g) ->
      pr_written_events r = Zlength (pe_events g) ->
      pr_accepted_events r = Zlength (pe_events g) -> pr_sequence_gaps r = 0 ->
      Forall (taken_in s) (pe_events g) -> row_outcome s i g r
  | row_lost : pr_grpc_status_code r <> 0 -> lost i -> row_outcome s i g r
  | row_overloaded : pr_grpc_status_code r = 8 -> refusal c0 cap s Sink_overloaded ->
      row_outcome s i g r
  | row_unavailable : pr_grpc_status_code r = 14 -> refusal c0 cap s Sink_unavailable ->
      row_outcome s i g r.

Lemma refusal_run s s' a : rtc sink_step s s' -> refusal c0 cap s a -> refusal c0 cap s' a.
Proof. induction 1; eauto using refusal_step. Qed.

Lemma row_outcome_run s s' i g r : rtc sink_step s s' -> row_outcome s i g r ->
  row_outcome s' i g r.
Proof.
  intros Hrun [].
  - apply row_delivered; try done. eapply Forall_impl; [done|].
    intros ev (tid & now & Hin). exists tid, now. destruct (sink_run_results s s' Hrun) as [l ->].
    apply elem_of_app. by left.
  - by apply row_lost.
  - by eapply row_overloaded, refusal_run.
  - by eapply row_unavailable, refusal_run.
Qed.

(** What the publisher needs of the events: every producer's stream is accepted,
    without gaps. *)
Definition stream_accepted g : Prop :=
  Zlength (pe_events g) < 2 ^ 64 /\ exists v,
    accept_stream StreamValidator_init (pe_events g) = (pe_events g, v) /\
    accepted_events_ v = Zlength (pe_events g) /\ sequence_gaps_ v = 0.

Definition streams_accepted (groups : list ProducerEvents) : Prop := Forall stream_accepted groups.

(** The row of a call whose messages were all accepted. *)
Lemma delivered_row (i : nat) g (n' : N) tk beyond answers v st :
  Zlength (pe_events g) < 2 ^ 64 -> tk.*1 = pe_events g ->
  answers = replicate (length tk) Sink_accepted ++ beyond -> error_code st = 0 ->
  accepted_events_ v = Zlength (pe_events g) -> sequence_gaps_ v = 0 ->
  (forall k p answer, tk !! k = Some p -> answers !! k = Some answer ->
     exists tid, (tid, collected_of p, answer) ∈ results (sink_of n')) ->
  row_outcome (sink_of n') i g (finish_result (written_result g tk.*1) st (populate_summary v)).
Proof.
  intros Hlen Htk Ho Hcode Ha Hg Hlog. apply row_delivered.
  - exact Hcode.
  - cbn. by rewrite u64_small by (unfold in_u64; lia).
  - cbn. rewrite Htk. by rewrite u64_small by (unfold in_u64; lia).
  - cbn. unfold status_ok. by rewrite Hcode.
  - cbn. unfold status_ok. by rewrite Hcode.
  - rewrite <- Htk. apply Forall_forall. intros ev ([ev' now] & -> & Hin)%list_elem_of_fmap.
    apply list_elem_of_lookup in Hin as [k Hk].
    destruct (Hlog k (ev', now) Sink_accepted Hk) as [tid Hin]; [|by exists tid, now].
    rewrite Ho, lookup_app_l by (rewrite length_replicate; by eapply lookup_lt_Some).
    by apply lookup_replicate_2; eapply lookup_lt_Some.
Qed.

(** What the answers of a finished call make of the row. *)
Lemma answered_row (i : nat) g (n' : N) reads answers status sm rest done_ broken st :
  stream_accepted g -> reachable c0 cap (sink_of n') ->
  run_stream moved_from answers reads = (status, sm, rest) ->
  error_code st = grpc_code (status_code status) ->
  reads.*1 `prefix_of` done_ -> done_ `prefix_of` pe_events g ->
  (status_code status = OK -> done_ = reads.*1 /\ broken = false) ->
  (status_code status <> INVALID_ARGUMENT -> length answers = length reads) ->
  (forall k p answer, reads !! k = Some p -> answers !! k = Some answer ->
     exists tid, (tid, collected_of p, answer) ∈ results (sink_of n')) ->
  (done_ = pe_events g \/ broken = true) ->
  row_outcome (sink_of n') i g (finish_result (written_result g done_) st sm).
Proof.
  intros (Hlen & v & Hv & Ha & Hg) Hr Hrun Hcode Hp Hd Hok Hans Hlog Hall.
  destruct (run_reads_spec moved_from reads (fst (StreamReactor_new StreamSummary_default))
    answers eq_refl) as (tk & left_ & v1 & s1 & status' & sm' & s2 & -> & Htk & Ho & Hrun' & Hend).
  change (run_stream moved_from answers (tk ++ left_) = (status', sm', s2)) in Hrun'.
  rewrite Hrun' in Hrun. injection Hrun as -> -> ->.
  assert (Hpre : (tk ++ left_).*1 `prefix_of` pe_events g) by (by etrans).
  destruct Hpre as [more Hpre]. rewrite fmap_app, <- app_assoc in Hpre. rewrite Hpre in Hv.
  destruct (accepted_prefix _ _ _ _ Hv) as (v1' & Hv1 & Hv2).
  cbn in Htk. rewrite Htk in Hv1. injection Hv1 as <-.
  rewrite <- (length_fmap collected_of tk) in Ho.
  apply answers_taken in Ho. rewrite length_fmap in Ho.
  assert (Hanswer : forall k p answer, (tk ++ left_) !! k = Some p -> answers !! k = Some answer ->
    refusal c0 cap (sink_of n') answer).
  { intros k p answer Hk1 Hk2. destruct (Hlog k p answer Hk1 Hk2) as [tid Hin].
    by apply (refusals_explained c0 cap _ Hr tid (collected_of p)). }
  destruct Hend as [|ev now left_ v' reason Hrej|ev now left_ v' s2 Hacc Hs|ev now left_ v' s2 Hacc Hs];
    cbn [status_code grpc_code Status_OK] in *.
  - destruct (Hok eq_refl) as [-> ->]. destruct Hall as [Hall|]; [|done].
    rewrite app_nil_r in *. rewrite <- Hall in Hpre.
    assert (more = []) as ->.
    { apply (f_equal length) in Hpre. rewrite !length_app, !length_fmap in Hpre.
      apply nil_length_inv. cbn in Hpre. lia. }
    cbn in Hv2. injection Hv2 as <-. by apply (delivered_row i g _ _ s1 answers).
  - exfalso. rewrite fmap_cons in Hv2. cbn [fst app accept_stream] in Hv2.
    rewrite Hrej in Hv2. cbn [accepted reject] in Hv2.
    pose proof (accept_stream_length (left_.*1 ++ more) v') as Hl.
    destruct (accept_stream v' (left_.*1 ++ more)) as [acc v3]. injection Hv2 as -> _. cbn in Hl. lia.
  - apply row_overloaded; [done|]. destruct s1 as [|a s1]; cbn in Hs; [done|].
    injection Hs as -> ->. apply (Hanswer (length tk) (ev, now)).
    + by rewrite list_lookup_middle.
    + rewrite Ho. by apply list_lookup_middle; rewrite length_replicate.
  - apply row_unavailable; [done|]. destruct s1 as [|a s1].
    { exfalso. specialize (Hans ltac:(done)). rewrite Ho, app_nil_r, length_replicate, length_app in Hans.
      cbn in Hans. lia. }
    cbn in Hs. injection Hs as -> ->. apply (Hanswer (length tk) (ev, now)).
    + by rewrite list_lookup_middle.
    + rewrite Ho. by apply list_lookup_middle; rewrite length_replicate.
Qed.

(** Where a thread stands. *)
Definition thread_delivers (n : N) (i : nat) g (pc : thread_pc)
    (stored : option ProducerPublishResult) : Prop :=
  match pc with
  | Opening g' => g' = g
  | Writing r left_ => exists done_, view n i = (done_, false) /\
      done_ ++ left_ = pe_events g /\ r = written_result g done_
  | Closing r => exists done_, view n i = (done_, true) /\
      done_ `prefix_of` pe_events g /\ r = written_result g done_
  | Finishing r => exists done_ broken, view n i = (done_, broken) /\
      done_ `prefix_of` pe_events g /\ r = written_result g done_ /\
      (done_ = pe_events g \/ broken = true)
  | Storing r => row_outcome (sink_of n) i g r
  | Stored => exists r, stored = Some r /\ row_outcome (sink_of n) i g r
  end.

Lemma thread_delivers_other n n' i g pc stored : view n' i = view n i ->
  rtc sink_step (sink_of n) (sink_of n') -> thread_delivers n i g pc stored ->
  thread_delivers n' i g pc stored.
Proof.
  intros Hv Hrun. destruct pc; cbn; rewrite ?Hv; try done.
  - by apply row_outcome_run.
  - intros (r & ? & ?). exists r. split; [done|by eapply row_outcome_run].
Qed.

Lemma finish_delivers (i : nat) g n n' st sm r : stream_accepted g -> reachable c0 cap (sink_of n) ->
  thread_delivers n i g (Finishing r) None -> call_finish i n = (st, sm, n') ->
  row_outcome (sink_of n') i g (finish_result r st sm).
Proof.
  intros Hst Hr (done_ & broken & Hv & Hp & -> & Hall) Hfin.
  destruct (finish_outcome i n n' st sm Hfin)
    as [[Hl Hc]|(reads & answers & status & rest & Hrun & Hcode & Hpre & Hok & Hans & Hlog)].
  { by apply row_lost. }
  rewrite Hv in Hpre, Hok. apply (answered_row i g n' reads answers status sm rest done_ broken st); try done.
  - eapply reachable_run; [done|]. by eapply runs_finish.
  - intros E. specialize (Hok E). by injection Hok.
Qed.

Definition delivery_inv (groups : list ProducerEvents) (x : publish_state N) : Prop :=
  reachable c0 cap (sink_of (channel x)) /\
  length (threads x) = length groups /\ length (report x) = length groups /\
  forall i g pc, groups !! i = Some g -> threads x !! i = Some pc ->
    thread_delivers (channel x) i g pc (report x !! i).

(** A step changes where one thread stands, and nothing of the others. *)
Lemma thread_step_delivers groups i (x x' : publish_state N) c :
  streams_accepted groups -> delivery_inv groups x -> thread_step i x = Some (x', c) ->
  delivery_inv groups x'.
Proof.
  intros Hst (Hr & Hlt & Hlr & He) Hstep. unfold thread_step in Hstep.
  destruct (negb (i <? created x)%nat); [done|].
  destruct (threads x !! i) as [pc|] eqn:Hpc; [|done].
  pose proof (lookup_lt_Some _ _ _ Hpc) as Hi.
  destruct (lookup_lt_is_Some_2 groups i ltac:(lia)) as [g Hg].
  pose proof (He i g pc Hg Hpc) as Hown.
  assert (Hgo : forall n' pc' rep, length rep = length groups ->
    (forall j, j <> i -> view n' j = view (channel x) j) ->
    (forall j, j <> i -> rep !! j = report x !! j) ->
    rtc sink_step (sink_of (channel x)) (sink_of n') ->
    thread_delivers n' i g pc' (rep !! i) ->
    delivery_inv groups {| channel := n'; created := created x;
      threads := <[i := pc']> (threads x); report := rep |}).
  { intros n' pc' rep Hrep Hn Hrest Hrun Hd. split; [by eapply reachable_run|].
    split; [by cbn; rewrite length_insert|]. split; [done|].
    cbn. intros j gj pcj Hgj Hpcj. destruct (decide (i = j)) as [<-|Hne].
    - rewrite list_lookup_insert_eq in Hpcj by lia. by simplify_eq.
    - rewrite list_lookup_insert_ne in Hpcj by done. rewrite Hrest by done.
      eapply thread_delivers_other; [by apply Hn|done|by apply He]. }
  destruct pc as [g'|r [|ev left_]|r|r|r|]; cbn [thread_delivers] in Hown; try done.
  - subst g'. injection Hstep as <- <-. apply Hgo; try done; [|apply runs_open|].
    + intros j Hne. by rewrite view_open, decide_False by done.
    + exists []. by rewrite view_open, decide_True.
  - destruct Hown as (done_ & Hv & Hd & ->). injection Hstep as <- <-. rewrite app_nil_r in Hd.
    apply Hgo; try done; [intros; apply view_writes_done|apply runs_writes_done|].
    exists done_, false. rewrite view_writes_done, <- Hd. split_and!; auto.
  - destruct Hown as (done_ & Hv & Hd & ->). destruct (call_write i ev (channel x)) as [ok n'] eqn:Hw.
    injection Hstep as <- <-.
    pose proof (fun j => view_write i ev _ _ _ j Hw) as Hdw.
    apply Hgo; try done; [|by eapply runs_write|].
    + intros j Hne. by rewrite Hdw, decide_False by done.
    + destruct ok; cbn; rewrite Hdw, decide_True, Hv by done; cbn [fst snd].
      * exists (done_ ++ [ev]). rewrite <- app_assoc. split_and!; [done..|]. apply written_next.
      * exists done_. split_and!; [done|by exists (ev :: left_)|done].
  - destruct Hown as (done_ & Hv & Hp & ->). injection Hstep as <- <-.
    apply Hgo; try done; [intros; apply view_writes_done|apply runs_writes_done|].
    exists done_, true. rewrite view_writes_done. split_and!; auto.
  - destruct (call_finish i (channel x)) as [[st sm] n'] eqn:Hf. injection Hstep as <- <-.
    apply Hgo; try done; [by intros; eapply view_finish|by eapply runs_finish|].
    eapply (finish_delivers i g); [|done|exact Hown|done].
    unfold streams_accepted in Hst. rewrite Forall_lookup in Hst. by apply (Hst i).
  - injection Hstep as <- <-. apply Hgo; [by rewrite length_insert|done| |apply rtc_refl|].
    + intros j Hne. by rewrite list_lookup_insert_ne.
    + exists r. by rewrite list_lookup_insert_eq by lia.
Qed.

Lemma publish_steps_deliver groups (x x' : publish_state N) k tr :
  streams_accepted groups -> publish_steps x k tr x' -> delivery_inv groups x ->
  delivery_inv groups x'.
Proof.
  intros Hst. induction 1 as [x|x k tr x1 tr' x2 Hs IH Hstep]; intros Hinv; [done|].
  destruct Hstep as [x2 Hsp|i x2 c Hth].
  - unfold spawn_step in Hsp. destruct (negb _); [done|]. injection Hsp as <-. by apply IH.
  - eapply thread_step_delivers; [done|by apply IH|done].
Qed.

Lemma publish_delivers config events (n : N) x0 x k tr :
  streams_accepted (group_by_producer events) -> reachable c0 cap (sink_of n) ->
  publish config events n = inr x0 -> publish_steps x0 k tr x -> all_joined x ->
  Forall2 (fun (p : nat * ProducerEvents) r => row_outcome (sink_of (channel x)) p.1 p.2 r)
    (imap pair (group_by_producer events)) (report x).
Proof.
  intros Hst Hn Hstart Hsteps [_ Hj]. rewrite Forall_lookup in Hj.
  assert (Hinv0 : delivery_inv (group_by_producer events) x0).
  { unfold publish in Hstart. set (groups := group_by_producer events) in *.
    destruct (bool_decide (groups = [])); [done|].
    pose proof (runs_wait (connect_timeout config) (CreateChannel (target config) n)) as Hw.
    destruct (WaitForConnected _ _) as [[] n']; cbn [negb] in Hstart; [|done].
    injection Hstart as <-. split.
    { cbn. eapply reachable_run; [|exact Hw]. eapply reachable_run; [done|apply runs_create]. }
    split_and!; cbn; rewrite ?length_fmap, ?length_replicate; try done.
    intros i g pc Hg Hpc. rewrite list_lookup_fmap, Hg in Hpc. by injection Hpc as <-. }
  destruct (publish_steps_deliver _ _ _ _ _ Hst Hsteps Hinv0) as (_ & Hlt & Hlr & He).
  apply Forall2_same_length_lookup_2; [by rewrite length_imap|].
  intros i [i' g] r Hg Hr. rewrite list_lookup_imap in Hg.
  destruct (group_by_producer events !! i) as [g'|] eqn:E; [|done]. injection Hg as <- <-.
  destruct (lookup_lt_is_Some_2 (threads x) i) as [pc Hpc].
  { rewrite Hlt. by eapply lookup_lt_Some. }
  pose proof (He i g' pc E Hpc) as Hd. rewrite (Hj i pc Hpc) in Hd.
  destruct Hd as (r' & Hr' & Hd). rewrite Hr in Hr'. by injection Hr' as <-.
Qed.
End delivery.

(** The producers of a workload without jitter and faults. *)
Lemma quiet_groups {E} `{!RandomEngine E} `{!EventCodec}
    (state_name : Z -> string) (config : GeneratorConfig) (w : GeneratedWorkload)
    (Hname : forall state, str_size (state_name state) <= kMaxDetailBytes)
    (Hser : forall ev, event_valid ev -> is_Some (SerializeToString ev))
    (Hwf : config_wf config) (Hvalid : validate_config config = None)
    (Hfair : fair (seed_engine (seed config)))
    (Hrun : runs_to state_name config w)
    (Hjitter : max_jitter config = 0)
    (Hfaults : drop_per_million (faults config) <= 0 /\
       duplicate_per_million (faults config) <= 0 /\ reorder_per_million (faults config) <= 0) :
  streams_accepted (group_by_producer (events w)) /\ Zlength (events w) < 2 ^ 64.
Proof.
  destruct (quiet_streams state_name config w Hname Hser Hwf Hvalid Hfair Hrun Hjitter Hfaults)
    as (states & _ & Hev & Hsize & Hall).
  unfold kMaxGeneratedEvents in Hsize. split; [|lia].
  apply Forall_forall. intros g [Hne Hg]%group_elem.
  assert (Hlen : Zlength (pe_events g) < 2 ^ 64).
  { rewrite Hg. pose proof (length_filter (fun ev => producer_id ev = pe_producer_id g) (events w)).
    lia. }
  split; [done|].
  assert (Hp : pe_producer_id g ∈ (streams config states).*1).
  { destruct (pe_events g) as [|ev evs] eqn:Ep; [done|].
    assert (Hin : ev ∈ filter (fun ev => producer_id ev = pe_producer_id g) (events w))
      by (rewrite <- Hg; left).
    apply list_elem_of_filter in Hin as [<- Hin]. by apply Hev. }
  apply list_elem_of_fmap in Hp as ([p times] & Hp & Hin). cbn in Hp. subst p.
  destruct (Hall _ times Hin) as (Hseq & st & Hacc & Hcount & Hgaps). rewrite <- Hg in *.
  exists st. split; [done|]. split; [|done]. rewrite Hcount.
  rewrite <- (length_fmap sequence_number), Hseq, length_seqZ. lia.
Qed.

(** ** A loopback, for the example

    All calls end in the sink of a collector without an output file, one after the
    other; the connection resets the third call. *)

#[local] Existing Instance steady_engine.
#[local] Existing Instance sequence_codec.

Section loopback.
Context {C : Type} `{!TelemetryConsumer C}.
Implicit Types (s : sink_state C).

Lemma try_accept_kept s tid ev : producers s !! tid = None ->
  producers (try_accept s tid ev).2 = producers s /\
  constructed (try_accept s tid ev).2 = constructed s /\
  (tid, ev, (try_accept s tid ev).1) ∈ results (try_accept s tid ev).2.
Proof.
  intros Hp. unfold try_accept. destruct (negb (accepting_events_ s)).
  - cbn. rewrite delete_id by done. split_and!; [done..|]. apply elem_of_app. right. by left.
  - destruct (try_push (queue_ s) ev) as [[] q']; cbn; rewrite delete_id by done;
      (split_and!; [done..|]); apply elem_of_app; right; by left.
Qed.

(** A call on the queued sink, as the reactor sees it. *)
Lemma answers_exist (moved_from : TelemetryEvent -> TelemetryEvent) tid reads : forall r s status sm s',
  constructed s = true -> producers s !! tid = None ->
  run_reads (TelemetrySink0 := queued_telemetry_sink tid) moved_from r s reads = (status, sm, s') ->
  rtc sink_step s s' /\
  exists read answers rest, read `prefix_of` reads /\
    run_reads moved_from r answers read = (status, sm, rest) /\
    (status_code status = OK -> read = reads) /\
    (status_code status <> INVALID_ARGUMENT -> length answers = length read) /\
    forall k p answer, read !! k = Some p -> answers !! k = Some answer ->
      (tid, collected_of p, answer) ∈ results s'.
Proof.
  induction reads as [|[ev now] reads IH]; intros r s status sm s' Hc Hp.
  { intros [= <- <- <-]. split; [apply rtc_refl|]. by exists [], [], []. }
  cbn [run_reads]. unfold OnReadDone. cbn [negb store_message validator_ event_ response_].
  destruct (accept_verdict (validator_ r) ev) as [[v' Ha]|(reason & v' & Ha)]; rewrite Ha;
    cbn [accepted accept_result reject negb error].
  2: { intros [= <- <- <-]. split; [apply rtc_refl|]. exists [(ev, now)], [], [].
       split_and!; [by exists reads| |done..].
       cbn [run_reads]. unfold OnReadDone. cbn [negb store_message validator_ event_ response_].
       by rewrite Ha. }
  set (cev := {| event := ev; collector_arrival_timestamp_ns := now |}).
  pose proof (try_accept_run s tid cev Hc Hp) as Hrun1.
  destruct (try_accept_kept s tid cev Hp) as (Hp' & Hc' & Hin).
  cbn [sink_try_accept queued_telemetry_sink].
  destruct (try_accept s tid cev) as [a s1]. cbn [fst snd] in *.
  rewrite Hc in Hc'. rewrite <- Hp' in Hp. destruct a.
  - intros Hrun. destruct (IH _ s1 status sm s' Hc' Hp Hrun)
      as (Hrun2 & read & answers & rest & Hpre & Hread & Hok & Hlen & Hlog).
    split; [by etrans|]. exists ((ev, now) :: read), (Sink_accepted :: answers), rest.
    split_and!; [by apply prefix_cons| | | |].
    + cbn [run_reads]. unfold OnReadDone. cbn [negb store_message validator_ event_ response_].
      by rewrite Ha.
    + intros E. by rewrite (Hok E).
    + intros E. cbn. by rewrite (Hlen E).
    + intros [|k] p answer; [|by apply Hlog]. intros [= <-] [= <-].
      destruct (sink_run_results s1 s' Hrun2) as [more ->]. apply elem_of_app. by left.
  - intros [= <- <- <-]. split; [done|]. exists [(ev, now)], [Sink_overloaded], [].
    split_and!; [by exists reads| |done..|by intros [|k] p answer; [intros [= <-] [= <-]|]].
    cbn [run_reads]. unfold OnReadDone. cbn [negb store_message validator_ event_ response_].
    by rewrite Ha.
  - intros [= <- <- <-]. split; [done|]. exists [(ev, now)], [Sink_unavailable], [].
    split_and!; [by exists reads| |done..|by intros [|k] p answer; [intros [= <-] [= <-]|]].
    cbn [run_reads]. unfold OnReadDone. cbn [negb store_message validator_ event_ response_].
    by rewrite Ha.
Qed.
End loopback.

Record loopback_state := {
  loop_calls : nat -> list TelemetryEvent;
  loop_reset : bool;                          (* the third call was reset *)
  loop_sink : sink_state CountingConsumer;
}.

Definition set_call (i : nat) (evs : list TelemetryEvent) (reset : bool) (n : loopback_state)
    : loopback_state :=
  {| loop_calls := fun j => if decide (i = j) then evs else loop_calls n j;
     loop_reset := if (i =? 2)%nat then reset else loop_reset n; loop_sink := loop_sink n |}.

Definition loop_view (n : loopback_state) (i : nat) : list TelemetryEvent * bool :=
  (loop_calls n i, (i =? 2)%nat && loop_reset n).

(** The sink once its constructor has returned. *)
Definition ready_sink (s : sink_state CountingConsumer) : sink_state CountingConsumer :=
  if constructed s then s else sink_constructed s.

Definition loopback_call (i : nat) (n : loopback_state)
    : Status * StreamSummary * sink_state CountingConsumer :=
  let s := ready_sink (loop_sink n) in
  run_stream (TelemetrySink0 := queued_telemetry_sink (fresh (dom (producers s)))) (fun ev => ev)
    s ((fun ev => (ev, 0)) <$> loop_calls n i).

#[local] Instance loopback : GrpcChannel loopback_state := {
  CreateChannel _ n := n;
  WaitForConnected _ n := (true, n);
  call_open i n := set_call i [] false n;
  call_write i ev n :=
    if (i =? 2)%nat then (false, set_call i (loop_calls n i) true n)
    else (true, set_call i (loop_calls n i ++ [ev]) false n);
  call_writes_done _ n := n;
  call_finish i n :=
    if (i =? 2)%nat
    then ({| error_code := 14; error_message := "Connection reset by peer" |},
          StreamSummary_default, n)
    else let '(status, summary, s) := loopback_call i n in
      ({| error_code := grpc_code (status_code status); error_message := status_message status |},
       summary, 
         {| loop_calls := loop_calls n; loop_reset := loop_reset n; loop_sink := s |});
}.

Lemma ready_sink_run s : rtc sink_step s (ready_sink s).
Proof.
  unfold ready_sink. destruct (constructed s) eqn:E; [apply rtc_refl|].
  apply rtc_once. left. by constructor.
Qed.

Lemma ready_sink_constructed s : constructed (ready_sink s) = true.
Proof. unfold ready_sink. by destruct (constructed s) eqn:E. Qed.

Lemma loopback_call_answers i n status sm s' : loopback_call i n = (status, sm, s') ->
  rtc sink_step (loop_sink n) s' /\
  exists reads answers rest, run_stream (fun ev => ev) answers reads = (status, sm, rest) /\
    reads.*1 `prefix_of` loop_calls n i /\
    (status_code status = OK -> loop_calls n i = reads.*1) /\
    (status_code status <> INVALID_ARGUMENT -> length answers = length reads) /\
    forall k p answer, reads !! k = Some p -> answers !! k = Some answer ->
      exists tid, (tid, collected_of p, answer) ∈ results s'.
Proof.
  intros Hcall. unfold loopback_call, run_stream in Hcall.
  assert (Hfst : forall l : list TelemetryEvent, ((fun ev => (ev, 0)) <$> l).*1 = l)
    by (intros l; by rewrite <- list_fmap_compose, list_fmap_id).
  apply answers_exist in Hcall
    as (Hrun & reads & answers & rest & [more Hpre] & Hread & Hok & Hlen & Hlog).
  - split; [etrans; [apply ready_sink_run|exact Hrun]|]. exists reads, answers, rest.
    split_and!; [exact Hread| | |done|].
    + exists more.*1. by rewrite <- fmap_app, <- Hpre, Hfst.
    + intros E. by rewrite (Hok E), Hfst.
    + intros k p answer H1 H2. eexists. by apply (Hlog k).
  - apply ready_sink_constructed.
  - apply not_elem_of_dom. apply is_fresh.
Qed.

Lemma set_call_view i evs reset n j : (i =? 2)%nat || negb reset = true ->
  loop_view (set_call i evs reset n) j = if decide (i = j) then (evs, reset) else loop_view n j.
Proof.
  intros H. unfold loop_view, set_call; cbn. destruct (decide (i = j)) as [<-|Hne].
  - by destruct (i =? 2)%nat, reset.
  - destruct (Nat.eqb_spec i 2), (Nat.eqb_spec j 2); cbn; congruence.
Qed.

#[local] Instance loopback_collector : CollectorChannel loopback_state CountingConsumer (fun ev => ev).
Proof.
  refine {| view := loop_view; sink_of := loop_sink; lost i := i = 2%nat |}; cbn; try done;
    try (by intros; apply rtc_refl).
  - intros i n j. by rewrite set_call_view by apply orb_true_r.
  - intros i ev n n' ok j. destruct (Nat.eqb_spec i 2) as [->|Hi]; intros [= <- <-].
    + rewrite set_call_view by done. by destruct (decide (2%nat = j)) as [<-|].
    + rewrite set_call_view by apply orb_true_r. destruct (decide (i = j)) as [<-|]; [|done].
      unfold loop_view. by destruct (Nat.eqb_spec i 2).
  - intros i n n' st sm j. destruct (i =? 2)%nat; [by intros [= _ _ <-]|].
    destruct (loopback_call i n) as [[? ?] ?]. by intros [= _ _ <-].
  - intros i ev n n' ok. destruct (i =? 2)%nat; intros [= _ <-]; apply rtc_refl.
  - intros i n n' st sm. destruct (i =? 2)%nat; [intros [= _ _ <-]; apply rtc_refl|].
    destruct (loopback_call i n) as [[status summary] s'] eqn:E. intros [= _ _ <-].
    by destruct (loopback_call_answers i n status summary s' E).
  - intros i n n' st sm. destruct (Nat.eqb_spec i 2) as [->|Hi]; [intros [= <- _ _]; by left|].
    destruct (loopback_call i n) as [[status summary] s'] eqn:E. intros [= <- <- <-]. right.
    destruct (loopback_call_answers i n status summary s' E)
      as (_ & reads & answers & rest & Hread & Hpre & Hok & Hlen & Hlog).
    exists reads, answers, status, rest. split_and!; try done.
    intros Eok. unfold loop_view. rewrite (Hok Eok). by destruct (Nat.eqb_spec i 2).
Defined.

(** A call with more events than the queue holds is refused. *)
Definition idle_collector (cap : Z) : loopback_state :=
  {| loop_calls := fun _ => []; loop_reset := false;
     loop_sink := match make_queue cap with
       | inr q => sink_start q {| delay_ := 0; counted_events_ := 0 |} 0 0 false
       | inl _ => sample_sink end |}.

Example loopback_codes :
  let run evs := error_code (call_finish 0 (foldl (fun n ev => (call_write 0 ev n).2)
                   (call_open 0 (idle_collector 2)) evs)).1.1 in
  run [sample_event "phone" 1 5; sample_event "phone" 2 6] = 0 /\
  run [sample_event "phone" 1 5; sample_event "phone" 2 6; sample_event "phone" 3 7] = 8.
Proof. vm_compute. done. Qed.

Lemma idle_collector_reachable cap : 0 < cap < 2 ^ 64 ->
  reachable {| delay_ := 0; counted_events_ := 0 |} cap (sink_of (idle_collector cap)).
Proof.
  intros Hcap. destruct (make_queue (Item := CollectedEvent) cap) as [err|q] eqn:Eq.
  { unfold make_queue in Eq. destruct (Z.eqb_spec cap 0); [lia|done]. }
  cbn. rewrite Eq. split; [unfold in_u64; lia|]. exists q, 0, 0, false. split; [done|apply rtc_refl].
Qed.

(** The quiet workload is not empty, so that its publisher starts threads. *)
Lemma quiet_run_started cap w : runs_to sample_state_name quiet_config w ->
  exists s0, publish WorkloadPublisherConfig_default (events w) (idle_collector cap) = inr s0.
Proof.
  intros Hw. assert (Hv : validate_config quiet_config = None) by by vm_compute.
  destruct (quiet_streams sample_state_name quiet_config w sample_state_name_short
    sequence_codec_total quiet_config_wf Hv (steady_fair _) Hw) as (states & _ & _ & _ & Hall);
    [done|solve_range|].
  destruct (Hall "sim-gps"%string (schedule quiet_config 10)) as (Hseq & _).
  { apply (list_elem_of_lookup_2 _ 3). done. }
  unfold publish. rewrite bool_decide_eq_false_2; [by eexists|]. intros Hg.
  assert (Hnil : events w = []).
  { apply Permutation_nil_r. rewrite <- (group_total (events w)). by rewrite Hg. }
  rewrite Hnil in Hseq. apply (f_equal length) in Hseq. by vm_compute in Hseq.
Qed.

(** What the outcomes of the rows make of the report. *)
Section outcomes.
Context {N C : Type} `{!GrpcChannel N} `{!TelemetryConsumer C}.
Context (moved_from : TelemetryEvent -> TelemetryEvent) `{!CollectorChannel N C moved_from}.
Context (c0 : C) (cap : Z) (s : sink_state C).

Lemma outcome_succeeded i g r : row_outcome moved_from c0 cap s i g r ->
  result_succeeded r = true <-> pr_grpc_status_code r = 0.
Proof.
  unfold result_succeeded, GRPC_OK. intros []; split; intros Hs; reflect_bools; try lia.
Qed.

Lemma outcomes_succeeded groups rep : forall i,
  Forall2 (fun (p : nat * ProducerEvents) r => row_outcome moved_from c0 cap s p.1 p.2 r)
    (imap (fun k g => (i + k, g)%nat) groups) rep ->
  report_succeeded rep = true <-> Forall (fun r => pr_grpc_status_code r = 0) rep.
Proof.
  revert rep. induction groups as [|g groups IH]; intros rep i Hrows; cbn in Hrows.
  { apply Forall2_nil_inv_l in Hrows as ->. split; [constructor|done]. }
  apply Forall2_cons_inv_l in Hrows as (r & rep' & Hr & Hrows & ->).
  cbn [report_succeeded forallb]. rewrite andb_true_iff, Forall_cons.
  rewrite (outcome_succeeded _ _ _ Hr). apply and_iff_compat_l.
  apply (IH rep' (S i)). erewrite imap_ext; [exact Hrows|]. intros k x _. cbn. f_equal. lia.
Qed.

(** A report that succeeds: everything was taken in. *)
Lemma outcomes_delivered groups rep :
  Forall2 (fun (p : nat * ProducerEvents) r => row_outcome moved_from c0 cap s p.1 p.2 r)
    (imap pair groups) rep ->
  Forall (fun r => pr_grpc_status_code r = 0) rep ->
  Forall (fun r => pr_sequence_gaps r = 0) rep /\
  Forall (fun g => Forall (taken_in s) (pe_events g)) groups.
Proof.
  intros Hrows Hcodes. split; apply Forall_lookup.
  - intros i r Hr. destruct (Forall2_lookup_r _ _ _ _ _ Hrows Hr) as (p & _ & Hrow).
    pose proof (proj1 (Forall_lookup _ _) Hcodes i r Hr) as Hc. cbn beta in *.
    destruct Hrow; lia.
  - intros i g Hg.
    assert (Hp : imap pair groups !! i = Some (i, g)) by (by rewrite list_lookup_imap, Hg).
    destruct (Forall2_lookup_l _ _ _ _ _ Hrows Hp) as (r & Hr & Hrow).
    pose proof (proj1 (Forall_lookup _ _) Hcodes i r Hr) as Hc. cbn beta in *.
    destruct Hrow; [done|lia..].
Qed.

(** With the connection, the room and the pipeline the calls need, they all end with [OK]. *)
Lemma outcomes_with_room groups rep :
  Forall2 (fun (p : nat * ProducerEvents) r => row_outcome moved_from c0 cap s p.1 p.2 r)
    (imap pair groups) rep ->
  (forall i, ~ lost i) -> ~ stopped s ->
  (forall s1, reachable c0 cap s1 -> rtc sink_step s1 s -> Zlength (items_ (queue_ s1)) < cap) ->
  Forall (fun r => pr_grpc_status_code r = 0) rep.
Proof.
  intros Hrows Hlost Hrun Hroom. apply Forall_lookup. intros i r Hr.
  destruct (Forall2_lookup_r _ _ _ _ _ Hrows Hr) as (p & _ & Hrow).
  destruct Hrow as [Hc| |_ (s1 & H1 & H2 & H3)|]; [done| | |].
  - by edestruct Hlost.
  - specialize (Hroom s1 H1 H2). lia.
  - done.
Qed.
End outcomes.

(** ** Properties *)

(** C32: generate, publish, collect. A workload without jitter and faults is
    published over gRPC calls to the collector's queued sink, which meanwhile runs
    its consumer thread and may be shut down, whatever the interleaving of all
    threads. Every producer's row of the report is then explained: status [OK], all
    its events written, accepted and taken in by the sink, no sequence gap; or the
    connection lost the call; or [RESOURCE_EXHAUSTED] and the queue was full at some
    moment; or [UNAVAILABLE] and the sink was shut down or its consumer failed. The
    validator never refuses one. The report succeeds exactly when every status is
    [OK]; its accepted events are then all events of the workload, each of which the
    sink took in. That is so whenever no call is lost, the sink is not stopped and
    its queue never full. *)
Theorem quiet_workload_published {E N C} `{!RandomEngine E} `{!EventCodec} `{!GrpcChannel N}
    `{!TelemetryConsumer C} (moved_from : TelemetryEvent -> TelemetryEvent)
    `{!CollectorChannel N C moved_from} (c0 : C) (cap : Z)
    (state_name : Z -> string) (config : GeneratorConfig)
    (w : GeneratedWorkload) (pconfig : WorkloadPublisherConfig) (n : N)
    (x0 x : publish_state N) (steps : nat) (tr : list (nat * grpc_call))
    (Hname : forall state, str_size (state_name state) <= kMaxDetailBytes)
    (Hser : forall ev, event_valid ev -> is_Some (SerializeToString ev))
    (Hwf : config_wf config) (Hvalid : validate_config config = None)
    (Hfair : fair (seed_engine (seed config)))
    (Hrun : runs_to state_name config w)
    (Hjitter : max_jitter config = 0)
    (Hfaults : drop_per_million (faults config) <= 0 /\
       duplicate_per_million (faults config) <= 0 /\ reorder_per_million (faults config) <= 0)
    (Hsink : reachable c0 cap (sink_of n))
    (Hstart : publish pconfig (events w) n = inr x0)
    (Hsteps : publish_steps x0 steps tr x) (Hjoin : all_joined x) :
  let s := sink_of (channel x) in
  let all_ok := Forall (fun r => pr_grpc_status_code r = 0) (report x) in
  Forall2 (fun (p : nat * ProducerEvents) r => row_outcome moved_from c0 cap s p.1 p.2 r)
    (imap pair (group_by_producer (events w))) (report x) /\
  (report_succeeded (report x) = true <-> all_ok) /\
  (all_ok -> accepted_events (report x) = Zlength (events w) /\
     Forall (fun r => pr_sequence_gaps r = 0) (report x) /\ Forall (taken_in s) (events w)) /\
  ((forall i, ~ lost i) -> ~ stopped s ->
   (forall s1, reachable c0 cap s1 -> rtc sink_step s1 s -> Zlength (items_ (queue_ s1)) < cap) ->
   all_ok).
Proof.
  intros s all_ok.
  destruct (quiet_groups state_name config w Hname Hser Hwf Hvalid Hfair Hrun Hjitter Hfaults)
    as [Hst Hlen].
  pose proof (publish_delivers moved_from c0 cap pconfig (events w) n x0 x steps tr
    Hst Hsink Hstart Hsteps Hjoin) as Hrows. fold s in Hrows.
  pose proof (outcomes_succeeded moved_from c0 cap s _ _ 0 Hrows) as Hiff.
  split_and!; [done|done| |by apply (outcomes_with_room moved_from c0 cap s _ _ Hrows)].
  intros Hok. destruct (outcomes_delivered moved_from c0 cap s _ _ Hrows Hok) as [Hgaps Htaken].
  split_and!; [|done|].
  - rewrite (succeeded_accepted _ (proj2 Hiff Hok)).
    by apply (joined_attempted pconfig (events w) n x0 x steps tr).
  - rewrite <- (group_total (events w)). by apply Forall_concat, Forall_fmap.
Qed.

Lemma quiet_workload_published_witness :
  exists w x, runs_to sample_state_name quiet_config w /\
    publish WorkloadPublisherConfig_default (events w) (idle_collector 4096) <> inl (report x) /\
    all_joined x /\
    Forall2 (fun (p : nat * ProducerEvents) r =>
        row_outcome (fun ev => ev) {| delay_ := 0; counted_events_ := 0 |} 4096
          (sink_of (channel x)) p.1 p.2 r)
      (imap pair (group_by_producer (events w))) (report x).
Proof.
  assert (Hv : validate_config quiet_config = None) by by vm_compute.
  destruct (run_exists sample_state_name sample_state_name_short sequence_codec_total
    quiet_config quiet_config_wf Hv (steady_fair _)) as (w & Hw & _).
  destruct (quiet_run_started 4096 w Hw) as [x0 Hstart].
  destruct (joins_reachable x0) as (steps & tr & x & Hsteps & Hjoin).
  { pose proof (publish_init_inv _ _ _ _ Hstart) as Hinv. rewrite (si_threads _ _ _ Hinv). apply Hinv. }
  exists w, x. split; [exact Hw|]. split; [by rewrite Hstart|]. split; [exact Hjoin|].
  eapply (quiet_workload_published (fun ev => ev) _ 4096 sample_state_name quiet_config w
    WorkloadPublisherConfig_default (idle_collector 4096) x0 x steps tr
    sample_state_name_short sequence_codec_total quiet_config_wf Hv (steady_fair _) Hw).
  - done.
  - solve_range.
  - by apply idle_collector_reachable.
  - exact Hstart.
  - exact Hsteps.
  - exact Hjoin.
Defined.
