(* ===== verification/Analyzer.v ===== *)
(** * Analyzer: [analyze_log] of [src/analysis/analyzer.cpp]

    One pass over the records of a complete log feeds three [std::map]s - the
    statistics of a producer, those of a stream (a producer's payload kind), and
    the last source timestamp of a producer, payload kind and clock - and a few
    counters; after it the timings of each stream are computed. The format of
    [long double] differs between platforms and is a parameter: a binary format
    of [ld_prec] bits. *)
From Stdlib Require Import ZArith Lia SpecFloat.
From stdpp Require Import base gmap strings list sorting.
From S2P Require Import Prelude Bytes Floats Dyadic Ranks Telemetry Validation Streams LogFormat.
From S2P Require Import LongDouble LogReader Generator OrderedMap.
Local Open Scope Z_scope.
Local Open Scope tf_scope.

(** ** Data *)

Inductive AnalysisStatus := Analysis_complete | Analysis_log_error.

Record ProducerStats := {
  ps_producer_id : string;
  ps_records : Z;
  ps_sequence_gaps : Z;
  ps_non_increasing_sequences : Z;
}.
Definition ProducerStats_default : ProducerStats :=
  {| ps_producer_id := ""; ps_records := 0; ps_sequence_gaps := 0;
     ps_non_increasing_sequences := 0 |}.

Record StreamStats := {
  ss_producer_id : string;
  ss_payload : string;
  ss_records : Z;
  ss_observed_rate_hz : option double;
  ss_interarrival_p50_ms : option double;
  ss_jitter_p95_ms : option double;
  ss_source_timestamp_regressions : Z;
}.
Definition StreamStats_default : StreamStats :=
  {| ss_producer_id := ""; ss_payload := ""; ss_records := 0; ss_observed_rate_hz := None;
     ss_interarrival_p50_ms := None; ss_jitter_p95_ms := None;
     ss_source_timestamp_regressions := 0 |}.

Record DistributionStats := {
  ds_samples : Z;
  ds_p50_ms : double;
  ds_p95_ms : double;
  ds_p99_ms : double;
  ds_maximum_ms : double;
}.

Record FaultStats := { fs_warnings : Z; fs_errors : Z; fs_critical : Z }.
Definition FaultStats_default : FaultStats :=
  {| fs_warnings := 0; fs_errors := 0; fs_critical := 0 |}.

Record AnalysisReport := {
  an_status : AnalysisStatus;
  an_records : Z;
  an_file_bytes : Z;
  an_duration_seconds : option double;
  an_producers : list ProducerStats;
  an_streams : list StreamStats;
  an_utc_arrival_delta : option DistributionStats;
  an_faults : FaultStats;
  an_message : string;
}.
Definition AnalysisReport_default : AnalysisReport :=
  {| an_status := Analysis_log_error; an_records := 0; an_file_bytes := 0;
     an_duration_seconds := None; an_producers := []; an_streams := [];
     an_utc_arrival_delta := None; an_faults := FaultStats_default; an_message := "" |}.

Record ProducerAccumulator := {
  pa_stats : ProducerStats;
  pa_previous_sequence : option Z;
}.
Definition ProducerAccumulator_default : ProducerAccumulator :=
  {| pa_stats := ProducerStats_default; pa_previous_sequence := None |}.

Record StreamAccumulator := {
  sa_stats : StreamStats;
  sa_collector_timestamps : list Z;
}.
Definition StreamAccumulator_default : StreamAccumulator :=
  {| sa_stats := StreamStats_default; sa_collector_timestamps := [] |}.

Abbreviation StreamKey := (string * string)%type.
Abbreviation SourceClockKey := (string * (string * Z))%type.

(** ** Percentiles *)

(** The order [std::sort] uses; the values are never NaN. *)
Definition dle (x y : double) : Prop := dlt y x = false.
#[export] Instance dle_dec : RelDecision dle.
Proof. intros x y. unfold dle. apply _. Defined.

Definition percentile_index (size : Z) (fraction : double) : Z :=
  let rank := dceil (dmul fraction (double_of_Z size)) in
  let index := if rank =? 0 then 0 else rank - 1 in
  Z.min index (size - 1).

(** [None] would be an access out of range. *)
Definition percentile (values : list double) (fraction : double) : option double :=
  merge_sort dle values !! Z.to_nat (percentile_index (Zlength values) fraction).

Definition fraction_50 : double := ddiv (double_of_Z 50) (double_of_Z 100).
Definition fraction_95 : double := ddiv (double_of_Z 95) (double_of_Z 100).
Definition fraction_99 : double := ddiv (double_of_Z 99) (double_of_Z 100).

(** [std::max_element] *)
Definition max_element (values : list double) : option double :=
  match values with
  | [] => None
  | v :: values' => Some (fold_left (fun largest x => if dlt largest x then x else largest) values' v)
  end.

Definition distribution (values : list double) : option DistributionStats :=
  p50 ← percentile values fraction_50;
  p95 ← percentile values fraction_95;
  p99 ← percentile values fraction_99;
  maximum ← max_element values;
  Some {| ds_samples := u64 (Zlength values); ds_p50_ms := p50; ds_p95_ms := p95;
          ds_p99_ms := p99; ds_maximum_ms := maximum |}.

Section analyzer.
Context (ld_prec ld_emax : Z).

(** ** [long double] *)

Local Abbreviation ld_of_Z := (LongDouble.ld_of_Z ld_prec ld_emax).
Local Abbreviation ld_sub := (LongDouble.ld_sub ld_prec ld_emax).
Local Abbreviation ld_mul := (LongDouble.ld_mul ld_prec ld_emax).
Local Abbreviation ld_div := (LongDouble.ld_div ld_prec ld_emax).

Definition nanoseconds_to_milliseconds (nanoseconds : spec_float) : double :=
  ld_to_double (ld_div nanoseconds (ld_of_Z 1000000)).

(** The intervals between neighbours of a list. *)
Fixpoint intervals_ms (timestamps : list Z) : list double :=
  match timestamps with
  | t :: ((t' :: _) as rest) =>
      nanoseconds_to_milliseconds (ld_sub (ld_of_Z t') (ld_of_Z t)) :: intervals_ms rest
  | _ => []
  end.

Definition set_timing (st : StreamStats) (rate p50 jitter : option double) : StreamStats :=
  {| ss_producer_id := ss_producer_id st; ss_payload := ss_payload st;
     ss_records := ss_records st; ss_observed_rate_hz := rate;
     ss_interarrival_p50_ms := p50; ss_jitter_p95_ms := jitter;
     ss_source_timestamp_regressions := ss_source_timestamp_regressions st |}.

(** [finish_stream]: the statistics with the timings; [None] would be an access
    out of range. *)
Definition finish_stream (stream : StreamAccumulator) : option StreamStats :=
  let timestamps := merge_sort Z.le (sa_collector_timestamps stream) in
  return_if (length timestamps <? 2)%nat with Some (sa_stats stream) ;;
  back ← last timestamps;
  front ← head timestamps;
  let span_ns := ld_sub (ld_of_Z back) (ld_of_Z front) in
  let rate :=
    if SFltb (S754_zero false) span_ns
    then Some (ld_to_double (ld_div (ld_mul (ld_of_Z (Zlength timestamps - 1))
           (ld_of_Z 1000000000)) span_ns))
    else ss_observed_rate_hz (sa_stats stream) in
  let intervals := intervals_ms timestamps in
  median ← percentile intervals fraction_50;
  jitter ← percentile ((fun interval => SFabs (dsub interval median)) <$> intervals) fraction_95;
  Some (set_timing (sa_stats stream) rate (Some median) (Some jitter)).

(** ** The pass over the records *)

Record analysis_state := {
  producers : list (string * ProducerAccumulator);
  streams_ : list (StreamKey * StreamAccumulator);
  previous_source_timestamps : list (SourceClockKey * Z);
  utc_arrival_delta_ms : list double;
  first_collector_timestamp : option Z;
  last_collector_timestamp : option Z;
  faults_ : FaultStats;
}.

Definition analysis_start : analysis_state :=
  {| producers := []; streams_ := []; previous_source_timestamps := [];
     utc_arrival_delta_ms := []; first_collector_timestamp := None;
     last_collector_timestamp := None; faults_ := FaultStats_default |}.

(** The update of [producers[event.producer_id()]]. *)
Definition count_producer (event : TelemetryEvent) (p : ProducerAccumulator)
    : ProducerAccumulator :=
  let st := pa_stats p in
  let seq := sequence_number event in
  let '(gaps, bad) :=
    match pa_previous_sequence p with
    | None => (ps_sequence_gaps st, ps_non_increasing_sequences st)
    | Some previous =>
        if seq <=? previous then
          (ps_sequence_gaps st, u64 (ps_non_increasing_sequences st + 1))
        else (u64 (ps_sequence_gaps st + u64 (seq - previous - 1)),
              ps_non_increasing_sequences st)
    end in
  {| pa_stats := {| ps_producer_id := producer_id event; ps_records := u64 (ps_records st + 1);
                    ps_sequence_gaps := gaps; ps_non_increasing_sequences := bad |};
     pa_previous_sequence := Some seq |}.

(** The update of [streams[stream_key]]; [regressed] is the test against the last
    source timestamp. *)
Definition count_stream (record : LogRecord) (regressed : bool) (s : StreamAccumulator)
    : StreamAccumulator :=
  let event := rec_event record in
  let st := sa_stats s in
  {| sa_stats :=
       {| ss_producer_id := producer_id event; ss_payload := payload_name (payload event);
          ss_records := u64 (ss_records st + 1);
          ss_observed_rate_hz := ss_observed_rate_hz st;
          ss_interarrival_p50_ms := ss_interarrival_p50_ms st;
          ss_jitter_p95_ms := ss_jitter_p95_ms st;
          ss_source_timestamp_regressions :=
            if regressed then u64 (ss_source_timestamp_regressions st + 1)
            else ss_source_timestamp_regressions st |};
     sa_collector_timestamps :=
       sa_collector_timestamps s ++ [rec_collector_arrival_timestamp_ns record] |}.

Definition stream_key (event : TelemetryEvent) : StreamKey :=
  (producer_id event, payload_name (payload event)).

Definition source_key (event : TelemetryEvent) : SourceClockKey :=
  (producer_id event, (payload_name (payload event), source_clock event)).

Definition count_fault (event : TelemetryEvent) (f : FaultStats) : FaultStats :=
  match payload event with
  | kFault fault =>
      return_if fault_severity fault =? SEVERITY_WARNING with
        {| fs_warnings := u64 (fs_warnings f + 1); fs_errors := fs_errors f;
           fs_critical := fs_critical f |} ;;
      return_if fault_severity fault =? SEVERITY_ERROR with
        {| fs_warnings := fs_warnings f; fs_errors := u64 (fs_errors f + 1);
           fs_critical := fs_critical f |} ;;
      return_if fault_severity fault =? SEVERITY_CRITICAL with
        {| fs_warnings := fs_warnings f; fs_errors := fs_errors f;
           fs_critical := u64 (fs_critical f + 1) |} ;;
      f
  | _ => f
  end.

(** The body of the loop. *)
Definition analyze_record (s : analysis_state) (record : LogRecord) : analysis_state :=
  let event := rec_event record in
  let arrival := rec_collector_arrival_timestamp_ns record in
  let regressed :=
    match map_find (source_key event) (previous_source_timestamps s) with
    | Some previous_source => source_timestamp_ns event <=? previous_source
    | None => false
    end in
  {| producers :=
       map_update (producer_id event) (count_producer event) ProducerAccumulator_default (producers s);
     streams_ :=
       map_update (stream_key event) (count_stream record regressed) StreamAccumulator_default
         (streams_ s);
     previous_source_timestamps :=
       map_update (source_key event) (fun _ => source_timestamp_ns event) 0
         (previous_source_timestamps s);
     utc_arrival_delta_ms :=
       if source_clock event =? CLOCK_DOMAIN_UTC
       then utc_arrival_delta_ms s ++
         [nanoseconds_to_milliseconds
            (ld_sub (ld_of_Z arrival) (ld_of_Z (source_timestamp_ns event)))]
       else utc_arrival_delta_ms s;
     first_collector_timestamp :=
       match first_collector_timestamp s with
       | None => Some arrival
       | Some first => if arrival <? first then Some arrival else Some first
       end;
     last_collector_timestamp :=
       match last_collector_timestamp s with
       | None => Some arrival
       | Some last_ => if last_ <? arrival then Some arrival else Some last_
       end;
     faults_ := count_fault event (faults_ s) |}.

Definition analyze_records (records : list LogRecord) : analysis_state :=
  fold_left analyze_record records analysis_start.

Definition report_duration (s : analysis_state) : option double :=
  first ← first_collector_timestamp s;
  last_ ← last_collector_timestamp s;
  Some (ld_to_double (ld_div (ld_sub (ld_of_Z last_) (ld_of_Z first)) (ld_of_Z 1000000000))).

(** The report of a complete log; [None] would be an access out of range. *)
Definition complete_report (log : LogReadResult) : option AnalysisReport :=
  let s := analyze_records (records log) in
  finished ← mapM finish_stream (streams_ s).*2;
  delta ←
    match utc_arrival_delta_ms s with
    | [] => Some None
    | values => Some <$> distribution values
    end;
  Some {| an_status := Analysis_complete; an_records := u64 (Zlength (records log));
          an_file_bytes := file_size log; an_duration_seconds := report_duration s;
          an_producers := pa_stats <$> (producers s).*2; an_streams := finished;
          an_utc_arrival_delta := delta; an_faults := faults_ s;
          an_message := "analysis completed" |}.

(** [analyze_log]; the outer [option] is that of the reader. *)
Definition analyze_log `{!EventCodec} (fs : filesystem) (path : string) (maximum_records : Z)
    : option AnalysisReport :=
  log ← read_log fs path {| maximum_records := maximum_records; retain_records := true |};
  return_if negb (bool_decide (status log = Log_complete)) with
    Some {| an_status := Analysis_log_error; an_records := 0; an_file_bytes := file_size log;
            an_duration_seconds := None; an_producers := []; an_streams := [];
            an_utc_arrival_delta := None; an_faults := FaultStats_default;
            an_message := "cannot analyze telemetry log: " +:+ message log |} ;;
  complete_report log.
End analyzer.

Definition analysis_status_name (st : AnalysisStatus) : string :=
  match st with Analysis_complete => "complete" | Analysis_log_error => "log_error" end.
