(* ===== verification/Analysis.v ===== *)
(** * Analysis: what the numbers of an [AnalysisReport] mean *)
From Stdlib Require Import ZArith Lia SpecFloat.
From Stdlib Require Import Strings.Byte.
From stdpp Require Import base gmap strings list sorting.
From S2P Require Import Prelude Bytes Floats Dyadic Ranks Telemetry Validation Streams LogFormat.
From S2P Require Import LongDouble LogReader Generator OrderedMap Analyzer.
Local Open Scope Z_scope.
Local Open Scope tf_scope.

(** ** Sorting doubles *)

Lemma dlt_asym x y : dlt x y = true -> dlt y x = false.
Proof.
  unfold dlt, SFltb.
  destruct x as [[]|[]| |[] mx ex], y as [[]|[]| |[] my ey]; cbn; try done.
  all: rewrite (Z.compare_antisym ex ey); destruct (Z.compare ex ey); cbn; try done.
  all: change (PosDef.Pos.compare_cont Eq mx my) with (mx ?= my)%positive;
       change (PosDef.Pos.compare_cont Eq my mx) with (my ?= mx)%positive;
       rewrite (Pos.compare_antisym mx my); by destruct (mx ?= my)%positive.
Qed.

#[export] Instance dle_total : Total dle.
Proof.
  intros x y. unfold dle. destruct (dlt y x) eqn:E; [right|by left]. by apply dlt_asym.
Qed.

Definition finite_double (x : double) : Prop := double_wf x /\ isfinite x = true.

Lemma dle_spec x y : finite_double x -> finite_double y -> dle x y <-> dval x <= dval y.
Proof. intros [Wx Fx] [Wy Fy]. unfold dle. by apply dlt_false. Qed.

Lemma sorted_dvals l : Forall finite_double l -> Sorted dle l ->
  StronglySorted Z.le (dval <$> l).
Proof.
  intros Hf Hs. apply Sorted_StronglySorted; [apply _|]. revert Hf.
  induction Hs as [|x l Hs IH Hx]; intros Hf; [constructor|].
  apply Forall_cons in Hf as [Hfx Hf]. rewrite fmap_cons. constructor; [by apply IH|].
  destruct Hx as [|y l Hxy]; cbn; constructor. apply Forall_cons in Hf as [Hfy _].
  by apply dle_spec.
Qed.

(** In a sorted list the first [i + 1] elements are at most the one at [i], and the
    others at least. *)
Lemma sorted_counts (l : list Z) (i : nat) (v : Z) : StronglySorted Z.le l -> l !! i = Some v ->
  (S i <= length (filter (fun x => (x <= v)%Z) l))%nat /\
  (length l - i <= length (filter (fun x => (v <= x)%Z) l))%nat.
Proof.
  intros Hs. revert i. induction Hs as [|x l Hs IH Hx]; intros i Hi; [done|].
  rewrite Forall_forall in Hx. destruct i as [|i]; cbn in Hi.
  - injection Hi as ->. rewrite !filter_cons_True by lia. cbn [length].
    rewrite (filter_all (fun x => v <= x) l) by done. lia.
  - destruct (IH i Hi) as [H1 H2]. rewrite filter_cons_True.
    2: { apply Hx. by eapply list_elem_of_lookup_2. }
    rewrite (filter_cons (fun x => v <= x)). cbn [length]. split; [lia|].
    case_decide; cbn [length]; lia.
Qed.

(** ** Nearest ranks *)

Definition nearest_rank (p n : Z) : Z := (p * n + 99) / 100.

Definition fraction_of (p : Z) : double := ddiv (double_of_Z p) (double_of_Z 100).

Lemma nearest_rank_range p n : 0 < p <= 100 -> 0 < n -> 1 <= nearest_rank p n <= n.
Proof.
  intros Hp Hn. unfold nearest_rank. split.
  - apply Z.div_le_lower_bound; nia.
  - apply Z.lt_succ_r, Z.div_lt_upper_bound; nia.
Qed.

Lemma percentile_rank p n : p ∈ [50; 95; 99] -> 0 < n < 2 ^ 31 ->
  percentile_index n (fraction_of p) = nearest_rank p n - 1.
Proof.
  intros Hp Hn.
  assert (Hrank : dceil (dmul (fraction_of p) (double_of_Z n)) = nearest_rank p n).
  { unfold nearest_rank. replace (p * n + 99) with (p * n + 100 - 1) by lia.
    rewrite !elem_of_cons, elem_of_nil in Hp. destruct Hp as [->|[->|[->|[]]]].
    - change (fraction_of 50) with (S754_finite false 4503599627370496 (-53)).
      apply rank_exact; lia.
    - change (fraction_of 95) with (S754_finite false 8556839292003942 (-53)).
      apply rank_exact; lia.
    - change (fraction_of 99) with (S754_finite false 8917127262193582 (-53)).
      apply rank_exact; lia. }
  assert (Hpr : 0 < p <= 100) by (rewrite !elem_of_cons, elem_of_nil in Hp; lia).
  pose proof (nearest_rank_range p n Hpr ltac:(lia)).
  unfold percentile_index. rewrite Hrank.
  destruct (Z.eqb_spec (nearest_rank p n) 0); lia.
Qed.

Lemma percentile_some p (values : list double) :
  p ∈ [50; 95; 99] -> 0 < Zlength values < 2 ^ 31 ->
  exists v, percentile values (fraction_of p) = Some v /\
    merge_sort dle values !! Z.to_nat (nearest_rank p (Zlength values) - 1) = Some v /\
    v ∈ values.
Proof.
  intros Hp Hn. unfold percentile. rewrite percentile_rank by done.
  assert (Hpr : 0 < p <= 100) by (rewrite !elem_of_cons, elem_of_nil in Hp; lia).
  pose proof (nearest_rank_range p (Zlength values) Hpr ltac:(lia)) as Hr.
  destruct (lookup_lt_is_Some_2 (merge_sort dle values)
    (Z.to_nat (nearest_rank p (Zlength values) - 1))) as [v Hv].
  { rewrite (Permutation_length (merge_sort_Permutation dle values)). lia. }
  exists v. split; [done|]. split; [done|].
  rewrite <- (merge_sort_Permutation dle values). by eapply list_elem_of_lookup_2.
Qed.

(** ** The report is always computed *)

Lemma intervals_length ld_prec ld_emax ts :
  length (intervals_ms ld_prec ld_emax ts) = (length ts - 1)%nat.
Proof.
  induction ts as [|t [|t' ts] IH]; [done|done|]. cbn [intervals_ms length] in *. lia.
Qed.

Section totality.
Context (ld_prec ld_emax : Z).

Lemma finish_stream_some s : Zlength (sa_collector_timestamps s) < 2 ^ 31 ->
  exists st, finish_stream ld_prec ld_emax s = Some st /\
    ss_producer_id st = ss_producer_id (sa_stats s) /\ ss_payload st = ss_payload (sa_stats s) /\
    ss_records st = ss_records (sa_stats s) /\
    ss_source_timestamp_regressions st = ss_source_timestamp_regressions (sa_stats s).
Proof.
  intros Hlen. unfold finish_stream.
  rewrite <- (Permutation_length (merge_sort_Permutation Z.le (sa_collector_timestamps s))) in Hlen.
  set (ts := merge_sort Z.le (sa_collector_timestamps s)) in *.
  destruct (Nat.ltb_spec (length ts) 2) as [|Hge]; [by eexists|].
  assert (Hlast : exists back, last ts = Some back).
  { destruct (last ts) eqn:El; [by eexists|]. apply last_None in El. rewrite El in Hge. cbn in Hge. lia. }
  destruct Hlast as [back ->]. destruct ts as [|front ts']; [cbn in Hge; lia|]. cbn [head].
  set (ivs := intervals_ms _ _ (front :: ts')).
  assert (Hiv : length ivs = length ts') by (unfold ivs; rewrite intervals_length; cbn; lia).
  cbn [length] in *.
  destruct (percentile_some 50 ivs) as (median & Hm & _); [by left|lia|].
  change fraction_50 with (fraction_of 50). cbn [mbind option_bind]. fold ivs. rewrite Hm.
  cbn [mbind option_bind].
  destruct (percentile_some 95 ((fun interval => SFabs (dsub interval median)) <$> ivs))
    as (jitter & Hj & _); [right; by left|rewrite length_fmap; lia|].
  change fraction_95 with (fraction_of 95). rewrite Hj. cbn [mbind option_bind]. eexists. by split_and!.
Qed.

Lemma distribution_some values : 0 < Zlength values < 2 ^ 31 ->
  exists d, distribution values = Some d /\ ds_samples d = Zlength values.
Proof.
  intros Hn. unfold distribution.
  destruct (percentile_some 50 values) as (p50 & H50 & _); [by left|done|].
  destruct (percentile_some 95 values) as (p95 & H95 & _); [right; by left|done|].
  destruct (percentile_some 99 values) as (p99 & H99 & _); [right; right; by left|done|].
  change fraction_50 with (fraction_of 50). change fraction_95 with (fraction_of 95).
  change fraction_99 with (fraction_of 99). rewrite H50, H95, H99.
  cbn [mbind option_bind].
  destruct values as [|v values]; [cbn in Hn; lia|]. cbn [max_element]. eexists.
  split; [reflexivity|]. cbn [ds_samples]. apply u64_small. unfold in_u64. lia.
Qed.
End totality.

(** ** Reference: sequence numbers *)

(** Neighbours in a list. *)
Definition neighbours (l : list Z) : list (Z * Z) := zip l (tail l).

(** The numbers missing between increasing neighbours, and the neighbours that do
    not increase. *)
Definition missing_between (seqs : list Z) : Z :=
  foldr Z.add 0 ((fun p => p.2 - p.1 - 1) <$> filter (fun p : Z * Z => p.1 < p.2) (neighbours seqs)).
Definition not_increasing (seqs : list Z) : Z :=
  Zlength (filter (fun p : Z * Z => p.2 <= p.1) (neighbours seqs)).

Lemma neighbours_snoc l x :
  neighbours (l ++ [x]) = neighbours l ++ match last l with Some y => [(y, x)] | None => [] end.
Proof.
  unfold neighbours. induction l as [|y l IH]; [done|].
  destruct l as [|z l]; [done|]. cbn [app tail zip_with] in *. rewrite IH. done.
Qed.

Lemma sum_snoc (l : list Z) x : foldr Z.add 0 (l ++ [x]) = foldr Z.add 0 l + x.
Proof. induction l; cbn; lia. Qed.

(** Which neighbours a new last number adds. *)
Lemma sequences_snoc seqs prev x : last seqs = Some prev ->
  missing_between (seqs ++ [x]) =
    missing_between seqs + (if x <=? prev then 0 else x - prev - 1) /\
  not_increasing (seqs ++ [x]) = not_increasing seqs + (if x <=? prev then 1 else 0).
Proof.
  intros Hl. unfold missing_between, not_increasing. rewrite neighbours_snoc, Hl, !filter_app.
  rewrite (filter_cons (fun p : Z * Z => p.1 < p.2)), (filter_cons (fun p : Z * Z => p.2 <= p.1)).
  cbn [fst snd]. destruct (Z.leb_spec x prev).
  - rewrite decide_False, decide_True by lia. rewrite app_nil_r, length_app. cbn. lia.
  - rewrite decide_True, decide_False by lia. rewrite fmap_app, app_nil_r. cbn [fmap list_fmap].
    rewrite sum_snoc. cbn. lia.
Qed.

Lemma u64_add_r a b : u64 (a + u64 b) = u64 (a + b).
Proof. by rewrite Z.add_comm, u64_add_l, Z.add_comm. Qed.

(** The statistics of a producer from its own events. *)
Lemma count_producer_fold (own : list TelemetryEvent) (k : string) :
  own <> [] -> Forall (fun ev => producer_id ev = k) own ->
  let acc := fold_left (fun v x => count_producer x v) own ProducerAccumulator_default in
  pa_previous_sequence acc = last (sequence_number <$> own) /\
  ps_producer_id (pa_stats acc) = k /\
  ps_records (pa_stats acc) = u64 (Zlength own) /\
  ps_sequence_gaps (pa_stats acc) = u64 (missing_between (sequence_number <$> own)) /\
  ps_non_increasing_sequences (pa_stats acc) = u64 (not_increasing (sequence_number <$> own)).
Proof.
  induction own as [|ev own IH] using rev_ind; [done|]. intros _ Hall.
  apply Forall_app in Hall as [Hall Hev]. apply Forall_cons in Hev as [Hev _].
  rewrite fold_left_app, fmap_app. cbn [fold_left fmap list_fmap].
  rewrite last_snoc, length_app.
  destruct (decide (own = [])) as [->|Hne].
  { cbn. rewrite Hev. by split_and!. }
  destruct (IH Hne Hall) as (Hp & _ & Hr & Hg & Hn).
  set (acc := fold_left _ own _) in *. clearbody acc.
  destruct (last (sequence_number <$> own)) as [prev|] eqn:El.
  2: { apply last_None, fmap_nil_inv in El. done. }
  destruct (sequences_snoc _ _ (sequence_number ev) El) as [Hm Hni].
  rewrite Hm, Hni. unfold count_producer. rewrite Hp, Hr, Hg, Hn.
  replace (Z.of_nat (length own + length [ev])) with (Zlength own + 1) by (cbn; lia).
  destruct (sequence_number ev <=? prev); cbn [pa_stats pa_previous_sequence ps_producer_id
    ps_records ps_sequence_gaps ps_non_increasing_sequences];
    rewrite ?u64_add_l, ?u64_add_r, ?u64_add_l, ?Z.add_0_r; by split_and!.
Qed.

(** ** Reference: source timestamps *)

Definition rec_source_key (r : LogRecord) : SourceClockKey := source_key (rec_event r).

(** A record goes back in time: the record before it with the same producer,
    payload kind and clock is not earlier. *)
Definition regresses (earlier : list LogRecord) (r : LogRecord) : bool :=
  match last (of_key rec_source_key (rec_source_key r) earlier) with
  | Some previous =>
      source_timestamp_ns (rec_event r) <=? source_timestamp_ns (rec_event previous)
  | None => false
  end.

(** The records with these flags. *)
Fixpoint annotate (earlier l : list LogRecord) : list (LogRecord * bool) :=
  match l with
  | [] => []
  | r :: l' => (r, regresses earlier r) :: annotate (earlier ++ [r]) l'
  end.

Lemma annotate_app earlier l r :
  annotate earlier (l ++ [r]) = annotate earlier l ++ [(r, regresses (earlier ++ l) r)].
Proof.
  revert earlier. induction l as [|x l IH]; intros earlier; cbn [annotate app].
  - by rewrite app_nil_r.
  - by rewrite IH, <- app_assoc.
Qed.

Lemma annotate_fst earlier l : (annotate earlier l).*1 = l.
Proof.
  revert earlier. induction l as [|x l IH]; intros earlier; [done|].
  cbn [annotate]. by rewrite fmap_cons, IH.
Qed.

Definition annotated_key (x : LogRecord * bool) : StreamKey := stream_key (rec_event x.1).

(** The statistics of a stream from its own records. *)
Lemma count_stream_fold (own : list (LogRecord * bool)) (k : StreamKey) :
  own <> [] -> Forall (fun x => annotated_key x = k) own ->
  let acc := fold_left (fun v x => count_stream x.1 x.2 v) own StreamAccumulator_default in
  ss_producer_id (sa_stats acc) = k.1 /\ ss_payload (sa_stats acc) = k.2 /\
  ss_records (sa_stats acc) = u64 (Zlength own) /\
  ss_source_timestamp_regressions (sa_stats acc) =
    u64 (Zlength (filter (fun x : LogRecord * bool => x.2 = true) own)) /\
  sa_collector_timestamps acc = rec_collector_arrival_timestamp_ns <$> own.*1.
Proof.
  induction own as [|x own IH] using rev_ind; [done|]. intros _ Hall.
  apply Forall_app in Hall as [Hall Hx]. apply Forall_cons in Hx as [<- _].
  rewrite fold_left_app, length_app, filter_app, !fmap_app. cbn [fold_left].
  assert (Hacc : let acc := fold_left (fun v x => count_stream x.1 x.2 v) own
      StreamAccumulator_default in
    ss_records (sa_stats acc) = u64 (Zlength own) /\
    ss_source_timestamp_regressions (sa_stats acc) =
      u64 (Zlength (filter (fun x : LogRecord * bool => x.2 = true) own)) /\
    sa_collector_timestamps acc = rec_collector_arrival_timestamp_ns <$> own.*1).
  { destruct (decide (own = [])) as [->|Hne]; [done|]. by apply IH. }
  set (acc := fold_left _ own _) in *. clearbody acc. cbv zeta in Hacc.
  destruct Hacc as (Hr & Hg & Ht). rewrite filter_cons. destruct x as [r flag].
  cbn [fst snd count_stream sa_stats sa_collector_timestamps ss_producer_id ss_payload ss_records
    ss_source_timestamp_regressions annotated_key stream_key].
  rewrite Hr, Hg, Ht, length_app. split_and!; try done.
  - rewrite u64_add_l. f_equal. cbn. lia.
  - destruct flag; [rewrite decide_True by done|rewrite decide_False by done].
    + rewrite u64_add_l. f_equal. cbn. lia.
    + f_equal. cbn. lia.
Qed.

(** ** The pass, map by map *)

Definition rec_producer (r : LogRecord) : string := producer_id (rec_event r).

Definition severity_of (ev : TelemetryEvent) : option Z :=
  match payload ev with kFault fault => Some (fault_severity fault) | _ => None end.

(** The fault events of a severity. *)
Definition count_severity (severity : Z) (l : list LogRecord) : Z :=
  Zlength (filter (fun r => severity_of (rec_event r) = Some severity) l).

Lemma count_severity_snoc severity l r :
  count_severity severity (l ++ [r]) =
    count_severity severity l +
    if decide (severity_of (rec_event r) = Some severity) then 1 else 0.
Proof.
  unfold count_severity. rewrite filter_app, length_app, filter_cons. case_decide; cbn; lia.
Qed.

(** The latest entry of a key. *)
Lemma fold_latest {A} (f : A -> Z) (own : list A) d :
  fold_left (fun _ x => f x) own d = match last own with Some x => f x | None => d end.
Proof.
  induction own as [|x own IH] using rev_ind; [done|]. by rewrite fold_left_app, last_snoc.
Qed.

Lemma group_by_snoc {K V A} `{!KeyOrder K} (key : A -> K) (step : A -> V -> V) d l x m :
  group_by key step d (l ++ [x]) m = map_update (key x) (step x) d (group_by key step d l m).
Proof. unfold group_by. by rewrite fold_left_app. Qed.

Section pass.
Context (ld_prec ld_emax : Z).

(** The delta of a record with a UTC source clock. *)
Definition utc_delta (r : LogRecord) : double :=
  nanoseconds_to_milliseconds ld_prec ld_emax
    (ld_sub ld_prec ld_emax (ld_of_Z ld_prec ld_emax (rec_collector_arrival_timestamp_ns r))
       (ld_of_Z ld_prec ld_emax (source_timestamp_ns (rec_event r)))).

Definition utc_records (l : list LogRecord) : list LogRecord :=
  filter (fun r => source_clock (rec_event r) = CLOCK_DOMAIN_UTC) l.

Record pass_spec (l : list LogRecord) (s : analysis_state) : Prop := {
  ap_producers : producers s =
    group_by rec_producer (fun r => count_producer (rec_event r)) ProducerAccumulator_default l [];
  ap_streams : streams_ s =
    group_by annotated_key (fun x => count_stream x.1 x.2) StreamAccumulator_default
      (annotate [] l) [];
  ap_previous : previous_source_timestamps s =
    group_by rec_source_key (fun r _ => source_timestamp_ns (rec_event r)) 0 l [];
  ap_utc : utc_arrival_delta_ms s = utc_delta <$> utc_records l;
  ap_faults : faults_ s =
    {| fs_warnings := u64 (count_severity SEVERITY_WARNING l);
       fs_errors := u64 (count_severity SEVERITY_ERROR l);
       fs_critical := u64 (count_severity SEVERITY_CRITICAL l) |};
  ap_empty : l = [] -> first_collector_timestamp s = None /\ last_collector_timestamp s = None;
  ap_span : l <> [] -> exists lo hi, first_collector_timestamp s = Some lo /\
    last_collector_timestamp s = Some hi /\
    lo ∈ rec_collector_arrival_timestamp_ns <$> l /\
    hi ∈ rec_collector_arrival_timestamp_ns <$> l /\
    Forall (fun t => lo <= t <= hi) (rec_collector_arrival_timestamp_ns <$> l);
}.

Lemma count_fault_snoc l r f :
  f = {| fs_warnings := u64 (count_severity SEVERITY_WARNING l);
         fs_errors := u64 (count_severity SEVERITY_ERROR l);
         fs_critical := u64 (count_severity SEVERITY_CRITICAL l) |} ->
  count_fault (rec_event r) f =
    {| fs_warnings := u64 (count_severity SEVERITY_WARNING (l ++ [r]));
       fs_errors := u64 (count_severity SEVERITY_ERROR (l ++ [r]));
       fs_critical := u64 (count_severity SEVERITY_CRITICAL (l ++ [r])) |}.
Proof.
  intros ->. rewrite !count_severity_snoc. unfold count_fault, severity_of.
  unfold SEVERITY_WARNING, SEVERITY_ERROR, SEVERITY_CRITICAL.
  cbn [fs_warnings fs_errors fs_critical].
  destruct (payload (rec_event r)) as [|v|v|g|t|c|st|fault];
    try (rewrite !decide_False, !Z.add_0_r by done; done).
  destruct (Z.eqb_spec (fault_severity fault) 1) as [E1|H1].
  { rewrite E1, decide_True, !decide_False, u64_add_l, !Z.add_0_r by done. done. }
  destruct (Z.eqb_spec (fault_severity fault) 2) as [E2|H2].
  { rewrite E2, (decide_True (P := Some 2 = Some 2)), !decide_False, u64_add_l, !Z.add_0_r by done.
    done. }
  destruct (Z.eqb_spec (fault_severity fault) 3) as [E3|H3].
  { rewrite E3, (decide_True (P := Some 3 = Some 3)), !decide_False, u64_add_l, !Z.add_0_r by done.
    done. }
  rewrite !decide_False, !Z.add_0_r by congruence. done.
Qed.

Lemma pass_exact l : pass_spec l (analyze_records ld_prec ld_emax l).
Proof.
  unfold analyze_records. induction l as [|r l IH] using rev_ind.
  { split; try done. }
  rewrite fold_left_app. cbn [fold_left]. set (s := fold_left _ l _) in *. clearbody s.
  destruct IH as [Hp Hs Hprev Hu Hf He Hspan]. unfold analyze_record.
  assert (Hreg : match map_find (source_key (rec_event r)) (previous_source_timestamps s) with
    | Some previous_source => source_timestamp_ns (rec_event r) <=? previous_source
    | None => false end = regresses l r).
  { rewrite Hprev, group_by_find by constructor. unfold regresses.
    change (source_key (rec_event r)) with (rec_source_key r).
    destruct (of_key rec_source_key (rec_source_key r) l) as [|x own]; [done|].
    rewrite (fold_latest (fun x => source_timestamp_ns (rec_event x))).
    destruct (last (x :: own)) eqn:El; [done|]. by apply last_None in El. }
  split; cbn [producers streams_ previous_source_timestamps utc_arrival_delta_ms
    first_collector_timestamp last_collector_timestamp faults_].
  - by rewrite group_by_snoc, <- Hp.
  - by rewrite annotate_app, group_by_snoc, app_nil_l, <- Hs, <- Hreg.
  - by rewrite group_by_snoc, <- Hprev.
  - unfold utc_records. rewrite filter_app, fmap_app, Hu, filter_cons.
    destruct (Z.eqb_spec (source_clock (rec_event r)) CLOCK_DOMAIN_UTC).
    + by rewrite decide_True.
    + rewrite decide_False by done. by rewrite app_nil_r.
  - by apply count_fault_snoc.
  - intros [_ H]%app_nil. discriminate H.
  - intros _. rewrite fmap_app. cbn [fmap list_fmap].
    set (t := rec_collector_arrival_timestamp_ns r).
    destruct (decide (l = [])) as [->|Hne].
    { destruct (He eq_refl) as [-> ->]. exists t, t. cbn. split_and!; try done; try by left.
      constructor; [lia|done]. }
    destruct (Hspan Hne) as (lo & hi & -> & -> & Hlo & Hhi & Hall).
    exists (Z.min lo t), (Z.max hi t). split_and!.
    + destruct (Z.ltb_spec t lo); f_equal; lia.
    + destruct (Z.ltb_spec hi t); f_equal; lia.
    + rewrite elem_of_app, list_elem_of_singleton.
      destruct (Z.min_spec lo t) as [[_ ->]|[_ ->]]; auto.
    + rewrite elem_of_app, list_elem_of_singleton.
      destruct (Z.max_spec hi t) as [[_ ->]|[_ ->]]; auto.
    + apply Forall_app. split; [|constructor; [lia|done]].
      eapply Forall_impl; [exact Hall|]. intros x Hx. cbv beta in Hx. lia.
Qed.
End pass.

(** ** The report *)

Section report.
Context (ld_prec ld_emax : Z).

Lemma annotate_length earlier l : length (annotate earlier l) = length l.
Proof. rewrite <- (annotate_fst earlier l) at 2. by rewrite length_fmap. Qed.

(** A stream's entry, with the timestamps its timings are computed from. *)
Lemma stream_entry l k acc : (k, acc) ∈ group_by annotated_key
    (fun x => count_stream x.1 x.2) StreamAccumulator_default (annotate [] l) [] ->
  let own := of_key annotated_key k (annotate [] l) in
  own <> [] /\
  ss_producer_id (sa_stats acc) = k.1 /\ ss_payload (sa_stats acc) = k.2 /\
  ss_records (sa_stats acc) = u64 (Zlength own) /\
  ss_source_timestamp_regressions (sa_stats acc) =
    u64 (Zlength (filter (fun x : LogRecord * bool => x.2 = true) own)) /\
  sa_collector_timestamps acc = rec_collector_arrival_timestamp_ns <$> own.*1 /\
  (length own <= length l)%nat.
Proof.
  intros [Hne ->]%group_by_elem own. split; [done|].
  assert (Hall : Forall (fun x => annotated_key x = k) own)
    by (apply Forall_forall; by intros x [? _]%list_elem_of_filter).
  destruct (count_stream_fold own k Hne Hall) as (H1 & H2 & H3 & H4 & H5).
  split_and!; try done. unfold own, of_key.
  rewrite <- (annotate_length [] l). apply length_filter.
Qed.

Lemma complete_report_some log : Zlength (records log) < 2 ^ 31 ->
  exists finished delta,
    Forall2 (fun x st => finish_stream ld_prec ld_emax x = Some st)
      (streams_ (analyze_records ld_prec ld_emax (records log))).*2 finished /\
    (match delta with Some d => ds_samples d | None => 0 end =
       Zlength (utc_records (records log))) /\
    complete_report ld_prec ld_emax log =
      let s := analyze_records ld_prec ld_emax (records log) in
      Some {| an_status := Analysis_complete; an_records := Zlength (records log);
              an_file_bytes := file_size log;
              an_duration_seconds := report_duration ld_prec ld_emax s;
              an_producers := pa_stats <$> (producers s).*2; an_streams := finished;
              an_utc_arrival_delta := delta; an_faults := faults_ s;
              an_message := "analysis completed" |}.
Proof.
  intros Hlen. destruct (pass_exact ld_prec ld_emax (records log)) as [Hp Hs Hprev Hu Hf He Hspan].
  unfold complete_report. set (s := analyze_records _ _ _) in *. clearbody s.
  assert (Hfin : is_Some (mapM (finish_stream ld_prec ld_emax) (streams_ s).*2)).
  { apply mapM_is_Some, Forall_fmap, Forall_forall. intros [k acc] Hin. cbn.
    rewrite Hs in Hin. destruct (stream_entry _ _ _ Hin) as (_ & _ & _ & _ & _ & Ht & Hle).
    destruct (finish_stream_some ld_prec ld_emax acc) as (st & Hst & _); [|by eexists].
    rewrite Ht, !length_fmap. lia. }
  destruct Hfin as [finished Hfin].
  assert (Hdelta : exists delta,
    match utc_arrival_delta_ms s with [] => Some None | values => Some <$> distribution values end =
      Some delta /\ match delta with Some d => ds_samples d | None => 0 end =
        Zlength (utc_records (records log))).
  { rewrite Hu. pose proof (length_filter
      (fun r => source_clock (rec_event r) = CLOCK_DOMAIN_UTC) (records log)) as Hle.
    destruct (utc_records (records log)) as [|r rs] eqn:Er; [by exists None|].
    assert (Hz : Zlength (utc_records (records log)) < 2 ^ 31) by (unfold utc_records; lia).
    rewrite Er in Hz.
    destruct (distribution_some (utc_delta ld_prec ld_emax <$> r :: rs)) as (d & Hd & Hn).
    { rewrite length_fmap. cbn in *. lia. }
    exists (Some d). rewrite fmap_cons in *. rewrite Hd. split; [done|].
    rewrite Hn. cbn. by rewrite length_fmap. }
  destruct Hdelta as (delta & Hd & Hsamples).
  exists finished, delta. split; [by apply mapM_Some|]. split; [done|].
  rewrite Hfin. cbn [mbind option_bind]. rewrite Hd. cbn [mbind option_bind].
  by rewrite u64_small by (unfold in_u64; lia).
Qed.

(** The producers of a report, from the records. *)
Lemma report_producers l p :
  p ∈ pa_stats <$> (producers (analyze_records ld_prec ld_emax l)).*2 ->
  let own := of_key rec_producer (ps_producer_id p) l in
  let seqs := (fun r => sequence_number (rec_event r)) <$> own in
  own <> [] /\ ps_records p = u64 (Zlength own) /\
  ps_sequence_gaps p = u64 (missing_between seqs) /\
  ps_non_increasing_sequences p = u64 (not_increasing seqs).
Proof.
  destruct (pass_exact ld_prec ld_emax l) as [-> _ _ _ _ _ _].
  intros (acc & -> & ([k acc'] & -> & [Hne Hacc]%group_by_elem)%list_elem_of_fmap)%list_elem_of_fmap.
  cbn [snd]. subst acc'.
  set (own := of_key rec_producer k l) in *.
  assert (Hfold : fold_left (fun v x => count_producer (rec_event x) v) own
      ProducerAccumulator_default =
    fold_left (fun v x => count_producer x v) (rec_event <$> own) ProducerAccumulator_default).
  { clear Hne. generalize ProducerAccumulator_default. induction own as [|x own' IH]; [done|].
    intros v. rewrite fmap_cons. cbn [fold_left]. apply IH. }
  rewrite Hfold.
  destruct (count_producer_fold (rec_event <$> own) k) as (_ & Hid & Hr & Hg & Hn).
  { by intros ?%fmap_nil_inv. }
  { apply Forall_fmap, Forall_forall. by intros x [? _]%list_elem_of_filter. }
  rewrite Hid. fold own. rewrite Hr, Hg, Hn, length_fmap, <- list_fmap_compose. done.
Qed.

Lemma producer_names l :
  ps_producer_id <$> (pa_stats <$> (producers (analyze_records ld_prec ld_emax l)).*2) =
  (producers (analyze_records ld_prec ld_emax l)).*1.
Proof.
  destruct (pass_exact ld_prec ld_emax l) as [-> _ _ _ _ _ _].
  set (m := group_by _ _ _ _ _).
  assert (Hm : Forall (fun e => ps_producer_id (pa_stats e.2) = e.1) m).
  { apply Forall_forall. intros [k acc] [Hne ->]%group_by_elem. cbn [fst snd].
    set (own := of_key rec_producer k l) in *.
    assert (Hall : Forall (fun x => rec_producer x = k) own)
      by (apply Forall_forall; by intros x [? _]%list_elem_of_filter).
    clearbody own. induction own as [|x own _] using rev_ind; [done|].
    rewrite fold_left_app. cbn. unfold count_producer.
    apply Forall_app in Hall as [_ [Hx _]%Forall_cons].
    by destruct (pa_previous_sequence _); [destruct (_ <=? _)|]. }
  clearbody m. induction Hm as [|[k acc] m Hk Hm IH]; [done|]. rewrite !fmap_cons, IH. cbn in *.
  by rewrite Hk.
Qed.

Lemma stream_names l finished :
  Forall2 (fun x st => finish_stream ld_prec ld_emax x = Some st)
    (streams_ (analyze_records ld_prec ld_emax l)).*2 finished ->
  Zlength l < 2 ^ 31 ->
  (fun st => (ss_producer_id st, ss_payload st)) <$> finished =
    (streams_ (analyze_records ld_prec ld_emax l)).*1 /\
  forall st, st ∈ finished ->
  let own := of_key annotated_key (ss_producer_id st, ss_payload st) (annotate [] l) in
  own <> [] /\ ss_records st = u64 (Zlength own) /\
  ss_source_timestamp_regressions st =
    u64 (Zlength (filter (fun x : LogRecord * bool => x.2 = true) own)).
Proof.
  intros Hfin Hlen. destruct (pass_exact ld_prec ld_emax l) as [_ Hs _ _ _ _ _].
  rewrite Hs in *. clear Hs.
  assert (Hm : forall e, e ∈ group_by annotated_key (fun x => count_stream x.1 x.2)
      StreamAccumulator_default (annotate [] l) [] -> forall st,
      finish_stream ld_prec ld_emax e.2 = Some st ->
      (ss_producer_id st, ss_payload st) = e.1 /\
      let own := of_key annotated_key e.1 (annotate [] l) in
      own <> [] /\ ss_records st = u64 (Zlength own) /\
      ss_source_timestamp_regressions st =
        u64 (Zlength (filter (fun x : LogRecord * bool => x.2 = true) own))).
  { intros [k acc] Hin st Hst. destruct (stream_entry _ _ _ Hin) as (Hne & H1 & H2 & H3 & H4 & Ht & Hle).
    destruct (finish_stream_some ld_prec ld_emax acc) as (st' & Hst' & E1 & E2 & E3 & E4).
    { rewrite Ht, !length_fmap. lia. }
    cbn [snd fst] in *. rewrite Hst' in Hst. injection Hst as ->.
    rewrite E1, E2, E3, E4, H1, H2. split; [by destruct k|done]. }
  set (m := group_by _ _ _ _ _) in *. clearbody m. revert finished Hfin.
  induction m as [|e m IH]; intros finished Hfin; rewrite fmap_cons in Hfin || cbn in Hfin.
  { apply Forall2_nil_inv_l in Hfin as ->. split; [done|]. by intros st []%elem_of_nil. }
  apply Forall2_cons_inv_l in Hfin as (st & finished' & Hst & Hfin & ->).
  destruct (IH (fun e' He' => Hm e' (list_elem_of_further _ _ _ He')) finished' Hfin) as [IH1 IH2].
  destruct (Hm e (list_elem_of_here _ _) st Hst) as [Hk Hown].
  split; [by rewrite !fmap_cons, IH1, Hk|].
  intros st' [->|Hin]%elem_of_cons; [by rewrite Hk|by apply IH2].
Qed.
End report.

(** ** Increasing sequence numbers *)

Lemma neighbours_cons x y l : neighbours (x :: y :: l) = (x, y) :: neighbours (y :: l).
Proof. done. Qed.

Lemma increasing_gaps (seqs : list Z) x lst : StronglySorted Z.lt (x :: seqs) ->
  last (x :: seqs) = Some lst ->
  not_increasing (x :: seqs) = 0 /\
  missing_between (x :: seqs) = lst - x + 1 - Zlength (x :: seqs).
Proof.
  revert x. induction seqs as [|y seqs IH]; intros x Hs Hl.
  - injection Hl as ->. unfold missing_between, not_increasing. cbn. lia.
  - apply StronglySorted_inv in Hs as [Hs [Hxy _]%Forall_cons].
    destruct (IH y Hs Hl) as [IH1 IH2]. unfold not_increasing, missing_between in *.
    rewrite neighbours_cons.
    rewrite (filter_cons_False (fun p : Z * Z => p.2 <= p.1)) by (cbn; lia).
    rewrite (filter_cons_True (fun p : Z * Z => p.1 < p.2)) by (cbn; lia).
    split; [exact IH1|]. rewrite fmap_cons. cbn [foldr fst snd]. rewrite IH2. cbn [length]. lia.
Qed.

(** A stream the validator accepts entirely has the gaps of its summary. *)
Lemma accepted_stream_gaps evs st : evs <> [] -> Forall event_wf evs ->
  Zlength evs < 2 ^ 64 -> accept_stream StreamValidator_init evs = (evs, st) ->
  accepted_events_ st = Zlength evs /\
  not_increasing (sequence_number <$> evs) = 0 /\
  missing_between (sequence_number <$> evs) = sequence_gaps_ st /\ in_u64 (sequence_gaps_ st).
Proof.
  intros Hne Hwf Hlen Hacc.
  destruct (accept_stream_inv evs _ [] evs st stream_inv_init Hwf Hlen Hacc) as [Hst Hc _ Hinv].
  rewrite app_nil_l in *. destruct (Hinv Hne) as [_ _ Hf Hl Hs _ _ Hg _].
  destruct evs as [|ev evs]; [done|]. rewrite fmap_cons in *. cbn [head] in Hf. injection Hf as Hf.
  destruct (increasing_gaps _ _ _ Hs Hl) as [H1 H2].
  split; [done|]. split; [done|]. split; [|apply Hst].
  rewrite H2, Hg, Hf. cbn [length]. rewrite length_fmap. lia.
Qed.

Lemma not_increasing_small seqs : not_increasing seqs <= Zlength seqs.
Proof.
  unfold not_increasing, neighbours.
  pose proof (length_filter (fun p : Z * Z => p.2 <= p.1) (zip seqs (tail seqs))) as Hle.
  rewrite length_zip_with in Hle. lia.
Qed.

(** ** Samples *)

Definition sample_record (i : Z) (p : string) (seq ts arrival_ : Z) : LogRecord :=
  {| rec_record_index := i; rec_file_offset := 0;
     rec_collector_arrival_timestamp_ns := arrival_; rec_event := sample_event p seq ts |}.

(** The watch repeats a number and goes back in time; the phone skips two. *)
Definition sample_records : list LogRecord :=
  [sample_record 0 "watch" 5 100 1000; sample_record 1 "phone" 1 50 4000;
   sample_record 2 "watch" 5 90 2000; sample_record 3 "phone" 4 60 5000].

Definition sample_result : LogReadResult :=
  {| status := Log_complete; created_unix_ns := 0; file_size := 500; valid_bytes := 500;
     error_offset := 0; message := ""; index := []; records := sample_records |}.

(** ** Properties *)

(** C34: the producer statistics of a report are those of the documented contract.
    There is one entry per producer of the log, in the order of the names; it
    counts that producer's records, the sequence numbers missing between its
    neighbouring numbers that increase, and the neighbours that do not - all in
    append order, the records of other producers left out. *)
Theorem producer_statistics_exact (ld_prec ld_emax : Z) (log : LogReadResult)
    (Hlen : Zlength (records log) < 2 ^ 31) :
  exists report, complete_report ld_prec ld_emax log = Some report /\
    an_status report = Analysis_complete /\ an_records report = Zlength (records log) /\
    StronglySorted key_lt (ps_producer_id <$> an_producers report) /\
    (forall k, k ∈ ps_producer_id <$> an_producers report <->
       exists r, r ∈ records log /\ rec_producer r = k) /\
    forall p, p ∈ an_producers report ->
    let own := filter (fun r => rec_producer r = ps_producer_id p) (records log) in
    let seqs := (fun r => sequence_number (rec_event r)) <$> own in
    ps_records p = Zlength own /\
    ps_sequence_gaps p = u64 (missing_between seqs) /\
    ps_non_increasing_sequences p = not_increasing seqs.
Proof.
  destruct (complete_report_some ld_prec ld_emax log Hlen) as (fin & delta & _ & _ & Hrep).
  eexists. split; [exact Hrep|]. cbn [an_status an_records an_producers].
  split; [done|]. split; [done|]. rewrite producer_names.
  destruct (pass_exact ld_prec ld_emax (records log)) as [Hp _ _ _ _ _ _].
  split; [rewrite Hp; by apply group_by_wf; constructor|].
  split; [intros k; rewrite Hp; apply group_by_keys|].
  intros p Hin. set (own := filter _ (records log)).
  set (seqs := (fun r => sequence_number (rec_event r)) <$> own).
  destruct (report_producers ld_prec ld_emax (records log) p Hin) as (_ & Hr & Hg & Hn).
  unfold of_key in Hr, Hg, Hn. fold own in Hr, Hg, Hn. fold seqs in Hg, Hn.
  pose proof (length_filter (fun r => rec_producer r = ps_producer_id p) (records log)) as Hle.
  pose proof (not_increasing_small seqs) as Hni.
  assert (Hz : Zlength seqs = Zlength own) by (unfold seqs; by rewrite length_fmap).
  fold own in Hle. rewrite Hr, Hg, Hn, (u64_small (Zlength own)), (u64_small (not_increasing seqs));
    [done|unfold in_u64, not_increasing in *; lia|unfold in_u64; lia].
Qed.

Lemma producer_statistics_exact_witness :
  exists report, complete_report 64 16384 sample_result = Some report /\
    an_records report = 4 /\ ps_producer_id <$> an_producers report = ["phone"; "watch"]%string.
Proof.
  destruct (producer_statistics_exact 64 16384 sample_result ltac:(by vm_compute))
    as (report & Hrep & _ & Hn & _).
  exists report. split; [exact Hrep|]. split; [exact Hn|].
  assert (Hc : (fun r => ps_producer_id <$> an_producers r) <$>
    complete_report 64 16384 sample_result = Some ["phone"; "watch"]%string) by (by vm_compute).
  rewrite Hrep in Hc. by injection Hc.
Defined.

(** C35: the stream statistics. There is one entry per producer and payload kind,
    in key order; it counts the records of the stream and those whose source
    timestamp does not exceed that of the record before with the same producer,
    payload kind and source clock (timestamps of different clocks are never
    compared). The fault counters count the fault events by severity, the UTC
    deltas are as many as there are UTC records, and the duration spans from the
    earliest to the latest arrival. *)
Theorem stream_statistics_exact (ld_prec ld_emax : Z) (log : LogReadResult)
    (Hlen : Zlength (records log) < 2 ^ 31) :
  exists report, complete_report ld_prec ld_emax log = Some report /\
    (let keys := (fun st => (ss_producer_id st, ss_payload st)) <$> an_streams report in
     StronglySorted key_lt keys /\
     forall k, k ∈ keys <-> exists r, r ∈ records log /\ stream_key (rec_event r) = k) /\
    (forall st, st ∈ an_streams report ->
       let own := filter (fun x => annotated_key x = (ss_producer_id st, ss_payload st))
                    (annotate [] (records log)) in
       ss_records st = Zlength own /\
       ss_source_timestamp_regressions st =
         Zlength (filter (fun x : LogRecord * bool => x.2 = true) own)) /\
    an_faults report =
      {| fs_warnings := count_severity SEVERITY_WARNING (records log);
         fs_errors := count_severity SEVERITY_ERROR (records log);
         fs_critical := count_severity SEVERITY_CRITICAL (records log) |} /\
    match an_utc_arrival_delta report with Some d => ds_samples d | None => 0 end =
      Zlength (utc_records (records log)) /\
    (records log <> [] -> exists lo hi,
       an_duration_seconds report =
         Some (ld_to_double (ld_div ld_prec ld_emax (ld_sub ld_prec ld_emax
           (ld_of_Z ld_prec ld_emax hi) (ld_of_Z ld_prec ld_emax lo))
           (ld_of_Z ld_prec ld_emax 1000000000))) /\
       lo ∈ rec_collector_arrival_timestamp_ns <$> records log /\
       hi ∈ rec_collector_arrival_timestamp_ns <$> records log /\
       Forall (fun t => lo <= t <= hi) (rec_collector_arrival_timestamp_ns <$> records log)).
Proof.
  destruct (complete_report_some ld_prec ld_emax log Hlen) as (fin & delta & Hfin & Hd & Hrep).
  eexists. split; [exact Hrep|]. cbn [an_streams an_faults an_utc_arrival_delta an_duration_seconds].
  destruct (stream_names ld_prec ld_emax _ _ Hfin Hlen) as [Hkeys Hstreams].
  destruct (pass_exact ld_prec ld_emax (records log)) as [_ Hs _ _ Hf _ Hspan].
  rewrite Hkeys, Hs, Hf. split; [split|split; [|split; [|split; [done|]]]].
  - by apply group_by_wf; constructor.
  - intros k. rewrite group_by_keys. unfold annotated_key. split.
    + intros (x & Hx & Hk). exists x.1. split; [|done].
      rewrite <- (annotate_fst [] (records log)). by apply (list_elem_of_fmap_2 fst).
    + intros (r & Hr & Hk). rewrite <- (annotate_fst [] (records log)) in Hr.
      apply list_elem_of_fmap in Hr as (x & -> & Hx). by exists x.
  - intros st Hst. set (own := filter _ (annotate [] (records log))).
    destruct (Hstreams st Hst) as (_ & Hr & Hg). unfold of_key in Hr, Hg.
    fold own in Hr, Hg. rewrite Hr, Hg.
    pose proof (length_filter (fun x : LogRecord * bool => x.2 = true) own) as L1.
    pose proof (length_filter (fun x => annotated_key x = (ss_producer_id st, ss_payload st))
      (annotate [] (records log))) as L2. fold own in L2. rewrite annotate_length in L2.
    rewrite !u64_small by (unfold in_u64; lia). done.
  - assert (Hc : forall sev, in_u64 (count_severity sev (records log))).
    { intros sev. unfold count_severity, in_u64.
      pose proof (length_filter (fun r => severity_of (rec_event r) = Some sev) (records log)). lia. }
    by rewrite !u64_small by apply Hc.
  - intros Hne. destruct (Hspan Hne) as (lo & hi & Hlo & Hhi & H). exists lo, hi.
    split; [|done]. unfold report_duration. by rewrite Hlo, Hhi.
Qed.

Lemma stream_statistics_exact_witness :
  exists report, complete_report 64 16384 sample_result = Some report /\
    ss_source_timestamp_regressions <$> an_streams report = [0; 1] /\
    match an_utc_arrival_delta report with Some d => ds_samples d | None => 0 end = 4.
Proof.
  destruct (stream_statistics_exact 64 16384 sample_result ltac:(by vm_compute))
    as (report & Hrep & _ & _ & _ & Hd & _).
  exists report. split; [exact Hrep|].
  split; [|rewrite Hd; by vm_compute].
  assert (Hc : (fun r => ss_source_timestamp_regressions <$> an_streams r) <$>
    complete_report 64 16384 sample_result = Some [0; 1]) by (by vm_compute).
  rewrite Hrep in Hc. by injection Hc.
Defined.

(** C36: percentiles are nearest-rank percentiles. For up to [2^31] finite values
    and the three fractions in use, the rank computed in doubles - an inexact
    fraction, a rounded product - is exactly [ceil (p * n / 100)]; no access is
    out of range, the result is one of the values, at least that many values do
    not exceed it and at least [n - rank + 1] are not below it. *)
Theorem percentile_nearest_rank (p : Z) (values : list double)
    (Hp : p ∈ [50; 95; 99]) (Hn : 0 < Zlength values < 2 ^ 31)
    (Hfin : Forall finite_double values) :
  let rank := nearest_rank p (Zlength values) in
  percentile_index (Zlength values) (fraction_of p) = rank - 1 /\
  1 <= rank <= Zlength values /\ 100 * rank < p * Zlength values + 100 /\
  p * Zlength values <= 100 * rank /\
  exists v, percentile values (fraction_of p) = Some v /\ v ∈ values /\
    rank <= Zlength (filter (fun x => dval x <= dval v) values) /\
    Zlength values - rank + 1 <= Zlength (filter (fun x => dval v <= dval x) values).
Proof.
  intros rank.
  assert (Hpr : 0 < p <= 100) by (rewrite !elem_of_cons, elem_of_nil in Hp; lia).
  pose proof (nearest_rank_range p (Zlength values) Hpr ltac:(lia)) as Hr. fold rank in Hr.
  split; [by apply percentile_rank|]. split; [done|].
  pose proof (Z.div_mod (p * Zlength values + 99) 100 ltac:(lia)) as Hdm.
  pose proof (Z.mod_pos_bound (p * Zlength values + 99) 100 ltac:(lia)) as Hm.
  change ((p * Zlength values + 99) / 100) with rank in Hdm. split; [lia|]. split; [lia|].
  destruct (percentile_some p values Hp Hn) as (v & Hv & Hl & Hin).
  exists v. split; [done|]. split; [done|]. fold rank in Hl.
  pose proof (merge_sort_Permutation dle values) as Hperm.
  assert (Hs : StronglySorted Z.le (dval <$> merge_sort dle values)).
  { apply sorted_dvals; [by rewrite Hperm|apply Sorted_merge_sort; apply _]. }
  destruct (sorted_counts _ (Z.to_nat (rank - 1)) (dval v) Hs) as [H1 H2].
  { by rewrite list_lookup_fmap, Hl. }
  rewrite list_filter_fmap, length_fmap in H1. rewrite list_filter_fmap, !length_fmap in H2.
  rewrite (Permutation_length (filter_Permutation _ _ _ Hperm)) in H1.
  rewrite (Permutation_length (filter_Permutation _ _ _ Hperm)), (Permutation_length Hperm) in H2.
  unfold compose in H1, H2. split; lia.
Qed.

Lemma percentile_nearest_rank_witness :
  exists v, percentile (double_of_Z <$> [30; 10; 20]) (fraction_of 50) = Some v /\
    2 <= Zlength (filter (fun x => dval x <= dval v) (double_of_Z <$> [30; 10; 20])).
Proof.
  destruct (percentile_nearest_rank 50 (double_of_Z <$> [30; 10; 20])) as (_ & _ & _ & _ & H).
  - by left.
  - split; by vm_compute.
  - repeat (apply Forall_cons; split; [by split; vm_compute|]). constructor.
  - destruct H as (v & Hv & _ & Hc & _). exists v. split; [exact Hv|exact Hc].
Defined.

(** Only a complete log is analysed. On every file up to 2^64 bytes
    [analyze_log] returns; it reports [complete] exactly when the whole file is a
    recording - a header and the images of readable records - and then counts
    all of them; otherwise the report is an error with a message and no numbers
    but the file's size. *)
Theorem analysis_needs_complete_log `{!EventCodec} (ld_prec ld_emax : Z) fs path
    (maximum : Z) data :
  files fs !! path = Some data -> stat_error fs path = false ->
  open_error fs path = false -> Zlength data < 2 ^ 64 -> 0 <= maximum < 2 ^ 31 ->
  exists report, analyze_log ld_prec ld_emax fs path maximum = Some report /\
    an_file_bytes report = Zlength data /\
    (an_status report = Analysis_complete ->
       exists hdr l, header_ok hdr /\ readables l /\ data = hdr ++ records_image 0 l.*1 /\
         an_records report = Zlength l) /\
    (an_status report = Analysis_log_error ->
       an_records report = 0 /\ an_producers report = [] /\ an_streams report = [] /\
       an_duration_seconds report = None /\ an_utc_arrival_delta report = None /\
       exists log, read_log fs path {| maximum_records := maximum; retain_records := true |} =
         Some log /\ status log <> Log_complete /\
         an_message report = "cannot analyze telemetry log: " +:+ message log).
Proof.
  intros Hf Hs Ho Hlen Hmax.
  destruct (read_log_vouches fs path {| maximum_records := maximum; retain_records := true |} data
    Hf Hs Ho Hlen ltac:(cbn; lia)) as (log & Hlog & Hsz & Hcase).
  unfold analyze_log. rewrite Hlog. cbn [mbind option_bind].
  destruct (decide (status log = Log_complete)) as [Hc|Hc].
  - rewrite bool_decide_eq_true_2 by done. cbn [negb].
    destruct Hcase as [(_ & Hcor & _)|(hdr & l & Hh & Hr & Hl & _ & _ & _ & Hrec & Hdata)]; [congruence|].
    cbn [maximum_records retain_records] in Hl, Hrec.
    assert (Hrl : Zlength (records log) = Zlength l) by (by rewrite Hrec, stored_records_length).
    destruct (complete_report_some ld_prec ld_emax log ltac:(lia)) as (fin & delta & _ & _ & ->).
    eexists. split; [reflexivity|]. cbn [an_file_bytes an_status an_records].
    split; [done|]. split; [|done]. intros _. exists hdr, l. split_and!; try done. by apply Hdata.
  - rewrite bool_decide_eq_false_2 by done. cbn [negb]. eexists. split; [reflexivity|].
    cbn [an_file_bytes an_status an_records an_producers an_streams an_duration_seconds
      an_utc_arrival_delta an_message]. split; [done|]. split; [done|]. intros _.
    split_and!; try done. by exists log.
Qed.

Lemma analysis_needs_complete_log_witness :
  let fs := fs_of {["run.tflog" := build_file_header 77 ++ [x01]]} in
  exists report, @analyze_log 64 16384 sample_codec fs "run.tflog" 10 = Some report /\
    an_file_bytes report = 33.
Proof.
  intros fs.
  destruct (@analysis_needs_complete_log sample_codec 64 16384 fs "run.tflog" 10
    (build_file_header 77 ++ [x01])) as (report & H1 & H2 & _).
  - apply lookup_insert_eq.
  - done.
  - done.
  - by vm_compute.
  - lia.
  - exists report. split; [exact H1|]. rewrite H2. by vm_compute.
Defined.

(** C37: the analysis agrees with the collector. When a producer's records are a
    stream the validator accepted, its statistics repeat the stream's summary -
    as many records, the same number of gaps - and report no sequence number
    that does not increase. *)
Theorem analysis_agrees_with_validator (ld_prec ld_emax : Z) (log : LogReadResult)
    (producer : string) (st : StreamValidator) :
  let own := filter (fun ev => producer_id ev = producer) (rec_event <$> records log) in
  Zlength (records log) < 2 ^ 31 -> own <> [] -> Forall event_wf own ->
  accept_stream StreamValidator_init own = (own, st) ->
  exists report p, complete_report ld_prec ld_emax log = Some report /\
    p ∈ an_producers report /\ ps_producer_id p = producer /\
    ps_records p = summary_accepted_events (populate_summary st) /\
    ps_sequence_gaps p = summary_sequence_gaps (populate_summary st) /\
    ps_non_increasing_sequences p = 0.
Proof.
  intros own Hlen Hne Hwf Hacc.
  destruct (complete_report_some ld_prec ld_emax log Hlen) as (fin & delta & _ & _ & Hrep).
  assert (Hown : own = rec_event <$> of_key rec_producer producer (records log))
    by (unfold own; by rewrite list_filter_fmap).
  pose proof (length_filter (fun ev => producer_id ev = producer) (rec_event <$> records log)) as Hle.
  rewrite length_fmap in Hle. fold own in Hle.
  destruct (accepted_stream_gaps own st Hne Hwf ltac:(lia) Hacc) as (Hc & Hn & Hg & Hu).
  assert (Hin : producer ∈ ps_producer_id <$>
    (pa_stats <$> (producers (analyze_records ld_prec ld_emax (records log))).*2)).
  { rewrite producer_names. destruct (pass_exact ld_prec ld_emax (records log)) as [-> _ _ _ _ _ _].
    apply group_by_keys. destruct own as [|ev own'] eqn:Eo; [done|].
    assert (Hev : ev ∈ rec_event <$> of_key rec_producer producer (records log))
      by (rewrite <- Hown; left).
    apply list_elem_of_fmap in Hev as (r & _ & [Hr Hin]%list_elem_of_filter). by exists r. }
  apply list_elem_of_fmap in Hin as (p & Hid & Hin).
  destruct (report_producers ld_prec ld_emax (records log) p Hin) as (_ & Hr & Hgp & Hnp).
  rewrite <- Hid in Hr, Hgp, Hnp.
  assert (Hseqs : (fun r => sequence_number (rec_event r)) <$>
    of_key rec_producer producer (records log) = sequence_number <$> own)
    by (rewrite Hown, <- list_fmap_compose; done).
  rewrite Hseqs in Hgp, Hnp. rewrite Hg in Hgp. rewrite Hn in Hnp.
  assert (Hz : Zlength (of_key rec_producer producer (records log)) = Zlength own)
    by (rewrite Hown, length_fmap; done).
  eexists _, p. split; [exact Hrep|]. cbn [an_producers]. split; [done|]. split; [done|].
  cbn [populate_summary summary_accepted_events summary_sequence_gaps].
  rewrite Hr, Hgp, Hnp, Hz, Hc, !u64_small by (done || unfold in_u64; lia). done.
Qed.

Lemma analysis_agrees_with_validator_witness :
  exists report p, complete_report 64 16384 sample_result = Some report /\
    p ∈ an_producers report /\ ps_producer_id p = "phone"%string /\ ps_sequence_gaps p = 2.
Proof.
  destruct (analysis_agrees_with_validator 64 16384 sample_result "phone"
    (snd (accept_stream StreamValidator_init
       [sample_event "phone" 1 50; sample_event "phone" 4 60])))
    as (report & p & H1 & H2 & H3 & _ & H5 & _).
  - by vm_compute.
  - discriminate.
  - repeat (apply Forall_cons; split; [apply sample_event_wf; solve_range|]). constructor.
  - by vm_compute.
  - exists report, p. split; [exact H1|]. split; [exact H2|]. split; [exact H3|].
    rewrite H5. by vm_compute.
Defined.
