(* ===== verification/Options.v ===== *)
(** * Options: reading the command line of [app/main.cpp]

    [std::from_chars] on integers, [std::stod], and the helpers [parse_integer],
    [option_value], [parse_probability] and [parse_speed]; an exception is the
    left part of a sum. The arguments are C strings. The loops over [argv] of the
    three commands with options have the same shape and share [option_loop]. *)
From Stdlib Require Import ZArith Lia SpecFloat.
From Stdlib Require Import Strings.Ascii.
From stdpp Require Import base gmap strings list pretty.
From S2P Require Import Prelude Bytes Floats Telemetry Validation.
Local Open Scope Z_scope.
Local Open Scope tf_scope.

(** A computation that may throw an exception with a message. *)
Abbreviation Throwing A := (string + A)%type.

#[export] Instance throwing_bind : MBind (sum string) := fun A B f x =>
  match x with inl msg => inl msg | inr a => f a end.

(** ** [std::from_chars] *)

Record int_type := { it_signed : bool; it_min : Z; it_max : Z }.
Definition uint64_type : int_type := {| it_signed := false; it_min := 0; it_max := 2 ^ 64 - 1 |}.
Definition int64_type : int_type :=
  {| it_signed := true; it_min := - 2 ^ 63; it_max := 2 ^ 63 - 1 |}.

Definition digit_of (c : ascii) : option Z :=
  let n := Z.of_N (N_of_ascii c) in
  if (48 <=? n) && (n <=? 57) then Some (n - 48) else None.

(** The longest prefix of digits: the value it continues [acc] to, the rest. *)
Fixpoint scan_digits (s : string) (acc : Z) : Z * string :=
  match s with
  | String c s' =>
      match digit_of c with
      | Some d => scan_digits s' (10 * acc + d)
      | None => (acc, s)
      end
  | EmptyString => (acc, s)
  end.

(** What [from_chars] reports: an [errc] or the value, and the rest of the text. *)
Inductive chars_result :=
  | Chars_invalid_argument
  | Chars_out_of_range (rest : string)
  | Chars_ok (parsed : Z) (rest : string).

Definition from_chars (ty : int_type) (s : string) : chars_result :=
  let '(minus, body) :=
    match s with
    | String "-" s' => if it_signed ty then (true, s') else (false, s)
    | _ => (false, s)
    end in
  match body with
  | EmptyString => Chars_invalid_argument
  | String c _ =>
      match digit_of c with
      | None => Chars_invalid_argument
      | Some _ =>
          let '(n, rest) := scan_digits body 0 in
          let z := if minus : bool then - n else n in
          return_if (z <? it_min ty) || (it_max ty <? z) with Chars_out_of_range rest ;;
          Chars_ok z rest
      end
  end.

Definition parse_integer (ty : int_type) (value option : string) : Throwing Z :=
  match from_chars ty value with
  | Chars_ok parsed EmptyString => inr parsed
  | _ => inl ("invalid value for " +:+ option)
  end.

Definition parse_probability (value option : string) : Throwing Z :=
  parsed ← parse_integer uint64_type value option;
  return_if 2 ^ 32 - 1 <? parsed with inl ("value is too large for " +:+ option) ;;
  inr (u32 parsed).

(** ** [std::stod], in the "C" locale

    [strtod]'s grammar: white space, a sign, and a decimal or hexadecimal
    number with optional fraction and exponent, or an infinity or a NaN; the
    number is rounded once, to nearest even. (Whether the parenthesised part of a
    NaN is consumed makes no difference to [parse_speed].) *)

Definition is_space (c : ascii) : bool :=
  let n := Z.of_N (N_of_ascii c) in (n =? 32) || ((9 <=? n) && (n <=? 13)).

Fixpoint skip_spaces (s : string) : string :=
  match s with
  | String c s' => if is_space c then skip_spaces s' else s
  | EmptyString => s
  end.

Definition lower (c : ascii) : ascii :=
  let n := N_of_ascii c in
  if ((65 <=? n) && (n <=? 90))%N then ascii_of_N (n + 32) else c.

(** The text after the prefix [p] (in lower case), whatever the case. *)
Fixpoint after_prefix (p s : string) : option string :=
  match p, s with
  | EmptyString, _ => Some s
  | String a p', String c s' => if (lower c =? a)%char then after_prefix p' s' else None
  | String _ _, EmptyString => None
  end.

Definition hex_digit_of (c : ascii) : option Z :=
  match digit_of c with
  | Some d => Some d
  | None =>
      let n := Z.of_N (N_of_ascii (lower c)) in
      if (97 <=? n) && (n <=? 102) then Some (n - 87) else None
  end.

(** The longest prefix of digits in a base: value, number of digits, rest. *)
Fixpoint scan_base (digit : ascii -> option Z) (base : Z) (s : string) (acc count : Z)
    : Z * Z * string :=
  match s with
  | String c s' =>
      match digit c with
      | Some d => scan_base digit base s' (base * acc + d) (count + 1)
      | None => (acc, count, s)
      end
  | EmptyString => (acc, count, s)
  end.

(** Digits with an optional point: the digits as a number, how many of them
    follow the point, the rest; [None] without any digit. *)
Definition scan_mantissa (digit : ascii -> option Z) (base : Z) (s : string)
    : option (Z * Z * string) :=
  let '(n, whole, s1) := scan_base digit base s 0 0 in
  let '(n, fraction, s2) :=
    match s1 with
    | String "." s' => scan_base digit base s' n 0
    | _ => (n, 0, s1)
    end in
  return_if (whole =? 0) && (fraction =? 0) with None ;; Some (n, fraction, s2).

(** An exponent introduced by [mark]; it is not consumed without digits. *)
Definition scan_exponent (mark : ascii) (s : string) : Z * string :=
  match s with
  | String c s' =>
      return_if negb (lower c =? mark)%char with (0, s) ;;
      let '(minus, body) :=
        match s' with
        | String "-" s'' => (true, s'')
        | String "+" s'' => (false, s'')
        | _ => (false, s')
        end in
      let '(n, count, rest) := scan_base digit_of 10 body 0 0 in
      return_if count =? 0 with (0, s) ;;
      ((if minus : bool then - n else n), rest)
  | EmptyString => (0, s)
  end.

(** [m * base ^ e], rounded once. *)
Definition round_scaled (negative : bool) (m base e : Z) : double :=
  match m with
  | Zpos p =>
      let num := if 0 <=? e then Z.to_pos (Zpos p * base ^ e) else p in
      let den := if 0 <=? e then 1%positive else Z.to_pos (base ^ (- e)) in
      let '(q, ex, l) := SFdiv_core_binary dbl_prec dbl_emax (Zpos num) 0 (Zpos den) 0 in
      binary_round_aux dbl_prec dbl_emax negative q ex l
  | _ => S754_zero negative
  end.

(** [ERANGE], as the GNU library sets it: the result overflows, or is too small
    for full precision and inexact. *)
Definition range_error (x : double) (m base e : Z) : bool :=
  match x with
  | S754_infinity _ => true
  | S754_zero _ => negb (m =? 0)
  | S754_finite _ q ex =>
      (Zpos q <? 2 ^ 52) &&
      negb (Zpos q * 2 ^ (ex + 1074) * base ^ Z.max 0 (- e) =?
            m * base ^ Z.max 0 e * 2 ^ 1074)
  | S754_nan => false
  end.

(** [std::stod(text, &consumed)]: the number and the text not consumed. *)
Definition stod (text : string) : Throwing (double * string) :=
  let s := skip_spaces text in
  let '(negative, s) :=
    match s with
    | String "-" s' => (true, s')
    | String "+" s' => (false, s')
    | _ => (false, s)
    end in
  let number m base e rest :=
    let x := round_scaled negative m base e in
    return_if range_error x m base e with inl "stod" ;; inr (x, rest) in
  match after_prefix "infinity" s, after_prefix "inf" s, after_prefix "nan" s with
  | Some rest, _, _ | None, Some rest, _ => inr (S754_infinity negative, rest)
  | None, None, Some rest => inr (S754_nan, rest)
  | None, None, None =>
      match s' ← after_prefix "0x" s; scan_mantissa hex_digit_of 16 s' with
      | Some (m, fraction, rest) =>
          let '(e, rest) := scan_exponent "p" rest in number m 2 (e - 4 * fraction) rest
      | None =>
          match scan_mantissa digit_of 10 s with
          | Some (m, fraction, rest) =>
              let '(e, rest) := scan_exponent "e" rest in number m 10 (e - fraction) rest
          | None => inl "stod"
          end
      end
  end.

Definition parse_speed (value : string) : Throwing double :=
  '(parsed, rest) ← stod value;
  return_if negb (str_empty rest) || negb (isfinite parsed) || dlt parsed (double_of_Z 0) with
    inl "replay speed must be finite and non-negative" ;;
  inr parsed.

(** ** The loops over the arguments *)

(** How a loop ends: the help was asked for, or the options so far. *)
Inductive Parsed (A : Type) := Parsed_help | Parsed_options (options : A).
Arguments Parsed_help {A}.
Arguments Parsed_options {A} _.

(** The exception of [option_value] when no argument follows. *)
Definition missing_value (option : string) : string := "missing value after " +:+ option.

(** The loop, on the arguments from [argv[index]] on: [flag] is what an option
    without value does, [set] what one with a value does. *)
Fixpoint option_loop {A} (flag : A -> string -> option A)
    (set : A -> string -> string -> Throwing A) (args : list string) (options : A)
    : Throwing (Parsed A) :=
  match args with
  | [] => inr (Parsed_options options)
  | option :: args' =>
      return_if (option =? "--help")%string || (option =? "-h")%string with inr Parsed_help ;;
      match flag options option with
      | Some options' => option_loop flag set args' options'
      | None =>
          match args' with
          | [] => inl (missing_value option)
          | value :: args'' =>
              options' ← set options option value;
              option_loop flag set args'' options'
          end
      end
  end.

(** An integer with its range check. *)
Definition parse_within (ty : int_type) (lo hi : Z) (msg value option : string) : Throwing Z :=
  parsed ← parse_integer ty value option;
  return_if (parsed <? lo) || (hi <? parsed) with inl msg ;;
  inr parsed.

(** ** Integers *)

(** Numerals: a text of decimal digits and its value by position. *)
Definition digit_char (d : Z) : ascii := ascii_of_N (Z.to_N (d + 48)).

Fixpoint digits_value (ds : list Z) : Z :=
  match ds with
  | [] => 0
  | d :: ds' => d * 10 ^ Zlength ds' + digits_value ds'
  end.

Definition digits_text (ds : list Z) : string := String.string_of_list_ascii (digit_char <$> ds).

Definition is_digit (d : Z) : Prop := 0 <= d <= 9.

(** The texts of a type: an optional minus sign if the type is signed, then one
    digit or more. *)
Inductive numeral (ty : int_type) : string -> Z -> Prop :=
  | numeral_plain ds : ds <> [] -> Forall is_digit ds ->
      numeral ty (digits_text ds) (digits_value ds)
  | numeral_minus ds : it_signed ty = true -> ds <> [] -> Forall is_digit ds ->
      numeral ty (String "-" (digits_text ds)) (- digits_value ds).

Lemma digit_of_char d : is_digit d -> digit_of (digit_char d) = Some d.
Proof.
  unfold is_digit. intros Hd.
  assert (d = 0 \/ d = 1 \/ d = 2 \/ d = 3 \/ d = 4 \/ d = 5 \/ d = 6 \/ d = 7 \/ d = 8 \/ d = 9)
    as H by lia.
  repeat destruct H as [->|H]; [done..|by subst].
Qed.

Lemma digit_of_some c d : digit_of c = Some d -> is_digit d /\ c = digit_char d.
Proof.
  unfold digit_of, digit_char, is_digit. destruct (_ && _) eqn:E; [|done]. intros [= <-].
  reflect_bools. split; [lia|].
  by rewrite Z.sub_add, N2Z.id, ascii_N_embedding.
Qed.

Lemma string_app_nil s : s +:+ "" = s.
Proof.
  induction s as [|c s IH]; [done|]. change (String c (s +:+ "") = String c s). by rewrite IH.
Qed.

Lemma scan_digits_spec ds : forall acc rest,
  Forall is_digit ds ->
  match rest with String c _ => digit_of c = None | EmptyString => True end ->
  scan_digits (digits_text ds +:+ rest) acc =
    (acc * 10 ^ Zlength ds + digits_value ds, rest).
Proof.
  induction ds as [|d ds IH]; intros acc rest Hds Hrest.
  - change (digits_text [] +:+ rest) with rest. change (10 ^ Zlength []) with 1.
    cbn [digits_value]. rewrite Z.mul_1_r, Z.add_0_r.
    destruct rest as [|c rest]; cbn [scan_digits]; by rewrite ?Hrest.
  - apply Forall_cons in Hds as [Hd Hds].
    change (digits_text (d :: ds) +:+ rest) with (String (digit_char d) (digits_text ds +:+ rest)).
    cbn [scan_digits]. rewrite (digit_of_char d Hd), IH by done. cbn [digits_value length].
    rewrite Nat2Z.inj_succ, Z.pow_succ_r by lia. f_equal. lia.
Qed.

(** A text split at the first character that is no digit. *)
Lemma digits_split s : exists ds rest, s = digits_text ds +:+ rest /\ Forall is_digit ds /\
  match rest with String c _ => digit_of c = None | EmptyString => True end.
Proof.
  induction s as [|c s (ds & rest & -> & Hds & Hrest)]; [by exists [], EmptyString|].
  destruct (digit_of c) as [d|] eqn:Hc.
  - apply digit_of_some in Hc as [Hd ->]. exists (d :: ds), rest. by split_and!; [|constructor|].
  - by exists [], (String c (digits_text ds +:+ rest)).
Qed.

(** What follows the sign. *)
Definition scan_body (ty : int_type) (minus : bool) (body : string) : chars_result :=
  match body with
  | EmptyString => Chars_invalid_argument
  | String c _ =>
      match digit_of c with
      | None => Chars_invalid_argument
      | Some _ =>
          let '(n, rest) := scan_digits body 0 in
          let z := if minus : bool then - n else n in
          return_if (z <? it_min ty) || (it_max ty <? z) with Chars_out_of_range rest ;;
          Chars_ok z rest
      end
  end.

Lemma scan_body_exact ty minus body z :
  scan_body ty minus body = Chars_ok z EmptyString <->
  exists ds, ds <> [] /\ Forall is_digit ds /\ body = digits_text ds /\
    z = (if minus then - digits_value ds else digits_value ds) /\ it_min ty <= z <= it_max ty.
Proof.
  destruct (digits_split body) as (ds & rest & -> & Hds & Hrest).
  assert (Hscan := scan_digits_spec ds 0 rest Hds Hrest). rewrite Z.mul_0_l, Z.add_0_l in Hscan.
  split.
  - intros Hb. destruct ds as [|d ds].
    { change (digits_text [] +:+ rest) with rest in Hb. destruct rest as [|c rest]; [done|].
      cbn [scan_body] in Hb. by rewrite Hrest in Hb. }
    revert Hb. unfold scan_body. rewrite Hscan.
    change (digits_text (d :: ds) +:+ rest) with (String (digit_char d) (digits_text ds +:+ rest)).
    cbv iota beta.
    rewrite digit_of_char by by apply Forall_cons in Hds as [? _].
    set (v := digits_value (d :: ds)). destruct (_ || _) eqn:Hr; [done|]. intros [= <- ->].
    reflect_bools. exists (d :: ds). rewrite string_app_nil. by split_and!.
  - intros (ds' & Hne & Hds' & Heq & Hz & Hr).
    assert (Hs' := scan_digits_spec ds' 0 "" Hds' I). rewrite string_app_nil, Z.mul_0_l, Z.add_0_l in Hs'.
    rewrite Heq. destruct ds' as [|d ds']; [done|].
    unfold scan_body. rewrite Hs'.
    change (digits_text (d :: ds')) with (String (digit_char d) (digits_text ds')).
    cbv iota beta. rewrite digit_of_char by by apply Forall_cons in Hds' as [? _].
    rewrite <- Hz. destruct (Z.ltb_spec z (it_min ty)); [lia|].
    by destruct (Z.ltb_spec (it_max ty) z); [lia|].
Qed.

Lemma from_chars_body ty s :
  from_chars ty s =
    match s with
    | String "-" s' => if it_signed ty then scan_body ty true s' else Chars_invalid_argument
    | _ => scan_body ty false s
    end.
Proof.
  unfold from_chars, scan_body. destruct s as [|c s']; [done|].
  destruct (decide (c = "-"%char)) as [->|Hc].
  - by destruct (it_signed ty).
  - destruct c as [[] [] [] [] [] [] [] []]; try done.
Qed.

Lemma parse_integer_iff ty value option z :
  parse_integer ty value option = inr z <-> numeral ty value z /\ it_min ty <= z <= it_max ty.
Proof.
  assert (Hchars : from_chars ty value = Chars_ok z EmptyString <->
    numeral ty value z /\ it_min ty <= z <= it_max ty).
  { rewrite from_chars_body. split.
    - intros Hf. assert (Hb : (exists s', value = String "-" s' /\ it_signed ty = true /\
          scan_body ty true s' = Chars_ok z EmptyString) \/
        scan_body ty false value = Chars_ok z EmptyString).
      { destruct value as [|c s']; [by right|]. destruct (decide (c = "-"%char)) as [->|Hc].
        - destruct (it_signed ty); [|done]. left. by exists s'.
        - right. revert Hf. destruct c as [[] [] [] [] [] [] [] []]; done. }
      destruct Hb as [(s' & -> & Hsg & Hb)|Hb];
        apply scan_body_exact in Hb as (ds & Hne & Hds & -> & -> & Hr); split;
        [by constructor|done|by constructor|done].
    - intros [[ds Hne Hds|ds Hsg Hne Hds] Hr].
      + assert (Hb : scan_body ty false (digits_text ds) = Chars_ok (digits_value ds) EmptyString)
          by (apply scan_body_exact; by exists ds).
        destruct ds as [|d ds]; [done|]. apply Forall_cons in Hds as [Hd _]. revert Hb.
        change (digits_text (d :: ds)) with (String (digit_char d) (digits_text ds)).
        assert (Hc := digit_of_char d Hd). revert Hc. generalize (digit_char d) as c.
        intros c. destruct c as [[] [] [] [] [] [] [] []]; done.
      + rewrite Hsg. apply scan_body_exact. by exists ds. }
  unfold parse_integer. rewrite <- Hchars. destruct (from_chars ty value) as [| |p [|c r]];
    (split; [|]); intros Hx; try done; by injection Hx as ->.
Qed.

Lemma digits_text_snoc ds d s :
  digits_text (ds ++ [d]) +:+ s = digits_text ds +:+ String (digit_char d) s.
Proof.
  induction ds as [|e ds IH]; [done|].
  change (digits_text ((e :: ds) ++ [d]) +:+ s)
    with (String (digit_char e) (digits_text (ds ++ [d]) +:+ s)).
  rewrite IH. done.
Qed.

Lemma digits_value_snoc ds d : digits_value (ds ++ [d]) = 10 * digits_value ds + d.
Proof.
  induction ds as [|e ds IH].
  { cbn [app digits_value]. change (10 ^ Zlength []) with 1. lia. }
  change ((e :: ds) ++ [d]) with (e :: (ds ++ [d])). cbn [digits_value].
  rewrite IH, length_app. cbn [length]. rewrite Nat2Z.inj_add, Z.pow_add_r by lia.
  change (10 ^ Z.of_nat 1) with 10. lia.
Qed.

(** Printing and parsing. *)
Lemma pretty_digits (x : N) : forall s,
  exists ds, Forall is_digit ds /\ pretty_N_go x s = digits_text ds +:+ s /\
    digits_value ds = Z.of_N x /\ (x <> 0%N -> ds <> []).
Proof.
  induction (N.lt_wf_0 x) as [x _ IH]; intros s.
  destruct (decide (x = 0%N)) as [->|Hx]; [by exists []|].
  destruct (IH (x `div` 10)%N ltac:(apply N.div_lt; lia) (String (pretty_N_char (x `mod` 10)) s))
    as (ds & Hds & Hs & Hv & _).
  assert (Hm : (x `mod` 10 < 10)%N) by (apply N.mod_lt; lia).
  assert (Hd : pretty_N_char (x `mod` 10) = digit_char (Z.of_N (x `mod` 10))).
  { generalize dependent (x `mod` 10)%N. intros m _ Hm.
    assert (m = 0 \/ m = 1 \/ m = 2 \/ m = 3 \/ m = 4 \/ m = 5 \/ m = 6 \/ m = 7 \/ m = 8 \/ m = 9)%N
      as Hc by lia.
    repeat destruct Hc as [->|Hc]; [done..|by subst]. }
  exists (ds ++ [Z.of_N (x `mod` 10)]). split_and!.
  - apply Forall_app. split; [done|]. constructor; [|constructor]. unfold is_digit.
    pose proof (N2Z.is_nonneg (x `mod` 10)). lia.
  - by rewrite pretty_N_go_step, Hs, Hd, digits_text_snoc by lia.
  - rewrite digits_value_snoc, Hv, N2Z.inj_div, N2Z.inj_mod. pose proof (Z.div_mod (Z.of_N x) 10). lia.
  - intros _. by destruct ds.
Qed.

Lemma parse_pretty ty z option : it_min ty <= z <= it_max ty ->
  (z < 0 -> it_signed ty = true) -> parse_integer ty (pretty z) option = inr z.
Proof.
  intros Hr Hs. apply parse_integer_iff. split; [|done].
  destruct z as [|p|p].
  - change (pretty 0) with (digits_text [0]). change 0 with (digits_value [0]) at 2.
    constructor; [done|]. by constructor; [|constructor].
  - destruct (pretty_digits (Npos p) "") as (ds & Hds & Hp & Hv & Hne). rewrite string_app_nil in Hp.
    change (pretty (Zpos p)) with (pretty_N_go (Npos p) "").
    rewrite Hp. change (Zpos p) with (Z.of_N (Npos p)). rewrite <- Hv.
    constructor; [by apply Hne|done].
  - destruct (pretty_digits (Npos p) "") as (ds & Hds & Hp & Hv & Hne). rewrite string_app_nil in Hp.
    change (pretty (Zneg p)) with (String "-" (pretty_N_go (Npos p) "")).
    rewrite Hp. change (Zneg p) with (- Z.of_N (Npos p)). rewrite <- Hv.
    constructor; [apply Hs; lia|by apply Hne|done].
Qed.

(** ** Consequences for the options *)

Lemma parse_integer_range ty value option z :
  parse_integer ty value option = inr z -> it_min ty <= z <= it_max ty.
Proof. intros Hp. by apply parse_integer_iff in Hp as [_ Hr]. Qed.

Lemma parse_within_range ty lo hi msg value option z :
  parse_within ty lo hi msg value option = inr z -> lo <= z <= hi.
Proof.
  unfold parse_within. destruct (parse_integer ty value option) as [e|p]; cbn; [done|].
  destruct (_ || _) eqn:Hr; [done|]. intros [= <-]. reflect_bools. lia.
Qed.

Lemma parse_probability_range value option z :
  parse_probability value option = inr z -> in_u32 z.
Proof.
  unfold parse_probability. destruct (parse_integer _ value option) as [e|p]; cbn; [done|].
  destruct (_ <? p); [done|]. intros [= <-]. apply u32_range.
Qed.

Lemma parse_speed_range value d :
  parse_speed value = inr d -> isfinite d = true /\ dlt d (double_of_Z 0) = false.
Proof.
  unfold parse_speed. destruct (stod value) as [e|[x rest]]; cbn [mbind throwing_bind]; [done|].
  destruct (_ || _) eqn:Hr; [done|]. intros [= <-]. by reflect_bools.
Qed.

Example stod_samples :
  stod "  +2.5e-1x" = inr (ddiv (double_of_Z 1) (double_of_Z 4), "x"%string) /\
  stod "0.1" = inr (ddiv (double_of_Z 1) (double_of_Z 10), ""%string) /\
  stod "0x.8p+2" = inr (double_of_Z 2, ""%string) /\
  stod "1e309" = inl "stod"%string /\ stod "4e-324" = inl "stod"%string /\
  stod "-INFinity" = inr (S754_infinity true, ""%string) /\ stod "." = inl "stod"%string.
Proof. by vm_compute. Qed.

(** ** Properties *)

(** C40: [parse_integer] reads exactly the numerals of its type. It accepts a text
    when, and only when, the text is an optional minus sign - for signed types
    only - and one or more decimal digits whose value, by position, lies in the
    type's range, and it returns that value; in particular it reads back the
    decimal text of every value of the type, and every refusal names the option. *)
Theorem parse_integer_exact (ty : int_type) (value option : string) (z : Z) :
  (parse_integer ty value option = inr z <->
     numeral ty value z /\ it_min ty <= z <= it_max ty) /\
  (it_min ty <= z <= it_max ty -> (z < 0 -> it_signed ty = true) ->
     parse_integer ty (pretty z) option = inr z) /\
  (forall msg, parse_integer ty value option = inl msg ->
     msg = "invalid value for " +:+ option).
Proof.
  split; [apply parse_integer_iff|]. split; [apply parse_pretty|].
  unfold parse_integer. intros msg. by destruct (from_chars ty value) as [| |p [|c r]]; intros [= <-].
Qed.

Lemma parse_integer_exact_witness :
  parse_integer int64_type "-0042" "--from-ns" = inr (-42) /\
  parse_integer int64_type (pretty (-42)) "--from-ns" = inr (-42).
Proof.
  split; [by vm_compute|].
  apply (proj1 (proj2 (parse_integer_exact int64_type "-0042" "--from-ns" (-42)))); [solve_range|done].
Defined.
