(* ===== verification/Commands.v ===== *)
(** * Commands: the program [traceforge] of [app/main.cpp]

    The command line of every command, what a command prints and the exit code it
    returns, over the models of the components. What is written to [std::cout]
    and [std::cerr] is the list of the values inserted into the stream. [generate]
    goes through the steps of the publisher's threads in the order of a schedule;
    [collect] is split where its threads start and where they have ended. *)
From Stdlib Require Import ZArith Lia SpecFloat.
From Stdlib Require Import Strings.Ascii Strings.Byte.
From stdpp Require Import base gmap strings list pretty.
From S2P Require Import Prelude Bytes Floats Telemetry Validation BoundedQueue QueuedSink.
From S2P Require Import Streams LogFormat LogWriter LogReader LogRecovery Recording Fnv Replay.
From S2P Require Import Random Generator Workload OrderedMap Publisher Ranks Analyzer Analysis.
From S2P Require Import Options.
Local Open Scope Z_scope.
Local Open Scope tf_scope.

(** ** Output *)

(** A value inserted into a stream, or a manipulator. *)
Inductive piece :=
  | Text (s : string)
  | Num (z : Z)
  | Real (d : double)
  | Fixed (precision : Z).

Abbreviation output := (list piece).

Definition newline : string := String "010" "".
Definition quote : string := String "034" "".

Record Exit := { exit_code : Z; std_out : output; std_err : output }.

Definition fail_with (code : Z) (err : output) : Exit :=
  {| exit_code := code; std_out := []; std_err := err |}.
Definition exit_with (code : Z) (out : output) : Exit :=
  {| exit_code := code; std_out := out; std_err := [] |}.

(** Lines of a help text. *)
Definition text_lines (l : list string) : output := concat ((fun s => [Text s; Text newline]) <$> l).

Definition project_name : string := "TraceForge".

Definition print_help : output :=
  [Text project_name; Text " - multi-sensor telemetry tooling"; Text newline; Text newline] ++
  text_lines [
    "Usage:";
    "  traceforge --help       Show this message";
    "  traceforge --version    Show the current version";
    "  traceforge collect [OPTIONS]";
    "                          Run the telemetry collector";
    "  traceforge generate [OPTIONS]";
    "                          Generate deterministic sensor data";
    "  traceforge inspect FILE Inspect and validate a telemetry log";
    "  traceforge analyze FILE Summarize rates, jitter, gaps, and timing";
    "  traceforge recover FILE Remove an incomplete final record";
    "  traceforge replay FILE [OPTIONS]";
    "                          Deterministically replay a log"]%string.

Definition print_generator_help : output := text_lines [
  "Generator options:";
  "  --seed N                 Deterministic random seed";
  "  --duration-ms N          Simulated duration in milliseconds";
  "  --jitter-us N            Maximum signed timestamp jitter";
  "  --clock-drift-ppm N      Source-clock drift in parts per million";
  "  --drop-per-million N     Event drop probability";
  "  --duplicate-per-million N  Event duplication probability";
  "  --reorder-per-million N  Adjacent-pair reorder probability";
  "  --target ADDRESS         Stream to a running collector";
  "  --connect-timeout-ms N   Collector connection timeout";
  "  --print-events           Print the generated event stream"]%string.

Definition print_collector_help : output := text_lines [
  "Collector options:";
  "  --listen ADDRESS         Listen address (default 0.0.0.0:50051)";
  "  --queue-capacity N       Maximum queued events (default 4096)";
  "  --consumer-delay-us N    Artificial delay for overload testing";
  "  --output FILE            Persist accepted events to a .tflog";
  "  --flush-every N          Flush after N records (default 64)"]%string.

Definition print_replay_help : output := text_lines [
  "Replay options:";
  "  --from-ns N              Inclusive collector timestamp seek";
  "  --until-ns N             Exclusive collector timestamp limit";
  "  --speed X                Wall-clock speed; 0 is immediate";
  "  --print-events           Print each event in replay order"]%string.

(** ** [inspect], [recover] and [analyze] *)

Definition print_optional_metric (metric : option double) : output :=
  match metric with Some d => [Real d] | None => [Text "n/a"] end.

Definition yes_no (b : bool) (yes no : string) : string := if b then yes else no.

Section tools.
Context `{!EventCodec}.

(** [None] if the reader does not return (it always does). *)
Definition run_inspect (fs : filesystem) (path : string) : option Exit :=
  result ← read_log fs path LogReadOptions_default;
  let complete := bool_decide (status result = Log_complete) in
  Some (exit_with (if complete then 0 else 3)
    ([Text "path="; Text path; Text " status="; Text (status_name (status result));
      Text " records="; Num (Zlength (records result)); Text " file_bytes="; Num (file_size result);
      Text " valid_bytes="; Num (valid_bytes result); Text " created_unix_ns=";
      Num (created_unix_ns result)] ++
     (if complete then [] else
        [Text " error_offset="; Num (error_offset result); Text " message="; Text quote;
         Text (message result); Text quote]) ++
     [Text newline])).

Definition run_recover (fs : filesystem) (path : string) : option (Exit * filesystem) :=
  '(result, fs') ← recover_truncated_tail fs path LogReadOptions_default;
  Some (exit_with (if succeeded result then 0 else 3)
    [Text "path="; Text path; Text " result="; Text (yes_no (succeeded result) "success" "refused");
     Text " changed="; Text (yes_no (changed result) "true" "false");
     Text " original_bytes="; Num (original_size result); Text " recovered_bytes=";
     Num (recovered_size result); Text " message="; Text quote; Text (recovery_message result);
     Text quote; Text newline], fs').

Definition producer_line (p : ProducerStats) : output :=
  [Text "producer="; Text (ps_producer_id p); Text " records="; Num (ps_records p);
   Text " sequence_gaps="; Num (ps_sequence_gaps p); Text " non_increasing_sequences=";
   Num (ps_non_increasing_sequences p); Text newline].

Definition stream_line (s : StreamStats) : output :=
  [Text "stream="; Text (ss_producer_id s); Text "/"; Text (ss_payload s); Text " records=";
   Num (ss_records s); Text " rate_hz="] ++ print_optional_metric (ss_observed_rate_hz s) ++
  [Text " interarrival_p50_ms="] ++ print_optional_metric (ss_interarrival_p50_ms s) ++
  [Text " jitter_p95_ms="] ++ print_optional_metric (ss_jitter_p95_ms s) ++
  [Text " source_timestamp_regressions="; Num (ss_source_timestamp_regressions s); Text newline].

Definition delta_line (delta : option DistributionStats) : output :=
  match delta with
  | Some d =>
      [Text "utc_arrival_delta samples="; Num (ds_samples d); Text " p50_ms="; Real (ds_p50_ms d);
       Text " p95_ms="; Real (ds_p95_ms d); Text " p99_ms="; Real (ds_p99_ms d);
       Text " max_ms="; Real (ds_maximum_ms d); Text newline]
  | None => [Text "utc_arrival_delta samples=0"; Text newline]
  end.

Definition run_analyze (ld_prec ld_emax : Z) (fs : filesystem) (path : string) : option Exit :=
  report ← analyze_log ld_prec ld_emax fs path 1000000;
  let front :=
    [Text "path="; Text path; Text " status="; Text (analysis_status_name (an_status report));
     Text " records="; Num (an_records report); Text " file_bytes="; Num (an_file_bytes report)] in
  match an_status report with
  | Analysis_log_error =>
      Some (exit_with 3 (front ++ [Text " message="; Text quote; Text (an_message report);
        Text quote; Text newline]))
  | Analysis_complete =>
      Some (exit_with 0
        (front ++ [Fixed 3; Text " duration_s="] ++
         print_optional_metric (an_duration_seconds report) ++ [Text newline] ++
         concat (producer_line <$> an_producers report) ++
         concat (stream_line <$> an_streams report) ++
         delta_line (an_utc_arrival_delta report) ++
         [Text "faults warnings="; Num (fs_warnings (an_faults report)); Text " errors=";
          Num (fs_errors (an_faults report)); Text " critical="; Num (fs_critical (an_faults report));
          Text newline]))
  end.
End tools.

(** ** [replay] *)

Record ReplayCommand := { rc_options : ReplayOptions; rc_print_events : bool }.

Definition ReplayCommand_default : ReplayCommand :=
  {| rc_options := {| from_collector_timestamp_ns := None; until_collector_timestamp_ns := None;
                      speed := double_of_Z 0 |};
     rc_print_events := false |}.

Definition replay_flag (o : ReplayCommand) (name : string) : option ReplayCommand :=
  if (name =? "--print-events")%string
  then Some {| rc_options := rc_options o; rc_print_events := true |} else None.

Definition set_replay_option (o : ReplayCommand) (name value : string) : Throwing ReplayCommand :=
  let set from until sp :=
    {| rc_options := {| from_collector_timestamp_ns := from; until_collector_timestamp_ns := until;
                        speed := sp |};
       rc_print_events := rc_print_events o |} in
  let r := rc_options o in
  if (name =? "--from-ns")%string then
    parsed ← parse_integer int64_type value name;
    inr (set (Some parsed) (until_collector_timestamp_ns r) (speed r))
  else if (name =? "--until-ns")%string then
    parsed ← parse_integer int64_type value name;
    inr (set (from_collector_timestamp_ns r) (Some parsed) (speed r))
  else if (name =? "--speed")%string then
    parsed ← parse_speed value;
    inr (set (from_collector_timestamp_ns r) (until_collector_timestamp_ns r) parsed)
  else inl ("unknown replay option: " +:+ name).

Definition event_line (record : LogRecord) : output :=
  [Text "collector_timestamp_ns="; Num (rec_collector_arrival_timestamp_ns record);
   Text " record_index="; Num (rec_record_index record); Text " source_timestamp_ns=";
   Num (source_timestamp_ns (rec_event record)); Text " producer=";
   Text (producer_id (rec_event record)); Text " sequence=";
   Num (sequence_number (rec_event record)); Text " payload=";
   Text (payload_name (payload (rec_event record))); Text newline].

(** [run_replay] on the arguments from [argv[2]] on. *)
Definition run_replay `{!EventCodec} (fs : filesystem) (args : list string) : option Exit :=
  match args with
  | [] => Some (fail_with 2 [Text "Usage: traceforge replay FILE [OPTIONS]"; Text newline])
  | path :: args' =>
      match option_loop replay_flag set_replay_option args' ReplayCommand_default with
      | inl msg => Some (fail_with 2 [Text "Replay error: "; Text msg; Text newline])
      | inr Parsed_help => Some (exit_with 0 print_replay_help)
      | inr (Parsed_options o) =>
          engine ← ReplayEngine_new fs path 1000000;
          let consumer := if rc_print_events o
            then Some (fun out record => (true, out ++ event_line record)) else None in
          let '(result, events_out, _) :=
            replay engine (fs_open_read fs path) (rc_options o) consumer [] in
          let complete := bool_decide (rr_status result = Replay_complete) in
          Some (exit_with (if complete then 0 else 3)
            (events_out ++
             [Text "path="; Text path; Text " status="; Text (replay_status_name (rr_status result));
              Text " indexed="; Num (indexed_records result); Text " replayed=";
              Num (replayed_records result); Text " speed="; Real (speed (rc_options o));
              Text " hash="; Text (format_hash (rr_hash result))] ++
             match first_timestamp_ns result, last_timestamp_ns result with
             | Some first, Some last_ =>
                 [Text " first_collector_timestamp_ns="; Num first;
                  Text " last_collector_timestamp_ns="; Num last_]
             | _, _ => []
             end ++
             (if complete then [] else
                [Text " message="; Text quote; Text (rr_message result); Text quote]) ++
             [Text newline]))
      end
  end.

(** ** [generate] *)

Record GeneratorOptions := {
  go_config : GeneratorConfig;
  go_print_events : bool;
  go_target : string;
  go_connect_timeout : Z;    (* milliseconds *)
}.

Definition GeneratorOptions_default : GeneratorOptions :=
  {| go_config := GeneratorConfig_default; go_print_events := false; go_target := "";
     go_connect_timeout := 5000 |}.

Definition generator_flag (o : GeneratorOptions) (name : string) : option GeneratorOptions :=
  if (name =? "--print-events")%string
  then Some {| go_config := go_config o; go_print_events := true; go_target := go_target o;
               go_connect_timeout := go_connect_timeout o |}
  else None.

Definition with_config (o : GeneratorOptions) (config : GeneratorConfig) : GeneratorOptions :=
  {| go_config := config; go_print_events := go_print_events o; go_target := go_target o;
     go_connect_timeout := go_connect_timeout o |}.

Definition with_faults (c : GeneratorConfig) (f : FaultInjection) : GeneratorConfig :=
  {| seed := seed c; duration := duration c; max_jitter := max_jitter c;
     clock_drift_ppm := clock_drift_ppm c; rates := rates c; faults := f |}.

Definition set_generator_option (o : GeneratorOptions) (name value : string)
    : Throwing GeneratorOptions :=
  let c := go_config o in
  let f := faults c in
  if (name =? "--seed")%string then
    parsed ← parse_integer uint64_type value name;
    inr (with_config o {| seed := parsed; duration := duration c; max_jitter := max_jitter c;
      clock_drift_ppm := clock_drift_ppm c; rates := rates c; faults := f |})
  else if (name =? "--duration-ms")%string then
    duration_ms ← parse_within int64_type 1 3600000 "duration must be between 1 and 3600000 ms"
      value name;
    inr (with_config o {| seed := seed c; duration := duration_ms * 1000000;
      max_jitter := max_jitter c; clock_drift_ppm := clock_drift_ppm c; rates := rates c;
      faults := f |})
  else if (name =? "--jitter-us")%string then
    jitter_us ← parse_within int64_type 0 3600000000 "jitter must be between 0 and 3600000000 us"
      value name;
    inr (with_config o {| seed := seed c; duration := duration c; max_jitter := jitter_us * 1000;
      clock_drift_ppm := clock_drift_ppm c; rates := rates c; faults := f |})
  else if (name =? "--clock-drift-ppm")%string then
    parsed ← parse_integer int64_type value name;
    inr (with_config o {| seed := seed c; duration := duration c; max_jitter := max_jitter c;
      clock_drift_ppm := parsed; rates := rates c; faults := f |})
  else if (name =? "--drop-per-million")%string then
    parsed ← parse_probability value name;
    inr (with_config o (with_faults c {| drop_per_million := parsed;
      duplicate_per_million := duplicate_per_million f;
      reorder_per_million := reorder_per_million f |}))
  else if (name =? "--duplicate-per-million")%string then
    parsed ← parse_probability value name;
    inr (with_config o (with_faults c {| drop_per_million := drop_per_million f;
      duplicate_per_million := parsed; reorder_per_million := reorder_per_million f |}))
  else if (name =? "--reorder-per-million")%string then
    parsed ← parse_probability value name;
    inr (with_config o (with_faults c {| drop_per_million := drop_per_million f;
      duplicate_per_million := duplicate_per_million f; reorder_per_million := parsed |}))
  else if (name =? "--target")%string then
    inr {| go_config := c; go_print_events := go_print_events o; go_target := value;
           go_connect_timeout := go_connect_timeout o |}
  else if (name =? "--connect-timeout-ms")%string then
    timeout_ms ← parse_within int64_type 1 60000 "connect timeout must be between 1 and 60000 ms"
      value name;
    inr {| go_config := c; go_print_events := go_print_events o; go_target := go_target o;
           go_connect_timeout := timeout_ms |}
  else inl ("unknown generator option: " +:+ name).

Definition generated_output (o : GeneratorOptions) (w : GeneratedWorkload) : output :=
  (if go_print_events o then
     concat ((fun event =>
       [Num (source_timestamp_ns event); Text " "; Text (producer_id event); Text " ";
        Num (sequence_number event); Text " "; Text (payload_name (payload event)); Text newline])
       <$> events w)
   else []) ++
  [Text "seed="; Num (seed (go_config o)); Text " generated=";
   Num (generated_events (gen_stats w)); Text " emitted="; Num (Zlength (events w));
   Text " dropped="; Num (dropped_events (gen_stats w)); Text " duplicated=";
   Num (duplicated_events (gen_stats w)); Text " reordered_pairs=";
   Num (reordered_pairs (gen_stats w)); Text " hash="; Text (format_hash (gen_hash w));
   Text newline].

(** What follows [publisher.publish]. *)
Definition generator_finish (out : output) (target_ : string) (report : PublishReport) : Exit :=
  let producer_out r :=
    [Text "producer="; Text (pr_producer_id r); Text " attempted="; Num (pr_attempted_events r);
     Text " written="; Num (pr_written_events r); Text " accepted="; Num (pr_accepted_events r);
     Text " gaps="; Num (pr_sequence_gaps r); Text " grpc_status="; Num (pr_grpc_status_code r)] ++
    (if str_empty (pr_error_message r) then []
     else [Text " error="; Text quote; Text (pr_error_message r); Text quote]) ++
    [Text newline] in
  exit_with (if report_succeeded report then 0 else 3)
    (out ++ concat (producer_out <$> report) ++
     [Text "publish_target="; Text target_; Text " producers="; Num (Zlength report);
      Text " attempted="; Num (attempted_events report); Text " accepted=";
      Num (accepted_events report); Text " result=";
      Text (yes_no (report_succeeded report) "success" "failed"); Text newline]).

(** How [run_generator] ends, or, when the schedule given leaves some of the
    publisher's threads unfinished, the state it waits in. *)
Inductive generator_run (N : Type) :=
  | Gen_exit (e : Exit)
  | Gen_publishing (out : output) (target_ : string) (s : publish_state N).
Arguments Gen_exit {N} _.
Arguments Gen_publishing {N} _ _ _.

Definition generator_error (out : output) (msg : string) : Exit :=
  {| exit_code := 2; std_out := out; std_err := [Text "Generator error: "; Text msg; Text newline] |}.

(** [run_generator] on the arguments from [argv[2]] on, the publisher's threads
    taking turns by [schedule]; [None]: not enough fuel. *)
Definition run_generator {E N} `{!RandomEngine E} `{!EventCodec} `{!GrpcChannel N}
    (state_name : Z -> string) (fuel : nat) (schedule : list (option nat))
    (args : list string) (n : N) : option (generator_run N) :=
  match option_loop generator_flag set_generator_option args GeneratorOptions_default with
  | inl msg => Some (Gen_exit (generator_error [] msg))
  | inr Parsed_help => Some (Gen_exit (exit_with 0 print_generator_help))
  | inr (Parsed_options o) =>
      match Generator.run_generator state_name fuel (go_config o) with
      | No_fuel => None
      | Throws msg => Some (Gen_exit (generator_error [] msg))
      | Returns w =>
          let out := generated_output o w in
          return_if str_empty (go_target o) with Some (Gen_exit (exit_with 0 out)) ;;
          let publisher :=
            {| target := go_target o; connect_timeout := go_connect_timeout o |} in
          match publisher_config_error publisher with
          | Some msg => Some (Gen_exit (generator_error out msg))
          | None =>
              match publish publisher (events w) n with
              | inl report => Some (Gen_exit (generator_finish out (go_target o) report))
              | inr s =>
                  let s := follow s schedule in
                  return_if negb (bool_decide (all_joined s)) with
                    Some (Gen_publishing out (go_target o) s) ;;
                  Some (Gen_exit (generator_finish out (go_target o) (report s)))
              end
          end
      end
  end.

(** ** [collect] *)

Record CollectorOptions := {
  listen_address : string;
  queue_capacity : Z;
  consumer_delay : Z;          (* microseconds *)
  output_path : string;
  collector_flush_every : Z;
}.

Definition CollectorOptions_default : CollectorOptions :=
  {| listen_address := "0.0.0.0:50051"; queue_capacity := 4096; consumer_delay := 0;
     output_path := ""; collector_flush_every := 64 |}.

Definition collector_flag (o : CollectorOptions) (name : string) : option CollectorOptions := None.

Definition set_collector_option (o : CollectorOptions) (name value : string)
    : Throwing CollectorOptions :=
  if (name =? "--listen")%string then
    inr {| listen_address := value; queue_capacity := queue_capacity o;
           consumer_delay := consumer_delay o; output_path := output_path o;
           collector_flush_every := collector_flush_every o |}
  else if (name =? "--queue-capacity")%string then
    capacity ← parse_within uint64_type 1 1000000 "queue capacity must be between 1 and 1000000"
      value name;
    inr {| listen_address := listen_address o; queue_capacity := capacity;
           consumer_delay := consumer_delay o; output_path := output_path o;
           collector_flush_every := collector_flush_every o |}
  else if (name =? "--consumer-delay-us")%string then
    delay ← parse_within int64_type 0 10000000 "consumer delay must be between 0 and 10000000 us"
      value name;
    inr {| listen_address := listen_address o; queue_capacity := queue_capacity o;
           consumer_delay := delay; output_path := output_path o;
           collector_flush_every := collector_flush_every o |}
  else if (name =? "--output")%string then
    return_if str_empty value with inl "output path cannot be empty"%string ;;
    inr {| listen_address := listen_address o; queue_capacity := queue_capacity o;
           consumer_delay := consumer_delay o; output_path := value;
           collector_flush_every := collector_flush_every o |}
  else if (name =? "--flush-every")%string then
    flush_every ← parse_within uint64_type 1 1000000 "flush interval must be between 1 and 1000000"
      value name;
    inr {| listen_address := listen_address o; queue_capacity := queue_capacity o;
           consumer_delay := consumer_delay o; output_path := output_path o;
           collector_flush_every := flush_every |}
  else inl ("unknown collector option: " +:+ name).

(** The [try] block of [run_collector]. *)
Definition collector_options (args : list string) : Throwing (Parsed CollectorOptions) :=
  parsed ← option_loop collector_flag set_collector_option args CollectorOptions_default;
  match parsed with
  | Parsed_help => inr Parsed_help
  | Parsed_options o =>
      return_if negb (str_empty (output_path o)) && (0 <? consumer_delay o) with
        inl "consumer delay cannot be combined with file recording"%string ;;
      inr (Parsed_options o)
  end.

(** [CountingConsumer], or the recorder. *)
Inductive collector_consumer :=
  | Counting (counted : Z)
  | Recording (recorder : LogWriterConsumer).

Definition consumer_consume `{!EventCodec} (c : collector_consumer) (event : CollectedEvent)
    : bool * collector_consumer :=
  match c with
  | Counting counted => (true, Counting (u64 (counted + 1)))
  | Recording recorder =>
      let '(ok, recorder) := LogWriterConsumer_consume recorder event in (ok, Recording recorder)
  end.

#[export] Instance collector_consumer_consumer `{!EventCodec} :
  TelemetryConsumer collector_consumer := { consume := consumer_consume }.

(** [options.listen_address.ends_with(":0")] *)
Definition ends_with (suffix s : string) : bool :=
  let n := (String.length s - String.length suffix)%nat in
  (String.length suffix <=? String.length s)%nat &&
  (String.substring n (String.length suffix) s =? suffix)%string.

(** [run_collector] up to the point where the server serves: the exit and the
    files it leaves (the recorder is destroyed), or the options, the consumer behind the sink and what was printed. [server] is what
    [BuildAndStart] yields: the selected port, if it starts. *)
Definition collector_start `{!EventCodec} (fs : filesystem) (script : list IoOutcome) (now : Z)
    (server : option Z) (args : list string)
    : Exit * filesystem + CollectorOptions * collector_consumer * output :=
  match collector_options args with
  | inl msg => inl (fail_with 2 [Text "Collector error: "; Text msg; Text newline], fs)
  | inr Parsed_help => inl (exit_with 0 print_collector_help, fs)
  | inr (Parsed_options o) =>
      let recorder := LogWriterConsumer_new fs script now (output_path o)
        {| flush_every_records := collector_flush_every o; opt_created_unix_ns := 0 |} in
      let left_ := if str_empty (output_path o) then fs
                   else with_files fs (files_closed fs (writer_ recorder)) in
      return_if negb (str_empty (output_path o)) && negb (LogWriterConsumer_good recorder) with
        inl (fail_with 1 [Text "Collector error: "; Text (LogWriterConsumer_error recorder); Text newline],
             left_) ;;
      match server with
      | None =>
          inl (fail_with 1 [Text "Failed to start collector on "; Text (listen_address o); Text newline],
               left_)
      | Some selected_port =>
          inr (o, if str_empty (output_path o) then Counting 0 else Recording recorder,
            [Text "TraceForge collector listening on "; Text (listen_address o)] ++
            (if ends_with ":0" (listen_address o)
             then [Text " (selected port "; Num selected_port; Text ")"] else []) ++
            [Text "; queue_capacity="; Num (queue_capacity o); Text "; overload_policy=reject_stream"] ++
            (if str_empty (output_path o) then []
             else [Text "; output="; Text (output_path o); Text "; flush_every=";
                   Num (collector_flush_every o)]) ++
            [Text newline])
      end
  end.

(** The rest of [run_collector], once [sink.shutdown()] has returned in state [s]:
    the exit and the consumer after the flush. [signal] is [g_shutdown_signal]. *)
Definition collector_finish (signal : Z) (out : output) (s : sink_state collector_consumer)
    : Exit * collector_consumer :=
  let '(flushed, c) :=
    match consumer_ s with
    | Counting counted => (true, Counting counted)
    | Recording recorder =>
        let '(ok, recorder) := LogWriterConsumer_flush recorder in (ok, Recording recorder)
    end in
  let error := match c with Recording recorder => LogWriterConsumer_error recorder | _ => ""%string end in
  return_if negb flushed with
    ({| exit_code := 1; std_out := out;
        std_err := [Text "Failed to flush recording: "; Text error; Text newline] |}, c) ;;
  let stats := ingestion_stats s in
  (exit_with 0 (out ++
     [Text "collector_shutdown="; Text (yes_no (signal =? 0) "server" "signal");
      Text " signal="; Num signal; Text " accepted="; Num (accepted_items (stats_queue stats));
      Text " rejected="; Num (rejected_items (stats_queue stats)); Text " consumed=";
      Num (stats_consumed_events stats); Text " queue_high_watermark=";
      Num (high_watermark (stats_queue stats)); Text " consumer_failures=";
      Num (stats_consumer_failures stats); Text newline]), c).

(** ** [main] *)

(** How [main] goes on: it returns, or a command waits for its threads. *)
Inductive main_run (N : Type) :=
  | Main_exit (e : Exit) (fs : filesystem)
  | Main_publishing (out : output) (target_ : string) (s : publish_state N)
  | Main_serving (o : CollectorOptions) (c : collector_consumer) (out : output).
Arguments Main_exit {N} _ _.
Arguments Main_publishing {N} _ _ _.
Arguments Main_serving {N} _ _ _.

Section main.
Context {E N : Type} `{!RandomEngine E} `{!EventCodec} `{!GrpcChannel N}.
Context (state_name : Z -> string) (kVersion : string) (ld_prec ld_emax : Z).

(** [main] on the arguments from [argv[1]] on. *)
Definition main (fuel : nat) (fs : filesystem) (script : list IoOutcome) (now : Z)
    (server : option Z) (n : N) (schedule : list (option nat)) (argv : list string)
    : option (main_run N) :=
  let one args (command : string -> option (main_run N)) (usage : string) :=
    match args with
    | [path] => command path
    | _ => Some (Main_exit (fail_with 2 [Text usage; Text newline]) fs)
    end in
  match argv with
  | [] => Some (Main_exit (exit_with 0 print_help) fs)
  | argument :: args =>
      if (argument =? "--help")%string || (argument =? "-h")%string then
        Some (Main_exit (exit_with 0 print_help) fs)
      else if (argument =? "--version")%string then
        Some (Main_exit (exit_with 0
          [Text project_name; Text " "; Text kVersion; Text newline]) fs)
      else if (argument =? "collect")%string then
        Some match collector_start fs script now server args with
             | inl (e, fs') => Main_exit e fs'
             | inr (o, c, out) => Main_serving o c out
             end
      else if (argument =? "generate")%string then
        run ← run_generator state_name fuel schedule args n;
        Some match run with
             | Gen_exit e => Main_exit e fs
             | Gen_publishing out target_ s => Main_publishing out target_ s
             end
      else if (argument =? "inspect")%string then
        one args (fun path => e ← run_inspect fs path; Some (Main_exit e fs))
          "Usage: traceforge inspect FILE"%string
      else if (argument =? "recover")%string then
        one args (fun path => '(e, fs') ← run_recover fs path; Some (Main_exit e fs'))
          "Usage: traceforge recover FILE"%string
      else if (argument =? "analyze")%string then
        one args (fun path => e ← run_analyze ld_prec ld_emax fs path; Some (Main_exit e fs))
          "Usage: traceforge analyze FILE"%string
      else if (argument =? "replay")%string then
        e ← run_replay fs args; Some (Main_exit e fs)
      else
        Some (Main_exit (fail_with 2
          ([Text "Unknown argument: "; Text argument; Text newline; Text newline] ++ print_help)) fs)
  end.
End main.
