(* ===== verification/Program.v ===== *)
(** * Program: what the commands of [traceforge] promise

    The options a command line can set stay in their ranges; [generate] always
    ends; [inspect], [analyze], [replay] and [recover] agree on which files are
    recordings; and the exit code 0 of [collect] vouches for the recording. *)
From Stdlib Require Import ZArith Lia SpecFloat.
From Stdlib Require Import Strings.Byte.
From stdpp Require Import base gmap strings list pretty.
From S2P Require Import Prelude Bytes Floats Telemetry Validation BoundedQueue QueuedSink.
From S2P Require Import Streams LogFormat LogWriter LogReader LogRecovery Recording Fnv Replay.
From S2P Require Import Random Generator Workload OrderedMap Publisher Ranks Analyzer Analysis.
From S2P Require Import Options Commands.
Local Open Scope Z_scope.
Local Open Scope tf_scope.

(** ** Options *)

(** What the initial options satisfy and every option preserves holds at the end. *)
Lemma option_loop_inv {A} (P : A -> Prop) flag set args : forall (o r : A),
  (forall o name o', P o -> flag o name = Some o' -> P o') ->
  (forall o name value o', P o -> set o name value = inr o' -> P o') ->
  P o -> option_loop flag set args o = inr (Parsed_options r) -> P r.
Proof.
  intros o r Hflag Hset. remember (length args) as n eqn:Hn.
  revert args o Hn. induction (lt_wf n) as [n _ IH]. intros args o -> Ho.
  destruct args as [|name args]; cbn [option_loop]; [by intros [= <-]|].
  destruct (_ || _); [done|]. destruct (flag o name) as [o'|] eqn:Hf.
  - intros Hl. eapply (IH (length args)); [cbn; lia|done| |exact Hl]. by eapply Hflag.
  - destruct args as [|value args]; [done|].
    destruct (set o name value) as [msg|o'] eqn:Hs; cbn [mbind throwing_bind]; [done|].
    intros Hl. eapply (IH (length args)); [cbn; lia|done| |exact Hl]. by eapply Hset.
Qed.

(** Takes the value of one option out of the equation of a [set] function. *)
Ltac read_value :=
  repeat match goal with
  | |- mbind _ ?x = inr _ -> _ => destruct x eqn:?; cbn [mbind throwing_bind]; [done|]
  | |- (if ?c then inl _ else _) = inr _ -> _ => destruct c; [done|]
  end; try done; intros [= <-].

(** Splits the equation of a [set] function by option. *)
Ltac read_option :=
  lazymatch goal with
  | |- (if ?c then inl _ else _) = inr _ -> _ => read_value
  | |- (if ?c then _ else _) = inr _ -> _ => destruct c; [read_value|read_option]
  | _ => try done
  end.

(** Turns what the parsers returned into ranges. *)
Ltac parsed_ranges :=
  repeat match goal with
  | H : parse_integer _ _ _ = inr _ |- _ => apply parse_integer_range in H; cbn in H
  | H : parse_within _ _ _ _ _ _ = inr _ |- _ => apply parse_within_range in H
  end.

(** The options of [generate]. *)
Record generator_options_ok (o : GeneratorOptions) : Prop := {
  go_wf : config_wf (go_config o);
  go_seed : in_u64 (seed (go_config o));
  go_duration : 1000000 <= duration (go_config o) <= 3600000 * 1000000;
  go_jitter : 0 <= max_jitter (go_config o) <= 3600000000 * 1000;
  go_rates : rates (go_config o) = SensorRates_default;
  go_timeout : 1 <= go_connect_timeout o <= 60000;
}.

Lemma generator_options_sound args o :
  option_loop generator_flag set_generator_option args GeneratorOptions_default =
    inr (Parsed_options o) -> generator_options_ok o.
Proof.
  apply option_loop_inv.
  - intros o1 name o2 [Hwf Hseed Hd Hj Hr Ht]. unfold generator_flag. case_if; [|done].
    intros [= <-]. by constructor.
  - intros o1 name value o2 [(W1 & W2 & W3 & W4) Hseed Hd Hj Hr Ht]. unfold set_generator_option.
    cbv zeta. read_option; parsed_ranges;
      (constructor; [split_and!| | | | |]);
      cbn [go_config go_connect_timeout seed duration max_jitter clock_drift_ppm rates
        with_config with_faults]; first [assumption | unfold in_s64, in_u64; lia].
  - constructor; [split_and!| | | | |]; [solve_range..| |solve_range|solve_range|solve_range|
      reflexivity|solve_range].
    cbn. repeat (apply Forall_cons; split; [solve_range|]). constructor.
Qed.

Lemma replay_options_sound args o :
  option_loop replay_flag set_replay_option args ReplayCommand_default = inr (Parsed_options o) ->
  isfinite (speed (rc_options o)) = true /\ dlt (speed (rc_options o)) (double_of_Z 0) = false.
Proof.
  apply (option_loop_inv (fun o => isfinite (speed (rc_options o)) = true /\
    dlt (speed (rc_options o)) (double_of_Z 0) = false)).
  - intros o1 name o2 Ho. unfold replay_flag. case_if; [|done]. by intros [= <-].
  - intros o1 name value o2 Ho. unfold set_replay_option. cbv zeta. read_option; cbn; try done.
    by eapply parse_speed_range.
  - by vm_compute.
Qed.

(** The options of [collect]. *)
Record collector_options_ok (o : CollectorOptions) : Prop := {
  cl_capacity : 1 <= queue_capacity o <= 1000000;
  cl_delay : 0 <= consumer_delay o <= 10000000;
  cl_flush : 1 <= collector_flush_every o <= 1000000;
}.

Lemma collector_options_sound args o :
  collector_options args = inr (Parsed_options o) ->
  collector_options_ok o /\ (output_path o <> ""%string -> consumer_delay o = 0).
Proof.
  unfold collector_options.
  destruct (option_loop _ _ args _) as [msg|[|o']] eqn:Hl; cbn [mbind throwing_bind]; try done.
  destruct (_ && _) eqn:Hc; [done|]. intros [= ->].
  assert (Hok : collector_options_ok o).
  { revert Hl. apply option_loop_inv; [done| |by constructor; cbn].
    intros o1 name value o2 [H1 H2 H3]. unfold set_collector_option. read_option; parsed_ranges;
      constructor; cbn; lia. }
  split; [done|]. intros Hp. destruct Hok as [_ Hd _].
  unfold str_empty in Hc. rewrite bool_decide_eq_false_2 in Hc by done. cbn in Hc.
  apply Z.ltb_ge in Hc. lia.
Qed.

(** ** The tools on files *)

Section tools.
Context `{!EventCodec}.

Lemma inspect_code fs path r : read_log fs path LogReadOptions_default = Some r ->
  exists e, run_inspect fs path = Some e /\
    exit_code e = if bool_decide (status r = Log_complete) then 0 else 3.
Proof. intros Hr. unfold run_inspect. rewrite Hr. by eexists. Qed.

Lemma analyze_code ld_prec ld_emax fs path data r : readable_file fs path data ->
  read_log fs path LogReadOptions_default = Some r ->
  exists e, run_analyze ld_prec ld_emax fs path = Some e /\
    exit_code e = if bool_decide (status r = Log_complete) then 0 else 3.
Proof.
  intros [Hf Hs Ho Hlen] Hr. unfold run_analyze, analyze_log.
  change {| maximum_records := 1000000; retain_records := true |} with LogReadOptions_default.
  rewrite Hr. cbn [mbind option_bind].
  destruct (read_log_vouches fs path LogReadOptions_default data Hf Hs Ho Hlen ltac:(done))
    as (r' & Hr' & _ & Hcase). rewrite Hr in Hr'. injection Hr' as <-.
  destruct (bool_decide (status r = Log_complete)) eqn:Hc; cbn [negb].
  2: { cbn [an_status]. by eexists. }
  apply bool_decide_eq_true in Hc.
  destruct Hcase as [(_ & Hcor & _)|(hdr & l & _ & _ & Hl & _ & _ & _ & Hrec & _)]; [congruence|].
  cbn [maximum_records retain_records LogReadOptions_default] in Hl, Hrec.
  assert (Hrl : Zlength (records r) = Zlength l) by (by rewrite Hrec, stored_records_length).
  destruct (complete_report_some ld_prec ld_emax r ltac:(lia)) as (fin & delta & _ & _ & ->).
  cbn [option_bind an_status]. by eexists.
Qed.

(** A complete log, as the engine wants it, and back. *)
Lemma complete_intact fs path data options r : readable_file fs path data ->
  Zlength data < 2 ^ 63 -> 0 <= maximum_records options ->
  read_log fs path options = Some r -> status r = Log_complete ->
  exists hdr l, intact_log fs path hdr l (maximum_records options).
Proof.
  intros [Hf Hs Ho Hlen] Hsize Hmax Hr Hc.
  destruct (read_log_vouches fs path options data Hf Hs Ho Hlen Hmax)
    as (r' & Hr' & _ & Hcase). rewrite Hr in Hr'. injection Hr' as <-.
  destruct Hcase as [(_ & Hcor & _)|(hdr & l & Hh & Hl & Hm & _ & _ & _ & _ & Hd)]; [congruence|].
  apply Hd in Hc. subst data. exists hdr, l. by constructor.
Qed.

Lemma intact_complete fs path hdr l options :
  intact_log fs path hdr l (maximum_records options) ->
  exists r, read_log fs path options = Some r /\ status r = Log_complete.
Proof.
  intros [Hf Hs Ho Hh Hl Hsize Hmax]. unfold read_log, fs_file_size, fs_open_read.
  rewrite Hs, Ho, Hf. cbn [fmap option_fmap option_map].
  eexists. split; [apply read_log_whole; try done; lia|done].
Qed.

Lemma engine_refuses fs path data r : readable_file fs path data -> Zlength data < 2 ^ 63 ->
  read_log fs path LogReadOptions_default = Some r -> status r <> Log_complete ->
  exists e, ReplayEngine_new fs path 1000000 = Some e /\ engine_good e = false.
Proof.
  intros Hf Hsize Hr Hc.
  set (options := {| maximum_records := 1000000; retain_records := false |}).
  destruct (read_log_some fs path data options Hf) as [r' Hr'].
  unfold ReplayEngine_new. fold options. rewrite Hr'.
  destruct (decide (status r' = Log_complete)) as [Hc'|Hc'].
  { destruct (complete_intact fs path data options r' Hf Hsize ltac:(done) Hr' Hc')
      as (hdr & l & Hi).
    destruct (intact_complete fs path hdr l LogReadOptions_default Hi) as (r2 & Hr2 & Hc2).
    congruence. }
  rewrite bool_decide_eq_false_2 by done. cbn [negb]. by eexists.
Qed.

Lemma replay_code fs path data args o r : readable_file fs path data -> Zlength data < 2 ^ 63 ->
  option_loop replay_flag set_replay_option args ReplayCommand_default = inr (Parsed_options o) ->
  options_ok (rc_options o) ->
  read_log fs path LogReadOptions_default = Some r ->
  exists e, run_replay fs (path :: args) = Some e /\
    exit_code e = if bool_decide (status r = Log_complete) then 0 else 3.
Proof.
  intros Hf Hsize Hargs Hopt Hr. unfold run_replay. rewrite Hargs.
  destruct (decide (status r = Log_complete)) as [Hc|Hc].
  - rewrite bool_decide_eq_true_2 by done.
    destruct (complete_intact fs path data LogReadOptions_default r Hf Hsize ltac:(done) Hr Hc)
      as (hdr & l & Hi).
    destruct Hi as [H1 H2 H3 H4 H5 H6 H7].
    pose proof (engine_of_log fs path hdr l 1000000 H1 H2 H3 H4 H5 H6 H7) as He.
    rewrite He. cbn [mbind option_bind]. set (e := {| re_path := path |}) in *.
    set (consumer := if rc_print_events o then _ else _).
    destruct (replay e (fs_open_read fs path) (rc_options o) consumer []) as [[result out] sleeps]
      eqn:Hrep.
    destruct (intact_replay fs path hdr l 1000000 e (rc_options o) consumer []
      ltac:(by constructor) He Hopt) as [_ Hd].
    cbv zeta in Hd. rewrite Hrep in Hd. apply (f_equal (fun x => fst (fst x))) in Hd.
    cbn [fst] in Hd.
    eexists. split; [reflexivity|]. cbn [exit_code exit_with].
    replace (rr_status result) with Replay_complete; [done|].
    rewrite Hd, deliver_complete.
    + done.
    + intros c record. unfold consumer. by destruct (rc_print_events o).
    + solve_range.
  - rewrite bool_decide_eq_false_2 by done.
    destruct (engine_refuses fs path data r Hf Hsize Hr Hc) as (e & -> & Hg).
    cbn [mbind option_bind]. unfold replay. rewrite Hg. cbn [negb]. by eexists.
Qed.

Lemma recover_code fs path data r : readable_file fs path data ->
  read_log fs path LogReadOptions_default = Some r ->
  exists e fs', run_recover fs path = Some (e, fs') /\
    (exit_code e = 0 \/ exit_code e = 3) /\
    (exit_code e = 3 -> fs' = fs) /\
    (status r = Log_complete -> exit_code e = 0 /\ fs' = fs) /\
    (exit_code e = 0 -> exists data' r', readable_file fs' path data' /\ data' `prefix_of` data /\
       read_log fs' path LogReadOptions_default = Some r' /\ status r' = Log_complete /\
       records r' = records r).
Proof.
  intros Hf Hr. unfold run_recover, recover_truncated_tail. rewrite Hr.
  destruct (decide (status r = Log_complete)) as [Hc|Hc].
  { rewrite bool_decide_eq_true_2 by done. cbn. do 2 eexists. split; [done|].
    cbn. split_and!; try done; [by left|]. intros _. by exists data, r. }
  rewrite (bool_decide_eq_false_2 (status r = Log_complete)) by done.
  destruct (negb (bool_decide _) || _) eqn:Hg.
  { cbn. do 2 eexists. split; [done|]. cbn. split_and!; try done. by right. }
  apply orb_false_iff in Hg as [Ht _]. apply negb_false_iff, bool_decide_eq_true in Ht.
  destruct (resize_error fs path) eqn:Hres.
  { unfold fs_resize. rewrite Hres. cbn. do 2 eexists. split; [done|]. cbn.
    split_and!; try done. by right. }
  destruct (truncated_tail_cut fs path data LogReadOptions_default r Hf ltac:(done) Hr Ht Hres)
    as (data' & fs' & r' & Hres' & Hfiles & Hpre & _ & Hlen & Hr' & Hc' & _ & _ & Hrec).
  rewrite Hres'. cbn. do 2 eexists. split; [done|]. cbn. split_and!; try done; [by left|].
  intros _. exists data', r'. split_and!; try done.
  destruct Hf as [_ Hs Ho Hl]. unfold fs_resize in Hres'. rewrite Hres in Hres'.
  destruct (files fs !! path); [|done]. injection Hres' as <-.
  constructor; [by rewrite Hfiles, lookup_insert_eq|done|done|].
  apply prefix_length in Hpre. lia.
Qed.
End tools.

(** ** The command [generate] *)

Section generate.
Context {E N : Type} `{!RandomEngine E} `{!EventCodec} `{!GrpcChannel N}.
Context (state_name : Z -> string).
Context (Hname : forall state, str_size (state_name state) <= kMaxDetailBytes).
Context (Hser : forall ev, event_valid ev -> is_Some (SerializeToString ev)).
Context (Hfair : forall sd, in_u64 sd -> fair (seed_engine sd)).

(** What [run_generator] does with a workload. *)
Definition after_generation (o : GeneratorOptions) (w : GeneratedWorkload)
    (schedule : list (option nat)) (n : N) : generator_run N :=
  let out := generated_output o w in
  if str_empty (go_target o) then Gen_exit (exit_with 0 out)
  else match publish {| target := go_target o; connect_timeout := go_connect_timeout o |}
               (events w) n with
       | inl report => Gen_exit (generator_finish out (go_target o) report)
       | inr s =>
           if bool_decide (all_joined (follow s schedule))
           then Gen_exit (generator_finish out (go_target o) (report (follow s schedule)))
           else Gen_publishing out (go_target o) (follow s schedule)
       end.

Lemma publisher_accepts o : generator_options_ok o -> str_empty (go_target o) = false ->
  publisher_config_error
    {| target := go_target o; connect_timeout := go_connect_timeout o |} = None.
Proof.
  intros Hok He. pose proof (go_timeout _ Hok). unfold publisher_config_error.
  cbn [target connect_timeout]. rewrite He.
  by destruct (Z.leb_spec (go_connect_timeout o) 0); [lia|].
Qed.

Lemma generate_options_run schedule args o n :
  option_loop generator_flag set_generator_option args GeneratorOptions_default =
    inr (Parsed_options o) ->
  validate_config (go_config o) = None ->
  exists w, runs_to state_name (go_config o) w /\
    exists fuel, forall f, (fuel <= f)%nat ->
      run_generator state_name f schedule args n = Some (after_generation o w schedule n).
Proof.
  intros Hargs Hvalid. pose proof (generator_options_sound _ _ Hargs) as Hok.
  destruct (run_exists state_name Hname Hser (go_config o) (go_wf _ Hok) Hvalid
    (Hfair _ (go_seed _ Hok))) as (w & Hrun & _).
  exists w. split; [done|]. destruct Hrun as [fuel Hrun]. exists fuel. intros f Hf.
  unfold run_generator, after_generation. rewrite Hargs, (Hrun f Hf).
  destruct (str_empty (go_target o)) eqn:He; [done|].
  rewrite publisher_accepts by done. destruct (publish _ _ n) as [?|s]; [done|].
  cbv zeta. by destruct (bool_decide (all_joined (follow s schedule))).
Qed.

(** Every producer's events were written without a failure and in order, and its
    call ended with [OK] and a summary that counts them all. *)
Definition all_delivered (evs : list TelemetryEvent) (tr : list (nat * grpc_call)) : Prop :=
  forall i g, group_by_producer evs !! i = Some g -> exists status summary,
    calls_of i tr = C_open :: ((fun ev => C_write ev true) <$> pe_events g) ++
      [C_writes_done; C_finish status summary] /\
    error_code status = GRPC_OK /\
    summary_accepted_events summary = Zlength (pe_events g).

Lemma finish_code out target_ report :
  exit_code (generator_finish out target_ report) = (if report_succeeded report then 0 else 3) /\
  out `prefix_of` std_out (generator_finish out target_ report).
Proof.
  split; [by unfold generator_finish; destruct (report_succeeded report)|].
  unfold generator_finish. cbn [std_out exit_with]. by apply prefix_app_r.
Qed.

(** The report [publish] returns without a thread. *)
Lemma early_report config evs (n : N) report : publish config evs n = inl report ->
  (report_succeeded report = true <-> evs = []).
Proof.
  unfold publish. pose proof (group_total evs) as Htot.
  assert (Hnil : group_by_producer evs = [] <-> evs = []).
  { split; [intros Hg; rewrite Hg in Htot; by apply Permutation_nil_l in Htot|by intros ->]. }
  case_bool_decide as Hg; [intros [= <-]; rewrite Hg; cbn; tauto|].
  destruct (WaitForConnected _ _) as [[] n']; cbn [negb]; [done|]. intros [= <-].
  destruct (group_by_producer evs) as [|g gs]; [done|]. split; [done|].
  intros Hevs. by apply Hnil in Hevs.
Qed.

(** What is left to say of a run with a target. *)
Definition publishing_outcome (o : GeneratorOptions) (w : GeneratedWorkload)
    (schedule : list (option nat)) (n : N) (r : generator_run N) : Prop :=
  let config := {| target := go_target o; connect_timeout := go_connect_timeout o |} in
  match r with
  | Gen_exit e =>
      generated_output o w `prefix_of` std_out e /\
      (exit_code e = 0 \/ exit_code e = 3) /\
      (exit_code e = 0 <-> events w = [] \/ exists s0 k tr,
         publish config (events w) n = inr s0 /\
         publish_steps s0 k tr (follow s0 schedule) /\ all_joined (follow s0 schedule) /\
         all_delivered (events w) tr)
  | Gen_publishing out target_ s =>
      out = generated_output o w /\ target_ = go_target o /\
      (exists turn s', turn_step turn s = Some s') /\
      (forall turn s', turn_step turn s = Some s' -> (work s' < work s)%nat)
  end.

Lemma publishing_outcome_holds o w schedule n : str_empty (go_target o) = false ->
  Zlength (events w) < 2 ^ 64 ->
  publishing_outcome o w schedule n (after_generation o w schedule n).
Proof.
  intros Ht Hlen. unfold after_generation, publishing_outcome. rewrite Ht.
  set (config := {| target := _ |}).
  destruct (publish config (events w) n) as [rep|s0] eqn:Hp.
  - destruct (finish_code (generated_output o w) (go_target o) rep) as [-> Hout].
    pose proof (early_report config (events w) n rep Hp) as Hr. split; [done|].
    destruct (report_succeeded rep); (split; [by auto|]); split; try done.
    + intros _. left. by apply Hr.
    + intros [He|(s0 & k & tr & [=] & _)]. by apply Hr in He.
  - pose proof (publish_init_inv config (events w) n s0 Hp) as Hinv0.
    case_bool_decide as Hj.
    + destruct (finish_code (generated_output o w) (go_target o) (report (follow s0 schedule)))
        as [-> Hout]. split; [done|].
      assert (Hne : events w <> []) by (intros He; rewrite He in Hp; done).
      assert (Hexact : forall k tr, publish_steps s0 k tr (follow s0 schedule) ->
        (report_succeeded (report (follow s0 schedule)) = true <-> all_delivered (events w) tr)).
      { intros k tr Hs.
        exact (proj1 (publish_success_exact config (events w) n s0 _ k tr Hp Hs Hj Hlen)). }
      split; [destruct (report_succeeded _); auto|]. split.
      * intros Hz. right. destruct (follow_steps schedule s0) as (k & tr & Hs).
        exists s0, k, tr. split_and!; [done..|].
        apply (Hexact k tr Hs). by destruct (report_succeeded _).
      * intros [He|(s1 & k & tr & [= <-] & Hs & _ & Hd)]; [done|].
        by rewrite (proj2 (Hexact k tr Hs) Hd).
    + split; [done|]. split; [done|]. destruct (follow_steps schedule s0) as (k & tr & Hs).
      pose proof (publish_steps_inv _ s0 k tr _ Hs Hinv0) as Hinv.
      split; [apply turn_left; [rewrite (si_threads _ _ _ Hinv); apply Hinv|done]|].
      intros turn s'. apply turn_work.
Qed.
End generate.

(** ** The command [collect] *)

Section collect.
Context `{!EventCodec}.

Lemma feed_recording r evs :
  feed (Recording r) evs = (fst (feed r evs), Recording (snd (feed r evs))).
Proof.
  revert r. induction evs as [|ev evs IH]; intros r; [done|].
  cbn [feed consume collector_consumer_consumer log_writer_consumer consumer_consume].
  destruct (LogWriterConsumer_consume r ev) as [ok r'].
  rewrite IH. by destruct (feed r' evs).
Qed.

Lemma run_appends_app l k : forall w,
  snd (run_appends w (l ++ k)) = snd (run_appends (snd (run_appends w l)) k).
Proof.
  induction l as [|[ev ts] l IH]; intros w; [done|]. cbn [app run_appends].
  destruct (append w ev ts) as [ok w1]. specialize (IH w1).
  destruct (run_appends w1 (l ++ k)), (run_appends w1 l). exact IH.
Qed.

(** The recorder once [shutdown] has returned: if its writer is still good, the
    consumer never failed and every event taken in was appended. *)
Lemma recorder_outcome r cap (s : sink_state collector_consumer) :
  reachable (Recording r) cap s -> shutter s = S_done ->
  exists w, consumer_ s = Recording {| writer_ := w |} /\
    (good w = true -> stats_consumer_failures (ingestion_stats s) = 0 /\
       exists oks, run_appends (writer_ r) (as_call <$> taken s) = (oks, w)).
Proof.
  intros Hs Hdone. pose proof (reachable_inv _ _ _ Hs) as [_ _ Hh _ _ _ _ _ _ Hsh _].
  unfold shutter_facts in Hsh. rewrite Hdone in Hsh. destruct Hsh as [_ [f Hwk]].
  unfold consumer_history in Hh. rewrite Hwk in Hh. cbn [in_flight failed] in Hh.
  destruct Hh as (d & Hd & Hcs & Hok). rewrite app_nil_r in Hd.
  rewrite feed_recording in Hcs. cbn [snd] in Hcs. rewrite feed_appends in Hcs. cbn [snd] in Hcs.
  exists (snd (run_appends (writer_ r) (as_call <$> d))). split; [done|]. intros Hg.
  destruct (shutdown_outcome _ _ _ Hs Hdone) as (_ & _ & [(Hf & _ & Hdt & _)|(Hf & good_ & ev & Hge & Hg1 & Hbad)]).
  - split; [done|]. rewrite <- Hdt, Hd. eexists. by rewrite <- surjective_pairing.
  - exfalso. rewrite Hge in Hd. subst d. revert Hg. rewrite fmap_app, run_appends_app.
    rewrite feed_recording, feed_appends in Hbad. cbn [snd consume collector_consumer_consumer consumer_consume] in Hbad.
    destruct (run_appends (writer_ r) (as_call <$> good_)) as [oks w1]. cbn [snd fst] in *.
    unfold LogWriterConsumer_consume in Hbad. cbn [writer_ fmap list_fmap as_call run_appends] in *.
    destruct (append w1 (event ev) (collector_arrival_timestamp_ns ev)) as [ok w2] eqn:Ha.
    cbn [fst snd] in *. subst ok. by rewrite (append_good _ _ _ _ _ Ha).
Qed.

(** What [run_collector] has set up when it serves with a recording. *)
Lemma collector_started fs script now server args o c0 out :
  collector_start fs script now server args = inr (o, c0, out) -> output_path o <> ""%string ->
  let options := {| flush_every_records := collector_flush_every o; opt_created_unix_ns := 0 |} in
  collector_options_ok o /\
  c0 = Recording (LogWriterConsumer_new fs script now (output_path o) options) /\
  good (LogWriter_new fs script now (output_path o) options) = true.
Proof.
  intros Hstart Hp options. unfold collector_start in Hstart.
  destruct (collector_options args) as [msg|[|o']] eqn:Hargs; try done.
  assert (Ho : o' = o).
  { revert Hstart. destruct (negb (str_empty (output_path o')) && _); [done|].
    destruct server; [|done]. by intros [= -> _ _]. }
  subst o'. apply collector_options_sound in Hargs as [Hok _]. split; [done|].
  revert Hstart. unfold str_empty. rewrite !bool_decide_eq_false_2 by done. cbn [negb andb].
  fold options. destruct (LogWriterConsumer_good _) eqn:Hg; cbn [negb]; [|done].
  destruct server; [|done]. by intros [= <- _].
Qed.

(** The finish, by what the flush of the recorder answers. *)
Lemma collector_finish_code signal out (s : sink_state collector_consumer) w :
  consumer_ s = Recording {| writer_ := w |} ->
  collector_finish signal out s =
    (fst (collector_finish signal out s), Recording {| writer_ := snd (flush w) |}) /\
  exit_code (fst (collector_finish signal out s)) = if fst (flush w) then 0 else 1.
Proof.
  intros Hc. unfold collector_finish. rewrite Hc. unfold LogWriterConsumer_flush. cbn [writer_].
  by destruct (flush w) as [[] w'].
Qed.

End collect.

(** ** Properties *)

(** C38: what becomes of a [generate] command, whatever the arguments, whatever
    gRPC answers and whatever turns the publisher's threads take. An argument it
    does not understand, or a configuration the generator refuses, ends it with
    code 2 and nothing on the standard output. Every other command line but
    [--help] generates a workload and prints it. Without a target that ends it
    with code 0. With one it publishes, with options the publisher never refuses:
    until all threads are joined one of them has a step to take, and every step
    brings the end closer; then the code is 0 exactly when there was nothing to
    publish or every producer's events were all written, in order, and its call
    ended with [OK] and a summary that counts them all, and 3 otherwise. *)
Theorem generate_command_outcome {E N} `{!RandomEngine E} `{!EventCodec} `{!GrpcChannel N}
    (state_name : Z -> string) (schedule : list (option nat)) (args : list string) (n : N)
    (Hname : forall state, str_size (state_name state) <= kMaxDetailBytes)
    (Hser : forall ev, event_valid ev -> is_Some (SerializeToString ev))
    (Hfair : forall sd, in_u64 sd -> fair (seed_engine sd)) :
  exists r, (exists fuel, forall f, (fuel <= f)%nat ->
    run_generator state_name f schedule args n = Some r) /\
  match option_loop generator_flag set_generator_option args GeneratorOptions_default with
  | inl msg => exists e, r = Gen_exit e /\ exit_code e = 2 /\ std_out e = []
  | inr Parsed_help => r = Gen_exit (exit_with 0 print_generator_help)
  | inr (Parsed_options o) =>
      generator_options_ok o /\
      match validate_config (go_config o) with
      | Some msg => exists e, r = Gen_exit e /\ exit_code e = 2 /\ std_out e = []
      | None => exists w, runs_to state_name (go_config o) w /\
          if str_empty (go_target o) then r = Gen_exit (exit_with 0 (generated_output o w))
          else publishing_outcome o w schedule n r
      end
  end.
Proof.
  destruct (option_loop _ _ args _) as [msg|[|o]] eqn:Hargs.
  - exists (Gen_exit (generator_error [] msg)). split; [|by eexists].
    exists 0%nat. intros f _. unfold run_generator. by rewrite Hargs.
  - exists (Gen_exit (exit_with 0 print_generator_help)). split; [|done]. exists 0%nat. intros f _. unfold run_generator. by rewrite Hargs.
  - pose proof (generator_options_sound _ _ Hargs) as Hok.
    destruct (validate_config (go_config o)) as [msg|] eqn:Hv.
    + exists (Gen_exit (generator_error [] msg)). split; [|split; [done|by eexists]].
      exists 0%nat. intros f _.
      unfold run_generator, Generator.run_generator. by rewrite Hargs, Hv.
    + destruct (generate_options_run state_name Hname Hser Hfair schedule args o n Hargs Hv)
        as (w & Hw & Hrun).
      exists (after_generation o w schedule n). split; [exact Hrun|]. split; [exact Hok|].
      exists w. split; [exact Hw|].
      destruct (str_empty (go_target o)) eqn:Ht; [by unfold after_generation; rewrite Ht|].
      apply publishing_outcome_holds; [done|].
      eapply workload_small; [exact Hname|exact Hser|apply Hok|exact Hv|apply Hfair, Hok|exact Hw].
Qed.

(** Exit code 0 vouches for the recording. When [collect --output] has served and
    its sink is shut down, [run_collector] ends with code 0 or 1. If it is 0, no
    consumer call failed, every accepted event is in the file, and nothing is left
    in the stream's buffer: even if the process dies right there, [inspect] on the
    file returns 0 and the file reads as exactly the accepted events with their
    arrival times, in queue order. *)
Theorem collector_exit_vouches `{!EventCodec} (wire_ok : TelemetryEvent -> Prop)
    `{!EventCodecLaws _ wire_ok} fs script now server args o c0 out signal
    (s : sink_state collector_consumer) (cut : nat)
    (Hstart : collector_start fs script now server args = inr (o, c0, out))
    (Hpath : output_path o <> ""%string) (Hnow : in_s64 now)
    (Hs : reachable c0 (queue_capacity o) s) (Hdone : shutter s = S_done)
    (Hok : session_ok wire_ok (as_call <$> taken s)) (Hmax : Zlength (taken s) <= 1000000) :
  let '(e, c) := collector_finish signal out s in
  (exit_code e = 0 \/ exit_code e = 1) /\
  (exit_code e = 0 ->
     stats_consumer_failures (ingestion_stats s) = 0 /\
     taken s ≡ₚ omap accepted_result (results s) ++ notifying (QueuedSink.producers s) /\
     exists w inspect r, c = Recording {| writer_ := w |} /\
       let fs' := with_files fs (files_after fs w cut) in
       run_inspect fs' (output_path o) = Some inspect /\ exit_code inspect = 0 /\
       read_log fs' (output_path o) LogReadOptions_default = Some r /\
       (fun r => (rec_event r, rec_collector_arrival_timestamp_ns r)) <$> records r =
         as_call <$> taken s).
Proof.
  destruct (collector_started _ _ _ _ _ _ _ _ Hstart Hpath) as (Hopt & -> & Hg0).
  set (options := {| flush_every_records := collector_flush_every o |}) in *.
  destruct (recorder_outcome _ _ s Hs Hdone) as (w & Hcs & Hgood).
  destruct (collector_finish_code signal out s w Hcs) as [-> Hcode].
  set (e := fst (collector_finish signal out s)) in *. clearbody e.
  split; [destruct (fst (flush w)); auto|]. intros Hzero.
  assert (Hfl : flush w = (true, snd (flush w)))
    by (destruct (flush w) as [[] w']; [done|cbn in Hcode; congruence]).
  destruct (good w) eqn:Hg.
  2: { pose proof (flush_not_good w Hg) as Hn. rewrite Hfl in Hn. done. }
  destruct (Hgood eq_refl) as (Hfail & oks & Hrun).
  destruct (good_session_file wire_ok fs script now (output_path o) options LogReadOptions_default
    (as_call <$> taken s) oks w) as (pairs & bs & Hrd & Hp & _ & _ & _ & _ & Hfiles & Hread); try done.
  { unfold session_fits. rewrite length_fmap. unfold kFileHeaderSize, kRecordHeaderSize,
      kMaximumPayloadSize. lia. }
  { pose proof (cl_flush _ Hopt). cbn. lia. }
  { by rewrite length_fmap. }
  split; [done|]. split; [by destruct (reachable_inv _ _ _ Hs)|].
  assert (Hlog : read_log (with_files fs (files_after fs (snd (flush w)) cut)) (output_path o)
      LogReadOptions_default =
    Some (log_result LogReadOptions_default (created_of now options) (Zlength bs) Log_complete 0
            "log is complete" pairs)).
  { rewrite (proj1 (flushed_files fs w (snd (flush w)) cut Hfl)).
    rewrite (read_log_closed fs script now (output_path o) options LogReadOptions_default bs);
      [exact Hread| |exact Hg0|rewrite Hfiles; apply lookup_insert_eq].
    pose proof (cl_flush _ Hopt). cbn. lia. }
  destruct (inspect_code _ _ _ Hlog) as (i & Hi & Hic).
  exists (snd (flush w)), i. eexists. split; [done|]. cbv zeta. split; [exact Hi|].
  split; [by rewrite Hic|]. split; [exact Hlog|].
  cbn [records log_result retain_records LogReadOptions_default]. by rewrite stored_records_events.
Qed.

#[local] Existing Instance steady_engine.
#[local] Existing Instance sequence_codec.
#[local] Existing Instance down_channel.

Lemma generate_command_outcome_witness :
  let args := ["--duration-ms"; "10"; "--seed"; "7"]%string in
  let options target_ :=
    {| go_config := {| seed := 7; duration := 10000000; max_jitter := 0;
         clock_drift_ppm := 0; rates := SensorRates_default;
         faults := FaultInjection_default |};
       go_print_events := false; go_target := target_; go_connect_timeout := 5000 |} in
  (exists w fuel, forall f, (fuel <= f)%nat ->
     run_generator sample_state_name f [] args tt =
       Some (Gen_exit (exit_with 0 (generated_output (options "") w)))) /\
  (exists w r fuel, (forall f, (fuel <= f)%nat ->
     run_generator sample_state_name f [None; Some 0%nat] (args ++ ["--target"; "here"]%string) tt =
       Some r) /\
     publishing_outcome (options "here") w [None; Some 0%nat] tt r).
Proof.
  intros args options. split.
  - destruct (generate_command_outcome sample_state_name [] args tt sample_state_name_short
      sequence_codec_total (fun sd _ => steady_fair _)) as (r & [fuel Hrun] & Hr).
    destruct Hr as (_ & w & _ & ->). exists w, fuel. exact Hrun.
  - destruct (generate_command_outcome sample_state_name [None; Some 0%nat]
      (args ++ ["--target"; "here"]%string) tt sample_state_name_short
      sequence_codec_total (fun sd _ => steady_fair _)) as (r & [fuel Hrun] & Hr).
    destruct Hr as (_ & w & _ & Hr). exists w, r, fuel. split; [exact Hrun|exact Hr].
Defined.

(** C12: the tools agree on what a recording is. On every readable file each of them
    ends with code 0 or 3; [inspect] returns 0 exactly for a file that is a header
    and the images of at most a million readable records, and [analyze] and every
    [replay] whose window is not empty return what [inspect] returns. [recover]
    changes nothing when it refuses or the log is complete; when it returns 0 the
    file is complete, has the records that were readable before, and [inspect]
    returns 0. *)
Theorem tools_agree {E N} `{!RandomEngine E} `{!EventCodec} `{!GrpcChannel N}
    (state_name : Z -> string) (kVersion : string) (ld_prec ld_emax : Z) (fuel : nat)
    (fs : filesystem) (script : list IoOutcome) (now : Z) (server : option Z) (n : N)
    (schedule : list (option nat)) (path : string) (data : bytes)
    (Hf : readable_file fs path data) (Hsize : Zlength data < 2 ^ 63) :
  let run fs argv :=
    main state_name kVersion ld_prec ld_emax fuel fs script now server n schedule argv in
  exists inspect analyze recover fs',
    run fs ["inspect"; path]%string = Some (Main_exit inspect fs) /\
    run fs ["analyze"; path]%string = Some (Main_exit analyze fs) /\
    run fs ["recover"; path]%string = Some (Main_exit recover fs') /\
    (exit_code inspect = 0 \/ exit_code inspect = 3) /\
    (exit_code inspect = 0 <-> exists hdr l, header_ok hdr /\ readables l /\
       Zlength l <= 1000000 /\ data = hdr ++ records_image 0 l.*1) /\
    exit_code analyze = exit_code inspect /\
    (forall args o,
       option_loop replay_flag set_replay_option args ReplayCommand_default =
         inr (Parsed_options o) ->
       match from_collector_timestamp_ns (rc_options o), until_collector_timestamp_ns (rc_options o) with
       | Some from, Some until => from < until | _, _ => True end ->
       exists e, run fs ("replay" :: path :: args)%string = Some (Main_exit e fs) /\
         exit_code e = exit_code inspect) /\
    (exit_code recover = 0 \/ exit_code recover = 3) /\
    (exit_code inspect = 0 \/ exit_code recover = 3 -> fs' = fs) /\
    (exit_code inspect = 0 -> exit_code recover = 0) /\
    (exit_code recover = 0 -> exists r r' e,
       read_log fs path LogReadOptions_default = Some r /\
       read_log fs' path LogReadOptions_default = Some r' /\ records r' = records r /\
       run fs' ["inspect"; path]%string = Some (Main_exit e fs') /\ exit_code e = 0).
Proof.
  intros run. destruct (read_log_some fs path data LogReadOptions_default Hf) as [r Hr].
  destruct (inspect_code fs path r Hr) as (i & Hi & Hic).
  destruct (analyze_code ld_prec ld_emax fs path data r Hf Hr) as (a & Ha & Hac).
  destruct (recover_code fs path data r Hf Hr) as (v & fs' & Hv & Hvc & Hv3 & Hvc0 & Hv0).
  assert (Hcomplete : exit_code i = 0 <-> status r = Log_complete)
    by (rewrite Hic; case_bool_decide; split; congruence).
  exists i, a, v, fs'. unfold run, main.
  cbn [String.eqb Ascii.eqb Bool.eqb orb]. rewrite Hi, Ha, Hv. cbn [mbind option_bind].
  split_and!; try done.
  - rewrite Hic. case_bool_decide; auto.
  - rewrite Hcomplete. split.
    + intros Hc. destruct (complete_intact fs path data LogReadOptions_default r Hf Hsize ltac:(done) Hr Hc)
        as (hdr & l & [H1 H2 H3 H4 H5 H6 H7]). exists hdr, l. split_and!; try done.
      destruct Hf as [Hf _ _ _]. congruence.
    + intros (hdr & l & H1 & H2 & H3 & ->).
      destruct (intact_complete fs path hdr l LogReadOptions_default) as (r' & Hr' & Hc); [|congruence].
      destruct Hf as [Hf Hs Ho _]. by constructor.
  - congruence.
  - intros args o Hargs Hw.
    destruct (replay_options_sound _ _ Hargs) as [Hfin Hpos].
    destruct (replay_code fs path data args o r Hf Hsize Hargs ltac:(by constructor) Hr)
      as (e & -> & He).
    exists e. split; [done|]. congruence.
  - intros [Hc|Hc]; [by apply Hvc0, Hcomplete|by apply Hv3].
  - intros Hc. by apply Hvc0, Hcomplete.
  - intros Hc. destruct (Hv0 Hc) as (data' & r' & _ & _ & Hr' & Hc' & Hrec).
    destruct (inspect_code fs' path r' Hr') as (e & He & Hec).
    exists r, r', e. rewrite He. split_and!; try done.
    by rewrite Hec, bool_decide_eq_true_2.
Qed.

Lemma tools_agree_witness :
  exists inspect replayed,
    main (N := unit) sample_state_name "0.1.0" 64 16384 0 sample_fs [] 0 None tt []
      ["inspect"; "run.tflog"]%string = Some (Main_exit inspect sample_fs) /\
    main (N := unit) sample_state_name "0.1.0" 64 16384 0 sample_fs [] 0 None tt []
      ["replay"; "run.tflog"; "--from-ns"; "-5"]%string = Some (Main_exit replayed sample_fs) /\
    exit_code replayed = exit_code inspect.
Proof.
  destruct (tools_agree sample_state_name "0.1.0" 64 16384 0 sample_fs [] 0 None tt [] "run.tflog"
    (sample_header ++ records_image 0 sample_log.*1))
    as (i & _ & _ & _ & Hi & _ & _ & _ & _ & _ & Hrep & _).
  - constructor; [apply lookup_insert_eq|done|done|by vm_compute].
  - by vm_compute.
  - destruct (Hrep ["--from-ns"; "-5"]%string
      {| rc_options := {| from_collector_timestamp_ns := Some (-5);
           until_collector_timestamp_ns := None; speed := double_of_Z 0 |};
         rc_print_events := false |}) as (e & He & Hc); [by vm_compute|done|].
    exists i, e. split; [exact Hi|]. split; [exact He|exact Hc].
Defined.

(** A collector that records the events of [QueuedSink.sample_schedule]. *)
Definition collect_args : list string :=
  ["--output"; "run.tflog"; "--queue-capacity"; "2"; "--flush-every"; "2"].

Definition collect_options : CollectorOptions :=
  {| listen_address := "0.0.0.0:50051"; queue_capacity := 2; consumer_delay := 0;
     output_path := "run.tflog"; collector_flush_every := 2 |}.

Abbreviation collect_start :=
  (@collector_start pipeline_codec (fs_of ∅) [] 77 (Some 50051) collect_args).

Definition collect_consumer : collector_consumer :=
  match collect_start with inr (_, c, _) => c | inl _ => Counting 0 end.

Definition collect_banner : output :=
  match collect_start with inr (_, _, out) => out | inl _ => [] end.

Definition collect_sink : sink_state collector_consumer :=
  match make_queue 2 with
  | inr q =>
      let s := sink_start q collect_consumer 0 0 false in
      default s (@run_actions _ (@collector_consumer_consumer pipeline_codec) s QueuedSink.sample_schedule)
  | inl _ => sink_start (Build_BoundedQueue 0 [] 0 0 0 false) collect_consumer 0 0 false
  end.

Lemma collect_sink_reachable :
  @reachable _ (@collector_consumer_consumer pipeline_codec) collect_consumer 2 collect_sink.
Proof.
  eapply (@run_actions_reachable _ (@collector_consumer_consumer pipeline_codec) _ 2 _ QueuedSink.sample_schedule);
    [solve_range|reflexivity|].
  vm_compute. reflexivity.
Qed.

Lemma collect_started : collect_start = inr (collect_options, collect_consumer, collect_banner).
Proof. vm_compute. reflexivity. Qed.

Lemma collect_session_ok : session_ok (fun _ => True) (as_call <$> taken collect_sink).
Proof.
  replace (as_call <$> taken collect_sink) with (reverse sample_calls) by (vm_compute; reflexivity).
  repeat constructor; solve_range.
Qed.

Lemma collector_exit_vouches_witness :
  exit_code (fst (collector_finish 2 collect_banner collect_sink)) = 0 /\
  stats_consumer_failures (ingestion_stats collect_sink) = 0 /\ Zlength (taken collect_sink) = 2.
Proof.
  assert (He : exit_code (fst (collector_finish 2 collect_banner collect_sink)) = 0)
    by (vm_compute; reflexivity).
  split; [exact He|]. split; [|vm_compute; reflexivity].
  pose proof (@collector_exit_vouches pipeline_codec _ pipeline_codec_laws (fs_of ∅) [] 77
    (Some 50051) collect_args collect_options collect_consumer collect_banner 2 collect_sink 0
    collect_started ltac:(done) ltac:(solve_range) collect_sink_reachable
    ltac:(vm_compute; reflexivity) collect_session_ok ltac:(vm_compute; congruence)) as Hv.
  destruct (collector_finish 2 collect_banner collect_sink) as [e c].
  exact (proj1 (proj2 Hv He)).
Defined.
