(* ===== verification/Serving.v ===== *)
(** * Serving: the threads of [run_collector] in [app/main.cpp]

    While [collect] serves, four parties run next to each other: the gRPC server
    with its stream reactors, the consumer thread of the sink, the thread that
    watches for a signal, and the main thread, which waits for the server and
    then takes everything down. The model composes them as steps on one state;
    the signal handler may run between any two of them. gRPC is an interface:
    what its documentation says of [Shutdown] and [Wait], nothing else. *)
From Stdlib Require Import ZArith Lia SpecFloat.
From Stdlib Require Import Strings.Byte.
From stdpp Require Import base gmap strings list relations fin_map_dom.
From S2P Require Import Prelude Bytes Floats Telemetry BoundedQueue QueuedSink.
From S2P Require Import Streams LogFormat LogWriter LogReader LogRecovery Recording.
From S2P Require Import Options Commands Program.
Local Open Scope Z_scope.
Local Open Scope tf_scope.

(** ** The server, as far as the program relies on it *)

(** What a server does: something of its own ([choice] picks what), or the
    reactor of stream [tid] calls the sink with an event. *)
Inductive server_event :=
  | Server_internal (choice : nat)
  | Server_call (tid : nat) (ev : CollectedEvent).

(** A [grpc::Server] in state [V] with the reactors it runs. *)
Class GrpcServer (V : Type) := {
  server_step : V -> server_event -> option V;
  callback_returned : V -> nat -> SinkResult -> V;  (* the sink answered stream [tid] *)
  server_Shutdown : V -> V;                         (* [Shutdown()] has begun *)
  callbacks : V -> gset nat;                        (* streams inside the sink *)
  shutting_down : V -> bool;
  server_stopped : V -> bool;                       (* [Shutdown()], [Wait()] return *)
}.

Definition calling (e : server_event) : gset nat :=
  match e with Server_internal _ => ∅ | Server_call tid _ => {[tid]} end.

(** [Wait] returns only for a server that is being shut down, and [Shutdown]
    returns when all callbacks have; a stopped server makes no more of them. *)
Class GrpcServerLaws (V : Type) `{!GrpcServer V} := {
  stopped_idle (v : V) : server_stopped v = true ->
    shutting_down v = true /\ callbacks v = ∅ /\ forall e, server_step v e = None;
  step_callbacks (v : V) e v' : server_step v e = Some v' ->
    calling e ## callbacks v /\ callbacks v' = calling e ∪ callbacks v /\
    shutting_down v' = shutting_down v;
  return_callbacks (v : V) tid r : tid ∈ callbacks v ->
    callbacks (callback_returned v tid r) = callbacks v ∖ {[tid]} /\
    shutting_down (callback_returned v tid r) = shutting_down v;
  Shutdown_begins (v : V) :
    callbacks (server_Shutdown v) = callbacks v /\ shutting_down (server_Shutdown v) = true;
}.

(** [Shutdown] without a deadline waits for the streams: it ends if the clients
    end theirs, that is, if after it has begun only so many steps are left, and
    one can be made unless a callback is still running. *)
Class ClientsFinish (V : Type) `{!GrpcServer V} := {
  server_rank : V -> nat;
  rank_step (v : V) e v' : shutting_down v = true -> server_step v e = Some v' ->
    (server_rank v' < server_rank v)%nat;
  rank_return (v : V) tid r : (server_rank (callback_returned v tid r) <= server_rank v)%nat;
  server_progress (v : V) : shutting_down v = true -> callbacks v = ∅ ->
    server_stopped v = false -> exists e, is_Some (server_step v e);
}.

(** ** The state *)

(** The thread [signal_monitor]. *)
Inductive monitor_pc :=
  | M_none                             (* not started *)
  | M_test_stop                        (* about to test [stop_requested()] *)
  | M_test_flag                        (* about to test [g_shutdown_signal == 0] *)
  | M_sleep                            (* in [sleep_for] *)
  | M_leave                            (* behind the loop *)
  | M_shutdown                         (* in [server->Shutdown()] *)
  | M_done.

(** The main thread, from the installed handlers to its return. *)
Inductive main_pc :=
  | N_spawn                            (* about to start [signal_monitor] *)
  | N_wait                             (* in [server->Wait()] *)
  | N_request                          (* about to call [request_stop()] *)
  | N_shutdown                         (* about to call [sink.shutdown()] *)
  | N_drain                            (* in it *)
  | N_finish                           (* about to flush and report *)
  | N_join (e : Exit) (c : collector_consumer)       (* destroying [signal_monitor] *)
  | N_destroy (e : Exit) (c : collector_consumer)    (* about to destroy [sink] *)
  | N_destroying (e : Exit) (c : collector_consumer) (* in its destructor's [shutdown()] *)
  | N_done (e : Exit) (c : collector_consumer).      (* returned *)

#[export] Instance monitor_pc_eq_dec : EqDecision monitor_pc.
Proof. solve_decision. Defined.

Record serving (V : Type) := {
  g_shutdown_signal : Z;
  server_ : V;
  sink_ : sink_state collector_consumer;
  monitor : monitor_pc;
  stop_requested : bool;
  main_thread : main_pc;
  shutdown_calls : nat;                (* history: calls of [Shutdown] *)
  signals : list Z;                    (* history: signals handled *)
}.
Arguments g_shutdown_signal {V} _.
Arguments server_ {V} _.
Arguments sink_ {V} _.
Arguments monitor {V} _.
Arguments stop_requested {V} _.
Arguments main_thread {V} _.
Arguments shutdown_calls {V} _.
Arguments signals {V} _.
Arguments Build_serving {V} _ _ _ _ _ _ _ _.

(** Who makes the next step. *)
Inductive actor :=
  | A_main | A_monitor | A_worker | A_sink_shutdown
  | A_callback (tid : nat)             (* stream [tid] inside [try_accept] *)
  | A_server (e : server_event)
  | A_signal (signal_number : Z)       (* the environment sends a signal *)
  | A_spurious.                        (* the consumer thread wakes up for nothing *)

Definition code_actor (a : actor) : bool :=
  match a with A_signal _ | A_spurious => false | _ => true end.

Section serving.
Context {V : Type} `{!GrpcServer V} `{!EventCodec}.
Context (banner : output).
Implicit Types (st : serving V) (v : V).

Definition set_threads st (m : monitor_pc) (n : main_pc) : serving V :=
  Build_serving (g_shutdown_signal st) (server_ st) (sink_ st) m (stop_requested st) n
    (shutdown_calls st) (signals st).
Definition set_sink st v s : serving V :=
  Build_serving (g_shutdown_signal st) v s (monitor st) (stop_requested st) (main_thread st)
    (shutdown_calls st) (signals st).

(** The signal handler. It may run between any two steps, also late, when the main
    thread has already put back the previous handlers; accesses to the flag are
    single steps. *)
Definition request_shutdown (signal_number : Z) st : serving V :=
  Build_serving signal_number (server_ st) (sink_ st) (monitor st) (stop_requested st)
    (main_thread st) (shutdown_calls st) (signals st ++ [signal_number]).

(** [signal_monitor] *)
Definition monitor_step st : option (serving V) :=
  let go m := Some (set_threads st m (main_thread st)) in
  match monitor st with
  | M_none | M_done => None
  | M_test_stop => go (if negb (stop_requested st) then M_test_flag else M_leave)
  | M_test_flag => go (if g_shutdown_signal st =? 0 then M_sleep else M_leave)
  | M_sleep => go M_test_stop
  | M_leave =>
      if negb (g_shutdown_signal st =? 0) then
        Some (Build_serving (g_shutdown_signal st) (server_Shutdown (server_ st)) (sink_ st)
                M_shutdown (stop_requested st) (main_thread st) (S (shutdown_calls st))
                (signals st))
      else go M_done
  | M_shutdown => if server_stopped (server_ st) then go M_done else None
  end.

(** The main thread; its own share of [sink.shutdown()] is [shutdown_step]. *)
Definition main_step st : option (serving V) :=
  let go n := Some (set_threads st (monitor st) n) in
  let shutdown n :=
    Some (set_sink (set_threads st (monitor st) n) (server_ st) (set_shutter (sink_ st) S_store)) in
  let returned n := match shutter (sink_ st) with S_done => go n | _ => None end in
  match main_thread st with
  | N_spawn => Some (set_threads st M_test_stop N_wait)
  | N_wait => if server_stopped (server_ st) then go N_request else None
  | N_request =>
      Some (Build_serving (g_shutdown_signal st) (server_ st) (sink_ st) (monitor st) true
              N_shutdown (shutdown_calls st) (signals st))
  | N_shutdown => shutdown N_drain
  | N_drain => returned N_finish
  | N_finish =>
      let '(e, c) := collector_finish (g_shutdown_signal st) banner (sink_ st) in go (N_join e c)
  | N_join e c => match monitor st with M_done => go (N_destroy e c) | _ => None end
  | N_destroy e c => shutdown (N_destroying e c)
  | N_destroying e c => returned (N_done e c)
  | N_done _ _ => None
  end.

(** What the server learns from a step of stream [tid] inside the sink. *)
Definition after_call v tid (s' : sink_state collector_consumer) : V :=
  match QueuedSink.producers s' !! tid, last (results s') with
  | None, Some (_, _, r) => callback_returned v tid r
  | _, _ => v
  end.

Definition act st (a : actor) : option (serving V) :=
  match a with
  | A_main => main_step st
  | A_monitor => monitor_step st
  | A_worker => s ← worker_step (sink_ st); Some (set_sink st (server_ st) s)
  | A_sink_shutdown => s ← shutdown_step (sink_ st); Some (set_sink st (server_ st) s)
  | A_callback tid =>
      s ← producer_step (sink_ st) tid; Some (set_sink st (after_call (server_ st) tid s) s)
  | A_server e =>
      v ← server_step (server_ st) e;
      Some (set_sink st v
              match e with
              | Server_internal _ => sink_ st
              | Server_call tid ev => set_producer (sink_ st) tid (P_load ev)
              end)
  | A_signal n => if n =? 0 then None else Some (request_shutdown n st)
  | A_spurious =>
      match worker (sink_ st) with
      | W_blocked => Some (set_sink st (server_ st) (set_worker (sink_ st) W_lock))
      | _ => None
      end
  end.

Inductive serving_step st : serving V -> Prop :=
  | serving_act a st' : act st a = Some st' -> serving_step st st'.

(** The code's own steps. *)
Inductive code_step st : serving V -> Prop :=
  | code_act a st' : code_actor a = true -> act st a = Some st' -> code_step st st'.

(** The collector when the handlers have been installed: [g_shutdown_signal] was
    reset, the sink constructed, and no stream has called it yet. *)
Definition serving_start v s : serving V :=
  Build_serving 0 v s M_none false N_spawn 0 [].

Fixpoint run_serving st (l : list actor) : option (serving V) :=
  match l with
  | [] => Some st
  | a :: l' => st' ← act st a; run_serving st' l'
  end.

Lemma run_serving_reach l : forall st st', run_serving st l = Some st' -> rtc serving_step st st'.
Proof.
  induction l as [|a l IH]; intros st st'; cbn; [by intros [= <-]|].
  destruct (act st a) as [st1|] eqn:Ha; [|done]. cbn. intros Hr.
  eapply rtc_l; [by econstructor|by apply IH].
Qed.
End serving.

(** ** The invariant *)

(** [Wait] has returned. *)
Definition past_wait (n : main_pc) : bool :=
  match n with N_spawn | N_wait => false | _ => true end.
Definition called_Shutdown (m : monitor_pc) : bool :=
  match m with M_shutdown | M_done => true | _ => false end.
(** The monitor thread has seen a signal. *)
Definition saw_signal (m : monitor_pc) : bool :=
  match m with M_leave | M_shutdown | M_done => true | _ => false end.

(** How far [sink.shutdown()] is, by what the main thread is doing. *)
Definition shutter_ok (n : main_pc) (pc : shutdown_pc) : Prop :=
  match n with
  | N_spawn | N_wait | N_request | N_shutdown => pc = S_idle
  | N_drain | N_destroying _ _ => pc <> S_idle
  | _ => pc = S_done
  end.

(** The report the main thread has made, if it has. *)
Definition report_of (n : main_pc) : option (Exit * collector_consumer) :=
  match n with
  | N_join e c | N_destroy e c | N_destroying e c | N_done e c => Some (e, c)
  | _ => None
  end.
(** The monitor thread has been joined. *)
Definition joined (n : main_pc) : bool :=
  match n with N_destroy _ _ | N_destroying _ _ | N_done _ _ => true | _ => false end.

Section invariant.
Context {V : Type} `{!GrpcServer V, !GrpcServerLaws V} `{!EventCodec}.
Context (banner : output) (c0 : collector_consumer) (cap : Z).
Implicit Types (st : serving V) (v : V) (s : sink_state collector_consumer).

(** The report was made on a sink that had been shut down, after a signal, and
    nothing has been taken in or answered since. *)
Definition reported st (e : Exit) (c : collector_consumer) : Prop :=
  (exists f, worker (sink_ st) = W_done f) /\
  exists n s, n ∈ signals st /\ n <> 0 /\ reachable c0 cap s /\ shutter s = S_done /\
    (e, c) = collector_finish n banner s /\
    taken s = taken (sink_ st) /\ results s = results (sink_ st).

Record serving_inv st : Prop := {
  sv_sink : reachable c0 cap (sink_ st);
  sv_constructed : constructed (sink_ st) = true;
  sv_callbacks : callbacks (server_ st) = dom (QueuedSink.producers (sink_ st));
  sv_signals : Forall (fun n => n <> 0) (signals st) /\
    g_shutdown_signal st = default 0 (last (signals st));
  sv_shutting_down : shutting_down (server_ st) = called_Shutdown (monitor st);
  sv_calls : shutdown_calls st = if called_Shutdown (monitor st) then 1%nat else 0%nat;
  sv_seen : saw_signal (monitor st) = true -> g_shutdown_signal st <> 0;
  sv_past_wait : past_wait (main_thread st) = true -> server_stopped (server_ st) = true;
  sv_stop : stop_requested st = true -> past_wait (main_thread st) = true;
  sv_started : (monitor st = M_none <-> main_thread st = N_spawn);
  sv_shutter : shutter_ok (main_thread st) (shutter (sink_ st));
  sv_joined : joined (main_thread st) = true -> monitor st = M_done;
  sv_report : forall e c, report_of (main_thread st) = Some (e, c) -> reported st e c;
}.

Lemma past_wait_idle st : serving_inv st -> past_wait (main_thread st) = true ->
  server_stopped (server_ st) = true /\ called_Shutdown (monitor st) = true /\
  QueuedSink.producers (sink_ st) = ∅ /\ forall e, server_step (server_ st) e = None.
Proof.
  intros Hi Hp. destruct (stopped_idle _ (sv_past_wait _ Hi Hp)) as (Hd & Hc & Hs).
  rewrite (sv_shutting_down _ Hi) in Hd. rewrite (sv_callbacks _ Hi) in Hc.
  split_and!; [by apply sv_past_wait|done|by apply dom_empty_inv_L|done].
Qed.

Lemma report_past_wait n e c : report_of n = Some (e, c) -> past_wait n = true.
Proof. by destruct n. Qed.

(** ** Steps of the sink *)

Lemma internal_shutter_ok n s s' : internal_step s s' -> shutter_ok n (shutter s) ->
  shutter_ok n (shutter s').
Proof.
  intros Hst. assert (Hor : shutter s' = shutter s \/
    shutter s <> S_idle /\ shutter s <> S_done /\ shutter s' <> S_idle).
  { destruct Hst as [s Hc|s tid s' He|s s' He|s s' He]; [by left|left|left|right].
    - unfold producer_step in He. destruct (QueuedSink.producers s !! tid) as [[ev|ev|ev]|]; try done.
      + by destruct (negb _); injection He as <-.
      + by destruct (try_push (queue_ s) ev) as [[] ?]; injection He as <-.
      + by injection He as <-.
    - unfold worker_step in He. destruct (worker s); try done; repeat case_match; by injection He as <-.
    - unfold shutdown_step in He. destruct (shutter s); try done; repeat case_match; by simplify_eq. }
  intros Hok. destruct Hor as [->|(H1 & H2 & H3)]; [done|].
  destruct n; cbn in *; congruence.
Qed.

(** A step of a sink without callers whose consumer thread has ended. *)
Lemma ended_sink_step s s' f : sink_step s s' -> QueuedSink.producers s' = ∅ ->
  worker s = W_done f -> QueuedSink.producers s = ∅ -> 
  taken s' = taken s /\ results s' = results s /\ worker s' = W_done f.
Proof.
  intros [Hst|Hst] Hp' Hw Hp.
  - destruct Hst as [s Hc|s tid s' He|s s' He|s s' He]; [done|..].
    + unfold producer_step in He. by rewrite Hp, lookup_empty in He.
    + unfold worker_step in He. by rewrite Hw in He.
    + unfold shutdown_step in He. rewrite Hw in He. destruct (shutter s); try done; injection He as <-;
        cbn; rewrite ?app_nil_r, ?Hw; by split_and!.
  - destruct Hst as [s tid ev Hc Hl|s Hc Hs|s Hb]; [|done|congruence].
    cbn in Hp'. by apply insert_non_empty in Hp'.
Qed.

(** A step in which only the sink and the server move. *)
Lemma sink_update_inv st v s : serving_inv st -> sink_step (sink_ st) s ->
  constructed s = true -> callbacks v = dom (QueuedSink.producers s) ->
  shutting_down v = shutting_down (server_ st) ->
  (past_wait (main_thread st) = true -> v = server_ st) ->
  shutter_ok (main_thread st) (shutter s) -> serving_inv (set_sink st v s).
Proof.
  intros Hi Hst Hc Hcb Hd Hv Hsh. pose proof (past_wait_idle st Hi) as Hidle.
  destruct Hi. constructor; cbn; try done.
  - by eapply reachable_step.
  - congruence.
  - intros Hp. rewrite Hv by done. auto.
  - intros e c Hr. pose proof (report_past_wait _ _ _ Hr) as Hp.
    destruct (sv_report0 e c Hr) as ([f Hf] & n & s0 & H1 & H2 & H3 & H4 & H5 & H6 & H7).
    destruct (Hidle Hp) as (_ & _ & Hp0 & _).
    assert (Hp' : QueuedSink.producers s = ∅).
    { apply dom_empty_inv_L. by rewrite <- Hcb, Hv, sv_callbacks0, Hp0 by done. }
    destruct (ended_sink_step _ _ f Hst Hp' Hf Hp0) as (Ht & Hres & Hw).
    split; [by exists f|]. exists n, s0. cbn. by rewrite Ht, Hres.
Qed.
(** A step inside [try_accept] either stays inside or returns to the reactor. *)
Lemma producer_step_calls s tid s' : producer_step s tid = Some s' ->
  tid ∈ dom (QueuedSink.producers s) /\ constructed s' = constructed s /\
  ((exists pc, QueuedSink.producers s' !! tid = Some pc /\
      dom (QueuedSink.producers s') = dom (QueuedSink.producers s)) \/
   (exists ev r, QueuedSink.producers s' !! tid = None /\ last (results s') = Some (tid, ev, r) /\
      dom (QueuedSink.producers s') = dom (QueuedSink.producers s) ∖ {[tid]})).
Proof.
  unfold producer_step. intros He.
  destruct (QueuedSink.producers s !! tid) as [pc|] eqn:Hp; [|done].
  split; [by apply elem_of_dom|].
  assert (Hback : forall s1 ev r, QueuedSink.producers s1 = QueuedSink.producers s ->
    (exists ev' r', QueuedSink.producers (sink_return s1 tid ev r) !! tid = None /\
      last (results (sink_return s1 tid ev r)) = Some (tid, ev', r') /\
      dom (QueuedSink.producers (sink_return s1 tid ev r)) =
        dom (QueuedSink.producers s) ∖ {[tid]})).
  { intros s1 ev r Hs1. exists ev, r. cbn. rewrite Hs1, lookup_delete_eq, last_snoc, dom_delete_L.
    by split_and!. }
  assert (Hstay : forall s1 pc', QueuedSink.producers s1 = QueuedSink.producers s ->
    (exists pc0, QueuedSink.producers (set_producer s1 tid pc') !! tid = Some pc0 /\
      dom (QueuedSink.producers (set_producer s1 tid pc')) = dom (QueuedSink.producers s))).
  { intros s1 pc' Hs1. exists pc'. cbn. rewrite Hs1, lookup_insert_eq, dom_insert_L. split; [done|].
    apply elem_of_dom_2 in Hp. set_solver. }
  destruct pc as [ev|ev|ev]; [destruct (negb _)|destruct (try_push (queue_ s) ev) as [[] q']|];
    injection He as <-; (split; [done|]); first [right; by apply Hback|left; by apply Hstay].
Qed.

Lemma callback_inv st tid s : serving_inv st -> producer_step (sink_ st) tid = Some s ->
  serving_inv (set_sink st (after_call (server_ st) tid s) s).
Proof.
  intros Hi He. destruct (producer_step_calls _ _ _ He) as (Hin & Hc & Hor).
  assert (Hv : callbacks (after_call (server_ st) tid s) = dom (QueuedSink.producers s) /\
    shutting_down (after_call (server_ st) tid s) = shutting_down (server_ st)).
  { unfold after_call. rewrite <- (sv_callbacks _ Hi) in *.
    destruct Hor as [(pc & -> & ->)|(ev & r & -> & -> & ->)]; [done|].
    by apply return_callbacks. }
  destruct Hv as [Hv1 Hv2].
  apply sink_update_inv; try done.
  - left. by eapply int_producer.
  - by rewrite Hc, sv_constructed.
  - intros Hp. destruct (past_wait_idle st Hi Hp) as (_ & _ & Hp0 & _). rewrite Hp0 in Hin. set_solver.
  - eapply internal_shutter_ok; [by eapply int_producer|by apply sv_shutter].
Qed.

(** A step of the consumer thread or inside [shutdown]. *)
Lemma quiet_sink_inv st s : serving_inv st -> sink_step (sink_ st) s ->
  constructed s = true -> QueuedSink.producers s = QueuedSink.producers (sink_ st) ->
  shutter_ok (main_thread st) (shutter s) -> serving_inv (set_sink st (server_ st) s).
Proof. intros Hi Hst Hc Hp Hsh. apply sink_update_inv; try done. by rewrite Hp, sv_callbacks. Qed.

Lemma worker_step_same s s' : worker_step s = Some s' ->
  QueuedSink.producers s' = QueuedSink.producers s /\ constructed s' = constructed s.
Proof. unfold worker_step. intros He. repeat case_match; by simplify_eq. Qed.

Lemma shutdown_step_same s s' : shutdown_step s = Some s' ->
  QueuedSink.producers s' = QueuedSink.producers s /\ constructed s' = constructed s.
Proof. unfold shutdown_step. intros He. repeat case_match; by simplify_eq. Qed.

Lemma server_step_inv st e st' : serving_inv st -> act banner st (A_server e) = Some st' ->
  serving_inv st'.
Proof.
  intros Hi. cbn [act]. destruct (server_step (server_ st) e) as [v|] eqn:He; [|done].
  intros [= <-]. pose proof (past_wait_idle st Hi) as Hidle.
  assert (Hp : past_wait (main_thread st) = false).
  { destruct (past_wait _); [|done]. destruct Hidle as (_ & _ & _ & Hn); [done|]. by rewrite Hn in He. }
  destruct (step_callbacks _ _ _ He) as (Hd & Hcb & Hsd). rewrite (sv_callbacks _ Hi) in Hd, Hcb.
  destruct e as [choice|tid ev]; cbn [calling] in *.
  - destruct Hi. constructor; cbn; try done; try congruence. set_solver.
  - apply sink_update_inv; try done; try (by apply sv_constructed); try (by apply sv_shutter).
    + right. apply ext_call; [by apply sv_constructed|]. apply not_elem_of_dom. set_solver.
    + cbn. by rewrite dom_insert_L.
    + congruence.
Qed.

(** ** Steps of the threads of [run_collector] *)

Lemma reported_mono st st' e c : sink_ st' = sink_ st -> signals st `prefix_of` signals st' ->
  reported st e c -> reported st' e c.
Proof.
  intros Hs [k Hk] (Hf & n & s & Hn & Hrest). unfold reported. rewrite Hs. split; [done|].
  exists n, s. split; [|done]. rewrite Hk. by apply elem_of_app; left.
Qed.

Lemma monitor_inv st st' : serving_inv st -> monitor_step st = Some st' -> serving_inv st'.
Proof.
  intros Hi He. pose proof (past_wait_idle st Hi) as Hidle. destruct Hi. unfold monitor_step in He.
  destruct (monitor st) eqn:Hm; try done; cbn [called_Shutdown saw_signal] in *.
  - injection He as <-. destruct (stop_requested st) eqn:Hs; cbn [negb].
    { destruct (Hidle (sv_stop0 eq_refl)) as (_ & Hc & _). done. }
    constructor; cbn; try done; [intros Hst; congruence|split; naive_solver|].
    intros Hj. by specialize (sv_joined0 Hj).
  - injection He as <-. destruct (Z.eqb_spec (g_shutdown_signal st) 0);
      constructor; cbn; try done; try (split; naive_solver); intros Hj; by specialize (sv_joined0 Hj).
  - injection He as <-. constructor; cbn; try done; [split; naive_solver|].
    intros Hj. by specialize (sv_joined0 Hj).
  - rewrite (proj2 (Z.eqb_neq _ _) (sv_seen0 eq_refl)) in He. cbn [negb] in He. injection He as <-.
    destruct (Shutdown_begins (server_ st)) as [Hb1 Hb2].
    constructor; cbn; try done; [congruence|by rewrite sv_calls0| |split; naive_solver|].
    + intros Hp. destruct (Hidle Hp) as (_ & Hc & _). done.
    + intros Hj. by specialize (sv_joined0 Hj).
  - destruct (server_stopped (server_ st)) eqn:Hs; [|done]. injection He as <-.
    constructor; cbn; try done. split; naive_solver.
Qed.

(** The main thread moves on without touching anything else. *)
Lemma main_moves st n : serving_inv st ->
  (past_wait n = true -> server_stopped (server_ st) = true) ->
  (past_wait (main_thread st) = true -> past_wait n = true) ->
  main_thread st <> N_spawn -> n <> N_spawn -> shutter_ok n (shutter (sink_ st)) ->
  (joined n = true -> monitor st = M_done) ->
  (forall e c, report_of n = Some (e, c) -> reported st e c) ->
  serving_inv (set_threads st (monitor st) n).
Proof.
  intros Hi Hp Hp' Hn Hn' Hsh Hj Hr. destruct Hi. constructor; cbn; try done; [by eauto|naive_solver].
Qed.

(** It calls [sink.shutdown()]. *)
Lemma main_shuts_down st n : serving_inv st ->
  (shutter (sink_ st) = S_idle \/ shutter (sink_ st) = S_done) ->
  past_wait (main_thread st) = true -> past_wait n = true -> shutter_ok n S_store ->
  (joined n = true -> monitor st = M_done) ->
  (forall e c, report_of n = Some (e, c) -> reported st e c) ->
  serving_inv (set_sink (set_threads st (monitor st) n) (server_ st) (set_shutter (sink_ st) S_store)).
Proof.
  intros Hi Hs Hp Hpn Hsh Hj Hr.
  pose proof Hi as [H1 H2 _ _ _ _ _ Hst _ [Hm1 Hm2] _ _ _]. specialize (Hst Hp).
  destruct Hi. constructor; cbn; try done.
  - eapply reachable_step; [done|]. right. by apply ext_shutdown.
  - split; [intros Hm; apply Hm1 in Hm; by rewrite Hm in Hp|intros ->; done].
Qed.

Lemma main_inv st st' : serving_inv st -> main_step banner st = Some st' -> serving_inv st'.
Proof.
  intros Hi He. pose proof (past_wait_idle st Hi) as Hidle.
  pose proof Hi as [Hrs _ _ [Hsig Hg] _ _ Hseen _ _ _ Hsh Hjoin Hrep].
  unfold main_step in He. destruct (main_thread st) eqn:Hm; cbn [shutter_ok report_of past_wait joined] in *.
  - injection He as <-. destruct Hi. rewrite Hm in *. assert (monitor st = M_none) as Hn by naive_solver.
    rewrite Hn in *. by constructor.
  - destruct (server_stopped (server_ st)) eqn:Hs; [|done]. injection He as <-.
    apply main_moves; cbn; try done; by rewrite Hm.
  - injection He as <-. destruct Hi. rewrite Hm in *. constructor; cbn; try done. naive_solver.
  - injection He as <-. apply main_shuts_down; try done; [by left|by rewrite Hm].
  - destruct (shutter (sink_ st)) eqn:Hs; try done. injection He as <-.
    apply main_moves; try done; rewrite ?Hm; auto. intros _. by apply sv_past_wait; [|rewrite Hm].
  - destruct (collector_finish _ _ _) as [e c] eqn:Hf. injection He as <-.
    destruct (Hidle eq_refl) as (Hst & Hc & _). 
    apply main_moves; cbn; try done; try by rewrite Hm. intros e' c' [= <- <-].
    pose proof (reachable_inv _ _ _ Hrs) as [_ _ _ _ _ _ _ _ _ Hsf _].
    unfold shutter_facts in Hsf. rewrite Hsh in Hsf. destruct Hsf as [_ [f Hf']].
    assert (g_shutdown_signal st <> 0) by (apply Hseen; by destruct (monitor st)).
    split; [by exists f|]. exists (g_shutdown_signal st), (sink_ st). split_and!; try done.
    rewrite Hg in *. destruct (last (signals st)) eqn:Hl; [|done]. by apply last_Some_elem_of in Hl.
  - destruct (monitor st) eqn:Hmon; try done. injection He as <-. rewrite <- Hmon.
    destruct (Hidle eq_refl) as (Hst & _). apply main_moves; try done; by rewrite ?Hm.
  - injection He as <-. apply main_shuts_down; try done; [by right|by rewrite Hm].
  - destruct (shutter (sink_ st)) eqn:Hs; try done. injection He as <-.
    destruct (Hidle eq_refl) as (Hst & _). apply main_moves; try done; by rewrite ?Hm.
  - done.
Qed.

Lemma act_inv st a st' : serving_inv st -> act banner st a = Some st' -> serving_inv st'.
Proof.
  intros Hi. destruct a as [| | | |tid|e|n|].
  - by apply main_inv.
  - by apply monitor_inv.
  - cbn. destruct (worker_step (sink_ st)) as [s|] eqn:He; [|done]. intros [= <-].
    destruct (worker_step_same _ _ He) as [Hp Hc].
    apply quiet_sink_inv; try done; [left; by eapply int_worker|by rewrite Hc, sv_constructed|].
    eapply internal_shutter_ok; [by eapply int_worker|by apply sv_shutter].
  - cbn. destruct (shutdown_step (sink_ st)) as [s|] eqn:He; [|done]. intros [= <-].
    destruct (shutdown_step_same _ _ He) as [Hp Hc].
    apply quiet_sink_inv; try done; [left; by eapply int_shutdown|by rewrite Hc, sv_constructed|].
    eapply internal_shutter_ok; [by eapply int_shutdown|by apply sv_shutter].
  - cbn. destruct (producer_step (sink_ st) tid) as [s|] eqn:He; [|done]. intros [= <-].
    by apply callback_inv.
  - by apply server_step_inv.
  - cbn. destruct (Z.eqb_spec n 0) as [|Hn]; [done|]. intros [= <-].
    destruct Hi. constructor; cbn; try done.
    + split; [apply Forall_app; split; [tauto|by constructor]|by rewrite last_snoc].
    + intros e c Hr. apply (reported_mono st); [done| |by apply sv_report0]. cbn. by eexists.
  - cbn. destruct (worker (sink_ st)) eqn:Hw; try done. intros [= <-].
    apply quiet_sink_inv; try done;
      [right; by apply ext_spurious|by apply (sv_constructed _ Hi)|by apply (sv_shutter _ Hi)].
Qed.

Lemma start_inv v s : reachable c0 cap s -> constructed s = true ->
  QueuedSink.producers s = ∅ -> shutter s = S_idle -> callbacks v = ∅ -> shutting_down v = false ->
  serving_inv (serving_start v s).
Proof.
  intros Hs Hc Hp Hsh Hv Hd. constructor; cbn; try done. by rewrite Hv, Hp, dom_empty_L.
Qed.

Lemma reach_inv st st' : serving_inv st -> rtc (serving_step banner) st st' -> serving_inv st'.
Proof.
  intros Hi. induction 1 as [|x y z [a y' Hy] _ IH]; [done|]. apply IH. by eapply act_inv.
Qed.
End invariant.

(** ** Termination *)

(** Steps of the main and the monitor thread until [Shutdown] is called, once a
    signal has been handled. *)
Definition patience (m : monitor_pc) : nat :=
  match m with
  | M_none => 5 | M_sleep => 4 | M_test_stop => 3 | M_test_flag => 2 | M_leave => 1
  | M_shutdown | M_done => 0
  end.

Definition monitor_weight (m : monitor_pc) : nat :=
  match m with M_shutdown => 1 | _ => 0 end.
(** Calling [sink.shutdown()] puts 6 on the measure of the sink. *)
Definition main_weight (n : main_pc) : nat :=
  match n with
  | N_spawn => 21 | N_wait => 20 | N_request => 19 | N_shutdown => 18 | N_drain => 11
  | N_finish => 10 | N_join _ _ => 9 | N_destroy _ _ => 8 | N_destroying _ _ => 1 | N_done _ _ => 0
  end.

Section termination.
Context {V : Type} `{!GrpcServer V, !GrpcServerLaws V, !ClientsFinish V} `{!EventCodec}.
Context (banner : output) (c0 : collector_consumer) (cap : Z).
Implicit Types (st : serving V) (v : V) (s : sink_state collector_consumer).

(** A call puts 8 on the measure of the sink and takes one from the server's. *)
Definition serving_measure st : nat :=
  9 * server_rank (server_ st) + sink_measure (sink_ st) + monitor_weight (monitor st) +
  main_weight (main_thread st).

Lemma measure_shutter s pc : shutter s = S_idle \/ shutter s = S_done ->
  sink_measure (set_shutter s pc) = (sink_measure s + shutdown_weight pc)%nat.
Proof. unfold sink_measure. intros [Hs|Hs]; cbn; rewrite Hs; cbn; lia. Qed.

Lemma measure_call s tid ev : QueuedSink.producers s !! tid = None ->
  sink_measure (set_producer s tid (P_load ev)) = (sink_measure s + 8)%nat.
Proof.
  intros Hp. unfold sink_measure. cbn. rewrite calls_insert, delete_id by done. cbn. lia.
Qed.

Lemma internal_measure st s : serving_inv banner c0 cap st -> internal_step (sink_ st) s ->
  (sink_measure s < sink_measure (sink_ st))%nat.
Proof.
  intros Hi Hs. apply internal_step_decreases; [|done].
  by destruct (reachable_inv _ _ _ (sv_sink _ _ _ _ Hi)).
Qed.

Lemma after_call_rank v tid s : (server_rank (after_call v tid s) <= server_rank v)%nat.
Proof.
  unfold after_call. destruct (_ !! tid); [lia|].
  destruct (last _) as [[[? ?] r]|]; [apply rank_return|lia].
Qed.

Lemma main_decreases st st' : serving_inv banner c0 cap st ->
  called_Shutdown (monitor st) = true -> main_step banner st = Some st' ->
  (serving_measure st' < serving_measure st)%nat.
Proof.
  intros Hi Hc He. pose proof (sv_shutter _ _ _ _ Hi) as Hsh. unfold main_step in He.
  assert (monitor st <> M_none) as Hm by (by destruct (monitor st)).
  unfold serving_measure. destruct (main_thread st) eqn:Hn; cbn [shutter_ok] in Hsh.
  - by apply (sv_started _ _ _ _ Hi) in Hn.
  - destruct (server_stopped _); [|done]. injection He as <-. cbn -[sink_measure]. lia.
  - injection He as <-. cbn -[sink_measure]. lia.
  - injection He as <-. cbn -[sink_measure]. rewrite measure_shutter by (by left). cbn. lia.
  - destruct (shutter (sink_ st)); try done. injection He as <-. cbn -[sink_measure]. lia.
  - destruct (collector_finish _ _ _). injection He as <-. cbn -[sink_measure]. lia.
  - destruct (monitor st); try done. injection He as <-. cbn -[sink_measure]. lia.
  - injection He as <-. cbn -[sink_measure]. rewrite measure_shutter by (by right). cbn. lia.
  - destruct (shutter (sink_ st)); try done. injection He as <-. cbn -[sink_measure]. lia.
  - done.
Qed.

(** Once [Shutdown] has been called, every step of the code is one of finitely many. *)
Lemma code_step_decreases st st' : serving_inv banner c0 cap st ->
  called_Shutdown (monitor st) = true -> code_step banner st st' ->
  (serving_measure st' < serving_measure st)%nat.
Proof.
  intros Hi Hc [a st2 Ha He].
  assert (Hint : forall v s, (server_rank v <= server_rank (server_ st))%nat ->
    internal_step (sink_ st) s -> (serving_measure (set_sink st v s) < serving_measure st)%nat).
  { intros v s Hv Hs. apply internal_measure in Hs; [|done]. unfold serving_measure. cbn -[sink_measure]. lia. }
  destruct a as [| | | |tid|e|n|]; try done; cbn in He.
  - by apply main_decreases.
  - unfold monitor_step in He. unfold serving_measure. destruct (monitor st); try done.
    destruct (server_stopped _); [|done]. injection He as <-. cbn -[sink_measure]. lia.
  - destruct (worker_step _) as [s|] eqn:Hs; [|done]. injection He as <-.
    apply Hint; [lia|by eapply int_worker].
  - destruct (shutdown_step _) as [s|] eqn:Hs; [|done]. injection He as <-.
    apply Hint; [lia|by eapply int_shutdown].
  - destruct (producer_step _ _) as [s|] eqn:Hs; [|done]. injection He as <-.
    apply Hint; [apply after_call_rank|by eapply int_producer].
  - destruct (server_step _ _) as [v|] eqn:Hs; [|done]. injection He as <-.
    assert (shutting_down (server_ st) = true) as Hd by (by rewrite (sv_shutting_down _ _ _ _ Hi)).
    pose proof (rank_step _ _ _ Hd Hs) as Hr. destruct (step_callbacks _ _ _ Hs) as (Hdis & _ & _).
    rewrite (sv_callbacks _ _ _ _ Hi) in Hdis. unfold serving_measure.
    destruct e as [choice|tid ev]; cbn [set_sink sink_ server_ monitor main_thread]; [lia|].
    rewrite measure_call; [lia|]. apply not_elem_of_dom. cbn in Hdis. set_solver.
Qed.

(** Before that, nobody can delay the call. *)
Lemma patience_shrinks st : serving_inv banner c0 cap st -> g_shutdown_signal st <> 0 ->
  called_Shutdown (monitor st) = false ->
  exists a st', (a = A_main \/ a = A_monitor) /\ act banner st a = Some st' /\
    (patience (monitor st') < patience (monitor st))%nat.
Proof.
  intros Hi Hg Hc. assert (Hz : (g_shutdown_signal st =? 0) = false) by (by apply Z.eqb_neq).
  destruct (monitor st) eqn:Hm; try done.
  - apply (sv_started _ _ _ _ Hi) in Hm as Hn. exists A_main. cbn. unfold main_step. rewrite Hn.
    eexists. split_and!; [by left|done|]. cbn. lia.
  - exists A_monitor. cbn. unfold monitor_step. rewrite Hm. eexists. split_and!; [by right|done|].
    cbn. destruct (stop_requested st); cbn; lia.
  - exists A_monitor. cbn. unfold monitor_step. rewrite Hm, Hz. eexists. split_and!; [by right|done|].
    cbn. lia.
  - exists A_monitor. cbn. unfold monitor_step. rewrite Hm. eexists. split_and!; [by right|done|].
    cbn. lia.
  - exists A_monitor. cbn. unfold monitor_step. rewrite Hm, Hz. eexists. split_and!; [by right|done|].
    cbn. lia.
Qed.

Lemma others_keep_patience st a st' : act banner st a = Some st' ->
  g_shutdown_signal st <> 0 -> (monitor st = M_none <-> main_thread st = N_spawn) ->
  g_shutdown_signal st' <> 0 /\ (patience (monitor st') <= patience (monitor st))%nat.
Proof.
  intros He Hg Hn. destruct a as [| | | |tid|e|n|]; cbn in He.
  - unfold main_step in He. destruct (main_thread st) eqn:Hm; [rewrite (proj2 Hn eq_refl)|..];
      repeat case_match; simplify_eq; cbn; split; try done; lia.
  - unfold monitor_step in He. rewrite (proj2 (Z.eqb_neq _ _) Hg) in He.
    destruct (monitor st); repeat case_match; simplify_eq; cbn; split; try done; lia.
  - destruct (worker_step _); [|done]. by injection He as <-.
  - destruct (shutdown_step _); [|done]. by injection He as <-.
  - destruct (producer_step _ _); [|done]. by injection He as <-.
  - destruct (server_step _ _); [|done]. by injection He as <-.
  - destruct (Z.eqb_spec n 0); [done|]. by injection He as <-.
  - destruct (worker _); try done. by injection He as <-.
Qed.

Lemma code_act_none st a : (forall st', ~ code_step banner st st') -> code_actor a = true ->
  act banner st a = None.
Proof. intros Hq Ha. destruct (act banner st a) eqn:He; [|done]. by destruct (Hq s (code_act _ _ a s Ha He)). Qed.

(** A state without a step of the code, after [Shutdown] was called, is the end. *)
Lemma stuck_is_done st : serving_inv banner c0 cap st -> called_Shutdown (monitor st) = true ->
  (forall st', ~ code_step banner st st') -> exists e c, main_thread st = N_done e c.
Proof.
  intros Hi Hc Hq. pose proof (fun a => code_act_none st a Hq) as Hnone.
  assert (Hquiet : quiescent (sink_ st)).
  { intros s Hs. inversion Hs as [s0 Hc'|s0 tid s' He|s0 s' He|s0 s' He]; subst s0; try subst s'.
    - by rewrite (sv_constructed _ _ _ _ Hi) in Hc'.
    - specialize (Hnone (A_callback tid) eq_refl). cbn in Hnone. by rewrite He in Hnone.
    - specialize (Hnone A_worker eq_refl). cbn in Hnone. by rewrite He in Hnone.
    - specialize (Hnone A_sink_shutdown eq_refl). cbn in Hnone. by rewrite He in Hnone. }
  destruct (quiescent_settled _ _ _ (sv_sink _ _ _ _ Hi) Hquiet) as (Hp & _ & Hsh).
  assert (Hstop : server_stopped (server_ st) = true).
  { destruct (server_stopped (server_ st)) eqn:Hs; [done|].
    destruct (server_progress (server_ st)) as [e [v Hv]]; [by rewrite (sv_shutting_down _ _ _ _ Hi)| |done|].
    - by rewrite (sv_callbacks _ _ _ _ Hi), Hp, dom_empty_L.
    - specialize (Hnone (A_server e) eq_refl). cbn in Hnone. by rewrite Hv in Hnone. }
  assert (Hmon : monitor st = M_done).
  { specialize (Hnone A_monitor eq_refl). cbn in Hnone. unfold monitor_step in Hnone.
    rewrite Hstop in Hnone. by destruct (monitor st). }
  specialize (Hnone A_main eq_refl). cbn in Hnone. unfold main_step in Hnone.
  pose proof (sv_shutter _ _ _ _ Hi) as Hok.
  destruct (main_thread st) as [| | | | | |e c|e c|e c|e c]; cbn [shutter_ok] in Hok; try done.
  - by rewrite Hstop in Hnone.
  - by rewrite Hsh in Hnone.
  - by destruct (collector_finish _ _ _).
  - by rewrite Hmon in Hnone.
  - by rewrite Hsh in Hnone.
  - by exists e, c.
Qed.
End termination.

(** ** Properties *)

(** The collector as [run_collector] has set it up: the sink is constructed and
    unused, the server accepts streams. *)
Record set_up {V} `{!GrpcServer V} `{!EventCodec} (c0 : collector_consumer) (cap : Z) (v : V)
    (s : sink_state collector_consumer) : Prop := {
  up_sink : reachable c0 cap s;
  up_constructed : constructed s = true;
  up_producers : QueuedSink.producers s = ∅;
  up_shutter : shutter s = S_idle;
  up_taken : taken s = [];
  up_callbacks : callbacks v = ∅;
  up_running : shutting_down v = false;
}.

Lemma set_up_inv {V} `{!GrpcServer V, !GrpcServerLaws V} `{!EventCodec} banner c0 cap (v : V) s st :
  set_up c0 cap v s -> rtc (serving_step banner) (serving_start v s) st ->
  serving_inv banner c0 cap st.
Proof. intros [] Hrun. eapply reach_inv; [|done]. by apply start_inv. Qed.

(** C14: the collector is taken down in order. Whatever the interleaving of main
    thread, signal monitor, consumer thread, streams and signals, [Shutdown] is
    called at most once and only after a signal; the sink is shut down only when
    the server has stopped, so no stream is inside [try_accept] then and none can
    enter it; and the server, the sink and the consumer are destroyed only after
    the monitor thread, which refers to the server, has been joined. *)
Theorem collector_taken_down_in_order {V} `{!GrpcServer V, !GrpcServerLaws V} `{!EventCodec}
    (banner : output) (c0 : collector_consumer) (cap : Z) (v : V) s st
    (Hup : set_up c0 cap v s) (Hrun : rtc (serving_step banner) (serving_start v s) st) :
  (shutdown_calls st <= 1)%nat /\
  (shutdown_calls st = 1%nat -> signals st <> []) /\
  (shutter (sink_ st) <> S_idle ->
     shutdown_calls st = 1%nat /\ server_stopped (server_ st) = true /\
     QueuedSink.producers (sink_ st) = ∅ /\ forall e, server_step (server_ st) e = None) /\
  (joined (main_thread st) = true -> monitor st = M_done).
Proof.
  pose proof (set_up_inv _ _ _ _ _ _ Hup Hrun) as Hi. pose proof (past_wait_idle _ _ _ st Hi) as Hidle.
  destruct Hi as [_ _ _ [_ Hg] _ Hcalls Hseen _ _ _ Hsh Hj _]. rewrite Hcalls. split_and!.
  - destruct (called_Shutdown _); lia.
  - intros Hc Hnil. rewrite Hnil in Hg. apply Hseen; [|done]. by destruct (monitor st).
  - intros Hs. assert (past_wait (main_thread st) = true) as Hp by (by destruct (main_thread st)).
    destruct (Hidle Hp) as (H1 & -> & H3 & H4). by split_and!.
  - done.
Qed.

(** Exit code 0 vouches for the recording, from the installed handlers to the
    end of the process. When [collect --output] has returned, on any interleaving
    of its threads, it was because of a signal, and with code 0 or 1. If it is 0,
    every event the sink answered [accepted] to a stream is in the file exactly
    once: even after a crash right behind the report, [inspect] on the file
    returns 0 and it reads as those events with their arrival times. *)
Theorem collect_records_accepted {V} `{!GrpcServer V, !GrpcServerLaws V} `{!EventCodec}
    (wire_ok : TelemetryEvent -> Prop) `{!EventCodecLaws _ wire_ok}
    fs script now port args o c0 banner (v : V) s st e c (cut : nat)
    (Hstart : collector_start fs script now port args = inr (o, c0, banner))
    (Hpath : output_path o <> ""%string) (Hnow : in_s64 now)
    (Hup : set_up c0 (queue_capacity o) v s)
    (Hrun : rtc (serving_step banner) (serving_start v s) st)
    (Hend : main_thread st = N_done e c)
    (Hok : session_ok wire_ok (as_call <$> taken (sink_ st)))
    (Hmax : Zlength (taken (sink_ st)) <= 1000000) :
  signals st <> [] /\ (exit_code e = 0 \/ exit_code e = 1) /\
  (exit_code e = 0 ->
     taken (sink_ st) ≡ₚ omap accepted_result (results (sink_ st)) /\
     exists w inspect r, c = Recording {| writer_ := w |} /\
       let fs' := with_files fs (files_after fs w cut) in
       run_inspect fs' (output_path o) = Some inspect /\ exit_code inspect = 0 /\
       read_log fs' (output_path o) LogReadOptions_default = Some r /\
       (fun r => (rec_event r, rec_collector_arrival_timestamp_ns r)) <$> records r =
         as_call <$> taken (sink_ st)).
Proof.
  pose proof (set_up_inv _ _ _ _ _ _ Hup Hrun) as Hi.
  destruct (past_wait_idle _ _ _ st Hi) as (_ & _ & Hp & _); [by rewrite Hend|].
  destruct (sv_report _ _ _ _ Hi e c) as (_ & n & s1 & Hn & _ & Hs1 & Hd1 & Hf & Ht & Hr);
    [by rewrite Hend|].
  rewrite <- Ht in *.
  pose proof (collector_exit_vouches wire_ok fs script now port args o c0 banner n s1 cut
    Hstart Hpath Hnow Hs1 Hd1 Hok Hmax) as Hv.
  rewrite <- Hf in Hv. destruct Hv as [Hcode Hzero].
  split_and!; [by intros Hnil; rewrite Hnil in Hn; apply not_elem_of_nil in Hn|done|].
  intros He. destruct (Hzero He) as (_ & _ & Hfile). split; [|done].
  pose proof (reachable_inv _ _ _ (sv_sink _ _ _ _ Hi)) as [_ _ _ _ _ _ _ _ _ _ Hres].
  rewrite Hp in Hres. rewrite Ht, Hres. unfold notifying. by rewrite map_to_list_empty, app_nil_r.
Qed.

(** C13: a signal ends the collector. Once a signal has been handled, [Shutdown] is
    at most five steps of the main and the monitor thread away, one of which is
    always possible and none of which another thread or another signal can undo.
    After the call, if the clients end their streams, every step of the code
    decreases a measure, and the code stops only where [run_collector] has
    returned, its threads joined. *)
Theorem collector_stops_on_signal {V} `{!GrpcServer V, !GrpcServerLaws V, !ClientsFinish V}
    `{!EventCodec} (banner : output) (c0 : collector_consumer) (cap : Z) (v : V) s st
    (Hup : set_up c0 cap v s) (Hrun : rtc (serving_step banner) (serving_start v s) st)
    (Hsignal : g_shutdown_signal st <> 0) :
  (forall a st', act banner st a = Some st' ->
     g_shutdown_signal st' <> 0 /\ (patience (monitor st') <= patience (monitor st) <= 5)%nat) /\
  (shutdown_calls st = 0%nat ->
     exists a st', (a = A_main \/ a = A_monitor) /\ act banner st a = Some st' /\
       (patience (monitor st') < patience (monitor st))%nat) /\
  (shutdown_calls st = 1%nat -> forall st', code_step banner st st' ->
     (serving_measure st' < serving_measure st)%nat) /\
  ((forall st', ~ code_step banner st st') ->
     exists e c, main_thread st = N_done e c /\ monitor st = M_done /\
       exists failed, worker (sink_ st) = W_done failed).
Proof.
  pose proof (set_up_inv _ _ _ _ _ _ Hup Hrun) as Hi. pose proof (sv_calls _ _ _ _ Hi) as Hcalls.
  assert (Hfirst : called_Shutdown (monitor st) = false -> exists a st',
    (a = A_main \/ a = A_monitor) /\ act banner st a = Some st' /\
    (patience (monitor st') < patience (monitor st))%nat) by (by eapply patience_shrinks).
  split_and!.
  - intros a st' Ha. destruct (others_keep_patience _ _ _ _ Ha Hsignal (sv_started _ _ _ _ Hi)).
    split_and!; [done|lia|destruct (monitor st); cbn; lia].
  - intros Hz. apply Hfirst. rewrite Hz in Hcalls. by destruct (called_Shutdown (monitor st)).
  - intros Hone st'. eapply code_step_decreases; [done|]. rewrite Hone in Hcalls. by destruct (called_Shutdown (monitor st)).
  - intros Hq. destruct (called_Shutdown (monitor st)) eqn:Hc.
    + destruct (stuck_is_done _ _ _ _ Hi Hc Hq) as (e & c & Hd). exists e, c.
      split_and!; [done|by eapply (sv_joined _ _ _ _ Hi); rewrite Hd|].
      destruct (sv_report _ _ _ _ Hi e c) as [Hw _]; [by rewrite Hd|done].
    + destruct (Hfirst eq_refl) as (a & st' & Hor & Ha & _).
      destruct (Hq st'). apply (code_act _ _ a); [by destruct Hor as [-> | ->]|done].
Qed.

(** ** Witnesses: two streams, a third signal, and the end *)

(** A server whose clients have [todo] messages left. *)
Record sample_server := { todo : nat; inside : gset nat; down : bool; ended : bool }.

Definition sample_server_step (v : sample_server) (e : server_event) : option sample_server :=
  if ended v then None else
  match e, todo v with
  | Server_internal _, 0%nat =>
      if down v && bool_decide (inside v = ∅)
      then Some {| todo := 0; inside := inside v; down := true; ended := true |} else None
  | Server_call tid _, S n =>
      if bool_decide (tid ∈ inside v) then None
      else Some {| todo := n; inside := {[tid]} ∪ inside v; down := down v; ended := false |}
  | _, _ => None
  end.

#[export] Instance sample_grpc : GrpcServer sample_server := {
  server_step := sample_server_step;
  callback_returned v tid _ :=
    {| todo := todo v; inside := inside v ∖ {[tid]}; down := down v; ended := ended v |};
  server_Shutdown v := {| todo := todo v; inside := inside v; down := true; ended := ended v |};
  callbacks := inside;
  shutting_down := down;
  server_stopped v := ended v && down v && bool_decide (inside v = ∅);
}.

#[export] Instance sample_grpc_laws : GrpcServerLaws sample_server.
Proof.
  split; cbn.
  - intros v. rewrite !andb_true_iff. intros [[He Hd] Hi%bool_decide_eq_true].
    split_and!; try done. intros e. unfold sample_server_step. by rewrite He.
  - intros v e v'. unfold sample_server_step. destruct (ended v); [done|].
    destruct e as [choice|tid ev], (todo v); try done; cbn [calling].
    + destruct (_ && _) eqn:Hc; [|done]. apply andb_true_iff in Hc as [-> _].
      intros [= <-]. cbn. set_solver.
    + case_bool_decide; [done|]. intros [= <-]. cbn. set_solver.
  - done.
  - done.
Qed.

Definition sample_rank (v : sample_server) : nat := todo v + (if ended v then 0 else 1).

#[export] Instance sample_grpc_finishes : ClientsFinish sample_server.
Proof.
  apply (Build_ClientsFinish _ _ sample_rank); unfold sample_rank.
  - intros v e v' _. cbn. unfold sample_server_step. destruct (ended v); [done|].
    destruct e as [choice|tid ev], (todo v); try done; case_match; try done; intros [= <-]; cbn; lia.
  - intros v tid r. cbn. lia.
  - intros v. cbn. intros Hd Hi Hs. unfold sample_server_step. rewrite Hd, Hi in *.
    rewrite bool_decide_eq_true_2, !andb_true_r in Hs by done. rewrite Hs.
    destruct (todo v) eqn:Ht.
    + exists (Server_internal 0). by rewrite bool_decide_eq_true_2.
    + exists (Server_call 0 (sample_collected 0)).
      rewrite bool_decide_eq_false_2 by set_solver. by eexists.
Defined.

Definition busy_server : sample_server := {| todo := 2; inside := ∅; down := false; ended := false |}.

(** Both streams are served, interrupted by signal 15 and then by signal 2. *)
Definition serving_schedule : list actor :=
  [A_worker; A_main; A_monitor; A_server (Server_call 1 (sample_collected 1)); A_callback 1;
   A_monitor; A_signal 15; A_server (Server_call 2 (sample_collected 2)); A_callback 1; A_monitor;
   A_callback 1; A_monitor; A_monitor; A_signal 2; A_monitor].
Definition stopping_schedule : list actor :=
  [A_worker; A_callback 2; A_callback 2; A_worker; A_callback 2; A_worker;
   A_server (Server_internal 0); A_main; A_main; A_main; A_sink_shutdown; A_sink_shutdown;
   A_worker; A_monitor; A_worker; A_worker; A_worker; A_sink_shutdown; A_sink_shutdown; A_main;
   A_main; A_main; A_main; A_sink_shutdown; A_sink_shutdown; A_sink_shutdown; A_sink_shutdown;
   A_main].

Definition fresh_sink : sink_state collector_consumer :=
  match make_queue 2 with
  | inr q => sink_constructed (sink_start q collect_consumer 0 0 false)
  | inl _ => sink_start (Build_BoundedQueue 0 [] 0 0 0 false) collect_consumer 0 0 false
  end.

Definition after_serving (l : list actor) : option (serving sample_server) :=
  @run_serving _ _ pipeline_codec collect_banner (serving_start busy_server fresh_sink) l.

Definition sample_serving (l : list actor) : serving sample_server :=
  default (serving_start busy_server fresh_sink) (after_serving l).

Lemma sample_set_up : @set_up _ _ pipeline_codec collect_consumer 2 busy_server fresh_sink.
Proof.
  constructor; [|vm_compute; reflexivity..].
  eapply (@run_actions_reachable _ (@collector_consumer_consumer pipeline_codec) _ 2 _ [A_construct]);
    [solve_range|reflexivity|]. vm_compute. reflexivity.
Qed.

Lemma serving_sample_run l : is_Some (after_serving l) ->
  rtc (@serving_step _ _ pipeline_codec collect_banner)
    (serving_start busy_server fresh_sink) (sample_serving l).
Proof.
  unfold sample_serving, after_serving. destruct (run_serving _ _ _) as [st|] eqn:Hr; [|done].
  intros _. by eapply run_serving_reach.
Qed.

Abbreviation whole_schedule := (serving_schedule ++ stopping_schedule).

Lemma whole_run : rtc (@serving_step _ _ pipeline_codec collect_banner)
  (serving_start busy_server fresh_sink) (sample_serving whole_schedule).
Proof. apply serving_sample_run. vm_compute. by eexists. Qed.

Lemma signalled_run : rtc (@serving_step _ _ pipeline_codec collect_banner)
  (serving_start busy_server fresh_sink) (sample_serving serving_schedule).
Proof. apply serving_sample_run. vm_compute. by eexists. Qed.

Lemma collector_taken_down_in_order_witness :
  shutter (sink_ (sample_serving whole_schedule)) = S_done /\
  server_stopped (server_ (sample_serving whole_schedule)) = true.
Proof.
  assert (Hs : shutter (sink_ (sample_serving whole_schedule)) = S_done) by (vm_compute; reflexivity).
  split; [exact Hs|].
  destruct (@collector_taken_down_in_order _ _ _ pipeline_codec collect_banner collect_consumer 2
    busy_server fresh_sink (sample_serving whole_schedule) sample_set_up
    whole_run) as (_ & _ & Hstop & _).
  exact (proj1 (proj2 (Hstop ltac:(rewrite Hs; discriminate)))).
Defined.

Definition collect_result : Exit * collector_consumer :=
  default (exit_with 9 [], collect_consumer)
    (report_of (main_thread (sample_serving whole_schedule))).

Lemma serving_session_ok :
  session_ok (fun _ => True) (as_call <$> taken (sink_ (sample_serving whole_schedule))).
Proof.
  replace (as_call <$> taken (sink_ (sample_serving whole_schedule))) with sample_calls
    by (vm_compute; reflexivity).
  repeat constructor; solve_range.
Qed.

Lemma collect_records_accepted_witness :
  exit_code (fst collect_result) = 0 /\
  exists w inspect r, snd collect_result = Recording {| writer_ := w |} /\
    let fs' := with_files (fs_of ∅) (files_after (fs_of ∅) w 0) in
    @run_inspect pipeline_codec fs' "run.tflog" = Some inspect /\ exit_code inspect = 0 /\
    @read_log pipeline_codec fs' "run.tflog" LogReadOptions_default = Some r /\
    (fun r => (rec_event r, rec_collector_arrival_timestamp_ns r)) <$> records r = sample_calls.
Proof.
  assert (He : exit_code (fst collect_result) = 0) by (vm_compute; reflexivity).
  split; [exact He|].
  destruct (@collect_records_accepted _ _ _ pipeline_codec _ pipeline_codec_laws (fs_of ∅) [] 77
    (Some 50051) collect_args collect_options collect_consumer collect_banner
    busy_server fresh_sink (sample_serving whole_schedule) (fst collect_result) (snd collect_result) 0
    collect_started ltac:(done) ltac:(solve_range) sample_set_up
    whole_run ltac:(vm_compute; reflexivity)
    serving_session_ok ltac:(vm_compute; congruence)) as (_ & _ & Hzero).
  exact (proj2 (Hzero He)).
Defined.

Lemma collector_stops_on_signal_witness :
  shutdown_calls (sample_serving serving_schedule) = 1%nat /\
  forall st', @code_step _ _ pipeline_codec collect_banner (sample_serving serving_schedule) st' ->
    (serving_measure st' < serving_measure (sample_serving serving_schedule))%nat.
Proof.
  assert (Hone : shutdown_calls (sample_serving serving_schedule) = 1%nat) by (vm_compute; reflexivity).
  split; [exact Hone|].
  destruct (@collector_stops_on_signal _ _ _ _ pipeline_codec collect_banner collect_consumer 2
    busy_server fresh_sink (sample_serving serving_schedule) sample_set_up
    signalled_run ltac:(vm_compute; congruence)) as (_ & _ & Hdec & _).
  exact (Hdec Hone).
Defined.
