(* ===== verification/Reactors.v ===== *)
(** * Reactors: from the messages of the clients to the recording

    [Serving] leaves open what the server's callbacks are. Here they are those of
    the stream reactors of [collector_service.cpp]: a callback runs up to its call
    of the sink, the sink's own steps follow, and the callback ends with the
    result. The class [ReactorServer] says how gRPC drives the reactors; for every
    such server the recording is traced back to what the clients sent. *)
From Stdlib Require Import ZArith Lia.
From stdpp Require Import base gmap strings list relations fin_map_dom.
From S2P Require Import Prelude Bytes Floats Telemetry Validation BoundedQueue QueuedSink Collector.
From S2P Require Import Streams LogFormat LogWriter LogReader LogRecovery Recording.
From S2P Require Import Options Commands Program Serving.
Local Open Scope Z_scope.
Local Open Scope tf_scope.

Section halves.
Context (moved_from : TelemetryEvent -> TelemetryEvent).

(** ** [OnReadDone], cut at the call of the sink *)

(** Up to the call: the reactor, and the status it ends with or the event the
    sink is called with. *)
Definition callback_begin (ok : bool) (now : Z) (r : StreamReactor)
    : StreamReactor * (Status + CollectedEvent) :=
  return_if negb ok
    with ({| response_ := populate_summary (validator_ r); validator_ := validator_ r;
             event_ := event_ r |}, inl Status_OK) ;;
  let '(validation, v') := accept (validator_ r) (event_ r) in
  let r1 := {| response_ := response_ r; validator_ := v'; event_ := event_ r |} in
  return_if negb (accepted validation)
    with (r1, inl {| status_code := INVALID_ARGUMENT; status_message := error validation |}) ;;
  ({| response_ := response_ r1; validator_ := validator_ r1; event_ := moved_from (event_ r1) |},
   inr {| event := event_ r1; collector_arrival_timestamp_ns := now |}).

(** From the sink's answer on. *)
Definition callback_end (r : StreamReactor) (result : SinkResult) : StreamReactor * reactor_action :=
  match result with
  | Sink_accepted =>
      ({| response_ := response_ r; validator_ := validator_ r;
          event_ := TelemetryEvent_default |}, StartRead)
  | Sink_overloaded =>
      (r, Finish {| status_code := RESOURCE_EXHAUSTED;
                    status_message := "telemetry queue reached its fixed capacity" |})
  | Sink_unavailable =>
      (r, Finish {| status_code := UNAVAILABLE;
                    status_message := "telemetry ingestion pipeline is unavailable" |})
  end.

Lemma OnReadDone_halves {S} `{!TelemetrySink S} ok now r (s : S) :
  OnReadDone moved_from ok now r s =
    match callback_begin ok now r with
    | (r', inl st) => (r', s, Finish st)
    | (r', inr ev) =>
        let '(result, s') := sink_try_accept s ev in
        let '(r'', action) := callback_end r' result in (r'', s', action)
    end.
Proof.
  unfold OnReadDone, callback_begin. destruct ok; cbn [negb]; [|done].
  destruct (accept (validator_ r) (event_ r)) as [validation v'].
  destruct (accepted validation); cbn [negb]; [|done].
  by destruct (sink_try_accept s _) as [[] s'].
Qed.

(** ** Streams *)

Inductive stream_phase := Reading | In_sink | Ended (st : Status).

(** A stream and its reactor; [unread] are the client's messages that have not been
    accepted, the one in the sink first, with the clock readings of their callbacks. *)
Record stream := {
  reactor : StreamReactor;
  phase : stream_phase;
  unread : list (TelemetryEvent * Z);
  accepted_messages : list (TelemetryEvent * Z);   (* history *)
}.

Definition sent (s : stream) : list (TelemetryEvent * Z) := accepted_messages s ++ unread s.

Definition new_stream (messages : list (TelemetryEvent * Z)) : stream :=
  {| reactor := fst (StreamReactor_new StreamSummary_default); phase := Reading;
     unread := messages; accepted_messages := [] |}.

(** gRPC stores the next message, if there is one, and calls [OnReadDone]. *)
Definition stream_begin (s : stream) : StreamReactor * (Status + CollectedEvent) :=
  match unread s with
  | [] => callback_begin false 0 (reactor s)
  | (ev, now) :: _ => callback_begin true now (store_message (reactor s) ev)
  end.

Definition set_phase (s : stream) (r : StreamReactor) (p : stream_phase) : stream :=
  {| reactor := r; phase := p; unread := unread s; accepted_messages := accepted_messages s |}.

(** The rest of the callback. *)
Definition stream_resume (s : stream) (result : SinkResult) : stream :=
  match callback_end (reactor s) result, unread s with
  | (r, StartRead), message :: messages =>
      {| reactor := r; phase := Reading; unread := messages;
         accepted_messages := accepted_messages s ++ [message] |}
  | (r, StartRead), [] => set_phase s r Reading
  | (r, Finish st), _ => set_phase s r (Ended st)
  end.

(** What a stream may do besides calling the sink: nothing, begin, or end. *)
Inductive stream_quiet : option stream -> option stream -> Prop :=
  | quiet_same s : stream_quiet s s
  | quiet_new messages : stream_quiet None (Some (new_stream messages))
  | quiet_end s r st : phase s = Reading -> stream_begin s = (r, inl st) ->
      stream_quiet (Some s) (Some (set_phase s r (Ended st))).

(** How gRPC drives the reactors: a callback at a time per stream, the next read
    only after [StartRead], nothing after [Finish]; and [Shutdown] returns
    only when all streams have ended. *)
Class ReactorServer (V : Type) `{!GrpcServer V} := {
  streams : V -> gmap nat stream;
  streams_internal (v : V) choice v' : server_step v (Server_internal choice) = Some v' ->
    forall tid, stream_quiet (streams v !! tid) (streams v' !! tid);
  streams_call (v : V) tid ev v' : server_step v (Server_call tid ev) = Some v' ->
    exists s r, streams v !! tid = Some s /\ phase s = Reading /\ stream_begin s = (r, inr ev) /\
      streams v' = <[tid := set_phase s r In_sink]> (streams v);
  streams_return (v : V) tid result s : streams v !! tid = Some s -> phase s = In_sink ->
    streams (callback_returned v tid result) = <[tid := stream_resume s result]> (streams v);
  streams_shutdown (v : V) : streams (server_Shutdown v) = streams v;
  streams_callbacks (v : V) tid :
    tid ∈ callbacks v <-> exists s, streams v !! tid = Some s /\ phase s = In_sink;
  streams_stopped (v : V) tid s : server_stopped v = true -> streams v !! tid = Some s ->
    exists st, phase s = Ended st;
}.
End halves.

(** ** What a stream has done *)

(** How a stream ends whose accepted messages leave validator state [v]. *)
Inductive stream_end (v : StreamValidator) :
    list (TelemetryEvent * Z) -> Status -> StreamSummary -> Prop :=
  | ended_complete : stream_end v [] Status_OK (populate_summary v)
  | ended_invalid ev now rest v' reason : accept v ev = (reject reason, v') ->
      stream_end v ((ev, now) :: rest)
        {| status_code := INVALID_ARGUMENT; status_message := reason |} StreamSummary_default
  | ended_refused ev now rest v' result r st : accept v ev = (accept_result, v') ->
      callback_end r result = (r, Finish st) ->
      stream_end v ((ev, now) :: rest) st StreamSummary_default.

Definition stream_inv (s : stream) : Prop :=
  exists v, accept_stream StreamValidator_init (accepted_messages s).*1 =
      ((accepted_messages s).*1, v) /\
    match phase s with
    | Reading => validator_ (reactor s) = v /\ response_ (reactor s) = StreamSummary_default
    | In_sink =>
        response_ (reactor s) = StreamSummary_default /\
        exists message rest, unread s = message :: rest /\
          accept v message.1 = (accept_result, validator_ (reactor s))
    | Ended st => stream_end v (unread s) st (response_ (reactor s))
    end.

Section streams.
Context (moved_from : TelemetryEvent -> TelemetryEvent).

Lemma new_stream_inv messages : stream_inv (new_stream messages).
Proof. by exists StreamValidator_init. Qed.

Lemma accept_stream_snoc evs ev : forall st v v',
  accept_stream st evs = (evs, v) -> accept v ev = (accept_result, v') ->
  accept_stream st (evs ++ [ev]) = (evs ++ [ev], v').
Proof.
  induction evs as [|e evs IH]; intros st v v' Hs Ha.
  - injection Hs as ->. cbn. by rewrite Ha.
  - cbn [app accept_stream] in *. destruct (accept st e) as [res st'] eqn:He.
    destruct (accept_stream st' evs) as [acc st''] eqn:Hr. destruct (accepted res).
    + injection Hs as -> ->. by rewrite (IH _ _ _ Hr Ha).
    + exfalso. pose proof (f_equal (fun p => length p.1) Hr) as Hlen. injection Hs as -> _.
      pose proof (accept_stream_length evs st') as Hle. rewrite Hr in Hle. cbn in Hle. lia.
Qed.

Lemma stream_begin_end s r st : stream_inv s -> phase s = Reading ->
  stream_begin moved_from s = (r, inl st) -> stream_inv (set_phase s r (Ended st)).
Proof.
  intros (v & Hv & Hp) Hph Hb. rewrite Hph in Hp. destruct Hp as [Hval Hresp].
  exists v. split; [done|]. cbn. unfold stream_begin in Hb.
  destruct (unread s) as [|[ev now] rest].
  - injection Hb as <- <-. cbn. rewrite Hval. constructor.
  - unfold callback_begin in Hb. cbn [negb store_message validator_ event_ response_] in Hb.
    rewrite Hval in Hb.
    destruct (accept_verdict v ev) as [[v' Ha]|(reason & v' & Ha)]; rewrite Ha in Hb;
      cbn [accepted accept_result reject negb error] in Hb; [done|].
    injection Hb as <- <-. cbn. rewrite Hresp. by econstructor.
Qed.

Lemma stream_begin_call s r ev : stream_inv s -> phase s = Reading ->
  stream_begin moved_from s = (r, inr ev) ->
  stream_inv (set_phase s r In_sink) /\
  exists message rest, unread s = message :: rest /\ ev = collected_of message.
Proof.
  intros (v & Hv & Hp) Hph Hb. rewrite Hph in Hp. destruct Hp as [Hval Hresp].
  unfold stream_begin in Hb. destruct (unread s) as [|[m now] rest] eqn:Hu; [done|].
  unfold callback_begin in Hb. cbn [negb store_message validator_ event_ response_] in Hb.
  rewrite Hval in Hb.
  destruct (accept_verdict v m) as [[v' Ha]|(reason & v' & Ha)]; rewrite Ha in Hb;
    cbn [accepted accept_result reject negb error] in Hb; [|done].
  injection Hb as <- <-. split; [|by exists (m, now), rest].
  exists v. split; [done|]. cbn. split; [done|]. by exists (m, now), rest.
Qed.

(** The sink's answer. *)
Lemma stream_resume_inv s result message rest : stream_inv s -> phase s = In_sink ->
  unread s = message :: rest ->
  stream_inv (stream_resume s result) /\ phase (stream_resume s result) <> In_sink /\
  accepted_messages (stream_resume s result) =
    accepted_messages s ++ (if bool_decide (result = Sink_accepted) then [message] else []).
Proof.
  intros (v & Hv & Hp) Hph Hu. rewrite Hph in Hp.
  destruct Hp as (Hresp & message' & rest' & Hu' & Ha). rewrite Hu in Hu'. injection Hu' as <- <-.
  unfold stream_resume. rewrite Hu.
  destruct result; cbn [callback_end]; (split; [|split; [done|by rewrite ?app_nil_r]]).
  - exists (validator_ (reactor s)). cbn. split; [|done].
    rewrite fmap_app. by eapply accept_stream_snoc.
  - exists v. cbn. split; [done|]. rewrite Hu, Hresp. destruct message as [ev now].
    by eapply (ended_refused _ _ _ _ _ Sink_overloaded (reactor s)).
  - exists v. cbn. split; [done|]. rewrite Hu, Hresp. destruct message as [ev now].
    by eapply (ended_refused _ _ _ _ _ Sink_unavailable (reactor s)).
Qed.

Lemma stream_quiet_inv s s' : stream_quiet moved_from s s' ->
  from_option stream_inv True s -> from_option stream_inv True s' /\
  (from_option accepted_messages [] s' = from_option accepted_messages [] s).
Proof.
  destruct 1 as [s|messages|s r st Hp Hb]; intros Hs; [done| |].
  - split; [apply new_stream_inv|done].
  - split; [|done]. by apply stream_begin_end.
Qed.
End streams.

(** ** Tracing the events taken in *)

(** The event a thread inside [try_accept] carries, and one it has pushed already. *)
Definition carried (pc : producer_pc) : CollectedEvent :=
  match pc with P_load ev | P_push ev | P_notify ev => ev end.

Section tracing.
Context (moved_from : TelemetryEvent -> TelemetryEvent).
Context {V : Type} `{!GrpcServer V, !GrpcServerLaws V} `{!EventCodec}.
Context {HR : ReactorServer moved_from V}.
Context (banner : output) (c0 : collector_consumer) (cap : Z).
Implicit Types (st : serving V) (v : V) (s : sink_state collector_consumer).

Definition accepted_of v (tid : nat) : list CollectedEvent :=
  collected_of <$> from_option accepted_messages [] (streams moved_from v !! tid).
Definition pending_of s (tid : nat) : list CollectedEvent :=
  option_list (QueuedSink.producers s !! tid ≫= notify_event).

(** The events taken in, tagged with their streams: of each stream, in order, those
    of its accepted messages and one that is about to be answered. *)
Definition traces v s (tagged : list (nat * CollectedEvent)) : Prop :=
  tagged.*2 = taken s /\
  forall tid, (filter (fun p => p.1 = tid) tagged).*2 = accepted_of v tid ++ pending_of s tid.

Record traced v s : Prop := {
  tr_streams : map_Forall (fun _ => stream_inv) (streams moved_from v);
  tr_carried : forall tid pc, QueuedSink.producers s !! tid = Some pc ->
    exists x message rest, streams moved_from v !! tid = Some x /\ phase x = In_sink /\
      unread x = message :: rest /\ carried pc = collected_of message;
  tr_tagged : exists tagged, traces v s tagged;
}.

(** Steps that touch neither the callers nor what was taken in. *)
Lemma traced_same v v' s s' : traced v s -> streams moved_from v' = streams moved_from v ->
  QueuedSink.producers s' = QueuedSink.producers s -> taken s' = taken s -> traced v' s'.
Proof.
  intros [H1 H2 (tagged & H3 & H4)] Hv Hp Ht. constructor; rewrite ?Hv, ?Hp; [done..|].
  exists tagged. unfold traces, accepted_of, pending_of in *. by rewrite Hv, Hp, Ht.
Qed.

Lemma traced_internal v choice v' s : traced v s -> callbacks v = dom (QueuedSink.producers s) ->
  server_step v (Server_internal choice) = Some v' -> traced v' s.
Proof.
  intros [H1 H2 (tagged & H3 & H4)] Hcb Hst.
  pose proof (streams_internal moved_from v choice v' Hst) as Hq.
  assert (Hall : forall tid, from_option stream_inv True (streams moved_from v !! tid)).
  { intros tid. destruct (streams moved_from v !! tid) as [x|] eqn:Hx; [|done]. by eapply H1. }
  constructor.
  - intros tid x Hx. pose proof (stream_quiet_inv moved_from _ _ (Hq tid) (Hall tid)) as [Hi _].
    by rewrite Hx in Hi.
  - intros tid pc Hpc. destruct (H2 tid pc Hpc) as (x & m & rest & Hx & Hph & Hu & Hc).
    exists x, m, rest. split_and!; try done. pose proof (Hq tid) as Hqt. rewrite Hx in Hqt.
    inversion Hqt; subst; [done|congruence].
  - exists tagged. split; [done|]. intros tid. rewrite H4. f_equal. unfold accepted_of.
    by destruct (stream_quiet_inv moved_from _ _ (Hq tid) (Hall tid)) as [_ ->].
Qed.

Lemma traced_call v tid ev v' s : traced v s -> QueuedSink.producers s !! tid = None ->
  server_step v (Server_call tid ev) = Some v' ->
  traced v' (set_producer s tid (P_load ev)).
Proof.
  intros [H1 H2 (tagged & H3 & H4)] Hnone Hst.
  destruct (streams_call moved_from v tid ev v' Hst) as (x & r & Hx & Hph & Hb & Hv).
  destruct (stream_begin_call moved_from x r ev (H1 _ _ Hx) Hph Hb) as (Hi & m & rest & Hu & ->).
  constructor.
  - rewrite Hv. by apply map_Forall_insert_2.
  - intros tid' pc. cbn. rewrite Hv. destruct (decide (tid' = tid)) as [->|Hne].
    + rewrite lookup_insert_eq. intros [= <-]. eexists _, m, rest. by rewrite lookup_insert_eq.
    + rewrite !lookup_insert_ne by done. apply H2.
  - exists tagged. split; [done|]. intros tid'. rewrite H4.
    unfold accepted_of, pending_of. cbn. rewrite Hv. destruct (decide (tid' = tid)) as [->|Hne].
    + by rewrite !lookup_insert_eq, Hx, Hnone.
    + by rewrite !lookup_insert_ne by done.
Qed.

(** A step inside [try_accept] that does not return. *)
Lemma traced_stays v s s' tid pc pc' more : traced v s ->
  QueuedSink.producers s !! tid = Some pc -> carried pc' = carried pc ->
  QueuedSink.producers s' = <[tid := pc']> (QueuedSink.producers s) ->
  taken s' = taken s ++ more ->
  option_list (notify_event pc') = option_list (notify_event pc) ++ more -> traced v s'.
Proof.
  intros [H1 H2 (tagged & H3 & H4)] Hpc Hc Hp Ht Hn. constructor; [done|..].
  - intros tid' pc2. rewrite Hp. destruct (decide (tid' = tid)) as [->|Hne].
    + rewrite lookup_insert_eq. intros [= <-]. rewrite Hc. by apply H2.
    + rewrite lookup_insert_ne by done. apply H2.
  - exists (tagged ++ (pair tid <$> more)). split.
    { rewrite fmap_app, H3, Ht. f_equal. rewrite <- list_fmap_compose. apply list_fmap_id. }
    intros tid'. rewrite filter_app, fmap_app, H4. unfold pending_of. rewrite Hp, <- app_assoc.
    f_equal. destruct (decide (tid' = tid)) as [->|Hne].
    + rewrite lookup_insert_eq, Hpc. cbn. rewrite Hn. f_equal.
      rewrite filter_all by (by intros p (y & -> & _)%list_elem_of_fmap).
      rewrite <- list_fmap_compose. apply list_fmap_id.
    + rewrite lookup_insert_ne by done. rewrite filter_nothing; [by rewrite app_nil_r|].
      intros p (y & -> & _)%list_elem_of_fmap. cbn. congruence.
Qed.

(** A step that returns to the reactor. *)
Lemma traced_returns v s s' tid pc ev result : traced v s ->
  QueuedSink.producers s !! tid = Some pc -> 
  QueuedSink.producers s' = delete tid (QueuedSink.producers s) -> taken s' = taken s ->
  last (results s') = Some (tid, ev, result) ->
  option_list (notify_event pc) = (if bool_decide (result = Sink_accepted) then [carried pc] else []) ->
  traced (after_call v tid s') s'.
Proof.
  intros [H1 H2 (tagged & H3 & H4)] Hpc Hp Ht Hl Hn.
  destruct (H2 tid pc Hpc) as (x & m & rest & Hx & Hph & Hu & Hc).
  unfold after_call. rewrite Hp, lookup_delete_eq, Hl.
  pose proof (streams_return moved_from v tid result x Hx Hph) as Hv.
  destruct (stream_resume_inv x result m rest (H1 _ _ Hx) Hph Hu) as (Hi & Hne & Ha).
  constructor.
  - rewrite Hv. by apply map_Forall_insert_2.
  - intros tid' pc'. rewrite Hp. intros [Hnt Hpc']%lookup_delete_Some. rewrite Hv.
    rewrite lookup_insert_ne by done. by apply H2.
  - exists tagged. split; [by rewrite Ht|]. intros tid'. rewrite H4. unfold accepted_of, pending_of.
    rewrite Hv, Hp. destruct (decide (tid' = tid)) as [->|Hnt].
    + rewrite lookup_insert_eq, lookup_delete_eq, Hx, Hpc. cbn [from_option option_bind mbind].
      rewrite Ha, fmap_app, app_nil_r, Hn. f_equal. rewrite Hc. by destruct result.
    + by rewrite lookup_insert_ne, lookup_delete_ne by done.
Qed.

Lemma traced_callback v s tid s' : traced v s -> producer_step s tid = Some s' ->
  traced (after_call v tid s') s'.
Proof.
  intros Htr He.
  assert (Hin : forall pc', QueuedSink.producers s' !! tid = Some pc' -> after_call v tid s' = v)
    by (intros pc' Hp'; unfold after_call; by rewrite Hp').
  unfold producer_step in He. destruct (QueuedSink.producers s !! tid) as [[ev|ev|ev]|] eqn:Hp; [| | |done].
  - destruct (negb (accepting_events_ s)); injection He as <-.
    + by eapply (traced_returns v s _ tid (P_load ev) ev Sink_unavailable); try done; cbn; rewrite ?last_snoc.
    + rewrite (Hin (P_push ev)) by apply lookup_insert_eq.
      eapply (traced_stays v s _ tid (P_load ev) (P_push ev) []); try done. by rewrite app_nil_r.
  - destruct (try_push (queue_ s) ev) as [[] q']; injection He as <-.
    + rewrite (Hin (P_notify ev)) by apply lookup_insert_eq.
      by eapply (traced_stays v s _ tid (P_push ev) (P_notify ev) [ev]).
    + eapply (traced_returns v s _ tid (P_push ev) ev Sink_overloaded); try done; cbn;
        by rewrite ?app_nil_r, ?last_snoc.
    + eapply (traced_returns v s _ tid (P_push ev) ev Sink_unavailable); try done; cbn;
        by rewrite ?app_nil_r, ?last_snoc.
  - injection He as <-. eapply (traced_returns v s _ tid (P_notify ev) ev Sink_accepted); try done.
    cbn. by rewrite last_snoc.
Qed.

Lemma main_step_same st st' : main_step banner st = Some st' ->
  server_ st' = server_ st /\ QueuedSink.producers (sink_ st') = QueuedSink.producers (sink_ st) /\
  taken (sink_ st') = taken (sink_ st).
Proof. unfold main_step. intros He. repeat case_match; by simplify_eq. Qed.

Lemma monitor_step_same st st' : monitor_step st = Some st' ->
  streams moved_from (server_ st') = streams moved_from (server_ st) /\ sink_ st' = sink_ st.
Proof.
  unfold monitor_step. intros He.
  destruct (monitor st); repeat case_match; simplify_eq; cbn; split; try done.
  apply (streams_shutdown moved_from).
Qed.

Lemma worker_step_taken s s' : worker_step s = Some s' -> taken s' = taken s.
Proof.
  unfold worker_step. intros He. repeat case_match; simplify_eq; cbn; try done; by rewrite app_nil_r.
Qed.

Lemma shutdown_step_taken s s' : shutdown_step s = Some s' -> taken s' = taken s.
Proof.
  unfold shutdown_step. intros He. repeat case_match; simplify_eq; cbn; try done; by rewrite app_nil_r.
Qed.

Lemma act_traced st a st' : serving_inv banner c0 cap st -> traced (server_ st) (sink_ st) ->
  act banner st a = Some st' -> traced (server_ st') (sink_ st').
Proof.
  intros Hi Htr. destruct a as [| | | |tid|[choice|tid ev]|n|]; cbn [act].
  - intros (Hv & Hp & Ht)%main_step_same. eapply traced_same; [done|by rewrite Hv|done..].
  - intros (Hv & Hs)%monitor_step_same. rewrite Hs. by eapply traced_same.
  - destruct (worker_step (sink_ st)) as [s|] eqn:He; [|done]. intros [= <-].
    eapply traced_same; [done|done|by apply worker_step_same|by apply worker_step_taken].
  - destruct (shutdown_step (sink_ st)) as [s|] eqn:He; [|done]. intros [= <-].
    eapply traced_same; [done|done|by apply shutdown_step_same|by apply shutdown_step_taken].
  - destruct (producer_step (sink_ st) tid) as [s|] eqn:He; [|done]. intros [= <-].
    by eapply traced_callback.
  - destruct (server_step (server_ st) _) as [v|] eqn:He; [|done]. intros [= <-].
    eapply traced_internal; [done|by apply (sv_callbacks _ _ _ _ Hi)|done].
  - destruct (server_step (server_ st) _) as [v|] eqn:He; [|done]. intros [= <-].
    eapply traced_call; [done| |done]. apply not_elem_of_dom.
    destruct (step_callbacks _ _ _ He) as (Hd & _). cbn in Hd.
    rewrite <- (sv_callbacks _ _ _ _ Hi). set_solver.
  - destruct (n =? 0); [done|]. by intros [= <-].
  - destruct (worker (sink_ st)); try done. by intros [= <-]; eapply traced_same.
Qed.

Lemma reach_traced st st' : serving_inv banner c0 cap st -> traced (server_ st) (sink_ st) ->
  rtc (serving_step banner) st st' -> traced (server_ st') (sink_ st').
Proof.
  intros Hi Htr Hrun. revert Hi Htr. induction Hrun as [|x y z [a y' Hy] _ IH]; [done|].
  intros Hi Htr. apply IH; [by eapply act_inv|by eapply act_traced].
Qed.

Lemma start_traced v s : QueuedSink.producers s = ∅ -> taken s = [] ->
  streams moved_from v = ∅ -> traced v s.
Proof.
  intros Hp Ht Hv. constructor.
  - rewrite Hv. apply map_Forall_empty.
  - intros tid pc. by rewrite Hp, lookup_empty.
  - exists []. split; [by rewrite Ht|]. intros tid. unfold accepted_of, pending_of.
    by rewrite Hp, Hv, !lookup_empty.
Qed.
End tracing.

(** ** Properties *)

(** A message that may be sent: the codec round-trips it and its arrival time is a
    64-bit one. *)
Definition message_ok (wire_ok : TelemetryEvent -> Prop) (m : TelemetryEvent * Z) : Prop :=
  wire_ok m.1 /\ in_s64 m.2.

Section traces.
Context (moved_from : TelemetryEvent -> TelemetryEvent).
Context {V : Type} `{!GrpcServer V} {HR : ReactorServer moved_from V} `{!EventCodec}.
Implicit Types (v : V).

(** Without callers, the tagged events of a stream are its accepted messages. *)
Lemma traces_idle v s tagged tid : traces moved_from v s tagged -> QueuedSink.producers s = ∅ ->
  (filter (fun p => p.1 = tid) tagged).*2 = accepted_of moved_from v tid.
Proof.
  intros [_ Hf] Hp. rewrite Hf. unfold pending_of. by rewrite Hp, lookup_empty, app_nil_r.
Qed.

Lemma traces_session_ok wire_ok v s tagged : traces moved_from v s tagged ->
  QueuedSink.producers s = ∅ ->
  map_Forall (fun _ x => Forall (message_ok wire_ok) (sent x)) (streams moved_from v) ->
  session_ok wire_ok (as_call <$> taken s).
Proof.
  intros Ht Hp Hsent. pose proof Ht as [<- _]. apply Forall_forall. intros call Hc.
  apply list_elem_of_fmap in Hc as (ev & -> & Hev).
  apply list_elem_of_fmap in Hev as ([tid ev'] & -> & Hin).
  assert (Hev : ev' ∈ accepted_of moved_from v tid).
  { rewrite <- (traces_idle v s tagged tid Ht Hp). apply list_elem_of_fmap.
    exists (tid, ev'). split; [done|]. by apply list_elem_of_filter. }
  apply list_elem_of_fmap in Hev as (m & -> & Hm). cbn.
  destruct (streams moved_from v !! tid) as [x|] eqn:Hx; [|by apply not_elem_of_nil in Hm].
  pose proof (Hsent _ _ Hx) as Hf. rewrite Forall_forall in Hf. apply Hf.
  unfold sent. by apply elem_of_app; left.
Qed.
End traces.

Lemma stream_end_ok v rest st summary : stream_end v rest st summary ->
  status_code st = OK -> rest = [] /\ summary = populate_summary v.
Proof.
  destruct 1 as [|ev now rest v' reason Ha|ev now rest v' result r st Ha Hc]; [done|done|].
  intros Hok. destruct result; inversion Hc; subst st; done.
Qed.

(** C3: what [collect --output] has recorded when it returns 0 is what its clients sent.
    Whatever the interleaving of the streams, the threads and the signals, the file
    - even after a crash right behind the report - reads as an interleaving of the
    messages accepted of each stream, in the order sent; these are the first
    messages of the stream, the validator accepts every one of them, and the stream
    has ended with the status of the first message not among them, or with [OK]
    and the validator's summary when there is none. *)
Theorem recording_traced_to_clients {V} `{!GrpcServer V, !GrpcServerLaws V} `{!EventCodec}
    (moved_from : TelemetryEvent -> TelemetryEvent) {HR : ReactorServer moved_from V}
    (wire_ok : TelemetryEvent -> Prop) `{!EventCodecLaws _ wire_ok}
    fs script now port args o c0 banner (v : V) s st e c (cut : nat)
    (Hstart : collector_start fs script now port args = inr (o, c0, banner))
    (Hpath : output_path o <> ""%string) (Hnow : in_s64 now)
    (Hup : set_up c0 (queue_capacity o) v s) (Hnone : streams moved_from v = ∅)
    (Hrun : rtc (serving_step banner) (serving_start v s) st)
    (Hend : main_thread st = N_done e c) (Hzero : exit_code e = 0)
    (Hsent : map_Forall (fun _ x => Forall (message_ok wire_ok) (sent x))
               (streams moved_from (server_ st)))
    (Hmax : Zlength (taken (sink_ st)) <= 1000000) :
  exists tagged w inspect r, c = Recording {| writer_ := w |} /\
    (let fs' := with_files fs (files_after fs w cut) in
     run_inspect fs' (output_path o) = Some inspect /\ exit_code inspect = 0 /\
     read_log fs' (output_path o) LogReadOptions_default = Some r) /\
    (fun r => (rec_event r, rec_collector_arrival_timestamp_ns r)) <$> records r =
      as_call <$> tagged.*2 /\
    (forall tid, as_call <$> (filter (fun p => p.1 = tid) tagged).*2 =
       from_option accepted_messages [] (streams moved_from (server_ st) !! tid)) /\
    map_Forall (fun _ x => exists vd status,
        accept_stream StreamValidator_init (accepted_messages x).*1 =
          ((accepted_messages x).*1, vd) /\
        phase x = Ended status /\ stream_end vd (unread x) status (response_ (reactor x)) /\
        (status_code status = OK -> accepted_messages x = sent x /\
           response_ (reactor x) = populate_summary vd))
      (streams moved_from (server_ st)).
Proof.
  pose proof (set_up_inv _ _ _ _ _ _ Hup Hrun) as Hi.
  destruct (past_wait_idle _ _ _ st Hi) as (Hstop & _ & Hp & _); [by rewrite Hend|].
  assert (Htr : traced moved_from (server_ st) (sink_ st)).
  { destruct Hup.
    apply (reach_traced moved_from banner c0 (queue_capacity o) (serving_start v s) st);
      [by apply start_inv|by apply start_traced|exact Hrun]. }
  destruct Htr as [Hinv _ (tagged & Ht)].
  pose proof (traces_session_ok moved_from wire_ok _ _ _ Ht Hp Hsent) as Hok.
  destruct (collect_records_accepted wire_ok fs script now port args o c0 banner v s st e c cut
    Hstart Hpath Hnow Hup Hrun Hend Hok Hmax) as (_ & _ & Hv).
  destruct (Hv Hzero) as (_ & w & inspect & r & -> & H1 & H2 & H3 & H4).
  exists tagged, w, inspect, r. split_and!; try done.
  - rewrite H4. by destruct Ht as [-> _].
  - intros tid. rewrite (traces_idle moved_from _ _ _ _ Ht Hp). unfold accepted_of.
    rewrite <- list_fmap_compose. rewrite <- (list_fmap_id (from_option _ _ _)) at 2.
    apply list_fmap_ext. by intros i [ev ts] _.
  - intros tid x Hx. destruct (streams_stopped moved_from _ tid x Hstop Hx) as [status Hph].
    destruct (Hinv tid x Hx) as (vd & Hacc & Hcase). rewrite Hph in Hcase.
    exists vd, status. split_and!; try done. intros Hs.
    destruct (stream_end_ok _ _ _ _ Hcase Hs) as [Hu Hr]. unfold sent. by rewrite Hu, app_nil_r.
Qed.

(** ** A server that runs the reactors *)

Definition in_sink (x : stream) : bool := match phase x with In_sink => true | _ => false end.
Definition ended_stream (x : stream) : bool := match phase x with Ended _ => true | _ => false end.

(** [clients] are those still to connect, with their messages. *)
Record reactor_server := {
  clients : list (nat * list (TelemetryEvent * Z));
  rs_streams : gmap nat stream;
  rs_down : bool;
}.

Definition with_stream (v : reactor_server) (tid : nat) (x : stream) : reactor_server :=
  {| clients := clients v; rs_streams := <[tid := x]> (rs_streams v);
     rs_down := rs_down v |}.

Definition all_ended (v : reactor_server) : bool :=
  bool_decide (map_Forall (fun _ x => ended_stream x = true) (rs_streams v)).

(** [0]: a client connects; [n + 1]: stream [n] ends. *)
Definition reactor_step (v : reactor_server) (e : server_event) : option reactor_server :=
  match e with
  | Server_internal 0 =>
      match clients v with
      | (tid, messages) :: others =>
          match rs_down v, rs_streams v !! tid with
          | false, None =>
              Some {| clients := others; rs_streams := <[tid := new_stream messages]> (rs_streams v);
                      rs_down := false |}
          | _, _ => None
          end
      | [] => None
      end
  | Server_internal (S tid) =>
      x ← rs_streams v !! tid;
      match phase x, stream_begin (fun ev => ev) x with
      | Reading, (r, inl st) => Some (with_stream v tid (set_phase x r (Ended st)))
      | _, _ => None
      end
  | Server_call tid ev =>
      x ← rs_streams v !! tid;
      match phase x, stream_begin (fun ev => ev) x with
      | Reading, (r, inr ev') =>
          if bool_decide (ev = ev') then Some (with_stream v tid (set_phase x r In_sink)) else None
      | _, _ => None
      end
  end.

Definition reactor_returned (v : reactor_server) (tid : nat) (result : SinkResult) : reactor_server :=
  match rs_streams v !! tid with
  | Some x => if in_sink x then with_stream v tid (stream_resume x result) else v
  | None => v
  end.

#[export] Instance reactor_grpc : GrpcServer reactor_server := {
  server_step := reactor_step;
  callback_returned := reactor_returned;
  server_Shutdown v :=
    {| clients := clients v; rs_streams := rs_streams v; rs_down := true |};
  callbacks v := dom (filter (fun p => in_sink p.2 = true) (rs_streams v));
  shutting_down := rs_down;
  server_stopped v := rs_down v && all_ended v;
}.

Lemma elem_callbacks v tid : tid ∈ callbacks v <->
  exists x, rs_streams v !! tid = Some x /\ phase x = In_sink.
Proof.
  cbn. rewrite elem_of_dom. split.
  - intros [x [Hx Hs]%map_lookup_filter_Some]. exists x. split; [done|].
    unfold in_sink in Hs. cbn in Hs. by destruct (phase x).
  - intros (x & Hx & Hp). exists x. apply map_lookup_filter_Some. split; [done|].
    unfold in_sink. cbn. by rewrite Hp.
Qed.

(** What changing one stream does to the callbacks. *)
Lemma callbacks_with v tid x i : i ∈ callbacks (with_stream v tid x) <->
  if decide (i = tid) then phase x = In_sink else i ∈ callbacks v.
Proof.
  rewrite !elem_callbacks. cbn [rs_streams with_stream]. destruct (decide (i = tid)) as [->|Hne].
  - rewrite lookup_insert_eq. naive_solver.
  - rewrite lookup_insert_ne by done. by rewrite elem_callbacks.
Qed.

Lemma resumed_phase x result : phase x = In_sink -> phase (stream_resume x result) <> In_sink.
Proof. unfold stream_resume. by destruct result, (unread x). Qed.

Lemma reactor_step_streams v e v' : reactor_step v e = Some v' -> rs_down v' = rs_down v /\
  match e with
  | Server_internal _ =>
      (forall tid, stream_quiet (fun ev => ev) (rs_streams v !! tid) (rs_streams v' !! tid))
  | Server_call tid ev => exists x r, rs_streams v !! tid = Some x /\ phase x = Reading /\
      stream_begin (fun ev => ev) x = (r, inr ev) /\ v' = with_stream v tid (set_phase x r In_sink)
  end.
Proof.
  unfold reactor_step. destruct e as [[|tid]|tid ev].
  - destruct (clients v) as [|[tid messages] others]; [done|].
    destruct (rs_down v); [done|]. destruct (rs_streams v !! tid) eqn:Hn; [done|].
    intros [= <-]. split; [done|]. cbn. intros i. destruct (decide (i = tid)) as [->|Hne].
    + rewrite lookup_insert_eq, Hn. constructor.
    + rewrite lookup_insert_ne by done. constructor.
  - destruct (rs_streams v !! tid) as [x|] eqn:Hx; [|done]. cbn.
    destruct (phase x) eqn:Hp; try done.
    destruct (stream_begin _ x) as [r [st|ev]] eqn:Hb; [|done]. intros [= <-].
    split; [done|]. cbn. intros i. destruct (decide (i = tid)) as [->|Hne].
    + rewrite lookup_insert_eq, Hx. by constructor.
    + rewrite lookup_insert_ne by done. constructor.
  - destruct (rs_streams v !! tid) as [x|] eqn:Hx; [|done]. cbn.
    destruct (phase x) eqn:Hp; try done.
    destruct (stream_begin _ x) as [r [st|ev']] eqn:Hb; [done|].
    case_bool_decide; [|done]. subst ev'. intros [= <-]. split; [done|]. by exists x, r.
Qed.

Lemma ended_no_callbacks v : all_ended v = true -> callbacks v = ∅.
Proof.
  intros Ha%bool_decide_eq_true. apply set_eq. intros i. rewrite elem_callbacks.
  split; [|set_solver]. intros (x & Hx & Hp). specialize (Ha i x Hx).
  unfold ended_stream in Ha. by rewrite Hp in Ha.
Qed.

Lemma ended_no_step v : rs_down v = true -> all_ended v = true -> forall e, reactor_step v e = None.
Proof.
  intros Hd Ha%bool_decide_eq_true e. unfold reactor_step. rewrite Hd.
  assert (Hn : forall tid x, rs_streams v !! tid = Some x -> phase x <> Reading).
  { intros tid x Hx Hp. specialize (Ha tid x Hx). unfold ended_stream in Ha. by rewrite Hp in Ha. }
  destruct e as [[|tid]|tid ev]; [by destruct (clients v) as [|[]]|..];
    destruct (rs_streams v !! tid) as [x|] eqn:Hx; try done; cbn;
    pose proof (Hn tid x Hx); by destruct (phase x).
Qed.

(** A quiet step neither enters nor leaves the sink. *)
Lemma quiet_in_sink moved_from a b : stream_quiet moved_from a b ->
  (exists y, b = Some y /\ phase y = In_sink) <-> (exists y, a = Some y /\ phase y = In_sink).
Proof.
  destruct 1 as [a|messages|s r st Hp Hb]; [done|..];
    split; intros (y & [= <-] & Hy); by rewrite ?Hp in Hy.
Qed.

#[export] Instance reactor_grpc_laws : GrpcServerLaws reactor_server.
Proof.
  split.
  - intros v. cbn [server_stopped reactor_grpc]. rewrite andb_true_iff. intros [Hd Ha].
    split_and!; [done|by apply ended_no_callbacks|]. by apply ended_no_step.
  - intros v e v' He. destruct (reactor_step_streams v e v' He) as [Hd Hs].
    destruct e as [choice|tid ev]; cbn [calling].
    + split_and!; [set_solver| |done]. apply set_eq. intros i. rewrite elem_of_union, !elem_callbacks.
      rewrite (quiet_in_sink _ _ _ (Hs i)). set_solver.
    + destruct Hs as (x & r & Hx & Hp & _ & ->). split_and!; [|apply set_eq; intros i|done].
      * intros i ->%elem_of_singleton. rewrite elem_callbacks. naive_solver congruence.
      * rewrite elem_of_union, elem_of_singleton, callbacks_with.
        destruct (decide (i = tid)); naive_solver.
  - intros v tid result Hin. pose proof Hin as (x & Hx & Hp)%elem_callbacks. cbn.
    unfold reactor_returned. rewrite Hx. unfold in_sink. rewrite Hp. split; [|done].
    apply set_eq. intros i. rewrite elem_of_difference, elem_of_singleton.
    change (i ∈ callbacks (with_stream v tid (stream_resume x result)) <-> i ∈ callbacks v /\ i <> tid).
    rewrite callbacks_with. pose proof (resumed_phase x result Hp).
    destruct (decide (i = tid)); naive_solver.
  - done.
Qed.

#[export] Instance reactor_streams : ReactorServer (fun ev => ev) reactor_server.
Proof.
  refine (Build_ReactorServer _ _ _ rs_streams _ _ _ _ _ _).
  - intros v choice v' He. by apply (reactor_step_streams v (Server_internal choice)).
  - intros v tid ev v' He. destruct (reactor_step_streams v (Server_call tid ev) v' He) as [_ (x & r & H1 & H2 & H3 & ->)].
    by exists x, r.
  - intros v tid result x Hx Hp. cbn. unfold reactor_returned. rewrite Hx. unfold in_sink. by rewrite Hp.
  - done.
  - intros v tid. apply elem_callbacks.
  - intros v tid x. cbn. rewrite andb_true_iff. intros [_ Ha%bool_decide_eq_true] Hx.
    specialize (Ha tid x Hx). unfold ended_stream in Ha. cbn in Ha. destruct (phase x); try done. by eexists.
Defined.

(** *** Its clients finish: every stream has only so many messages *)

Definition stream_rank (x : stream) : nat :=
  match phase x with
  | Ended _ => 0
  | Reading => 2 * length (unread x) + 1
  | In_sink => Nat.max 1 (2 * length (unread x))
  end.

Definition reactor_rank (v : reactor_server) : nat :=
  map_weight stream_rank (rs_streams v).

Lemma reactor_rank_with v tid x x' : rs_streams v !! tid = Some x ->
  (reactor_rank (with_stream v tid x') + stream_rank x = reactor_rank v + stream_rank x')%nat.
Proof.
  intros Hx. unfold reactor_rank. cbn. rewrite map_weight_insert, (map_weight_lookup _ _ _ _ Hx). lia.
Qed.

Lemma resume_rank x result : phase x = In_sink -> (stream_rank (stream_resume x result) <= stream_rank x)%nat.
Proof.
  intros Hp. unfold stream_rank. rewrite Hp. unfold stream_resume.
  destruct result, (unread x) as [|m rest] eqn:Hu; cbn; rewrite ?Hu; cbn; lia.
Qed.

(** Whatever the next callback of a reading stream does, it can be made. *)
Lemma reading_steps v tid x : rs_streams v !! tid = Some x ->
  phase x = Reading -> exists e, is_Some (reactor_step v e).
Proof.
  intros Hx Hp. destruct (stream_begin (fun ev => ev) x) as [r [st|ev]] eqn:Hb.
  - exists (Server_internal (S tid)). unfold reactor_step. rewrite Hx. cbn. rewrite Hp, Hb.
    by eexists.
  - exists (Server_call tid ev). unfold reactor_step. rewrite Hx. cbn. rewrite Hp, Hb.
    rewrite bool_decide_eq_true_2 by done. by eexists.
Qed.

#[export] Instance reactor_clients_finish : ClientsFinish reactor_server.
Proof.
  apply (Build_ClientsFinish _ _ reactor_rank).
  - intros v e v' Hd. cbn in Hd |- *. unfold reactor_step. destruct e as [[|tid]|tid ev].
    + rewrite Hd. by destruct (clients v) as [|[]].
    + destruct (rs_streams v !! tid) as [x|] eqn:Hx; [|done]. cbn. destruct (phase x) eqn:Hp; try done.
      destruct (stream_begin _ x) as [r [st|ev]]; [|done]. intros [= <-].
      pose proof (reactor_rank_with v tid x (set_phase x r (Ended st)) Hx) as Hr.
      revert Hr. unfold stream_rank. rewrite Hp. cbn. lia.
    + destruct (rs_streams v !! tid) as [x|] eqn:Hx; [|done]. cbn. destruct (phase x) eqn:Hp; try done.
      destruct (stream_begin _ x) as [r [st|ev']] eqn:Hb; [done|]. case_bool_decide; [|done].
      intros [= <-]. pose proof (reactor_rank_with v tid x (set_phase x r In_sink) Hx) as Hr.
      revert Hr. unfold stream_rank. rewrite Hp. cbn. unfold stream_begin in Hb.
      destruct (unread x) as [|m rest]; [done|]. cbn [length]. lia.
  - intros v tid result. cbn. unfold reactor_returned.
    destruct (rs_streams v !! tid) as [x|] eqn:Hx; [|lia]. destruct (in_sink x) eqn:Hs; [|lia].
    pose proof (reactor_rank_with v tid x (stream_resume x result) Hx).
    assert (phase x = In_sink) as Hp by (unfold in_sink in Hs; by destruct (phase x)).
    pose proof (resume_rank x result Hp). lia.
  - intros v Hd Hc Hs. cbn in Hd, Hs |- *. rewrite Hd in Hs. apply bool_decide_eq_false in Hs.
    apply map_not_Forall in Hs as (tid & x & Hx & Hn); [|apply _]. apply (reading_steps v tid x Hx).
    destruct (phase x) eqn:Hp; [done| |unfold ended_stream in Hn; by rewrite Hp in Hn].
    assert (Hin : tid ∈ callbacks v) by (apply elem_callbacks; by exists x).
    rewrite Hc in Hin. set_solver.
Qed.

(** ** Witness: two clients, one of which sends a sequence number twice *)

Definition two_clients : reactor_server :=
  {| clients := [(1%nat, [as_call (sample_collected 1)]);
                 (2%nat, [as_call (sample_collected 2); as_call (sample_collected 2)])];
     rs_streams := ∅; rs_down := false |}.

Definition client_schedule : list actor :=
  [A_main; A_server (Server_internal 0); A_monitor; A_server (Server_internal 0);
   A_server (Server_call 1 (sample_collected 1)); A_server (Server_call 2 (sample_collected 2));
   A_callback 2; A_worker; A_callback 2; A_callback 1; A_callback 1; A_callback 2; A_worker;
   A_callback 1; A_server (Server_internal 2); A_signal 15; A_monitor; A_worker; A_worker;
   A_monitor; A_server (Server_internal 3); A_monitor; A_worker; A_worker; A_worker; A_main;
   A_main; A_main; A_sink_shutdown; A_sink_shutdown; A_sink_shutdown; A_worker; A_sink_shutdown;
   A_main; A_main; A_main; A_main; A_sink_shutdown; A_sink_shutdown; A_sink_shutdown;
   A_sink_shutdown; A_main].

Definition served : serving reactor_server :=
  default (serving_start two_clients fresh_sink)
    (@run_serving _ _ pipeline_codec collect_banner (serving_start two_clients fresh_sink)
       client_schedule).

Lemma two_clients_up : @set_up _ _ pipeline_codec collect_consumer 2 two_clients fresh_sink.
Proof. constructor; [apply sample_set_up|vm_compute; reflexivity..]. Qed.

Lemma served_run : rtc (@serving_step _ _ pipeline_codec collect_banner)
  (serving_start two_clients fresh_sink) served.
Proof.
  assert (Hr : is_Some (@run_serving _ _ pipeline_codec collect_banner
    (serving_start two_clients fresh_sink) client_schedule)) by (vm_compute; by eexists).
  unfold served. destruct Hr as [st Hr]. rewrite Hr. by eapply run_serving_reach.
Qed.

Definition served_result : Exit * collector_consumer :=
  default (exit_with 9 [], collect_consumer) (report_of (main_thread served)).

Definition messages_ok (x : stream) : bool :=
  forallb (fun m => (- 2 ^ 63 <=? m.2) && (m.2 <? 2 ^ 63)) (sent x).

Lemma served_messages_ok :
  map_Forall (fun _ x => Forall (message_ok (fun _ => True)) (sent x)) (rs_streams (server_ served)).
Proof.
  assert (Hb : bool_decide (map_Forall (fun _ x => messages_ok x = true)
    (rs_streams (server_ served))) = true) by (vm_compute; reflexivity).
  apply bool_decide_eq_true in Hb. intros tid x Hx. specialize (Hb tid x Hx).
  unfold messages_ok in Hb. rewrite forallb_forall in Hb. apply Forall_forall. intros m Hm.
  apply list_elem_of_In in Hm. specialize (Hb m Hm). reflect_bools. by split; [|split].
Qed.

(** The file holds the one good message of each client. *)
Lemma recording_traced_to_clients_witness :
  exit_code (fst served_result) = 0 /\
  exists tagged w r, snd served_result = Recording {| writer_ := w |} /\
    @read_log pipeline_codec (with_files (fs_of ∅) (files_after (fs_of ∅) w 0)) "run.tflog"
      LogReadOptions_default = Some r /\
    (fun r => (rec_event r, rec_collector_arrival_timestamp_ns r)) <$> records r =
      as_call <$> tagged.*2 /\
    as_call <$> (filter (fun p => p.1 = 2%nat) tagged).*2 = [as_call (sample_collected 2)].
Proof.
  assert (He : exit_code (fst served_result) = 0) by (vm_compute; reflexivity).
  split; [exact He|].
  destruct (@recording_traced_to_clients _ _ _ pipeline_codec (fun ev => ev) _ _ pipeline_codec_laws
    (fs_of ∅) [] 77 (Some 50051) collect_args collect_options collect_consumer collect_banner
    two_clients fresh_sink served (fst served_result) (snd served_result) 0
    collect_started ltac:(done) ltac:(solve_range) two_clients_up ltac:(reflexivity) served_run
    ltac:(vm_compute; reflexivity) He served_messages_ok ltac:(vm_compute; congruence))
    as (tagged & w & inspect & r & Hc & (_ & _ & Hr) & Hrec & Hstreams & _).
  exists tagged, w, r. split; [exact Hc|]. split; [exact Hr|]. split; [exact Hrec|].
  rewrite (Hstreams 2%nat). vm_compute. reflexivity.
Defined.
