(* ===== verification/Fuzz.v ===== *)
(** * Fuzz: the harness [fuzz/recording_parser_fuzz.cpp]

    The scratch log, its two ways of preparing a file (raw bytes, or a recording
    with bytes changed), what [exercise_parser] does with it, and the entry point
    that libFuzzer calls once per input. The calls the harness makes on the
    library are returned as a list, so that what a run exercises can be stated. *)
From Stdlib Require Import ZArith Lia.
From Stdlib Require Import Strings.Ascii Strings.Byte.
From stdpp Require Import base gmap strings list pretty.
From S2P Require Import Prelude Bytes Floats Telemetry Validation Streams Crc32c LogFormat.
From S2P Require Import LogWriter LogReader LogRecovery Recording.
Local Open Scope Z_scope.
Local Open Scope tf_scope.

(** ** The rest of [<fstream>] and [<filesystem>] in use here *)

(** [path / name] for a relative [name]. *)
Definition path_append (dir name : string) : string :=
  match last (String.list_ascii_of_string dir) with
  | None => name
  | Some c => if Ascii.eqb c "/"%char then dir ++ name else dir ++ "/" ++ name
  end%string.

(** [std::filesystem::remove(path, error)], the error ignored. *)
Definition fs_remove (fails : bool) (fs : filesystem) (path : string) : filesystem :=
  return_if fails with fs ;; with_files fs (delete path (files fs)).

(** [close()] of an output stream; of a buffer whose write fails, some bytes
    may have reached the file. *)
Definition os_close (s : ofstream) : ofstream :=
  let flushed := os_flush s in
  {| os_open := false; os_bad := os_bad flushed;
     os_data := match os_bad s, os_script s with
                | false, Io_fail kept :: _ => take kept (os_data s)
                | _, _ => os_data s
                end;
     os_synced := os_synced flushed; os_script := os_script flushed |}.

(** [std::fstream] opened for reading and writing: one position for both. *)
Record fstream := { fst_in : ifstream; fst_script : list IoOutcome }.

Definition fstream_open (data : bytes) (script : list IoOutcome) : fstream :=
  {| fst_in := ifstream_open data; fst_script := script |}.

Definition fst_data (s : fstream) : bytes := is_data (fst_in s).
Definition fst_fail (s : fstream) : bool := is_fail (fst_in s).
Definition fst_good (s : fstream) : bool := is_good (fst_in s).

Definition fst_seekg (s : fstream) (pos : Z) : fstream :=
  {| fst_in := is_seekg (fst_in s) pos; fst_script := fst_script s |}.

Definition fst_read (s : fstream) (n : Z) : bytes * fstream :=
  let '(got, input) := is_read (fst_in s) n in
  (got, {| fst_in := input; fst_script := fst_script s |}).

(** [seekp] keeps [eofbit]. *)
Definition fst_seekp (s : fstream) (pos : Z) : fstream :=
  return_if fst_fail s with s ;;
  let i := fst_in s in
  {| fst_in := {| is_data := is_data i; is_pos := if pos <? 0 then is_pos i else pos;
                  is_eofbit := is_eofbit i; is_failbit := pos <? 0;
                  is_gcount := is_gcount i |};
     fst_script := fst_script s |}.

(** The file after [bs] was written at [pos], which is not behind its end. *)
Definition overwrite (data : bytes) (pos : Z) (bs : bytes) : bytes :=
  take (Z.to_nat pos) data ++ bs ++ drop (Z.to_nat pos + length bs) data.

Definition fst_write (s : fstream) (bs : bytes) : fstream :=
  return_if negb (fst_good s) with s ;;
  let i := fst_in s in
  let after bad written :=
    {| is_data := overwrite (is_data i) (is_pos i) written;
       is_pos := is_pos i + Zlength written; is_eofbit := false; is_failbit := bad;
       is_gcount := is_gcount i |} in
  match fst_script s with
  | [] => {| fst_in := after false bs; fst_script := [] |}
  | Io_ok :: script => {| fst_in := after false bs; fst_script := script |}
  | Io_fail kept :: script => {| fst_in := after true (take kept bs); fst_script := script |}
  end.

Definition fst_flush (s : fstream) : fstream :=
  return_if negb (fst_good s) with s ;;
  let i := fst_in s in
  let after bad :=
    {| is_data := is_data i; is_pos := is_pos i; is_eofbit := is_eofbit i;
       is_failbit := bad; is_gcount := is_gcount i |} in
  match fst_script s with
  | [] => s
  | Io_ok :: script => {| fst_in := fst_in s; fst_script := script |}
  | Io_fail _ :: script => {| fst_in := after true; fst_script := script |}
  end.

(** ** The harness *)

(** What the environment answers during one call. *)
Record FuzzIo := {
  io_temp_directory : option string;   (* [None]: [temp_directory_path()] throws *)
  io_steady_clock : Z;             (* ticks since its epoch *)
  io_remove_fails : bool;
  io_system_now : Z;
  io_output : list IoOutcome;      (* the writes to the new file *)
  io_update : list IoOutcome;      (* the writes of the mutations *)
}.

(** [ScratchLog::ScratchLog], whose state is its path; [None]: it throws. *)
Definition ScratchLog_new (io : FuzzIo) : option string :=
  match io_temp_directory io with
  | None => None
  | Some directory =>
      Some (path_append directory
        ("traceforge_recording_fuzz_" ++ pretty (io_steady_clock io) ++ ".tflog"))
  end.

Definition ScratchLog_delete (io : FuzzIo) (fs : filesystem) (path_ : string) : filesystem :=
  fs_remove (io_remove_fails io) fs path_.

Definition parser_options : LogReadOptions :=
  {| maximum_records := 4096; retain_records := false |}.

(** The library calls of [exercise_parser], with their results. *)
Inductive ParserCall :=
  | Called_read (result : LogReadResult)
  | Called_recover (recovery : RecoveryResult).

(** The event of the valid log. *)
Definition seed_event : TelemetryEvent :=
  {| schema_version := kTelemetrySchemaVersion; producer_id := "fuzz-seed";
     sequence_number := 0; source_timestamp_ns := 1; source_clock := CLOCK_DOMAIN_UTC;
     payload := kTemperature {| degrees_celsius := double_of_Z 42 |} |}.

Definition seed_options : LogWriterOptions :=
  {| flush_every_records := 1; opt_created_unix_ns := 1 |}.

Definition xor_byte (value mask : byte) : byte :=
  byte_of (Z.lxor (byte_val value) (byte_val mask)).

(** One pass of the loop over the mutations. *)
Definition mutate_byte (file_size : Z) (file : fstream) (offset mask : byte) : bool * fstream :=
  let offset := u64 (byte_val offset) mod file_size in
  let file := fst_seekg file offset in
  let '(value, file) := fst_read file 1 in
  return_if fst_fail file with (false, file) ;;
  let value := xor_byte (default x00 (head value)) mask in
  let file := fst_seekp file offset in
  let file := fst_write file [value] in
  return_if fst_fail file with (false, file) ;;
  (true, file).

(** The loop, in steps of two bytes: a last byte without a mask gets [0xFF]. *)
Fixpoint mutate_loop (file_size : Z) (mutations : bytes) (file : fstream) : bool * fstream :=
  match mutations with
  | [] => (true, file)
  | [offset] => mutate_byte file_size file offset xff
  | offset :: mask :: rest =>
      let '(ok, file) := mutate_byte file_size file offset mask in
      return_if negb ok with (false, file) ;;
      mutate_loop file_size rest file
  end.

Definition write_raw (io : FuzzIo) (fs : filesystem) (path : string) (data : bytes)
    : bool * filesystem :=
  return_if open_error fs path with (false, fs) ;;
  let output := os_write (ofstream_opened (io_output io)) data in
  let output := os_close output in
  (os_good output, with_files fs (<[path := os_data output]> (files fs))).

Definition kMaximumFuzzInput : Z := 8 * 1024 * 1024.

Section codec.
Context `{!EventCodec}.

Definition exercise_parser (fs : filesystem) (path : string)
    : option (list ParserCall * filesystem) :=
  match read_log fs path parser_options with
  | None => None
  | Some result =>
      return_if negb (bool_decide (status result = Log_truncated_tail)) with
        Some ([Called_read result], fs) ;;
      match recover_truncated_tail fs path parser_options with
      | None => None
      | Some (recovery, fs) =>
          return_if negb (succeeded recovery) with
            Some ([Called_read result; Called_recover recovery], fs) ;;
          match read_log fs path parser_options with
          | None => None
          | Some again => Some ([Called_read result; Called_recover recovery; Called_read again], fs)
          end
      end
  end.

(** The block in which the writer lives; its destructor runs at both exits. *)
Definition write_seed (io : FuzzIo) (fs : filesystem) (path : string) : bool * filesystem :=
  let writer := LogWriter_new fs (io_output io) (io_system_now io) path seed_options in
  let '(ok, writer) := append writer seed_event 2 in
  let '(ok, writer) := if ok then flush writer else (false, writer) in
  (ok, with_files fs (files_closed fs writer)).

Definition write_mutated_valid_log (io : FuzzIo) (fs : filesystem) (path : string)
    (mutations : bytes) : bool * filesystem :=
  let fs := fs_remove (io_remove_fails io) fs path in
  let '(ok, fs) := write_seed io fs path in
  return_if negb ok with (false, fs) ;;
  match fs_file_size fs path with
  | None => (false, fs)
  | Some file_size =>
      return_if file_size =? 0 with (false, fs) ;;
      match fs_open_read fs path with
      | None => (false, fs)
      | Some data =>
          let '(ok, file) := mutate_loop file_size mutations (fstream_open data (io_update io)) in
          let file := if ok then fst_flush file else file in
          (ok && fst_good file, with_files fs (<[path := fst_data file]> (files fs)))
      end
  end.

(** What lasts between two inputs: the function's [static] and the files. *)
Record Harness := { scratch : option string; harness_fs : filesystem }.

(** How one call ends: with a return value, after the calls listed, or with the
    exception of the constructor of its [static]. *)
Inductive FuzzResult :=
  | Fuzz_returns (code : Z) (calls : list ParserCall) (after : Harness)
  | Fuzz_throws (after : Harness).

(** The entry point. A [static] whose constructor threw stays unconstructed. *)
Definition LLVMFuzzerTestOneInput (io : FuzzIo) (h : Harness) (data : bytes)
    : option FuzzResult :=
  return_if kMaximumFuzzInput <? Zlength data with Some (Fuzz_returns 0 [] h) ;;
  match (match scratch h with Some path => Some path | None => ScratchLog_new io end) with
  | None => Some (Fuzz_throws h)
  | Some path =>
      let use_raw_input :=
        match data with b :: _ => negb (Z.land (byte_val b) 1 =? 0) | [] => false end in
      let payload := tail data in
      let '(prepared, fs) :=
        if use_raw_input then write_raw io (harness_fs h) path payload
        else write_mutated_valid_log io (harness_fs h) path payload in
      return_if negb prepared with
        Some (Fuzz_returns 0 [] {| scratch := Some path; harness_fs := fs |}) ;;
      match exercise_parser fs path with
      | None => None
      | Some (calls, fs) =>
          Some (Fuzz_returns 0 calls {| scratch := Some path; harness_fs := fs |})
      end
  end.

(** A run of the fuzzer: every input in turn, up to an exception, which nobody
    catches; then the exit, where the scratch log is destroyed if there is one. *)
Fixpoint fuzz_inputs (h : Harness) (inputs : list (FuzzIo * bytes))
    : option (list (Z * list ParserCall) * bool * Harness) :=
  match inputs with
  | [] => Some ([], false, h)
  | (io, data) :: inputs =>
      match LLVMFuzzerTestOneInput io h data with
      | None => None
      | Some (Fuzz_throws h) => Some ([], true, h)
      | Some (Fuzz_returns code calls h) =>
          match fuzz_inputs h inputs with
          | None => None
          | Some (all, threw, h) => Some ((code, calls) :: all, threw, h)
          end
      end
  end.

Definition fuzz_exit (io : FuzzIo) (h : Harness) : filesystem :=
  match scratch h with None => harness_fs h | Some path => ScratchLog_delete io (harness_fs h) path end.
End codec.

(** ** What the operations leave alone *)

(** At most the file at [path] differs; the file system answers as before. *)
Definition only_touches (path : string) (fs fs' : filesystem) : Prop :=
  delete path (files fs') = delete path (files fs) /\
  stat_error fs' = stat_error fs /\ open_error fs' = open_error fs /\
  resize_error fs' = resize_error fs.

#[export] Instance only_touches_preorder path : PreOrder (only_touches path).
Proof. split; [done|]. intros a b c (?&?&?&?) (?&?&?&?). repeat split; congruence. Qed.

Lemma touches_insert path fs bs : only_touches path fs (with_files fs (<[path := bs]> (files fs))).
Proof. split; [|done]. cbn. apply delete_insert_eq. Qed.

Lemma touches_remove path fails fs : only_touches path fs (fs_remove fails fs path).
Proof. unfold fs_remove. destruct fails; [done|]. split; [|done]. cbn. apply delete_delete_eq. Qed.

Lemma touches_elsewhere path fs fs' p : only_touches path fs fs' -> p <> path ->
  files fs' !! p = files fs !! p.
Proof.
  intros [Hd _] Hp. apply (f_equal (fun m => m !! p)) in Hd.
  by rewrite !lookup_delete_ne in Hd.
Qed.

(** ** The mutations *)

(** The effect of one mutation, and of all of them, on the bytes. *)
Definition mutated_byte (size : Z) (data : bytes) (offset mask : byte) : bytes :=
  alter (fun value => xor_byte value mask) (Z.to_nat (byte_val offset mod size)) data.

Fixpoint mutated (size : Z) (mutations data : bytes) : bytes :=
  match mutations with
  | [] => data
  | [offset] => mutated_byte size data offset xff
  | offset :: mask :: rest => mutated size rest (mutated_byte size data offset mask)
  end.

Lemma overwrite_one data pos v : (Z.to_nat pos < length data)%nat ->
  overwrite data pos [v] = <[Z.to_nat pos := v]> data.
Proof.
  intros Hp. unfold overwrite. cbn [length]. rewrite insert_take_drop by done.
  by rewrite Nat.add_1_r.
Qed.

Lemma fst_good_inv s : fst_good s = true ->
  is_eofbit (fst_in s) = false /\ is_failbit (fst_in s) = false.
Proof. unfold fst_good, is_good. intros H%negb_true_iff%orb_false_iff. done. Qed.

Lemma mutate_byte_spec size file offset mask :
  0 < size -> size = Zlength (fst_data file) -> fst_good file = true ->
  let '(ok, file') := mutate_byte size file offset mask in
  length (fst_data file') = length (fst_data file) /\
  (ok = true -> fst_good file' = true /\
     fst_data file' = mutated_byte size (fst_data file) offset mask) /\
  (fst_script file = [] -> ok = true /\ fst_script file' = []).
Proof.
  intros Hs Hsize (He & Hf)%fst_good_inv. unfold mutate_byte.
  assert (Hu : u64 (byte_val offset) = byte_val offset).
  { pose proof (byte_val_range offset). apply u64_small. tf_arith. }
  rewrite Hu. pose proof (Z.mod_pos_bound (byte_val offset) size Hs) as Hr.
  unfold mutated_byte. set (pos := byte_val offset mod size) in *.
  destruct file as [[data p eof failb g] script]. unfold fst_data in *. cbn in He, Hf, Hsize. subst eof failb.
  unfold fst_seekg, is_seekg. cbn [fst_in is_failbit is_data is_pos is_gcount fst_script].
  destruct (Z.ltb_spec pos 0) as [|_]; [lia|].
  destruct (lookup_lt_is_Some_2 data (Z.to_nat pos)) as [v Hv]; [lia|].
  unfold fst_read, is_read, is_rest. cbn [fst_in is_good is_eofbit is_failbit is_data is_pos orb negb].
  rewrite (drop_S _ _ _ Hv). change (Z.to_nat 1) with 1%nat. cbn [take firstn].
  rewrite take_0. cbn [length]. change (Z.of_nat 1 <? 1) with false. unfold fst_fail, is_fail. cbn [fst_in is_failbit head].
  unfold fst_seekp, fst_fail, is_fail. cbn [fst_in is_failbit is_data is_eofbit is_pos is_gcount].
  destruct (Z.ltb_spec pos 0) as [|_]; [lia|].
  unfold fst_write, fst_good, is_good. cbn [fst_in is_failbit is_eofbit is_data is_pos is_gcount fst_script orb negb].
  assert (Ho : overwrite data pos [xor_byte v mask] = alter (fun value => xor_byte value mask) (Z.to_nat pos) data).
  { rewrite overwrite_one by lia. symmetry. apply list_eq. intros i.
    destruct (decide (i = Z.to_nat pos)) as [->|].
    - by rewrite list_lookup_alter_eq, list_lookup_insert_eq, Hv by lia.
    - by rewrite list_lookup_alter_ne, list_lookup_insert_ne by done. }
  assert (Hl : forall k, length (overwrite data pos (take k [xor_byte v mask])) = length data).
  { intros k. unfold overwrite. rewrite !length_app, !length_take, length_drop. cbn. lia. }
  destruct script as [|[|k] script]; cbn -[take].
  all: rewrite ?Ho, ?Hl, ?length_alter; split_and!; try done.
Qed.

Lemma mutate_loop_spec size mutations : forall file,
  0 < size -> size = Zlength (fst_data file) -> fst_good file = true ->
  let '(ok, file') := mutate_loop size mutations file in
  length (fst_data file') = length (fst_data file) /\
  (ok = true -> fst_good file' = true /\ fst_data file' = mutated size mutations (fst_data file)) /\
  (fst_script file = [] -> ok = true /\ fst_script file' = []).
Proof.
  induction mutations as [mutations IH] using (induction_ltof1 _ (@length byte)).
  intros file Hs Hsize Hg. destruct mutations as [|offset [|mask rest]]; [done|by apply mutate_byte_spec|].
  cbn [mutate_loop mutated]. pose proof (mutate_byte_spec size file offset mask Hs Hsize Hg) as H.
  destruct (mutate_byte size file offset mask) as [[] f1]; destruct H as (Hl & Hok & Hn); cbn [negb].
  2: { split_and!; [done|done|]. intros Hsc. by destruct (Hn Hsc). }
  destruct (Hok eq_refl) as [Hg1 Hd1].
  pose proof (IH rest ltac:(unfold ltof; cbn; lia) f1 Hs ltac:(by rewrite Hl) Hg1) as H2.
  destruct (mutate_loop size rest f1) as [ok f2]. destruct H2 as (Hl2 & Hok2 & Hn2).
  split_and!; [congruence|by rewrite <- Hd1|]. intros Hsc. apply Hn2. by apply Hn.
Qed.

Lemma xor_byte_same v m : xor_byte v m = v <-> m = x00.
Proof.
  unfold xor_byte. split.
  - intros H. apply (f_equal byte_val) in H. rewrite byte_val_of, u8_small in H.
    + apply byte_val_inj. change (byte_val x00) with 0.
      apply (f_equal (Z.lxor (byte_val v))) in H.
      by rewrite <- Z.lxor_assoc, Z.lxor_nilpotent, Z.lxor_0_l in H.
    + pose proof (byte_val_range v). pose proof (byte_val_range m). split.
      * apply Z.lxor_nonneg. lia.
      * destruct (Z.eq_dec (Z.lxor (byte_val v) (byte_val m)) 0) as [->|]; [lia|].
        apply (Z.log2_lt_pow2 _ 8).
        { pose proof (proj2 (Z.lxor_nonneg (byte_val v) (byte_val m))). lia. }
        pose proof (Z.log2_lxor (byte_val v) (byte_val m)) as Hx.
        pose proof (Z.log2_le_mono (byte_val v) 255). pose proof (Z.log2_le_mono (byte_val m) 255).
        change (Z.log2 255) with 7 in *. lia.
  - intros ->. change (byte_val x00) with 0. rewrite Z.lxor_0_r. apply byte_of_val.
Qed.

(** ** Preparing the file *)

Lemma os_close_good s : os_bad (os_close s) = false ->
  os_bad s = false /\ os_data (os_close s) = os_data s.
Proof.
  unfold os_close, os_flush. destruct (os_bad s) eqn:Hb; cbn; [congruence|].
  destruct (os_script s) as [|[|k] script]; cbn; done.
Qed.

Lemma write_raw_spec io fs path data :
  let '(ok, fs') := write_raw io fs path data in
  only_touches path fs fs' /\
  (ok = true -> files fs' !! path = Some data) /\
  (open_error fs path = false -> io_output io = [] -> ok = true).
Proof.
  unfold write_raw. destruct (open_error fs path); [done|].
  split_and!; [apply touches_insert| |].
  - intros Hok. cbn [files with_files]. rewrite lookup_insert_eq. f_equal.
    apply negb_true_iff, os_close_good in Hok as [Hb ->].
    by apply os_write_good in Hb as [_ ->].
  - intros _ ->. done.
Qed.

Section seed.
Context `{!EventCodec}.

(** The recording the mutations are applied to, if the format takes the event. *)
Definition seed_image : option bytes :=
  (fun e => log_image 1 [e]) <$> entry_of seed_event 2.

Lemma seed_image_size img : seed_image = Some img -> 0 < Zlength img < 2 ^ 63.
Proof.
  unfold seed_image, entry_of. intros (e & He & ->)%fmap_Some.
  destruct (negb _); [done|]. destruct (SerializeToString seed_event) as [p|]; [|done].
  destruct (kMaximumPayloadSize <? Zlength p) eqn:Hz; [done|]. injection He as <-. reflect_bools.
  rewrite log_image_length. cbn [records_image].
  rewrite length_app, record_image_length. cbn [body length].
  unfold kMaximumPayloadSize in *. tf_arith.
Qed.

Lemma write_seed_spec io fs path :
  let '(ok, fs') := write_seed io fs path in
  only_touches path fs fs' /\
  (ok = true -> exists img, seed_image = Some img /\ files fs' !! path = Some img).
Proof.
  unfold write_seed.
  destruct (LogWriter_new_spec (fun _ _ _ => True) fs (io_output io) (io_system_now io) path
    seed_options) as [Hpath Hnew]; [done|].
  set (w0 := LogWriter_new _ _ _ _ _) in *.
  assert (Hclosed : forall w, path_ w = path ->
    only_touches path fs (with_files fs (files_closed fs w))).
  { intros w Hp. destruct (os_open (output_ w)) eqn:Ho.
    - destruct (files_closed_open fs w Ho) as (cut & -> & _).
      rewrite files_after_open, Hp by done. apply touches_insert.
    - by rewrite files_closed_unopened by done. }
  destruct (good w0) eqn:Hg0.
  2: { unfold append. rewrite Hg0. cbn [negb]. split; [by apply Hclosed|done]. }
  destruct (good_inv _ Hg0) as (_ & Ho0 & _). rewrite Ho0 in Hnew.
  destruct Hnew as (Hi & _ & _ & _).
  pose proof (append_spec _ _ [] w0 seed_event 2 Hi I ltac:(solve_range) Hg0) as Ha.
  destruct (append w0 seed_event 2) as [ok1 w1]. destruct Ha as ((Hp1 & _ & Ho1) & Hg1 & Ha).
  destruct ok1; [|split; [apply Hclosed; congruence|done]].
  destruct Ha as (e & He & Hi1). pose proof (flush_spec w1 Hg1) as Hf.
  destruct (flush w1) as [ok2 w2] eqn:Hf2. destruct Hf as ((Hp2 & _) & _).
  split; [apply Hclosed; congruence|]. intros ->.
  exists (log_image 1 [e]). unfold seed_image. rewrite He. split; [done|].
  rewrite (proj2 (flushed_files fs w1 w2 0 Hf2)). cbn [files with_files].
  rewrite Hp1, Hpath, lookup_insert_eq.
  by destruct (wi_good _ _ _ _ Hi1 Hg1) as [-> _].
Qed.

Lemma write_mutated_spec io fs path mutations :
  let '(ok, fs') := write_mutated_valid_log io fs path mutations in
  only_touches path fs fs' /\
  (ok = true -> exists img, seed_image = Some img /\
     files fs' !! path = Some (mutated (Zlength img) mutations img) /\
     length (mutated (Zlength img) mutations img) = length img).
Proof.
  unfold write_mutated_valid_log. set (fs0 := fs_remove _ fs path).
  pose proof (touches_remove path (io_remove_fails io) fs) as H0. fold fs0 in H0.
  pose proof (write_seed_spec io fs0 path) as Hs.
  destruct (write_seed io fs0 path) as [[] fs1]; destruct Hs as (H1 & Himg); cbn [negb];
    [|split; [by etransitivity|done]].
  assert (H01 : only_touches path fs fs1) by (by etransitivity).
  destruct (Himg eq_refl) as (img & Hsd & Hfile). pose proof (seed_image_size _ Hsd) as Hsz.
  unfold fs_file_size. destruct (stat_error fs1 path); [done|]. rewrite Hfile. cbn [fmap option_fmap option_map].
  destruct (Z.eqb_spec (Zlength img) 0) as [|_]; [done|].
  unfold fs_open_read. destruct (open_error fs1 path); [done|]. rewrite Hfile.
  pose proof (mutate_loop_spec (Zlength img) mutations (fstream_open img (io_update io))
    ltac:(lia) eq_refl eq_refl) as Hm.
  destruct (mutate_loop _ _ _) as [ok file]. destruct Hm as (Hl & Hok & _).
  split; [etransitivity; [exact H01|apply touches_insert]|].
  destruct ok; [|done]. intros _. destruct (Hok eq_refl) as [_ Hd].
  exists img. split; [done|]. cbn [files with_files]. rewrite lookup_insert_eq.
  change (fst_data (fstream_open img (io_update io))) with img in Hd, Hl.
  assert (Hff : fst_data (fst_flush file) = fst_data file).
  { unfold fst_flush. destruct (fst_good file); [|done]. cbn [negb].
    by destruct (fst_script file) as [|[] ?]. }
  rewrite Hff, Hd. split; [done|]. congruence.
Qed.
End seed.

(** ** What the parser is asked *)

(** The sequences of calls one input can cause. *)
Inductive calls_ok : list ParserCall -> Prop :=
  | calls_none : calls_ok []
  | calls_read r :
      status r <> Log_truncated_tail ->
      Zlength (index r) <= maximum_records parser_options -> records r = [] ->
      calls_ok [Called_read r]
  | calls_refused r rc :
      status r = Log_truncated_tail -> succeeded rc = false -> changed rc = false ->
      calls_ok [Called_read r; Called_recover rc]
  | calls_recovered r rc again :
      status r = Log_truncated_tail -> succeeded rc = true -> changed rc = true ->
      recovered_size rc = valid_bytes r -> recovered_size rc < original_size rc ->
      status again = Log_complete -> file_size again = valid_bytes r ->
      created_unix_ns again = created_unix_ns r -> index again = index r ->
      records again = [] -> calls_ok [Called_read r; Called_recover rc; Called_read again].

Section harness.
Context `{!EventCodec}.

(** A file system that does not answer is an input/output error. *)
Lemma read_log_unanswered fs path options :
  stat_error fs path = true \/ open_error fs path = true ->
  (forall data, files fs !! path = Some data -> Zlength data < 2 ^ 64) ->
  exists r, read_log fs path options = Some r /\ status r = Log_io_error /\ index r = [] /\
    records r = [].
Proof.
  intros Hor Hsz. unfold read_log, read_log_from, fs_file_size, fs_open_read.
  destruct (stat_error fs path); [by eexists|].
  destruct Hor as [|Ho]; [done|]. rewrite Ho.
  destruct (files fs !! path); by eexists.
Qed.

Lemma exercise_parser_spec fs path data :
  files fs !! path = Some data -> Zlength data < 2 ^ 63 ->
  exists calls fs', exercise_parser fs path = Some (calls, fs') /\ calls_ok calls /\
    only_touches path fs fs'.
Proof.
  intros Hfile Hsz. unfold exercise_parser.
  destruct (stat_error fs path) eqn:Hst; [|destruct (open_error fs path) eqn:Hop].
  1,2: destruct (read_log_unanswered fs path parser_options) as (r & -> & Hr & Hi & Hrs);
    [auto|intros d [= <-]%(eq_trans (eq_sym Hfile)); lia|];
    rewrite Hr, bool_decide_eq_false_2 by done; do 2 eexists; split_and!; [done| |done];
    apply calls_read; [congruence|rewrite Hi; cbn; lia|done].
  destruct (read_log_vouches fs path parser_options data) as (r & Hr & Hsize & Hcase);
    [done..|lia|cbn; lia|]. rewrite Hr.
  assert (Hidx : Zlength (index r) <= maximum_records parser_options /\ records r = []).
  { destruct Hcase as [(_ & _ & -> & ->)|(hdr & l & _ & _ & Hl & _ & _ & -> & -> & _)]; [done|].
    by rewrite stored_index_length. }
  destruct (decide (status r = Log_truncated_tail)) as [Ht|Ht].
  2: { rewrite bool_decide_eq_false_2 by done. do 2 eexists. split_and!; [done| |done].
       by apply calls_read; [|apply Hidx..]. }
  rewrite bool_decide_eq_true_2 by done. cbn [negb].
  assert (Hf : readable_file fs path data) by (constructor; [done..|lia]).
  pose proof Hr as Hr0. rewrite (read_log_file _ _ _ _ Hf) in Hr0.
  pose proof (truncated_has_header parser_options data r ltac:(cbn; lia) ltac:(lia) Hr0 Ht) as Hv.
  unfold recover_truncated_tail. rewrite Hr, Ht. cbn [negb orb bool_decide].
  rewrite bool_decide_eq_false_2, bool_decide_eq_true_2 by done. cbn [negb orb].
  destruct (Z.ltb_spec (valid_bytes r) kFileHeaderSize) as [Hlt|_];
    [unfold kFileHeaderSize in Hlt; lia|].
  destruct (resize_error fs path) eqn:Hres.
  { unfold fs_resize. rewrite Hres. cbn [succeeded negb]. do 2 eexists.
    split_and!; [done| |done]. by apply calls_refused. }
  destruct (truncated_tail_cut fs path data parser_options r Hf ltac:(cbn; lia) Hr Ht Hres)
    as (data' & fs' & r' & Hcut & Hfiles & H1 & H2 & H3 & H4 & H5 & H6 & H7 & H8).
  rewrite Hcut. cbn [succeeded negb]. rewrite H4. do 2 eexists. split; [done|].
  assert (Hshort : (length data' < length data)%nat).
  { destruct H1 as [u ->]. rewrite length_app. destruct u; [by rewrite app_nil_r in H2|]. cbn. lia. }
  unfold fs_resize in Hcut. rewrite Hres, Hfile in Hcut. injection Hcut as <-. split.
  - apply calls_recovered; cbn [succeeded changed recovered_size original_size]; try done.
    + rewrite Hsize. lia.
    + rewrite <- H3. unfold read_log in H4. unfold fs_file_size, fs_open_read in H4.
      cbn [stat_error with_files] in H4. rewrite Hst, Hfiles, lookup_insert_eq in H4.
      by eapply read_log_size in H4.
    + rewrite H8. apply Hidx.
  - apply touches_insert.
Qed.

(** One input: the harness returns 0, touches only the scratch log, and asks the
    parser at most what is listed above - or it throws, having touched nothing. *)
Definition input_outcome (io : FuzzIo) (h : Harness) (data : bytes) (r : FuzzResult) : Prop :=
  match r with
  | Fuzz_returns code calls h' =>
      code = 0 /\ calls_ok calls /\
      (h' = h /\ calls = [] /\ kMaximumFuzzInput < Zlength data \/
       Zlength data <= kMaximumFuzzInput /\
       exists path, scratch h' = Some path /\ only_touches path (harness_fs h) (harness_fs h') /\
         match scratch h with Some p => p = path | None => io_temp_directory io <> None end)
  | Fuzz_throws h' =>
      h' = h /\ scratch h = None /\ io_temp_directory io = None /\
      Zlength data <= kMaximumFuzzInput
  end.

Lemma fuzz_input_spec io h data : exists r,
  LLVMFuzzerTestOneInput io h data = Some r /\ input_outcome io h data r.
Proof.
  unfold LLVMFuzzerTestOneInput, input_outcome.
  destruct (Z.ltb_spec kMaximumFuzzInput (Zlength data)) as [Hbig|Hsz].
  { eexists. split; [done|]. cbn beta iota. split_and!; [done|constructor|by left]. }
  set (where_ := match scratch h with Some path => Some path | None => _ end).
  destruct where_ as [path|] eqn:Hwhere.
  2: { eexists. split; [done|]. cbn beta iota. unfold where_, ScratchLog_new in Hwhere.
       destruct (scratch h); [done|]. by destruct (io_temp_directory io). }
  assert (Hdef : match scratch h with Some p => p = path | None => io_temp_directory io <> None end).
  { unfold where_, ScratchLog_new in Hwhere. destruct (scratch h); [congruence|].
    by destruct (io_temp_directory io). }
  clear where_ Hwhere. set (raw := match data with [] => _ | _ => _ end).
  set (prep := if raw then _ else _).
  assert (Hprep : only_touches path (harness_fs h) prep.2 /\
    (prep.1 = true -> exists d, files prep.2 !! path = Some d /\ Zlength d < 2 ^ 63)).
  { unfold prep. destruct raw.
    - pose proof (write_raw_spec io (harness_fs h) path (tail data)) as Hw.
      destruct (write_raw _ _ _ _) as [ok fs']. destruct Hw as (Ht & Hok & _).
      split; [done|]. intros Hp. exists (tail data). split; [by apply Hok|].
      unfold kMaximumFuzzInput in Hsz. destruct data; cbn [tail length] in *; tf_arith.
    - pose proof (write_mutated_spec io (harness_fs h) path (tail data)) as Hw.
      destruct (write_mutated_valid_log _ _ _ _) as [ok fs']. destruct Hw as (Ht & Hok).
      split; [done|]. intros Hp. destruct (Hok Hp) as (img & Hi & Hf & Hl).
      eexists. split; [exact Hf|]. rewrite Hl. by apply seed_image_size. }
  clearbody prep. destruct prep as [[] fs]; cbn [negb fst snd] in *; destruct Hprep as [Ht Hok].
  2: { eexists. split; [done|]. cbn beta iota. split_and!; [done|constructor|]. right.
       split; [done|]. by exists path. }
  destruct (Hok eq_refl) as (d & Hd & Hdl).
  destruct (exercise_parser_spec fs path d Hd Hdl) as (calls & fs' & -> & Hc & Ht').
  eexists. split; [done|]. cbn beta iota. split_and!; [done|done|]. right. split; [done|].
  exists path. cbn [scratch harness_fs]. split_and!; [done| |done]. by etransitivity.
Qed.
End harness.

(** Where a run may have left traces. *)
Definition confined (fs : filesystem) (h : Harness) : Prop :=
  match scratch h with
  | None => harness_fs h = fs
  | Some path => only_touches path fs (harness_fs h)
  end.

(** The inputs that are looked at. *)
Definition fits (p : FuzzIo * bytes) : Prop := Zlength p.2 <= kMaximumFuzzInput.

(** A run ends by the exception of the scratch log's constructor: at the first
    input that is looked at, with nothing done before. *)
Definition run_threw (inputs : list (FuzzIo * bytes)) (all : list (Z * list ParserCall)) : Prop :=
  exists before io data after, inputs = before ++ (io, data) :: after /\
    length before = length all /\ Forall (fun p => ~ fits p) before /\ fits (io, data) /\
    io_temp_directory io = None /\ Forall (fun p => p.2 = []) all.

Lemma fuzz_inputs_spec `{!EventCodec} fs inputs : forall h, confined fs h ->
  exists all threw h', fuzz_inputs h inputs = Some (all, threw, h') /\
    Forall (fun p => p.1 = 0 /\ calls_ok p.2) all /\ confined fs h' /\
    (threw = true -> scratch h = None /\ scratch h' = None /\ run_threw inputs all) /\
    (threw = false -> length all = length inputs) /\
    (threw = false -> scratch h = None -> forall before io data after,
       inputs = before ++ (io, data) :: after -> Forall (fun p => ~ fits p) before ->
       fits (io, data) -> io_temp_directory io <> None).
Proof.
  induction inputs as [|[io data] inputs IH]; intros h Hh.
  { exists [], false, h. split_and!; try done. by intros _ _ []. }
  cbn [fuzz_inputs].
  destruct (fuzz_input_spec io h data) as (r & -> & Hr). destruct r as [code calls h1|h1].
  2: { destruct Hr as (-> & Hs & Hio & Hfit). exists [], true, h.
       split_and!; [done|constructor|done| |done|done]. intros _. split_and!; [done..|].
       exists [], io, data, inputs. by split_and!. }
  destruct Hr as (-> & Hc & Hor).
  assert (Hh1 : confined fs h1).
  { destruct Hor as [(-> & _)|(_ & path & Hs & Ht & Hd)]; [done|]. unfold confined in *. rewrite Hs.
    destruct (scratch h) as [p|]; [subst p; by etransitivity|by rewrite <- Hh]. }
  destruct (IH h1 Hh1) as (all & threw & h' & -> & Hall & Hh' & Hthrew & Hlen & Hnot).
  exists ((0, calls) :: all), threw, h'.
  split_and!; [done|by constructor|done| |intros Ht; cbn; by rewrite Hlen|].
  - intros Ht. destruct (Hthrew Ht) as (Hs1 & Hs' & before & io' & data' & after & -> & Hl & Hb & H1 & H2 & H3).
    destruct Hor as [(-> & -> & Hbig)|(_ & path & Hs & _)]; [|congruence].
    split_and!; [done..|]. exists ((io, data) :: before), io', data', after.
    split_and!; [done|cbn; lia| |done|done|by constructor]. constructor; [|done].
    unfold fits. cbn. lia.
  - intros Ht Hs before io' data' after Heq Hb Hfit.
    destruct Hor as [(-> & -> & Hbig)|(Hle & path & _ & _ & Hd)].
    + destruct before as [|p before]; cbn in Heq; simplify_eq.
      { unfold fits in Hfit. cbn in Hfit. lia. }
      apply Forall_cons in Hb as [_ Hb]. by eapply Hnot.
    + destruct before as [|p before]; cbn in Heq; simplify_eq; [by rewrite Hs in Hd|].
      apply Forall_cons in Hb as [Hp _]. by destruct Hp.
Qed.

Section mutations.
Context `{!EventCodec}.

Lemma write_seed_no_fault io fs path :
  is_Some (entry_of seed_event 2) -> io_output io = [] ->
  fs_exists fs path = Some false -> open_error fs path = false ->
  (write_seed io fs path).1 = true.
Proof.
  intros He Hio Hex Hop. unfold write_seed. rewrite Hio.
  destruct (LogWriter_new_no_fault fs (io_system_now io) path seed_options) as [Hg Hs];
    [done..|].
  destruct (append_no_fault _ seed_event 2 Hg Hs He) as (w1 & -> & Hg1 & Hs1).
  by destruct (flush_no_fault w1 Hg1 Hs1) as (w2 & -> & _).
Qed.

Lemma write_mutated_no_fault io fs path mutations :
  is_Some (entry_of seed_event 2) -> io_output io = [] -> io_update io = [] ->
  io_remove_fails io = false -> stat_error fs path = false -> open_error fs path = false ->
  (write_mutated_valid_log io fs path mutations).1 = true.
Proof.
  intros He Hout Hup Hrm Hst Hop. unfold write_mutated_valid_log. rewrite Hrm.
  set (fs0 := fs_remove false fs path).
  pose proof (write_seed_no_fault io fs0 path He Hout) as Hok.
  pose proof (write_seed_spec io fs0 path) as Hs.
  destruct (write_seed io fs0 path) as [ok fs1]. cbn [fst] in Hok.
  assert (Hfree : fs_exists fs0 path = Some false).
  { unfold fs0, fs_exists, fs_remove. cbn [stat_error with_files files]. by rewrite Hst, lookup_delete_eq. }
  rewrite (Hok Hfree Hop) in *.
  destruct Hs as ((_ & Hst1 & Hop1 & _) & Himg). cbn [negb].
  destruct (Himg eq_refl) as (img & Hsd & Hfile). pose proof (seed_image_size _ Hsd) as Hsz.
  unfold fs_file_size, fs_open_read. rewrite Hst1, Hop1, Hfile.
  change (stat_error fs0 path) with (stat_error fs path).
  change (open_error fs0 path) with (open_error fs path).
  rewrite Hst, Hop. cbn [fmap option_fmap option_map].
  destruct (Z.eqb_spec (Zlength img) 0) as [|_]; [lia|].
  pose proof (mutate_loop_spec (Zlength img) mutations (fstream_open img (io_update io))
    ltac:(lia) eq_refl eq_refl) as Hm. rewrite Hup in *.
  destruct (mutate_loop _ _ _) as [ok' file]. destruct Hm as (_ & Hok' & Hn).
  destruct (Hn eq_refl) as [-> Hsc]. destruct (Hok' eq_refl) as [Hg _].
  cbn [fst andb]. unfold fst_flush. rewrite Hg, Hsc. cbn [negb]. done.
Qed.

(** The first call is the reading, and the only one unless a tail is missing. *)
Lemma exercise_first fs path r calls fs' : read_log fs path parser_options = Some r ->
  exercise_parser fs path = Some (calls, fs') ->
  exists rest, calls = Called_read r :: rest /\ (status r <> Log_truncated_tail -> rest = []).
Proof.
  intros Hr. unfold exercise_parser. rewrite Hr. case_bool_decide as Ht; cbn [negb].
  - destruct (recover_truncated_tail fs path parser_options) as [[rc fs1]|]; [|done].
    destruct (negb (succeeded rc)); [|destruct (read_log fs1 path parser_options); [|done]];
      intros [= <- <-]; by eexists.
  - intros [= <- <-]. by exists [].
Qed.

(** The parser on the seed log, with at most one byte changed. *)
Lemma read_mutated e img data : readable e seed_event -> img = log_image 1 [e] ->
  Zlength img < 2 ^ 64 ->
  (data = img -> exists r, read_log_from (Some (Zlength data)) (Some data) parser_options = Some r /\
     status r = Log_complete /\ Zlength (index r) = 1) /\
  (forall j v, data = <[j := v]> img -> data <> img ->
     exists r, read_log_from (Some (Zlength data)) (Some data) parser_options = Some r /\
       status r = Log_corrupt).
Proof.
  intros Hrd Himg Hsz.
  assert (Hrds : readables [(e, seed_event)]) by (by constructor). split.
  - intros ->. rewrite Himg in *.
    pose proof (read_log_whole parser_options (build_file_header 1) [(e, seed_event)]
      (header_ok_built 1) Hrds ltac:(cbn; lia)) as Hr.
    cbv zeta in Hr. eexists. split; [by apply Hr|]. done.
  - intros j v -> Hne. destruct (img !! j) as [b|] eqn:Hj.
    2: { exfalso. apply Hne. apply list_insert_ge. by apply lookup_ge_None. }
    assert (v <> b) by (intros ->; apply Hne; by apply list_insert_id).
    rewrite Himg in *.
    destruct (read_log_damaged parser_options 1 [(e, seed_event)] j b v)
      as (r & Hr & Hst & _); [solve_range|done|cbn; lia|done..|]. by exists r.
Qed.
End mutations.

(** ** Sample values *)

Definition fuzz_table : list (TelemetryEvent * bytes) := [(seed_event, [x2a; x2a; x2a])].
Definition fuzz_codec : EventCodec := table_codec fuzz_table.

Lemma fuzz_codec_laws : @EventCodecLaws fuzz_codec (fun _ => True).
Proof. apply table_codec_laws. apply (bool_decide_unpack _). by vm_compute. Qed.

Definition sample_io : FuzzIo :=
  {| io_temp_directory := Some "/tmp"; io_steady_clock := 12345; io_remove_fails := false;
     io_system_now := 77; io_output := []; io_update := [] |}.

Definition sample_harness : Harness := {| scratch := None; harness_fs := fs_of ∅ |}.

Example scratch_name :
  ScratchLog_new sample_io = Some "/tmp/traceforge_recording_fuzz_12345.tflog"%string.
Proof. reflexivity. Qed.

(** ** Properties *)

(** C39: the fuzz harness is sound for every input and every fault. Whatever
    inputs the fuzzer runs and whatever its writes and its file system answer,
    every call of the entry point ends: it returns 0, or, at the first input that
    is not too long and before anything was touched, the exception of
    [temp_directory_path] leaves it - exactly when that throws there - and ends
    the run. The library is asked at most to read the prepared file, to recover
    it when and only when its tail is truncated, and after a successful recovery,
    which made the file shorter, to read it again - which then finds a complete
    log with the records of the first reading. No file but the scratch log is
    ever touched, and at exit that one is gone, unless its removal fails. *)
Theorem fuzz_run_contract `{!EventCodec} fs inputs io_exit :
  exists all threw h,
    fuzz_inputs {| scratch := None; harness_fs := fs |} inputs = Some (all, threw, h) /\
    Forall (fun p => p.1 = 0 /\ calls_ok p.2) all /\
    (if threw then run_threw inputs all /\ scratch h = None
     else length all = length inputs /\
       forall before io data after, inputs = before ++ (io, data) :: after ->
         Forall (fun p => ~ fits p) before -> fits (io, data) -> io_temp_directory io <> None) /\
    forall path,
      files (fuzz_exit io_exit h) !! path =
        if decide (scratch h = Some path) then
          if io_remove_fails io_exit then files (harness_fs h) !! path else None
        else files fs !! path.
Proof.
  destruct (fuzz_inputs_spec fs inputs {| scratch := None; harness_fs := fs |} eq_refl)
    as (all & threw & h & Hrun & Hall & Hc & Hthrew & Hlen & Hnot).
  exists all, threw, h. split_and!; [done|done| |].
  { destruct threw; [by destruct (Hthrew eq_refl) as (_ & ? & ?)|]. split; [auto|by apply Hnot]. }
  intros path. unfold fuzz_exit, confined in *.
  destruct (scratch h) as [p|]; [|by rewrite Hc].
  unfold ScratchLog_delete, fs_remove. case_decide as Hp.
  - injection Hp as ->. destruct (io_remove_fails io_exit); [done|].
    cbn [files with_files]. by rewrite lookup_delete_eq.
  - assert (path <> p) by congruence.
    destruct (io_remove_fails io_exit); cbn [files with_files]; rewrite ?lookup_delete_ne by done;
      by eapply touches_elsewhere.
Qed.

(** A raw input, one too long to be looked at, and a run whose temporary
    directory cannot be found. *)
Lemma fuzz_run_contract_witness :
  let io := {| io_temp_directory := None; io_steady_clock := 1; io_remove_fails := false;
               io_system_now := 77; io_output := []; io_update := [] |} in
  exists all threw h,
    @fuzz_inputs fuzz_codec sample_harness [(io, [x01; x02])] = Some (all, threw, h) /\
    threw = true /\ scratch h = None /\
    forall path, files (fuzz_exit sample_io h) !! path = None.
Proof.
  intros io. destruct (@fuzz_run_contract fuzz_codec (fs_of ∅) [(io, [x01; x02])] sample_io)
    as (all & threw & h & Hrun & _ & Hend & Hfiles).
  exists all, threw, h. split; [exact Hrun|].
  assert (Ht : Some threw = Some true).
  { transitivity ((fun r => r.1.2) <$> Some (all, threw, h)); [reflexivity|].
    rewrite <- Hrun. vm_compute. reflexivity. }
  injection Ht as ->. destruct Hend as [_ Hs]. split; [reflexivity|]. split; [exact Hs|].
  intros path. rewrite Hfiles, decide_False by congruence. apply lookup_empty.
Defined.

(** What the mutations of the harness exercise. An input of the second kind,
    on a file system that works, is a recording of one event with the listed bytes
    changed: the parser reads it as a complete log of one record when the
    changes cancel out, and reports corruption, so that no recovery is tried, when
    exactly one byte is left changed. *)
Theorem fuzz_mutations_judged `{!EventCodec} (wire_ok : TelemetryEvent -> Prop)
    `{!EventCodecLaws _ wire_ok} io h b mutations path :
  wire_ok seed_event -> is_Some seed_image ->
  Z.land (byte_val b) 1 = 0 -> Zlength (b :: mutations) <= kMaximumFuzzInput ->
  (match scratch h with Some path => Some path | None => ScratchLog_new io end) = Some path ->
  stat_error (harness_fs h) path = false -> open_error (harness_fs h) path = false ->
  io_remove_fails io = false -> io_output io = [] -> io_update io = [] ->
  exists img r calls h', seed_image = Some img /\
    LLVMFuzzerTestOneInput io h (b :: mutations) = Some (Fuzz_returns 0 (Called_read r :: calls) h') /\
    file_size r = Zlength img /\
    let data := mutated (Zlength img) mutations img in
    (data = img -> status r = Log_complete /\ Zlength (index r) = 1 /\ calls = []) /\
    (forall j v, data = <[j := v]> img -> data <> img ->
       status r = Log_corrupt /\ calls = []).
Proof.
  intros Hw Hsome Hb Hlen Hpath Hst Hop Hrm Hout Hup.
  assert (Hentry : is_Some (entry_of seed_event 2)).
  { destruct Hsome as [img (e & He & _)%fmap_Some]. by exists e. }
  pose proof (write_mutated_no_fault io (harness_fs h) path mutations Hentry Hout Hup Hrm Hst Hop) as Hok.
  pose proof (write_mutated_spec io (harness_fs h) path mutations) as Hs.
  unfold LLVMFuzzerTestOneInput. cbn [tail]. rewrite Hpath, Hb, Z.eqb_refl. cbn [negb].
  destruct (Z.ltb_spec kMaximumFuzzInput (Zlength (b :: mutations))) as [|_]; [lia|].
  destruct (write_mutated_valid_log _ _ _ _) as [ok fs']. cbn [fst] in Hok. subst ok. cbn [negb].
  destruct Hs as ((_ & Hst' & Hop' & _) & Himg).
  destruct (Himg eq_refl) as (img & Hsd & Hfile & Hl). pose proof (seed_image_size _ Hsd) as Hsz.
  set (data := mutated (Zlength img) mutations img) in *.
  assert (Hf : readable_file fs' path data) by (constructor; [done|congruence|congruence|tf_arith]).
  destruct (exercise_parser_spec fs' path data Hfile ltac:(tf_arith)) as (calls & fs2 & Hex & _ & _).
  destruct (read_log_some fs' path data parser_options Hf) as [r Hr].
  destruct (exercise_first _ _ _ _ _ Hr Hex) as (rest & -> & Hrest). rewrite Hex.
  rewrite (read_log_file _ _ _ _ Hf) in Hr.
  pose proof Hsd as Hse. unfold seed_image in Hse. apply fmap_Some in Hse as (e & He & Hie).
  destruct (entry_readable wire_ok seed_event 2 e Hw ltac:(solve_range) He) as [Hrd _].
  destruct (read_mutated e img data Hrd Hie ltac:(tf_arith)) as [Hsame Hone].
  exists img, r, rest. eexists. do 2 (split; [done|]).
  split; [rewrite (read_log_size _ _ _ _ Hr); lia|]. fold data. split.
  - intros (r' & Hr' & H1 & H2)%Hsame. rewrite Hr in Hr'. injection Hr' as <-.
    split_and!; [done..|]. apply Hrest. congruence.
  - intros j v H1 H2. destruct (Hone j v H1 H2) as (r' & Hr' & H3).
    rewrite Hr in Hr'. injection Hr' as <-. split; [done|]. apply Hrest. congruence.
Qed.

Lemma fuzz_mutations_judged_witness :
  exists img r calls h', @seed_image fuzz_codec = Some img /\
    @LLVMFuzzerTestOneInput fuzz_codec sample_io sample_harness [x00; x28; xff] =
      Some (Fuzz_returns 0 (Called_read r :: calls) h') /\
    file_size r = Zlength img /\
    let data := mutated (Zlength img) [x28; xff] img in
    (data = img -> status r = Log_complete /\ Zlength (index r) = 1 /\ calls = []) /\
    (forall j v, data = <[j := v]> img -> data <> img ->
       status r = Log_corrupt /\ calls = []).
Proof.
  apply (@fuzz_mutations_judged fuzz_codec _ fuzz_codec_laws sample_io sample_harness x00
    [x28; xff] (default ""%string (ScratchLog_new sample_io))).
  - exact I.
  - apply (bool_decide_unpack _). vm_compute. exact I.
  - reflexivity.
  - vm_compute. congruence.
  - reflexivity.
  - reflexivity.
  - reflexivity.
  - reflexivity.
  - reflexivity.
  - reflexivity.
Defined.
